(* ===== verification/_CoqProject ===== *)
-Q . S2P
Prelude.v
Bits.v
Z32.v
Text.v
BTree.v
IO.v
Crypto.v
Error.v
Route.v
Seal.v
RootBackup.v
Opaque.v
Policy.v
Trees.v
Storage.v
Journal.v
Snapshot.v
Device.v
Checkpoint.v
Persist.v
Store.v
Boot.v
Codes.v
MeetingWire.v
Coop.v
Meeting.v
MeetingRuns.v
Automerge.v
History.v
ContactsWire.v
Registers.v
Contacts.v
ContactsFacts.v
ContactsGroups.v
Async.v
Identity.v
Custody.v
DriveText.v
DriveClient.v
DrivePass.v
DriveFacts.v
DriveLink.v
Apps.v
Events.v
Calls.v
Book.v
BookFacts.v
Us.v
VisorModel.v
VisorFacts.v
Sharing.v
SharingFacts.v
Peers.v
PeersFacts.v
Todo.v
Services.v
ServicesFacts.v
Watch.v
Frontier.v
FrontierFacts.v
Items.v
Catalog.v
Links.v
LinksFacts.v
Ingest.v
IngestFacts.v
Engine.v
Publish.v
Requests.v
EngineToy.v
Discipline.v
Locks.v
Sealed.v
EngineFacts.v
EngineRuns.v
VisorUi.v
Backups.v
Adoption.v
Pairing.v
PairingRuns.v
