(* ===== verification/Prelude.v ===== *)
(** * polyvisor: a verification library

    polyvisor keeps one person's documents on several devices.  A worker runs a
    [kernel] (device records, checkpoints, pairing, contacts, sharing, the
    durable store), which owns an [engine] (sedimentree storage, the Keyhive
    group, the user-system document, opaque trees), and a trusted [visor] draws
    what the kernel reports.  All kernel code is single-threaded and
    asynchronous: tasks share cells and interleave at their awaits.

    ** How the library models it

    A definition translates one function, type or block of the Rust source and
    keeps its name; integers keep their width where the code can overflow, a
    [Result] is [result], a [BTreeMap] is a [gmap] iterated in key order.
    Effects are modelled in four ways, by what the code needs:
    - pure functions for codecs, envelopes, schemas and decisions;
    - [IO.prog], calls on the kernel's seams run against a world with a crash
      budget and a list of faulty writes, for everything that rests on disk;
    - [Coop] systems, one shared cell and tasks suspended at awaits, for the two
      ceremonies in which tasks of several generations meet in one cell;
    - [Async.prog], an [async fn] as the calls it makes, with answers that are
      anything, for the other long operations: what other tasks do between two
      calls is some answer, so a theorem over every history covers it.

    Code outside the repository is never made up: ciphers, hashes, signatures,
    base encodings, prost, serde_json, bincode, automerge, sedimentree and
    Keyhive are type classes (or section variables) whose laws are the
    documented behaviour that is relied on, with small executable instances
    ([Crypto.Toy] and the [Concrete] modules) at which the witnesses evaluate.

    ** Files, and the source they model

    Shared: [Prelude] (bytes, results, lists, tactics), [Bits], [BTree], [IO]
    (the seams of kernel/src/lib.rs), [Crypto], [Error], [Automerge],
    [Registers], [Coop], [Async].
    - [Z32]: runtime/component/src/z32.rs.  [Text]: the hexadecimal readers and
      writers of engine/src/us.rs, engine/src/lib.rs and visor-model.
    - [Route], [Seal], [RootBackup]: kernel/src/route.rs, seal.rs, root_backup.rs.
    - [Opaque], [Policy], [Trees], [Storage], [Journal], [Snapshot]:
      engine/src/opaque.rs, policy.rs, storage.rs, and the tree names, the
      [JournalState] and the snapshots of engine/src/lib.rs.
    - [Device], [Checkpoint], [Store], [Persist], [Boot]: kernel/src/device.rs,
      petname/src/lib.rs, checkpoint.rs, store.rs, and of kernel/src/lib.rs the
      device state, the gates, the checkpoint writer and mint, resume, keep,
      unseal and erase.
    - [Codes], [Pairing], [PairingRuns]: kernel/src/pairing.rs.
    - [MeetingWire], [Meeting], [MeetingRuns]: kernel/src/meeting.rs.
    - [History]: document-history/src/lib.rs.  [ContactsWire], [Contacts],
      [ContactsFacts], [ContactsGroups]: contacts-model/src/lib.rs.  [Us]:
      engine/src/us.rs.  [VisorModel], [VisorFacts]: visor-model/src/lib.rs.
      [Todo]: todo-model/src/lib.rs.
    - [Identity], [Custody]: the identity of kernel/src/contacts.rs and
      kernel/src/root_transfer.rs.
    - [DriveText], [DriveClient], [DrivePass], [DriveFacts], [DriveLink]:
      kernel/src/drive.rs.
    - [Calls], [Book], [BookFacts]: the calls shared by the kernel's long
      operations, and the rest of kernel/src/contacts.rs (books, import, export,
      introductions).  [Sharing], [SharingFacts]: kernel/src/sharing.rs.
    - [Peers], [PeersFacts]: kernel/src/sync.rs.  [Apps]: kernel/src/apps.rs.
      [Events]: kernel/src/events.rs.
    - [Services], [ServicesFacts], [Watch]: of kernel/src/lib.rs the sessions,
      links, settings, app services, opaque slots, and the waiters of a document with
      every path that changes one (also sync.rs, drive.rs, pairing.rs).
    - [Adoption]: the end of a joiner's ceremony, kernel/src/pairing.rs.
    - [Backups]: the root backup operations of kernel/src/lib.rs.
    - [Frontier], [FrontierFacts]: the heads of engine/src/vault.rs, sealing and
      the three openers.  [Items], [Ingest], [IngestFacts]: of engine/src/lib.rs
      which items are taken, import and inline delivery.  [Catalog], [Links],
      [LinksFacts]: its catalogs and the state of its connections.
    - [Engine] (the cells, and the calls to the driver, the locks and the vault),
      [Publish] (sealing, publishing, absorbing, compacting, opening), [Requests]
      (the public operations and the events of the pump, all of them under
      [serve]): the rest of engine/src/lib.rs.  [EngineToy] is a driver to run
      them against, [Discipline] a rule for what every call of [serve] respects,
      [Locks], [Sealed], [EngineFacts] the theorems and [EngineRuns] their
      runs.
    - [VisorUi]: visor/src/state.rs, draft.rs, glyph.rs, contacts.rs, voice.rs.

    ** What the theorems show

    - Codecs are exact: a fragment, an envelope, an id or an introduction reads
      back to what was written, and nothing else reads ([Route], [RootBackup],
      [Z32], [ContactsWire], [DriveText]).
    - The disk: a checkpoint commits by its pointer, whatever crashes or tears
      ([Persist]); boot and keep leave a device that still opens, with the
      exception exhibited in [Boot]; the sweep destroys only what nothing names
      ([Store]); the engine journal is the storage at a settled cut ([Journal],
      refinement) and its snapshot loses nothing ([Snapshot]).
    - The ceremonies: what must have been confirmed before a device is enrolled
      or a contact is stored, one ceremony per cell, liveness of the session
      ([Pairing], [PairingRuns], [Meeting], [MeetingRuns]).
    - Custody: a root seed is installed, acknowledged and sent only behind every
      check of the code ([Custody]).
    - Documents: histories converge, where automerge refuses nothing, and are
      published in causal order ([History]); every schema operation on every
      branch, failures included ([Contacts...], [Us], [VisorFacts], [Todo]); one
      group per root ([ContactsGroups]).
    - The durable store: what a synchronisation pass may upload, take in and
      delete, down to the requests on the wire ([DriveFacts], [DriveLink]), and
      whose consent a sign-in stores ([DriveClient]).
    - Contacts and sharing: what an import may store and an introduction shows
      ([BookFacts]); a grant follows what was shown and is recorded, an invitation
      is delivered, acknowledged and adopted only behind every check of the code
      and once on disk ([SharingFacts]).
    - Peers: a typed id is dialed only as a member's, a hint only with document
      authority, and whoever else authenticates is disconnected ([PeersFacts]).
    - Apps: a session's services stay in its document and answer once on disk, the
      personal list is made once, a link opens as it was written
      ([ServicesFacts]); no wake-up of the event pump is missed ([Events]), and none
      of a watch but by the paths that leave its document's watchers asleep, which
      are exhibited ([Watch]); assets are what their handles say ([Apps]).
    - Adoption: nothing of a joiner changes before its enrollment proved coherent,
      and what is adopted reaches the disk whole, before the receipt
      ([Adoption]).
    - Backups: a restored seed is the one its envelope opens to for the identity
      that is still the device's, and so is the envelope put into the synced slot
      ([Backups], which also exhibits a replacement that loses the backup).
    - The engine: among any operations under way one goes on, for locks are only
      ever taken in one order ([Locks]); what leaves for the driver is an envelope
      sealed for it, save where the code means plaintext ([Sealed]); a mutation
      publishes every change it authored and confirms each only once persisted,
      and an opaque item the same, only while its tree is current, which it retires
      otherwise ([EngineFacts]);
      nothing that could be read is lost to the frontier by opening, or by sealing
      and confirming ([FrontierFacts]); an import installs exactly what the checks
      accept ([Items], [IngestFacts]); opaque storage waits for every connection's
      control exchange, and both ends of crossed dials keep the same wire
      ([LinksFacts]).

    ** Bounds and fuel

    [IO.run] has a crash budget: an execution cut after any number of effects is
    one of some budget, so the crash theorems quantify over all of them.
    [History.causal_order] has the number of changes as fuel, which is enough
    because every turn removes one (proved).  Paging and retry loops of
    [DriveClient], [DrivePass] that the code does not bound take fuel; every
    finite history is a history of some fuel, and the theorems hold for all.
    [Frontier.walk_queue] counts down the batch, each of which opens at most once,
    and is proved to reach what is reachable.  Everything else is structural.
    The generations and journal positions of a device ([Persist]) are unbounded
    where the code counts them in u64: no device writes 2^64 checkpoints.

    ** Not modelled

    - Drawing: visor/src/ui.rs, contacts_ui.rs, sharing_ui.rs, style.rs and the
      component and kernel glue beside them produce dioxus elements and calls
      of the WIT bindings; the decisions they take are in [VisorUi].
    - runtime/component/src/component.rs, lib.rs and net.rs translate between
      generated bindings and the kernel; kdf-component wraps one Argon2 call.
    - apps/ (TodoMVC, Markdown, the hostile test app) are user interfaces over
      the models above.
    - Keyhive and subduction themselves: engine/src/vault.rs beyond its frontier,
      transport.rs and clock.rs only drive them, and they enter as calls whose
      answers are anything; so do reads that forward to the vault (contact card,
      membership proof, entry points).
*)
From Stdlib Require Export ZArith Lia String.
From Stdlib Require Strings.Byte.
From stdpp Require Export base tactics decidable countable option list numbers strings gmap sorting pretty.

#[global] Set Default Goal Selector "!".
#[global] Open Scope Z_scope.

(** ** Bytes

    A [u8] is the Standard Library's [Byte.byte]; [u8] reads it as an integer
    and [byte_of] is the truncating cast [as u8].  A Rust [String] or [&str] is
    a [string], whose characters are its UTF-8 bytes; [as_bytes] is
    [str::as_bytes]. *)
Abbreviation byte := Byte.byte.
Abbreviation bytes := (list Byte.byte).

Definition u8 (b : byte) : Z := Z.of_N (Byte.to_N b).
Definition byte_of (z : Z) : byte :=
  default Byte.x00 (Byte.of_N (Z.to_N (z mod 256))).
Definition as_bytes (s : string) : bytes := String.list_byte_of_string s.
Definition str_of (b : bytes) : string := String.string_of_list_byte b.

#[export] Instance byte_eq_dec : EqDecision byte := Byte.byte_eq_dec.
#[export] Program Instance byte_countable : Countable byte :=
  inj_countable Byte.to_N Byte.of_N _.
Next Obligation. intros b. apply Byte.of_to_N. Qed.

Lemma u8_range b : 0 <= u8 b < 256.
Proof. unfold u8. pose proof (Byte.to_N_bounded b). lia. Qed.

Lemma u8_byte_of z : u8 (byte_of z) = z mod 256.
Proof.
  unfold u8, byte_of. pose proof (Z.mod_pos_bound z 256 ltac:(lia)) as Hz.
  destruct (Byte.of_N (Z.to_N (z mod 256))) as [b|] eqn:Hb; simpl.
  - apply Byte.to_of_N in Hb. rewrite Hb. lia.
  - apply Byte.of_N_None_iff in Hb. lia.
Qed.

Lemma byte_of_u8 b : byte_of (u8 b) = b.
Proof.
  unfold byte_of. rewrite Z.mod_small by apply u8_range.
  unfold u8. by rewrite N2Z.id, Byte.of_to_N.
Qed.

Lemma u8_inj b1 b2 : u8 b1 = u8 b2 → b1 = b2.
Proof. intros H. by rewrite <- (byte_of_u8 b1), <- (byte_of_u8 b2), H. Qed.

#[export] Instance u8_injective : Inj (=) (=) u8 := u8_inj.

Lemma u8_byte_of_small z : 0 <= z < 256 → u8 (byte_of z) = z.
Proof. intros ?. rewrite u8_byte_of. by apply Z.mod_small. Qed.

Lemma str_of_as_bytes s : str_of (as_bytes s) = s.
Proof. apply String.string_of_list_byte_of_string. Qed.

Lemma as_bytes_str_of b : as_bytes (str_of b) = b.
Proof. apply String.list_byte_of_string_of_list_byte. Qed.

(** ** Results

    Rust's [Result<A, E>] and the [?] operator: a bind that stops at the first
    [Err].  stdpp's [x ← m; k] is the notation. *)
Inductive result (E A : Type) : Type :=
| Ok (a : A)
| Err (e : E).
Arguments Ok {E A} a.
Arguments Err {E A} e.

#[export] Instance result_ret E : MRet (result E) := λ A a, Ok a.
#[export] Instance result_bind E : MBind (result E) := λ A B f r,
  match r with Ok a => f a | Err e => Err e end.
#[export] Instance result_fmap E : FMap (result E) := λ A B f r,
  match r with Ok a => Ok (f a) | Err e => Err e end.
#[export] Instance result_eq_dec `{EqDecision E, EqDecision A} : EqDecision (result E A).
Proof. solve_decision. Defined.

(** [Option::ok_or_else], [Result::map_err], [Result::ok]. *)
Definition ok_or {E A} (e : E) (o : option A) : result E A :=
  match o with Some a => Ok a | None => Err e end.
Definition map_err {E F A} (f : E → F) (r : result E A) : result F A :=
  match r with Ok a => Ok a | Err e => Err (f e) end.
Definition ok {E A} (r : result E A) : option A :=
  match r with Ok a => Some a | Err _ => None end.
Definition is_ok {E A} (r : result E A) : bool :=
  match r with Ok _ => true | Err _ => false end.

Lemma bind_Ok {E A B} (r : result E A) (f : A → result E B) b :
  (r ≫= f) = Ok b ↔ ∃ a, r = Ok a ∧ f a = Ok b.
Proof. destruct r as [a|e]; simpl; naive_solver. Qed.

Lemma ok_or_Ok {E A} (e : E) (o : option A) a : ok_or e o = Ok a ↔ o = Some a.
Proof. destruct o; naive_solver. Qed.
Lemma map_err_Ok {E F A} (f : E → F) (r : result E A) a : map_err f r = Ok a ↔ r = Ok a.
Proof. destruct r; simpl; split; congruence. Qed.

(** ** Machine integers

    A [w]-bit unsigned integer is a [Z] in [0 .. 2^w - 1]; each operation
    writes out what Rust does at the boundary. *)
Definition umax (w : Z) : Z := 2 ^ w - 1.
Definition in_width (w z : Z) : Prop := 0 <= z < 2 ^ w.
Definition wrap (w z : Z) : Z := z mod 2 ^ w.
Definition saturating_add (w a b : Z) : Z := Z.min (a + b) (umax w).
Definition saturating_mul (w a b : Z) : Z := Z.min (a * b) (umax w).
Definition saturating_sub (a b : Z) : Z := Z.max 0 (a - b).
Definition checked_add (w a b : Z) : option Z :=
  if a + b <? 2 ^ w then Some (a + b) else None.

(** ** Fixed-width big- and little-endian integers

    [to_be_bytes], [from_be_bytes], [to_le_bytes] and [from_le_bytes]. *)
Fixpoint be_bytes (n : nat) (z : Z) : bytes :=
  match n with
  | O => []
  | S n => be_bytes n (z / 256) ++ [byte_of z]
  end.
Definition be_val (l : bytes) : Z := foldl (λ acc b, acc * 256 + u8 b) 0 l.
Definition le_bytes (n : nat) (z : Z) : bytes := reverse (be_bytes n z).
Definition le_val (l : bytes) : Z := be_val (reverse l).

Lemma length_be_bytes n z : length (be_bytes n z) = n.
Proof.
  revert z. induction n as [|n IH]; intros z; simpl; [done|].
  rewrite length_app, IH. simpl. lia.
Qed.

Lemma be_val_app l b : be_val (l ++ [b]) = be_val l * 256 + u8 b.
Proof. unfold be_val. by rewrite foldl_app. Qed.

Lemma be_val_be_bytes n z : be_val (be_bytes n z) = z mod 256 ^ Z.of_nat n.
Proof.
  revert z. induction n as [|n IH]; intros z; cbn [be_bytes].
  - simpl. by rewrite Z.mod_1_r.
  - rewrite be_val_app, IH, u8_byte_of, Nat2Z.inj_succ, Z.pow_succ_r by lia.
    rewrite Z.rem_mul_r by lia. lia.
Qed.

Lemma be_bytes_be_val l : be_bytes (length l) (be_val l) = l.
Proof.
  induction l as [|b l IH] using rev_ind; [done|].
  rewrite length_app, Nat.add_comm, be_val_app. cbn [length Nat.add be_bytes].
  pose proof (u8_range b) as Hb. f_equal.
  - rewrite (Z.div_add_l _ 256) by lia. rewrite Z.div_small by lia.
    by rewrite Z.add_0_r.
  - f_equal. rewrite <- (byte_of_u8 b) at 2. unfold byte_of. do 3 f_equal.
    rewrite (Z.add_comm (_ * 256)), Z.mod_add by lia. done.
Qed.

Lemma be_val_range l : 0 <= be_val l < 256 ^ Z.of_nat (length l).
Proof.
  rewrite <- (be_bytes_be_val l) at 1 2. rewrite be_val_be_bytes.
  apply Z.mod_pos_bound. lia.
Qed.

Lemma be_val_be_bytes_small n z :
  0 <= z < 256 ^ Z.of_nat n → be_val (be_bytes n z) = z.
Proof. intros ?. rewrite be_val_be_bytes. by apply Z.mod_small. Qed.

Lemma be_bytes_inj n z1 z2 :
  0 <= z1 < 256 ^ Z.of_nat n → 0 <= z2 < 256 ^ Z.of_nat n →
  be_bytes n z1 = be_bytes n z2 → z1 = z2.
Proof.
  intros H1 H2 H. by rewrite <- (be_val_be_bytes_small n z1), H, be_val_be_bytes_small.
Qed.

(** The lengths of fixed-width pieces, for the layouts of envelopes. *)
Create HintDb lengths.
#[export] Hint Rewrite @length_app length_be_bytes @length_replicate @length_take @length_drop : lengths.
Ltac lens := autorewrite with lengths; simpl; try lia.

#[global] Arguments be_bytes : simpl never.
#[global] Arguments be_val : simpl never.

(** ** Slices

    [&l[a..b]] when [a <= b <= l.len()]. *)
Definition slice {A} (a b : nat) (l : list A) : list A := take (b - a) (drop a l).

Lemma length_slice {A} a b (l : list A) :
  (a ≤ b)%nat → (b ≤ length l)%nat → length (slice a b l) = (b - a)%nat.
Proof. intros. unfold slice. rewrite length_take, length_drop. lia. Qed.

Lemma slice_0 {A} n (l : list A) : slice 0 n l = take n l.
Proof. unfold slice. by rewrite Nat.sub_0_r. Qed.

Lemma slice_split {A} a b c (l : list A) :
  (a ≤ b)%nat → (b ≤ c)%nat → slice a c l = slice a b l ++ slice b c l.
Proof.
  intros. unfold slice. replace (drop b l) with (drop (b - a) (drop a l)).
  - replace (c - a)%nat with ((b - a) + (c - b))%nat by lia. by rewrite take_take_drop.
  - rewrite drop_drop. f_equal. lia.
Qed.

Lemma slice_one {A} i (l : list A) x : l !! i = Some x → slice i (S i) l = [x].
Proof.
  intros H. unfold slice. rewrite (drop_S _ _ _ H).
  by replace (S i - i)%nat with 1%nat by lia.
Qed.

Lemma slice_skip {A} n a b (p r : list A) :
  length p = n → (n ≤ a)%nat → slice a b (p ++ r) = slice (a - n) (b - n) r.
Proof.
  intros <- Ha. unfold slice. rewrite drop_app_ge by done. f_equal. lia.
Qed.

Lemma slice_here {A} b (m r : list A) : length m = b → slice 0 b (m ++ r) = m.
Proof. intros <-. by rewrite slice_0, take_app_length. Qed.

Lemma lookup_skip {A} n i (p r : list A) :
  length p = n → (n ≤ i)%nat → (p ++ r) !! i = r !! (i - n)%nat.
Proof. intros <- Hi. by apply lookup_app_r. Qed.

Lemma be_bytes_slice n z l : be_val l = z → length l = n → l = be_bytes n z.
Proof. intros <- <-. by rewrite be_bytes_be_val. Qed.

(** [split_bytes n l] is [l.split_at(n)]. *)
Definition split_at {A} (n : nat) (l : list A) : list A * list A := (take n l, drop n l).

(** [<[u8; n]>::try_from(l)]: the length is the only condition. *)
Definition try_array {A} (n : nat) (l : list A) : option (list A) :=
  if decide (length l = n) then Some l else None.

Lemma try_array_Some {A} n (l a : list A) : try_array n l = Some a ↔ a = l ∧ length l = n.
Proof. unfold try_array. case_decide; naive_solver. Qed.

Lemma try_array_exact {A} n (l : list A) : length l = n → try_array n l = Some l.
Proof. intros <-. unfold try_array. by rewrite decide_True. Qed.

(** [dst[at..at + src.len()].copy_from_slice(src)], in range. *)
Definition copy_at {A} (at_ : nat) (src dst : list A) : list A :=
  take at_ dst ++ src ++ drop (at_ + length src) dst.

Lemma length_copy_at {A} i (src dst : list A) :
  (i + length src ≤ length dst)%nat → length (copy_at i src dst) = length dst.
Proof. intros. unfold copy_at. rewrite !length_app, length_take, length_drop. lia. Qed.

Lemma copy_at_app {A} i (p src dst : list A) :
  length p = i → copy_at i src (p ++ dst) = p ++ src ++ drop (length src) dst.
Proof.
  intros <-. unfold copy_at. rewrite take_app_length, drop_app_add. done.
Qed.

(** Filling a zeroed buffer from the left. *)
Lemma copy_replicate {A} i (p src : list A) z n m :
  length p = i → length src = m → (m ≤ n)%nat →
  copy_at i src (p ++ replicate n z) = p ++ src ++ replicate (n - m) z.
Proof. intros <- <- Hm. rewrite copy_at_app by done. by rewrite drop_replicate. Qed.

Lemma insert_replicate {A} i (p : list A) x z n :
  length p = i → (0 < n)%nat →
  <[i := x]> (p ++ replicate n z) = p ++ [x] ++ replicate (n - 1) z.
Proof.
  intros <- Hn. rewrite insert_app_r_alt, Nat.sub_diag by lia.
  destruct n as [|n]; [lia|]. simpl. by rewrite Nat.sub_0_r.
Qed.

Lemma slice_app {A} (p m r : list A) a b :
  length p = a → length m = (b - a)%nat → slice a b (p ++ m ++ r) = m.
Proof. intros <- H. unfold slice. rewrite drop_app_length, <- H. apply take_app_length. Qed.

Lemma lookup_app_at {A} (p r : list A) x i : length p = i → (p ++ x :: r) !! i = Some x.
Proof. intros <-. rewrite lookup_app_r by lia. by rewrite Nat.sub_diag. Qed.

(** ** Collecting into a [Result]: the first error, or every value *)
Lemma mapM_Ok {E A B} (f : A → result E B) l k : mapM f l = Ok k ↔ Forall2 (λ x y, f x = Ok y) l k.
Proof.
  revert k. induction l as [|x l IH]; intros k; cbn [mapM].
  - split; [intros [= <-]; constructor|]. by intros ->%Forall2_nil_inv_l.
  - rewrite bind_Ok. split.
    + intros (y & Hy & (k' & Hk & [= <-])%bind_Ok). constructor; [done|]. by apply IH.
    + intros H. inversion H as [|? y ? k' Hy Hk]; subst. exists y. split; [done|].
      apply bind_Ok. exists k'. split; [by apply IH|done].
Qed.
