(* ===== verification/Bits.v ===== *)
(** * Bit strings

    The most-significant-first bit strings the base-32 codec is specified
    with: [zbits n z] is the low [n] bits of [z], and the lemmas say how the
    shift-and-mask arithmetic of an accumulator acts on them. *)
From S2P Require Import Prelude.

Fixpoint zbits (n : nat) (z : Z) : list bool :=
  match n with
  | O => []
  | S n => Z.testbit z (Z.of_nat n) :: zbits n z
  end.

Definition zeros (n : nat) : list bool := replicate n false.

(** The bits of a byte string, and of a list of [w]-bit digits. *)
Definition bits_of (w : nat) (l : list Z) : list bool := l ≫= zbits w.

Lemma length_zbits n z : length (zbits n z) = n.
Proof. induction n; simpl; congruence. Qed.

Lemma length_bits_of w l : length (bits_of w l) = (w * length l)%nat.
Proof.
  induction l as [|x l IH]; [simpl; lia|]. unfold bits_of in *; simpl.
  rewrite length_app, length_zbits. unfold mbind in IH. rewrite IH. lia.
Qed.

Lemma bits_of_app w l k : bits_of w (l ++ k) = bits_of w l ++ bits_of w k.
Proof. apply bind_app. Qed.

Lemma zbits_lookup n z (i : nat) :
  (i < n)%nat → zbits n z !! i = Some (Z.testbit z (Z.of_nat (n - 1 - i))).
Proof.
  revert i. induction n as [|n IH]; intros i Hi; [lia|].
  destruct i as [|i]; simpl.
  - do 3 f_equal. lia.
  - rewrite IH by lia. do 3 f_equal. lia.
Qed.

(** Two numbers have the same low bits when they agree bit by bit. *)
Lemma zbits_ext n z1 z2 :
  (∀ k : Z, 0 <= k < Z.of_nat n → Z.testbit z1 k = Z.testbit z2 k) →
  zbits n z1 = zbits n z2.
Proof.
  induction n as [|n IH]; intros H; simpl; [done|].
  f_equal; [apply H; lia|]. apply IH. intros k ?. apply H. lia.
Qed.

Lemma zbits_eq_inv n z1 z2 (k : Z) :
  zbits n z1 = zbits n z2 → 0 <= k < Z.of_nat n → Z.testbit z1 k = Z.testbit z2 k.
Proof.
  induction n as [|n IH]; intros H Hk; [lia|]. simpl in H.
  injection H as H1 H2.
  destruct (decide (k = Z.of_nat n)) as [->|]; [done|]. apply IH; [done|lia].
Qed.

Lemma zbits_add n m z :
  zbits (n + m) z = zbits n (Z.shiftr z (Z.of_nat m)) ++ zbits m z.
Proof.
  induction n as [|n IH]; simpl; [done|].
  rewrite IH, Z.shiftr_spec by lia. do 2 f_equal. lia.
Qed.

Lemma zbits_zero n : zbits n 0 = zeros n.
Proof. induction n as [|n IH]; simpl; [done|]. by rewrite Z.testbit_0_l, IH. Qed.

Lemma testbit_small n z k :
  0 <= z < 2 ^ Z.of_nat n → Z.of_nat n <= k → Z.testbit z k = false.
Proof.
  intros Hz Hk. rewrite <- (Z.mod_small z (2 ^ Z.of_nat n)) by done.
  apply Z.mod_pow2_bits_high. lia.
Qed.

Lemma zbits_small_inj n z1 z2 :
  0 <= z1 < 2 ^ Z.of_nat n → 0 <= z2 < 2 ^ Z.of_nat n →
  zbits n z1 = zbits n z2 → z1 = z2.
Proof.
  intros H1 H2 H. apply Z.bits_inj'. intros k Hk.
  destruct (decide (k < Z.of_nat n)) as [|Hge]; [by apply zbits_eq_inv with n|].
  by rewrite !(testbit_small n) by lia.
Qed.

Lemma zbits_u8_inj b1 b2 : zbits 8 (u8 b1) = zbits 8 (u8 b2) → b1 = b2.
Proof.
  intros H. apply u8_inj. apply (zbits_small_inj 8); [| |done];
    change (2 ^ Z.of_nat 8) with 256; apply u8_range.
Qed.

(** Reading a digit out of an accumulator: [(acc >> m) & (2^w - 1)]. *)
Lemma zbits_digit w m acc :
  zbits w (Z.land (Z.shiftr acc (Z.of_nat m)) (Z.ones (Z.of_nat w)))
  = zbits w (Z.shiftr acc (Z.of_nat m)).
Proof.
  apply zbits_ext. intros k Hk. rewrite Z.land_spec, Z.ones_spec_low by lia.
  apply andb_true_r.
Qed.

(** Pushing a [w]-bit digit into a 32-bit accumulator:
    [(acc << w) | d], where the shift drops the bits past the width. *)
Lemma zbits_push n w acc d :
  (n + w ≤ 32)%nat → 0 <= d < 2 ^ Z.of_nat w →
  zbits (n + w) (Z.lor (wrap 32 (Z.shiftl acc (Z.of_nat w))) d) = zbits n acc ++ zbits w d.
Proof.
  intros Hw Hd.
  rewrite zbits_add. f_equal; apply zbits_ext; intros k Hk.
  - rewrite Z.shiftr_spec, Z.lor_spec, (testbit_small w d), orb_false_r by lia.
    unfold wrap. rewrite Z.mod_pow2_bits_low, Z.shiftl_spec by lia. f_equal. lia.
  - rewrite Z.lor_spec. unfold wrap.
    rewrite Z.mod_pow2_bits_low, Z.shiftl_spec_low by lia. done.
Qed.

(** The last, partial digit: [(acc << (w - n)) & (2^w - 1)] carries the [n]
    leftover bits high and zeros below them. *)
Lemma zbits_pad n w acc :
  (n ≤ w)%nat → (w ≤ 32)%nat →
  zbits w (Z.land (wrap 32 (Z.shiftl acc (Z.of_nat (w - n)))) (Z.ones (Z.of_nat w)))
  = zbits n acc ++ zeros (w - n).
Proof.
  intros Hn H32.
  replace w with (n + (w - n))%nat at 1 by lia. rewrite zbits_add, <- zbits_zero.
  f_equal; apply zbits_ext; intros k Hk.
  - rewrite Z.shiftr_spec, Z.land_spec, Z.ones_spec_low, andb_true_r by lia.
    unfold wrap. rewrite Z.mod_pow2_bits_low, Z.shiftl_spec by lia. f_equal. lia.
  - rewrite Z.land_spec, Z.testbit_0_l. unfold wrap.
    rewrite Z.mod_pow2_bits_low, Z.shiftl_spec_low by lia. done.
Qed.

(** [acc & ((1 << n) - 1) = 0] says that the low [n] bits are zero. *)
Lemma zbits_low_zero n acc :
  Z.land acc (Z.ones (Z.of_nat n)) = 0 ↔ zbits n acc = zeros n.
Proof.
  rewrite <- zbits_zero. split; intros H.
  - apply zbits_ext. intros k Hk. rewrite <- H, Z.land_spec, Z.ones_spec_low by lia.
    by rewrite andb_true_r.
  - apply Z.bits_inj'. intros k Hk. rewrite Z.land_spec, Z.testbit_0_l.
    destruct (decide (k < Z.of_nat n)).
    + rewrite (zbits_eq_inv _ _ _ k H), Z.testbit_0_l by lia. done.
    + rewrite Z.ones_spec_high by lia. apply andb_false_r.
Qed.

(** Bit strings of equal-width digits split uniquely. *)
Lemma bits_of_inj w (l k : list Z) :
  (0 < w)%nat → (∀ x y, x ∈ l → y ∈ k → zbits w x = zbits w y → x = y) →
  bits_of w l = bits_of w k → l = k.
Proof.
  intros Hw. revert k. induction l as [|x l IH]; intros [|y k] Hinj H; [done| | |].
  - apply (f_equal length) in H. rewrite !length_bits_of in H. simpl in H. lia.
  - apply (f_equal length) in H. rewrite !length_bits_of in H. simpl in H. lia.
  - unfold bits_of in H. simpl in H.
    apply app_inj_1 in H as [H1 H2]; [|by rewrite !length_zbits].
    f_equal.
    + apply Hinj; [constructor|constructor|done].
    + apply IH; [|done]. intros. apply Hinj; [by constructor|by constructor|done].
Qed.

(** Two byte strings padded with fewer than eight zeros are equal when their
    bits are. *)
Lemma padded_bits_inj (l k : bytes) (r s : list bool) :
  (length r < 8)%nat → (length s < 8)%nat →
  bits_of 8 (u8 <$> l) ++ r = bits_of 8 (u8 <$> k) ++ s → l = k ∧ r = s.
Proof.
  intros Hr Hs H. pose proof (f_equal length H) as Hl.
  rewrite !length_app, !length_bits_of, !length_fmap in Hl.
  apply app_inj_1 in H as [H ->]; [|rewrite !length_bits_of, !length_fmap; lia].
  split; [|done].
  apply bits_of_inj in H; [|lia|].
  - by apply (inj (fmap u8)).
  - intros x y (b & -> & _)%list_elem_of_fmap (c & -> & _)%list_elem_of_fmap Hb.
    by apply zbits_u8_inj in Hb as ->.
Qed.

Lemma bits_of_nil w : bits_of w [] = [].
Proof. done. Qed.

Lemma bits_of_cons w x l : bits_of w (x :: l) = zbits w x ++ bits_of w l.
Proof. done. Qed.

#[global] Arguments zbits : simpl never.
#[global] Arguments bits_of : simpl never.
