(* ===== verification/Z32.v ===== *)
(** * z-base-32 endpoint ids ([runtime/component/src/z32.rs])

    [encode] and [decode] are the two functions of the file, loop by loop, over
    a 32-bit accumulator; the theorems say that they are inverse bijections
    between byte strings and the canonical texts. *)
From S2P Require Import Prelude Bits.

Definition ALPHABET : bytes := as_bytes "ybndrfg8ejkmcpqxot1uwisza345h769".

(** [ALPHABET[i] as char] *)
Definition symbol (i : Z) : byte := default Byte.x00 (ALPHABET !! Z.to_nat i).

(** The inner [while bits >= 5] loop of [encode]: the symbols pushed and the
    number of bits left.  [bits] is at most 12 on entry, and the fuel is
    [bits] itself. *)
Fixpoint encode_drain (fuel : nat) (acc bits : Z) : bytes * Z :=
  match fuel with
  | O => ([], bits)
  | S fuel =>
    if 5 <=? bits then
      let bits := bits - 5 in
      let '(out, rest) := encode_drain fuel acc bits in
      (symbol (Z.land (Z.shiftr acc bits) 0x1f) :: out, rest)
    else ([], bits)
  end.

(** The outer loop over the bytes, and what it leaves in the accumulator. *)
Fixpoint encode_loop (input : bytes) (acc bits : Z) : bytes * (Z * Z) :=
  match input with
  | [] => ([], (acc, bits))
  | b :: input =>
    let acc := Z.lor (wrap 32 (Z.shiftl acc 8)) (u8 b) in
    let bits := bits + 8 in
    let '(out, bits) := encode_drain (Z.to_nat bits) acc bits in
    let '(out', leftover) := encode_loop input acc bits in
    (out ++ out', leftover)
  end.

Definition encode (input : bytes) : bytes :=
  let '(out, (acc, bits)) := encode_loop input 0 0 in
  if 0 <? bits
  then out ++ [symbol (Z.land (wrap 32 (Z.shiftl acc (5 - bits))) 0x1f)]
  else out.

(** Why a text is refused; the source's two messages. *)
Inductive DecodeError :=
| NotASymbol (symbol : byte)
| NotWholeBytes.

#[export] Instance DecodeError_eq_dec : EqDecision DecodeError.
Proof. solve_decision. Defined.

(** [ALPHABET.iter().position(|&c| c == symbol)] *)
Definition position (c : byte) : option Z := (Z.of_nat ∘ fst) <$> list_find (c =.) ALPHABET.

Fixpoint decode_loop (text : bytes) (acc bits : Z) (out : bytes)
  : result DecodeError (bytes * Z * Z) :=
  match text with
  | [] => Ok (out, acc, bits)
  | c :: text =>
    value ← ok_or (NotASymbol c) (position c);
    let acc := Z.lor (wrap 32 (Z.shiftl acc 5)) value in
    let bits := bits + 5 in
    if 8 <=? bits then
      let bits := bits - 8 in
      decode_loop text acc bits (out ++ [byte_of (Z.land (Z.shiftr acc bits) 0xff)])
    else decode_loop text acc bits out
  end.

Definition decode (text : bytes) : result DecodeError bytes :=
  '(out, acc, bits) ← decode_loop text 0 0 [];
  if (5 <=? bits) || negb (Z.land acc (Z.shiftl 1 bits - 1) =? 0)
  then Err NotWholeBytes
  else Ok out.

Example encode_ff : encode [byte_of 0xff] = as_bytes "9h".
Proof. reflexivity. Qed.
Example encode_00ff : encode [byte_of 0; byte_of 0xff] = as_bytes "yd9o".
Proof. reflexivity. Qed.

(** ** The alphabet *)
Definition digit (d : Z) : Prop := 0 <= d < 32.

Lemma position_symbol d : digit d → position (symbol d) = Some d.
Proof.
  intros Hd. assert (Hall : forallb (λ i, bool_decide (position (symbol (Z.of_nat i)) = Some (Z.of_nat i)))
    (seq 0 32) = true) by (vm_compute; reflexivity).
  rewrite forallb_forall in Hall. specialize (Hall (Z.to_nat d)).
  rewrite bool_decide_eq_true, Z2Nat.id in Hall by (unfold digit in Hd; lia).
  apply Hall, in_seq. unfold digit in Hd. lia.
Qed.

Lemma position_Some c d : position c = Some d → digit d ∧ symbol d = c.
Proof.
  unfold position, compose. rewrite fmap_Some. intros ([i x] & Hf & ->).
  apply list_find_Some in Hf as (Hi & <- & _). simpl.
  pose proof (lookup_lt_Some _ _ _ Hi) as Hlt. change (length ALPHABET) with 32%nat in Hlt.
  unfold digit, symbol. rewrite Nat2Z.id, Hi. split; [lia|done].
Qed.

Lemma digits_inj l k :
  Forall digit l → Forall digit k → bits_of 5 l = bits_of 5 k → l = k.
Proof.
  rewrite !Forall_forall. intros Hl Hk. apply bits_of_inj; [lia|].
  intros x y Hx Hy. apply zbits_small_inj; [by apply Hl|by apply Hk].
Qed.

Lemma digit_land x : digit (Z.land x (Z.ones (Z.of_nat 5))).
Proof. rewrite Z.land_ones by lia. apply Z.mod_pos_bound. lia. Qed.

(** ** [encode] writes the bits of its input, five at a time *)
Lemma encode_drain_spec fuel n acc :
  (n ≤ fuel)%nat →
  ∃ ds m, encode_drain fuel acc (Z.of_nat n) = (symbol <$> ds, Z.of_nat m) ∧
    (m < 5)%nat ∧ Forall digit ds ∧ bits_of 5 ds ++ zbits m acc = zbits n acc.
Proof.
  revert n. induction fuel as [|fuel IH]; intros n Hn.
  { exists [], n. repeat split; [lia|constructor]. }
  simpl. destruct (Z.leb_spec 5 (Z.of_nat n)) as [H5|H5].
  - replace (Z.of_nat n - 5) with (Z.of_nat (n - 5)) by lia.
    destruct (IH (n - 5)%nat) as (ds & m & -> & Hm & Hds & Hbits); [lia|].
    set (d := Z.land (Z.shiftr acc (Z.of_nat (n - 5))) 31).
    exists (d :: ds), m. repeat split; [done| |].
    + constructor; [apply digit_land|done].
    + rewrite bits_of_cons.
      rewrite <- app_assoc, Hbits. unfold d.
      change 31 with (Z.ones (Z.of_nat 5)). rewrite zbits_digit, <- zbits_add.
      f_equal. lia.
  - exists [], n. repeat split; [lia|constructor].
Qed.

Lemma encode_loop_spec input n acc :
  (n < 5)%nat →
  ∃ ds acc' m, encode_loop input acc (Z.of_nat n) = (symbol <$> ds, (acc', Z.of_nat m)) ∧
    (m < 5)%nat ∧ Forall digit ds ∧
    bits_of 5 ds ++ zbits m acc' = zbits n acc ++ bits_of 8 (u8 <$> input).
Proof.
  revert n acc. induction input as [|b input IH]; intros n acc Hn; simpl.
  { exists [], acc, n. repeat split; [done|constructor|]. by rewrite app_nil_r. }
  change (Z.of_nat n + 8) with (Z.of_nat n + Z.of_nat 8). rewrite <- Nat2Z.inj_add, Nat2Z.id.
  set (acc1 := Z.lor _ _).
  destruct (encode_drain_spec (n + 8) (n + 8) acc1) as (ds & m & -> & Hm & Hds & Hbits); [lia|].
  destruct (IH m acc1 Hm) as (ds' & acc' & m' & -> & Hm' & Hds' & Hbits').
  exists (ds ++ ds'), acc', m'. rewrite fmap_app. repeat split; [done|by apply Forall_app|].
  rewrite bits_of_app, <- app_assoc, Hbits', app_assoc, Hbits. unfold acc1.
  change (Z.shiftl acc 8) with (Z.shiftl acc (Z.of_nat 8)). rewrite zbits_push; [|lia|].
  - by rewrite <- app_assoc.
  - apply u8_range.
Qed.

(** The whole text: the bits of the input, then fewer than five zeros. *)
Lemma encode_spec input :
  ∃ ds p, encode input = symbol <$> ds ∧ (p < 5)%nat ∧ Forall digit ds ∧
    bits_of 5 ds = bits_of 8 (u8 <$> input) ++ zeros p.
Proof.
  destruct (encode_loop_spec input 0 0) as (ds & acc & m & Hl & Hm & Hds & Hbits); [lia|].
  change (Z.of_nat 0) with 0 in Hl. unfold encode. rewrite Hl. simpl in Hbits.
  destruct (Z.ltb_spec 0 (Z.of_nat m)) as [H0|H0].
  - set (d := Z.land _ _). exists (ds ++ [d]), (5 - m)%nat.
    rewrite fmap_app. repeat split; [lia| |].
    + apply Forall_app. split; [done|]. repeat constructor; apply digit_land.
    + rewrite bits_of_app, <- Hbits, <- app_assoc. f_equal.
      rewrite bits_of_cons, bits_of_nil, app_nil_r. unfold d.
      replace (5 - Z.of_nat m) with (Z.of_nat (5 - m)) by lia.
      change 31 with (Z.ones (Z.of_nat 5)). apply zbits_pad; lia.
  - exists ds, 0%nat. assert (m = 0%nat) as -> by lia.
    repeat split; [lia|done|]. rewrite <- Hbits. simpl. by rewrite !app_nil_r.
Qed.

(** ** [decode] reads them back *)
Lemma decode_loop_spec ds n acc out :
  Forall digit ds → (n < 8)%nat →
  ∃ acc' m bs, decode_loop (symbol <$> ds) acc (Z.of_nat n) out = Ok (out ++ bs, acc', Z.of_nat m) ∧
    (m < 8)%nat ∧ bits_of 8 (u8 <$> bs) ++ zbits m acc' = zbits n acc ++ bits_of 5 ds.
Proof.
  intros Hds. revert n acc out. induction Hds as [|d ds Hd Hds IH]; intros n acc out Hn.
  { exists acc, n, []. rewrite app_nil_r. repeat split; [done|]. by rewrite app_nil_r. }
  rewrite fmap_cons. cbn [decode_loop].
  rewrite position_symbol by done. cbn [ok_or mbind result_bind].
  change (Z.of_nat n + 5) with (Z.of_nat n + Z.of_nat 5). rewrite <- Nat2Z.inj_add.
  set (acc1 := Z.lor _ _).
  assert (zbits n acc ++ bits_of 5 (d :: ds) = zbits (n + 5) acc1 ++ bits_of 5 ds) as Hw.
  { unfold acc1. change (Z.shiftl acc 5) with (Z.shiftl acc (Z.of_nat 5)).
    rewrite zbits_push, <- app_assoc; [done|lia|done]. }
  destruct (Z.leb_spec 8 (Z.of_nat (n + 5))) as [H8|H8].
  - replace (Z.of_nat (n + 5) - 8) with (Z.of_nat (n + 5 - 8)) by lia.
    set (b := byte_of _).
    destruct (IH (n + 5 - 8)%nat acc1 (out ++ [b])) as (acc' & m & bs & -> & Hm & Hbits); [lia|].
    exists acc', m, (b :: bs). rewrite <- app_assoc. repeat split; [done|]. rewrite Hw.
    rewrite fmap_cons, bits_of_cons.
    rewrite <- app_assoc, Hbits, app_assoc. f_equal.
    replace (n + 5)%nat with (8 + (n + 5 - 8))%nat at 2 by lia. rewrite zbits_add. f_equal.
    unfold b. change 255 with (Z.ones (Z.of_nat 8)).
    rewrite u8_byte_of_small, zbits_digit; [done|].
    rewrite Z.land_ones by lia. apply Z.mod_pos_bound. lia.
  - destruct (IH (n + 5)%nat acc1 out) as (acc' & m & bs & -> & Hm & Hbits); [lia|].
    exists acc', m, bs. by rewrite Hw.
Qed.

(** A text [decode] reads is a list of symbols. *)
Lemma decode_loop_digits text acc bits out r :
  decode_loop text acc bits out = Ok r → ∃ ds, text = symbol <$> ds ∧ Forall digit ds.
Proof.
  revert acc bits out. induction text as [|c text IH]; intros acc bits out; simpl.
  { exists []. split; [done|constructor]. }
  rewrite bind_Ok. intros (d & Hd & Hr). apply ok_or_Ok, position_Some in Hd as [Hd <-].
  assert (∃ ds, text = symbol <$> ds ∧ Forall digit ds) as (ds & -> & Hds).
  { destruct (8 <=? bits + 5); by eapply IH. }
  exists (d :: ds). split; [done|by constructor].
Qed.

(** What [decode] answers on a list of digits: the whole bytes, exactly when
    the bits left over are fewer than five zeros. *)
Lemma decode_digits ds :
  Forall digit ds →
  ∃ m bs rest, bits_of 5 ds = bits_of 8 (u8 <$> bs) ++ rest ∧ length rest = m ∧ (m < 8)%nat ∧
    decode (symbol <$> ds) = if decide ((m < 5)%nat ∧ rest = zeros m) then Ok bs else Err NotWholeBytes.
Proof.
  intros Hds. destruct (decode_loop_spec ds 0 0 [] Hds) as (acc & m & bs & Hl & Hm & Hbits); [lia|].
  exists m, bs, (zbits m acc). repeat split; [done|apply length_zbits|done|].
  change (Z.of_nat 0) with 0 in Hl. unfold decode. rewrite Hl. cbn [mbind result_bind app].
  replace (Z.shiftl 1 (Z.of_nat m) - 1) with (Z.ones (Z.of_nat m))
    by (rewrite Z.ones_equiv, Z.shiftl_1_l; lia). case_decide as Hz.
  - destruct Hz as [H5 Hz]. apply zbits_low_zero in Hz. rewrite Hz.
    destruct (Z.leb_spec 5 (Z.of_nat m)); [lia|done].
  - destruct (Z.leb_spec 5 (Z.of_nat m)); [done|]. simpl.
    destruct (Z.eqb_spec (Z.land acc (Z.ones (Z.of_nat m))) 0) as [He|]; [|done].
    apply zbits_low_zero in He. destruct Hz. split; [lia|done].
Qed.

(** ** The codec's contract *)

Lemma decode_encode bs : decode (encode bs) = Ok bs.
Proof.
  destruct (encode_spec bs) as (ds & p & -> & Hp & Hds & Hbits).
  destruct (decode_digits ds Hds) as (m & bs' & rest & Hrest & Hm & H8 & ->).
  rewrite Hrest in Hbits.
  apply padded_bits_inj in Hbits as [-> ->];
    [|lia|unfold zeros; rewrite length_replicate; lia].
  unfold zeros in Hm. rewrite length_replicate in Hm. subst m.
  by rewrite decide_True.
Qed.

Lemma encode_decode text bs : decode text = Ok bs → encode bs = text.
Proof.
  intros H. assert (∃ ds, text = symbol <$> ds ∧ Forall digit ds) as (ds & -> & Hds).
  { unfold decode in H. apply bind_Ok in H as (r & Hr & _). by eapply decode_loop_digits. }
  destruct (decode_digits ds Hds) as (m & bs' & rest & Hrest & Hm & H8 & Hd).
  rewrite Hd in H. case_decide as Hz; [|done]. injection H as ->. destruct Hz as [H5 ->].
  destruct (encode_spec bs) as (ds' & p & -> & Hp & Hds' & Hbits).
  f_equal. apply digits_inj; [done|done|]. rewrite Hrest, Hbits. f_equal.
  apply (f_equal length) in Hrest, Hbits. revert Hrest Hbits.
  unfold zeros. rewrite !length_app, !length_bits_of, !length_replicate. intros.
  f_equal. lia.
Qed.

(** 32 bytes are 52 symbols. *)
Lemma length_encode bs :
  Z.of_nat (length (encode bs)) = (8 * Z.of_nat (length bs) + 4) / 5.
Proof.
  destruct (encode_spec bs) as (ds & p & -> & Hp & Hds & Hbits).
  apply (f_equal length) in Hbits. revert Hbits. unfold zeros.
  rewrite length_app, !length_bits_of, !length_fmap, length_replicate. intros H.
  apply Z.div_unique with (4 - Z.of_nat p); lia.
Qed.

(** [decode] answers [Ok bs] on exactly one text, the one [encode bs]
    writes: every byte string round trips, and a text with a foreign symbol, a
    non-zero trailing bit or a whole spare symbol is no second spelling of any
    key. *)
Theorem decode_iff_encode text bs : decode text = Ok bs ↔ text = encode bs.
Proof.
  split; [|intros ->; apply decode_encode]. intros H. symmetry. by apply encode_decode.
Qed.
