(* ===== verification/Text.v ===== *)
(** * Text encodings: hexadecimal and UTF-8

    The hexadecimal spellings the workspace writes and the two families of
    decoders it reads them with: one that goes through
    [u8::from_str_radix(_, 16)] ([engine/src/us.rs], [visor-model]) and one
    that matches nibbles ([engine/src/us.rs] [unhex12]); the partition names of
    [engine/src/lib.rs]; and the Standard Library's [str::from_utf8]. *)
From S2P Require Import Prelude.

(** ** Writing: [format!("{b:02x}")] *)
Definition hex_digit (n : Z) : byte := byte_of (if n <? 10 then 48 + n else 87 + n).
Definition hex_byte (b : byte) : bytes := [hex_digit (u8 b / 16); hex_digit (u8 b mod 16)].
Definition hex_bytes (l : bytes) : bytes := l ≫= hex_byte.
Definition hex (l : bytes) : string := str_of (hex_bytes l).

(** ** Reading a nibble: [us.rs]'s [nibble] accepts lower case only *)
Definition nibble (b : byte) : option Z :=
  let x := u8 b in
  if (48 <=? x) && (x <=? 57) then Some (x - 48)
  else if (97 <=? x) && (x <=? 102) then Some (x - 97 + 10)
  else None.

(** [char::to_digit(16)]: both cases. *)
Definition to_digit16 (b : byte) : option Z :=
  let x := u8 b in
  if (48 <=? x) && (x <=? 57) then Some (x - 48)
  else if (97 <=? x) && (x <=? 102) then Some (x - 97 + 10)
  else if (65 <=? x) && (x <=? 70) then Some (x - 65 + 10)
  else None.

Fixpoint radix16 (acc : Z) (l : bytes) : option Z :=
  match l with
  | [] => Some acc
  | c :: l =>
    d ← to_digit16 c;
    let acc := acc * 16 + d in
    if acc <? 256 then radix16 acc l else None
  end.

(** [u8::from_str_radix(s, 16)]: an optional [+], then at least one digit; an
    overflow is an error, and so is a lone sign. *)
Definition u8_from_str_radix16 (s : bytes) : option Z :=
  match s with
  | [] => None
  | c :: l =>
    if decide (u8 c = 43) then
      match l with [] => None | _ => radix16 0 l end
    else radix16 0 s
  end.

(** The pairs of a text of even length, each read by [f]. *)
Fixpoint decode_pairs (f : bytes → option Z) (l : bytes) : option bytes :=
  match l with
  | [] => Some []
  | a :: b :: l => x ← f [a; b]; r ← decode_pairs f l; Some (byte_of x :: r)
  | _ => None
  end.

(** [us.rs] [unhex]: 64 bytes of text, each pair through [from_str_radix].  A
    pair cut inside a multi-byte character makes [text.get(..)] answer [None];
    its bytes are not digits, so the pair is refused here as well. *)
Definition us_unhex (text : string) : option bytes :=
  let l := as_bytes text in
  if decide (length l = 64%nat) then decode_pairs u8_from_str_radix16 l else None.

(** [us.rs] [unhex12]: 24 bytes of text, each pair two nibbles. *)
Definition nibble_pair (p : bytes) : option Z :=
  match p with
  | [a; b] => x ← nibble a; y ← nibble b; Some (Z.lor (Z.shiftl x 4) y)
  | _ => None
  end.
Definition unhex12 (value : string) : option bytes :=
  let l := as_bytes value in
  if decide (length l = 24%nat) then decode_pairs nibble_pair l else None.

(** [visor-model]'s [unhex]: any even length. *)
Definition visor_unhex (text : string) : option bytes :=
  let l := as_bytes text in
  if decide (length l mod 2 = 0)%nat then decode_pairs u8_from_str_radix16 l else None.

(** ** [engine/src/lib.rs]: the name of a shared document's partition *)
Definition shared_partition (document : bytes) : string := "document:" +:+ hex document.

Definition strip_prefix (p l : bytes) : option bytes :=
  if decide (take (length p) l = p) then Some (drop (length p) l) else None.

(** [byte.is_ascii_hexdigit() && !byte.is_ascii_uppercase()] *)
Definition lower_hexdigit (b : byte) : bool :=
  let x := u8 b in
  ((48 <=? x) && (x <=? 57)) || ((97 <=? x) && (x <=? 102)).

Definition shared_document (partition : string) : result string (option bytes) :=
  match strip_prefix (as_bytes "document:") (as_bytes partition) with
  | None => Ok None
  | Some h =>
    if negb ((length h =? 64)%nat && forallb lower_hexdigit h)
    then Err "shared document partition is not canonical lowercase hex"%string
    else Some <$> ok_or "shared document partition is not hexadecimal"%string
                        (decode_pairs u8_from_str_radix16 h)
  end.

(** ** [core::str::from_utf8] *)
Definition in_range (lo hi x : Z) : bool := (lo <=? x) && (x <=? hi).
Definition cont (b : byte) : bool := in_range 0x80 0xBF (u8 b).

(** The second byte each three- and four-byte lead admits. *)
Definition second3 (x y : Z) : bool :=
  if x =? 0xE0 then in_range 0xA0 0xBF y
  else if x =? 0xED then in_range 0x80 0x9F y
  else in_range 0xE1 0xEF x && in_range 0x80 0xBF y.
Definition second4 (x y : Z) : bool :=
  if x =? 0xF0 then in_range 0x90 0xBF y
  else if x =? 0xF4 then in_range 0x80 0x8F y
  else in_range 0xF1 0xF3 x && in_range 0x80 0xBF y.

Fixpoint utf8_valid (l : bytes) : bool :=
  match l with
  | [] => true
  | b0 :: l1 =>
    let x := u8 b0 in
    if x <? 0x80 then utf8_valid l1
    else match l1 with
    | [] => false
    | b1 :: l2 =>
      if in_range 0xC2 0xDF x then cont b1 && utf8_valid l2
      else match l2 with
      | [] => false
      | b2 :: l3 =>
        if in_range 0xE0 0xEF x then second3 x (u8 b1) && cont b2 && utf8_valid l3
        else match l3 with
        | [] => false
        | b3 :: l4 =>
          in_range 0xF0 0xF4 x && second4 x (u8 b1) && cont b2 && cont b3 && utf8_valid l4
        end
      end
    end
  end.

Definition from_utf8 (l : bytes) : option string :=
  if utf8_valid l then Some (str_of l) else None.

Lemma from_utf8_as_bytes s : utf8_valid (as_bytes s) = true → from_utf8 (as_bytes s) = Some s.
Proof. intros H. unfold from_utf8. by rewrite H, str_of_as_bytes. Qed.

(** ** The decoders invert the writer *)
Lemma length_hex_bytes l : length (hex_bytes l) = (2 * length l)%nat.
Proof.
  induction l as [|b l IH]; [done|]. change (hex_bytes (b :: l)) with (hex_byte b ++ hex_bytes l).
  rewrite length_app, IH. simpl. lia.
Qed.

Lemma as_bytes_hex l : as_bytes (hex l) = hex_bytes l.
Proof. apply as_bytes_str_of. Qed.

Lemma u8_from_str_radix16_hex b : u8_from_str_radix16 (hex_byte b) = Some (u8 b).
Proof. by destruct b. Qed.

Lemma nibble_pair_hex b : nibble_pair (hex_byte b) = Some (u8 b).
Proof. by destruct b. Qed.

Lemma decode_pairs_hex f l :
  (∀ b, f (hex_byte b) = Some (u8 b)) → decode_pairs f (hex_bytes l) = Some l.
Proof.
  intros Hf. induction l as [|b l IH]; [done|].
  change (hex_bytes (b :: l)) with (hex_byte b ++ hex_bytes l).
  specialize (Hf b). unfold hex_byte in *. cbn [app decode_pairs].
  rewrite Hf. cbn [mbind option_bind]. rewrite IH. cbn [mbind option_bind].
  by rewrite byte_of_u8.
Qed.

Lemma decode_pairs_length f l r : decode_pairs f l = Some r → length l = (2 * length r)%nat.
Proof.
  revert r. induction l as [l IH] using (induction_ltof1 _ (@length byte)); unfold ltof in IH.
  intros r. destruct l as [|a [|b l]]; simpl; intros H; simplify_eq; [done|].
  apply bind_Some in H as (x & _ & H). apply bind_Some in H as (r' & Hr & H).
  simplify_eq/=. rewrite (IH l) with r'; simpl; [lia|lia|done].
Qed.

Lemma us_unhex_hex l : length l = 32%nat → us_unhex (hex l) = Some l.
Proof.
  intros Hl. unfold us_unhex. rewrite as_bytes_hex, decide_True
    by (rewrite length_hex_bytes; lia).
  apply decode_pairs_hex, u8_from_str_radix16_hex.
Qed.

Lemma unhex12_hex l : length l = 12%nat → unhex12 (hex l) = Some l.
Proof.
  intros Hl. unfold unhex12. rewrite as_bytes_hex, decide_True
    by (rewrite length_hex_bytes; lia).
  apply decode_pairs_hex, nibble_pair_hex.
Qed.

Lemma visor_unhex_hex l : visor_unhex (hex l) = Some l.
Proof.
  unfold visor_unhex. rewrite as_bytes_hex, decide_True.
  - apply decode_pairs_hex, u8_from_str_radix16_hex.
  - rewrite length_hex_bytes, Nat.mul_comm. apply Nat.Div0.mod_mul.
Qed.

(** A pair of nibbles is written back as it was read. *)
Lemma nibble_pair_hex_byte a b x :
  nibble_pair [a; b] = Some x → hex_byte (byte_of x) = [a; b].
Proof.
  assert (Hn : ∀ c y, nibble c = Some y → 0 <= y < 16 ∧ hex_digit y = c).
  { intros c y. destruct c; vm_compute; intros H; simplify_eq; done. }
  simpl. intros H. apply bind_Some in H as (h & Hh & H). apply bind_Some in H as (l & Hl & H).
  simplify_eq. apply Hn in Hh as [Hh <-], Hl as [Hl <-].
  assert (Z.lor (Z.shiftl h 4) l = 16 * h + l) as ->.
  { rewrite Z.shiftl_mul_pow2 by lia. change (2 ^ 4) with 16.
    rewrite <- Z.lxor_lor, <- Z.add_nocarry_lxor; [lia| |].
    all: apply Z.bits_inj'; intros k Hk; rewrite Z.land_spec, Z.testbit_0_l.
    all: change 16 with (2 ^ 4); rewrite <- Z.shiftl_mul_pow2, Z.shiftl_spec by lia.
    all: destruct (decide (k < 4)) as [|Hge]; [rewrite Z.testbit_neg_r by lia; done|].
    all: rewrite <- (Z.mod_small l (2 ^ 4)) by lia.
    all: by rewrite Z.mod_pow2_bits_high, andb_false_r by lia. }
  unfold hex_byte. rewrite u8_byte_of_small by lia. f_equal; [|f_equal]; f_equal.
  - rewrite Z.mul_comm, Z.div_add_l, Z.div_small by lia. lia.
  - rewrite Z.add_comm, Z.mul_comm, Z.mod_add, Z.mod_small by lia. done.
Qed.

(** A text of lower-case digits is one [hex] writes. *)
Lemma lower_hexdigits_hex l n :
  length l = (2 * n)%nat → forallb lower_hexdigit l = true →
  ∃ d, l = hex_bytes d ∧ length d = n.
Proof.
  assert (Hlow : ∀ c, lower_hexdigit c = true → is_Some (nibble c)).
  { intros c. destruct c; vm_compute; try done; eauto. }
  revert l. induction n as [|n IH]; intros l Hl H.
  { destruct l; [|done]. by exists []. }
  destruct l as [|a [|b l]]; simpl in Hl; [lia|lia|].
  simpl in H. apply andb_true_iff in H as [Ha H]. apply andb_true_iff in H as [Hb H].
  destruct (Hlow a Ha) as [x Hx], (Hlow b Hb) as [y Hy].
  destruct (IH l) as (d & -> & Hd); [lia|done|].
  exists (byte_of (Z.lor (Z.shiftl x 4) y) :: d). split; [|simpl; lia].
  change (hex_bytes (?c :: d)) with (hex_byte c ++ hex_bytes d).
  rewrite (nibble_pair_hex_byte a b); [done|]. simpl. by rewrite Hx, Hy.
Qed.

Lemma strip_prefix_app p l : strip_prefix p (p ++ l) = Some l.
Proof. unfold strip_prefix. by rewrite take_app_length, drop_app_length, decide_True. Qed.

Lemma strip_prefix_Some p l r : strip_prefix p l = Some r ↔ l = p ++ r.
Proof.
  split; [|intros ->; apply strip_prefix_app].
  unfold strip_prefix. case_decide as H; [|done]. intros [= <-].
  rewrite <- H at 1. by rewrite take_drop.
Qed.

Lemma as_bytes_app s t : as_bytes (s +:+ t) = as_bytes s ++ as_bytes t.
Proof.
  unfold as_bytes, String.list_byte_of_string. induction s as [|c s IH]; simpl; [done|].
  by f_equal.
Qed.

Lemma length_string s : String.length s = length (as_bytes s).
Proof.
  unfold as_bytes, String.list_byte_of_string. induction s as [|c s IH]; simpl; [done|].
  by rewrite IH.
Qed.

Lemma as_bytes_inj s t : as_bytes s = as_bytes t → s = t.
Proof. intros H. by rewrite <- (str_of_as_bytes s), H, str_of_as_bytes. Qed.

Lemma str_app_inj_l s t u : s +:+ t = s +:+ u → t = u.
Proof.
  intros H. apply (f_equal as_bytes) in H. rewrite !as_bytes_app in H.
  apply app_inv_head in H. by apply as_bytes_inj.
Qed.

Lemma str_app_inj_r s t u : t +:+ s = u +:+ s → t = u.
Proof.
  intros H. apply (f_equal as_bytes) in H. rewrite !as_bytes_app in H.
  apply app_inv_tail in H. by apply as_bytes_inj.
Qed.

(** Two texts that end in different bytes. *)
Lemma str_last_ne s t x y l k :
  as_bytes s = l ++ [x] → as_bytes t = k ++ [y] → x ≠ y → ∀ p q, p +:+ s ≠ q +:+ t.
Proof.
  intros Hs Ht Hne p q H. apply (f_equal as_bytes) in H. rewrite !as_bytes_app, Hs, Ht in H.
  rewrite !app_assoc in H. apply app_inj_tail in H as [_ H]. done.
Qed.

(** The partition name is the canonical one of its document. *)
Theorem shared_document_partition d :
  length d = 32%nat → shared_document (shared_partition d) = Ok (Some d).
Proof.
  intros Hd. unfold shared_document, shared_partition.
  rewrite as_bytes_app, strip_prefix_app, as_bytes_hex.
  assert (forallb lower_hexdigit (hex_bytes d) = true) as ->.
  { clear Hd. induction d as [|b d IH]; [done|].
    change (hex_bytes (b :: d)) with (hex_byte b ++ hex_bytes d).
    rewrite forallb_app, IH, andb_true_r. by destruct b. }
  rewrite length_hex_bytes, Hd. cbn -[decode_pairs].
  by rewrite (decode_pairs_hex _ _ u8_from_str_radix16_hex).
Qed.

Theorem shared_document_canonical p d :
  shared_document p = Ok (Some d) → p = shared_partition d ∧ length d = 32%nat.
Proof.
  unfold shared_document. destruct (strip_prefix _ _) as [h|] eqn:Hp; [|done].
  apply strip_prefix_Some in Hp.
  destruct (length h =? 64)%nat eqn:Hlen; [|done]. apply Nat.eqb_eq in Hlen.
  destruct (forallb lower_hexdigit h) eqn:Hlow; [|done]. cbn -[decode_pairs].
  destruct (lower_hexdigits_hex h 32) as (d' & -> & Hd'); [done|done|].
  rewrite (decode_pairs_hex _ _ u8_from_str_radix16_hex). simpl. intros [= <-].
  split; [|done]. apply as_bytes_inj. unfold shared_partition.
  by rewrite as_bytes_app, as_bytes_hex.
Qed.

(** [us_unhex] and [visor_unhex] also read texts nobody wrote: [from_str_radix]
    takes a [+] sign. *)
Definition plus_zeros (n : nat) : string := str_of (mjoin (replicate n (as_bytes "+0"))).
Definition zero_bytes (n : nat) : bytes := replicate n (byte_of 0).

Theorem us_unhex_not_canonical :
  us_unhex (plus_zeros 32) = Some (zero_bytes 32) ∧
  visor_unhex (plus_zeros 32) = Some (zero_bytes 32) ∧
  hex (zero_bytes 32) ≠ plus_zeros 32.
Proof. split_and!; [vm_compute; reflexivity..|vm_compute; discriminate]. Qed.
