(* ===== verification/BTree.v ===== *)
(** * Ordered iteration over maps and sets

    The workspace keeps its tables in [BTreeMap]s and [BTreeSet]s, and what it
    writes (snapshots, journals, listings) depends on their order.  A [BTreeMap]
    is stdpp's [gmap]; [btree_items] is its iteration, in the order of the keys. *)
From S2P Require Import Prelude.

(** [Ord] on a key type: a decidable total order. *)
Class KeyOrder (K : Type) := {
  key_le : relation K;
  key_le_dec : RelDecision key_le;
  key_le_total : Total key_le;
  key_le_trans : Transitive key_le;
  key_le_antisymm : AntiSymm (=) key_le;
}.
#[export] Existing Instances key_le_dec key_le_total key_le_trans key_le_antisymm.

(** Arrays and slices of [u8]: lexicographic. *)
Fixpoint bytes_leb (l k : bytes) : bool :=
  match l, k with
  | [], _ => true
  | _ :: _, [] => false
  | a :: l, b :: k => (u8 a <? u8 b) || ((u8 a =? u8 b) && bytes_leb l k)
  end.

Lemma bytes_leb_refl l : bytes_leb l l = true.
Proof. induction l as [|a l IH]; simpl; [done|]. by rewrite Z.eqb_refl, IH, orb_true_r. Qed.

Lemma bytes_leb_cons a b l k :
  bytes_leb (a :: l) (b :: k) = true ↔ u8 a < u8 b ∨ a = b ∧ bytes_leb l k = true.
Proof.
  simpl. rewrite orb_true_iff, andb_true_iff, Z.ltb_lt, Z.eqb_eq. split; [|naive_solver].
  intros [?|[E ?]]; [by left|]. apply u8_inj in E. auto.
Qed.

Lemma bytes_leb_total l k : bytes_leb l k = true ∨ bytes_leb k l = true.
Proof.
  revert k. induction l as [|a l IH]; intros [|b k]; simpl; auto.
  change (bytes_leb (a :: l) (b :: k) = true ∨ bytes_leb (b :: k) (a :: l) = true).
  rewrite !bytes_leb_cons. destruct (Z.lt_trichotomy (u8 a) (u8 b)) as [H|[H%u8_inj|H]]; auto.
  subst. destruct (IH k); auto.
Qed.

Lemma bytes_leb_trans l k m :
  bytes_leb l k = true → bytes_leb k m = true → bytes_leb l m = true.
Proof.
  revert k m. induction l as [|a l IH]; intros [|b k] [|c m]; try done.
  rewrite !bytes_leb_cons. intros [?|[-> ?]] [?|[-> ?]]; try (left; lia). right. eauto.
Qed.

Lemma bytes_leb_antisymm l k : bytes_leb l k = true → bytes_leb k l = true → l = k.
Proof.
  revert k. induction l as [|a l IH]; intros [|b k]; try done.
  rewrite !bytes_leb_cons. intros [?|[-> ?]] [?|[? ?]]; try lia.
  - subst. lia.
  - f_equal. auto.
Qed.

#[export] Program Instance bytes_order : KeyOrder bytes := {| key_le l k := bytes_leb l k = true |}.
Next Obligation. intros l k. apply _. Defined.
Next Obligation. intros l k. apply bytes_leb_total. Qed.
Next Obligation. intros l k m. apply bytes_leb_trans. Qed.
Next Obligation. intros l k. apply bytes_leb_antisymm. Qed.

(** [String]: its bytes. *)
#[export] Program Instance string_order : KeyOrder string :=
  {| key_le s t := bytes_leb (as_bytes s) (as_bytes t) = true |}.
Next Obligation. intros s t. apply _. Defined.
Next Obligation. intros s t. apply bytes_leb_total. Qed.
Next Obligation. intros s t u. apply bytes_leb_trans. Qed.
Next Obligation.
  intros s t H1 H2. rewrite <- (str_of_as_bytes s), <- (str_of_as_bytes t). f_equal.
  by apply bytes_leb_antisymm.
Qed.

(** Integers and enums read as integers. *)
#[export] Program Instance z_order : KeyOrder Z := {| key_le := Z.le |}.

(** A key mapped injectively into another. *)
Program Definition order_by `{KeyOrder K} {L} (f : L → K) `{!Inj (=) (=) f} : KeyOrder L :=
  {| key_le a b := key_le (f a) (f b) |}.
Next Obligation. intros K ? L f ? a b. apply (decide_rel key_le). Defined.
Next Obligation. intros K ? L f ? a b. apply key_le_total. Qed.
Next Obligation. intros K ? L f ? a b c. apply key_le_trans. Qed.
Next Obligation. intros K ? L f ? a b H1 H2. apply (inj f). by apply key_le_antisymm. Qed.

(** Tuples: lexicographic. *)
#[export] Program Instance prod_order `{KeyOrder K, EqDecision K, KeyOrder L} : KeyOrder (K * L) :=
  {| key_le p q := (p.1 ≠ q.1 ∧ key_le p.1 q.1) ∨ (p.1 = q.1 ∧ key_le p.2 q.2) |}.
Next Obligation. intros K ?? L ? p q. simpl. refine (decide _). Defined.
Next Obligation.
  intros K ?? L ? [a b] [c d]. simpl. destruct (decide (a = c)) as [->|Hne].
  - destruct (key_le_total b d); auto.
  - destruct (key_le_total a c); auto.
Qed.
Next Obligation.
  intros K ?? L ? [a b] [c d] [e f]. simpl. intros [[H1 H2]|[-> H2]] [[H3 H4]|[-> H4]].
  - left. split; [|by etrans]. intros ->. apply H1. by apply (anti_symm key_le).
  - auto.
  - auto.
  - right. split; [done|by etrans].
Qed.
Next Obligation.
  intros K ?? L ? [a b] [c d]. simpl. intros [[H1 H2]|[-> H2]] [[H3 H4]|[E H4]].
  - destruct H1. by apply (anti_symm key_le).
  - by destruct H1.
  - done.
  - f_equal. by apply (anti_symm key_le).
Qed.

(** ** Iteration *)
Section Iteration.
Context `{KeyOrder K, Countable K}.

Definition btree_elems (s : gset K) : list K := merge_sort key_le (elements s).

Definition btree_keys {A} (m : gmap K A) : list K := btree_elems (dom m).

Definition btree_items {A} (m : gmap K A) : list (K * A) :=
  omap (λ k, pair k <$> m !! k) (btree_keys m).

Definition btree_values {A} (m : gmap K A) : list A := (btree_items m).*2.

Lemma btree_elems_perm s : btree_elems s ≡ₚ elements s.
Proof. apply merge_sort_Permutation. Qed.

Lemma elem_of_btree_elems k s : k ∈ btree_elems s ↔ k ∈ s.
Proof. rewrite btree_elems_perm. apply elem_of_elements. Qed.

Lemma btree_elems_NoDup s : NoDup (btree_elems s).
Proof. rewrite btree_elems_perm. apply NoDup_elements. Qed.

Lemma btree_elems_sorted s : StronglySorted key_le (btree_elems s).
Proof. apply StronglySorted_merge_sort; apply _. Qed.

(** A sorted list without repetitions is the iteration of its elements. *)
Lemma btree_elems_unique s l :
  StronglySorted key_le l → NoDup l → (∀ k, k ∈ l ↔ k ∈ s) → l = btree_elems s.
Proof.
  intros Hs Hn Hl. apply (StronglySorted_unique key_le); [done|apply btree_elems_sorted|].
  rewrite btree_elems_perm. apply NoDup_Permutation; [done|apply NoDup_elements|].
  intros k. by rewrite Hl, elem_of_elements.
Qed.

Lemma StronglySorted_filter (P : K → Prop) `{!∀ k, Decision (P k)} l :
  StronglySorted key_le l → StronglySorted key_le (filter P l).
Proof.
  induction 1 as [|k l Hl IH Hk]; [constructor|]. rewrite filter_cons.
  case_decide; [|done]. constructor; [done|]. rewrite Forall_forall in Hk |- *.
  intros x [_ Hx]%list_elem_of_filter. auto.
Qed.

Lemma btree_elems_filter (P : K → Prop) `{!∀ k, Decision (P k)} s :
  btree_elems (filter P s) = filter P (btree_elems s).
Proof.
  symmetry. apply btree_elems_unique.
  - apply StronglySorted_filter, btree_elems_sorted.
  - apply NoDup_filter, btree_elems_NoDup.
  - intros k. by rewrite list_elem_of_filter, elem_of_btree_elems, elem_of_filter.
Qed.

Lemma elem_of_btree_items {A} (m : gmap K A) k x : (k, x) ∈ btree_items m ↔ m !! k = Some x.
Proof.
  unfold btree_items, btree_keys. rewrite list_elem_of_omap. split.
  - intros (k' & _ & Hk). destruct (m !! k') eqn:E; naive_solver.
  - intros Hk. exists k. rewrite elem_of_btree_elems, elem_of_dom, Hk. eauto.
Qed.

Lemma btree_items_keys {A} (m : gmap K A) : (btree_items m).*1 = btree_keys m.
Proof.
  unfold btree_items. assert (∀ l, (∀ k, k ∈ l → is_Some (m !! k)) →
    (omap (λ k, pair k <$> m !! k) l).*1 = l) as Hl.
  { induction l as [|k l IH]; intros Hin; [done|]. simpl.
    destruct (Hin k) as [x Hx]; [left|]. rewrite Hx. simpl. f_equal. apply IH.
    intros k' Hk'. apply Hin. by right. }
  apply Hl. intros k. unfold btree_keys. rewrite elem_of_btree_elems. by rewrite elem_of_dom.
Qed.

Lemma elem_of_btree_values {A} (m : gmap K A) x : x ∈ btree_values m ↔ ∃ k, m !! k = Some x.
Proof.
  unfold btree_values. rewrite list_elem_of_fmap. split.
  - intros ([k y] & -> & Hk%elem_of_btree_items). eauto.
  - intros (k & Hk). exists (k, x). by rewrite elem_of_btree_items.
Qed.

Lemma list_to_map_btree_items {A} (m : gmap K A) : list_to_map (btree_items m) = m.
Proof.
  apply map_eq. intros k. destruct (m !! k) as [x|] eqn:E.
  - apply elem_of_list_to_map_1; [|by apply elem_of_btree_items].
    rewrite btree_items_keys. apply btree_elems_NoDup.
  - apply not_elem_of_list_to_map. rewrite btree_items_keys. unfold btree_keys.
    rewrite elem_of_btree_elems, elem_of_dom, E. by intros [].
Qed.
End Iteration.
