(* ===== verification/IO.v ===== *)
(** * The kernel's seams as effects

    The kernel reaches the outside through traits ([Platform], [Files],
    [Locks], [Clock], [Rng] in [runtime/crates/kernel/src/lib.rs]).  A
    [prog A] is an asynchronous function of the kernel as the sequence of the
    calls it makes on them; [run] executes one against a world, with a crash
    budget and a list of write faults, so that a theorem can speak of every
    prefix of an execution and of every failed write. *)
From S2P Require Import Prelude.

(** One constructor per trait method. *)
Inductive eff : Type → Type :=
| KvGet (key : string) : eff (option bytes)
| KvSet (key : string) (value : bytes) : eff unit
| KvDelete (key : string) : eff unit
| KvKeys (prefix : string) : eff (list string)
| FileRead (path : string) : eff (option bytes)
| FileWrite (path : string) (contents : bytes) : eff bool
| FileRemove (path : string) : eff unit
| DirRemove (path : string) : eff unit
| Fill (n : nat) : eff bytes
| NowMs : eff Z
| IsHeld (name : string) : eff bool.

Inductive prog (A : Type) : Type :=
| Done (a : A)
| Call {X : Type} (e : eff X) (k : X → prog A).
Arguments Done {A} a.
Arguments Call {A X} e k.

Fixpoint prog_bind_ {A B} (f : A → prog B) (p : prog A) : prog B :=
  match p with
  | Done a => f a
  | Call e k => Call e (λ x, prog_bind_ f (k x))
  end.
#[export] Instance prog_ret : MRet prog := λ A a, Done a.
#[export] Instance prog_bind : MBind prog := λ A B f p, prog_bind_ f p.

Definition call {X} (e : eff X) : prog X := Call e Done.

(** An asynchronous function that answers a [Result]: [?] on it. *)
Definition try {E A B} (p : prog (result E A)) (k : A → prog (result E B)) : prog (result E B) :=
  r ← p; match r with Ok a => k a | Err e => Done (Err e) end.
Notation "x ←? p ; k" := (try p (λ x, k))
  (at level 20, p at level 100, k at level 200, right associativity).
Notation "' pat ←? p ; k" := (try p (λ x, match x with pat => k end))
  (at level 20, pat pattern, p at level 100, k at level 200, right associativity).

(** [for x in l { body(x).await?; }], with the values collected. *)
Fixpoint for_each {A} (l : list A) (body : A → prog unit) : prog unit :=
  match l with
  | [] => Done ()
  | x :: l => _ ← body x; for_each l body
  end.

(** ** Worlds

    [kv] is the platform's key-value store, [fs] the files of the state root by
    path (directories hold no data of their own), [entropy] and [drawn] the
    random bytes and how many were drawn. *)
Record world := World {
  kv : gmap string bytes;
  fs : gmap string bytes;
  entropy : nat → byte;
  drawn : nat;
  now : Z;
  locks : gset string;
}.

Definition set_kv (f : gmap string bytes → gmap string bytes) (w : world) : world :=
  World (f (kv w)) (fs w) (entropy w) (drawn w) (now w) (locks w).
Definition set_fs (f : gmap string bytes → gmap string bytes) (w : world) : world :=
  World (kv w) (f (fs w)) (entropy w) (drawn w) (now w) (locks w).

Definition has_prefix (p s : string) : bool := String.prefix p s.

(** What a call answers and what it does when nothing goes wrong. *)
Definition perform {X} (e : eff X) (w : world) : X * world :=
  match e with
  | KvGet k => (kv w !! k, w)
  | KvSet k v => ((), set_kv <[k := v]> w)
  | KvDelete k => ((), set_kv (delete k) w)
  | KvKeys p => (filter (λ k, has_prefix p k = true) (map_to_list (kv w)).*1, w)
  | FileRead p => (fs w !! p, w)
  | FileWrite p b => (true, set_fs <[p := b]> w)
  | FileRemove p => ((), set_fs (delete p) w)
  | DirRemove _ => ((), w)
  | Fill n => (entropy w <$> seq (drawn w) n,
               World (kv w) (fs w) (entropy w) (drawn w + n) (now w) (locks w))
  | NowMs => (now w, w)
  | IsHeld n => (bool_decide (n ∈ locks w), w)
  end.

(** What one file write comes to: it lands; it reports failure; or the worker
    dies inside it.  In the last two the file holds anything, or nothing. *)
Inductive fault :=
| Lands
| Fails (left_behind : option bytes)
| Dies (left_behind : option bytes).

Definition leave (p : string) (b : option bytes) : world → world :=
  set_fs (partial_alter (λ _, b) p).

(** [run stuck faults budget w p]: at most [budget] calls are made; [None] is a
    worker that died.  Faults are consumed one per write, and writes past the
    list land; removing a file [stuck] names silently does nothing, as a
    best-effort removal may. *)
Fixpoint run {A} (stuck : string → bool) (faults : list fault) (budget : nat) (w : world) (p : prog A)
  : world * option A :=
  match p with
  | Done a => (w, Some a)
  | Call e k =>
    match budget with
    | O => (w, None)
    | S budget =>
      match e in eff X return (X → prog A) → world * option A with
      | FileWrite path b => λ k,
        match faults with
        | Fails l :: faults => run stuck faults budget (leave path l w) (k false)
        | Dies l :: _ => (leave path l w, None)
        | Lands :: faults => run stuck faults budget (set_fs <[path := b]> w) (k true)
        | [] => run stuck [] budget (set_fs <[path := b]> w) (k true)
        end
      | FileRemove path => λ k,
        run stuck faults budget (if stuck path then w else set_fs (delete path) w) (k ())
      | e => λ k, let '(x, w') := perform e w in run stuck faults budget w' (k x)
      end k
    end
  end.

(** An execution nothing interferes with. *)
Fixpoint exec {A} (w : world) (p : prog A) : world * A :=
  match p with
  | Done a => (w, a)
  | Call e k => let '(x, w') := perform e w in exec w' (k x)
  end.

(** ** Laws *)
Lemma exec_bind {A B} (p : prog A) (f : A → prog B) w :
  exec w (p ≫= f) = let '(w', a) := exec w p in exec w' (f a).
Proof.
  revert w. induction p as [a|X e k IH]; intros w; [done|]. simpl.
  destruct (perform e w) as [x w']. apply IH.
Qed.

(** A safety predicate: every state a run of [p] can stop in satisfies [Crash],
    and what it answers satisfies [Q].  It is computed on the program, so a
    proof about all crashes and faults is a walk through the code. *)
Section Safety.
Context {A : Type} (Crash : world → Prop) (Q : world → A → Prop).

Fixpoint always (p : prog A) (w : world) : Prop :=
  Crash w ∧
  match p with
  | Done a => Q w a
  | Call e k =>
    match e in eff X return (X → prog A) → (X → world → Prop) → Prop with
    | FileWrite path b => λ k rec,
      rec true (set_fs <[path := b]> w) ∧
      (∀ l, rec false (leave path l w) ∧ Crash (leave path l w))
    | FileRemove path => λ k rec, rec () (set_fs (delete path) w) ∧ rec () w
    | e => λ k rec, let '(x, w') := perform e w in rec x w'
    end k (λ x w', always (k x) w')
  end.

Lemma always_crash p w : always p w → Crash w.
Proof. destruct p; simpl; tauto. Qed.

Lemma always_run p w stuck faults budget w' r :
  always p w → run stuck faults budget w p = (w', r) →
  Crash w' ∧ (∀ a, r = Some a → Q w' a).
Proof.
  revert w faults budget. induction p as [a|X e k IH]; intros w faults budget [HC H] Hr.
  { destruct budget; simpl in Hr; naive_solver. }
  destruct budget as [|budget]; simpl in Hr; [naive_solver|].
  destruct e; simpl in H, Hr; try (by eapply IH in Hr).
  - destruct H as [H1 H2]. destruct faults as [|[|l|l] faults].
    + by eapply IH in Hr.
    + by eapply IH in Hr.
    + eapply IH in Hr; [done|]. apply H2.
    + simplify_eq. split; [apply H2|done].
  - destruct H as [H1 H2]. destruct (stuck path); by eapply IH in Hr.
Qed.

Lemma always_exec p w w' a : always p w → exec w p = (w', a) → Q w' a.
Proof.
  revert w. induction p as [a'|X e k IH]; intros w [HC H] Hr; simpl in *; [naive_solver|].
  destruct e; simpl in H, Hr; try (by eapply IH in Hr).
  all: destruct H as [H _]; by eapply IH in Hr.
Qed.
End Safety.

Lemma always_bind {A B} (Crash : world → Prop) (Q : world → B → Prop) (p : prog A)
    (f : A → prog B) w :
  always Crash (λ w' a, always Crash Q (f a) w') p w → always Crash Q (p ≫= f) w.
Proof.
  revert w. induction p as [a|X e k IH]; intros w [HC H]; [done|].
  split; [done|]. destruct e; simpl in *; try (by apply IH).
  - destruct H as [H1 H2]. split; [by apply IH|]. intros l. destruct (H2 l). split; [by apply IH|done].
  - destruct H as [H1 H2]. split; by apply IH.
Qed.

Lemma always_mono {A} (C C' : world → Prop) (Q Q' : world → A → Prop) p w :
  (∀ w, C w → C' w) → (∀ w a, Q w a → Q' w a) → always C Q p w → always C' Q' p w.
Proof.
  intros HC HQ. revert w. induction p as [a|X e k IH]; intros w [H1 H2].
  { split; [by apply HC|by apply HQ]. }
  split; [by apply HC|]. destruct e; simpl in *; try (by apply IH).
  - destruct H2 as [H2 H3]. split; [by apply IH|]. intros l. destruct (H3 l). split; [by apply IH|by apply HC].
  - destruct H2 as [H2 H3]. split; by apply IH.
Qed.

Lemma bind_assoc {A B D} (p : prog A) (f : A → prog B) (g : B → prog D) w (C : world → Prop) Q :
  always C Q (x ← p; y ← f x; g y) w → always C Q (y ← (x ← p; f x); g y) w.
Proof.
  revert w. induction p as [a|X e k IH]; intros w Hw; [exact Hw|]. destruct Hw as [HC H].
  split; [done|]. destruct e; simpl in *; try (by apply IH).
  - destruct H as [H1 H2]. split; [by apply IH|]. intros l. destruct (H2 l). split; [by apply IH|done].
  - destruct H as [H1 H2]. split; by apply IH.
Qed.

Lemma always_done {A} (Crash : world → Prop) (Q : world → A → Prop) a w :
  Crash w → Q w a → always Crash Q (Done a) w.
Proof. done. Qed.

(** One step each: the calls as the programs are written. *)
Section Steps.
Context {A : Type} (C : world → Prop) (Q : world → A → Prop).

Lemma always_pure {X} (e : eff X) (f : X → prog A) w :
  match e with FileWrite _ _ => False | FileRemove _ => False | _ => True end →
  C w → always C Q (f (perform e w).1) (perform e w).2 → always C Q (x ← call e; f x) w.
Proof. intros He HC H. destruct e; try done; by split. Qed.

Lemma always_file_write path b (f : bool → prog A) w :
  C w → always C Q (f true) (set_fs <[path := b]> w) →
  (∀ l, C (leave path l w) ∧ always C Q (f false) (leave path l w)) →
  always C Q (x ← call (FileWrite path b); f x) w.
Proof. intros HC H1 H2. split; [done|]. split; [done|]. intros l. destruct (H2 l). done. Qed.

Lemma always_file_remove path (f : unit → prog A) w :
  C w → always C Q (f ()) (set_fs (delete path) w) → always C Q (f ()) w →
  always C Q (x ← call (FileRemove path); f x) w.
Proof. done. Qed.
End Steps.

(** Two safety predicates at once. *)
Lemma always_and {A} (C1 C2 : world → Prop) (Q1 Q2 : world → A → Prop) p w :
  always C1 Q1 p w → always C2 Q2 p w →
  always (λ w, C1 w ∧ C2 w) (λ w a, Q1 w a ∧ Q2 w a) p w.
Proof.
  revert w. induction p as [a|X e k IH]; intros w [H1 H2] [H3 H4]; [done|].
  split; [done|]. destruct e; simpl in *; try (by apply IH).
  - destruct H2 as [H2 H5], H4 as [H4 H6]. split; [by apply IH|]. intros l.
    destruct (H5 l), (H6 l). split; [by apply IH|done].
  - destruct H2, H4. split; by apply IH.
Qed.

Lemma always_crash_post {A} (C : world → Prop) (Q : world → A → Prop) p w :
  always C Q p w → always C (λ w a, C w ∧ Q w a) p w.
Proof.
  revert w. induction p as [a|X e k IH]; intros w [H1 H2]; [done|].
  split; [done|]. destruct e; simpl in *; try (by apply IH).
  - destruct H2 as [H2 H5]. split; [by apply IH|]. intros l. destruct (H5 l). split; [by apply IH|done].
  - destruct H2. split; by apply IH.
Qed.

(** An effect that cannot fail, followed by the rest. *)
Lemma always_try {E A B} (Crash : world → Prop) (Q : world → result E B → Prop)
    (p : prog (result E A)) (k : A → prog (result E B)) w :
  always Crash (λ w' r, match r with Ok a => always Crash Q (k a) w' | Err e => Crash w' ∧ Q w' (Err e) end) p w →
  always Crash Q (try p k) w.
Proof.
  intros H. unfold try. apply always_bind. eapply always_mono; [done| |exact H].
  intros w' [a|e]; [done|]. intros [? ?]. by split.
Qed.

(** ** Reading programs: they leave the world alone *)
Fixpoint reads_only {A} (p : prog A) : Prop :=
  match p with
  | Done _ => True
  | Call e k =>
    match e in eff X return (X → prog A) → Prop with
    | KvGet _ | KvKeys _ | FileRead _ | NowMs | IsHeld _ => λ k, ∀ x, reads_only (k x)
    | _ => λ k, False
    end k
  end.

Lemma reads_only_exec {A} (p : prog A) w : reads_only p → (exec w p).1 = w.
Proof.
  revert w. induction p as [a|X e k IH]; intros w H; [done|].
  destruct e; simpl in *; try done; by apply IH.
Qed.

Lemma reads_only_bind {A B} (p : prog A) (f : A → prog B) :
  reads_only p → (∀ a, reads_only (f a)) → reads_only (p ≫= f).
Proof.
  induction p as [a|X e k IH]; intros H Hf; [apply Hf|].
  destruct e; simpl in *; try done; intros x; by apply IH.
Qed.

(** What a reading program answers, as a function of the world. *)
Definition answer {A} (w : world) (p : prog A) : A := (exec w p).2.

Lemma answer_bind {A B} (p : prog A) (f : A → prog B) w :
  reads_only p → answer w (p ≫= f) = answer w (f (answer w p)).
Proof.
  intros H. unfold answer. rewrite exec_bind. pose proof (reads_only_exec p w H) as E.
  destruct (exec w p) as [w' a]. simpl in *. by subst.
Qed.

Lemma always_reads {A B} (C : world → Prop) (Q : world → B → Prop) (p : prog A) (f : A → prog B) w :
  reads_only p → C w → always C Q (f (answer w p)) w → always C Q (p ≫= f) w.
Proof.
  unfold answer. induction p as [a|X e k IH]; intros Hp HC H; [done|].
  destruct e; simpl in *; try done; (split; [done|]); by apply IH.
Qed.

(** ** Drawing programs: they only consume entropy *)
Fixpoint draws {A} (p : prog A) : Prop :=
  match p with
  | Done _ => True
  | Call e k =>
    match e in eff X return (X → prog A) → Prop with
    | Fill _ => λ k, ∀ x, draws (k x)
    | _ => λ k, False
    end k
  end.

Lemma draws_bind {A B} (p : prog A) (f : A → prog B) : draws p → (∀ a, draws (f a)) → draws (p ≫= f).
Proof.
  induction p as [a|X e k IH]; intros H Hf; [apply Hf|].
  destruct e; simpl in *; try done; intros x; by apply IH.
Qed.

(** Two worlds with the same stores. *)
Definition same_stores (w w' : world) : Prop := kv w' = kv w ∧ fs w' = fs w.

Lemma always_draws {A B} (C : world → Prop) (Q : world → B → Prop) (p : prog A) (f : A → prog B) w :
  draws p → (∀ w', same_stores w w' → C w') →
  (∀ w' a, same_stores w w' → always C Q (f a) w') →
  always C Q (p ≫= f) w.
Proof.
  revert w. induction p as [a|X e k IH]; intros w Hp HC Hf; [by apply Hf|].
  destruct e; simpl in Hp; try done. split; [by apply HC|]. by apply IH.
Qed.

Lemma exec_draws {A} (p : prog A) w : draws p → same_stores w (exec w p).1.
Proof.
  revert w. induction p as [a|X e k IH]; intros w Hp; [done|].
  destruct e; simpl in *; try done.
  by destruct (IH _ (World (kv w) (fs w) (entropy w) (drawn w + n) (IO.now w) (locks w)) (Hp (entropy w <$> seq (drawn w) n))).
Qed.

(** Drawing, with what was drawn. *)
Lemma always_draws_exec {A B} (C : world → Prop) (Q : world → B → Prop) (p : prog A) (f : A → prog B) w :
  draws p → (∀ w', same_stores w w' → C w') →
  always C Q (f (exec w p).2) (exec w p).1 → always C Q (p ≫= f) w.
Proof.
  revert w. induction p as [a|X e k IH]; intros w Hp HC Hf; [done|].
  destruct e; simpl in Hp; try done. split; [by apply HC|]. by apply IH.
Qed.
