(* ===== verification/Crypto.v ===== *)
(** * The third-party primitives, as interfaces

    The ciphers, hashes, encodings and serializers the workspace calls live in
    other crates.  Each is a class whose operations are what the code calls and
    whose laws are the documented behaviour the code relies on; every component
    that uses one is proved against the class.  [Module Toy] gives each class a
    small executable instance, so that the laws are known to be satisfiable and
    concrete inputs can be evaluated. *)
From S2P Require Import Prelude.
From S2P Require Z32.

(** ** AES-256-GCM ([aes_gcm::Aes256Gcm])

    Sealing is deterministic in key, nonce, message and associated data, adds a
    16-byte tag, and fails only past the AEAD's message limit; opening succeeds
    on exactly the ciphertexts sealing produces. *)
Class Aead := {
  aead_encrypt : bytes → bytes → bytes → bytes → option bytes;
  aead_decrypt : bytes → bytes → bytes → bytes → option bytes;
  aead_open_seal : ∀ k n m a c, aead_encrypt k n m a = Some c → aead_decrypt k n c a = Some m;
  aead_seal_open : ∀ k n m a c, aead_decrypt k n c a = Some m → aead_encrypt k n m a = Some c;
  aead_length : ∀ k n m a c, aead_encrypt k n m a = Some c → length c = (length m + 16)%nat;
  aead_total : ∀ k n m a, Z.of_nat (length m) <= 2 ^ 36 → is_Some (aead_encrypt k n m a);
}.

(** ** Hashes: [Sha256], [blake3::hash] and [Hmac<Sha256>], 32 bytes each *)
Class Sha256 := { sha256 : bytes → bytes; length_sha256 : ∀ m, length (sha256 m) = 32%nat }.
Class Blake3 := { blake3 : bytes → bytes; length_blake3 : ∀ m, length (blake3 m) = 32%nat }.
Class Hmac := { hmac : bytes → bytes → bytes; length_hmac : ∀ k m, length (hmac k m) = 32%nat }.

(** ** Argon2id: a 32-byte key or an error *)
Class Argon2 := {
  (** memory, passes, lanes, passphrase, salt *)
  argon2id : Z → Z → Z → bytes → bytes → option bytes;
  length_argon2id : ∀ m t p w s k, argon2id m t p w s = Some k → length k = 32%nat;
}.

(** ** Ed25519: the public key of a seed *)
Class Ed25519 := {
  verifying_key : bytes → bytes;
  length_verifying_key : ∀ s, length (verifying_key s) = 32%nat;
}.

(** ** [data_encoding] specifications: canonical text encodings

    [decode] accepts exactly what [encode] writes (trailing bits are checked by
    default); the alphabet is part of the interface.  [BASE64URL_NOPAD] is one. *)
Class Base64Url := {
  b64_encode : bytes → bytes;
  b64_decode : bytes → option bytes;
  b64_decode_encode : ∀ b, b64_decode (b64_encode b) = Some b;
  b64_encode_decode : ∀ t b, b64_decode t = Some b → b64_encode b = t;
  b64_length : ∀ b c, length b = length c → length (b64_encode b) = length (b64_encode c);
}.

(** [BASE32_NOPAD_VISUAL] decodes what it encodes, and its alphabet has neither
    white space nor a dash; it is forgiving (case, four confusables), so it has
    no inverse law the other way. *)
Class Base32Visual := {
  b32_encode : bytes → bytes;
  b32_decode : bytes → option bytes;
  b32_decode_encode : ∀ b, b32_decode (b32_encode b) = Some b;
  b32_ascii : ∀ b, Forall (λ c, 48 <= u8 c <= 122) (b32_encode b);
  b32_length : ∀ b, Z.of_nat (length (b32_encode b)) = (8 * Z.of_nat (length b) + 4) / 5;
}.

(** ** [serde_json] and [bincode] on one type *)
Class Codec (T : Type) := {
  to_vec : T → option bytes;
  from_slice : bytes → option T;
  codec_roundtrip : ∀ x, ∃ b, to_vec x = Some b ∧ from_slice b = Some x;
}.

Lemma codec_to_vec `{Codec T} (x : T) b : to_vec x = Some b → from_slice b = Some x.
Proof. destruct (codec_roundtrip x) as (b' & Hb & Hx). rewrite Hb. by intros [= <-]. Qed.

(** ** Executable instances *)
Module Toy.
(** The first [n] bytes of a message, padded: no cipher and no hash, only functions
    of the right shape that are cheap to evaluate. *)
Definition fit (n : nat) (m : bytes) : bytes := take n (m ++ replicate n (byte_of 0)).
Lemma length_fit n m : length (fit n m) = n.
Proof. unfold fit. rewrite length_take, length_app, length_replicate. lia. Qed.

(** The tag names the key alone. *)
Definition tag (k n m a : bytes) : bytes := fit 16 k.
Definition seal (k n m a : bytes) : option bytes := Some (m ++ tag k n m a).
Definition open (k n c a : bytes) : option bytes :=
  let '(m, t) := split_at (length c - 16) c in
  if decide (t = tag k n m a) then Some m else None.

#[export] Program Instance aead : Aead := {| aead_encrypt := seal; aead_decrypt := open |}.
Next Obligation.
  intros k n m a c [= <-]. unfold open, split_at, tag.
  rewrite length_app, length_fit, Nat.add_sub.
  rewrite take_app_length, drop_app_length. by rewrite decide_True.
Qed.
Next Obligation.
  intros k n m a c. unfold open, split_at. case_decide as H; [|done]. intros [= <-].
  unfold seal. by rewrite <- H, take_drop.
Qed.
Next Obligation.
  intros k n m a c [= <-]. unfold tag. by rewrite length_app, length_fit.
Qed.
Next Obligation. intros. by eexists. Qed.

#[export] Program Instance sha : Sha256 := {| sha256 m := fit 32 m |}.
Next Obligation. intros. apply length_fit. Qed.
#[export] Program Instance blake : Blake3 := {| blake3 m := fit 32 (byte_of 1 :: m) |}.
Next Obligation. intros. apply length_fit. Qed.
#[export] Program Instance mac : Hmac := {| hmac k m := fit 32 (k ++ m) |}.
Next Obligation. intros. apply length_fit. Qed.
#[export] Program Instance argon : Argon2 := {| argon2id m t p w s := Some (fit 32 (w ++ s)) |}.
Next Obligation. intros ?????? H. apply Some_inj in H as <-. apply length_fit. Qed.
#[export] Program Instance ed : Ed25519 := {| verifying_key s := fit 32 (byte_of 2 :: s) |}.
Next Obligation. intros. apply length_fit. Qed.

(** The z-base-32 codec satisfies both text-encoding interfaces. *)
Lemma z32_length b c : length b = length c → length (Z32.encode b) = length (Z32.encode c).
Proof. intros H. apply Nat2Z.inj. by rewrite !Z32.length_encode, H. Qed.
#[export] Program Instance b64 : Base64Url :=
  {| b64_encode := Z32.encode; b64_decode t := ok (Z32.decode t) |}.
Next Obligation. intros. simpl. by rewrite Z32.decode_encode. Qed.
Next Obligation.
  intros t b. simpl. destruct (Z32.decode t) eqn:H; simpl; intros [= <-]. by apply Z32.encode_decode.
Qed.
Next Obligation. apply z32_length. Qed.
#[export] Program Instance b32 : Base32Visual :=
  {| b32_encode := Z32.encode; b32_decode t := ok (Z32.decode t) |}.
Next Obligation. intros. simpl. by rewrite Z32.decode_encode. Qed.
Next Obligation.
  intros b. destruct (Z32.encode_spec b) as (ds & p & -> & _ & Hds & _).
  rewrite Forall_fmap. eapply Forall_impl; [exact Hds|]. simpl. intros d Hd.
  assert (Hall : forallb (λ i, let c := u8 (Z32.symbol (Z.of_nat i)) in (48 <=? c) && (c <=? 122))
    (seq 0 32) = true) by (vm_compute; reflexivity).
  rewrite forallb_forall in Hall. specialize (Hall (Z.to_nat d)). unfold Z32.digit in Hd.
  rewrite in_seq, Z2Nat.id in Hall by lia. cbv zeta in Hall.
  rewrite andb_true_iff, !Z.leb_le in Hall. apply Hall. lia.
Qed.
Next Obligation. apply Z32.length_encode. Qed.

(** A codec for every countable type: the bits of its code, one per byte. *)
Fixpoint write_pos (p : positive) : bytes :=
  match p with
  | xH => []
  | xO p => byte_of 0 :: write_pos p
  | xI p => byte_of 1 :: write_pos p
  end.
Fixpoint read_pos (l : bytes) : positive :=
  match l with
  | [] => xH
  | b :: l => if u8 b =? 0 then xO (read_pos l) else xI (read_pos l)
  end.
Lemma read_write p : read_pos (write_pos p) = p.
Proof. induction p; simpl; congruence. Qed.

#[export] Program Instance codec `{Countable T} : Codec T :=
  {| to_vec x := Some (write_pos (countable.encode x));
     from_slice l := countable.decode (read_pos l) |}.
Next Obligation. intros T ?? x. eexists. split; [done|]. by rewrite read_write, decode_encode. Qed.
End Toy.
