(* ===== verification/Error.v ===== *)
(** * The kernel's error type ([runtime/crates/kernel/src/lib.rs]) *)
From S2P Require Import Prelude.

Inductive ErrorCode :=
| UnknownApp
| UnknownSession
| Unavailable
| Refused
| NotFound
| Failed.

#[export] Instance ErrorCode_eq_dec : EqDecision ErrorCode.
Proof. solve_decision. Defined.

(** [Error { code, message }]; the model keeps the messages that are literals
    of the source, and the prefix of those that interpolate a library's own
    text. *)
Record Error := Error_new { code : ErrorCode; message : string }.

#[export] Instance Error_eq_dec : EqDecision Error.
Proof. solve_decision. Defined.
