(* ===== verification/Route.v ===== *)
(** * Bookmarkable URLs ([runtime/crates/kernel/src/route.rs])

    The sealed [app/] fragment and the plain [launch/] fragment.  [encode_instance]
    and [decode_instance] are the file's, over the AEAD, HMAC and base64url
    interfaces; the main theorem says that a fragment opens to exactly the
    (install, instance, route) it was encoded from, so there is one fragment per
    state and one state per fragment. *)
From S2P Require Import Prelude Text Crypto.

Definition KIND : string := "app/".
Definition VERSION : Z := 1.
Definition AAD : bytes := as_bytes "polyvisor:route:v1".
Definition INSTALL_LEN : nat := 16.
Definition NONCE_LEN : nat := 12.
Definition PLAINTEXT_LEN : nat := 256.
Definition INSTANCE_CAP : nat := 32.
Definition MAX_ROUTE : nat := (PLAINTEXT_LEN - INSTALL_LEN - 1 - INSTANCE_CAP - 2)%nat.

Inductive RouteError := TooLong | Unreadable.
#[export] Instance RouteError_eq_dec : EqDecision RouteError.
Proof. solve_decision. Defined.

Section Sealed.
Context `{!Aead, !Hmac, !Base64Url}.

Definition mac (key message : bytes) : bytes := hmac key message.

Definition subkeys (key : bytes) : bytes * bytes :=
  (mac key (as_bytes "polyvisor:route:enc"), mac key (as_bytes "polyvisor:route:siv")).

Definition siv (k_siv plaintext : bytes) : bytes := take NONCE_LEN (mac k_siv plaintext).

(** The padded plaintext, field by field as [encode_instance] copies them. *)
Definition plaintext_of (install : bytes) (instance route : bytes) : bytes :=
  let plaintext := replicate PLAINTEXT_LEN (byte_of 0) in
  let plaintext := copy_at 0 install plaintext in
  let plaintext := <[INSTALL_LEN := byte_of (Z.of_nat (length instance))]> plaintext in
  let plaintext := copy_at (INSTALL_LEN + 1) instance plaintext in
  let route_len_at := (INSTALL_LEN + 1 + INSTANCE_CAP)%nat in
  let plaintext := copy_at route_len_at (be_bytes 2 (Z.of_nat (length route))) plaintext in
  copy_at (route_len_at + 2) route plaintext.

Definition encode_instance (key install : bytes) (instance : option string) (route : string)
  : result RouteError string :=
  let route := as_bytes route in
  if (MAX_ROUTE <? length route)%nat then Err TooLong else
  let instance := as_bytes (default "" instance) in
  if (INSTANCE_CAP <? length instance)%nat then Err TooLong else
  let plaintext := plaintext_of install instance route in
  let '(k_enc, k_siv) := subkeys key in
  let nonce := siv k_siv plaintext in
  ct ← ok_or Unreadable (aead_encrypt k_enc nonce plaintext AAD);
  let blob := [byte_of VERSION] ++ nonce ++ ct in
  Ok (KIND +:+ str_of (b64_encode blob)).

(** The fields of an authenticated plaintext. *)
Definition fields_of (plaintext : bytes) : result RouteError (bytes * option string * string) :=
  let install := take INSTALL_LEN plaintext in
  let instance_len := Z.to_nat (u8 (default (byte_of 0) (plaintext !! INSTALL_LEN))) in
  if (INSTANCE_CAP <? instance_len)%nat then Err Unreadable else
  let instance_body := slice (INSTALL_LEN + 1) (INSTALL_LEN + 1 + INSTANCE_CAP) plaintext in
  if existsb (λ b, negb (u8 b =? 0)) (drop instance_len instance_body) then Err Unreadable else
  instance ← ok_or Unreadable (from_utf8 (take instance_len instance_body));
  let route_len_at := (INSTALL_LEN + 1 + INSTANCE_CAP)%nat in
  let len := Z.to_nat (be_val (slice route_len_at (route_len_at + 2) plaintext)) in
  if (MAX_ROUTE <? len)%nat then Err Unreadable else
  let body := drop (route_len_at + 2) plaintext in
  let '(route, pad) := split_at len body in
  if existsb (λ b, negb (u8 b =? 0)) pad then Err Unreadable else
  route ← ok_or Unreadable (from_utf8 route);
  Ok (install, if decide (instance = "") then None else Some instance, route).

Definition decode_instance (key : bytes) (fragment : string)
  : result RouteError (bytes * option string * string) :=
  token ← ok_or Unreadable (strip_prefix (as_bytes KIND) (as_bytes fragment));
  blob ← ok_or Unreadable (b64_decode token);
  if (length blob <? 1 + NONCE_LEN)%nat || negb (bool_decide (blob !! 0%nat = Some (byte_of VERSION)))
  then Err Unreadable else
  let '(nonce, ct) := split_at NONCE_LEN (drop 1 blob) in
  let '(k_enc, k_siv) := subkeys key in
  plaintext ← ok_or Unreadable (aead_decrypt k_enc nonce ct AAD);
  if negb (length plaintext =? PLAINTEXT_LEN)%nat then Err Unreadable else
  if negb (bool_decide (siv k_siv plaintext = nonce)) then Err Unreadable else
  fields_of plaintext.
End Sealed.

(** ** The [launch/] kind *)
Definition LAUNCH_PREFIX : string := "launch/".
Definition launch_fragment (app : string) : string := LAUNCH_PREFIX +:+ app.
Definition launch_app (fragment : string) : option string :=
  app ← strip_prefix (as_bytes LAUNCH_PREFIX) (as_bytes fragment);
  if decide (app = []) then None else Some (str_of app).

(** ** The plaintext's layout *)
Definition zero_pad (n : nat) : bytes := replicate n (byte_of 0).

Lemma zero_pad_existsb n : existsb (λ b, negb (u8 b =? 0)) (zero_pad n) = false.
Proof. unfold zero_pad. induction n as [|n IH]; [done|exact IH]. Qed.

Lemma existsb_zero_pad l : existsb (λ b, negb (u8 b =? 0)) l = false → l = zero_pad (length l).
Proof.
  induction l as [|b l IH]; simpl; [done|]. intros [Hb Hl]%orb_false_iff.
  rewrite negb_false_iff, Z.eqb_eq in Hb. rewrite IH at 1 by done.
  change (zero_pad (S ?n)) with (byte_of 0 :: zero_pad n). f_equal. by apply u8_inj.
Qed.

(** What [encode_instance] writes, as one concatenation. *)
Definition layout (install instance route : bytes) : bytes :=
  install ++ [byte_of (Z.of_nat (length instance))] ++
  (instance ++ zero_pad (INSTANCE_CAP - length instance)) ++
  be_bytes 2 (Z.of_nat (length route)) ++ (route ++ zero_pad (MAX_ROUTE - length route)).

Lemma plaintext_layout install instance route :
  length install = INSTALL_LEN → (length instance ≤ INSTANCE_CAP)%nat →
  (length route ≤ MAX_ROUTE)%nat →
  plaintext_of install instance route = layout install instance route.
Proof.
  intros Hi Hn Hr. unfold plaintext_of, layout.
  unfold INSTANCE_CAP, INSTALL_LEN, zero_pad in *. change MAX_ROUTE with 205%nat in *.
  set (len := byte_of (Z.of_nat (length instance))).
  assert (copy_at 0 install (replicate PLAINTEXT_LEN (byte_of 0)) = install ++ replicate 240 (byte_of 0)) as ->.
  { apply (copy_replicate 0 [] install (byte_of 0) 256 16); done || lia. }
  rewrite insert_replicate by (done || lia). change (240 - 1)%nat with 239%nat.
  rewrite (app_assoc install [len]).
  rewrite (copy_replicate (16 + 1) _ instance _ 239 (length instance))
    by (rewrite ?length_app, ?Hi; simpl; lia).
  assert (replicate (239 - length instance) (byte_of 0)
    = replicate (32 - length instance) (byte_of 0) ++ replicate 207 (byte_of 0)) as ->.
  { rewrite <- replicate_add. f_equal. lia. }
  rewrite (app_assoc instance), (app_assoc (install ++ [len])).
  rewrite (copy_replicate (16 + 1 + 32) _ (be_bytes 2 _) _ 207 2)
    by (unfold zero_pad; rewrite ?length_be_bytes, ?length_app, ?length_replicate, ?Hi; simpl; lia).
  rewrite (app_assoc _ (be_bytes 2 _)).
  rewrite (copy_replicate (16 + 1 + 32 + 2) _ route _ _ (length route))
    by (unfold zero_pad; rewrite ?length_app, ?length_be_bytes, ?length_replicate, ?Hi; simpl; lia).
  by rewrite <- !app_assoc.
Qed.

(** Any 256 bytes are the five fields, in order. *)
Lemma plaintext_pieces (p : bytes) :
  length p = PLAINTEXT_LEN →
  ∃ b, p !! INSTALL_LEN = Some b ∧
    p = take 16 p ++ [b] ++ slice 17 49 p ++ slice 49 51 p ++ drop 51 p.
Proof.
  intros H. destruct (lookup_lt_is_Some_2 p INSTALL_LEN) as [b Hb].
  { rewrite H. unfold INSTALL_LEN, PLAINTEXT_LEN. lia. }
  exists b. split; [done|]. rewrite <- (take_drop 16 p) at 1. f_equal.
  change 16%nat with INSTALL_LEN. rewrite (drop_S _ _ _ Hb). simpl app. f_equal. unfold slice.
  change (S INSTALL_LEN) with 17%nat. change (49 - 17)%nat with 32%nat.
  rewrite <- (take_drop 32 (drop 17 p)) at 1. f_equal. rewrite drop_drop.
  rewrite <- (take_drop 2 (drop (17 + 32) p)) at 1. f_equal. by rewrite drop_drop.
Qed.

Lemma zero_pad_eta l n pad : drop n l = zero_pad pad → l = take n l ++ zero_pad pad.
Proof. intros <-. by rewrite take_drop. Qed.

Section Fields.
Context (install instance route : bytes).
Hypothesis Hi : length install = INSTALL_LEN.
Hypothesis Hn : (length instance ≤ INSTANCE_CAP)%nat.
Hypothesis Hr : (length route ≤ MAX_ROUTE)%nat.

Let body := instance ++ zero_pad (INSTANCE_CAP - length instance).
Let tail := route ++ zero_pad (MAX_ROUTE - length route).

Lemma length_body : length body = INSTANCE_CAP.
Proof. unfold body, zero_pad. rewrite length_app, length_replicate. lia. Qed.

Lemma layout_install : take INSTALL_LEN (layout install instance route) = install.
Proof. unfold layout. by apply take_app_length'. Qed.

Lemma layout_instance_len :
  layout install instance route !! INSTALL_LEN = Some (byte_of (Z.of_nat (length instance))).
Proof. unfold layout. by apply lookup_app_at. Qed.

Lemma layout_body : slice 17 49 (layout install instance route) = body.
Proof.
  unfold layout. rewrite (app_assoc install). apply slice_app; [|apply length_body].
  by rewrite length_app, Hi.
Qed.

Lemma layout_route_len :
  slice 49 51 (layout install instance route) = be_bytes 2 (Z.of_nat (length route)).
Proof.
  unfold layout. rewrite (app_assoc install), (app_assoc (install ++ _)).
  apply slice_app; [|apply length_be_bytes].
  rewrite length_app, (length_app install), Hi. fold body. by rewrite length_body.
Qed.

Lemma layout_tail : drop 51 (layout install instance route) = tail.
Proof.
  unfold layout. rewrite !app_assoc. rewrite <- (app_assoc _ route). apply drop_app_length'.
  rewrite <- !(app_assoc _ _ (be_bytes _ _)), <- (app_assoc _ instance).
  rewrite !length_app, Hi, length_be_bytes. fold body.
  pose proof length_body as H. unfold body in H. rewrite length_app in H.
  unfold INSTANCE_CAP, INSTALL_LEN in *. simpl. lia.
Qed.

Lemma length_layout : length (layout install instance route) = PLAINTEXT_LEN.
Proof.
  unfold layout, zero_pad. rewrite !length_app, !length_replicate, length_be_bytes, Hi.
  unfold INSTANCE_CAP, INSTALL_LEN in *. change MAX_ROUTE with 205%nat in *. simpl.
  unfold PLAINTEXT_LEN. lia.
Qed.

Lemma fields_of_layout :
  fields_of (layout install instance route) =
  (n ← ok_or Unreadable (from_utf8 instance);
   r ← ok_or Unreadable (from_utf8 route);
   Ok (install, if decide (n = "") then None else Some n, r)).
Proof.
  unfold fields_of. rewrite layout_install, layout_instance_len.
  change (default _ (Some ?x)) with x.
  unfold INSTANCE_CAP in Hn. change MAX_ROUTE with 205%nat in Hr.
  rewrite u8_byte_of_small by lia. rewrite Nat2Z.id.
  rewrite (proj2 (Nat.ltb_ge _ _)) by done.
  change (INSTALL_LEN + 1)%nat with 17%nat. change (17 + INSTANCE_CAP)%nat with 49%nat.
  change (49 + 2)%nat with 51%nat.
  rewrite layout_body, layout_route_len, layout_tail.
  unfold body at 1. rewrite drop_app_length, zero_pad_existsb.
  unfold body. rewrite take_app_length.
  destruct (from_utf8 instance) as [n|]; [|done]. cbn [ok_or mbind result_bind].
  rewrite be_val_be_bytes_small by lia. rewrite Nat2Z.id.
  rewrite (proj2 (Nat.ltb_ge _ _)) by done.
  unfold split_at, tail. by rewrite drop_app_length, take_app_length, zero_pad_existsb.
Qed.
End Fields.

Lemma from_utf8_Some l s : from_utf8 l = Some s ↔ l = as_bytes s ∧ utf8_valid l = true.
Proof.
  unfold from_utf8. split.
  - destruct (utf8_valid l) eqn:H; [|done]. intros [= <-]. by rewrite as_bytes_str_of.
  - intros [-> ->]. by rewrite str_of_as_bytes.
Qed.

(** An authenticated plaintext that reads back is one [encode_instance] lays out. *)
Lemma fields_of_inv p i o r :
  length p = PLAINTEXT_LEN → fields_of p = Ok (i, o, r) →
  let n := default "" o in
  p = layout i (as_bytes n) (as_bytes r) ∧ length i = INSTALL_LEN ∧
  (length (as_bytes n) ≤ INSTANCE_CAP)%nat ∧ (length (as_bytes r) ≤ MAX_ROUTE)%nat ∧
  utf8_valid (as_bytes n) = true ∧ utf8_valid (as_bytes r) = true ∧ o ≠ Some "".
Proof.
  intros Hp. destruct (plaintext_pieces p Hp) as (b & Hb & Hpieces).
  unfold fields_of. rewrite Hb. change (default _ (Some ?x)) with x.
  change (INSTALL_LEN + 1)%nat with 17%nat. change (17 + INSTANCE_CAP)%nat with 49%nat.
  change (49 + 2)%nat with 51%nat. unfold PLAINTEXT_LEN in Hp.
  destruct (Nat.ltb_spec INSTANCE_CAP (Z.to_nat (u8 b))) as [|Hcap]; [done|].
  destruct (existsb _ (drop _ (slice 17 49 p))) eqn:Hz1; [done|].
  intros (n & (Hn & Hnu)%ok_or_Ok%from_utf8_Some & H)%bind_Ok. revert H.
  destruct (Nat.ltb_spec MAX_ROUTE (Z.to_nat (be_val (slice 49 51 p)))) as [|Hmax]; [done|].
  unfold split_at. destruct (existsb _ (drop _ (drop 51 p))) eqn:Hz2; [done|].
  intros (r' & (Hr & Hru)%ok_or_Ok%from_utf8_Some & H)%bind_Ok. simplify_eq.
  rewrite Hn in Hnu. rewrite Hr in Hru.
  assert (default "" (if decide (n = "") then None else Some n) = n) as Hdef.
  { by case_decide. }
  cbv zeta. rewrite Hdef.
  assert (length (slice 17 49 p) = 32%nat) as Hl1 by (apply length_slice; lia).
  assert (length (slice 49 51 p) = 2%nat) as Hl2 by (apply length_slice; lia).
  assert (length (as_bytes n) = Z.to_nat (u8 b)) as Hln.
  { rewrite <- Hn, length_take. unfold INSTANCE_CAP in *. lia. }
  assert (length (drop 51 p) = MAX_ROUTE) as Hl3.
  { rewrite length_drop, Hp. done. }
  assert (length (as_bytes r) = Z.to_nat (be_val (slice 49 51 p))) as Hlr.
  { rewrite <- Hr, length_take. lia. }
  split_and!; try done; [|rewrite length_take; unfold INSTALL_LEN; lia| |by rewrite Hlr|case_decide; congruence].
  2: by rewrite Hln.
  apply existsb_zero_pad in Hz1, Hz2. rewrite length_drop, Hl1 in Hz1. rewrite length_drop, Hl3 in Hz2.
  rewrite Hpieces at 1. unfold layout.
  pose proof (u8_range b). pose proof (be_val_range (slice 49 51 p)).
  rewrite Hln, Hlr, !Z2Nat.id, byte_of_u8 by lia. 
  pose proof (be_bytes_be_val (slice 49 51 p)) as Hbe. rewrite Hl2 in Hbe. rewrite Hbe.
  rewrite <- Hn, <- Hr. unfold INSTANCE_CAP. rewrite <- Hz1, <- Hz2, !take_drop. done.
Qed.

(** ** Fragments *)
Section Fragments.
Context `{!Aead, !Hmac, !Base64Url}.

Lemma length_siv k p : length (siv k p) = NONCE_LEN.
Proof. unfold siv, mac. rewrite length_take, length_hmac. done. Qed.

(** What a text that decodes is. *)
Lemma decode_instance_Ok key f v :
  decode_instance key f = Ok v ↔
  ∃ p ct, let k_enc := (subkeys key).1 in let n := siv (subkeys key).2 p in
    f = KIND +:+ str_of (b64_encode ([byte_of VERSION] ++ n ++ ct)) ∧
    aead_encrypt k_enc n p AAD = Some ct ∧ length p = PLAINTEXT_LEN ∧ fields_of p = Ok v.
Proof.
  unfold decode_instance. destruct (subkeys key) as [k_enc k_siv]. cbn [fst snd]. cbv zeta. split.
  - intros (t & Ht%ok_or_Ok%strip_prefix_Some & HH)%bind_Ok.
    apply bind_Ok in HH as (blob & Hb%ok_or_Ok & HH). apply b64_encode_decode in Hb as <-.
    revert HH. destruct (Nat.ltb_spec (length blob) (1 + NONCE_LEN)) as [|Hlen]; [done|].
    case_bool_decide as Hv; [|done]. destruct blob as [|v0 blob]; [done|].
    simplify_eq/=. intros (p & Hp%ok_or_Ok%aead_seal_open & Hp2)%bind_Ok. revert Hp2.
    destruct (Nat.eqb_spec (length p) PLAINTEXT_LEN) as [Hpl|]; [|done].
    case_bool_decide as Hs; [|done]. intros HH. rewrite drop_0 in *. rewrite <- Hs in Hp.
    exists p, (drop NONCE_LEN blob). split_and!; try done.
    apply as_bytes_inj. rewrite as_bytes_app, as_bytes_str_of, Ht, Hs, take_drop. done.
  - intros (p & ct & -> & Hct & Hp & HH).
    rewrite as_bytes_app, as_bytes_str_of, strip_prefix_app. cbn [ok_or mbind result_bind].
    rewrite b64_decode_encode. cbn [ok_or mbind result_bind].
    rewrite (proj2 (Nat.ltb_ge _ _)) by (rewrite !length_app, length_siv; unfold NONCE_LEN; simpl; lia).
    rewrite bool_decide_true by done. cbn [negb orb app drop split_at].
    unfold split_at. rewrite drop_0.
    rewrite take_app_length', drop_app_length' by by rewrite length_siv.
    rewrite (aead_open_seal _ _ _ _ _ Hct). cbn [ok_or mbind result_bind].
    rewrite Hp, Nat.eqb_refl, bool_decide_true by done. done.
Qed.

Lemma encode_instance_Ok key i o r f :
  encode_instance key i o r = Ok f ↔
  (length (as_bytes r) ≤ MAX_ROUTE)%nat ∧
  (length (as_bytes (default "" o)) ≤ INSTANCE_CAP)%nat ∧
  let p := plaintext_of i (as_bytes (default "" o)) (as_bytes r) in
  let n := siv (subkeys key).2 p in
  ∃ ct, aead_encrypt (subkeys key).1 n p AAD = Some ct ∧
    f = KIND +:+ str_of (b64_encode ([byte_of VERSION] ++ n ++ ct)).
Proof.
  unfold encode_instance. destruct (subkeys key) as [k_enc k_siv]. cbn [fst snd].
  destruct (Nat.ltb_spec MAX_ROUTE (length (as_bytes r))); [split; [done|lia]|].
  destruct (Nat.ltb_spec INSTANCE_CAP (length (as_bytes (default "" o)))); [split; [done|lia]|].
  cbv zeta. split.
  - intros (ct & Hct%ok_or_Ok & [= <-])%bind_Ok. eauto.
  - intros (_ & _ & ct & Hct & ->). by rewrite Hct.
Qed.

Lemma length_plaintext_of i o r :
  length i = INSTALL_LEN → (length o ≤ INSTANCE_CAP)%nat → (length r ≤ MAX_ROUTE)%nat →
  length (plaintext_of i o r) = PLAINTEXT_LEN.
Proof. intros. rewrite plaintext_layout by done. by apply length_layout. Qed.

Lemma decoded_was_encoded key f i o r : decode_instance key f = Ok (i, o, r) →
  length i = INSTALL_LEN ∧ o ≠ Some "" ∧ utf8_valid (as_bytes (default "" o)) = true ∧ utf8_valid (as_bytes r) = true ∧
  encode_instance key i o r = Ok f.
Proof.
  rewrite decode_instance_Ok, encode_instance_Ok. cbv zeta. intros (p & ct & -> & Hct & Hp & Hf).
  destruct (fields_of_inv p i o r Hp Hf) as (-> & Hi & Hn & Hr & Hu1 & Hu2 & Ho).
  rewrite plaintext_layout by done. eauto 10.
Qed.

(** A fragment opens to exactly the state it was encoded from: [decode_instance]
    answers (install, instance, route) for [f] if and only if that state is one a
    caller can hold (a 16-byte install id, two texts, no empty instance) and
    [encode_instance] under the same key writes [f] for it.  So there is one
    fragment per state and no second spelling of it, and a text under another
    key, of another kind or version, or with non-zero padding opens to nothing. *)
Theorem decode_instance_iff_encode_instance key f i o r :
  decode_instance key f = Ok (i, o, r) ↔
  length i = INSTALL_LEN ∧ o ≠ Some "" ∧
  utf8_valid (as_bytes (default "" o)) = true ∧ utf8_valid (as_bytes r) = true ∧
  encode_instance key i o r = Ok f.
Proof.
  split; [apply decoded_was_encoded|]. rewrite decode_instance_Ok, encode_instance_Ok. cbv zeta.
  intros (Hi & Ho & Hu1 & Hu2 & Hr & Hn & ct & Hct & ->).
    eexists _, ct. split_and!; [done|done|by apply length_plaintext_of|].
    rewrite plaintext_layout, fields_of_layout by done.
    rewrite !from_utf8_as_bytes by done. simpl.
    destruct o as [n|]; simpl in *; [|done]. by rewrite decide_False by congruence.
Qed.

(** Encoding answers [TooLong] on exactly the over-long routes and instances,
    never [Unreadable], and otherwise a fragment; and any two fragments have
    the same length, whatever they carry. *)
Theorem encode_instance_total key i o r :
  length i = INSTALL_LEN →
  (if (MAX_ROUTE <? length (as_bytes r))%nat || (INSTANCE_CAP <? length (as_bytes (default "" o)))%nat
   then encode_instance key i o r = Err TooLong
   else ∃ f, encode_instance key i o r = Ok f) ∧
  (∀ key' i' o' r' f f', length i' = INSTALL_LEN →
    encode_instance key i o r = Ok f → encode_instance key' i' o' r' = Ok f' →
    String.length f = String.length f').
Proof.
  assert (∀ k j p s g, length j = INSTALL_LEN → encode_instance k j p s = Ok g →
    ∃ blob, length blob = 285%nat ∧ g = KIND +:+ str_of (b64_encode blob)) as Hlen.
  { intros k j p s g Hj (Hs & Hp & ct & Hct & ->)%encode_instance_Ok.
    eexists. split; [|done]. rewrite !length_app, length_siv, (aead_length _ _ _ _ _ Hct).
    by rewrite length_plaintext_of. }
  intros Hi. split.
  - destruct (Nat.ltb_spec MAX_ROUTE (length (as_bytes r))) as [HA|HA];
      [|destruct (Nat.ltb_spec INSTANCE_CAP (length (as_bytes (default "" o)))) as [HB|HB]]; simpl.
    + unfold encode_instance. by rewrite (proj2 (Nat.ltb_lt _ _)).
    + unfold encode_instance. by rewrite (proj2 (Nat.ltb_ge _ _)), (proj2 (Nat.ltb_lt _ _)).
    + edestruct aead_total as [ct Hct]; [|eexists; apply encode_instance_Ok; eauto].
      rewrite length_plaintext_of by done. vm_compute. discriminate.
  - intros key' i' o' r' f f' Hi' Hf Hf'.
    destruct (Hlen _ _ _ _ _ Hi Hf) as (b & Hb & ->), (Hlen _ _ _ _ _ Hi' Hf') as (b' & Hbb' & ->).
    rewrite !length_string. rewrite !as_bytes_app, !as_bytes_str_of, !length_app.
    f_equal. apply b64_length. lia.
Qed.
End Fragments.

(** [launch/<app>] names exactly the apps with a non-empty id. *)
Theorem launch_app_iff f a : launch_app f = Some a ↔ a ≠ "" ∧ f = launch_fragment a.
Proof.
  unfold launch_app, launch_fragment. split.
  - intros (b & Hb%strip_prefix_Some & H)%bind_Some. case_decide as Hne; [done|]. simplify_eq.
    split.
    + intros Ha. apply Hne. apply (f_equal as_bytes) in Ha. by rewrite as_bytes_str_of in Ha.
    + apply as_bytes_inj. by rewrite as_bytes_app, as_bytes_str_of.
  - intros [Ha ->]. rewrite as_bytes_app, strip_prefix_app. cbn [mbind option_bind].
    rewrite decide_False; [by rewrite str_of_as_bytes|]. intros E. apply Ha.
    by apply as_bytes_inj.
Qed.

(** ** Concrete fragments *)
Section Concrete.
Import Toy.
Definition key0 : bytes := be_bytes 32 7.
Definition install0 : bytes := be_bytes 16 99.

Lemma decode_instance_iff_encode_instance_witness :
  ∃ f, encode_instance key0 install0 (Some "left") "task/3" = Ok f ∧
    decode_instance key0 f = Ok (install0, Some "left", "task/3").
Proof.
  eexists. split; [vm_compute; reflexivity|].
  apply decode_instance_iff_encode_instance. split_and!; vm_compute; (reflexivity || discriminate).
Defined.

Lemma encode_instance_total_witness :
  ∃ f, encode_instance key0 install0 None "a" = Ok f.
Proof. apply (encode_instance_total key0 install0 None "a"). reflexivity. Defined.
End Concrete.
