(* ===== verification/Seal.v ===== *)
(** * Sealing ([runtime/crates/kernel/src/seal.rs])

    The data-encryption key, the AEAD the checkpoint rides under, and the
    passphrase-wrapped record the key rests in. *)
From S2P Require Import Prelude IO Crypto Error.

Definition DEK_LEN : nat := 32.
Definition NONCE_LEN : nat := 12.
Definition SALT_LEN : nat := 16.
Definition ARGON2_M_COST_KIB : Z := 19 * 1024.
Definition ARGON2_T_COST : Z := 2.
Definition ARGON2_P_COST : Z := 1.

Record Dek := mkDek { dek_key : bytes }.
#[export] Instance Dek_eq_dec : EqDecision Dek.
Proof. solve_decision. Defined.

Definition Dek_mint : prog Dek := key ← call (Fill DEK_LEN); mret (mkDek key).

Definition Dek_decode (b : bytes) : result Error Dek :=
  match try_array DEK_LEN b with
  | Some key => Ok (mkDek key)
  | None => Err (Error_new Failed
      ("the stored data key is " +:+ pretty (length b) +:+ " bytes; it must be 32"))
  end.

Definition unreadable : Error := Error_new Failed "the sealed record did not open".

Record WrappedDek := mkWrappedDek { salt : bytes; nonce : bytes; ct : bytes }.
#[export] Instance WrappedDek_eq_dec : EqDecision WrappedDek.
Proof. solve_decision. Defined.

#[export] Program Instance WrappedDek_countable : Countable WrappedDek :=
  inj_countable' (λ r, (salt r, nonce r, ct r)) (λ '(s, n, c), mkWrappedDek s n c) _.
Next Obligation. by intros []. Qed.

Section Seal.
Context `{!Aead, !Argon2, !Codec WrappedDek}.

Definition encrypt (key nonce plaintext aad : bytes) : result Error bytes :=
  ok_or (Error_new Failed "the state could not be sealed") (aead_encrypt key nonce plaintext aad).

Definition decrypt (key nonce ct aad : bytes) : result Error bytes :=
  ok_or unreadable (aead_decrypt key nonce ct aad).

Definition Dek_seal (self : Dek) (plaintext aad : bytes) : prog (result Error bytes) :=
  nonce ← call (Fill NONCE_LEN);
  mret (ct ← encrypt (dek_key self) nonce plaintext aad; Ok (nonce ++ ct)).

Definition Dek_open (self : Dek) (blob aad : bytes) : result Error bytes :=
  if (length blob <? NONCE_LEN)%nat then Err unreadable else
  let '(nonce, ct) := split_at NONCE_LEN blob in
  decrypt (dek_key self) nonce ct aad.

Definition derive_kek (passphrase : string) (salt : bytes) : result Error bytes :=
  ok_or (Error_new Failed "the passphrase could not be turned into a key: ")
    (argon2id ARGON2_M_COST_KIB ARGON2_T_COST ARGON2_P_COST (as_bytes passphrase) salt).

Definition WrappedDek_wrap (dek : Dek) (passphrase id : string) : prog (result Error WrappedDek) :=
  salt ← call (Fill SALT_LEN);
  nonce ← call (Fill NONCE_LEN);
  mret (kek ← derive_kek passphrase salt;
        ct ← encrypt kek nonce (dek_key dek) (as_bytes id);
        Ok (mkWrappedDek salt nonce ct)).

Definition unwrap_with (self : WrappedDek) (passphrase id : string) : result Error Dek :=
  kek ← derive_kek passphrase (salt self);
  nonce ← ok_or unreadable (try_array NONCE_LEN (nonce self));
  plain ← decrypt kek nonce (ct self) (as_bytes id);
  Dek_decode plain.

Definition WrappedDek_decode (b : bytes) : result Error WrappedDek :=
  ok_or (Error_new Failed "the wrapped data key could not be read: ") (from_slice b).

Definition WrappedDek_encode (self : WrappedDek) : result Error bytes :=
  ok_or (Error_new Failed "the wrapped data key could not be written: ") (to_vec self).

(** ** What opens *)
Lemma Dek_open_Ok dek blob aad p :
  Dek_open dek blob aad = Ok p ↔
  ∃ n ct, length n = NONCE_LEN ∧ blob = n ++ ct ∧ aead_encrypt (dek_key dek) n p aad = Some ct.
Proof.
  unfold Dek_open, decrypt, split_at. split.
  - destruct (Nat.ltb_spec (length blob) NONCE_LEN) as [|Hlen]; [done|].
    intros Hd%ok_or_Ok%aead_seal_open. exists (take NONCE_LEN blob), (drop NONCE_LEN blob).
    split_and!; [rewrite length_take; lia|by rewrite take_drop|done].
  - intros (n & ct & Hn & -> & Hct).
    rewrite (proj2 (Nat.ltb_ge _ _)) by (rewrite length_app; lia).
    rewrite take_app_length', drop_app_length' by done.
    by rewrite (aead_open_seal _ _ _ _ _ Hct).
Qed.

Lemma Dek_decode_Ok b d : Dek_decode b = Ok d ↔ b = dek_key d ∧ length b = DEK_LEN.
Proof.
  unfold Dek_decode, try_array. case_decide; destruct d; naive_solver.
Qed.

Lemma length_fill w n : length ((perform (Fill n) w).1) = n.
Proof. simpl. by rewrite length_fmap, length_seq. Qed.

(** Sealing never changes the stores, only draws a nonce. *)
Lemma exec_Dek_seal dek p aad w :
  exec w (Dek_seal dek p aad) =
  let '(n, w') := perform (Fill NONCE_LEN) w in
  (w', ct ← encrypt (dek_key dek) n p aad; Ok (n ++ ct)).
Proof. done. Qed.

(** A state under the AEAD's limit always seals, the seal opens under the
    same key and associated data to what was sealed, and a blob that opens is
    one [seal] writes under some 12-byte nonce. *)
Theorem seal_then_open dek plaintext aad w :
  Z.of_nat (length plaintext) <= 2 ^ 36 →
  (∃ blob, (exec w (Dek_seal dek plaintext aad)).2 = Ok blob ∧
    length blob = (length plaintext + 28)%nat ∧ Dek_open dek blob aad = Ok plaintext) ∧
  (∀ blob p, Dek_open dek blob aad = Ok p →
    ∃ w', (exec w' (Dek_seal dek p aad)).2 = Ok blob).
Proof.
  intros Hlen. split.
  - rewrite exec_Dek_seal. destruct (perform (Fill NONCE_LEN) w) as [n w'] eqn:Hn.
    assert (length n = NONCE_LEN) as Hnl by (rewrite <- (length_fill w NONCE_LEN), Hn; done).
    destruct (aead_total (dek_key dek) n plaintext aad Hlen) as [ct Hct].
    exists (n ++ ct). unfold encrypt. rewrite Hct. split_and!; [done| |].
    + rewrite length_app, Hnl, (aead_length _ _ _ _ _ Hct). unfold NONCE_LEN. lia.
    + apply Dek_open_Ok. eauto.
  - intros blob p (n & ct & Hn & -> & Hct)%Dek_open_Ok.
    exists (World ∅ ∅ (λ i, default Byte.x00 (n !! i)) 0 0 ∅).
    rewrite exec_Dek_seal. cbn [perform].
    assert ((λ i, default Byte.x00 (n !! i)) <$> seq 0 NONCE_LEN = n) as Hfill.
    { apply list_eq. intros i. rewrite list_lookup_fmap.
      destruct (decide (i < NONCE_LEN)%nat) as [Hi|Hi].
      - rewrite lookup_seq_lt by lia. simpl. rewrite <- Hn in Hi.
        by destruct (lookup_lt_is_Some_2 _ _ Hi) as [b ->].
      - rewrite lookup_seq_ge by lia. simpl. rewrite lookup_ge_None_2 by lia. done. }
    cbn [entropy drawn snd]. rewrite Hfill. unfold encrypt. by rewrite Hct.
Qed.

Lemma wrap_Ok dek passphrase id w wrapped :
  (exec w (WrappedDek_wrap dek passphrase id)).2 = Ok wrapped →
  ∃ kek, length (nonce wrapped) = NONCE_LEN ∧ derive_kek passphrase (salt wrapped) = Ok kek ∧
    aead_encrypt kek (nonce wrapped) (dek_key dek) (as_bytes id) = Some (ct wrapped).
Proof.
  intros Hw. unfold WrappedDek_wrap in Hw.
  cbn [exec mbind prog_bind prog_bind_ call mret prog_ret snd] in Hw.
  destruct (perform (Fill SALT_LEN) w) as [s w1]. cbn [exec prog_bind_] in Hw.
  destruct (perform (Fill NONCE_LEN) w1) as [n w2] eqn:Hn. cbn [exec prog_bind_ snd] in Hw.
  assert (length n = NONCE_LEN) as Hnl by (rewrite <- (length_fill w1 NONCE_LEN), Hn; done).
  apply bind_Ok in Hw as (kek & Hkek & Hw). apply bind_Ok in Hw as (c & Hc & Hw). simplify_eq.
  unfold encrypt in Hc. apply ok_or_Ok in Hc. by exists kek.
Qed.

Lemma wrap_unwraps dek passphrase id w wrapped :
  length (dek_key dek) = DEK_LEN →
  (exec w (WrappedDek_wrap dek passphrase id)).2 = Ok wrapped →
  unwrap_with wrapped passphrase id = Ok dek.
Proof.
  intros Hdek (kek & Hnl & Hkek & Hc)%wrap_Ok. unfold unwrap_with. rewrite Hkek.
  cbn [mbind result_bind]. rewrite try_array_exact by done.
  cbn [ok_or mbind result_bind]. unfold decrypt. rewrite (aead_open_seal _ _ _ _ _ Hc).
  cbn [ok_or mbind result_bind]. by apply Dek_decode_Ok.
Qed.

(** The login: a wrapped key unwraps under its passphrase and device id, also
    after a trip through storage; and whatever a record unwraps to is the 32-byte
    key that was wrapped, so the record opens under one associated device only
    when the AEAD says so. *)
Theorem unwrap_wrap dek passphrase id w wrapped :
  length (dek_key dek) = DEK_LEN →
  (exec w (WrappedDek_wrap dek passphrase id)).2 = Ok wrapped →
  unwrap_with wrapped passphrase id = Ok dek ∧
  (∃ b, WrappedDek_encode wrapped = Ok b ∧ WrappedDek_decode b = Ok wrapped) ∧
  (∀ passphrase' id' dek', unwrap_with wrapped passphrase' id' = Ok dek' →
    length (dek_key dek') = DEK_LEN ∧
    ∃ kek', derive_kek passphrase' (salt wrapped) = Ok kek' ∧
      aead_encrypt kek' (nonce wrapped) (dek_key dek') (as_bytes id') = Some (ct wrapped)).
Proof.
  intros Hdek Hw. split_and!; [by eapply wrap_unwraps| |].
  - unfold WrappedDek_encode, WrappedDek_decode.
    destruct (codec_roundtrip wrapped) as (b & -> & Hb). exists b. by rewrite Hb.
  - unfold unwrap_with. intros pp' id' dek' (k' & Hk' & HH)%bind_Ok. apply bind_Ok in HH as (n' & Hn' & HH).
    apply ok_or_Ok, try_array_Some in Hn' as [-> _].
    apply bind_Ok in HH as (p & Hp & [-> Hl]%Dek_decode_Ok).
    unfold decrypt in Hp. apply ok_or_Ok, aead_seal_open in Hp. eauto.
Qed.
End Seal.

(** ** Concrete keys *)
Section Concrete.
Import Toy.
Definition dek0 : Dek := mkDek (be_bytes 32 5).
Definition world0 : world := World ∅ ∅ (λ i, byte_of (Z.of_nat i)) 0 0 ∅.

Lemma seal_then_open_witness :
  ∃ blob, (exec world0 (Dek_seal dek0 (as_bytes "state") (as_bytes "dev"))).2 = Ok blob ∧
    Dek_open dek0 blob (as_bytes "dev") = Ok (as_bytes "state").
Proof.
  destruct (seal_then_open dek0 (as_bytes "state") (as_bytes "dev") world0) as [(b & H1 & _ & H2) _].
  { vm_compute. discriminate. }
  by exists b.
Defined.

Lemma unwrap_wrap_witness :
  ∃ wrapped, (exec world0 (WrappedDek_wrap dek0 "pass" "dev-1")).2 = Ok wrapped ∧
    unwrap_with wrapped "pass" "dev-1" = Ok dek0.
Proof.
  eexists. split; [vm_compute; reflexivity|].
  eapply (unwrap_wrap dek0 "pass" "dev-1" world0); vm_compute; reflexivity.
Defined.
End Concrete.
