(* ===== verification/RootBackup.v ===== *)
(** * The root-seed backup envelope ([runtime/crates/kernel/src/root_backup.rs])

    A fixed-width envelope over Argon2id and AES-256-GCM: a 114-byte header that
    is authenticated in the clear, then the sealed 32-byte seed.  The main
    theorem says that what opens for a root and a group is exactly what
    [encrypt] writes for them. *)
From S2P Require Import Prelude Crypto.

Definition ROOT_SEED_LEN : nat := 32.
Definition ROOT_PUBLIC_KEY_LEN : nat := 32.
Definition GROUP_ID_LEN : nat := 32.
Definition SALT_LEN : nat := 16.
Definition NONCE_LEN : nat := 12.
Definition KEY_LEN : nat := 32.
Definition ARGON2_MEMORY_KIB : Z := 64 * 1024.
Definition ARGON2_TIME_COST : Z := 3.
Definition ARGON2_LANES : Z := 1.
Definition MAGIC : bytes := as_bytes "PVROOTBK".
Definition VERSION : Z := 1.
Definition KDF_ARGON2ID_V19 : Z := 1.
Definition HEADER_LEN : nat := (8 + 1 + 1 + 4 + 4 + 4 + 32 + 32 + 16 + 12)%nat.
Definition TAG_LEN : nat := 16.
Definition ENCODED_LEN : nat := (HEADER_LEN + ROOT_SEED_LEN + TAG_LEN)%nat.
Definition MAX_PASSPHRASE_LEN : nat := 1024.

Record DerivedKey := { key_bytes : bytes }.
Record PreparedEncryption := mkPreparedEncryption { header : bytes }.
Record PreparedDecryption := mkPreparedDecryption { envelope : bytes }.

Definition PreparedEncryption_salt (p : PreparedEncryption) : bytes := slice 86 102 (header p).
Definition PreparedDecryption_salt (p : PreparedDecryption) : bytes := slice 86 102 (envelope p).

(** [read_u32(bytes, offset)] *)
Definition read_u32 (b : bytes) (offset : nat) : Z := be_val (slice offset (offset + 4) b).

Section Backup.
Context `{!Aead, !Argon2, !Ed25519}.

Definition prepare_encrypt (seed group salt nonce : bytes) : PreparedEncryption :=
  let root := verifying_key seed in
  let header := replicate HEADER_LEN (byte_of 0) in
  let header := copy_at 0 MAGIC header in
  let header := <[8%nat := byte_of VERSION]> header in
  let header := <[9%nat := byte_of KDF_ARGON2ID_V19]> header in
  let header := copy_at 10 (be_bytes 4 ARGON2_MEMORY_KIB) header in
  let header := copy_at 14 (be_bytes 4 ARGON2_TIME_COST) header in
  let header := copy_at 18 (be_bytes 4 ARGON2_LANES) header in
  let header := copy_at 22 root header in
  let header := copy_at 54 group header in
  let header := copy_at 86 salt header in
  let header := copy_at 102 nonce header in
  mkPreparedEncryption header.

Definition prepare_decrypt (expected_root expected_group envelope : bytes)
  : result () PreparedDecryption :=
  envelope ← ok_or () (try_array ENCODED_LEN envelope);
  if negb (bool_decide (slice 0 8 envelope = MAGIC))
     || negb (bool_decide (envelope !! 8%nat = Some (byte_of VERSION)))
     || negb (bool_decide (envelope !! 9%nat = Some (byte_of KDF_ARGON2ID_V19)))
     || negb (read_u32 envelope 10 =? ARGON2_MEMORY_KIB)
     || negb (read_u32 envelope 14 =? ARGON2_TIME_COST)
     || negb (read_u32 envelope 18 =? ARGON2_LANES)
     || negb (bool_decide (slice 22 54 envelope = expected_root))
     || negb (bool_decide (slice 54 86 envelope = expected_group))
  then Err ()
  else Ok (mkPreparedDecryption envelope).

Definition derive_key (passphrase : string) (salt : bytes) : result () DerivedKey :=
  if (MAX_PASSPHRASE_LEN <? length (as_bytes passphrase))%nat then Err () else
  key ← ok_or () (argon2id ARGON2_MEMORY_KIB ARGON2_TIME_COST ARGON2_LANES (as_bytes passphrase) salt);
  Ok {| key_bytes := key |}.

Definition encrypt (prepared : PreparedEncryption) (seed : bytes) (key : DerivedKey)
  : result () bytes :=
  if negb (bool_decide (verifying_key seed = slice 22 54 (header prepared))) then Err () else
  nonce ← ok_or () (try_array NONCE_LEN (drop 102 (header prepared)));
  ciphertext ← ok_or () (aead_encrypt (key_bytes key) nonce seed (header prepared));
  Ok (header prepared ++ ciphertext).

Definition decrypt (prepared : PreparedDecryption) (key : DerivedKey) : result () bytes :=
  let e := envelope prepared in
  nonce ← ok_or () (try_array NONCE_LEN (slice 102 HEADER_LEN e));
  plaintext ← ok_or () (aead_decrypt (key_bytes key) nonce (drop HEADER_LEN e) (take HEADER_LEN e));
  seed ← ok_or () (try_array ROOT_SEED_LEN plaintext);
  if negb (bool_decide (verifying_key seed = slice 22 54 e)) then Err () else Ok seed.

(** ** The header's layout *)
Definition header_layout (root group salt nonce : bytes) : bytes :=
  MAGIC ++ [byte_of VERSION] ++ [byte_of KDF_ARGON2ID_V19] ++
  be_bytes 4 ARGON2_MEMORY_KIB ++ be_bytes 4 ARGON2_TIME_COST ++ be_bytes 4 ARGON2_LANES ++
  root ++ group ++ salt ++ nonce.

Lemma prepare_encrypt_layout seed group salt nonce :
  length group = GROUP_ID_LEN → length salt = SALT_LEN → length nonce = NONCE_LEN →
  header (prepare_encrypt seed group salt nonce)
  = header_layout (verifying_key seed) group salt nonce.
Proof.
  intros Hg Hs Hn. unfold prepare_encrypt. cbn [header].
  change (replicate HEADER_LEN ?z) with ([] ++ replicate 114 z).
  pose proof (length_verifying_key seed) as Hk.
  unfold GROUP_ID_LEN, SALT_LEN, NONCE_LEN in *.
  rewrite (copy_replicate 0 _ MAGIC _ _ 8) by (reflexivity || lia). rewrite app_assoc.
  rewrite insert_replicate by (reflexivity || lia). rewrite app_assoc.
  rewrite insert_replicate by (reflexivity || lia). rewrite app_assoc.
  rewrite (copy_replicate 10 _ _ _ _ 4) by (lens; done). rewrite app_assoc.
  rewrite (copy_replicate 14 _ _ _ _ 4) by (lens; done). rewrite app_assoc.
  rewrite (copy_replicate 18 _ _ _ _ 4) by (lens; done). rewrite app_assoc.
  rewrite (copy_replicate 22 _ (verifying_key seed) _ _ 32) by (lens; done). rewrite app_assoc.
  rewrite (copy_replicate 54 _ group _ _ 32) by (lens; rewrite ?Hk; done). rewrite app_assoc.
  rewrite (copy_replicate 86 _ salt _ _ 16) by (lens; rewrite ?Hk, ?Hg; done). rewrite app_assoc.
  rewrite (copy_replicate 102 _ nonce _ _ 12) by (lens; rewrite ?Hk, ?Hg, ?Hs; done).
  unfold header_layout. rewrite <- !app_assoc. simpl. by rewrite app_nil_r.
Qed.
Section Layout.
Context (root group salt nonce ct : bytes).
Hypothesis Hroot : length root = ROOT_PUBLIC_KEY_LEN.
Hypothesis Hgroup : length group = GROUP_ID_LEN.
Hypothesis Hsalt : length salt = SALT_LEN.
Hypothesis Hnonce : length nonce = NONCE_LEN.
Let e := header_layout root group salt nonce ++ ct.

Lemma length_header_layout : length (header_layout root group salt nonce) = HEADER_LEN.
Proof. unfold header_layout. lens. by rewrite Hroot, Hgroup, Hsalt, Hnonce. Qed.

(** One field of the layout: skip the fields before it. *)
Ltac field :=
  unfold e, header_layout, read_u32; rewrite <- !app_assoc;
  repeat first
    [ rewrite (slice_skip 8) by (reflexivity || lia)
    | rewrite (slice_skip 1) by (reflexivity || lia)
    | rewrite (slice_skip 4) by (apply length_be_bytes || lia)
    | rewrite (slice_skip 32) by (done || lia) ];
  first [by apply slice_here
        |etrans; [apply (f_equal be_val), slice_here, length_be_bytes|reflexivity]].

Lemma layout_magic : slice 0 8 e = MAGIC.
Proof. done. Qed.
Lemma layout_version : e !! 8%nat = Some (byte_of VERSION).
Proof. done. Qed.
Lemma layout_kdf : e !! 9%nat = Some (byte_of KDF_ARGON2ID_V19).
Proof. done. Qed.
Lemma layout_memory : read_u32 e 10 = ARGON2_MEMORY_KIB.
Proof. field. Qed.
Lemma layout_time : read_u32 e 14 = ARGON2_TIME_COST.
Proof. field. Qed.
Lemma layout_lanes : read_u32 e 18 = ARGON2_LANES.
Proof. field. Qed.
Lemma layout_root : slice 22 54 e = root.
Proof. field. Qed.
Lemma layout_group : slice 54 86 e = group.
Proof. field. Qed.
End Layout.

Lemma prepare_decrypt_Ok root group e p :
  length root = ROOT_PUBLIC_KEY_LEN → length group = GROUP_ID_LEN →
  prepare_decrypt root group e = Ok p ↔
  p = mkPreparedDecryption e ∧ length e = ENCODED_LEN ∧
  ∃ salt nonce ct, length salt = SALT_LEN ∧ length nonce = NONCE_LEN ∧
    e = header_layout root group salt nonce ++ ct.
Proof.
  intros Hr Hg. unfold prepare_decrypt, try_array. case_decide as Hl; [|naive_solver].
  cbn [ok_or mbind result_bind]. split.
  - repeat (case_bool_decide; cbn [negb orb]; [|rewrite ?orb_true_r; done]).
    destruct (Z.eqb_spec (read_u32 e 10) ARGON2_MEMORY_KIB) as [E1|]; [|done].
    destruct (Z.eqb_spec (read_u32 e 14) ARGON2_TIME_COST) as [E2|]; [|done].
    destruct (Z.eqb_spec (read_u32 e 18) ARGON2_LANES) as [E3|]; [|done].
    intros [= <-]. split_and!; [done..|].
    exists (slice 86 102 e), (slice 102 114 e), (drop 114 e).
    change ENCODED_LEN with 162%nat in Hl.
    split_and!; [rewrite length_slice; done || lia..|].
    rewrite <- (take_drop 114 e) at 1. f_equal. rewrite <- slice_0.
    rewrite (slice_split 0 8), (slice_split 8 9), (slice_split 9 10), (slice_split 10 14),
      (slice_split 14 18), (slice_split 18 22), (slice_split 22 54), (slice_split 54 86),
      (slice_split 86 102) by lia.
    rewrite (slice_one 8 _ (byte_of VERSION)), (slice_one 9 _ (byte_of KDF_ARGON2ID_V19)) by done.
    change (be_val (slice 10 14 e) = ARGON2_MEMORY_KIB) in E1.
    change (be_val (slice 14 18 e) = ARGON2_TIME_COST) in E2.
    change (be_val (slice 18 22 e) = ARGON2_LANES) in E3.
    rewrite (be_bytes_slice 4 _ _ E1), (be_bytes_slice 4 _ _ E2), (be_bytes_slice 4 _ _ E3)
      by (rewrite length_slice; lia).
    unfold header_layout. congruence.
  - intros (-> & _ & s & n & c & Hs & Hn & ->).
    rewrite layout_root, layout_group, layout_memory, layout_time, layout_lanes by done.
    rewrite layout_magic, layout_version, layout_kdf. by rewrite !bool_decide_true, !Z.eqb_refl.
Qed.

(** ** The two flows: [root_backup_export] and [root_backup_import]'s pure cores
    ([runtime/crates/kernel/src/lib.rs]) *)
Definition export_envelope (passphrase : string) (seed group salt nonce : bytes) : result () bytes :=
  let prepared := prepare_encrypt seed group salt nonce in
  key ← derive_key passphrase (PreparedEncryption_salt prepared);
  encrypt prepared seed key.

Definition import_envelope (passphrase : string) (root group envelope : bytes) : result () bytes :=
  prepared ← prepare_decrypt root group envelope;
  key ← derive_key passphrase (PreparedDecryption_salt prepared);
  decrypt prepared key.

Lemma encrypt_Ok seed group salt nonce key e :
  length group = GROUP_ID_LEN → length salt = SALT_LEN → length nonce = NONCE_LEN →
  let h := header_layout (verifying_key seed) group salt nonce in
  encrypt (prepare_encrypt seed group salt nonce) seed key = Ok e ↔
  ∃ ct, aead_encrypt (key_bytes key) nonce seed h = Some ct ∧ e = h ++ ct.
Proof.
  intros Hg Hs Hn h. unfold encrypt. rewrite prepare_encrypt_layout by done. fold h.
  pose proof (layout_root _ group salt nonce [] (length_verifying_key seed) Hg Hs Hn) as Hr.
  rewrite app_nil_r in Hr. fold h in Hr. rewrite Hr, bool_decide_true by done. cbn [negb].
  assert (drop 102 h = nonce) as ->.
  { unfold h, header_layout. rewrite !app_assoc. apply drop_app_length'.
    lens. rewrite length_verifying_key, Hg, Hs. done. }
  rewrite try_array_exact by done. cbn [ok_or mbind result_bind]. split.
  - intros (ct & Hct%ok_or_Ok & [= <-])%bind_Ok. eauto.
  - intros (ct & -> & ->). done.
Qed.

Lemma layout_salt root group salt nonce ct :
  length root = ROOT_PUBLIC_KEY_LEN → length group = GROUP_ID_LEN → length salt = SALT_LEN →
  slice 86 102 (header_layout root group salt nonce ++ ct) = salt.
Proof.
  intros Hr Hg Hs. unfold header_layout. rewrite <- !app_assoc, !(app_assoc _ _ (salt ++ _)), !app_assoc.
  rewrite <- (app_assoc _ nonce), <- (app_assoc _ salt). apply slice_app; [|done].
  lens. by rewrite Hr, Hg.
Qed.

Lemma decrypt_Ok root group salt nonce ct key seed :
  length root = ROOT_PUBLIC_KEY_LEN → length group = GROUP_ID_LEN →
  length salt = SALT_LEN → length nonce = NONCE_LEN →
  let h := header_layout root group salt nonce in
  decrypt (mkPreparedDecryption (h ++ ct)) key = Ok seed ↔
  length seed = ROOT_SEED_LEN ∧ verifying_key seed = root ∧
  aead_encrypt (key_bytes key) nonce seed h = Some ct.
Proof.
  intros Hr Hg Hs Hn h. unfold decrypt. cbn [envelope].
  assert (length h = HEADER_LEN) as Hh by (by apply length_header_layout).
  assert (slice 102 HEADER_LEN (h ++ ct) = nonce) as ->.
  { unfold h, header_layout. rewrite !app_assoc. rewrite <- (app_assoc _ nonce).
    apply slice_app; [|done]. lens. rewrite Hr, Hg, Hs. done. }
  rewrite drop_app_length', take_app_length' by done.
  pose proof (layout_root root group salt nonce ct Hr Hg Hs Hn) as Hroot. fold h in Hroot. rewrite Hroot.
  rewrite try_array_exact by done. cbn [ok_or mbind result_bind]. split.
  - intros (p & Hp%ok_or_Ok%aead_seal_open & HH)%bind_Ok.
    apply bind_Ok in HH as (s & Hs'%ok_or_Ok%try_array_Some & HH). destruct Hs' as [-> Hl].
    revert HH. case_bool_decide; naive_solver.
  - intros (Hl & Hv & Hct). rewrite (aead_open_seal _ _ _ _ _ Hct). cbn [ok_or mbind result_bind].
    rewrite try_array_exact by done. cbn [ok_or mbind result_bind].
    by rewrite bool_decide_true.
Qed.

(** An envelope opens for a root, a group and a passphrase to exactly the
    seed it was exported from: [import] answers [seed] if and only if [seed] is
    32 bytes, makes [root], and [export] with that passphrase writes this
    envelope for that group under some salt and nonce.  Any other file (a
    wrong length or magic, other KDF costs, another root or group, a flipped
    bit) is refused, and the same passphrase bound holds on both sides. *)
Theorem import_iff_export passphrase root group e seed :
  length root = ROOT_PUBLIC_KEY_LEN → length group = GROUP_ID_LEN →
  import_envelope passphrase root group e = Ok seed ↔
  length seed = ROOT_SEED_LEN ∧ verifying_key seed = root ∧
  ∃ salt nonce, length salt = SALT_LEN ∧ length nonce = NONCE_LEN ∧
    export_envelope passphrase seed group salt nonce = Ok e.
Proof.
  intros Hr Hg. unfold import_envelope, export_envelope, PreparedEncryption_salt. split.
  - intros (p & Hp & HH)%bind_Ok. apply prepare_decrypt_Ok in Hp; [|done..].
    destruct Hp as (-> & Hl & salt & nonce & ct & Hs & Hn & ->).
    apply bind_Ok in HH as (key & Hkey & Hd). unfold PreparedDecryption_salt in Hkey.
    cbn [envelope] in Hkey. rewrite layout_salt in Hkey by done.
    apply decrypt_Ok in Hd as (Hsl & Hv & Hct); [|done..]. split_and!; [done..|].
    exists salt, nonce. split_and!; [done..|]. apply bind_Ok. exists key.
    rewrite prepare_encrypt_layout by done. rewrite <- (app_nil_r (header_layout _ _ _ _)).
    rewrite layout_salt by (done || apply length_verifying_key). split; [done|].
    apply encrypt_Ok; [done..|]. rewrite Hv. eauto.
  - intros (Hsl & <- & salt & nonce & Hs & Hn & HH). apply bind_Ok in HH as (key & Hkey & HH).
    apply encrypt_Ok in HH as (ct & Hct & ->); [|done..].
    rewrite prepare_encrypt_layout in Hkey by done.
    rewrite <- (app_nil_r (header_layout _ _ _ _)) in Hkey. rewrite layout_salt in Hkey by done.
    apply bind_Ok. eexists. split.
    { apply prepare_decrypt_Ok; [done..|]. split_and!; [done| |eauto 8].
      rewrite length_app, length_header_layout, (aead_length _ _ _ _ _ Hct), Hsl by done. done. }
    apply bind_Ok. exists key. unfold PreparedDecryption_salt. cbn [envelope].
    rewrite layout_salt by done. split; [done|]. by apply decrypt_Ok.
Qed.
End Backup.

(** ** A concrete backup *)
Section Concrete.
Import Toy.
Lemma import_iff_export_witness :
  let seed := be_bytes 32 7 in let group := be_bytes 32 11 in
  ∃ e, export_envelope "correct horse" seed group (be_bytes 16 13) (be_bytes 12 17) = Ok e ∧
    import_envelope "correct horse" (verifying_key seed) group e = Ok seed.
Proof.
  intros seed group. eexists. split; [vm_compute; reflexivity|].
  apply import_iff_export; [reflexivity|reflexivity|]. split_and!; [reflexivity|reflexivity|].
  exists (be_bytes 16 13), (be_bytes 12 17). split_and!; vm_compute; reflexivity.
Defined.
End Concrete.
