(* ===== verification/Opaque.v ===== *)
(** * Opaque trees and their register ([runtime/crates/engine/src/opaque.rs])

    A slot's register names at most one current tree; a tree outside the opaque
    namespace has no status at all.  The register value's 25-byte encoding is
    the one the user-system document holds. *)
From S2P Require Import Prelude BTree Crypto.

Definition OPAQUE_PREFIX : bytes := as_bytes "OPQ1".

Inductive OpaqueMode := GroupSealed | CallerEncrypted.
#[export] Instance OpaqueMode_eq_dec : EqDecision OpaqueMode.
Proof. solve_decision. Defined.

Record OpaqueItem := mkOpaqueItem { oi_id : bytes; oi_parents : list bytes; oi_bytes : bytes }.

Record RegisterValue := mkRegister { sequence : Z; nonce : bytes; mode_ : option OpaqueMode }.
#[export] Instance RegisterValue_eq_dec : EqDecision RegisterValue.
Proof. solve_decision. Defined.

(** What the Rust types hold: a [u64] and a [[u8; 16]]. *)
Definition register_ok (v : RegisterValue) : Prop :=
  in_width 64 (sequence v) ∧ length (nonce v) = 16%nat.

Definition RegisterValue_encode (self : RegisterValue) : bytes :=
  be_bytes 8 (sequence self) ++ nonce self ++
  [byte_of match mode_ self with
           | None => 0
           | Some GroupSealed => 1
           | Some CallerEncrypted => 2
           end].

Definition RegisterValue_decode (b : bytes) : option RegisterValue :=
  if negb (length b =? 25)%nat then None else
  let sequence := be_val (take 8 b) in
  let nonce := slice 8 24 b in
  mode ← match u8 (default (byte_of 0) (b !! 24%nat)) with
         | 0 => Some None
         | 1 => Some (Some GroupSealed)
         | 2 => Some (Some CallerEncrypted)
         | _ => None
         end;
  Some (mkRegister sequence nonce mode).

(** The derived order: sequence, then nonce, then mode ([None] first). *)
Definition mode_rank (m : option OpaqueMode) : Z :=
  match m with None => 0 | Some GroupSealed => 1 | Some CallerEncrypted => 2 end.
Definition register_key (v : RegisterValue) : Z * bytes * Z :=
  (sequence v, nonce v, mode_rank (mode_ v)).
#[export] Instance register_key_inj : Inj (=) (=) register_key.
Proof. intros [s n m] [s' n' m'] [= -> -> H]. f_equal. destruct m as [[]|], m' as [[]|]; done. Qed.
#[export] Instance register_order : KeyOrder RegisterValue := order_by register_key.

(** [ready_peers] counts the control sessions that completed, by peer. *)
Record LifecycleState := mkLifecycle {
  registers : gmap bytes RegisterValue;
  ready_peers : gmap bytes Z;
}.

Definition tree_id (slot nonce : bytes) : bytes :=
  let id := replicate 32 (byte_of 0) in
  let id := copy_at 0 OPAQUE_PREFIX id in
  let id := copy_at 4 slot id in
  copy_at 16 nonce id.

Definition is_opaque_tree (tree : bytes) : bool := bool_decide (take 4 tree = OPAQUE_PREFIX).

Definition tree_slot (tree : bytes) : option bytes :=
  if is_opaque_tree tree then Some (slice 4 16 tree) else None.

Definition status (lifecycle : LifecycleState) (tree : bytes) : option bool :=
  slot ← tree_slot tree;
  current ← registers lifecycle !! slot;
  Some (bool_decide (is_Some (mode_ current)) && bool_decide (tree_id slot (nonce current) = tree)).

Definition mode (lifecycle : LifecycleState) (tree : bytes) : option OpaqueMode :=
  current ← status lifecycle tree;
  if (current : bool) then
    slot ← tree_slot tree;
    v ← registers lifecycle !! slot;
    mode_ v
  else None.

Section Hashes.
Context `{!Sha256}.

Definition slot_hash (slot : string) : bytes :=
  take 12 (sha256 (as_bytes "polyvisor:opaque-slot:v1" ++ [Byte.x00] ++ as_bytes slot)).

Definition item_id (tree : bytes) (parents : list bytes) (b : bytes) : bytes :=
  sha256 (as_bytes "polyvisor:opaque-item:v1" ++ [Byte.x00] ++ tree ++
          be_bytes 8 (Z.of_nat (length parents)) ++ mjoin parents ++
          be_bytes 8 (Z.of_nat (length b)) ++ b).

Lemma length_slot_hash slot : length (slot_hash slot) = 12%nat.
Proof. unfold slot_hash. rewrite length_take, length_sha256. done. Qed.
End Hashes.

(** ** Laws *)
Lemma RegisterValue_decode_encode v :
  register_ok v → RegisterValue_decode (RegisterValue_encode v) = Some v.
Proof.
  intros [Hs Hn]. unfold RegisterValue_decode, RegisterValue_encode.
  rewrite !length_app, length_be_bytes, Hn. cbn [length Nat.add Nat.eqb negb].
  rewrite take_app_length' by (by rewrite length_be_bytes).
  rewrite (slice_skip 8) by (apply length_be_bytes || lia).
  rewrite (lookup_skip 8) by (apply length_be_bytes || lia).
  rewrite (lookup_skip 16) by (done || lia).
  change (8 - 8)%nat with 0%nat. rewrite slice_here by done.
  rewrite be_val_be_bytes_small by exact Hs.
  destruct v as [s n [[]|]]; done.
Qed.

Lemma RegisterValue_encode_decode b v :
  RegisterValue_decode b = Some v → register_ok v ∧ RegisterValue_encode v = b.
Proof.
  unfold RegisterValue_decode. destruct (Nat.eqb_spec (length b) 25) as [Hl|]; [|done]. cbn [negb].
  destruct (lookup_lt_is_Some_2 b 24) as [m Hm]; [lia|]. rewrite Hm.
  change (default _ (Some ?x)) with x.
  intros (mo & Hmo & [= <-])%bind_Some. split.
  - split; cbn [sequence nonce].
    + pose proof (be_val_range (take 8 b)) as Hr. rewrite length_take, Nat.min_l in Hr by lia.
      exact Hr.
    + rewrite length_slice; lia.
  - unfold RegisterValue_encode. cbn [sequence nonce mode_].
    replace (be_bytes 8 (be_val (take 8 b))) with (take 8 b).
    2: { apply be_bytes_slice; [done|]. rewrite length_take. lia. }
    rewrite <- (take_drop 8 b) at 3. f_equal.
    rewrite <- (take_drop 16 (drop 8 b)) at 1. f_equal. rewrite drop_drop.
    change (8 + 16)%nat with 24%nat. rewrite (drop_S _ _ _ Hm), drop_ge by lia. f_equal.
    apply u8_inj. revert Hmo. destruct (u8 m) as [|[p|[p|p|]|]|p]; intros; simplify_eq; done.
Qed.

Lemma tree_id_layout slot n :
  length slot = 12%nat → length n = 16%nat → tree_id slot n = OPAQUE_PREFIX ++ slot ++ n.
Proof.
  intros Hs Hn. unfold tree_id. change (replicate 32 ?z) with ([] ++ replicate 32 z).
  rewrite (copy_replicate 0 _ OPAQUE_PREFIX _ _ 4) by (reflexivity || lia). rewrite app_assoc.
  rewrite (copy_replicate 4 _ slot _ _ 12) by (done || lia). rewrite app_assoc.
  rewrite (copy_replicate 16 _ n _ _ 16) by (rewrite ?length_app, ?Hs; done || (simpl; lia)).
  rewrite <- !app_assoc. cbn [app replicate Nat.sub]. by rewrite app_nil_r.
Qed.

Lemma tree_id_opaque slot n :
  length slot = 12%nat → length n = 16%nat →
  is_opaque_tree (tree_id slot n) = true ∧ tree_slot (tree_id slot n) = Some slot.
Proof.
  intros Hs Hn. rewrite tree_id_layout by done. unfold tree_slot, is_opaque_tree.
  rewrite take_app_length' by done. rewrite bool_decide_true by done. split; [done|].
  rewrite (slice_skip 4) by (done || lia). by rewrite slice_here.
Qed.

Lemma tree_id_nonce_inj slot n n' :
  length slot = 12%nat → length n = 16%nat → length n' = 16%nat →
  tree_id slot n = tree_id slot n' → n = n'.
Proof. intros. rewrite !tree_id_layout in * by done. by simplify_eq. Qed.

(** A lifecycle whose registers are what [opaque_registers] builds. *)
Definition lifecycle_ok (l : LifecycleState) : Prop :=
  map_Forall (λ slot v, length slot = 12%nat ∧ register_ok v) (registers l).

Lemma status_true l tree :
  status l tree = Some true ↔
  ∃ slot v m, tree_slot tree = Some slot ∧ registers l !! slot = Some v ∧
    mode_ v = Some m ∧ tree = tree_id slot (nonce v).
Proof.
  unfold status. split.
  - intros (slot & Hs & (v & Hv & H)%bind_Some)%bind_Some. injection H as H.
    apply andb_true_iff in H as [[m Hm]%bool_decide_eq_true Ht%bool_decide_eq_true]. eauto 10.
  - intros (slot & v & m & Hs & Hv & Hm & Ht). rewrite Hs. simpl. rewrite Hv. simpl.
    rewrite !bool_decide_true; [done|done|eauto].
Qed.

(** A register value reads back from exactly its own 25 bytes: every [u64]
    sequence, 16-byte nonce and mode round trips, and a text of another length
    or with another mode byte is no register. *)
Theorem register_decode_iff b v :
  RegisterValue_decode b = Some v ↔ register_ok v ∧ b = RegisterValue_encode v.
Proof.
  split.
  - intros H. apply RegisterValue_encode_decode in H as [? <-]. done.
  - intros [Hv ->]. by apply RegisterValue_decode_encode.
Qed.

(** A slot has at most one current tree, the one its register names: two
    trees of a slot that are both current are the same tree, a current tree has
    the register's mode, and a tree that is not current has none. *)
Theorem slot_one_current_tree l t t' :
  lifecycle_ok l →
  (status l t = Some true → status l t' = Some true → tree_slot t = tree_slot t' → t = t') ∧
  (mode l t = None ↔ status l t ≠ Some true).
Proof.
  intros Hl. split.
  - intros (s & v & m & Hs & Hv & _ & ->)%status_true (s' & v' & m' & Hs' & Hv' & _ & ->)%status_true.
    intros H. rewrite Hs, Hs' in H. by simplify_eq.
  - unfold mode. split.
    + intros H Hst. rewrite Hst in H. apply status_true in Hst as (s & v & m & Hs & Hv & Hm & _).
      simpl in H. rewrite Hs in H. simpl in H. rewrite Hv in H. simpl in H. congruence.
    + intros H. destruct (status l t) as [[|]|]; done.
Qed.

Lemma slot_one_current_tree_witness :
  let v := mkRegister 1 (be_bytes 16 3) (Some CallerEncrypted) in
  let slot := be_bytes 12 9 in
  let l := mkLifecycle {[ slot := v ]} ∅ in
  status l (tree_id slot (be_bytes 16 3)) = Some true ∧
  status l (tree_id slot (be_bytes 16 4)) = Some false ∧
  mode l (tree_id slot (be_bytes 16 4)) = None.
Proof.
  intros v slot l. split_and!; [vm_compute; reflexivity..|].
  apply (slot_one_current_tree l _ (tree_id slot (be_bytes 16 3))).
  - apply map_Forall_singleton. repeat split; vm_compute; congruence.
  - vm_compute. discriminate.
Defined.
