(* ===== verification/Policy.v ===== *)
(** * Storage authorization ([runtime/crates/engine/src/policy.rs])

    The verdict on one storage operation, from who asks, which tree, and what
    is to be done to it. *)
From S2P Require Import Prelude Opaque.

(** [engine/src/lib.rs]: the namespaces a tree's first byte reserves. *)
Definition SHARED_TREE_TAG : Z := 2.
Definition SHARED_AUTHORITY_TREE_TAG : Z := 3.

(** subduction's action, provenance and verdict. *)
Inductive StorageAction := Read | Write | Delete.
Inductive Provenance := Local | Remote (peer : bytes).
Inductive Verdict := Allow | Deny.
#[export] Instance StorageAction_eq_dec : EqDecision StorageAction.
Proof. solve_decision. Defined.
#[export] Instance Verdict_eq_dec : EqDecision Verdict.
Proof. solve_decision. Defined.

Record TreeAuthority := mkAuthority { readers : gset bytes; editors : gset bytes }.

Record GroupPolicy := mkPolicy {
  members : gset bytes;
  lifecycle : LifecycleState;
  shared : gmap bytes TreeAuthority;
}.

(** [tree.as_bytes()[0]]: a tree id is 32 bytes. *)
Definition tree_tag (tree : bytes) : Z := u8 (default (byte_of 0) (tree !! 0%nat)).
Definition reserved (tree : bytes) : bool :=
  (tree_tag tree =? SHARED_TREE_TAG) || (tree_tag tree =? SHARED_AUTHORITY_TREE_TAG).

Definition authorize (self : GroupPolicy) (provenance : Provenance) (tree : bytes)
    (action : StorageAction) : Verdict :=
  let retired := is_opaque_tree tree && negb (bool_decide (status (lifecycle self) tree = Some true)) in
  let peer_not_ready :=
    match provenance with
    | Remote peer => is_opaque_tree tree && negb (bool_decide (is_Some (ready_peers (lifecycle self) !! peer)))
    | Local => false
    end in
  let shared := shared self !! tree in
  if (retired || peer_not_ready) && negb (bool_decide (action = Delete)) then Deny else
  match provenance with
  | Local => Allow
  | Remote peer =>
    let allowed :=
      match shared with
      | Some authority => negb (bool_decide (action = Delete)) && bool_decide (peer ∈ readers authority)
      | None => if reserved tree then false else bool_decide (peer ∈ members self)
      end in
    if allowed then Allow else Deny
  end.

(** ** What the verdict is *)

(** A peer's standing on a tree. *)
Definition may_touch (p : GroupPolicy) (peer tree : bytes) (action : StorageAction) : Prop :=
  match shared p !! tree with
  | Some authority => action ≠ Delete ∧ peer ∈ readers authority
  | None => reserved tree = false ∧ peer ∈ members p
  end.

(** The lifecycle's own gate: only a delete passes on a tree that is not current,
    or for a peer whose control session has not completed. *)
Definition gate_open (p : GroupPolicy) (who : Provenance) (tree : bytes) (action : StorageAction) : Prop :=
  is_opaque_tree tree = true → action ≠ Delete →
  status (lifecycle p) tree = Some true ∧
  match who with
  | Local => True
  | Remote peer => is_Some (ready_peers (lifecycle p) !! peer)
  end.

(** The decision table: an operation is allowed exactly when the opaque gate
    is open and, for a remote peer, the tree's own authority (the document's
    readers, or the group's members on an unreserved tree) names it.  A delete
    of a shared tree is never a peer's, and group membership is no way into a
    reserved tree. *)
Theorem authorize_allow_iff p who tree action :
  authorize p who tree action = Allow ↔
  gate_open p who tree action ∧
  match who with Local => True | Remote peer => may_touch p peer tree action end.
Proof.
  unfold authorize, gate_open, may_touch. destruct (is_opaque_tree tree), who as [|peer]; simpl.
  all: repeat case_bool_decide; simpl; subst; try (destruct (shared p !! tree) as [a|]); simpl.
  all: repeat case_bool_decide; destruct (reserved tree); simpl; naive_solver.
Qed.

(** A tree of the reserved shared namespaces that no authority is known for
    is closed to every peer, whatever the group says. *)
Theorem reserved_fails_closed p peer tree action :
  reserved tree = true → shared p !! tree = None →
  authorize p (Remote peer) tree action = Deny.
Proof.
  intros Hr Hs. unfold authorize. rewrite Hs, Hr. by case_match.
Qed.

Lemma reserved_fails_closed_witness :
  authorize (mkPolicy {[ be_bytes 32 4 ]} (mkLifecycle ∅ ∅) ∅) (Remote (be_bytes 32 4))
    (byte_of 2 :: be_bytes 31 0) Read = Deny.
Proof. apply reserved_fails_closed; vm_compute; reflexivity. Defined.
