(* ===== verification/Trees.v ===== *)
(** * Tree names ([runtime/crates/engine/src/lib.rs], [us.rs])

    The sedimentree each kind of content is kept in.  All are hashes; the first
    byte of a document tree and of an authority tree is a namespace tag. *)
From S2P Require Import Prelude Crypto Text Opaque Policy.

Section Trees.
Context `{!Sha256}.

Definition document_tree (partition : string) : bytes :=
  let digest := sha256 (as_bytes "polyvisor:tasks:v2:" ++ as_bytes partition) in
  <[0%nat := byte_of (if bool_decide (take 9 (as_bytes partition) = as_bytes "document:")
                      then SHARED_TREE_TAG else 0)]> digest.

Definition shared_authority_tree (partition : string) : bytes :=
  <[0%nat := byte_of SHARED_AUTHORITY_TREE_TAG]>
    (sha256 (as_bytes "polyvisor:document-authority:v0:" ++ as_bytes partition)).

Definition keyhive_tree : bytes := sha256 (as_bytes "polyvisor:keyhive-events").
Definition us_tree : bytes := sha256 (as_bytes "polyvisor:us").

(** Whether a partition is a shared document: [shared_document(p).ok().flatten().is_some()]. *)
Definition is_shared_document (partition : string) : bool :=
  match shared_document partition with Ok (Some _) => true | _ => false end.

Lemma tag_insert b l : l ≠ [] → tree_tag (<[0%nat := byte_of b]> l) = b mod 256.
Proof. destruct l; [done|]. intros _. unfold tree_tag. simpl. apply u8_byte_of. Qed.

Lemma sha256_not_nil m : sha256 m ≠ [].
Proof. intros E. pose proof (length_sha256 m) as Hl. by rewrite E in Hl. Qed.

Lemma tag_opaque tree : is_opaque_tree tree = true → tree_tag tree = 79.
Proof.
  unfold is_opaque_tree. rewrite bool_decide_eq_true. intros E. destruct tree as [|b tree]; [done|].
  simpl in E. injection E as -> _. done.
Qed.

(** The namespaces never collide: a document or authority tree is never an
    opaque tree, an authority tree is never a document tree, both shared kinds
    are in the reserved namespace that storage and policy fail closed on, and a
    personal document is not. *)
Theorem tree_namespaces_disjoint p q :
  is_opaque_tree (document_tree p) = false ∧ is_opaque_tree (shared_authority_tree p) = false ∧
  document_tree p ≠ shared_authority_tree q ∧ reserved (shared_authority_tree p) = true ∧
  reserved (document_tree p) = bool_decide (take 9 (as_bytes p) = as_bytes "document:") ∧
  (∀ d, shared_document p = Ok (Some d) → reserved (document_tree p) = true).
Proof.
  assert (tree_tag (document_tree p) =
    if bool_decide (take 9 (as_bytes p) = as_bytes "document:") then 2 else 0) as Hd.
  { unfold document_tree. rewrite tag_insert by apply sha256_not_nil. by case_bool_decide. }
  assert (∀ r, tree_tag (shared_authority_tree r) = 3) as Ha.
  { intros r. unfold shared_authority_tree. by rewrite tag_insert by apply sha256_not_nil. }
  split_and!.
  - destruct (is_opaque_tree _) eqn:E; [|done]. apply tag_opaque in E. rewrite Hd in E.
    by case_bool_decide.
  - destruct (is_opaque_tree _) eqn:E; [|done]. apply tag_opaque in E. by rewrite Ha in E.
  - intros E. apply (f_equal tree_tag) in E. rewrite Hd, Ha in E. by case_bool_decide.
  - unfold reserved. by rewrite Ha.
  - unfold reserved. rewrite Hd. by case_bool_decide.
  - intros d E. unfold shared_document in E. unfold reserved. rewrite Hd.
    destruct (strip_prefix _ _) as [h|] eqn:Hp; [|done]. apply strip_prefix_Some in Hp.
    rewrite bool_decide_true; [done|]. by rewrite Hp.
Qed.
End Trees.
