(* ===== verification/Storage.v ===== *)
(** * Sedimentree item storage ([runtime/crates/engine/src/storage.rs])

    [SnapshotStorage]: the stored items of every tree and the log of mutations
    the journal has not acknowledged.  Sedimentree's own types, the signature
    envelope and bincode belong to other crates and are the [Sedimentree]
    interface. *)
From S2P Require Import Prelude BTree Crypto Opaque Policy Text.

(** What the code reads of a [LooseCommit] and of a [Fragment]. *)
Record LooseCommit := mkCommit {
  lc_tree : bytes;
  lc_head : bytes;
  lc_parents : list bytes;
  lc_blob_meta : bytes;
}.
Record Fragment := mkFragment { fr_tree : bytes; fr_head : bytes; fr_boundary : list bytes; fr_blob_meta : bytes }.

(** [Signed<T>]: its wire bytes, its issuer, and the payload
    [try_decode_trusted_payload] reads. *)
Record Signed (T : Type) := mkSigned {
  as_wire : bytes;
  issuer : bytes;
  trusted_payload : option T;
}.
Arguments mkSigned {T} _ _ _.
Arguments as_wire {T} _.
Arguments issuer {T} _.
Arguments trusted_payload {T} _.

Class Sedimentree := {
  try_decode_commit : bytes → option (Signed LooseCommit);
  try_decode_fragment : bytes → option (Signed Fragment);
  (** [Sedimentree::new(fragments, commits).minimize(..)], the loose commits kept *)
  minimize : list Fragment → list LooseCommit → list LooseCommit;
  (** [BlobMeta::new(&Blob::new(blob))] *)
  blob_meta : bytes → bytes;
  (** [bincode::deserialize::<Ciphertext>]: content and predecessor references *)
  ciphertext_refs : bytes → option (bytes * bytes);
  (** [keyhive_crypto::digest::Digest::hash] *)
  digest_refs : list bytes → bytes;
}.

Inductive ItemKind := ItemCommit | ItemFragment.
#[export] Instance ItemKind_eq_dec : EqDecision ItemKind.
Proof. solve_decision. Defined.
#[export] Program Instance ItemKind_countable : Countable ItemKind :=
  inj_countable' (λ k, match k with ItemCommit => false | ItemFragment => true end)
                 (λ b, if b : bool then ItemFragment else ItemCommit) _.
Next Obligation. by intros []. Qed.
Definition kind_rank (k : ItemKind) : Z := match k with ItemCommit => 0 | ItemFragment => 1 end.
#[export] Instance kind_rank_inj : Inj (=) (=) kind_rank.
Proof. by intros [] []. Qed.
#[export] Instance ItemKind_order : KeyOrder ItemKind := order_by kind_rank.

Record Item := mkItem { it_signed : bytes; it_blob : bytes }.
Record StoreItem := mkStoreItem {
  si_tree : bytes;
  si_commit : bytes;
  si_signed : bytes;
  si_blob : bytes;
  si_kind : ItemKind;
}.
#[export] Instance StoreItem_eq_dec : EqDecision StoreItem.
Proof. solve_decision. Defined.

Definition item_key : Type := bytes * bytes * ItemKind.
Definition StoreItem_key (self : StoreItem) : item_key := (si_tree self, si_commit self, si_kind self).

Inductive StorageMutation :=
| Put (item : StoreItem)
| Remove (tree commit : bytes) (kind : ItemKind)
| ForgetTree (tree : bytes).

#[export] Program Instance StoreItem_countable : Countable StoreItem :=
  inj_countable' (λ i, (si_tree i, si_commit i, si_signed i, si_blob i, si_kind i))
                 (λ '(t, c, s, b, k), mkStoreItem t c s b k) _.
Next Obligation. by intros []. Qed.
#[export] Instance StorageMutation_eq_dec : EqDecision StorageMutation.
Proof. solve_decision. Defined.
#[export] Program Instance StorageMutation_countable : Countable StorageMutation :=
  inj_countable'
    (λ m, match m with
          | Put i => inl i
          | Remove t c k => inr (inl (t, c, k))
          | ForgetTree t => inr (inr t)
          end)
    (λ m, match m with
          | inl i => Put i
          | inr (inl (t, c, k)) => Remove t c k
          | inr (inr t) => ForgetTree t
          end) _.
Next Obligation. by intros []. Qed.

Inductive StorageFailure := Retryable | Permanent.
#[export] Instance StorageFailure_eq_dec : EqDecision StorageFailure.
Proof. solve_decision. Defined.

Record Tree := mkTree {
  commits : gmap bytes (Signed LooseCommit * bytes);
  fragments : gmap bytes (Signed Fragment * bytes);
}.
Definition Tree_default : Tree := mkTree ∅ ∅.

Record SnapshotStorage := mkStorage {
  trees : gmap bytes Tree;
  pending : list StorageMutation;
  settled : nat;
  s_lifecycle : LifecycleState;
  s_shared : option (gmap bytes TreeAuthority);
}.

Definition SnapshotStorage_new (lifecycle : LifecycleState) : SnapshotStorage :=
  mkStorage ∅ [] 0 lifecycle None.

(** Field updates. *)
Definition set_trees (t : gmap bytes Tree) (s : SnapshotStorage) : SnapshotStorage :=
  mkStorage t (pending s) (settled s) (s_lifecycle s) (s_shared s).
Definition push_pending (m : StorageMutation) (s : SnapshotStorage) : SnapshotStorage :=
  mkStorage (trees s) (pending s ++ [m]) (settled s) (s_lifecycle s) (s_shared s).
Definition set_shared_authorities (shared : gmap bytes TreeAuthority) (s : SnapshotStorage) :=
  mkStorage (trees s) (pending s) (settled s) (s_lifecycle s) (Some shared).

(** [trees.entry(tree).or_default()] *)
Definition tree_entry (s : SnapshotStorage) (tree : bytes) : Tree := default Tree_default (trees s !! tree).

Definition commit_item (tree id : bytes) (stored : Signed LooseCommit * bytes) : StoreItem :=
  mkStoreItem tree id (as_wire stored.1) stored.2 ItemCommit.
Definition fragment_item (tree head : bytes) (stored : Signed Fragment * bytes) : StoreItem :=
  mkStoreItem tree head (as_wire stored.1) stored.2 ItemFragment.

(** The insertion both [persist_items] and [restore] make, with its log entry. *)
Definition insert_commit (tree head : bytes) (stored : Signed LooseCommit * bytes)
    (s : SnapshotStorage) : SnapshotStorage :=
  let entry := tree_entry s tree in
  push_pending (Put (commit_item tree head stored))
    (set_trees (<[tree := mkTree (<[head := stored]> (commits entry)) (fragments entry)]> (trees s)) s).
Definition insert_fragment (tree head : bytes) (stored : Signed Fragment * bytes)
    (s : SnapshotStorage) : SnapshotStorage :=
  let entry := tree_entry s tree in
  push_pending (Put (fragment_item tree head stored))
    (set_trees (<[tree := mkTree (commits entry) (<[head := stored]> (fragments entry))]> (trees s)) s).

(** ** Reading *)
Definition tree_items (tree : bytes) (t : Tree) : list StoreItem :=
  ((λ p, commit_item tree p.1 p.2) <$> btree_items (commits t)) ++
  ((λ p, fragment_item tree p.1 p.2) <$> btree_items (fragments t)).

Definition commit_blobs (self : SnapshotStorage) (tree : bytes) : list (bytes * bytes) :=
  match trees self !! tree with
  | Some t => (λ p, (p.1, p.2.2)) <$> btree_items (commits t)
  | None => []
  end.
Definition fragment_blobs (self : SnapshotStorage) (tree : bytes) : list (bytes * bytes) :=
  match trees self !! tree with
  | Some t => (λ p, (p.1, p.2.2)) <$> btree_items (fragments t)
  | None => []
  end.
Definition holds (self : SnapshotStorage) (tree commit : bytes) : bool :=
  match trees self !! tree with Some t => bool_decide (is_Some (commits t !! commit)) | None => false end.
Definition holds_fragment (self : SnapshotStorage) (tree head : bytes) : bool :=
  match trees self !! tree with Some t => bool_decide (is_Some (fragments t !! head)) | None => false end.

Definition all_items (self : SnapshotStorage) : list StoreItem :=
  filter (λ p, status (s_lifecycle self) p.1 ≠ Some false) (btree_items (trees self))
    ≫= λ p, tree_items p.1 p.2.

Definition metadata (self : SnapshotStorage) (tree : bytes) : list LooseCommit * list Fragment :=
  match trees self !! tree with
  | None => ([], [])
  | Some t => (omap (λ p, trusted_payload p.1) (btree_values (commits t)),
               omap (λ p, trusted_payload p.1) (btree_values (fragments t)))
  end.

(** [bincode::serialized_size], as the two uses of it. *)
Section Inline.
Context (header_size : nat → result string Z) (item_size : StoreItem → result string Z).

Fixpoint inline_size (items : list StoreItem) (budget : Z) (size : Z) : result string (option Z) :=
  match items with
  | [] => Ok (Some size)
  | item :: items =>
    n ← item_size item;
    size ← ok_or "inline item size overflow"%string (checked_add 64 size n);
    if budget <? size then Ok None else inline_size items budget size
  end.

Definition inline_items (self : SnapshotStorage) (tree : bytes) (budget : Z)
  : result string (option (list StoreItem)) :=
  match trees self !! tree with
  | None => Ok (Some [])
  | Some stored =>
    let items := tree_items tree stored in
    size ← header_size (length items);
    size ← inline_size items budget size;
    Ok (match size with Some _ => Some items | None => None end)
  end.
End Inline.

(** ** Writing *)
Section Operations.
Context `{!Sedimentree, !Sha256, !Blake3}.

Definition shared_authorized (self : SnapshotStorage) (tree issuer : bytes) : bool :=
  match (shared ← s_shared self; shared !! tree) with
  | None => negb (reserved tree)
  | Some authority =>
    if tree_tag tree =? SHARED_AUTHORITY_TREE_TAG
    then bool_decide (issuer ∈ readers authority)
    else bool_decide (issuer ∈ editors authority)
  end.

(** [engine/src/lib.rs] *)
Definition shared_cref (tree id : bytes) : bytes :=
  blake3 (as_bytes "polyvisor:shared-content:v0" ++ tree ++ id).

(** A raw commit has its parents sorted and without repetition, and the id its
    bytes hash to. *)
Definition valid_raw_commit (tree : bytes) (payload : LooseCommit) (blob : bytes) : bool :=
  let parents := btree_elems (list_to_set (lc_parents payload) : gset bytes) in
  (length parents =? length (lc_parents payload))%nat
    && bool_decide (item_id tree parents blob = lc_head payload).

Definition caller_encrypted (self : SnapshotStorage) (tree : bytes) : bool :=
  bool_decide (mode (s_lifecycle self) tree = Some CallerEncrypted).

Definition shared_refs_ok (tree : bytes) (payload : LooseCommit) (blob : bytes) : bool :=
  match ciphertext_refs blob with
  | None => false
  | Some (content_ref, pred_refs) =>
    bool_decide (content_ref = shared_cref tree (lc_head payload))
      && bool_decide (pred_refs = digest_refs (shared_cref tree <$> lc_parents payload))
  end.

(** The checks [persist_items] makes on one commit, before it is inserted. *)
Definition commit_acceptable (self : SnapshotStorage) (tree : bytes)
    (signed : Signed LooseCommit) (blob : bytes) : option LooseCommit :=
  if negb (shared_authorized self tree (issuer signed)) then None else
  payload ← trusted_payload signed;
  if negb (bool_decide (lc_tree payload = tree)) || negb (bool_decide (lc_blob_meta payload = blob_meta blob))
  then None else
  if (tree_tag tree =? SHARED_TREE_TAG) && negb (shared_refs_ok tree payload blob) then None else
  if is_opaque_tree tree && caller_encrypted self tree && negb (valid_raw_commit tree payload blob)
  then None else Some payload.

Fixpoint persist_commits (self : SnapshotStorage) (tree : bytes)
    (items : list (Signed LooseCommit * bytes)) (stored : Z)
  : SnapshotStorage * result StorageFailure Z :=
  match items with
  | [] => (self, Ok stored)
  | (signed, blob) :: items =>
    match commit_acceptable self tree signed blob with
    | None => (self, Err Permanent)
    | Some payload =>
      persist_commits (insert_commit tree (lc_head payload) (signed, blob) self) tree items
        (wrap 32 (stored + 1))
    end
  end.

Fixpoint persist_fragments (self : SnapshotStorage) (tree : bytes)
    (items : list (Signed Fragment * bytes)) (stored : Z)
  : SnapshotStorage * result StorageFailure Z :=
  match items with
  | [] => (self, Ok stored)
  | (signed, blob) :: items =>
    if reserved tree || negb (shared_authorized self tree (issuer signed)) then (self, Err Permanent) else
    match trusted_payload signed with
    | None => (self, Err Permanent)
    | Some payload =>
      persist_fragments (insert_fragment tree (fr_head payload) (signed, blob) self) tree items
        (wrap 32 (stored + 1))
    end
  end.

(** [Storage::persist_items].  What it stored before a refusal stays stored. *)
Definition persist_items (self : SnapshotStorage) (tree : bytes)
    (commits : list (Signed LooseCommit * bytes)) (fragments : list (Signed Fragment * bytes))
  : SnapshotStorage * result StorageFailure Z :=
  if is_opaque_tree tree && negb (bool_decide (status (s_lifecycle self) tree = Some true))
  then (self, Err Retryable) else
  if is_opaque_tree tree && negb (bool_decide (fragments = [])) then (self, Err Permanent) else
  let self := set_trees (<[tree := tree_entry self tree]> (trees self)) self in
  match persist_commits self tree commits 0 with
  | (self, Err e) => (self, Err e)
  | (self, Ok stored) => persist_fragments self tree fragments stored
  end.

(** [Storage::fetch_items] *)
Definition fetch_items (self : SnapshotStorage) (tree : bytes) (commit_ids fragment_heads : list bytes)
  : option (list (Signed LooseCommit * bytes) * list (Signed Fragment * bytes)) :=
  if is_opaque_tree tree && negb (bool_decide (status (s_lifecycle self) tree = Some true)) then None else
  t ← trees self !! tree;
  Some (omap (λ id, commits t !! id) commit_ids, omap (λ id, fragments t !! id) fragment_heads).

Definition forget_tree (self : SnapshotStorage) (tree : bytes) : SnapshotStorage :=
  push_pending (ForgetTree tree) (set_trees (delete tree (trees self)) self).
Definition delete_tree := forget_tree.

Definition remove_commit (tree id : bytes) (s : SnapshotStorage) : SnapshotStorage :=
  let entry := tree_entry s tree in
  push_pending (Remove tree id ItemCommit)
    (set_trees (<[tree := mkTree (delete id (commits entry)) (fragments entry)]> (trees s)) s).

Definition anchored (fragments : list Fragment) : list Fragment :=
  let heads : gset bytes := list_to_set (fr_head <$> fragments) in
  filter (λ f, Forall (λ id, id ∈ heads) (fr_boundary f)) fragments.

Definition prune_kept (self : SnapshotStorage) (tree : bytes) : gset bytes :=
  let '(commits, fragments) := metadata self tree in
  list_to_set (lc_head <$> minimize (anchored fragments) commits).

Definition prune (self : SnapshotStorage) (tree : bytes) : SnapshotStorage * nat :=
  let '(_, fragments) := metadata self tree in
  if bool_decide (anchored fragments = []) then (self, 0%nat) else
  match trees self !! tree with
  | None => (self, 0%nat)
  | Some entry =>
    let doomed := filter (λ id, id ∉ prune_kept self tree) (btree_keys (commits entry)) in
    (foldl (λ s id, remove_commit tree id s) self doomed, length doomed)
  end.

(** [restore]: what each item of a snapshot comes to. *)
Definition restored_commit (self : SnapshotStorage) (tree : bytes) (item : Item)
  : option (bytes * (Signed LooseCommit * bytes)) :=
  signed ← try_decode_commit (it_signed item);
  payload ← trusted_payload signed;
  if negb (is_opaque_tree tree) || negb (caller_encrypted self tree)
     || valid_raw_commit tree payload (it_blob item)
  then Some (lc_head payload, (signed, it_blob item)) else None.
Definition restored_fragment (item : Item) : option (bytes * (Signed Fragment * bytes)) :=
  signed ← try_decode_fragment (it_signed item);
  payload ← trusted_payload signed;
  Some (fr_head payload, (signed, it_blob item)).

Definition restore (self : SnapshotStorage) (tree : bytes) (cs fs : list Item) : SnapshotStorage :=
  if is_opaque_tree tree
     && (negb (bool_decide (status (s_lifecycle self) tree = Some true)) || negb (bool_decide (fs = [])))
  then self else
  let accepted_commits := omap (restored_commit self tree) cs in
  let accepted_fragments := omap restored_fragment fs in
  let self := set_trees (<[tree := tree_entry self tree]> (trees self)) self in
  let self := foldl (λ s p, insert_commit tree p.1 p.2 s) self accepted_commits in
  foldl (λ s p, insert_fragment tree p.1 p.2 s) self accepted_fragments.
End Operations.

(** ** The mutation log *)
Definition settled_len (self : SnapshotStorage) : nat := settled self.
(** [pending[..len]]: out of range panics; the invariant below keeps it in range. *)
Definition pending_prefix (self : SnapshotStorage) (len : nat) : list StorageMutation :=
  take len (pending self).
Definition acknowledge (self : SnapshotStorage) (len : nat) : SnapshotStorage :=
  mkStorage (trees self) (drop len (pending self)) (settled self - len) (s_lifecycle self) (s_shared self).
Definition mark_restored (self : SnapshotStorage) : SnapshotStorage :=
  mkStorage (trees self) [] 0 (s_lifecycle self) (s_shared self).
Definition settle (self : SnapshotStorage) : SnapshotStorage :=
  mkStorage (trees self) (pending self) (length (pending self)) (s_lifecycle self) (s_shared self).
Definition has_unsettled (self : SnapshotStorage) : bool := (settled self <? length (pending self))%nat.
