(* ===== verification/Journal.v ===== *)
(** * The engine journal ([JournalState] in [runtime/crates/engine/src/lib.rs])

    What rests on disk of the engine is a sequence of deltas; [JournalState]
    replays them into a table of items and turns that into the [Snapshot] an
    engine restarts from.  The refinement theorem relates it to
    [SnapshotStorage]: after every interleaving of storage operations, settles,
    prepared deltas, commits and abandoned commits, the journal is exactly the
    storage as it stood at a settled cut. *)
From S2P Require Import Prelude BTree Crypto Opaque Policy Text Storage.

Section Journal.
Context {VaultState : Type}.

Record EngineControl := mkControl {
  partitions : list string;
  vault : option VaultState;
  name_key : option bytes;
}.

Record EngineDelta := mkDelta { control : EngineControl; mutations : list StorageMutation }.

Record JournalState := mkJournal {
  j_control : option EngineControl;
  j_items : gmap item_key StoreItem;
}.
Definition JournalState_default : JournalState := mkJournal None ∅.

Definition apply_mutation (items : gmap item_key StoreItem) (mutation : StorageMutation)
  : gmap item_key StoreItem :=
  match mutation with
  | Put item => <[StoreItem_key item := item]> items
  | Remove tree commit kind => delete (tree, commit, kind) items
  | ForgetTree tree => filter (λ p, p.1.1.1 ≠ tree) items
  end.

Definition replay (items : gmap item_key StoreItem) (mutations : list StorageMutation) :=
  foldl apply_mutation items mutations.

Definition apply (self : JournalState) (delta : EngineDelta) : JournalState :=
  mkJournal (Some (control delta)) (replay (j_items self) (mutations delta)).
End Journal.
Arguments EngineControl _ : clear implicits.
Arguments EngineDelta _ : clear implicits.
Arguments JournalState _ : clear implicits.

#[export] Instance EngineControl_eq_dec `{EqDecision V} : EqDecision (EngineControl V).
Proof. solve_decision. Defined.
#[export] Program Instance EngineControl_countable `{Countable V} : Countable (EngineControl V) :=
  inj_countable' (λ c, (partitions c, vault c, name_key c)) (λ '(p, v, k), mkControl p v k) _.
Next Obligation. by intros ??? []. Qed.
#[export] Instance EngineDelta_eq_dec `{EqDecision V} : EqDecision (EngineDelta V).
Proof. solve_decision. Defined.
#[export] Program Instance EngineDelta_countable `{Countable V} : Countable (EngineDelta V) :=
  inj_countable' (λ d, (control d, mutations d)) (λ '(c, m), mkDelta c m) _.
Next Obligation. by intros ??? []. Qed.

(** ** The storage, as a table of items *)
Definition contents (s : SnapshotStorage) (k : item_key) : option StoreItem :=
  let '(tree, id, kind) := k in
  t ← trees s !! tree;
  match kind with
  | ItemCommit => commit_item tree id <$> commits t !! id
  | ItemFragment => fragment_item tree id <$> fragments t !! id
  end.

#[global] Arguments contents : simpl never.

Definition apply_view (mutation : StorageMutation) (f : item_key → option StoreItem) (k : item_key)
  : option StoreItem :=
  match mutation with
  | Put item => if decide (k = StoreItem_key item) then Some item else f k
  | Remove tree commit kind => if decide (k = (tree, commit, kind)) then None else f k
  | ForgetTree tree => if decide (k.1.1 = tree) then None else f k
  end.

Lemma lookup_apply_mutation items m k :
  apply_mutation items m !! k = apply_view m (λ k, items !! k) k.
Proof.
  destruct m as [item|tree commit kind|tree]; cbn [apply_mutation apply_view].
  - case_decide as H; [subst; apply lookup_insert_eq|by apply lookup_insert_ne].
  - case_decide as H; [subst; apply lookup_delete_eq|by apply lookup_delete_ne].
  - case_decide as H.
    + apply map_lookup_filter_None. right. intros x _ Hk. by apply Hk.
    + destruct (items !! k) as [x|] eqn:E.
      * apply map_lookup_filter_Some. done.
      * apply map_lookup_filter_None. by left.
Qed.

Lemma replay_app items l k : replay items (l ++ k) = replay (replay items l) k.
Proof. apply foldl_app. Qed.

(** [s] is [base] with the pending mutations replayed over it. *)
Definition tracks (base : gmap item_key StoreItem) (s : SnapshotStorage) : Prop :=
  ∀ k, replay base (pending s) !! k = contents s k.

(** [s'] only grew the log of [s], by the mutations it made. *)
Record extends (s s' : SnapshotStorage) : Prop := {
  ext_pending : ∃ ms, pending s' = pending s ++ ms;
  ext_settled : settled s' = settled s;
  ext_tracks : ∀ base, tracks base s → tracks base s';
}.

#[export] Instance extends_po : PreOrder extends.
Proof.
  split.
  - intros s. split; [by exists []; rewrite app_nil_r|done|done].
  - intros s1 s2 s3 [[m1 P1] S1 T1] [[m2 P2] S2 T2]. split; [|congruence|auto].
    exists (m1 ++ m2). by rewrite P2, P1, app_assoc.
Qed.

Lemma extends_foldl {A} (f : SnapshotStorage → A → SnapshotStorage) l s :
  (∀ s a, extends s (f s a)) → extends s (foldl f s l).
Proof.
  intros Hf. revert s. induction l as [|a l IH]; intros s; [done|]. simpl.
  etrans; [apply Hf|apply IH].
Qed.

(** A mutation and the log entry that records it. *)
Lemma extends_push m s t :
  pending t = pending s → settled t = settled s →
  (∀ k, contents t k = apply_view m (contents s) k) →
  extends s (push_pending m t).
Proof.
  intros Hp Hs Ht. split; [exists [m]; simpl; by rewrite Hp|done|].
  intros base Hb k. unfold tracks in Hb. cbn [pending push_pending].
  rewrite Hp, replay_app. cbn [replay foldl]. rewrite lookup_apply_mutation.
  change (contents (push_pending m t) k) with (contents t k). rewrite Ht.
  destruct m; cbn [apply_view]; by case_decide.
Qed.

Lemma extends_entry tree s : extends s (set_trees (<[tree := tree_entry s tree]> (trees s)) s).
Proof.
  split; [by exists []; rewrite app_nil_r|done|]. intros base Hb [[t id] kind].
  cbn [pending set_trees]. rewrite (Hb (t, id, kind)). unfold contents, tree_entry. cbn [trees set_trees].
  destruct (decide (t = tree)) as [->|]; [|by rewrite lookup_insert_ne].
  rewrite lookup_insert_eq. destruct (trees s !! tree); [done|]. by destruct kind.
Qed.

Lemma contents_insert tree entry s t id kind :
  contents (set_trees (<[tree := entry]> (trees s)) s) (t, id, kind) =
  if decide (t = tree) then
    match kind with
    | ItemCommit => commit_item tree id <$> commits entry !! id
    | ItemFragment => fragment_item tree id <$> fragments entry !! id
    end
  else contents s (t, id, kind).
Proof.
  unfold contents. cbn [trees set_trees]. case_decide as H.
  - subst. by rewrite lookup_insert_eq.
  - by rewrite lookup_insert_ne.
Qed.

Lemma contents_entry s tree id kind :
  contents s (tree, id, kind) =
  match kind with
  | ItemCommit => commit_item tree id <$> commits (tree_entry s tree) !! id
  | ItemFragment => fragment_item tree id <$> fragments (tree_entry s tree) !! id
  end.
Proof. unfold contents, tree_entry. destruct (trees s !! tree); [done|]. by destruct kind. Qed.

(** One item written or removed. *)
Ltac item_step :=
  apply extends_push; [done|done|]; intros [[t' id'] kind']; rewrite contents_insert;
  unfold apply_view, StoreItem_key; cbn [commits fragments si_tree si_commit si_kind];
  destruct (decide (t' = _)) as [->|]; [rewrite contents_entry|];
  destruct kind'; repeat case_decide; simplify_eq/=;
  rewrite ?lookup_insert_eq, ?lookup_delete_eq, ?lookup_insert_ne, ?lookup_delete_ne by congruence;
  done.

Lemma extends_insert_commit tree head stored s : extends s (insert_commit tree head stored s).
Proof. unfold insert_commit. item_step. Qed.
Lemma extends_insert_fragment tree head stored s : extends s (insert_fragment tree head stored s).
Proof. unfold insert_fragment. item_step. Qed.
Lemma extends_remove_commit tree id s : extends s (remove_commit tree id s).
Proof. unfold remove_commit. item_step. Qed.

Lemma extends_forget_tree tree s : extends s (forget_tree s tree).
Proof.
  unfold forget_tree. apply extends_push; [done|done|]. intros [[t id] kind].
  unfold apply_view, contents. cbn [trees set_trees fst]. case_decide as H.
  - subst. by rewrite lookup_delete_eq.
  - by rewrite lookup_delete_ne.
Qed.

Section Refinement.
Context `{!Sedimentree, !Sha256, !Blake3}.

Lemma extends_persist_commits tree items s n : extends s (persist_commits s tree items n).1.
Proof.
  revert s n. induction items as [|[signed blob] items IH]; intros s n; [done|]. simpl.
  destruct (commit_acceptable s tree signed blob) as [p|]; [|done].
  etrans; [apply extends_insert_commit|apply IH].
Qed.

Lemma extends_persist_fragments tree items s n : extends s (persist_fragments s tree items n).1.
Proof.
  revert s n. induction items as [|[signed blob] items IH]; intros s n; [done|]. simpl.
  destruct (reserved tree || _); [done|]. destruct (trusted_payload signed) as [p|]; [|done].
  etrans; [apply extends_insert_fragment|apply IH].
Qed.

Lemma extends_persist_items s tree cs fs : extends s (persist_items s tree cs fs).1.
Proof.
  unfold persist_items. case_match; [done|]. case_match; [done|].
  etrans; [apply (extends_entry tree)|].
  pose proof (extends_persist_commits tree cs (set_trees (<[tree := tree_entry s tree]> (trees s)) s) 0) as HE.
  destruct (persist_commits _ tree cs 0) as [s1 [n|e]]; [|exact HE].
  etrans; [exact HE|apply extends_persist_fragments].
Qed.

Lemma extends_prune s tree : extends s (prune s tree).1.
Proof.
  unfold prune. destruct (metadata s tree) as [cs fs]. case_bool_decide; [done|].
  destruct (trees s !! tree); [|done]. apply extends_foldl. intros. apply extends_remove_commit.
Qed.

Lemma extends_restore s tree cs fs : extends s (restore s tree cs fs).
Proof.
  unfold restore. case_match; [done|]. etrans; [apply (extends_entry tree)|].
  etrans; [|apply extends_foldl; intros ? []; apply extends_insert_fragment].
  apply extends_foldl; intros ? []; apply extends_insert_commit.
Qed.

(** ** The persistence protocol

    [prepare_persistence] takes the settled prefix; the kernel writes it to a
    file and commits the pointer, and only then acknowledges it, or gives up on
    it; storage operations and settles happen at any time in between.  [cut] is
    the specification's own record: the contents at the last settle, and at the
    settle the prepared delta was taken at. *)
Context {VaultState : Type}.

Record prepared := mkPrepared { p_delta : EngineDelta VaultState; p_pending : nat }.

Record system := mkSystem {
  storage : SnapshotStorage;
  journal : JournalState VaultState;
  inflight : option prepared;
  settled_cut : item_key → option StoreItem;
  prepared_cut : item_key → option StoreItem;
}.

(** [prepare_persistence], over the control state it reads, where it has something
    to write; [Requests] has the whole function, which answers [None] otherwise. *)
Definition prepare (s : SnapshotStorage) (c : EngineControl VaultState) : prepared :=
  let pending := settled_len s in
  mkPrepared (mkDelta c (pending_prefix s pending)) pending.

Inductive step : system → system → Prop :=
| step_persist s j i c p tree cs fs :
    step (mkSystem s j i c p) (mkSystem (persist_items s tree cs fs).1 j i c p)
| step_restore s j i c p tree cs fs :
    step (mkSystem s j i c p) (mkSystem (restore s tree cs fs) j i c p)
| step_prune s j i c p tree :
    step (mkSystem s j i c p) (mkSystem (prune s tree).1 j i c p)
| step_forget s j i c p tree :
    step (mkSystem s j i c p) (mkSystem (forget_tree s tree) j i c p)
| step_settle s j i c p :
    step (mkSystem s j i c p) (mkSystem (settle s) j i (contents s) p)
| step_prepare s j c p ctl :
    step (mkSystem s j None c p) (mkSystem s j (Some (prepare s ctl)) c c)
| step_abandon s j i c p :
    step (mkSystem s j i c p) (mkSystem s j None c p)
| step_commit s j q c p :
    step (mkSystem s j (Some q) c p)
         (mkSystem (acknowledge s (p_pending q)) (apply j (p_delta q)) None c p).

Record good (y : system) : Prop := {
  good_tracks : tracks (j_items (journal y)) (storage y);
  good_settled : (settled (storage y) ≤ length (pending (storage y)))%nat;
  good_cut : ∀ k, replay (j_items (journal y))
    (take (settled (storage y)) (pending (storage y))) !! k = settled_cut y k;
  good_inflight : ∀ q, inflight y = Some q →
    (p_pending q ≤ settled (storage y))%nat ∧
    mutations (p_delta q) = take (p_pending q) (pending (storage y)) ∧
    ∀ k, replay (j_items (journal y)) (mutations (p_delta q)) !! k = prepared_cut y k;
}.

(** Growing the log keeps everything that speaks of a prefix of it. *)
Lemma good_extends s s' j i c p :
  extends s s' → good (mkSystem s j i c p) → good (mkSystem s' j i c p).
Proof.
  intros [[ms Hp] Hs Ht] [G1 G2 G3 G4]. cbn [storage journal settled_cut inflight prepared_cut] in *.
  split; cbn [storage journal settled_cut inflight prepared_cut]; rewrite ?Hp, ?Hs.
  - auto.
  - rewrite length_app. lia.
  - intros k. rewrite take_app_le by done. apply G3.
  - intros q Hq. destruct (G4 q Hq) as (HA & HB & HC). split_and!; [done| |done].
    rewrite take_app_le by lia. done.
Qed.

Lemma good_step y y' : step y y' → good y → good y'.
Proof.
  intros Hstep Hg. destruct Hstep as
    [s j i c p tree cs fs|s j i c p tree cs fs|s j i c p tree|s j i c p tree
    |s j i c p|s j c p ctl|s j i c p|s j q c p].
  - eapply good_extends, Hg. apply extends_persist_items.
  - eapply good_extends, Hg. apply extends_restore.
  - eapply good_extends, Hg. apply extends_prune.
  - eapply good_extends, Hg. apply extends_forget_tree.
  - destruct Hg as [G1 G2 G3 G4]; split; cbn in *; [exact G1|done| |].
    + intros k. rewrite firstn_all. apply G1.
    + intros q Hq. destruct (G4 q Hq) as (HA & HB & HC). split_and!; [lia|done|done].
  - destruct Hg as [G1 G2 G3 G4]; split; cbn in *; [exact G1|done|done|].
    intros q [= <-]. split_and!; [done|done|exact G3].
  - destruct Hg as [G1 G2 G3 G4]; split; cbn in *; done.
  - destruct Hg as [G1 G2 G3 G4]. destruct (G4 q eq_refl) as (HA & HB & HC).
    cbn [storage journal settled_cut inflight prepared_cut] in *.
    split; cbn [storage journal settled_cut inflight prepared_cut acknowledge pending settled apply j_items].
    + intros k. cbn [pending acknowledge]. rewrite HB, <- replay_app, take_drop. apply G1.
    + rewrite length_drop. lia.
    + intros k. rewrite HB, <- replay_app, take_take_drop, <- G3. do 3 f_equal. lia.
    + done.
Qed.

Definition initial (l : LifecycleState) : system :=
  mkSystem (SnapshotStorage_new l) JournalState_default None (λ _, None) (λ _, None).

Lemma good_initial l : good (initial l).
Proof.
  split; cbn; [|lia|done|done]. intros [[t id] kind]. reflexivity.
Qed.

Lemma good_reachable l y : rtc step (initial l) y → good y.
Proof.
  intros Hr. remember (initial l) as y0 eqn:E. assert (good y0) as G by (subst; apply good_initial).
  clear E. induction Hr as [|x y z Hxy Hyz IH]; [done|]. apply IH. by eapply good_step.
Qed.
End Refinement.

(** ** What the invariant says of the code *)
Section Theorems.
Context `{!Sedimentree, !Sha256, !Blake3} {VaultState : Type}.

(** C30: The journal refines the storage.  In every state the persistence protocol
    can reach, whatever was written, refused half way, pruned, restored or
    forgotten in between: the settled prefix and a prepared one are in range of
    the log ([pending[..len]] and [drain(..len)] never panic); committing the
    delta in flight makes the journal exactly the storage as it was at the settle
    the delta was taken at, however much the storage changed since; and a settle,
    prepare and commit in a row make it exactly the storage. *)
Theorem journal_refines_storage l (y : system (VaultState := VaultState)) :
  rtc step (initial l) y →
  (settled_len (storage y) ≤ length (pending (storage y)))%nat ∧
  (∀ q, inflight y = Some q →
    (p_pending q ≤ length (pending (storage y)))%nat ∧
    ∀ k, j_items (apply (journal y) (p_delta q)) !! k = prepared_cut y k) ∧
  (∀ ctl k, j_items (apply (journal y) (p_delta (prepare (settle (storage y)) ctl))) !! k
            = contents (storage y) k).
Proof.
  intros [G1 G2 G3 G4]%good_reachable. split_and!.
  - exact G2.
  - intros q Hq. destruct (G4 q Hq) as (HA & HB & HC). split; [|exact HC]. etrans; [exact HA|exact G2].
  - intros ctl k. cbn. rewrite firstn_all. apply G1.
Qed.

(** Pruning only ever removes loose commits, and only those sedimentree's own
    minimization over anchored fragments does not keep: every fragment stays,
    every kept commit stays, and a tree with no anchored fragment is untouched. *)
Theorem prune_contents s tree t id kind :
  contents (prune s tree).1 (t, id, kind) =
  if decide (t = tree ∧ kind = ItemCommit ∧ anchored (metadata s tree).2 ≠ [] ∧ id ∉ prune_kept s tree)
  then None else contents s (t, id, kind).
Proof.
  assert (∀ ids s, contents (foldl (λ s id, remove_commit tree id s) s ids) (t, id, kind) =
    if decide (t = tree ∧ kind = ItemCommit ∧ id ∈ ids) then None else contents s (t, id, kind)) as Hfold.
  { induction ids as [|i ids IH]; intros s0; simpl.
    - rewrite decide_False; [done|]. intros (_ & _ & Hin). by apply elem_of_nil in Hin.
    - etrans; [apply IH|]. unfold remove_commit at 1.
      change (contents (push_pending ?m ?x) ?k) with (contents x k). rewrite contents_insert.
      destruct (decide (t = tree)) as [->|Ht].
      + rewrite contents_entry. destruct kind; cbn [commits fragments].
        * destruct (decide (id = i)) as [->|Hne].
          { rewrite lookup_delete_eq. rewrite (decide_True _ _ (P := _ ∧ _ ∧ i ∈ i :: ids))
              by (split_and!; [done|done|left]). by case_decide. }
          rewrite lookup_delete_ne by done.
          destruct (decide (id ∈ ids)) as [Hin|Hin].
          { rewrite !decide_True by (split_and!; [done|done|by right || done]). done. }
          rewrite !decide_False; [done|..]; intros (_ & _ & X); [|done].
          by apply elem_of_cons in X as [?|?].
        * rewrite !decide_False by (intros (_ & ? & _); done). done.
      + rewrite !decide_False by (intros (? & _); done). done. }
  unfold prune. destruct (metadata s tree) as [cs fs] eqn:Hm. cbn [snd]. case_bool_decide as Ha.
  { rewrite decide_False by tauto. done. }
  destruct (trees s !! tree) as [e|] eqn:He; cbn [fst].
  - rewrite Hfold. match goal with |- (if decide ?P then _ else _) = (if decide ?Q then _ else _) =>
      destruct (decide P) as [X1|X1]; destruct (decide Q) as [X2|X2] end; try done.
    + destruct X1 as (-> & -> & Hin%list_elem_of_filter). naive_solver.
    + destruct X2 as (-> & -> & _ & Hk). unfold contents. rewrite He. simpl.
      destruct (commits e !! id) eqn:Hc; [|done]. destruct X1. split_and!; [done..|].
      apply list_elem_of_filter. split; [done|]. unfold btree_keys.
      rewrite elem_of_btree_elems, elem_of_dom, Hc. eauto.
  - destruct (decide _) as [(-> & _)|]; [|done]. unfold contents. by rewrite He.
Qed.

Lemma contents_insert_commit tree head stored s k :
  contents (insert_commit tree head stored s) k =
  if decide (k = (tree, head, ItemCommit)) then Some (commit_item tree head stored) else contents s k.
Proof.
  destruct k as [[t id] kind]. unfold insert_commit.
  change (contents (push_pending ?m ?x) ?k) with (contents x k). rewrite contents_insert.
  destruct (decide (t = tree)) as [->|Ht]; [|by rewrite decide_False by congruence].
  rewrite contents_entry. destruct kind; cbn [commits fragments];
    [|by rewrite decide_False by congruence].
  destruct (decide (id = head)) as [->|Hid].
  - rewrite lookup_insert_eq. by rewrite decide_True by done.
  - rewrite lookup_insert_ne by done. by rewrite decide_False by congruence.
Qed.

Lemma contents_insert_fragment tree head stored s k :
  contents (insert_fragment tree head stored s) k =
  if decide (k = (tree, head, ItemFragment)) then Some (fragment_item tree head stored) else contents s k.
Proof.
  destruct k as [[t id] kind]. unfold insert_fragment.
  change (contents (push_pending ?m ?x) ?k) with (contents x k). rewrite contents_insert.
  destruct (decide (t = tree)) as [->|Ht]; [|by rewrite decide_False by congruence].
  rewrite contents_entry. destruct kind; cbn [commits fragments];
    [by rewrite decide_False by congruence|].
  destruct (decide (id = head)) as [->|Hid].
  - rewrite lookup_insert_eq. by rewrite decide_True by done.
  - rewrite lookup_insert_ne by done. by rewrite decide_False by congruence.
Qed.

Lemma contents_touch s tree k :
  contents (set_trees (<[tree := tree_entry s tree]> (trees s)) s) k = contents s k.
Proof.
  destruct k as [[t id] kind]. rewrite contents_insert. case_decide; [|done]. subst.
  by rewrite contents_entry.
Qed.

(** An item [persist_items] may add: one of those it was handed, that passed. *)
Definition accepted (s : SnapshotStorage) (tree : bytes) (cs : list (Signed LooseCommit * bytes))
    (fs : list (Signed Fragment * bytes)) (k : item_key) (item : StoreItem) : Prop :=
  (∃ signed blob payload, (signed, blob) ∈ cs ∧ commit_acceptable s tree signed blob = Some payload ∧
     k = (tree, lc_head payload, ItemCommit) ∧ item = commit_item tree (lc_head payload) (signed, blob)) ∨
  (reserved tree = false ∧ is_opaque_tree tree = false ∧
   ∃ signed blob payload, (signed, blob) ∈ fs ∧ shared_authorized s tree (issuer signed) = true ∧
     trusted_payload signed = Some payload ∧
     k = (tree, fr_head payload, ItemFragment) ∧ item = fragment_item tree (fr_head payload) (signed, blob)).

Lemma accepted_mono s tree cs fs cs' fs' k item :
  accepted s tree cs fs k item → cs ⊆ cs' → fs ⊆ fs' → accepted s tree cs' fs' k item.
Proof.
  intros [(sg & b & p & Hin & HH)|(Hr & Ho & sg & b & p & Hin & HH)] Hc Hf.
  - left. exists sg, b, p. auto.
  - right. split_and!; [done|done|]. exists sg, b, p. auto.
Qed.

(** The checks read the lifecycle and the authorities, which an insert keeps. *)
Definition same_rules (s s' : SnapshotStorage) : Prop :=
  s_lifecycle s = s_lifecycle s' ∧ s_shared s = s_shared s'.

Lemma acceptable_rules s s' tree signed blob :
  same_rules s s' → commit_acceptable s tree signed blob = commit_acceptable s' tree signed blob.
Proof.
  intros [E1 E2]. unfold commit_acceptable, shared_authorized, caller_encrypted. by rewrite E1, E2.
Qed.

Lemma persist_commits_spec tree items s0 s n :
  same_rules s0 s →
  let r := persist_commits s tree items n in
  same_rules s0 r.1 ∧
  (∀ k item, contents r.1 k = Some item → contents s k = Some item ∨ accepted s0 tree items [] k item) ∧
  (∀ m, r.2 = Ok m → Forall (λ p, is_Some (commit_acceptable s0 tree p.1 p.2)) items).
Proof.
  revert s n. induction items as [|[signed blob] items IH]; intros s n Hr.
  { split_and!; [done|by left|by constructor]. }
  simpl. rewrite <- (acceptable_rules s0 s) by done.
  destruct (commit_acceptable s0 tree signed blob) as [p|] eqn:Hp; [|split_and!; [done|by left|done]].
  destruct (IH (insert_commit tree (lc_head p) (signed, blob) s) (wrap 32 (n + 1)) Hr) as (R1 & R2 & R3).
  split_and!; [done| |].
  - intros k item Hk. apply R2 in Hk as [Hk|[(sg & b & q & Hin & Hq & -> & ->)|(_ & _ & ? & ? & ? & X & _)]].
    + rewrite contents_insert_commit in Hk. case_decide; [|by left]. simplify_eq. right. left.
      exists signed, blob, p. split_and!; [left|done..].
    + right. left. exists sg, b, q. split_and!; [by right|done..].
    + by apply elem_of_nil in X.
  - intros m Hm. constructor; [cbn [fst snd]; rewrite ?Hp; eauto|by eapply R3].
Qed.

Lemma persist_fragments_spec tree items s0 s n :
  same_rules s0 s → is_opaque_tree tree = false →
  ∀ k item, contents (persist_fragments s tree items n).1 k = Some item →
    contents s k = Some item ∨ accepted s0 tree [] items k item.
Proof.
  intros Hr Ho. revert s n Hr. induction items as [|[signed blob] items IH]; intros s n Hr k item; [by left|].
  simpl. destruct (reserved tree) eqn:Hres; [by left|]. simpl.
  destruct (shared_authorized s tree (issuer signed)) eqn:Hau; [|by left]. simpl.
  destruct (trusted_payload signed) as [p|] eqn:Hp; [|by left]. intros Hk.
  apply IH in Hk as [Hk|[(? & ? & ? & X & _)|(_ & _ & sg & b & q & Hin & Hq & Hq2 & -> & ->)]]; [| | |done].
  - rewrite contents_insert_fragment in Hk. case_decide; [|by left]. simplify_eq. right. right.
    split_and!; [done|done|]. exists signed, blob, p. split_and!; [left| |done..].
    rewrite <- Hau. unfold shared_authorized. destruct Hr as [_ ->]. done.
  - by apply elem_of_nil in X.
  - right. right. split_and!; [done|done|]. exists sg, b, q. split_and!; [by right|done..].
Qed.

(** Nothing enters the storage unchecked: an item a [persist_items] call adds,
    also one that ends in a refusal, is one it was handed, for that tree, that
    passed every check (authority over the tree, its own tree and blob digest,
    the shared references, the raw id), and fragments never enter an opaque or a
    reserved tree; a success means every commit passed. *)
Theorem persist_items_sound s tree cs fs k item :
  (contents (persist_items s tree cs fs).1 k = Some item →
   contents s k = Some item ∨ accepted s tree cs fs k item) ∧
  (∀ n, (persist_items s tree cs fs).2 = Ok n →
   Forall (λ p, is_Some (commit_acceptable s tree p.1 p.2)) cs).
Proof.
  unfold persist_items. destruct (is_opaque_tree tree) eqn:Ho; simpl.
  - case_bool_decide; simpl; [|by split; [left|]]. case_bool_decide; simpl; [|by split; [left|]]. subst.
    set (s1 := set_trees _ s). assert (same_rules s s1) as Hr by done.
    pose proof (persist_commits_spec tree cs s s1 0 Hr) as (R1 & R2 & R3).
    destruct (persist_commits s1 tree cs 0) as [s2 [n|e]]; simpl in *.
    all: split; [|try done; naive_solver].
    all: intros Hk; apply R2 in Hk as [Hk|Hk]; [left; unfold s1 in Hk; by rewrite contents_touch in Hk|].
    all: right; by eapply accepted_mono; [exact Hk|..].
  - set (s1 := set_trees _ s). assert (same_rules s s1) as Hr by done.
    pose proof (persist_commits_spec tree cs s s1 0 Hr) as (R1 & R2 & R3).
    destruct (persist_commits s1 tree cs 0) as [s2 [n|e]]; simpl in *.
    + split; [|intros; by eapply R3]. intros Hk.
      apply (persist_fragments_spec _ _ s) in Hk as [Hk|Hk]; [| |done|done].
      * apply R2 in Hk as [Hk|Hk]; [left; unfold s1 in Hk; by rewrite contents_touch in Hk|].
        right. eapply accepted_mono; [exact Hk|done|apply list_subseteq_nil].
      * right. eapply accepted_mono; [exact Hk|apply list_subseteq_nil|done].
    + split; [|done]. intros Hk. apply R2 in Hk as [Hk|Hk];
        [left; unfold s1 in Hk; by rewrite contents_touch in Hk|].
      right. eapply accepted_mono; [exact Hk|done|apply list_subseteq_nil].
Qed.
End Theorems.

(** ** A concrete run: two settles around a prepared delta *)
Section Concrete.
Import Toy.
#[local] Instance toy_sedimentree : Sedimentree := {|
  try_decode_commit b := Some (mkSigned b [] (Some (mkCommit (be_bytes 32 9) b [] b)));
  try_decode_fragment b := None;
  minimize _ cs := cs;
  blob_meta b := b;
  ciphertext_refs _ := None;
  digest_refs l := mjoin l |}.

Definition run0 : system (VaultState := unit) :=
  let t := be_bytes 32 9 in
  let c b := (mkSigned b [] (Some (mkCommit t b [] b)), b) in
  let s1 := settle (persist_items (SnapshotStorage_new (mkLifecycle ∅ ∅)) t [c (be_bytes 32 1)] []).1 in
  let q := prepare s1 (mkControl [] None None) in
  let s2 := settle (persist_items s1 t [c (be_bytes 32 2)] []).1 in
  mkSystem s2 JournalState_default (Some q) (contents s2) (contents s1).

Lemma journal_refines_storage_witness :
  rtc step (initial (mkLifecycle ∅ ∅)) run0 ∧
  (settled_len (storage run0) ≤ length (pending (storage run0)))%nat.
Proof.
  assert (rtc step (initial (mkLifecycle ∅ ∅)) run0) as Hr.
  { eapply rtc_l; [apply (step_persist _ _ _ _ _ (be_bytes 32 9)
      [(mkSigned (be_bytes 32 1) [] (Some (mkCommit (be_bytes 32 9) (be_bytes 32 1) [] (be_bytes 32 1))), be_bytes 32 1)] [])|].
    eapply rtc_l; [apply step_settle|].
    eapply rtc_l; [apply (step_prepare _ _ _ _ (mkControl [] None None))|].
    eapply rtc_l; [apply (step_persist _ _ _ _ _ (be_bytes 32 9)
      [(mkSigned (be_bytes 32 2) [] (Some (mkCommit (be_bytes 32 9) (be_bytes 32 2) [] (be_bytes 32 2))), be_bytes 32 2)] [])|].
    eapply rtc_l; [apply step_settle|]. apply rtc_refl. }
  split; [exact Hr|]. apply (journal_refines_storage _ _ Hr).
Defined.
End Concrete.
