(* ===== verification/Snapshot.v ===== *)
(** * Engine snapshots ([storage.rs] and [JournalState::snapshot] in [lib.rs] of
      [runtime/crates/engine/src])

    The two ways a [Snapshot] is made: from the live storage, and from a
    replayed journal.  The main theorem says the second loses nothing: the
    items of the snapshot are the items of the journal, except fragments of
    trees that cannot hold any. *)
From S2P Require Import Prelude BTree Crypto Opaque Policy Text Storage Trees Journal.

Record TreeState := mkTreeState { ts_doc : bytes; ts_commits : list Item; ts_fragments : list Item }.
Definition TreeState_default : TreeState := mkTreeState [] [] [].
Record AppState := mkAppState { as_app : string; as_state : TreeState; as_authority : list Item }.
Record OpaqueState := mkOpaqueState { os_tree : bytes; os_commits : list Item }.
Record UnboundState := mkUnbound { us_tree_ : bytes; us_commits : list Item; us_fragments : list Item }.

Section Snapshots.
Context {VaultState : Type} {sha : Sha256}.

Record Snapshot := mkSnapshot {
  sn_apps : list AppState;
  sn_us : option TreeState;
  sn_keyhive : option TreeState;
  sn_vault : option VaultState;
  sn_name_key : option bytes;
  sn_opaque : list OpaqueState;
  sn_unbound : list UnboundState;
}.

(** ** From the storage *)
Definition items {T} (stored : list (Signed T * bytes)) : list Item :=
  (λ p, mkItem (as_wire p.1) p.2) <$> stored.

Definition storage_tree_state (self : SnapshotStorage) (tree doc : bytes) : TreeState :=
  match trees self !! tree with
  | Some t => mkTreeState doc (items (btree_values (commits t))) (items (btree_values (fragments t)))
  | None => mkTreeState doc [] []
  end.

Definition SnapshotStorage_snapshot (self : SnapshotStorage) (apps : list (string * bytes * bytes))
    (us : option (bytes * bytes)) (keyhive : option bytes) (vault : option VaultState)
    (name_key : option bytes) : Snapshot :=
  mkSnapshot
    ((λ '(app, tree, doc), mkAppState app (storage_tree_state self tree doc)
        (if is_shared_document app
         then ts_commits (storage_tree_state self (shared_authority_tree app) []) else [])) <$> apps)
    ((λ '(tree, doc), storage_tree_state self tree doc) <$> us)
    ((λ tree, storage_tree_state self tree []) <$> keyhive)
    vault name_key
    ((λ p, mkOpaqueState p.1 (items (btree_values (commits p.2)))) <$>
       filter (λ p, status (s_lifecycle self) p.1 = Some true) (btree_items (trees self)))
    [].

(** ** From the journal *)
Definition group_by_tree (l : list StoreItem) : gmap bytes (list StoreItem) :=
  foldl (λ m item, <[si_tree item := default [] (m !! si_tree item) ++ [item]]> m) ∅ l.

(** The loop over one tree's items. *)
Definition tree_state (by_tree : gmap bytes (list StoreItem)) (tree : bytes) : TreeState :=
  foldl (λ state item,
    let stored := mkItem (si_signed item) (si_blob item) in
    match si_kind item with
    | ItemCommit => mkTreeState (ts_doc state) (ts_commits state ++ [stored]) (ts_fragments state)
    | ItemFragment => mkTreeState (ts_doc state) (ts_commits state) (ts_fragments state ++ [stored])
    end) TreeState_default (default [] (by_tree !! tree)).

Definition apps_trees (apps : list AppState) : list bytes :=
  apps ≫= λ app,
    document_tree (as_app app) ::
    (if is_shared_document (as_app app) then [shared_authority_tree (as_app app)] else []).

Definition nonempty (t : TreeState) : option TreeState :=
  if bool_decide (ts_commits t = []) && bool_decide (ts_fragments t = []) then None else Some t.

Definition JournalState_snapshot (self : JournalState VaultState) : option Snapshot :=
  control ← j_control self;
  let by_tree := group_by_tree (btree_values (j_items self)) in
  let apps := (λ app,
    mkAppState app (tree_state by_tree (document_tree app))
      (if is_shared_document app then ts_commits (tree_state by_tree (shared_authority_tree app)) else []))
    <$> partitions control in
  let us_state := tree_state by_tree us_tree in
  let keyhive_state := tree_state by_tree keyhive_tree in
  let known : gset bytes := list_to_set (apps_trees apps ++ [us_tree; keyhive_tree]) in
  Some (mkSnapshot apps (nonempty us_state) (nonempty keyhive_state) (vault control) (name_key control)
    ((λ tree, mkOpaqueState tree (ts_commits (tree_state by_tree tree))) <$>
       filter (λ tree, is_opaque_tree tree = true ∧ tree ∉ known) (btree_keys by_tree))
    ((λ tree, mkUnbound tree (ts_commits (tree_state by_tree tree)) (ts_fragments (tree_state by_tree tree))) <$>
       filter (λ tree, is_opaque_tree tree = false ∧ tree ∉ known) (btree_keys by_tree))).

(** ** Every item the snapshot carries, with the tree it is restored to *)
Definition state_items (tree : bytes) (t : TreeState) : list (bytes * ItemKind * Item) :=
  ((λ i, (tree, ItemCommit, i)) <$> ts_commits t) ++ ((λ i, (tree, ItemFragment, i)) <$> ts_fragments t).

(** [Engine::new] restores each part to its own tree. *)
Definition snapshot_items (s : Snapshot) : list (bytes * ItemKind * Item) :=
  (sn_apps s ≫= λ a, state_items (document_tree (as_app a)) (as_state a) ++
     ((λ i, (shared_authority_tree (as_app a), ItemCommit, i)) <$> as_authority a)) ++
  (match sn_us s with Some t => state_items us_tree t | None => [] end) ++
  (match sn_keyhive s with Some t => state_items keyhive_tree t | None => [] end) ++
  (sn_opaque s ≫= λ o, (λ i, (os_tree o, ItemCommit, i)) <$> os_commits o) ++
  (sn_unbound s ≫= λ u, state_items (us_tree_ u) (mkTreeState [] (us_commits u) (us_fragments u))).

(** ** Grouping loses nothing *)
Lemma group_by_tree_lookup l tree :
  default [] (group_by_tree l !! tree) = filter (λ i, si_tree i = tree) l.
Proof.
  unfold group_by_tree. induction l as [|i l IH] using rev_ind; [done|].
  rewrite foldl_app, filter_app. cbn [foldl]. rewrite filter_cons, filter_nil.
  destruct (decide (si_tree i = tree)) as [<-|Hne].
  - rewrite lookup_insert_eq. simpl. by rewrite IH.
  - rewrite lookup_insert_ne by done. by rewrite IH, app_nil_r.
Qed.

Lemma group_by_tree_dom l tree : is_Some (group_by_tree l !! tree) ↔ ∃ i, i ∈ l ∧ si_tree i = tree.
Proof.
  unfold group_by_tree. induction l as [|i l IH] using rev_ind.
  { simpl. rewrite lookup_empty. split; [by intros []|]. intros (i & X & _). by apply elem_of_nil in X. }
  rewrite foldl_app. cbn [foldl]. destruct (decide (si_tree i = tree)) as [<-|Hne].
  - rewrite lookup_insert_eq. split; [|eauto]. intros _. exists i. split; [|done].
    apply elem_of_app. right. by left.
  - rewrite lookup_insert_ne by done. rewrite IH. split.
    + intros (j & Hj & Ht). exists j. split; [|done]. apply elem_of_app. by left.
    + intros (j & [Hj|Hj]%elem_of_app & Ht); [eauto|]. apply list_elem_of_singleton in Hj. by subst.
Qed.

Definition item_of (i : StoreItem) : Item := mkItem (si_signed i) (si_blob i).

Lemma tree_state_spec m tree :
  let l := default [] (m !! tree) in
  tree_state m tree = mkTreeState []
    (item_of <$> filter (λ i, si_kind i = ItemCommit) l)
    (item_of <$> filter (λ i, si_kind i = ItemFragment) l).
Proof.
  cbv zeta. unfold tree_state. generalize (default [] (m !! tree)). intros l.
  induction l as [|i l IH] using rev_ind; [done|].
  rewrite foldl_app, IH, !filter_app. cbn [foldl ts_doc ts_commits ts_fragments].
  rewrite !filter_cons, !filter_nil. destruct (si_kind i) eqn:Hk; simpl;
    by rewrite ?fmap_app, ?app_nil_r.
Qed.

Lemma elem_of_state_items m tree x :
  x ∈ state_items tree (tree_state m tree) ↔
  ∃ i, i ∈ default [] (m !! tree) ∧ x = (tree, si_kind i, item_of i).
Proof.
  unfold state_items. rewrite tree_state_spec. cbn [ts_commits ts_fragments].
  rewrite elem_of_app, !list_elem_of_fmap. split.
  - intros [(it & -> & (i & -> & Hi)%list_elem_of_fmap)|(it & -> & (i & -> & Hi)%list_elem_of_fmap)].
    all: apply list_elem_of_filter in Hi as [Hk Hi]; exists i; by rewrite Hk.
  - intros (i & Hi & ->). destruct (si_kind i) eqn:Hk; [left|right].
    all: exists (item_of i); split; [done|]; apply list_elem_of_fmap; exists i; split; [done|].
    all: by apply list_elem_of_filter.
Qed.

Lemma elem_of_commits m tree it :
  it ∈ ts_commits (tree_state m tree) ↔
  ∃ i, i ∈ default [] (m !! tree) ∧ si_kind i = ItemCommit ∧ it = item_of i.
Proof.
  rewrite tree_state_spec. cbn [ts_commits]. rewrite list_elem_of_fmap. split.
  - intros (i & -> & [? ?]%list_elem_of_filter). eauto.
  - intros (i & ? & ? & ->). exists i. split; [done|]. by apply list_elem_of_filter.
Qed.

Lemma nonempty_items tree t :
  match nonempty t with Some t => state_items tree t | None => [] end = state_items tree t.
Proof.
  unfold nonempty. case_bool_decide as H1; [|done]. case_bool_decide as H2; [|done].
  simpl. unfold state_items. by rewrite H1, H2.
Qed.

(** A journal files every item under its own key. *)
Definition keys_ok (m : gmap item_key StoreItem) : Prop := map_Forall (λ k i, StoreItem_key i = k) m.

Lemma keys_ok_replay m muts : keys_ok m → keys_ok (replay m muts).
Proof.
  revert m. induction muts as [|mu muts IH]; intros m Hm; [done|]. apply IH.
  intros k i. rewrite lookup_apply_mutation. destruct mu; cbn [apply_view]; case_decide;
    intros E; simplify_eq; first [done | by apply Hm].
Qed.

Lemma keys_ok_deltas ds : keys_ok (j_items (foldl apply (JournalState_default (VaultState := VaultState)) ds)).
Proof.
  induction ds as [|d ds IH] using rev_ind; [apply map_Forall_empty|].
  rewrite foldl_app. by apply keys_ok_replay.
Qed.

Lemma elem_of_group m tree i :
  keys_ok m →
  i ∈ default [] (group_by_tree (btree_values m) !! tree) ↔
  ∃ id, m !! (tree, id, si_kind i) = Some i.
Proof.
  intros Hm. rewrite group_by_tree_lookup, list_elem_of_filter, elem_of_btree_values. split.
  - intros [<- (k & Hk)]. exists (si_commit i). pose proof (Hm k i Hk) as <-. done.
  - intros (id & Hk). pose proof (Hm _ _ Hk) as E. unfold StoreItem_key in E. simplify_eq. eauto.
Qed.

(** The trees whose fragments a snapshot has a place for. *)
Definition holds_fragments (ps : list string) (tree : bytes) : Prop :=
  tree ∈ document_tree <$> ps ∨ tree = us_tree ∨ tree = keyhive_tree ∨
  (is_opaque_tree tree = false ∧
   ¬ ∃ p, p ∈ ps ∧ is_shared_document p = true ∧ tree = shared_authority_tree p).

Section Complete.
Context (j : JournalState VaultState) (ctl : EngineControl VaultState) (Hkeys : keys_ok (j_items j)).
Let m := group_by_tree (btree_values (j_items j)).
Let table (t : bytes) (kind : ItemKind) (it : Item) : Prop :=
  ∃ id i, j_items j !! (t, id, kind) = Some i ∧ it = item_of i.
Let app_of (app : string) := mkAppState app (tree_state m (document_tree app))
  (if is_shared_document app then ts_commits (tree_state m (shared_authority_tree app)) else []).
Let known : gset bytes := list_to_set (apps_trees (app_of <$> partitions ctl) ++ [us_tree; keyhive_tree]).

Lemma table_state t kind it tree :
  (t, kind, it) ∈ state_items tree (tree_state m tree) ↔ t = tree ∧ table t kind it.
Proof.
  rewrite elem_of_state_items. unfold table. split.
  - intros (i & Hi & [= -> -> ->]). apply elem_of_group in Hi as [id Hi]; [|done]. eauto.
  - intros [-> (id & i & Hi & ->)]. pose proof (Hkeys _ _ Hi) as E. unfold StoreItem_key in E.
    simplify_eq. exists i. split; [|done]. apply elem_of_group; eauto.
Qed.

Lemma table_commits it tree : it ∈ ts_commits (tree_state m tree) ↔ table tree ItemCommit it.
Proof.
  rewrite elem_of_commits. unfold table. split.
  - intros (i & Hi & Hk & ->). apply elem_of_group in Hi as [id Hi]; [|done]. rewrite Hk in Hi. eauto.
  - intros (id & i & Hi & ->). pose proof (Hkeys _ _ Hi) as E. unfold StoreItem_key in E.
    injection E as E1 E2 E3. exists i. split_and!; [|done..]. apply elem_of_group; [done|].
    exists id. by rewrite E3.
Qed.

Lemma known_apps t :
  t ∈ apps_trees (app_of <$> partitions ctl) ↔
  ∃ p, p ∈ partitions ctl ∧
    (t = document_tree p ∨ (is_shared_document p = true ∧ t = shared_authority_tree p)).
Proof.
  unfold apps_trees. rewrite list_elem_of_bind. split.
  - intros (a & Ht & (p & -> & Hp)%list_elem_of_fmap). exists p. split; [done|]. cbn [app_of as_app] in Ht.
    apply elem_of_cons in Ht as [->|Ht]; [by left|]. destruct (is_shared_document p) eqn:E.
    + apply list_elem_of_singleton in Ht. auto.
    + by apply elem_of_nil in Ht.
  - intros (p & Hp & Ht). exists (app_of p). split; [|apply list_elem_of_fmap; eauto].
    cbn [app_of as_app]. destruct Ht as [->|[-> ->]]; [left|]. right. by left.
Qed.

Lemma elem_of_known t :
  t ∈ known ↔ t ∈ apps_trees (app_of <$> partitions ctl) ∨ t = us_tree ∨ t = keyhive_tree.
Proof. unfold known. rewrite elem_of_list_to_set, elem_of_app. set_solver. Qed.

Lemma table_dom t kind it : table t kind it → t ∈ btree_keys m.
Proof.
  intros (id & i & Hi & ->). unfold btree_keys. rewrite elem_of_btree_elems, elem_of_dom.
  apply group_by_tree_dom. exists i. pose proof (Hkeys _ _ Hi) as E. unfold StoreItem_key in E.
  simplify_eq. split; [|done]. apply elem_of_btree_values. eauto.
Qed.

(** Where a part of the snapshot restores an item from. *)
Lemma snapshot_places snap t kind it :
  j_control j = Some ctl → JournalState_snapshot j = Some snap →
  (t, kind, it) ∈ snapshot_items snap ↔
  table t kind it ∧
  ((∃ p, p ∈ partitions ctl ∧ (t = document_tree p ∨
      (is_shared_document p = true ∧ t = shared_authority_tree p ∧ kind = ItemCommit))) ∨
   t = us_tree ∨ t = keyhive_tree ∨
   (t ∉ known ∧ (is_opaque_tree t = true → kind = ItemCommit))).
Proof.
  intros Hctl. unfold JournalState_snapshot. rewrite Hctl. cbn [mbind option_bind].
  fold m. fold known. intros [= <-]. unfold snapshot_items.
  cbn [sn_apps sn_us sn_keyhive sn_opaque sn_unbound]. rewrite !nonempty_items, !elem_of_app.
  rewrite !table_state, !list_elem_of_bind. split.
  - intros [(a & Ha & (p & -> & Hp)%list_elem_of_fmap)|[[-> ?]|[[-> ?]|[(o & Ho & Hin)|(u & Hu & Hin)]]]].
    + cbn [as_app as_state as_authority] in Ha.
      apply elem_of_app in Ha as [[-> ?]%table_state|(i & [= -> -> ->] & Hi)%list_elem_of_fmap]; [eauto 10|].
      destruct (is_shared_document p) eqn:E; [|by apply elem_of_nil in Hi].
      apply table_commits in Hi. eauto 10.
    + auto.
    + auto.
    + apply list_elem_of_fmap in Hin as (tr & -> & [[Hop Hk] _]%list_elem_of_filter).
      apply list_elem_of_fmap in Ho as (i & [= -> -> ->] & Hi%table_commits). auto 10.
    + apply list_elem_of_fmap in Hin as (tr & -> & [[Hop Hk] _]%list_elem_of_filter).
      cbn [us_tree_ us_commits us_fragments] in Hu.
      assert ((t, kind, it) ∈ state_items tr (tree_state m tr)) as Hs by exact Hu.
      apply table_state in Hs as [-> Ht]. split; [done|]. do 3 right. split; [done|]. congruence.
  - intros [Ht [(p & Hp & [->|(Hsh & -> & ->)])|[->|[->|[Hk Hop]]]]].
    + left. exists (app_of p). split; [|apply list_elem_of_fmap; eauto].
      apply elem_of_app. left. cbn [app_of as_app as_state]. by apply table_state.
    + left. exists (app_of p). split; [|apply list_elem_of_fmap; eauto].
      apply elem_of_app. right. cbn [app_of as_app as_authority]. rewrite Hsh.
      apply list_elem_of_fmap. exists it. split; [done|]. by apply table_commits.
    + auto.
    + auto.
    + pose proof (table_dom _ _ _ Ht) as Hd. do 3 right. destruct (is_opaque_tree t) eqn:E.
      * left. rewrite Hop in * by done. eexists. split; [|apply list_elem_of_fmap; exists t; split; [done|]].
        -- cbn [os_tree os_commits]. apply list_elem_of_fmap. exists it. split; [done|]. by apply table_commits.
        -- by apply list_elem_of_filter.
      * right. eexists. split; [|apply list_elem_of_fmap; exists t; split; [done|]].
        -- assert ((t, kind, it) ∈ state_items t (tree_state m t)) as Hs by by apply table_state. exact Hs.
        -- by apply list_elem_of_filter.
Qed.
End Complete.

(** A restart loses no item: the snapshot of a journal exists after its first
    record, and the items the engine restores from it, tree by tree, are exactly
    the items the journal holds, except fragments in the trees that never take
    any (opaque trees, and the authority trees of the shared partitions). *)
Theorem journal_snapshot_complete ds d :
  let j := foldl apply (JournalState_default (VaultState := VaultState)) (ds ++ [d]) in
  ∃ snap, JournalState_snapshot j = Some snap ∧
  ∀ t kind it, (t, kind, it) ∈ snapshot_items snap ↔
    (∃ id i, j_items j !! (t, id, kind) = Some i ∧ it = item_of i) ∧
    (kind = ItemFragment → holds_fragments (partitions (control d)) t).
Proof.
  intros j. assert (j_control j = Some (control d)) as Hctl by (unfold j; by rewrite foldl_app).
  pose proof (keys_ok_deltas (ds ++ [d])) as Hk. fold j in Hk.
  destruct (JournalState_snapshot j) as [snap|] eqn:Hsnap.
  2: { unfold JournalState_snapshot in Hsnap. by rewrite Hctl in Hsnap. }
  exists snap. split; [done|]. intros t kind it.
  rewrite (snapshot_places j (control d)) by done. apply and_iff_compat_l.
  rewrite elem_of_known, known_apps by done. unfold holds_fragments. rewrite list_elem_of_fmap. split.
  - intros [(p & Hp & [->|(Hs & -> & ->)])|[->|[->|[Hn Ho]]]]; try (by auto); intros ->.
    + left. eauto.
    + do 3 right. split.
      * destruct (is_opaque_tree t); [naive_solver|done].
      * intros (p & Hp & Hs & ->). apply Hn. left. eauto 10.
  - intros Hf. destruct (decide (t = us_tree)) as [|Hus]; [auto|].
    destruct (decide (t = keyhive_tree)) as [|Hkh]; [auto|].
    destruct (decide (Exists (λ p, t = document_tree p) (partitions (control d)))) as [(p & Hp & ->)%Exists_exists|Hnd];
      [left; eauto|].
    destruct (decide (Exists (λ p, is_shared_document p = true ∧ t = shared_authority_tree p)
      (partitions (control d)))) as [(p & Hp & Hs & ->)%Exists_exists|Hna].
    + left. exists p. split; [done|]. right. split_and!; [done|done|]. destruct kind; [done|].
      exfalso. destruct (Hf eq_refl) as [(q & Hq1 & Hq2)|[E|[E|[_ X]]]]; try done; [|by eauto 10].
      apply Hnd, Exists_exists. eauto.
    + do 3 right. split.
      * intros [(p & Hp & [->|[Hs ->]])|[->| -> ]]; try done; [apply Hnd|apply Hna]; apply Exists_exists; eauto.
      * intros Ho. destruct kind; [done|]. exfalso.
        destruct (Hf eq_refl) as [(q & Hq1 & Hq2)|[E|[E|[X _]]]]; try done; [|congruence].
        apply Hnd, Exists_exists. eauto.
Qed.
End Snapshots.
