(* ===== verification/Device.v ===== *)
(** * Devices ([runtime/crates/kernel/src/device.rs], [runtime/crates/petname])

    The index row, the device record and the identity a fresh device draws. *)
From S2P Require Import Prelude IO Crypto Error.

Inductive State := Fresh | Sealed | Open | Erased.
Inductive Tier := Ephemeral | Durable.
Inductive Rest := RestsOpen | Passphrase.
#[export] Instance State_eq_dec : EqDecision State.
Proof. solve_decision. Defined.
#[export] Instance Tier_eq_dec : EqDecision Tier.
Proof. solve_decision. Defined.
#[export] Instance Rest_eq_dec : EqDecision Rest.
Proof. solve_decision. Defined.
#[export] Program Instance Tier_countable : Countable Tier :=
  inj_countable' (λ t, match t with Ephemeral => false | Durable => true end)
                 (λ b, if b : bool then Durable else Ephemeral) _.
Next Obligation. by intros []. Qed.
#[export] Program Instance Rest_countable : Countable Rest :=
  inj_countable' (λ t, match t with RestsOpen => false | Passphrase => true end)
                 (λ b, if b : bool then Passphrase else RestsOpen) _.
Next Obligation. by intros []. Qed.

(** The index row: the one unsealed record of a device. *)
Record IndexRow := mkRow {
  row_id : string;
  row_petname : string;
  row_tier : Tier;
  row_rest : Rest;
  created : Z;
  last_used : Z;
}.
#[export] Instance IndexRow_eq_dec : EqDecision IndexRow.
Proof. solve_decision. Defined.
#[export] Program Instance IndexRow_countable : Countable IndexRow :=
  inj_countable' (λ r, (row_id r, row_petname r, row_tier r, row_rest r, created r, last_used r))
                 (λ '(i, p, t, r, c, l), mkRow i p t r c l) _.
Next Obligation. by intros []. Qed.

Definition IndexRow_fresh (id : string) (now : Z) : IndexRow :=
  mkRow id "" Ephemeral RestsOpen now now.

Definition set_last_used (now : Z) (r : IndexRow) : IndexRow :=
  mkRow (row_id r) (row_petname r) (row_tier r) (row_rest r) (created r) now.

(** One map per [MetaScope]. *)
Record Meta := mkMeta { meta_user : gmap string string; meta_app : gmap string (gmap string string) }.
Definition Meta_default : Meta := mkMeta ∅ ∅.
#[export] Instance Meta_eq_dec : EqDecision Meta.
Proof. solve_decision. Defined.

Inductive MetaScope := ScopeUser | ScopeApp (app : string).

Record Device := mkDevice {
  name : string;
  root_seed : option bytes;
  hue : Z;
  meta : Meta;
}.
#[export] Instance Device_eq_dec : EqDecision Device.
Proof. solve_decision. Defined.

(** [serde(skip)] on [hue] and [meta]: what is written, and what reading fills
    the skipped fields with. *)
Definition Device_json (d : Device) : string * option bytes := (name d, root_seed d).
Definition Device_of_json (j : string * option bytes) : Device := mkDevice j.1 j.2 0 Meta_default.

Section Rows.
Context `{!Codec IndexRow}.

Definition IndexRow_decode (b : bytes) : result Error IndexRow :=
  ok_or (Error_new Failed "a device index row could not be read: ") (from_slice b).
Definition IndexRow_encode (self : IndexRow) : result Error bytes :=
  ok_or (Error_new Failed "the device index row could not be written: ") (to_vec self).

Lemma IndexRow_encode_decode r : ∃ b, IndexRow_encode r = Ok b ∧ IndexRow_decode b = Ok r.
Proof.
  unfold IndexRow_encode, IndexRow_decode. destruct (codec_roundtrip r) as (b & -> & Hb).
  exists b. by rewrite Hb.
Qed.
End Rows.

(** ** Petnames *)
Definition draw : prog Z := b ← call (Fill 4); mret (le_val b).

Section Petnames.
(** The lines of [eff_short_wordlist.txt], a data file. *)
Context (WORD_LIST : list string).

(** [generate]: draws until a word differs from [previous]; [fuel] bounds the
    draws the model makes. *)
Fixpoint generate (fuel : nat) (previous : string) : prog (option string) :=
  match fuel with
  | O => Done None
  | S fuel =>
    n ← draw;
    let petname := default "" (WORD_LIST !! Z.to_nat (n mod Z.of_nat (length WORD_LIST))) in
    if decide (petname = previous) then generate fuel previous else Done (Some petname)
  end.

(** With no previous word the first draw answers. *)
Definition generate_first : prog string := r ← generate 1 ""; mret (default "" r).

Definition Device_mint : prog Device :=
  name ← generate_first;
  hue ← draw;
  petname ← generate_first;
  mret (mkDevice name None (hue mod 360) (mkMeta {[ "petname"%string := petname ]} ∅)).

(** What the data file promises: it has a word, and none is empty (the filter drops
    empty lines). *)
Definition word_list_ok : Prop := WORD_LIST ≠ [] ∧ "" ∉ WORD_LIST.

Lemma le_val_range b : 0 <= le_val b < 256 ^ Z.of_nat (length b).
Proof. unfold le_val. rewrite <- (length_reverse b). apply be_val_range. Qed.

Lemma word_at n :
  word_list_ok → 0 <= n →
  let w := default "" (WORD_LIST !! Z.to_nat (n mod Z.of_nat (length WORD_LIST))) in
  w ∈ WORD_LIST ∧ w ≠ "".
Proof.
  intros [Hne Hempty] Hn. cbv zeta.
  assert (0 < Z.of_nat (length WORD_LIST)) as Hlen by (destruct WORD_LIST; [done|simpl; lia]).
  pose proof (Z.mod_pos_bound n _ Hlen) as Hm.
  destruct (lookup_lt_is_Some_2 WORD_LIST (Z.to_nat (n mod Z.of_nat (length WORD_LIST)))) as [w Hw];
    [lia|]. rewrite Hw. simpl. apply list_elem_of_lookup_2 in Hw. split; [done|]. by intros ->.
Qed.

(** The draws a generation reads off the entropy stream. *)
Definition draw_at (w : world) (i : nat) : Z := le_val (entropy w <$> seq (drawn w + 4 * i) 4).
Definition word (n : Z) : string :=
  default "" (WORD_LIST !! Z.to_nat (n mod Z.of_nat (length WORD_LIST))).

Lemma exec_generate fuel previous w :
  (∃ i, (i < fuel)%nat ∧ word (draw_at w i) ≠ previous) →
  ∃ i, (i < fuel)%nat ∧ word (draw_at w i) ≠ previous ∧
    (∀ j, (j < i)%nat → word (draw_at w j) = previous) ∧
    (exec w (generate fuel previous)).2 = Some (word (draw_at w i)).
Proof.
  revert w. induction fuel as [|fuel IH]; intros w (i & Hi & Hw); [lia|].
  cbn [generate]. rewrite exec_bind. unfold draw. cbn [exec perform mbind prog_bind prog_bind_ call].
  set (w1 := World _ _ _ _ _ _).
  assert (le_val (entropy w <$> seq (drawn w) 4) = draw_at w 0) as Hd.
  { unfold draw_at. by rewrite Nat.mul_0_r, Nat.add_0_r. }
  cbn [mret prog_ret exec]. rewrite Hd. fold (word (draw_at w 0)).
  assert (∀ j, draw_at w1 j = draw_at w (S j)) as Hshift.
  { intros j. unfold draw_at, w1. cbn [entropy drawn]. do 3 f_equal. lia. }
  case_decide as Hp.
  - destruct i as [|i]; [done|]. destruct (IH w1) as (k & Hk & Hkw & Hkj & He).
    { exists i. split; [lia|]. by rewrite Hshift. }
    rewrite Hshift in Hkw, He. exists (S k). split_and!; [lia|done| |done].
    intros [|j] Hj; [done|]. rewrite <- Hshift. apply Hkj. lia.
  - exists 0%nat. split_and!; [lia|done|lia|done].
Qed.

(** C40: A petname is drawn as soon as the entropy stream allows: if any of the
    first [fuel] draws names a word other than [previous], [generate] answers the
    first such word, which is a word of the list; and with no previous word the
    very first draw answers. *)
Theorem generate_first_distinct fuel previous w :
  word_list_ok →
  (∃ i, (i < fuel)%nat ∧ word (draw_at w i) ≠ previous) →
  (∃ i, (i < fuel)%nat ∧ (exec w (generate fuel previous)).2 = Some (word (draw_at w i)) ∧
    word (draw_at w i) ≠ previous ∧ word (draw_at w i) ∈ WORD_LIST ∧
    (∀ j, (j < i)%nat → word (draw_at w j) = previous)) ∧
  (exec w (generate 1 "")).2 = Some (word (draw_at w 0)).
Proof.
  intros Hok Hex. assert (∀ i, word (draw_at w i) ∈ WORD_LIST ∧ word (draw_at w i) ≠ "") as Hword.
  { intros i. apply word_at; [done|]. apply le_val_range. }
  split.
  - destruct (exec_generate fuel previous w Hex) as (i & Hi & Hne & Hj & He).
    exists i. split_and!; [done|done|done|apply Hword|done].
  - destruct (exec_generate 1 "" w) as (i & Hi & _ & _ & He).
    { exists 0%nat. split; [lia|apply Hword]. }
    by replace i with 0%nat in He by lia.
Qed.
End Petnames.

Lemma generate_first_distinct_witness :
  let w := World ∅ ∅ (λ i, byte_of (Z.of_nat (i / 8))) 0 0 ∅ in
  (exec w (generate ["able"; "acid"] 3 "able")).2 = Some "acid"%string.
Proof.
  intros w. destruct (generate_first_distinct ["able"; "acid"]%string 3 "able" w) as [(i & Hi & -> & Hne & _ & Hj) _].
  - split; [done|]. by apply (bool_decide_unpack _).
  - exists 2%nat. split; [lia|]. vm_compute. discriminate.
  - destruct i as [|[|[|i]]]; [by vm_compute in Hne|by vm_compute in Hne|by vm_compute|lia].
Defined.
