(* ===== verification/Checkpoint.v ===== *)
(** * Checkpoints ([runtime/crates/kernel/src/checkpoint.rs])

    The generations and the journal under [/<id>/], and the pointer in the
    key-value store that commits both.  The operations are programs over the
    kernel's seams ([IO]); the atomicity theorem quantifies over every prefix of
    a checkpoint, every failing or torn write and every removal that does
    nothing. *)
From S2P Require Import Prelude IO Crypto Error Text Seal Device Storage Journal.
From S2P Require Snapshot.

(** ** Names ([store.rs] has the key-value keys) *)
Definition index_key (id : string) : string := "index/" +:+ id.
Definition dev_prefix (id : string) : string := "dev/" +:+ id +:+ "/".
Definition INDEX_PREFIX : string := "index/".
Definition namespace (id : string) : string := "/" +:+ id.
Definition gen_dir (id : string) (generation : Z) : string :=
  "/" +:+ id +:+ "/gen-" +:+ pretty generation.
Definition state_path (id : string) (generation : Z) : string := gen_dir id generation +:+ "/state".
Definition manifest_path (id : string) (generation : Z) : string := gen_dir id generation +:+ "/MANIFEST".
Definition journal_path (id : string) (sequence : Z) : string :=
  "/" +:+ id +:+ "/engine/" +:+ pretty sequence.
Definition pointer_key (id : string) : string := dev_prefix id +:+ "gen".
Definition dek_key_ (id : string) : string := dev_prefix id +:+ "dek".
Definition dek_wrapped_key (id : string) : string := dev_prefix id +:+ "dek-wrapped".

Definition journal_aad (id : string) (sequence : Z) : bytes :=
  as_bytes "polyvisor:engine-journal:v1" ++ [Byte.x00] ++ as_bytes id ++ le_bytes 8 sequence.

(** [a..=b] *)
Definition range_inclusive (a b : Z) : list Z := (λ i, a + Z.of_nat i) <$> seq 0 (Z.to_nat (b - a + 1)).

Record Pointer := mkPointer { generation : Z; engine_head : Z }.
Definition Pointer_default : Pointer := mkPointer 0 0.
#[export] Instance Pointer_eq_dec : EqDecision Pointer.
Proof. solve_decision. Defined.
#[export] Program Instance Pointer_countable : Countable Pointer :=
  inj_countable' (λ p, (generation p, engine_head p)) (λ '(g, h), mkPointer g h) _.
Next Obligation. by intros []. Qed.

Record ManifestJson := mkManifest { m_generation : Z; m_sha256 : string }.
#[export] Instance ManifestJson_eq_dec : EqDecision ManifestJson.
Proof. solve_decision. Defined.
#[export] Program Instance ManifestJson_countable : Countable ManifestJson :=
  inj_countable' (λ p, (m_generation p, m_sha256 p)) (λ '(g, h), mkManifest g h) _.
Next Obligation. by intros []. Qed.

(** ** The names are distinct *)
Lemma gen_dir_inj id g g' : gen_dir id g = gen_dir id g' → g = g'.
Proof.
  unfold gen_dir. intros H. do 3 apply str_app_inj_l in H. by apply (inj pretty) in H.
Qed.
Lemma state_path_inj id g g' : state_path id g = state_path id g' → g = g'.
Proof. intros H. by eapply gen_dir_inj, str_app_inj_r. Qed.
Lemma manifest_path_inj id g g' : manifest_path id g = manifest_path id g' → g = g'.
Proof. intros H. by eapply gen_dir_inj, str_app_inj_r. Qed.
Lemma journal_path_inj id n n' : journal_path id n = journal_path id n' → n = n'.
Proof. unfold journal_path. intros H. do 3 apply str_app_inj_l in H. by apply (inj pretty) in H. Qed.
Lemma state_manifest_ne id g g' : state_path id g ≠ manifest_path id g'.
Proof. by apply (str_last_ne "/state" "/MANIFEST" _ _ (as_bytes "/stat") (as_bytes "/MANIFES") eq_refl eq_refl). Qed.
Lemma gen_journal_ne id g n t : gen_dir id g +:+ t ≠ journal_path id n.
Proof.
  unfold gen_dir, journal_path. intros H. apply (f_equal as_bytes) in H.
  rewrite !as_bytes_app in H. simpl in H. injection H as H. rewrite <- !app_assoc in H.
  apply app_inv_head in H. done.
Qed.
Lemma state_journal_ne id g n : state_path id g ≠ journal_path id n.
Proof. apply gen_journal_ne. Qed.
Lemma manifest_journal_ne id g n : manifest_path id g ≠ journal_path id n.
Proof. apply gen_journal_ne. Qed.

Lemma elem_of_range_inclusive a b n : n ∈ range_inclusive a b ↔ a <= n <= b.
Proof.
  unfold range_inclusive. rewrite list_elem_of_fmap. split.
  - intros (i & -> & Hi%elem_of_seq). lia.
  - intros Hn. exists (Z.to_nat (n - a)). rewrite elem_of_seq. lia.
Qed.

Lemma range_inclusive_snoc a b : a <= b + 1 → range_inclusive a (b + 1) = range_inclusive a b ++ [b + 1].
Proof.
  intros H. unfold range_inclusive. replace (Z.to_nat (b + 1 - a + 1)) with (S (Z.to_nat (b - a + 1))) by lia.
  rewrite seq_S, fmap_app. simpl. do 2 f_equal. lia.
Qed.

Section Checkpoint.
Context {VaultState DriveSealed : Type}.

(** Everything a reload must restore. *)
Record KSnapshot := mkKSnapshot {
  k_device : Device;
  k_seed : bytes;
  k_storage : option DriveSealed;
}.

(** What of it is written: the device without its skipped fields. *)
Definition KJson : Type := (string * option bytes) * bytes * option DriveSealed.
Definition KSnapshot_json (s : KSnapshot) : KJson := (Device_json (k_device s), k_seed s, k_storage s).
Definition KSnapshot_of_json (j : KJson) : KSnapshot := mkKSnapshot (Device_of_json j.1.1) j.1.2 j.2.

(** A snapshot as it comes back from a checkpoint. *)
Definition reread (s : KSnapshot) : KSnapshot := KSnapshot_of_json (KSnapshot_json s).

Context {aead : Aead} {sha : Sha256} {cp : Codec Pointer} {cm : Codec ManifestJson}
        {ck : Codec KJson} {cd : Codec (EngineDelta VaultState)}.

(** [pointer]: an absent pointer is [None], an unreadable one an error. *)
Definition pointer (id : string) : prog (result Error (option Pointer)) :=
  b ← call (KvGet (pointer_key id));
  mret match b with
       | None => Ok None
       | Some b => Some <$> ok_or (Error_new Failed "this device's commit pointer is invalid") (from_slice b)
       end.

(** [HEXLOWER.encode(&Sha256::digest(&state))] *)
Definition digest_hex (state : bytes) : string := hex (sha256 state).

Definition read_generation (dek : Dek) (id : string) (generation : Z) : prog (option KSnapshot) :=
  manifest ← call (FileRead (manifest_path id generation));
  match (b ← manifest; from_slice b) with
  | None => Done None
  | Some manifest =>
    if negb (m_generation manifest =? generation) then Done None else
    state ← call (FileRead (state_path id generation));
    mret (state ← state;
          if negb (bool_decide (digest_hex state = m_sha256 manifest)) then None else
          plain ← ok (Dek_open dek state (as_bytes id));
          j ← from_slice plain;
          Some (KSnapshot_of_json j))
  end.

Definition journal_record (dek : Dek) (id : string) (sequence : Z) (sealed : option bytes)
  : result Error (EngineDelta VaultState) :=
  sealed ← ok_or (Error_new Failed "this device's committed history is missing") sealed;
  plain ← map_err (λ _, Error_new Failed "this device's committed history did not open")
                  (Dek_open dek sealed (journal_aad id sequence));
  ok_or (Error_new Failed "this device's committed history is invalid") (from_slice plain).

Fixpoint load_journal (dek : Dek) (id : string) (sequences : list Z) (journal : JournalState VaultState)
  : prog (result Error (JournalState VaultState)) :=
  match sequences with
  | [] => Done (Ok journal)
  | sequence :: sequences =>
    sealed ← call (FileRead (journal_path id sequence));
    match journal_record dek id sequence sealed with
    | Err e => Done (Err e)
    | Ok delta => load_journal dek id sequences (apply journal delta)
    end
  end.

Definition load (dek : Dek) (id : string)
  : prog (result Error (Pointer * option KSnapshot * option (@Snapshot.Snapshot VaultState))) :=
  p ←? pointer id;
  let pointer := default Pointer_default p in
  snapshot ← (if generation pointer =? 0 then Done None else read_generation dek id (generation pointer));
  if negb (generation pointer =? 0) && negb (bool_decide (is_Some snapshot))
  then Done (Err (Error_new Failed "this device's committed state did not open")) else
  journal ←? load_journal dek id (range_inclusive 1 (engine_head pointer)) JournalState_default;
  Done (Ok (pointer, snapshot, Snapshot.JournalState_snapshot journal)).

Definition remove_generation (id : string) (generation : Z) : prog unit :=
  _ ← call (FileRemove (manifest_path id generation));
  _ ← call (FileRemove (state_path id generation));
  call (DirRemove (gen_dir id generation)).

Definition write_engine (dek : Dek) (id : string) (sequence : Z) (delta : EngineDelta VaultState)
  : prog (result Error unit) :=
  match to_vec delta with
  | None => Done (Err (Error_new Failed "engine history could not be written: "))
  | Some plain =>
    sealed ←? Dek_seal dek plain (journal_aad id sequence);
    wrote ← call (FileWrite (journal_path id sequence) sealed);
    mret (if (wrote : bool) then Ok () else Err (Error_new Failed "this device's history could not be written"))
  end.

(** [serde_json::to_vec(&pointer).expect("pointer serializes")]; the codec is total. *)
Definition commit_pointer (id : string) (pointer : Pointer) : prog unit :=
  match to_vec pointer with
  | None => Done ()
  | Some b => call (KvSet (pointer_key id) b)
  end.

Definition write (dek : Dek) (id : string) (generation engine_head : Z) (snapshot : KSnapshot)
  : prog (result Error unit) :=
  match to_vec (KSnapshot_json snapshot) with
  | None => Done (Err (Error_new Failed "the kernel state could not be written: "))
  | Some plain =>
    state ←? Dek_seal dek plain (as_bytes id);
    match to_vec (mkManifest generation (digest_hex state)) with
    | None => Done (Err (Error_new Failed "the checkpoint manifest could not be written: "))
    | Some manifest =>
      wrote ← call (FileWrite (state_path id generation) state);
      wrote ← (if (wrote : bool) then call (FileWrite (manifest_path id generation) manifest) else Done false);
      if negb wrote then Done (Err (Error_new Failed "this device's state could not be written")) else
      _ ← commit_pointer id (mkPointer generation engine_head);
      _ ← for_each [saturating_sub generation 1; saturating_sub generation 2]
            (λ old, if 0 <? old then remove_generation id old else Done ());
      Done (Ok ())
    end
  end.

Definition destroy_engine (id : string) (head : Z) : prog unit :=
  _ ← for_each (range_inclusive 1 (saturating_add 64 head 1))
        (λ sequence, call (FileRemove (journal_path id sequence)));
  call (DirRemove ("/" +:+ id +:+ "/engine")).

Definition destroy (id : string) (pointer : Pointer) : prog unit :=
  _ ← destroy_engine id (engine_head pointer);
  _ ← for_each (range_inclusive 0 3)
        (λ back, let generation := saturating_sub (generation pointer + 1) back in
                 if 0 <? generation then remove_generation id generation else Done ());
  call (DirRemove (namespace id)).

(** ** Loading, as a function of the stores *)
Definition pointer_of (w : world) (id : string) : result Error (option Pointer) :=
  match kv w !! pointer_key id with
  | None => Ok None
  | Some b => Some <$> ok_or (Error_new Failed "this device's commit pointer is invalid") (from_slice b)
  end.

Definition generation_of (w : world) (dek : Dek) (id : string) (generation : Z) : option KSnapshot :=
  b ← fs w !! manifest_path id generation;
  manifest ← from_slice b;
  if negb (m_generation manifest =? generation) then None else
  state ← fs w !! state_path id generation;
  if negb (bool_decide (digest_hex state = m_sha256 manifest)) then None else
  plain ← ok (Dek_open dek state (as_bytes id));
  j ← from_slice plain;
  Some (KSnapshot_of_json j).

Fixpoint journal_of (w : world) (dek : Dek) (id : string) (sequences : list Z)
    (journal : JournalState VaultState) : result Error (JournalState VaultState) :=
  match sequences with
  | [] => Ok journal
  | sequence :: sequences =>
    delta ← journal_record dek id sequence (fs w !! journal_path id sequence);
    journal_of w dek id sequences (apply journal delta)
  end.

(** What a boot finds on disk: the pointer, the generation it names, and the
    journal up to its head. *)
Definition durable (w : world) (dek : Dek) (id : string)
  : result Error (Pointer * option KSnapshot * JournalState VaultState) :=
  p ← pointer_of w id;
  let pointer := default Pointer_default p in
  let snapshot := if generation pointer =? 0 then None else generation_of w dek id (generation pointer) in
  if negb (generation pointer =? 0) && negb (bool_decide (is_Some snapshot))
  then Err (Error_new Failed "this device's committed state did not open") else
  journal ← journal_of w dek id (range_inclusive 1 (engine_head pointer)) JournalState_default;
  Ok (pointer, snapshot, journal).

Lemma reads_only_journal dek id l j : reads_only (load_journal dek id l j).
Proof.
  revert j. induction l as [|n l IH]; intros j; [done|]. simpl. intros x.
  destruct (journal_record dek id n x); [apply IH|done].
Qed.

Lemma answer_journal w dek id l j : answer w (load_journal dek id l j) = journal_of w dek id l j.
Proof.
  revert j. induction l as [|n l IH]; intros j; [done|]. unfold answer. simpl.
  destruct (journal_record dek id n _) as [d|e]; [apply IH|done].
Qed.

Lemma answer_generation w dek id g : answer w (read_generation dek id g) = generation_of w dek id g.
Proof.
  unfold answer, read_generation, generation_of. cbn [exec perform mbind prog_bind prog_bind_ call].
  destruct (fs w !! manifest_path id g) as [b|]; [|done]. cbn [mbind option_bind].
  destruct (from_slice b) as [m|]; [|done]. cbn [mbind option_bind].
  destruct (m_generation m =? g); done.
Qed.

Lemma reads_only_generation dek id g : reads_only (read_generation dek id g).
Proof.
  unfold read_generation. simpl. intros x. repeat (case_match; try done).
Qed.

(** [load] never writes, and answers the durable state. *)
Lemma answer_load w dek id :
  reads_only (load dek id) ∧
  answer w (load dek id) =
  ('(p, s, j) ← durable w dek id; Ok (p, s, Snapshot.JournalState_snapshot j)).
Proof.
  assert (∀ p, reads_only
    (snapshot ← (if generation p =? 0 then Done None else read_generation dek id (generation p));
     if negb (generation p =? 0) && negb (bool_decide (is_Some snapshot))
     then Done (Err (Error_new Failed "this device's committed state did not open")) else
     journal ←? load_journal dek id (range_inclusive 1 (engine_head p)) JournalState_default;
     Done (Ok (p, snapshot, Snapshot.JournalState_snapshot journal)))) as Hro.
  { intros p. apply reads_only_bind.
    - destruct (_ =? 0); [done|apply reads_only_generation].
    - intros s. destruct (negb _ && _); [done|]. apply reads_only_bind; [apply reads_only_journal|].
      by intros []. }
  unfold load. split.
  { apply reads_only_bind; [by intros ?|]. intros [p|e]; [apply Hro|done]. }
  unfold try at 1. rewrite answer_bind by by intros ?.
  change (answer w (pointer id)) with (pointer_of w id). unfold durable.
  destruct (pointer_of w id) as [p|e]; [|done]. cbn [mbind result_bind].
  set (q := default Pointer_default p).
  rewrite answer_bind by (destruct (generation q =? 0); [done|apply reads_only_generation]).
  assert (answer w (if generation q =? 0 then Done None else read_generation dek id (generation q))
    = if generation q =? 0 then None else generation_of w dek id (generation q)) as ->.
  { destruct (generation q =? 0); [done|apply answer_generation]. }
  destruct (negb _ && _); [done|]. unfold try. rewrite answer_bind by apply reads_only_journal.
  rewrite answer_journal. by destruct (journal_of w dek id _ _).
Qed.

(** *** What the durable state depends on *)
Definition footprint (id : string) (p : Pointer) : list string :=
  manifest_path id (generation p) :: state_path id (generation p) ::
  (journal_path id <$> range_inclusive 1 (engine_head p)).

Lemma journal_of_agree w w' dek id l j :
  (∀ n, n ∈ l → fs w' !! journal_path id n = fs w !! journal_path id n) →
  journal_of w' dek id l j = journal_of w dek id l j.
Proof.
  revert j. induction l as [|n l IH]; intros j Hl; [done|]. simpl.
  rewrite Hl by left. destruct (journal_record dek id n _); [|done]. simpl. apply IH.
  intros m Hm. apply Hl. by right.
Qed.

Lemma durable_agree w w' dek id :
  kv w' !! pointer_key id = kv w !! pointer_key id →
  (∀ p path, pointer_of w id = Ok p → path ∈ footprint id (default Pointer_default p) →
     fs w' !! path = fs w !! path) →
  durable w' dek id = durable w dek id.
Proof.
  intros Hp Hf. unfold durable. assert (pointer_of w' id = pointer_of w id) as Hpo.
  { unfold pointer_of. by rewrite Hp. }
  rewrite Hpo. destruct (pointer_of w id) as [p|e] eqn:E; [|done]. cbn [mbind result_bind].
  specialize (Hf p). set (q := default Pointer_default p) in *.
  assert (generation_of w' dek id (generation q) = generation_of w dek id (generation q)) as ->.
  { unfold generation_of. by rewrite !Hf by (done || unfold footprint; set_solver). }
  rewrite (journal_of_agree w w'); [done|]. intros n Hn. apply Hf; [done|].
  unfold footprint. rewrite !elem_of_cons, list_elem_of_fmap. eauto.
Qed.

(** *** Walking the writers

    [agrees touched w w'] : nothing but files [touched] names differs. *)
Definition agrees (touched : string → Prop) (w w' : world) : Prop :=
  kv w' = kv w ∧ ∀ path, ¬ touched path → fs w' !! path = fs w !! path.

Lemma agrees_refl touched w : agrees touched w w.
Proof. done. Qed.

Lemma agrees_fill touched w n : agrees touched w (perform (Fill n) w).2.
Proof. done. Qed.

Lemma agrees_write (touched : string → Prop) w w' path b :
  agrees touched w w' → touched path → agrees touched w (set_fs <[path := b]> w').
Proof.
  intros [H1 H2] Hp. split; [done|]. intros q Hq. simpl. rewrite lookup_insert_ne by naive_solver. auto.
Qed.

Lemma agrees_leave (touched : string → Prop) w w' path l :
  agrees touched w w' → touched path → agrees touched w (leave path l w').
Proof.
  intros [H1 H2] Hp. split; [done|]. intros q Hq. simpl.
  rewrite lookup_partial_alter_ne by naive_solver. auto.
Qed.

Lemma always_seal {B} (C : world → Prop) (Q : world → result Error B → Prop) dek p aad k w :
  let w1 := (perform (Fill NONCE_LEN) w).2 in
  C w → C w1 → (∀ e, Q w1 (Err e)) →
  (∀ sealed, Dek_open dek sealed aad = Ok p → always C Q (k sealed) w1) →
  always C Q (try (Dek_seal dek p aad) k) w.
Proof.
  intros w1 HC HC' He Hk. apply always_try. unfold Dek_seal.
  apply always_pure; [done|done|]. fold w1.
  pose proof (length_fill w NONCE_LEN) as Hlen. set (n := (perform (Fill NONCE_LEN) w).1) in *.
  apply always_done; [done|].
  destruct (encrypt (dek_key dek) n p aad) as [ct|e] eqn:Hct; [|by split].
  apply Hk. apply Dek_open_Ok. unfold encrypt in Hct. apply ok_or_Ok in Hct. by exists n, ct.
Qed.

Lemma write_engine_always dek id n delta w :
  let touched path := path = journal_path id n in
  always (agrees touched w)
    (λ w' r, agrees touched w w' ∧
       (r = Ok () → journal_record dek id n (fs w' !! journal_path id n) = Ok delta))
    (write_engine dek id n delta) w.
Proof.
  intros touched. unfold write_engine. destruct (codec_roundtrip delta) as (plain & -> & Hplain).
  apply always_seal; [apply agrees_refl|apply agrees_fill|intros e; split; [apply agrees_fill|done]|].
  intros sealed Hopen. set (w1 := (perform (Fill NONCE_LEN) w).2).
  assert (agrees touched w w1) as H1 by apply agrees_fill.
  apply always_file_write; [done| |].
  - assert (agrees touched w (set_fs <[journal_path id n := sealed]> w1)) as H2 by by apply agrees_write.
    apply always_done; [done|]. split; [done|]. intros _.
    cbn [fs set_fs]. rewrite lookup_insert_eq. unfold journal_record. cbn [ok_or mbind result_bind].
    rewrite Hopen. cbn [map_err mbind result_bind]. by rewrite Hplain.
  - intros l. assert (agrees touched w (leave (journal_path id n) l w1)) as H2 by by apply agrees_leave.
    split; [done|]. by apply always_done.
Qed.

(** A generation and the pointer to it are committed. *)
Definition gen_files (id : string) (g : Z) (path : string) : Prop :=
  path = state_path id g ∨ path = manifest_path id g.

Record committed (w w' : world) (dek : Dek) (id : string) (p : Pointer) (snapshot : KSnapshot) : Prop := {
  com_pointer : ∃ b, from_slice b = Some p ∧ kv w' = <[pointer_key id := b]> (kv w);
  com_state : generation_of w' dek id (generation p) = Some (reread snapshot);
  com_rest : ∀ path, (∀ g, generation p - 2 <= g <= generation p → ¬ gen_files id g path) →
    fs w' !! path = fs w !! path;
}.

Lemma committed_remove w w' dek id p snapshot path g :
  committed w w' dek id p snapshot → gen_files id g path →
  generation p - 2 <= g <= generation p → g ≠ generation p →
  committed w (set_fs (delete path) w') dek id p snapshot.
Proof.
  intros [H1 H2 H3] Hp Hg Hne. split; [done| |].
  - rewrite <- H2. unfold generation_of. simpl.
    rewrite !lookup_delete_ne; [done|..]; destruct Hp as [->| ->]; intros E;
      first [by apply state_path_inj in E|by apply manifest_path_inj in E
            |by eapply state_manifest_ne|symmetry in E; by eapply state_manifest_ne].
  - intros q Hq. simpl. rewrite lookup_delete_ne; [by apply H3|]. intros ->. by apply (Hq g).
Qed.

Lemma always_remove_generation {B} (C : world → Prop) (Q : world → B → Prop) w w' dek id p snapshot g (k : prog B) :
  committed w w' dek id p snapshot →
  generation p - 2 <= g <= generation p → g ≠ generation p →
  (∀ w1, committed w w1 dek id p snapshot → C w1) →
  (∀ w1, committed w w1 dek id p snapshot → always C Q k w1) →
  always C Q (_ ← remove_generation id g; k) w'.
Proof.
  intros Hc Hg Hne HC Hk. assert (∀ w1 path, committed w w1 dek id p snapshot → gen_files id g path →
    committed w (set_fs (delete path) w1) dek id p snapshot) as Hrm by (intros; by eapply committed_remove).
  assert (gen_files id g (state_path id g)) as Hst by by left.
  assert (gen_files id g (manifest_path id g)) as Hma by by right.
  unfold remove_generation. apply bind_assoc.
  apply always_file_remove; [by apply HC|..]; apply bind_assoc;
    (apply always_file_remove; [apply HC; auto|..]); (apply always_pure; [done|apply HC; auto|]);
    apply Hk; cbn [perform snd]; auto.
Qed.

Definition write_crash dek id g h snapshot w w' : Prop :=
  agrees (gen_files id g) w w' ∨ committed w w' dek id (mkPointer g h) snapshot.
Definition write_post dek id g h snapshot w w' (r : result Error unit) : Prop :=
  match r with
  | Ok _ => committed w w' dek id (mkPointer g h) snapshot
  | Err _ => agrees (gen_files id g) w w'
  end.

Lemma always_remove_old dek id g h snapshot w w' old (k : prog (result Error unit)) :
  old = saturating_sub g 1 ∨ old = saturating_sub g 2 →
  committed w w' dek id (mkPointer g h) snapshot →
  (∀ w1, committed w w1 dek id (mkPointer g h) snapshot →
     always (write_crash dek id g h snapshot w) (write_post dek id g h snapshot w) k w1) →
  always (write_crash dek id g h snapshot w) (write_post dek id g h snapshot w)
    (_ ← (if 0 <? old then remove_generation id old else Done ()); k) w'.
Proof.
  intros Ho Hc Hk. destruct (Z.ltb_spec 0 old); [|by apply Hk]. unfold saturating_sub in Ho.
  eapply always_remove_generation; [exact Hc|cbn [generation]; lia|cbn [generation]; lia| |done].
  intros w1 H1. by right.
Qed.

(** The commit point: the files of the generation, then the pointer. *)
Lemma committed_pointer dek id g h snapshot w w3 state manifest plain b :
  agrees (gen_files id g) w w3 →
  fs w3 !! state_path id g = Some state → fs w3 !! manifest_path id g = Some manifest →
  from_slice manifest = Some (mkManifest g (digest_hex state)) →
  Dek_open dek state (as_bytes id) = Ok plain →
  from_slice plain = Some (KSnapshot_json snapshot) →
  from_slice b = Some (mkPointer g h) →
  committed w (set_kv <[pointer_key id := b]> w3) dek id (mkPointer g h) snapshot.
Proof.
  intros [H1 H2] Hst Hma Hman Hopen Hplain Hb. split.
  - exists b. split; [done|]. simpl. by rewrite H1.
  - unfold generation_of. cbn [generation fs set_kv]. rewrite Hma. cbn [mbind option_bind].
    rewrite Hman. cbn [mbind option_bind m_generation m_sha256]. rewrite Z.eqb_refl. cbn [negb].
    rewrite Hst. cbn [mbind option_bind]. rewrite bool_decide_true by done. cbn [negb].
    rewrite Hopen. cbn [ok mbind option_bind]. by rewrite Hplain.
  - intros path Hp. apply H2. apply Hp. simpl. lia.
Qed.

Lemma write_always dek id g h snapshot w :
  always (write_crash dek id g h snapshot w) (write_post dek id g h snapshot w)
    (write dek id g h snapshot) w.
Proof.
  unfold write. destruct (codec_roundtrip (KSnapshot_json snapshot)) as (plain & -> & Hplain).
  apply always_seal; [left; apply agrees_refl|left; apply agrees_fill|intros e; apply agrees_fill|]. intros state Hopen.
  destruct (codec_roundtrip (mkManifest g (digest_hex state))) as (manifest & -> & Hman).
  set (w1 := (perform (Fill NONCE_LEN) w).2).
  assert (agrees (gen_files id g) w w1) as H1 by apply agrees_fill.
  assert (gen_files id g (state_path id g)) as Hst by by left.
  assert (gen_files id g (manifest_path id g)) as Hma by by right.
  apply always_file_write; [by left| |].
  2: { intros l. pose proof (agrees_leave _ w w1 _ l H1 Hst) as Hl. split; [by left|]. split; [by left|done]. }
  pose proof (agrees_write _ w w1 _ state H1 Hst) as H2. set (w2 := set_fs _ w1) in *.
  apply always_file_write; [by left| |].
  2: { intros l. pose proof (agrees_leave _ w w2 _ l H2 Hma) as Hl. split; [by left|]. split; [by left|done]. }
  pose proof (agrees_write _ w w2 _ manifest H2 Hma) as H3. set (w3 := set_fs _ w2) in *. cbn [negb].
  unfold commit_pointer. destruct (codec_roundtrip (mkPointer g h)) as (b & -> & Hb).
  apply always_pure; [done|by left|]. cbn [perform snd].
  assert (committed w (set_kv <[pointer_key id := b]> w3) dek id (mkPointer g h) snapshot) as Hc.
  { eapply committed_pointer; try done; unfold w3, w2; simpl.
    - rewrite lookup_insert_ne by (intros E; by eapply state_manifest_ne). apply lookup_insert_eq.
    - apply lookup_insert_eq. }
  cbn [for_each]. apply bind_assoc. apply always_remove_old; [by left|done|]. intros w5 H5.
  apply bind_assoc. apply always_remove_old; [by right|done|]. intros w6 H6.
  apply always_done; [by right|done].
Qed.

(** *** The durable state across a write *)
Lemma durable_Ok w dek id p s j :
  durable w dek id = Ok (p, s, j) →
  (∃ o, pointer_of w id = Ok o ∧ p = default Pointer_default o) ∧
  s = (if generation p =? 0 then None else generation_of w dek id (generation p)) ∧
  (generation p ≠ 0 → is_Some s) ∧
  journal_of w dek id (range_inclusive 1 (engine_head p)) JournalState_default = Ok j.
Proof.
  unfold durable. intros (o & Ho & HH)%bind_Ok. set (q := default Pointer_default o) in *.
  destruct (Z.eqb_spec (generation q) 0) as [E|E]; cbn [negb andb] in HH.
  - apply bind_Ok in HH as (j' & Hj & HH). simplify_eq. rewrite (proj2 (Z.eqb_eq _ _) E).
    split_and!; [eauto|done|done|done].
  - case_bool_decide as Hs; [|done]. cbn [negb] in HH. apply bind_Ok in HH as (j' & Hj & HH). simplify_eq.
    rewrite (proj2 (Z.eqb_neq _ _) E). split_and!; [eauto|done|done|done].
Qed.

Lemma durable_agrees touched w w' dek id p s j :
  durable w dek id = Ok (p, s, j) → agrees touched w w' →
  (∀ path, path ∈ footprint id p → ¬ touched path) →
  durable w' dek id = durable w dek id.
Proof.
  intros Hd [H1 H2] Hf. apply durable_Ok in Hd as ((o & Ho & ->) & _).
  apply durable_agree; [by rewrite H1|]. intros o' path Ho'. rewrite Ho in Ho'. simplify_eq. auto.
Qed.

Lemma durable_committed w w' dek id p snapshot j :
  committed w w' dek id p snapshot → generation p ≠ 0 →
  journal_of w dek id (range_inclusive 1 (engine_head p)) JournalState_default = Ok j →
  durable w' dek id = Ok (p, Some (reread snapshot), j).
Proof.
  intros [(b & Hb & Hkv) Hst Hrest] Hg Hj. unfold durable, pointer_of.
  rewrite Hkv, lookup_insert_eq, Hb. simpl. rewrite (proj2 (Z.eqb_neq _ _) Hg). simpl.
  rewrite Hst, bool_decide_true by done. simpl.
  rewrite (journal_of_agree w w'), Hj; [done|]. intros n _. apply Hrest. intros g _ [E|E]; symmetry in E.
  - by eapply state_journal_ne.
  - by eapply manifest_journal_ne.
Qed.

(** One more journal record. *)
Lemma journal_of_snoc w dek id n l j j' delta :
  journal_of w dek id l j = Ok j' →
  journal_record dek id n (fs w !! journal_path id n) = Ok delta →
  journal_of w dek id (l ++ [n]) j = Ok (apply j' delta).
Proof.
  revert j. induction l as [|m l IH]; intros j Hl Hn; simpl in *.
  - simplify_eq. by rewrite Hn.
  - apply bind_Ok in Hl as (d & -> & Hl). simpl. auto.
Qed.

Lemma footprint_engine id p : ∀ path, path ∈ footprint id p → path ≠ journal_path id (engine_head p + 1).
Proof.
  unfold footprint. intros path [->|[->|(n & -> & Hn)%list_elem_of_fmap]%elem_of_cons]%elem_of_cons.
  - apply manifest_journal_ne.
  - apply state_journal_ne.
  - apply elem_of_range_inclusive in Hn. intros E%journal_path_inj. lia.
Qed.

Lemma footprint_next_generation id p :
  ∀ path, path ∈ footprint id p → ¬ gen_files id (generation p + 1) path.
Proof.
  unfold footprint, gen_files. intros path Hp [->| ->]; revert Hp;
    rewrite !elem_of_cons, list_elem_of_fmap; intros [E|[E|(n & E & _)]].
  - by eapply state_manifest_ne.
  - apply state_path_inj in E. lia.
  - by eapply state_journal_ne.
  - apply manifest_path_inj in E. lia.
  - symmetry in E. by eapply state_manifest_ne.
  - by eapply manifest_journal_ne.
Qed.
End Checkpoint.
Arguments KSnapshot _ : clear implicits.
Arguments KJson _ : clear implicits.
