(* ===== verification/Persist.v ===== *)
(** * The kernel's device state and its persistence
      ([runtime/crates/kernel/src/lib.rs])

    [DeviceState], the state gates, and [write_persistence]: one journal record
    and one generation, committed by one pointer.  The atomicity theorem is
    stated of what a boot would find on disk at any point of a run. *)
From S2P Require Import Prelude IO Crypto Error Seal Device Storage Journal Checkpoint.
From S2P Require Snapshot.

Section Persist.
Context {VaultState DriveSealed : Type}.

Record DeviceState := mkState {
  row : IndexRow;
  dek : option Dek;
  wrapped : option WrappedDek;
  device : option Device;
  seed : bytes;
  engine_state : option (@Snapshot.Snapshot VaultState);
  storage : option DriveSealed;
  st_generation : Z;
  st_engine_head : Z;
  erased : bool;
}.

(** [IdentityContext]: the generation of the user's identity, and whether an
    adoption is under way. *)
Record IdentityContext := mkContext { ic_generation : Z; adopting : bool }.

Definition erased_error : Error := Error_new Unavailable "this device has been erased".

(** [Kernel::state] *)
Definition state (self : DeviceState) : State :=
  if erased self then Erased else
  match dek self with
  | None => Sealed
  | Some _ => match row_tier (row self) with Ephemeral => Fresh | Durable => Open end
  end.

(** [Kernel::open]: fresh passes, it is a tier and not a lock. *)
Definition open (self : DeviceState) : result Error unit :=
  match state self with
  | Fresh | Open => Ok ()
  | Sealed => Err (Error_new Unavailable "this device is sealed; unseal it first")
  | Erased => Err erased_error
  end.

Definition not_erased (self : DeviceState) : result Error unit :=
  if erased self then Err erased_error else Ok ().

Definition identity_open (self : DeviceState) (context : IdentityContext) : result Error unit :=
  _ ← open self;
  if adopting context then Err (Error_new Unavailable "the user identity is being adopted") else Ok ().

Definition set_device (d : option Device) (s : DeviceState) : DeviceState :=
  mkState (row s) (dek s) (wrapped s) d (seed s) (engine_state s) (storage s)
    (st_generation s) (st_engine_head s) (erased s).
Definition set_row (r : IndexRow) (s : DeviceState) : DeviceState :=
  mkState r (dek s) (wrapped s) (device s) (seed s) (engine_state s) (storage s)
    (st_generation s) (st_engine_head s) (erased s).
Definition set_pointer (g h : Z) (s : DeviceState) : DeviceState :=
  mkState (row s) (dek s) (wrapped s) (device s) (seed s) (engine_state s) (storage s) g h (erased s).

(** [clear_root_custody]: the seed leaves the device record ([contacts.rs]). *)
Definition set_root_seed (r : option bytes) (d : Device) : Device := mkDevice (name d) r (hue d) (meta d).

(** [begin_identity_adoption] and [finish_identity_adoption]. *)
Definition begin_identity_adoption (self : DeviceState) (previous : IdentityContext)
  : result Error (DeviceState * IdentityContext) :=
  _ ← open self;
  if adopting previous then Err (Error_new Unavailable "the user identity is already being adopted") else
  let self := set_device (set_root_seed None <$> device self) self in
  Ok (self, mkContext (saturating_add 64 (ic_generation previous) 1) true).

Definition finish_identity_adoption (current previous : IdentityContext) (succeeded : bool)
  : IdentityContext :=
  if succeeded && adopting current && (ic_generation current =? saturating_add 64 (ic_generation previous) 1)
  then mkContext (ic_generation current) false
  else current.

(** What the [expect]s of the source rely on: an open device has its record. *)
Definition state_ok (self : DeviceState) : Prop :=
  (is_Some (dek self) ↔ is_Some (device self)) ∧ (erased self = true → dek self = None).

Context {aead : Aead} {sha : Sha256} {cr : Codec IndexRow} {cp : Codec Pointer} {cm : Codec ManifestJson}
        {ck : Codec (KJson DriveSealed)} {cd : Codec (EngineDelta VaultState)}.

(** [touch_lease] *)
Definition touch_lease (id : string) (self : DeviceState) : prog (DeviceState * result Error unit) :=
  now ← call NowMs;
  let self := set_row (set_last_used now (row self)) self in
  match IndexRow_encode (row self) with
  | Err e => Done (self, Err e)
  | Ok b => _ ← call (KvSet (index_key id) b); Done (self, Ok ())
  end.

(** The three writes of [write_persistence], before the state is updated:
    [prepared] is the engine's delta, [metadata] the device record's turn. *)
Definition write_parts (id : string) (key : Dek) (generation engine_head : Z)
    (prepared : option (EngineDelta VaultState)) (snapshot : option (KSnapshot DriveSealed))
  : prog (result Error unit) :=
  _ ←? match prepared with
       | Some delta => write_engine key id engine_head delta
       | None => Done (Ok ())
       end;
  match snapshot with
  | Some snapshot => write key id generation engine_head snapshot
  | None =>
    match prepared with
    | Some _ => _ ← commit_pointer id (mkPointer generation engine_head); Done (Ok ())
    | None => Done (Ok ())
    end
  end.

Definition write_persistence (id : string) (self : DeviceState) (key : Dek) (dev : Device)
    (prepared : option (EngineDelta VaultState)) (sealed : option DriveSealed) (metadata : bool)
  : prog (DeviceState * result Error unit) :=
  let generation := st_generation self + (if metadata then 1 else 0) in
  let engine_head := st_engine_head self + (match prepared with Some _ => 1 | None => 0 end) in
  let snapshot := if metadata then Some (mkKSnapshot dev (seed self) sealed) else None in
  r ← write_parts id key generation engine_head prepared snapshot;
  match r with
  | Err e => Done (self, Err e)
  | Ok _ => touch_lease id (set_pointer generation engine_head self)
  end.

(** [persist]: the gates, then the write.  The mutex makes writers run one after
    another; the boolean answer is whether the store sync was scheduled. *)
Definition persist (id : string) (context : IdentityContext) (self : DeviceState)
    (prepared : option (EngineDelta VaultState)) (sealed : option DriveSealed) (metadata : bool)
  : prog (DeviceState * result Error unit * bool) :=
  match open self with
  | Err e => Done (self, Err e, false)
  | Ok _ =>
    if adopting context then Done (self, Err (Error_new Unavailable "identity adoption is incomplete"), false) else
    match dek self, device self with
    | Some key, Some dev =>
      '(self, r) ← write_persistence id self key dev prepared sealed metadata;
      Done (self, r, is_ok r)
    | _, _ => Done (self, Err (Error_new Failed "open implies a device"), false)
    end
  end.

(** ** Atomicity *)

(** What the next boot finds after a successful write. *)
Definition next_durable (p : Pointer) (s : option (KSnapshot DriveSealed)) (j : JournalState VaultState)
    (prepared : option (EngineDelta VaultState)) (snapshot : option (KSnapshot DriveSealed))
  : Pointer * option (KSnapshot DriveSealed) * JournalState VaultState :=
  (mkPointer (generation p + match snapshot with Some _ => 1 | None => 0 end)
             (engine_head p + match prepared with Some _ => 1 | None => 0 end),
   match snapshot with Some n => Some (reread n) | None => s end,
   match prepared with Some d => apply j d | None => j end).

Lemma set_kv_other_durable w k v key id : k ≠ pointer_key id →
  durable (VaultState := VaultState) (DriveSealed := DriveSealed) (set_kv <[k := v]> w) key id = durable w key id.
Proof.
  intros Hk. apply durable_agree; [|done]. simpl. by rewrite lookup_insert_ne.
Qed.

Lemma index_pointer_ne id id' : index_key id ≠ pointer_key id'.
Proof. unfold index_key, pointer_key, dev_prefix. by intros [=]. Qed.

Section Atomic.
Context (id : string) (key : Dek) (w : world) (p : Pointer) (s : option (KSnapshot DriveSealed))
        (j : JournalState VaultState).
Hypothesis Hd : durable w key id = Ok (p, s, j).
Hypothesis Hg : 0 <= generation p.
Hypothesis Hh : 0 <= engine_head p.

Let found w' := durable w' key id = Ok (p, s, j).

(** The journal record of the next head, written and not yet pointed to. *)
Lemma write_engine_found delta :
  always found (λ w' r, found w' ∧ kv w' = kv w ∧
      (∀ path, path ≠ journal_path id (engine_head p + 1) → fs w' !! path = fs w !! path) ∧
      (r = Ok () → journal_of w' key id (range_inclusive 1 (engine_head p + 1)) JournalState_default
                   = Ok (apply j delta)))
    (write_engine key id (engine_head p + 1) delta) w.
Proof.
  assert (∀ w', agrees (λ path, path = journal_path id (engine_head p + 1)) w w' → found w') as Hag.
  { intros w' Ha. unfold found. rewrite <- Hd. eapply durable_agrees; [exact Hd|exact Ha|].
    apply footprint_engine. }
  eapply always_mono; [exact Hag| |apply write_engine_always].
  intros w' r [Ha Hr]. split_and!; [by apply Hag|apply Ha|intros path Hp; by apply (proj2 Ha)|].
  intros ->. rewrite range_inclusive_snoc by lia. apply (journal_of_snoc w' key id _ _ _ j); [|by apply Hr].
  pose proof (durable_Ok _ _ _ _ _ _ Hd) as (_ & _ & _ & Hj). rewrite <- Hj.
  apply journal_of_agree. intros n Hn%elem_of_range_inclusive. apply (proj2 Ha). intros E%journal_path_inj. lia.
Qed.
End Atomic.

(** The second half, from a world where the journal of the next head is in place. *)
Lemma write_generation_found id key w p s j h j' snapshot :
  durable w key id = Ok (p, s, j) → 0 <= generation p →
  journal_of w key id (range_inclusive 1 h) JournalState_default = Ok j' →
  let old := Ok (p, s, j) in
  let new := Ok (mkPointer (generation p + 1) h, Some (reread snapshot), j') in
  always (λ w', durable w' key id = old ∨ durable w' key id = new)
    (λ w' r, durable w' key id = match r with Ok _ => new | Err _ => old end)
    (write key id (generation p + 1) h snapshot) w.
Proof.
  intros Hd Hg Hj old new.
  assert (∀ w', agrees (gen_files id (generation p + 1)) w w' → durable w' key id = old) as Hag.
  { intros w' Ha. unfold old. rewrite <- Hd. eapply durable_agrees; [exact Hd|exact Ha|].
    apply footprint_next_generation. }
  assert (∀ w', committed w w' key id (mkPointer (generation p + 1) h) snapshot → durable w' key id = new) as Hco.
  { intros w' Hc. eapply durable_committed; [exact Hc|cbn [generation]; lia|exact Hj]. }
  eapply always_mono; [| |apply write_always].
  - intros w' [Ha|Hc]; [left|right]; auto.
  - intros w' [[]|e]; cbn [write_post]; auto.
Qed.

(** A pointer alone, over the generation already there. *)
Lemma durable_commit_pointer id key w p s j h j' b :
  durable w key id = Ok (p, s, j) →
  journal_of w key id (range_inclusive 1 h) JournalState_default = Ok j' →
  from_slice b = Some (mkPointer (generation p) h) →
  durable (set_kv <[pointer_key id := b]> w) key id = Ok (mkPointer (generation p) h, s, j').
Proof.
  intros Hd Hj Hb. destruct (durable_Ok _ _ _ _ _ _ Hd) as (_ & -> & Hs & _).
  unfold durable, pointer_of. cbn [kv set_kv]. rewrite lookup_insert_eq, Hb. simpl.
  rewrite (journal_of_agree w) by done. rewrite Hj.
  change (generation_of (set_kv ?f w) key id ?g) with (generation_of w key id g).
  destruct (Z.eqb_spec (generation p) 0); [done|]. simpl. by rewrite bool_decide_true by auto.
Qed.

Lemma write_parts_found id key w p s j prepared snapshot :
  durable w key id = Ok (p, s, j) → 0 <= generation p → 0 <= engine_head p →
  let old := Ok (p, s, j) in
  let new := Ok (next_durable p s j prepared snapshot) in
  always (λ w', durable w' key id = old ∨ durable w' key id = new)
    (λ w' r, durable w' key id = match r with Ok _ => new | Err _ => old end)
    (write_parts id key (generation p + match snapshot with Some _ => 1 | None => 0 end)
       (engine_head p + match prepared with Some _ => 1 | None => 0 end) prepared snapshot) w.
Proof.
  intros Hd Hg Hh old new. unfold write_parts, new, next_durable.
  destruct prepared as [delta|]; rewrite ?Z.add_0_r.
  - apply always_try. eapply always_mono; [| |eapply write_engine_found; [exact Hd|done..]].
    { intros w' Hw'. by left. }
    intros w' [[]|e]; [|intros (Hf & _); split; [by left|done]].
    intros (Hf & _ & _ & Hj). specialize (Hj eq_refl).
    destruct snapshot as [n|]; [by apply write_generation_found|]. rewrite Z.add_0_r.
    unfold commit_pointer. destruct (codec_roundtrip (mkPointer (generation p) (engine_head p + 1))) as (b & -> & Hb).
    apply always_pure; [done|by left|]. cbn [perform snd].
    pose proof (durable_commit_pointer _ _ _ _ _ _ _ _ _ Hf Hj Hb) as Hn.
    apply always_done; [by right|done].
  - destruct (durable_Ok _ _ _ _ _ _ Hd) as (_ & _ & _ & Hj).
    apply always_try. apply always_done; [by left|].
    destruct snapshot as [n|]; [by apply write_generation_found|]. rewrite Z.add_0_r.
    apply always_done; [by left|]. destruct p. done.
Qed.

(** [self] and the disk agree on what is committed. *)
Definition in_step (self : DeviceState) (p : Pointer) : Prop :=
  p = mkPointer (st_generation self) (st_engine_head self) ∧ 0 <= generation p ∧ 0 <= engine_head p.

Lemma touch_lease_always id key (self : DeviceState) w d (C : world → Prop) (Q : world → DeviceState * result Error unit → Prop) :
  durable w key id = d → (∀ w', durable w' key id = d → C w') →
  (∀ w' r, durable w' key id = d → row_id r = row_id (row self) → Q w' (set_row r self, Ok ())) →
  always C Q (touch_lease id self) w.
Proof.
  intros Hd HC HQ. unfold touch_lease. apply always_pure; [done|by apply HC|]. cbn [perform fst snd].
  destruct (IndexRow_encode_decode (row (set_row (set_last_used (now w) (row self)) self))) as (b & -> & _).
  apply always_pure; [done|by apply HC|]. cbn [perform fst snd].
  assert (durable (set_kv <[index_key id := b]> w) key id = d) as Hd'.
  { rewrite set_kv_other_durable; [done|apply index_pointer_ne]. }
  apply always_done; [by apply HC|]. by apply HQ.
Qed.

Lemma write_persistence_always id (self : DeviceState) key dev prepared sealed (metadata : bool) w p s j :
  durable w key id = Ok (p, s, j) → in_step self p →
  let snapshot := if metadata then Some (mkKSnapshot dev (seed self) sealed) else None in
  let new := next_durable p s j prepared snapshot in
  always (λ w', durable w' key id = Ok (p, s, j) ∨ durable w' key id = Ok new)
    (λ w' r, match r.2 with
             | Ok _ => durable w' key id = Ok new ∧ in_step r.1 new.1.1 ∧ dek r.1 = dek self ∧
                       device r.1 = device self ∧ row_id (row r.1) = row_id (row self)
             | Err _ => durable w' key id = Ok (p, s, j) ∧ r.1 = self
             end)
    (write_persistence id self key dev prepared sealed metadata) w.
Proof.
  intros Hd (-> & Hg & Hh) snapshot new. unfold write_persistence. fold snapshot.
  assert ((if metadata then 1 else 0) = match snapshot with Some _ => 1 | None => 0 end) as Hm.
  { unfold snapshot. by destruct metadata. }
  rewrite Hm. apply always_bind. pose proof (write_parts_found id key w _ s j prepared snapshot Hd Hg Hh) as HW.
  cbn [generation engine_head] in HW. eapply always_mono; [| |exact HW]; [done|].
  intros w' [[]|e] Hr; [|apply always_done; [by left|done]].
  eapply touch_lease_always; [exact Hr|by right|]. intros w2 r Hw2 Hrow. cbn [fst snd].
  split_and!; [done| |done|done|done]. unfold in_step, new, next_durable. cbn [fst generation engine_head].
  split_and!; [done| |]; cbn [generation engine_head] in *; destruct snapshot, prepared; lia.
Qed.

(** C1: A checkpoint is atomic and honest.  Start from a device whose state agrees
    with what is on disk, and let any write fail or leave a torn file, any
    removal silently do nothing, and the worker die after any call: what the
    next boot finds is exactly the old durable state or exactly the new one (the
    new snapshot, the journal with the prepared delta).  A [persist] that
    answered [Ok] has the new one, scheduled the store sync and left the state in
    step with the disk; one that answered an error has the old one, an unchanged
    state and scheduled nothing. *)
Theorem persist_atomic id context (self : DeviceState) key dev prepared sealed (metadata : bool) w p s j stuck faults budget w' r :
  dek self = Some key → device self = Some dev →
  durable w key id = Ok (p, s, j) → in_step self p →
  run stuck faults budget w (persist id context self prepared sealed metadata) = (w', r) →
  let new := next_durable p s j prepared (if metadata then Some (mkKSnapshot dev (seed self) sealed) else None) in
  (durable w' key id = Ok (p, s, j) ∨ durable w' key id = Ok new) ∧
  match r with
  | None => True
  | Some (self', Ok _, scheduled) =>
    durable w' key id = Ok new ∧ in_step self' new.1.1 ∧ dek self' = Some key ∧ device self' = Some dev ∧
    scheduled = true ∧ open self = Ok () ∧ adopting context = false
  | Some (self', Err _, scheduled) => durable w' key id = Ok (p, s, j) ∧ self' = self ∧ scheduled = false
  end.
Proof.
  intros Hkey Hdev Hd Hstep Hrun new. revert Hrun. unfold persist.
  destruct (open self) as [[]|e] eqn:Hopen.
  2: { destruct budget; intros [= <- <-]; auto. }
  destruct (adopting context) eqn:Had.
  { destruct budget; intros [= <- <-]; auto. }
  rewrite Hkey, Hdev. intros Hrun.
  eapply (always_run (λ w', durable w' key id = Ok (p, s, j) ∨ durable w' key id = Ok new)
    (λ w' r, match r with
      | (self', Ok _, scheduled) =>
        durable w' key id = Ok new ∧ in_step self' new.1.1 ∧ dek self' = Some key ∧ device self' = Some dev ∧
        scheduled = true ∧ open self = Ok () ∧ adopting context = false
      | (self', Err _, scheduled) => durable w' key id = Ok (p, s, j) ∧ self' = self ∧ scheduled = false
      end)) in Hrun as [HC HQ].
  - split; [exact HC|]. destruct r as [[[self' [u|e]] b]|]; [| |done]; specialize (HQ _ eq_refl); cbn in HQ; [|exact HQ].
    by rewrite Hopen, Had in HQ.
  - apply always_bind. eapply always_mono; [| |by eapply write_persistence_always]; [done|].
    intros w2 [self' [[]|e]] HH; cbn [fst snd] in HH.
    + destruct HH as (H1 & H2 & H3 & H4 & _). apply always_done; [by right|].
      split_and!; try done; congruence.
    + destruct HH as [H1 ->]. apply always_done; [by left|done].
Qed.
End Persist.
Arguments DeviceState _ _ : clear implicits.

(** ** A first checkpoint *)
Section Concrete.
Import Toy.
Definition key1 : Dek := mkDek (be_bytes 32 5).
Definition world1 : world := World ∅ ∅ (λ i, byte_of (Z.of_nat i)) 0 0 ∅.
Definition device1 : Device := mkDevice "able" None 10 Meta_default.
Definition self1 : DeviceState unit unit :=
  mkState (IndexRow_fresh "dev-1" 0) (Some key1) None (Some device1) (be_bytes 32 8) None None 0 0 false.
Definition delta1 : EngineDelta unit := mkDelta (mkControl ["tasks"%string] None None) [].

Lemma persist_atomic_witness :
  ∃ w' r, run (λ _, false) [Lands; Lands; Dies (Some [])] 100 world1
    (persist (VaultState := unit) (DriveSealed := unit) "dev-1" (mkContext 0 false) self1 (Some delta1) None true) = (w', r) ∧
  (durable (VaultState := unit) (DriveSealed := unit) w' key1 "dev-1" = Ok (Pointer_default, None, JournalState_default) ∨
   durable (VaultState := unit) (DriveSealed := unit) w' key1 "dev-1" = Ok (mkPointer 1 1, Some (reread (mkKSnapshot (DriveSealed := unit) device1 (be_bytes 32 8) None)),
                                 apply JournalState_default delta1)).
Proof.
  destruct (run (λ _, false) [Lands; Lands; Dies (Some [])] 100 world1
    (persist (VaultState := unit) (DriveSealed := unit) "dev-1" (mkContext 0 false) self1 (Some delta1) None true)) as [w' r] eqn:E.
  exists w', r. split; [reflexivity|].
  apply (persist_atomic "dev-1" (mkContext 0 false) self1 key1 device1 (Some delta1) None true world1
    Pointer_default None JournalState_default (λ _, false) [Lands; Lands; Dies (Some [])] 100%nat w' r);
    [reflexivity|reflexivity|reflexivity|repeat split; discriminate|exact E].
Defined.
End Concrete.
