(* ===== verification/Store.v ===== *)
(** * The device index and the sweep ([runtime/crates/kernel/src/store.rs])

    What a boot lists, what it destroys, and that it destroys nothing else. *)
From S2P Require Import Prelude BTree IO Crypto Error Text Device Checkpoint.

Definition LEASE_TTL_MS : Z := 2 * 60 * 1000.
Definition lock_name (id : string) : string := "pm-device-" +:+ id.

(** A [Vec<String>] sorted: duplicates kept, equal strings are equal. *)
Definition sort_strings (l : list string) : list string := merge_sort key_le l.

Section Store.
Context {cr : Codec IndexRow} {cp : Codec Pointer}.

Fixpoint read_rows (keys : list string) : prog (list IndexRow) :=
  match keys with
  | [] => Done []
  | key :: keys =>
    b ← call (KvGet key);
    rows ← read_rows keys;
    mret (match (b ← b; ok (IndexRow_decode b)) with Some row => row :: rows | None => rows end)
  end.

Definition rows : prog (list IndexRow) :=
  keys ← call (KvKeys INDEX_PREFIX);
  read_rows (sort_strings keys).

Definition store_destroy (id : string) : prog (result Error unit) :=
  p ←? pointer id;
  _ ← destroy id (default Pointer_default p);
  keys ← call (KvKeys (dev_prefix id));
  _ ← for_each keys (λ key, call (KvDelete key));
  _ ← call (KvDelete (index_key id));
  Done (Ok ()).

(** The loop of [sweep]; its first error ends it. *)
Fixpoint sweep_rows (ours : string) (now : Z) (l : list IndexRow) : prog (result Error (list string)) :=
  match l with
  | [] => Done (Ok [])
  | row :: l =>
    if bool_decide (row_id row = ours) || negb (bool_decide (row_tier row = Ephemeral))
    then sweep_rows ours now l else
    if saturating_sub now (last_used row) <=? LEASE_TTL_MS then sweep_rows ours now l else
    held ← call (IsHeld (lock_name (row_id row)));
    if (held : bool) then sweep_rows ours now l else
    _ ←? store_destroy (row_id row);
    swept ←? sweep_rows ours now l;
    Done (Ok (row_id row :: swept))
  end.

Definition sweep (ours : string) (now : Z) : prog (result Error (list string)) :=
  l ← rows;
  sweep_rows ours now l.

(** ** What a program may touch

    [plausible L e x]: what a call can answer in a world whose locks are [L]. *)
Definition plausible (L : gset string) {X} (e : eff X) (x : X) : Prop :=
  match e in eff X return X → Prop with
  | KvKeys p => λ x, Forall (λ s, has_prefix p s = true) x
  | IsHeld n => λ x, x = bool_decide (n ∈ L)
  | _ => λ _, True
  end x.

Section Confined.
Context (L : gset string) (may_kv may_file : string → Prop).

Fixpoint confined {A} (p : prog A) : Prop :=
  match p with
  | Done _ => True
  | Call e k =>
    match e with
    | KvSet key _ | KvDelete key => may_kv key
    | FileWrite path _ | FileRemove path => may_file path
    | _ => True
    end ∧ ∀ x, plausible L e x → confined (k x)
  end.

Lemma confined_bind {A B} (p : prog A) (f : A → prog B) :
  confined p → (∀ a, confined (f a)) → confined (p ≫= f).
Proof.
  induction p as [a|X e k IH]; intros HC Hf; [apply Hf|]. destruct HC as [H1 H2].
  split; [done|]. intros x Hx. by apply IH; [apply H2|].
Qed.

Lemma confined_for_each {A} (l : list A) (body : A → prog unit) :
  Forall (λ x, confined (body x)) l → confined (for_each l body).
Proof. induction 1 as [|x l Hx Hl IH]; [done|]. apply confined_bind; [done|]. by intros []. Qed.

(** A confined program leaves everything else as it was, at every crash point. *)
Lemma confined_run {A} (p : prog A) stuck faults budget w w' r :
  confined p → locks w = L → run stuck faults budget w p = (w', r) →
  (∀ key, ¬ may_kv key → kv w' !! key = kv w !! key) ∧
  (∀ path, ¬ may_file path → fs w' !! path = fs w !! path).
Proof.
  revert w faults budget. induction p as [a|X e k IH]; intros w faults budget Hc HL Hr.
  { destruct budget; simpl in Hr; by simplify_eq. }
  destruct budget as [|budget]; simpl in Hr; [by simplify_eq|]. destruct Hc as [H1 H2].
  assert (∀ x w1 fl, plausible L e x → locks w1 = L → (∀ key, ¬ may_kv key → kv w1 !! key = kv w !! key) →
    (∀ path, ¬ may_file path → fs w1 !! path = fs w !! path) →
    run stuck fl budget w1 (k x) = (w', r) →
    (∀ key, ¬ may_kv key → kv w' !! key = kv w !! key) ∧
    (∀ path, ¬ may_file path → fs w' !! path = fs w !! path)) as Hnext.
  { intros x w1 fl Hx HL1 Hk Hf Hrx. destruct (IH x w1 fl budget (H2 x Hx) HL1 Hrx) as [HA HB].
    split; intros; [rewrite HA, Hk|rewrite HB, Hf]; done. }
  destruct e; simpl in Hr, H1; try (by eapply Hnext; [| | | |exact Hr]).
  - eapply Hnext; [| | | |exact Hr]; try done. intros q Hq. simpl. rewrite lookup_insert_ne; naive_solver.
  - eapply Hnext; [| | | |exact Hr]; try done. intros q Hq. simpl. rewrite lookup_delete_ne; naive_solver.
  - eapply Hnext; [| | | |exact Hr]; try done. simpl. apply Forall_forall.
    by intros q [? _]%list_elem_of_filter.
  - destruct faults as [|[|l|l] faults].
    1-3: eapply Hnext; [| | | |exact Hr]; try done; intros q Hq; simpl;
      rewrite ?lookup_insert_ne, ?lookup_partial_alter_ne; naive_solver.
    simplify_eq. split; [done|]. intros q Hq. simpl. rewrite lookup_partial_alter_ne; naive_solver.
  - eapply Hnext; [| | | |exact Hr]; try done; destruct (stuck path); try done. intros q Hq. simpl.
    rewrite lookup_delete_ne; naive_solver.
  - eapply Hnext; [| | | |exact Hr]; try done. simpl. by rewrite HL.
Qed.
End Confined.

Lemma confined_mono L (P P' F F' : string → Prop) {A} (p : prog A) :
  (∀ k, P k → P' k) → (∀ k, F k → F' k) → confined L P F p → confined L P' F' p.
Proof.
  intros HP HF. induction p as [a|X e k IH]; [done|]. intros [H1 H2]. split; [|eauto].
  destruct e; eauto.
Qed.

(** The same as a safety predicate: everything outside is kept throughout. *)
Definition kept (P F : string → Prop) (w w' : world) : Prop :=
  (∀ key, ¬ P key → kv w' !! key = kv w !! key) ∧
  (∀ path, ¬ F path → fs w' !! path = fs w !! path).

Lemma kept_trans (P F : string → Prop) w1 w2 w3 : kept P F w1 w2 → kept P F w2 w3 → kept P F w1 w3.
Proof. intros [H1 H2] [H3 H4]. split; intros x Hx; [rewrite H3, H1|rewrite H4, H2]; done. Qed.

Lemma confined_always {A} P F (p : prog A) w :
  (∀ L, confined L P F p) → always (kept P F w) (λ w' _, kept P F w w') p w.
Proof.
  intros Hp. specialize (Hp (locks w)).
  cut (∀ w1, kept P F w w1 → locks w1 = locks w → always (kept P F w) (λ w' _, kept P F w w') p w1).
  { intros HH. by apply HH. }
  induction p as [a|X e k IH]; intros w1 Hk HL; [done|].
  destruct Hp as [H1 H2]. split; [done|].
  destruct e; simpl in *.
  all: try (apply IH; by auto).
  - apply IH; [auto| |done]. eapply kept_trans; [exact Hk|]. split; [|done]. intros q Hq. simpl.
    rewrite lookup_insert_ne; naive_solver.
  - apply IH; [auto| |done]. eapply kept_trans; [exact Hk|]. split; [|done]. intros q Hq. simpl.
    rewrite lookup_delete_ne; naive_solver.
  - apply IH; [|done|done]. apply H2, Forall_forall. by intros q [? _]%list_elem_of_filter.
  - assert (∀ l, kept P F w (leave path l w1)) as Hl.
    { intros l. eapply kept_trans; [exact Hk|]. split; [done|]. intros q Hq. simpl.
      rewrite lookup_partial_alter_ne; naive_solver. }
    split; [|intros l; split; [apply IH|]; auto]. apply IH; [auto| |done].
    eapply kept_trans; [exact Hk|]. split; [done|]. intros q Hq. simpl. rewrite lookup_insert_ne; naive_solver.
  - split; apply IH; auto. eapply kept_trans; [exact Hk|]. split; [done|]. intros q Hq. simpl.
    rewrite lookup_delete_ne; naive_solver.
  - apply IH; [|done|done]. apply H2. by rewrite HL.
Qed.

(** Running past a program that only reads. *)
Lemma run_reads_only {A B} (p : prog A) (f : A → prog B) stuck faults budget w w' r :
  reads_only p → run stuck faults budget w (p ≫= f) = (w', r) →
  (w' = w ∧ r = None) ∨ ∃ budget', run stuck faults budget' w (f (answer w p)) = (w', r).
Proof.
  revert budget. induction p as [a|X e k IH]; intros budget Hp Hr; [by right; exists budget|].
  destruct budget as [|budget]; simpl in Hr; [left; by simplify_eq|].
  destruct e; simpl in Hp; try done; simpl in Hr; by eapply IH in Hr.
Qed.

(** ** A device's own names *)
Definition device_key (id key : string) : Prop := key = index_key id ∨ ∃ t, key = dev_prefix id +:+ t.
Definition device_file (id path : string) : Prop := ∃ t, path = "/" +:+ id +:+ "/" +:+ t.
(** Device ids are random UUIDs: no slash. *)
Definition plain_id (id : string) : Prop := byte_of 47 ∉ as_bytes id.

Lemma prefix_split p s : String.prefix p s = true → ∃ t, s = p +:+ t.
Proof.
  revert s. induction p as [|c p IH]; intros s Hp; [by exists s|].
  destruct s as [|d s]; simpl in Hp; [done|]. destruct (Ascii.ascii_dec c d) as [->|]; [|done].
  destruct (IH s Hp) as [t ->]. by exists t.
Qed.

Lemma slash_split (l k t u : bytes) x : x ∉ l → x ∉ k → l ++ x :: t = k ++ x :: u → l = k.
Proof.
  revert k. induction l as [|a l IH]; intros [|b k] Hl Hk E; simplify_eq/=; try done.
  - set_solver.
  - set_solver.
  - f_equal. apply IH; set_solver.
Qed.

Lemma device_key_inj id id' key :
  plain_id id → plain_id id' → device_key id key → device_key id' key → id = id'.
Proof.
  intros Hi Hi' [->|[t ->]] [E|[u E]]; unfold index_key, dev_prefix in E.
  - by apply str_app_inj_l in E.
  - done.
  - done.
  - apply (f_equal as_bytes) in E. rewrite !as_bytes_app in E. rewrite <- !app_assoc in E.
    apply app_inv_head in E. apply as_bytes_inj. by eapply (slash_split _ _ _ _ (byte_of 47)) in E.
Qed.

Lemma device_file_inj id id' path :
  plain_id id → plain_id id' → device_file id path → device_file id' path → id = id'.
Proof.
  intros Hi Hi' [t ->] [u E]. apply (f_equal as_bytes) in E. rewrite !as_bytes_app in E.
  apply app_inv_head in E. apply as_bytes_inj. by eapply (slash_split _ _ _ _ (byte_of 47)) in E.
Qed.

Lemma state_path_device id g : device_file id (state_path id g).
Proof. exists ("gen-" +:+ pretty g +:+ "/state"). apply as_bytes_inj. unfold state_path, gen_dir. by rewrite !as_bytes_app, <- !app_assoc. Qed.
Lemma manifest_path_device id g : device_file id (manifest_path id g).
Proof. exists ("gen-" +:+ pretty g +:+ "/MANIFEST"). apply as_bytes_inj. unfold manifest_path, gen_dir. by rewrite !as_bytes_app, <- !app_assoc. Qed.
Lemma journal_path_device id n : device_file id (journal_path id n).
Proof. exists ("engine/" +:+ pretty n). apply as_bytes_inj. unfold journal_path. by rewrite !as_bytes_app. Qed.

Lemma store_destroy_confined L id : confined L (device_key id) (device_file id) (store_destroy id).
Proof.
  apply confined_bind; [by split|]. intros [p|e]; [|done].
  assert (∀ g, confined L (device_key id) (device_file id) (remove_generation id g)) as Hg.
  { intros g. split; [apply manifest_path_device|]. intros ? _. split; [apply state_path_device|done]. }
  apply confined_bind.
  { apply confined_bind.
    - apply confined_bind; [|done]. apply confined_for_each, Forall_forall. intros n _.
      split; [apply journal_path_device|done].
    - intros ?. apply confined_bind; [|done]. apply confined_for_each, Forall_forall. intros n _.
      cbv beta zeta. case_match; [apply Hg|done]. }
  intros ?. split; [done|]. intros keys Hkeys. simpl in Hkeys.
  cbn [prog_bind_]. apply (confined_bind L _ _ (for_each keys _)).
  - apply confined_for_each. eapply Forall_impl; [exact Hkeys|]. intros key Hk%prefix_split.
    split; [by right|done].
  - intros ?. split; [by left|done].
Qed.

(** ** The sweep *)

(** What [sweep] may destroy: an ephemeral device, not ours, whose lease is stale
    and whose lock is free. *)
Definition victim (ours : string) (now : Z) (L : gset string) (row : IndexRow) : Prop :=
  row_id row ≠ ours ∧ row_tier row = Ephemeral ∧ LEASE_TTL_MS < saturating_sub now (last_used row) ∧
  lock_name (row_id row) ∉ L.

Lemma sweep_rows_confined L ours now l :
  confined L (λ key, ∃ row, row ∈ l ∧ victim ours now L row ∧ device_key (row_id row) key)
    (λ path, ∃ row, row ∈ l ∧ victim ours now L row ∧ device_file (row_id row) path)
    (sweep_rows ours now l).
Proof.
  induction l as [|row l IH]; [done|]. simpl.
  assert (confined L (λ key, ∃ r, r ∈ row :: l ∧ victim ours now L r ∧ device_key (row_id r) key)
    (λ path, ∃ r, r ∈ row :: l ∧ victim ours now L r ∧ device_file (row_id r) path)
    (sweep_rows ours now l)) as Hrest.
  { eapply confined_mono; [| |exact IH]; intros k (r & Hr & HH); exists r; split; (by right) || done. }
  destruct (bool_decide (row_id row = ours)) eqn:E1; [done|].
  destruct (bool_decide (row_tier row = Ephemeral)) eqn:E2; [|done].
  destruct (Z.leb_spec (saturating_sub now (last_used row)) LEASE_TTL_MS) as [|E3]; [done|]. simpl.
  split; [done|]. intros held Hheld. simpl in Hheld. subst held. cbn [prog_bind_].
  destruct (bool_decide (lock_name (row_id row) ∈ L)) eqn:E4; [exact Hrest|].
  apply bool_decide_eq_false in E4.
  apply bool_decide_eq_false in E1. apply bool_decide_eq_true in E2.
  apply confined_bind.
  - eapply confined_mono; [| |apply store_destroy_confined]; intros k Hk; exists row; (split; [left|done]).
  - intros [[]|e]; [|done]. apply confined_bind; [done|]. by intros [].
Qed.

Lemma reads_only_read_rows l : reads_only (read_rows l).
Proof.
  induction l as [|k l IH]; [done|]. intros b. cbn [prog_bind_ call].
  by apply (reads_only_bind (read_rows l)).
Qed.

Lemma reads_only_rows : reads_only rows.
Proof. intros keys. cbn [prog_bind_ call]. apply reads_only_read_rows. Qed.

Lemma answer_read_rows w k l :
  answer w (read_rows (k :: l)) =
  match (b ← kv w !! k; ok (IndexRow_decode b)) with
  | Some row => row :: answer w (read_rows l)
  | None => answer w (read_rows l)
  end.
Proof.
  cbn [read_rows]. rewrite answer_bind by done.
  change (answer w (call (KvGet k))) with (kv w !! k).
  rewrite answer_bind by apply reads_only_read_rows. done.
Qed.

(** Every row listed is one the index holds. *)
Lemma answer_rows w row :
  row ∈ answer w rows →
  ∃ key b, has_prefix INDEX_PREFIX key = true ∧ kv w !! key = Some b ∧ IndexRow_decode b = Ok row.
Proof.
  assert (∀ l, row ∈ answer w (read_rows l) →
    ∃ key b, key ∈ l ∧ kv w !! key = Some b ∧ IndexRow_decode b = Ok row) as Hr.
  { induction l as [|k l IH]; [by intros X%elem_of_nil|]. rewrite answer_read_rows.
    assert (row ∈ answer w (read_rows l) →
      ∃ key b, key ∈ k :: l ∧ kv w !! key = Some b ∧ IndexRow_decode b = Ok row) as Hl.
    { intros (key & b & ? & ?)%IH. exists key, b. split; [by right|done]. }
    destruct (kv w !! k) as [b|] eqn:Hk; [|exact Hl]. cbn [mbind option_bind].
    destruct (IndexRow_decode b) as [r|e] eqn:Hd; [|exact Hl]. cbn [ok].
    intros [->|Hin]%elem_of_cons; [exists k, b; split; [left|done]|by apply Hl]. }
  unfold rows. rewrite answer_bind by done. intros (key & b & Hin & Hb & Hd)%Hr.
  exists key, b. split_and!; try done. unfold sort_strings in Hin.
  rewrite merge_sort_Permutation in Hin.
  change (answer w (call (KvKeys INDEX_PREFIX))) with
    (filter (λ k, has_prefix INDEX_PREFIX k = true) (map_to_list (kv w)).*1) in Hin.
  by apply list_elem_of_filter in Hin as [? _].
Qed.

(** The sweep spares every device it must.  Take any device with a plain id
    that is our own, or whose lock is held, or whose index row is durable or has
    a fresh lease (a row stamped in the future reads as fresh), or that has no
    row; then whatever fails and wherever the worker dies, no key of its index
    row or of its small records and no file of its namespace has changed. *)
Theorem sweep_spares ours now w id stuck faults budget w' r :
  (∀ key b row, has_prefix INDEX_PREFIX key = true → kv w !! key = Some b → IndexRow_decode b = Ok row →
     key = index_key (row_id row) ∧ plain_id (row_id row)) →
  plain_id id →
  (id = ours ∨ lock_name id ∈ locks w ∨
   ∀ b row, kv w !! index_key id = Some b → IndexRow_decode b = Ok row →
     row_tier row = Durable ∨ saturating_sub now (last_used row) <= LEASE_TTL_MS) →
  run stuck faults budget w (sweep ours now) = (w', r) →
  (∀ key, device_key id key → kv w' !! key = kv w !! key) ∧
  (∀ path, device_file id path → fs w' !! path = fs w !! path).
Proof.
  intros Hfiled Hplain Hspared Hrun. unfold sweep in Hrun.
  apply run_reads_only in Hrun as [[-> ->]|[budget' Hrun]]; [done| |apply reads_only_rows].
  pose proof (confined_run _ _ _ _ _ _ _ _ _ _ (sweep_rows_confined (locks w) ours now (answer w rows))
    eq_refl Hrun) as [Hk Hf].
  assert (∀ row, row ∈ answer w rows → victim ours now (locks w) row → row_id row ≠ id) as Hno.
  { intros row Hin (V1 & V2 & V3 & V4) <-. apply answer_rows in Hin as (key & b & Hp & Hb & Hd).
    destruct (Hfiled key b row Hp Hb Hd) as [-> _].
    destruct Hspared as [|[|HX]]; [done|done|]. destruct (HX b row Hb Hd); [congruence|lia]. }
  assert (∀ row, row ∈ answer w rows → plain_id (row_id row)) as Hpl.
  { intros row (key & b & Hp & Hb & Hd)%answer_rows. by eapply Hfiled. }
  split; intros x Hx; [apply Hk|apply Hf]; intros (row & Hin & Hv & Hx'); eapply Hno; try done.
  - symmetry. eapply device_key_inj; eauto.
  - symmetry. eapply device_file_inj; eauto.
Qed.

(** ** Destroying a device *)

(** [removes P w w']: the files [P] names are gone, and nothing else changed. *)
Definition removes (P : string → Prop) (w w' : world) : Prop :=
  kv w' = kv w ∧ ∀ path, (P path → fs w' !! path = None) ∧ (¬ P path → fs w' !! path = fs w !! path).

(** A program that, left alone, removes exactly [P]. *)
Definition clears (P : string → Prop) (p : prog unit) : Prop := ∀ w, removes P w (exec w p).1.

Lemma clears_none : clears (λ _, False) (Done ()).
Proof. done. Qed.

Lemma clears_dir path : clears (λ _, False) (call (DirRemove path)).
Proof. done. Qed.

Lemma clears_ext P Q p : (∀ x, P x ↔ Q x) → clears P p → clears Q p.
Proof.
  intros HPQ Hc w. destruct (Hc w) as [H1 H2]. split; [done|]. intros path. destruct (H2 path) as [H3 H4].
  split; intros; [apply H3|apply H4]; naive_solver.
Qed.

Lemma clears_bind P Q (p : prog unit) (f : unit → prog unit) :
  clears P p → (∀ u, clears Q (f u)) → clears (λ x, P x ∨ Q x) (p ≫= f).
Proof.
  intros Hp Hf w. rewrite exec_bind. specialize (Hp w). destruct (exec w p) as [w1 u].
  specialize (Hf u w1). destruct (exec w1 (f u)) as [w' u']. cbn [fst] in *. destruct Hp as [H1 H2], Hf as [H3 H4].
  split; [congruence|].
  intros path. destruct (H2 path) as [H5 H6], (H4 path) as [H7 H8]. cbn [fst] in *. split.
  - intros [HP|HQ]; [|by apply H7]. destruct (fs w' !! path) as [b|] eqn:E; [|done].
    exfalso. assert (¬ Q path) as HQ by (intros HQ; specialize (H7 HQ); congruence).
    specialize (H8 HQ). specialize (H5 HP). congruence.
  - intros HPQ. rewrite H8 by naive_solver. apply H6. naive_solver.
Qed.

Lemma clears_remove path : clears (λ x, x = path) (call (FileRemove path)).
Proof.
  intros w. split; [done|]. intros q. simpl. split.
  - intros ->. apply lookup_delete_eq.
  - intros ?. by apply lookup_delete_ne.
Qed.

Lemma clears_for_each {A} (l : list A) (body : A → prog unit) (P : A → list string) :
  (∀ x, x ∈ l → clears (λ path, path ∈ P x) (body x)) →
  clears (λ path, path ∈ l ≫= P) (for_each l body).
Proof.
  induction l as [|x l IH]; intros Hb.
  - eapply clears_ext; [|apply clears_none]. intros path. split; [done|]. by intros ?%elem_of_nil.
  - apply (clears_ext (λ path, path ∈ P x ∨ path ∈ l ≫= P)).
    + intros path. cbn [mbind list_bind]. by rewrite elem_of_app.
    + cbn [for_each]. apply (clears_bind (λ path, path ∈ P x) (λ path, path ∈ l ≫= P)).
      * refine (Hb x _). by left.
      * intros ?. apply IH. intros y Hy. refine (Hb y _). by right.
Qed.

(** The files [destroy] reaches from a pointer. *)
Definition generation_files (id : string) (g : Z) : list string :=
  if 0 <? g then [manifest_path id g; state_path id g] else [].
Definition reach (id : string) (p : Pointer) : list string :=
  (journal_path id <$> range_inclusive 1 (saturating_add 64 (engine_head p) 1)) ++
  (range_inclusive 0 3 ≫= λ back, generation_files id (saturating_sub (generation p + 1) back)).

Lemma destroy_clears id p : clears (λ path, path ∈ reach id p) (destroy id p).
Proof.
  set (js := range_inclusive 1 (saturating_add 64 (engine_head p) 1)).
  set (gens := range_inclusive 0 3 ≫= λ back, generation_files id (saturating_sub (generation p + 1) back)).
  apply (clears_ext (λ path, (path ∈ js ≫= (λ n, [journal_path id n]) ∨ False) ∨ (path ∈ gens ∨ False))).
  - intros path. unfold reach. fold js gens. rewrite elem_of_app, list_elem_of_fmap, list_elem_of_bind.
    set_solver.
  - unfold destroy. apply clears_bind.
    + unfold destroy_engine. fold js. apply clears_bind; [|intros; apply clears_dir].
      apply clears_for_each. intros n _.
      eapply clears_ext; [|apply clears_remove]. intros x. set_solver.
    + intros ?. apply clears_bind; [|intros; apply clears_dir]. apply clears_for_each. intros back _.
      unfold generation_files. cbv beta zeta. destruct (0 <? saturating_sub (generation p + 1) back).
      * unfold remove_generation.
        apply (clears_ext (λ x, x = manifest_path id (saturating_sub (generation p + 1) back) ∨
           (x = state_path id (saturating_sub (generation p + 1) back) ∨ False))); [intros x; set_solver|].
        apply clears_bind; [apply clears_remove|]. intros ?.
        apply clears_bind; [apply clears_remove|intros; apply clears_dir].
      * eapply clears_ext; [|apply clears_none]. intros x. set_solver.
Qed.

Lemma exec_kv_deletes w keys :
  exec w (for_each keys (λ key, call (KvDelete key))) = (set_kv (λ m, foldl (λ m k, delete k m) m keys) w, ()).
Proof.
  revert w. induction keys as [|k keys IH]; intros w; [by destruct w|]. cbn [for_each].
  rewrite exec_bind. cbn [exec perform call]. rewrite IH. done.
Qed.

Lemma lookup_deletes (m : gmap string bytes) keys key :
  foldl (λ m k, delete k m) m keys !! key = if decide (key ∈ keys) then None else m !! key.
Proof.
  revert m. induction keys as [|k keys IH]; intros m; cbn [foldl].
  { by rewrite decide_False by apply not_elem_of_nil. }
  rewrite IH. destruct (decide (k = key)) as [->|Hne].
  - rewrite lookup_delete_eq. rewrite (decide_True _ _ (P := key ∈ key :: keys)) by left. by case_decide.
  - rewrite lookup_delete_ne by done. apply decide_ext. rewrite elem_of_cons. naive_solver.
Qed.

(** Destroying a device leaves nothing of it and touches nothing else.  With a
    readable pointer (or none), undisturbed: no key of its index row or small
    records remains; every file within reach of the pointer (the journal to one
    past the head, the generations from one past the pointer to two before it)
    is gone; and every other key and file is as it was.  With an unreadable
    pointer it refuses and changes nothing. *)
Theorem destroy_exact id w :
  match pointer_of w id with
  | Err e => exec w (store_destroy id) = (w, Err e)
  | Ok p =>
    let w' := (exec w (store_destroy id)).1 in
    (exec w (store_destroy id)).2 = Ok () ∧
    (∀ key, device_key id key → kv w' !! key = None) ∧
    (∀ key, ¬ device_key id key → kv w' !! key = kv w !! key) ∧
    (∀ path, path ∈ reach id (default Pointer_default p) → fs w' !! path = None) ∧
    (∀ path, path ∉ reach id (default Pointer_default p) → fs w' !! path = fs w !! path)
  end.
Proof.
  unfold store_destroy, try. rewrite exec_bind.
  change (exec w (pointer id)) with (w, pointer_of w id). cbv beta iota.
  destruct (pointer_of w id) as [p|e]; [|done]. rewrite exec_bind.
  pose proof (destroy_clears id (default Pointer_default p) w) as [H1 H2].
  destruct (exec w (destroy id (default Pointer_default p))) as [w1 u1]. cbn [fst] in *.
  rewrite exec_bind. cbn [exec perform call]. rewrite exec_bind, exec_kv_deletes. cbn [exec perform call mbind prog_bind prog_bind_ fst snd].
  set (keys := filter _ _). split_and!; [done| | | |].
  - intros key Hkey. cbn [kv set_kv]. destruct (decide (key = index_key id)) as [->|Hne]; [apply lookup_delete_eq|].
    rewrite lookup_delete_ne, lookup_deletes by done. case_decide as Hin; [done|].
    destruct Hkey as [|[t ->]]; [done|]. destruct (kv w1 !! (dev_prefix id +:+ t)) as [b|] eqn:Hb; [|done].
    destruct Hin. apply list_elem_of_filter. split.
    + clear. unfold has_prefix. induction (dev_prefix id) as [|c s IH]; [by destruct t|]. simpl.
      by destruct (Ascii.ascii_dec c c).
    + apply list_elem_of_fmap. exists (dev_prefix id +:+ t, b). split; [done|]. by apply elem_of_map_to_list.
  - intros key Hkey. cbn [kv set_kv]. rewrite lookup_delete_ne by (intros E; apply Hkey; by left).
    rewrite lookup_deletes, H1. case_decide as Hin; [|done]. destruct Hkey. right.
    apply list_elem_of_filter in Hin as [Hp _]. by apply prefix_split.
  - intros path Hp. by apply H2.
  - intros path Hp. by apply H2.
Qed.
End Store.

(** ** A concrete sweep: a stale neighbour goes, ours stays *)
Section Concrete.
Import Toy.
Definition old_row : IndexRow := IndexRow_fresh "other" 0.
Definition world2 : world :=
  World {[ index_key "other" := default [] (to_vec old_row); dev_prefix "ours" +:+ "dek" := [byte_of 1] ]}
    {[ state_path "ours" 1 := [byte_of 2] ]} (λ _, byte_of 0) 0 1000000 ∅.

Lemma sweep_spares_witness :
  ∃ w' r, run (λ _, false) [] 100 world2 (sweep "ours" 1000000) = (w', r) ∧
    r = Some (Ok ["other"%string]) ∧
    kv w' !! (dev_prefix "ours" +:+ "dek") = Some [byte_of 1] ∧
    fs w' !! state_path "ours" 1 = Some [byte_of 2].
Proof.
  assert ((run (λ _, false) [] 100 world2 (sweep "ours" 1000000)).2 = Some (Ok ["other"%string])) as Hr
    by (vm_compute; reflexivity).
  destruct (run (λ _, false) [] 100 world2 (sweep "ours" 1000000)) as [w' r] eqn:E.
  exists w', r. split; [reflexivity|]. split; [exact Hr|].
  assert (plain_id "ours") as Hp by by apply (bool_decide_unpack _).
  destruct (sweep_spares "ours" 1000000 world2 "ours" (λ _, false) [] 100%nat w' r) as [Hk Hf].
  - intros key b row Hpre Hb Hd. unfold world2 in Hb. cbn [kv] in Hb.
    apply lookup_insert_Some in Hb as [[<- <-]|[_ [<- <-]%lookup_singleton_Some]].
    + vm_compute in Hd. injection Hd as <-. split; [reflexivity|by apply (bool_decide_unpack _)].
    + vm_compute in Hpre. discriminate.
  - exact Hp.
  - by left.
  - exact E.
  - split; [rewrite Hk; [reflexivity|right; by exists "dek"]|rewrite Hf; [reflexivity|apply state_path_device]].
Defined.
End Concrete.
