(* ===== verification/Boot.v ===== *)
(** * Bringing a device up, keeping it, unsealing and erasing it
      ([runtime/crates/kernel/src/lib.rs])

    [mint], [resume], [open_or_mint], [keep], [unseal] and [erase] as programs.
    The theorems say at which points a crash or a failed write leaves a device
    that still opens, and exhibit the one sequence that does not. *)
From S2P Require Import Prelude IO Crypto Error Text Seal Device Storage Journal Checkpoint Store Persist.
From S2P Require Snapshot.

Section Boot.
Context {VaultState DriveSealed : Type} (WORD_LIST : list string).
Context {aead : Aead} {argon : Argon2} {sha : Sha256} {cr : Codec IndexRow} {cp : Codec Pointer}
        {cm : Codec ManifestJson} {cw : Codec WrappedDek} {ck : Codec (KJson DriveSealed)}
        {cd : Codec (EngineDelta VaultState)}.

Abbreviation DeviceState := (Persist.DeviceState VaultState DriveSealed).
Abbreviation KSnapshot := (Checkpoint.KSnapshot DriveSealed).

(** Draw an anchor and commit it as generation 1, answering the generation that
    landed. *)
Definition mint_anchor (id : string) (key : Dek) : prog (KSnapshot * Z) :=
  device ← Device_mint WORD_LIST;
  seed ← call (Fill 32);
  let snapshot := mkKSnapshot device seed None in
  committed ← write key id 1 0 snapshot;
  mret (snapshot, if is_ok committed then 1 else 0).

Definition mint (id : string) (now : Z) : prog (result Error DeviceState) :=
  key ← Dek_mint;
  _ ← call (KvSet (dek_key_ id) (dek_key key));
  let row := IndexRow_fresh id now in
  match IndexRow_encode row with
  | Err e => Done (Err e)
  | Ok b =>
    _ ← call (KvSet (index_key id) b);
    '(snapshot, generation) ← mint_anchor id key;
    Done (Ok (mkState row (Some key) None (Some (k_device snapshot)) (k_seed snapshot) None
                (k_storage snapshot) generation 0 false))
  end.

Definition open_or_mint (id : string) (key : Dek) (tier : Tier) (generation : Z) (snapshot : option KSnapshot)
  : prog (result Error (KSnapshot * Z)) :=
  match snapshot with
  | Some snapshot => Done (Ok (snapshot, generation))
  | None =>
    if bool_decide (tier = Ephemeral) && (generation =? 0)
    then r ← mint_anchor id key; Done (Ok r)
    else Done (Err (Error_new Failed "this device's state did not open"))
  end.

Definition zero_seed : bytes := replicate 32 (byte_of 0).

Definition resume (id : string) (row : IndexRow) (now : Z) : prog (result Error DeviceState) :=
  let row := set_last_used now row in
  match row_rest row with
  | Passphrase =>
    b ← call (KvGet (dek_wrapped_key id));
    match b with
    | None => Done (Err (Error_new Failed
        "this device rests under a passphrase but its wrapped key is missing"))
    | Some b =>
      let stale := dek_key_ id in
      found ← call (KvGet stale);
      _ ← match found with Some _ => call (KvDelete stale) | None => Done () end;
      match WrappedDek_decode b with
      | Err e => Done (Err e)
      | Ok w => Done (Ok (mkState row None (Some w) None zero_seed None None 0 0 false))
      end
    end
  | RestsOpen =>
    b ← call (KvGet (dek_key_ id));
    match b with
    | None => Done (Err (Error_new Failed "this device's data key is missing"))
    | Some b =>
      match Dek_decode b with
      | Err e => Done (Err e)
      | Ok key =>
        '(pointer, snapshot, engine) ←? load key id;
        '(snapshot, generation) ←? open_or_mint id key (row_tier row) (Checkpoint.generation pointer) snapshot;
        Done (Ok (mkState row (Some key) None (Some (k_device snapshot)) (k_seed snapshot) engine
                    (k_storage snapshot) generation (engine_head pointer) false))
      end
    end
  end.

(** The device half of [Kernel::boot]: the row says whether to mint or resume, and
    the lease is refreshed. *)
Definition bring_up (id : string) (now : Z) : prog (result Error DeviceState) :=
  b ← call (KvGet (index_key id));
  self ←? match b with
          | None => mint id now
          | Some b =>
            match IndexRow_decode b with
            | Err e => Done (Err e)
            | Ok row => resume id row now
            end
          end;
  match IndexRow_encode (row self) with
  | Err e => Done (Err e)
  | Ok b => _ ← call (KvSet (index_key id) b); Done (Ok self)
  end.

(** [device.name] filled from the label when it is empty. *)
Definition name_if_empty (label : string) (d : Device) : Device :=
  if decide (name d = "") then mkDevice label (root_seed d) (hue d) (meta d) else d.

Definition kept_row (petname : string) (rest : Rest) (r : IndexRow) : IndexRow :=
  mkRow (row_id r) petname Durable rest (created r) (last_used r).
Definition named_row (petname : string) (r : IndexRow) : IndexRow :=
  mkRow (row_id r) petname (row_tier r) (row_rest r) (created r) (last_used r).

(** The petname a keep uses. *)
Definition keep_petname (self : DeviceState) (petname : string) : prog string :=
  if decide (petname = "") then
    let name := default "" (name <$> device self) in
    if decide (name = "") then generate_first WORD_LIST else Done name
  else Done petname.

(** [keep].  [rename] is the engine's answer to [set_member_petname]; [prepared]
    and [sealed] are what its checkpoint finds to write. *)
Definition keep (id : string) (context : IdentityContext) (self : DeviceState) (petname : string)
    (passphrase : option string) (rename : result Error unit)
    (prepared : option (EngineDelta VaultState)) (sealed : option DriveSealed)
  : prog (DeviceState * result Error unit) :=
  match open self with
  | Err e => Done (self, Err e)
  | Ok _ =>
    petname ← keep_petname self petname;
    if decide (row_tier (row self) = Durable) then
      if negb (bool_decide (row_rest (row self) = RestsOpen) && bool_decide (passphrase = None)) then
        Done (self, Err (Error_new Refused "this device is already kept; how it rests cannot be changed yet"))
      else
        let self := set_device (name_if_empty petname <$> device self) (set_row (named_row petname (row self)) self) in
        match rename with
        | Err e => Done (self, Err e)
        | Ok _ => '(self, r, _) ← persist id context self prepared sealed true; Done (self, r)
        end
    else
      match dek self with
      | None => Done (self, Err (Error_new Failed "open implies a data key"))
      | Some key =>
        wrapped ← match passphrase with
                  | None => Done (Ok ())
                  | Some passphrase =>
                    w ←? WrappedDek_wrap key passphrase id;
                    match WrappedDek_encode w with
                    | Err e => Done (Err e)
                    | Ok b => _ ← call (KvSet (dek_wrapped_key id) b); Done (Ok ())
                    end
                  end;
        match wrapped with
        | Err e => Done (self, Err e)
        | Ok _ =>
          let rest := match passphrase with Some _ => Passphrase | None => RestsOpen end in
          let self := set_device (name_if_empty petname <$> device self) (set_row (kept_row petname rest (row self)) self) in
          match IndexRow_encode (row self) with
          | Err e => Done (self, Err e)
          | Ok b =>
            _ ← call (KvSet (index_key id) b);
            match rename with
            | Err e => Done (self, Err e)
            | Ok _ =>
              _ ← (if bool_decide (rest = Passphrase) then call (KvDelete (dek_key_ id)) else Done ());
              '(self, r, _) ← persist id context self prepared sealed true;
              Done (self, r)
            end
          end
        end
      end
  end.

(** [unseal], up to the sync start: the login, the load, and the state it fills. *)
Definition unseal (id : string) (self : DeviceState) (passphrase : string)
  : prog (DeviceState * result Error unit) :=
  match not_erased self with
  | Err e => Done (self, Err e)
  | Ok _ =>
    if negb (bool_decide (state self = Sealed)) then
      Done (self, Err (Error_new Refused "this device is already open"))
    else
      match wrapped self with
      | None => Done (self, Err (Error_new Failed "sealed implies a wrapped key"))
      | Some w =>
        match unwrap_with w passphrase id with
        | Err _ => Done (self, Err (Error_new Refused "the passphrase did not open this device"))
        | Ok key =>
          r ← ('(pointer, snapshot, engine) ←? load key id;
               '(restored, _) ←? open_or_mint id key Durable (Checkpoint.generation pointer) snapshot;
               Done (Ok (pointer, restored, engine)));
          match r with
          | Err e => Done (self, Err e)
          | Ok (pointer, restored, engine) =>
            Done (mkState (row self) (Some key) None (Some (k_device restored)) (k_seed restored) engine
                    (k_storage restored) (Checkpoint.generation pointer) (engine_head pointer) false, Ok ())
          end
        end
      end
  end.

(** [erase]: the stores first, then everything in memory. *)
Definition erase (id : string) (self : DeviceState) : prog (DeviceState * result Error unit) :=
  match not_erased self with
  | Err e => Done (self, Err e)
  | Ok _ =>
    r ← store_destroy id;
    match r with
    | Err e => Done (self, Err e)
    | Ok _ =>
      Done (mkState (row self) None None None zero_seed None (storage self)
              (st_generation self) (st_engine_head self) true, Ok ())
    end
  end.

(** ** What a boot needs of the stores

    [index_says]: the row is readable and has this tier and rest.  [login]: the
    data key is where the rest says it is. *)
Definition index_says (w : world) (id : string) (tier : Tier) (rest : Rest) : Prop :=
  ∃ b r, kv w !! index_key id = Some b ∧ IndexRow_decode b = Ok r ∧ row_tier r = tier ∧ row_rest r = rest.

Definition login (w : world) (id : string) (rest : Rest) (key : Dek) (passphrase : option string) : Prop :=
  match rest with
  | RestsOpen => ∃ b, kv w !! dek_key_ id = Some b ∧ Dek_decode b = Ok key
  | Passphrase => ∃ b wr pp, kv w !! dek_wrapped_key id = Some b ∧ WrappedDek_decode b = Ok wr ∧
      passphrase = Some pp ∧ unwrap_with wr pp id = Ok key
  end.

(** A device at rest: its row, its key, its committed state; generation 0 is only
    ever an ephemeral device whose first checkpoint is still to come. *)
Record at_rest (w : world) (id : string) (passphrase : option string) (tier : Tier) (rest : Rest)
    (key : Dek) (p : Pointer) (s : option KSnapshot) (j : JournalState VaultState) : Prop := {
  ar_row : index_says w id tier rest;
  ar_login : login w id rest key passphrase;
  ar_durable : durable w key id = Ok (p, s, j);
  ar_range : 0 <= generation p ∧ 0 <= engine_head p;
  ar_anchor : generation p = 0 → tier = Ephemeral ∧ rest = RestsOpen ∧ engine_head p = 0;
}.

(** Nothing of the device, or a device at rest. *)
Definition bootable (w : world) (id : string) (passphrase : option string) : Prop :=
  (kv w !! index_key id = None ∧ kv w !! pointer_key id = None) ∨
  ∃ tier rest key p s j, at_rest w id passphrase tier rest key p s j.

(** *** Minting *)
Lemma draws_generate fuel previous : draws (generate WORD_LIST fuel previous).
Proof. induction fuel as [|fuel IH]; [done|]. cbn [generate].
  apply draws_bind; [by intros ?|]. intros n. cbv zeta. by case_decide.
Qed.

Lemma draws_Device_mint : draws (Device_mint WORD_LIST).
Proof.
  apply draws_bind; [apply draws_bind; [apply draws_generate|done]|]. intros n.
  apply draws_bind; [by intros ?|]. intros h.
  apply draws_bind; [apply draws_bind; [apply draws_generate|done]|done].
Qed.

Lemma durable_same_stores w w' key id :
  same_stores w w' → durable (VaultState := VaultState) (DriveSealed := DriveSealed) w' key id = durable w key id.
Proof. intros [Hk Hf]. apply durable_agree; [by rewrite Hk|]. intros. by rewrite Hf. Qed.

Lemma durable_nothing w key id : kv w !! pointer_key id = None →
  durable (VaultState := VaultState) (DriveSealed := DriveSealed) w key id
  = Ok (Pointer_default, None, JournalState_default).
Proof. intros Hp. unfold durable, pointer_of. by rewrite Hp. Qed.

Lemma write_confined L key id g h sn :
  confined L (λ k, k = pointer_key id) (λ _, True) (write (DriveSealed := DriveSealed) key id g h sn).
Proof.
  unfold write. destruct (to_vec _); [|done]. apply confined_bind; [by split|].
  intros [st|e]; [|done]. destruct (to_vec _); [|done]. split; [done|]. intros [|] _; cbn [prog_bind_]; [|done].
  split; [done|]. intros [|] _; cbn [prog_bind_ negb]; [|done].
  apply (confined_bind L _ _ (commit_pointer id _)).
  { unfold commit_pointer. destruct (to_vec _); [by split|done]. }
  intros _'. apply (confined_bind L _ _ (for_each _ _)); [|done].
  apply confined_for_each, Forall_forall. intros old _. cbv beta zeta. case_match; done.
Qed.

(** What the device shows is what was committed. *)
Definition shows (d : Device) (sd : bytes) (s : option KSnapshot) : Prop :=
  ∀ c, s = Some c → Device_json d = Device_json (k_device c) ∧ sd = k_seed c.

Definition only_pointer (id : string) (w w' : world) : Prop :=
  ∀ k, k ≠ pointer_key id → kv w' !! k = kv w !! k.

Lemma mint_anchor_always id key w p s j :
  durable w key id = Ok (p, s, j) → generation p = 0 → engine_head p = 0 →
  let at_p w' p' s' := durable w' key id = Ok (p', s', j) ∧ 0 <= generation p' ∧ engine_head p' = 0 ∧
    only_pointer id w w' in
  always (λ w', ∃ p' s', at_p w' p' s')
    (λ w' r, ∃ p' s', at_p w' p' s' ∧ generation p' = r.2 ∧ shows (k_device r.1) (k_seed r.1) s')
    (mint_anchor id key) w.
Proof.
  intros Hd Hg Hh at_p.
  pose proof (durable_Ok _ _ _ _ _ _ Hd) as (_ & Hs & _ & Hj). rewrite Hg in Hs. simpl in Hs. subst s.
  assert (∀ w', same_stores w w' → at_p w' p None) as Hsame.
  { intros w' Hw. split_and!; [by rewrite (durable_same_stores w)|lia|done|].
    intros k _. by rewrite (proj1 Hw). }
  unfold mint_anchor. apply always_draws; [apply draws_Device_mint|by eauto|]. intros w1 d H1.
  apply (always_draws _ _ (call (Fill 32))); [by intros ?|..].
  { intros w2 [E1 E2]. exists p, None. apply Hsame. split; [by rewrite E1, (proj1 H1)|by rewrite E2, (proj2 H1)]. }
  intros w2 sd H2. assert (same_stores w w2) as H3.
  { split; [by rewrite (proj1 H2), (proj1 H1)|by rewrite (proj2 H2), (proj2 H1)]. }
  set (sn := mkKSnapshot d sd None).
  assert (durable w2 key id = Ok (p, None, j)) as Hd2 by by rewrite (durable_same_stores w).
  pose proof (write_generation_found id key w2 p None j 0 j sn Hd2 ltac:(lia)) as HW.
  rewrite Hg in HW. change (0 + 1) with 1 in HW. 
  assert (journal_of w2 key id (range_inclusive 1 0) JournalState_default = Ok j) as Hj2.
  { pose proof (durable_Ok _ _ _ _ _ _ Hd2) as (_ & _ & _ & E). by rewrite Hh in E. }
  specialize (HW Hj2). apply always_bind. eapply always_mono; [| |apply always_and; [exact HW|]].
  3: { apply (confined_always (λ k, k = pointer_key id) (λ _, True)). intros L. apply write_confined. }
  - intros w' [Hw [Hk _]]. destruct Hw as [Hw|Hw]; [exists p, None|eexists (mkPointer 1 0), _];
      (split_and!; [exact Hw|simpl; lia|done|]); intros k Hne; rewrite Hk by done; by rewrite (proj1 H3).
  - intros w' r [Hw [Hk _]]. assert (only_pointer id w w') as Ho.
    { intros k Hne. rewrite Hk by done. by rewrite (proj1 H3). }
    destruct r as [u|e]; cbn [is_ok]; apply always_done.
    + eexists (mkPointer 1 0), _. split_and!; [exact Hw|simpl; lia|done|done].
    + eexists (mkPointer 1 0), _. split_and!; [split_and!; [exact Hw|simpl; lia|done|done]|done|].
      intros c [= <-]. done.
    + exists p, None. split_and!; [exact Hw|lia|done|done].
    + exists p, None. split_and!; [split_and!; [exact Hw|lia|done|done]|done|]. done.
Qed.

(** *** Bringing up *)
Lemma keys_ne id :
  index_key id ≠ pointer_key id ∧ dek_key_ id ≠ pointer_key id ∧ dek_wrapped_key id ≠ pointer_key id ∧
  index_key id ≠ dek_key_ id ∧ index_key id ≠ dek_wrapped_key id ∧ dek_key_ id ≠ dek_wrapped_key id.
Proof.
  unfold index_key, dek_key_, dek_wrapped_key, pointer_key, dev_prefix.
  split_and!; try (by intros [=]); intros E; by apply str_app_inj_l in E.
Qed.

(** Writing a key of the device that is not its pointer leaves the rest. *)
Lemma at_rest_kept w w' id pw tier rest key p s j p' s' :
  at_rest w id pw tier rest key p s j →
  only_pointer id w w' → durable w' key id = Ok (p', s', j) →
  0 <= generation p' → 0 <= engine_head p' →
  (generation p' = 0 → tier = Ephemeral ∧ rest = RestsOpen ∧ engine_head p' = 0) →
  at_rest w' id pw tier rest key p' s' j.
Proof.
  intros [Hrow Hlogin _ _ _] Ho Hd Hg Hh Ha. destruct (keys_ne id) as (N1 & N2 & N3 & _).
  split; [| |done|done|done].
  - unfold index_says. by rewrite Ho.
  - unfold login in *. by destruct rest; rewrite Ho.
Qed.

Lemma at_rest_row w id pw tier rest key p s j b r :
  at_rest w id pw tier rest key p s j → IndexRow_decode b = Ok r → row_tier r = tier → row_rest r = rest →
  at_rest (set_kv <[index_key id := b]> w) id pw tier rest key p s j.
Proof.
  intros [Hrow Hlogin Hd Hr Ha] Hb Ht Hre. destruct (keys_ne id) as (N1 & N2 & N3 & N4 & N5 & N6). split; [| | |done|done].
  - exists b, r. split_and!; try done. apply lookup_insert_eq.
  - unfold login in *. destruct rest; cbn [kv set_kv]; by rewrite lookup_insert_ne.
  - by rewrite set_kv_other_durable.
Qed.

(** The state a boot comes up with, against the disk. *)
Definition up (id : string) (pw : option string) (w : world) (self : DeviceState) : Prop :=
  ∃ tier rest key p s j,
    at_rest w id pw tier rest key p s j ∧ row_tier (row self) = tier ∧ row_rest (row self) = rest ∧
    erased self = false ∧
    match rest with
    | RestsOpen => dek self = Some key ∧ in_step self p ∧ engine_head p = st_engine_head self ∧
        engine_state self = Snapshot.JournalState_snapshot j ∧
        ∃ d, device self = Some d ∧ shows d (seed self) s
    | Passphrase => state self = Sealed ∧ is_Some (wrapped self) ∧ kv w !! dek_key_ id = None
    end.

Lemma finish_bring_up id pw self w :
  up id pw w self → 
  always (λ w', bootable w' id pw) (λ w' r, ∃ st, r = Ok st ∧ up id pw w' st)
    (match IndexRow_encode (row self) with
     | Err e => Done (Err e)
     | Ok b => _ ← call (KvSet (index_key id) b); Done (Ok self)
     end) w.
Proof.
  intros (tier & rest & key & p & s & j & Har & Ht & Hr & He & Hrest).
  destruct (IndexRow_encode_decode (row self)) as (b & -> & Hb).
  apply always_pure; [done|by right; eauto 8|]. cbn [perform fst snd].
  pose proof (at_rest_row _ _ _ _ _ _ _ _ _ b (row self) Har Hb Ht Hr) as Har'.
  apply always_done; [by right; eauto 8|]. exists self. split; [done|].
  exists tier, rest, key, p, s, j. split_and!; try done. destruct rest; [done|].
  destruct Hrest as (? & ? & Hno). split_and!; [done..|]. cbn [kv set_kv].
  destruct (keys_ne id) as (_ & _ & _ & N4 & _). by rewrite lookup_insert_ne.
Qed.

(** The anchor of an open device, drawn again only at generation 0. *)
Lemma open_or_mint_always id pw w tier key p s j (Q : world → result Error (KSnapshot * Z) → Prop) :
  at_rest w id pw tier RestsOpen key p s j →
  (∀ w' p' s' sn, at_rest w' id pw tier RestsOpen key p' s' j → engine_head p' = engine_head p →
     only_pointer id w w' → shows (k_device sn) (k_seed sn) s' → Q w' (Ok (sn, generation p'))) →
  always (λ w', bootable w' id pw) Q (open_or_mint id key tier (generation p) s) w.
Proof.
  intros Har HQ. pose proof Har as [_ _ Hd [Hg Hh] Ha]. pose proof (durable_Ok _ _ _ _ _ _ Hd) as (_ & Hs & Hsome & _).
  unfold open_or_mint. destruct s as [s|].
  { apply always_done; [right; by eauto 8|]. eapply HQ; [exact Har|done|done|]. by intros c [= <-]. }
  destruct (decide (generation p = 0)) as [E|E]; [|destruct (Hsome E); done].
  destruct (Ha E) as (-> & _ & Hh0). rewrite E. cbn [bool_decide Z.eqb andb].
  rewrite bool_decide_true by done. cbn [andb]. apply always_bind.
  eapply always_mono; [| |by eapply mint_anchor_always].
  - intros w' (p' & s' & Hd' & Hg' & Hh' & Ho). right. eexists _, _, _, p', s', j.
    eapply at_rest_kept; [exact Har|exact Ho|exact Hd'|done|lia|by intros _].
  - intros w' [sn g] (p' & s' & (Hd' & Hg' & Hh' & Ho) & E' & Hsh). cbn [fst snd] in E', Hsh |- *. subst g.
    assert (at_rest w' id pw Ephemeral RestsOpen key p' s' j) as Har'.
    { eapply at_rest_kept; [exact Har|exact Ho|exact Hd'|done|lia|by intros _]. }
    apply always_done; [right; by eauto 8|]. eapply HQ; [exact Har'|congruence|done|done].
Qed.

Lemma resume_always id pw w row now key p s j :
  at_rest w id pw (row_tier row) (row_rest row) key p s j →
  always (λ w', bootable w' id pw) (λ w' r, ∃ st, r = Ok st ∧ up id pw w' st) (resume id row now) w.
Proof.
  intros Har. assert (bootable w id pw) as Hb by (right; eauto 8). unfold resume.
  destruct row as [rid rpet tier rest cr0 lu]. cbn [row_rest row_tier set_last_used] in *. pose proof Har as [Hrow Hlogin Hd [Hg Hh] Ha].
  destruct rest; cbn [login] in Hlogin.
  - destruct Hlogin as (b & Hkb & Hk). apply always_pure; [done|done|]. cbn [perform fst snd]. rewrite Hkb, Hk.
    unfold try at 1. destruct (answer_load w key id) as [Hro Hans].
    apply always_reads; [exact Hro|done|]. rewrite Hans, Hd. cbn [mbind result_bind].
    apply always_try. eapply open_or_mint_always; [exact Har|].
    intros w' p' s' sn Har' Hh' Ho Hsh. cbv beta iota.
    apply always_done; [right; eauto 8|]. eexists. split; [done|].
    exists tier, RestsOpen, key, p', s', j. do 4 (split; [done|]). cbn.
    pose proof Har' as [_ _ _ [? ?] _].
    split_and!; [done| |exact Hh'|done|by eauto].
    unfold in_step. rewrite <- Hh'. destruct p'. done.
  - destruct Hlogin as (b & wr & pp & Hkb & Hw & -> & Hun). apply always_pure; [done|done|].
    cbn [perform fst snd]. rewrite Hkb. apply always_pure; [done|done|]. cbn [perform fst snd].
    assert (∀ w', at_rest w' id (Some pp) tier Passphrase key p s j → kv w' !! dek_key_ id = None →
      always (λ w', bootable w' id (Some pp)) (λ w' (r : result Error DeviceState), ∃ st, r = Ok st ∧ up id (Some pp) w' st)
        (Done (Ok (mkState (mkRow rid rpet tier Passphrase cr0 now) None (Some wr) None zero_seed None None 0 0 false))) w') as Hend.
    { intros w' Har' Hno. apply always_done; [right; eauto 8|]. eexists. split; [done|].
      exists tier, Passphrase, key, p, s, j. by split_and!. }
    rewrite Hw. destruct (kv w !! dek_key_ id) as [stale|] eqn:Hst; [|by apply Hend].
    apply always_pure; [done|done|]. cbn [perform fst snd].
    destruct (keys_ne id) as (N1 & N2 & N3 & N4 & N5 & N6). apply Hend; [|apply lookup_delete_eq].
    split; [| | |done|done].
    + destruct Hrow as (b' & r & Hr). exists b', r. cbn [kv set_kv]. by rewrite lookup_delete_ne.
    + exists b, wr, pp. cbn [kv set_kv]. by rewrite lookup_delete_ne.
    + erewrite durable_agree; [exact Hd| |done]. cbn [kv set_kv]. by rewrite lookup_delete_ne.
Qed.

Lemma mint_always id pw w now :
  kv w !! index_key id = None → kv w !! pointer_key id = None →
  always (λ w', bootable w' id pw) (λ w' r, ∃ st, r = Ok st ∧ up id pw w' st) (mint id now) w.
Proof.
  intros Hi Hp. destruct (keys_ne id) as (N1 & N2 & N3 & N4 & N5 & N6).
  split; [by left|]. cbn [perform]. pose proof (length_fill w DEK_LEN) as Hlen.
  set (w1 := (perform (Fill DEK_LEN) w).2) in *. set (k := (perform (Fill DEK_LEN) w).1) in *.
  change (always (λ w', bootable w' id pw) (λ w' r, ∃ st, r = Ok st ∧ up id pw w' st)
    (_ ← call (KvSet (dek_key_ id) k);
     match IndexRow_encode (IndexRow_fresh id now) with
     | Err e => Done (Err e)
     | Ok b =>
       _ ← call (KvSet (index_key id) b);
       '(snapshot, generation) ← mint_anchor id (mkDek k);
       Done (Ok (mkState (IndexRow_fresh id now) (Some (mkDek k)) None (Some (k_device snapshot))
                   (k_seed snapshot) None (k_storage snapshot) generation 0 false))
     end) w1).
  apply always_pure; [done|by left|]. cbn [perform fst snd].
  destruct (IndexRow_encode_decode (IndexRow_fresh id now)) as (b & -> & Hb).
  apply always_pure; [done| |].
  { left. cbn [kv set_kv]. by rewrite !lookup_insert_ne by done. }
  cbn [perform fst snd]. set (w3 := set_kv _ (set_kv _ w1)).
  assert (kv w3 !! pointer_key id = None) as Hp3.
  { unfold w3. cbn [kv set_kv]. by rewrite !lookup_insert_ne. }
  pose proof (durable_nothing w3 (mkDek k) id Hp3) as Hd.
  assert (at_rest w3 id pw Ephemeral RestsOpen (mkDek k) Pointer_default None JournalState_default) as Har.
  { split; [| |done|done|done].
    - exists b, (IndexRow_fresh id now). split_and!; try done. apply lookup_insert_eq.
    - exists k. split; [|by apply Dek_decode_Ok]. unfold w3. cbn [kv set_kv].
      rewrite lookup_insert_ne by done. apply lookup_insert_eq. }
  apply always_bind. eapply always_mono; [| |by eapply (mint_anchor_always id (mkDek k) w3)].
  - intros w' (p' & s' & Hd' & Hg' & Hh' & Ho). right. eexists _, _, _, p', s', _.
    eapply at_rest_kept; [exact Har|exact Ho|exact Hd'|done|lia|by intros _].
  - intros w' [sn g] (p' & s' & (Hd' & Hg' & Hh' & Ho) & E' & Hsh). cbn [fst snd] in E', Hsh |- *. subst g.
    assert (at_rest w' id pw Ephemeral RestsOpen (mkDek k) p' s' JournalState_default) as Har'.
    { eapply at_rest_kept; [exact Har|exact Ho|exact Hd'|done|lia|by intros _]. }
    apply always_done; [right; by eauto 8|]. eexists. split; [done|].
    exists Ephemeral, RestsOpen, (mkDek k), p', s', JournalState_default. do 4 (split; [done|]). cbn.
    split_and!; [done| |done|done|by eauto]. unfold in_step. rewrite <- Hh'. split; [by destruct p'|lia].
Qed.

Lemma bring_up_always id pw w now :
  bootable w id pw →
  always (λ w', bootable w' id pw) (λ w' r, ∃ st, r = Ok st ∧ up id pw w' st) (bring_up id now) w.
Proof.
  intros Hb. unfold bring_up. apply always_pure; [done|done|]. cbn [perform fst snd].
  assert (∀ p, always (λ w', bootable w' id pw) (λ w' r, ∃ st, r = Ok st ∧ up id pw w' st) p w →
    always (λ w', bootable w' id pw) (λ w' r, ∃ st, r = Ok st ∧ up id pw w' st)
    (self ←? p; match IndexRow_encode (row self) with
     | Err e => Done (Err e)
     | Ok b => _ ← call (KvSet (index_key id) b); Done (Ok self)
     end) w) as Hfin.
  { intros q Hq. apply always_try. eapply always_mono; [| |exact Hq]; [done|].
    intros w' r (st & -> & Hup). by apply finish_bring_up. }
  apply Hfin. destruct Hb as [[Hi Hp]|(tier & rest & key & p & s & j & Har)].
  - rewrite Hi. by apply mint_always.
  - pose proof Har as [(b & r & -> & Hdec & Ht & Hr) _ _ _ _]. rewrite Hdec. subst.
    by eapply resume_always.
Qed.

(** *** Keeping *)
Lemma write_parts_confined L id key g h prepared sn :
  confined L (λ k, k = pointer_key id) (λ _, True)
    (write_parts (VaultState := VaultState) (DriveSealed := DriveSealed) id key g h prepared sn).
Proof.
  unfold write_parts. apply confined_bind.
  - destruct prepared as [d|]; [|done]. unfold write_engine. destruct (to_vec d); [|done].
    apply confined_bind; [by split|]. intros [x|e]; [|done]. by split.
  - intros [u|e]; [|done]. destruct sn; [apply write_confined|]. destruct prepared; [|done].
    apply (confined_bind L _ _ (commit_pointer id _)); [|done].
    unfold commit_pointer. destruct (to_vec _); [by split|done].
Qed.

(** A checkpoint of a device past its first generation, however it goes, leaves
    the device at rest; one that answers [Ok] leaves the new state. *)
Lemma persist_at_rest id pw context (self : DeviceState) tier rest key dev prepared sealed (metadata : bool) w p s j :
  at_rest w id pw tier rest key p s j → generation p ≠ 0 →
  in_step self p → row_tier (row self) = tier → row_rest (row self) = rest →
  dek self = Some key → device self = Some dev →
  let new := next_durable p s j prepared (if metadata then Some (mkKSnapshot dev (seed self) sealed) else None) in
  always (λ w', bootable w' id pw)
    (λ w' r, match r.1.2 with
             | Ok _ => at_rest w' id pw tier rest key new.1.1 new.1.2 new.2 ∧ in_step r.1.1 new.1.1 ∧
                 dek r.1.1 = dek self ∧ device r.1.1 = device self ∧ erased r.1.1 = erased self ∧
                 row_tier (row r.1.1) = tier ∧ ∀ k, k ≠ pointer_key id → k ≠ index_key id → kv w' !! k = kv w !! k
             | Err _ => True
             end)
    (persist id context self prepared sealed metadata) w.
Proof.
  intros Har Hg (-> & Hg0 & Hh0) Ht Hre Hkey Hdev new. unfold persist.
  assert (bootable w id pw) as Hb by (right; eauto 8).
  destruct (open self) as [u|e]; [|by apply always_done].
  destruct (adopting context); [by apply always_done|]. rewrite Hkey, Hdev.
  apply always_bind. unfold write_persistence. apply always_bind.
  pose proof Har as [_ _ Hd _ _].
  set (sn := if metadata then Some (mkKSnapshot dev (seed self) sealed) else None) in *.
  replace (if metadata then 1 else 0) with (match sn with Some _ => 1 | None => 0 end) by (unfold sn; by destruct metadata).
  pose proof (write_parts_found id key w _ s j prepared sn Hd Hg0 Hh0) as HW. cbn [generation engine_head] in HW, Hg, Hg0, Hh0.
  assert (0 <= generation new.1.1 ∧ 0 <= engine_head new.1.1 ∧ generation new.1.1 ≠ 0) as (G1 & G2 & G3).
  { unfold new, next_durable. cbn. destruct sn, prepared; lia. }
  assert (∀ w', only_pointer id w w' → durable w' key id = Ok new → at_rest w' id pw tier rest key new.1.1 new.1.2 new.2) as Hnew.
  { intros w' Ho Hd'. destruct Har as [Hrow Hlogin _ _ _]. destruct (keys_ne id) as (N1 & N2 & N3 & _).
    split; [| | |done|done].
    - unfold index_says. by rewrite Ho.
    - unfold login in *. by destruct rest; rewrite Ho.
    - rewrite Hd'. by destruct new as [[??]?]. }
  assert (∀ w', only_pointer id w w' → durable w' key id = Ok (mkPointer (st_generation self) (st_engine_head self), s, j) →
    bootable w' id pw) as Hold.
  { intros w' Ho Hd'. right. eexists _, _, _, _, _, _. eapply at_rest_kept; [exact Har|exact Ho|exact Hd'|done..]. }
  eapply always_mono; [| |apply always_and; [exact HW|]].
  3: { apply (confined_always (λ k, k = pointer_key id) (λ _, True)). intros L. apply write_parts_confined. }
  - intros w' [[Hw|Hw] [Hk _]]; [by apply Hold|]. right. eexists _, _, _, _, _, _. by apply Hnew.
  - intros w' r [Hw [Hk _]]. destruct r as [[]|e].
    2: { apply always_done; [by apply Hold|]. apply always_done; [by apply Hold|done]. }
    specialize (Hnew w' Hk Hw). assert (bootable w' id pw) as Hb' by (right; eauto 8).
    unfold touch_lease. apply always_pure; [done|done|]. cbn [perform fst snd].
    set (self2 := set_row _ (set_pointer _ _ self)).
    destruct (IndexRow_encode_decode (row self2)) as (b & -> & Hdec). apply always_pure; [done|done|]. cbn [perform fst snd].
    pose proof (at_rest_row _ _ _ _ _ _ _ _ _ b (row self2) Hnew Hdec Ht Hre) as Hnew'.
    assert (bootable (set_kv <[index_key id := b]> w') id pw) as Hb2 by (right; eauto 8).
    apply always_done; [done|]. apply always_done; [done|]. cbn [fst snd]. split_and!; try done.
    intros k Hk1 Hk2. cbn [kv set_kv]. rewrite lookup_insert_ne by done. by apply Hk.
Qed.

Lemma draws_keep_petname self petname : draws (keep_petname self petname).
Proof.
  unfold keep_petname. case_decide; [|done]. case_decide; [|done].
  apply draws_bind; [apply draws_generate|done].
Qed.

Lemma at_rest_same w w' id pw tier rest key p s j :
  same_stores w w' → at_rest w id pw tier rest key p s j → at_rest w' id pw tier rest key p s j.
Proof.
  intros Hw Har. pose proof Har as [_ _ Hd [Hg Hh] Ha].
  eapply at_rest_kept; [exact Har| |by rewrite (durable_same_stores w)|done..].
  intros k _. by rewrite (proj1 Hw).
Qed.

(** The rest a keep asks for. *)
Definition rest_of (passphrase : option string) : Rest :=
  match passphrase with Some _ => Passphrase | None => RestsOpen end.

(** What a keep that answered [Ok] has done. *)
Definition kept_state (w : world) (id : string) (passphrase : option string) (self : DeviceState)
    (key : Dek) (p : Pointer) (s : option KSnapshot) (j : JournalState VaultState)
    (prepared : option (EngineDelta VaultState)) (sealed : option DriveSealed) (self' : DeviceState) : Prop :=
  ∃ dev, device self' = Some dev ∧ state self' = Open ∧ dek self' = Some key ∧
    let new := next_durable p s j prepared (Some (mkKSnapshot dev (seed self) sealed)) in
    in_step self' new.1.1 ∧ at_rest w id passphrase Durable (rest_of passphrase) key new.1.1 new.1.2 new.2 ∧
    (is_Some passphrase → kv w !! dek_key_ id = None).

(** From the row on: the commit to keep is on disk, the rest is cleaning up. *)
Lemma keep_tail_always id context passphrase (self : DeviceState) key dev prepared sealed w p s j
    (rename : result Error unit) :
  at_rest w id passphrase Durable (rest_of passphrase) key p s j → generation p ≠ 0 → in_step self p →
  row_tier (row self) = Durable → row_rest (row self) = rest_of passphrase →
  dek self = Some key → device self = Some dev → erased self = false →
  always (λ w', bootable w' id passphrase)
    (λ w' r, r.2 = Ok () → kept_state w' id passphrase self key p s j prepared sealed r.1)
    (match rename with
     | Err e => Done (self, Err e)
     | Ok _ =>
       _ ← (if bool_decide (rest_of passphrase = Passphrase) then call (KvDelete (dek_key_ id)) else Done ());
       '(self, r, _) ← persist id context self prepared sealed true;
       Done (self, r)
     end) w.
Proof.
  intros Har Hg Hstep Ht Hre Hkey Hdev He. assert (bootable w id passphrase) as Hb by (right; eauto 8).
  destruct rename as [[]|e]; [|by apply always_done].
  assert (∀ w1, at_rest w1 id passphrase Durable (rest_of passphrase) key p s j →
    (is_Some passphrase → kv w1 !! dek_key_ id = None) →
    always (λ w', bootable w' id passphrase)
    (λ w' r, r.2 = Ok () → kept_state w' id passphrase self key p s j prepared sealed r.1)
    ('(self, r, _) ← persist id context self prepared sealed true; Done (self, r)) w1) as Hp.
  { intros w1 Har1 Hno. apply always_bind. eapply always_mono; [| |apply always_crash_post].
    3: { eapply (persist_at_rest _ _ _ _ _ _ _ _ _ _ true); [exact Har1|done..]. }
    { done. }
    intros w' [[self' r] b] [Hb' HH]. cbn [fst snd] in HH. apply always_done; [done|]. cbn [fst snd].
    intros ->. destruct HH as (H1 & H2 & H3 & H4 & H5 & H6 & H7). exists dev.
    destruct (keys_ne id) as (_ & N2 & _ & N4 & _).
    split; [congruence|]. split; [unfold state; by rewrite H5, He, H3, Hkey, H6|].
    split; [congruence|]. cbv zeta. split; [done|]. split; [done|].
    intros Hsome. rewrite H7 by done. by apply Hno. }
  destruct passphrase as [pp|]; cbn [rest_of] in *.
  - rewrite bool_decide_true by done. apply always_pure; [done|done|]. cbn [perform fst snd].
    destruct (keys_ne id) as (N1 & N2 & N3 & N4 & N5 & N6). apply Hp; [|intros _; apply lookup_delete_eq].
    destruct Har as [(b & r & Hrow) (b' & wr & pp' & Hlogin) Hd Hr Ha]. split; [| | |done|done].
    + exists b, r. cbn [kv set_kv]. by rewrite lookup_delete_ne.
    + exists b', wr, pp'. cbn [kv set_kv]. by rewrite lookup_delete_ne.
    + erewrite durable_agree; [exact Hd| |done]. cbn [kv set_kv]. by rewrite lookup_delete_ne.
  - rewrite bool_decide_false by done. apply Hp; [done|]. by intros [? [=]].
Qed.

(** The row that says the device is kept. *)
Lemma keep_row_always id context passphrase (self : DeviceState) petname key dev prepared sealed w p s j
    (rename : result Error unit) :
  at_rest w id passphrase Ephemeral RestsOpen key p s j → generation p ≠ 0 → in_step self p →
  (∀ pp, passphrase = Some pp → login w id Passphrase key (Some pp)) →
  dek self = Some key → device self = Some dev → erased self = false →
  let rest := match passphrase with Some _ => Passphrase | None => RestsOpen end in
  let self1 := set_device (name_if_empty petname <$> device self) (set_row (kept_row petname rest (row self)) self) in
  always (λ w', bootable w' id passphrase)
    (λ w' r, r.2 = Ok () → kept_state w' id passphrase self key p s j prepared sealed r.1)
    (match IndexRow_encode (row self1) with
     | Err e => Done (self1, Err e)
     | Ok b =>
       _ ← call (KvSet (index_key id) b);
       match rename with
       | Err e => Done (self1, Err e)
       | Ok _ =>
         _ ← (if bool_decide (rest = Passphrase) then call (KvDelete (dek_key_ id)) else Done ());
         '(self, r, _) ← persist id context self1 prepared sealed true;
         Done (self, r)
       end
     end) w.
Proof.
  intros Har Hg Hstep Hlog Hkey Hdev He rest self1. fold (rest_of passphrase) in rest.
  destruct (IndexRow_encode_decode (row self1)) as (b & -> & Hdec).
  apply always_pure; [done|right; eauto 8|]. cbn [perform fst snd].
  pose proof Har as [_ Hl Hd Hr Ha]. destruct (keys_ne id) as (N1 & N2 & N3 & N4 & N5 & N6).
  assert (login w id (rest_of passphrase) key passphrase) as Hl'.
  { destruct passphrase as [pp|]; [by apply Hlog|done]. }
  apply (keep_tail_always id context passphrase self1 key (name_if_empty petname dev)); try done.
  - split; [| | |done|done].
    + exists b, (row self1). split_and!; try done. apply lookup_insert_eq.
    + unfold login in *. destruct (rest_of passphrase); cbn [kv set_kv]; by rewrite lookup_insert_ne.
    + by rewrite set_kv_other_durable.
  - unfold self1. cbn. by rewrite Hdev.
Qed.

Lemma keep_always id context passphrase (self : DeviceState) petname key dev prepared sealed w p s j
    (rename : result Error unit) :
  at_rest w id passphrase Ephemeral RestsOpen key p s j → generation p ≠ 0 → in_step self p →
  row_tier (row self) = Ephemeral → dek self = Some key → device self = Some dev → erased self = false →
  always (λ w', bootable w' id passphrase)
    (λ w' r, r.2 = Ok () → kept_state w' id passphrase self key p s j prepared sealed r.1)
    (keep id context self petname passphrase rename prepared sealed) w.
Proof.
  intros Har Hg Hstep Ht Hkey Hdev He. unfold keep.
  assert (∀ w', same_stores w w' → bootable w' id passphrase) as Hs.
  { intros w' Hw. right. eexists _, _, _, _, _, _. by eapply at_rest_same. }
  destruct (open self) as [[]|e]; [|by apply always_done; [by apply Hs|]].
  apply always_draws; [apply draws_keep_petname|done|]. intros w1 pet H1.
  rewrite decide_False by congruence. rewrite Hkey.
  pose proof (at_rest_same _ _ _ _ _ _ _ _ _ _ H1 Har) as Har1.
  destruct passphrase as [pp|].
  2: { apply always_bind. apply always_done; [by apply Hs|]. by eapply keep_row_always. }
  apply always_bind. unfold try. apply always_draws_exec; [by intros ??| |].
  { intros w2 H2. right. eexists _, _, _, _, _, _. by eapply at_rest_same. }
  pose proof (exec_draws (WrappedDek_wrap key pp id) w1 ltac:(by intros ??)) as H2.
  assert (length (dek_key key) = DEK_LEN) as Hlen.
  { destruct Har as [_ (b & _ & [-> Hb]%Dek_decode_Ok) _ _ _]. done. }
  pose proof (wrap_unwraps key pp id w1) as Hwrap.
  destruct (exec w1 (WrappedDek_wrap key pp id)) as [w2 [wr|e]]; cbn [fst snd] in *.
  2: { pose proof (at_rest_same _ _ _ _ _ _ _ _ _ _ H2 Har1).
       apply always_done; [right; eauto 8|]. apply always_done; [right; eauto 8|done]. }
  specialize (Hwrap wr Hlen eq_refl). pose proof (at_rest_same _ _ _ _ _ _ _ _ _ _ H2 Har1) as Har2.
  unfold WrappedDek_encode. destruct (codec_roundtrip wr) as (b & -> & Hb). cbn [ok_or].
  apply always_pure; [done|right; eauto 8|]. cbn [perform fst snd].
  assert (at_rest (set_kv <[dek_wrapped_key id := b]> w2) id (Some pp) Ephemeral RestsOpen key p s j) as Har3.
  { destruct (keys_ne id) as (N1 & N2 & N3 & N4 & N5 & N6).
    destruct Har2 as [(b1 & r1 & Hrow) (b2 & Hlogin) Hd Hr Ha]. split; [| | |done|done].
    - exists b1, r1. cbn [kv set_kv]. by rewrite lookup_insert_ne.
    - exists b2. cbn [kv set_kv]. by rewrite lookup_insert_ne.
    - by rewrite set_kv_other_durable. }
  apply always_done; [right; eauto 8|]. eapply keep_row_always; try done.
  intros pp' [= <-]. exists b, wr, pp. split_and!; [apply lookup_insert_eq| |done|done].
  unfold WrappedDek_decode. by rewrite Hb.
Qed.

(** C3: Keeping a device is safe against every crash and every failed write.  From an
    ephemeral device that has a committed generation and is in step with it: at
    every point the stores still boot (and after a passphrase keep, under that
    passphrase); a keep that answered [Ok] leaves an open durable device whose
    stores rest as asked, hold the next generation, and, under a passphrase, no
    longer hold the unwrapped key. *)
Theorem keep_crash_safe id context passphrase (self : DeviceState) petname key dev prepared sealed w p s j
    (rename : result Error unit) stuck faults budget w' r :
  at_rest w id passphrase Ephemeral RestsOpen key p s j → generation p ≠ 0 → in_step self p →
  row_tier (row self) = Ephemeral → dek self = Some key → device self = Some dev → erased self = false →
  run stuck faults budget w (keep id context self petname passphrase rename prepared sealed) = (w', r) →
  bootable w' id passphrase ∧
  ∀ self', r = Some (self', Ok ()) → kept_state w' id passphrase self key p s j prepared sealed self'.
Proof.
  intros Har Hg Hstep Ht Hkey Hdev He Hr.
  eapply always_run in Hr as [Hb Ha]; [|by eapply keep_always]. split; [done|].
  intros self' ->. by apply (Ha _ eq_refl).
Qed.

(** C2: Booting is safe against every crash and every failed write.  From a device
    at rest (or no trace of one), a boot that is interrupted anywhere, with any
    file write failing or torn, leaves stores from which the next boot comes up;
    a boot that answers answers [Ok], never an error; and the state it comes up
    with agrees with the disk: open with the key, the anchor and the journal that
    are committed, or sealed with the unwrapped key gone. *)
Theorem bring_up_crash_safe id pw w now stuck faults budget w' r :
  bootable w id pw →
  run stuck faults budget w (bring_up id now) = (w', r) →
  bootable w' id pw ∧
  (∀ a, r = Some a → ∃ self, a = Ok self ∧ up id pw w' self) ∧
  (∀ now', ∃ self, (exec w' (bring_up id now')).2 = Ok self ∧ up id pw (exec w' (bring_up id now')).1 self).
Proof.
  intros Hb Hr. destruct (always_run _ _ _ _ _ _ _ _ _ (bring_up_always id pw w now Hb) Hr) as [Hb' Ha].
  split_and!; [done|done|]. intros now'. destruct (exec w' (bring_up id now')) as [w2 a] eqn:E.
  by destruct (always_exec _ _ _ _ _ _ (bring_up_always id pw w' now' Hb') E) as (st & -> & Hup); eauto.
Qed.

(** *** Unsealing *)
Lemma unseal_load id key w :
  let q : prog (result Error (Pointer * KSnapshot * option (@Snapshot.Snapshot VaultState))) :=
    '(pointer, snapshot, engine) ←? load key id;
    '(restored, _) ←? open_or_mint id key Durable (Checkpoint.generation pointer) snapshot;
    Done (Ok (pointer, restored, engine)) in
  reads_only q ∧
  (∀ p c o, answer w q = Ok (p, c, o) ↔
    ∃ j, durable w key id = Ok (p, Some c, j) ∧ o = Snapshot.JournalState_snapshot j).
Proof.
  intros q. destruct (answer_load w key id) as [Hro Hans]. split.
  - apply reads_only_bind; [exact Hro|]. intros [[[p [c|]] o]|e]; [done| |done]. cbn [open_or_mint].
    by rewrite bool_decide_false.
  - intros p c o. unfold q, try at 1. rewrite answer_bind by done. rewrite Hans.
    destruct (durable w key id) as [[[p' [c'|]] j']|e]; cbn [mbind result_bind]; cbn; naive_solver.
Qed.

(** The login: [unseal] writes nothing; it answers [Ok] exactly when the device is
    sealed, the passphrase unwraps the key and the committed state opens under
    it, and then the state is that one; any refusal leaves the state as it was. *)
Theorem unseal_iff id (self : DeviceState) passphrase w :
  (∀ w' self', exec w (unseal id self passphrase) = (w', (self', Ok ())) ↔
    w' = w ∧ erased self = false ∧ dek self = None ∧
    ∃ wr key p c j, wrapped self = Some wr ∧ unwrap_with wr passphrase id = Ok key ∧
      durable w key id = Ok (p, Some c, j) ∧
      self' = mkState (row self) (Some key) None (Some (k_device c)) (k_seed c)
                (Snapshot.JournalState_snapshot j) (k_storage c) (Checkpoint.generation p) (engine_head p) false) ∧
  (∀ w' self' e, exec w (unseal id self passphrase) = (w', (self', Err e)) → w' = w ∧ self' = self).
Proof.
  unfold unseal, not_erased, state. destruct (erased self); [cbn; naive_solver|].
  destruct (dek self) as [key0|]; [destruct (row_tier (row self)); cbn; naive_solver|].
  rewrite bool_decide_true by done. cbn [negb].
  destruct (wrapped self) as [wr|]; [|cbn; naive_solver].
  destruct (unwrap_with wr passphrase id) as [key|e] eqn:Eu.
  2: { split; [|by intros w' self' e' [= <- <- _]]. intros w' self'. split; [done|].
       by intros (_ & _ & _ & wr' & key' & p' & c' & j' & [= <-] & Hu & _); rewrite Eu in Hu. }
  destruct (unseal_load id key w) as [Hro Hans]. cbv zeta in Hro, Hans.
  rewrite exec_bind. pose proof (reads_only_exec _ w Hro) as Hw. revert Hans Hw. unfold answer.
  set (r := exec w _). destruct r as [w1 [[[p c] o]|e]]; cbn [fst snd]; intros Hans ->.
  - destruct (Hans p c o) as [(j & Hj & ->) _]; [done|]. split; [|done]. intros w' self'. split.
    + intros [= <- <-]. do 3 (split; [done|]). by exists wr, key, p, c, j.
    + intros (-> & _ & _ & wr' & key' & p' & c' & j' & [= <-] & Hu & Hd & ->); rewrite Eu in Hu; injection Hu as <-. cbn. congruence.
  - split; [|naive_solver]. intros w' self'. split; [naive_solver|].
    intros (-> & _ & _ & wr' & key' & p' & c' & j' & [= <-] & Hu & Hd & ->); rewrite Eu in Hu; injection Hu as <-.
    destruct (Hans p' c' (Snapshot.JournalState_snapshot j')) as [_ HH]. by discriminate HH; eauto.
Qed.
End Boot.

(** ** Concrete devices *)
Section Concrete.
Import Toy.
Abbreviation words := ["able"; "acid"]%string.
Abbreviation kbring := (bring_up (VaultState := unit) (DriveSealed := unit) words "dev-1").
Abbreviation kkeep := (keep (VaultState := unit) (DriveSealed := unit) words "dev-1" (mkContext 0 false)).

(** The state a boot came up with. *)
Definition came_up (r : option (result Error (DeviceState unit unit))) : DeviceState unit unit :=
  match r with
  | Some (Ok s) => s
  | _ => mkState (IndexRow_fresh "" 0) None None None [] None None 0 0 true
  end.

(** What a keep does with failing checkpoints: the device minted at generation 0
    (its first write failed) is kept, and the keep's own checkpoint fails too. *)
Definition minted0 : world * option (result Error (DeviceState unit unit)) :=
  run (λ _, false) [Fails None] 100 world1 (kbring 0).
Definition kept0 : world * option (DeviceState unit unit * result Error unit) :=
  run (λ _, false) [Fails None] 100 minted0.1 (kkeep (came_up minted0.2) "fern" None (Ok ()) None None).

(** A keep of a device whose first checkpoint never landed commits to durable
    before anything was checkpointed: if its own checkpoint fails as well, or
    the worker dies before it, the row says durable, the pointer is at 0, and no
    later boot comes up. *)
Theorem keep_before_checkpoint_unbootable :
  is_ok (default (Err (Error_new Failed "")) minted0.2) = true ∧
  (∀ now, (exec kept0.1 (kbring now)).2 = Err (Error_new Failed "this device's state did not open")).
Proof. split; [vm_compute; reflexivity|]. intros now. vm_compute. reflexivity. Qed.

(** An engine write that commits at generation 0, as [persist_engine] does. *)
Definition journaled0 : world :=
  (exec minted0.1 (persist (VaultState := unit) (DriveSealed := unit) "dev-1" (mkContext 0 false)
     (came_up minted0.2) (Some delta1) None false)).1.
Definition key_of (r : option (result Error (DeviceState unit unit))) : Dek := default (mkDek []) (dek (came_up r)).
Definition history (w : world) : result Error (Pointer * option (KSnapshot unit) * JournalState unit) :=
  durable (VaultState := unit) (DriveSealed := unit) w (key_of minted0.2) "dev-1".
Definition head_and_control (w : world) : result Error (Pointer * option (EngineControl unit)) :=
  '(p, _, j) ← history w; Ok (p, j_control j).

(** "There is nothing to lose" at generation 0, but there can be: engine history
    committed before the first generation is dropped from the pointer when the
    next boot draws the anchor again, so a crash before the next checkpoint
    loses it. *)
Theorem remint_forgets_history :
  (∃ c, head_and_control journaled0 = Ok (mkPointer 0 1, Some c)) ∧
  head_and_control (exec journaled0 (kbring 5)).1 = Ok (mkPointer 1 0, None).
Proof. split; [eexists|]; vm_compute; reflexivity. Qed.

Lemma bring_up_crash_safe_witness :
  ∃ w' r, run (λ _, false) [Lands; Dies (Some [])] 100 world1 (kbring 3) = (w', r) ∧
    is_ok (exec w' (kbring 9)).2 = true.
Proof.
  destruct (run (λ _, false) [Lands; Dies (Some [])] 100 world1 (kbring 3)) as [w' r] eqn:E.
  exists w', r. split; [reflexivity|].
  destruct (bring_up_crash_safe (VaultState := unit) (DriveSealed := unit) words "dev-1" None world1 3
    (λ _, false) [Lands; Dies (Some [])] 100%nat w' r) as (_ & _ & Hn).
  - left. by split.
  - exact E.
  - destruct (Hn 9) as (self & -> & _). reflexivity.
Defined.

(** A device that booted cleanly, about to be kept under a passphrase. *)
Definition minted1 : world * option (result Error (DeviceState unit unit)) :=
  run (λ _, false) [] 100 world1 (kbring 0).

Definition device1' : Device := default device1 (device (came_up minted1.2)).
Definition snapshot1 : option (KSnapshot unit) :=
  match durable (VaultState := unit) (DriveSealed := unit) minted1.1 (key_of minted1.2) "dev-1" with
  | Ok (_, s, _) => s
  | Err _ => None
  end.
Definition row1 : bytes := default [] (kv minted1.1 !! index_key "dev-1").

Lemma keep_crash_safe_witness :
  ∃ w' r, run (λ _, false) [Dies None] 100 minted1.1
      (kkeep (came_up minted1.2) "fern" (Some "open sesame"%string) (Ok ()) None None) = (w', r) ∧
    bootable (VaultState := unit) (DriveSealed := unit) w' "dev-1" (Some "open sesame"%string).
Proof.
  destruct (run (λ _, false) [Dies None] 100 minted1.1
      (kkeep (came_up minted1.2) "fern" (Some "open sesame"%string) (Ok ()) None None)) as [w' r] eqn:E.
  exists w', r. split; [reflexivity|].
  apply (keep_crash_safe (VaultState := unit) (DriveSealed := unit) words "dev-1" (mkContext 0 false)
    (Some "open sesame"%string) (came_up minted1.2) "fern" (key_of minted1.2) device1' None None minted1.1
    (mkPointer 1 0) snapshot1 JournalState_default (Ok ()) (λ _, false) [Dies None] 100%nat w' r).
  - split.
    + exists row1, (IndexRow_fresh "dev-1" 0). split_and!; vm_compute; reflexivity.
    + exists (dek_key (key_of minted1.2)). split; vm_compute; reflexivity.
    + vm_compute. reflexivity.
    + by split.
    + discriminate.
  - discriminate.
  - split; [vm_compute; reflexivity|by split].
  - vm_compute; reflexivity.
  - vm_compute; reflexivity.
  - vm_compute; reflexivity.
  - vm_compute; reflexivity.
  - exact E.
Defined.
End Concrete.
