(* ===== verification/Codes.v ===== *)
(** * Pairing codes and comparison digits
      ([runtime/crates/kernel/src/pairing.rs], the wire at the end of the file)

    The code a joiner shows, the forgiving reading of it, and the six digits
    both users compare.  Text is a list of Unicode scalar values, as [str::chars]
    walks it. *)
From S2P Require Import Prelude Text Crypto.

Definition CODE_VERSION : byte := byte_of 1.

(** ** Text as [char]s *)
Abbreviation chars := (list Z).

(** [char::len_utf8] and its bytes. *)
Definition utf8_char (c : Z) : bytes :=
  if c <? 0x80 then [byte_of c]
  else if c <? 0x800 then [byte_of (0xC0 + c / 64); byte_of (0x80 + c mod 64)]
  else if c <? 0x10000 then
    [byte_of (0xE0 + c / 4096); byte_of (0x80 + c / 64 mod 64); byte_of (0x80 + c mod 64)]
  else [byte_of (0xF0 + c / 262144); byte_of (0x80 + c / 4096 mod 64);
        byte_of (0x80 + c / 64 mod 64); byte_of (0x80 + c mod 64)].
Definition utf8 (s : chars) : bytes := s ≫= utf8_char.

(** The text an ASCII byte string is. *)
Definition ascii_chars (b : bytes) : chars := u8 <$> b.

(** [char::is_whitespace]: the Unicode [White_Space] property. *)
Definition is_whitespace (c : Z) : bool :=
  ((9 <=? c) && (c <=? 13)) || (c =? 0x20) || (c =? 0x85) || (c =? 0xA0) || (c =? 0x1680)
  || ((0x2000 <=? c) && (c <=? 0x200A)) || (c =? 0x2028) || (c =? 0x2029) || (c =? 0x202F)
  || (c =? 0x205F) || (c =? 0x3000).

(** What [decode_code] filters out: white space and dashes. *)
Definition grouping (c : Z) : bool := is_whitespace c || (c =? 45).

Section Codes.
Context {b32 : Base32Visual} {blake : Blake3}.

Definition encode_code (key token : bytes) : bytes := b32_encode ([CODE_VERSION] ++ key ++ token).

Definition decode_code (code : chars) : result string (bytes * bytes) :=
  let cleaned := filter (λ c, grouping c = false) code in
  payload ← ok_or "that is not a pairing code"%string (b32_decode (utf8 cleaned));
  if negb (length payload =? 49)%nat then Err "that pairing code is the wrong length"%string else
  if negb (bool_decide (payload !! 0%nat = Some CODE_VERSION))
  then Err "that code is from a different version of pairing"%string else
  Ok (slice 1 33 payload, slice 33 49 payload).

(** [format!("{:06}", n)] *)
Definition six_digits (n : Z) : string :=
  let s := as_bytes (pretty n) in str_of (replicate (6 - length s) (byte_of 48) ++ s).

Definition sas (token joiner_key adder_key nonce_j nonce_a : bytes) : string :=
  let digest := blake3 ([CODE_VERSION] ++ token ++ joiner_key ++ adder_key ++ nonce_j ++ nonce_a) in
  six_digits (be_val (take 4 digest) mod 1000000).

(** ** What a person may do to a code *)
Lemma utf8_ascii b : Forall (λ c, 48 <= u8 c <= 122) b → utf8 (ascii_chars b) = b.
Proof.
  induction 1 as [|c b Hc Hb IH]; [done|].
  change (utf8_char (u8 c) ++ utf8 (ascii_chars b) = c :: b). rewrite IH.
  unfold utf8_char. rewrite (proj2 (Z.ltb_lt _ _)) by lia. by rewrite byte_of_u8.
Qed.

Lemma ascii_not_grouping b :
  Forall (λ c, 48 <= u8 c <= 122) b → Forall (λ c, grouping c = false) (ascii_chars b).
Proof.
  induction 1 as [|c b Hc Hb IH]; constructor; [|done].
  unfold grouping, is_whitespace. repeat (rewrite orb_false_iff; split); rewrite ?andb_false_iff, ?Z.leb_gt, ?Z.eqb_neq; lia.
Qed.

Lemma filter_all (l : chars) : Forall (λ c, grouping c = false) l → filter (λ c, grouping c = false) l = l.
Proof. induction 1 as [|c l Hc Hl IH]; [done|]. rewrite filter_cons_True by done. by rewrite IH. Qed.

Lemma decode_grouped key token code :
  length key = 32%nat → length token = 16%nat →
  filter (λ c, grouping c = false) code = ascii_chars (encode_code key token) →
  decode_code code = Ok (key, token).
Proof.
  intros Hk Ht Hc. pose proof (b32_ascii ([CODE_VERSION] ++ key ++ token)) as Ha.
  unfold decode_code. rewrite Hc. unfold encode_code. rewrite utf8_ascii, b32_decode_encode by done.
  cbn [ok_or mbind result_bind]. rewrite !length_app, Hk, Ht. cbn [length Nat.add Nat.eqb negb].
  rewrite bool_decide_true by done. cbn [negb]. do 2 f_equal.
  - change (slice 1 33 ([CODE_VERSION] ++ key ++ token)) with (take 32 (key ++ token)).
    by rewrite take_app_length' by done.
  - change (slice 33 49 ([CODE_VERSION] ++ key ++ token)) with (take 16 (drop 32 (key ++ token))).
    rewrite drop_app_length' by done. by rewrite take_ge by lia.
Qed.

Lemma decode_encode_code key token : length key = 32%nat → length token = 16%nat →
  decode_code (ascii_chars (encode_code key token)) = Ok (key, token).
Proof. intros. apply decode_grouped; [done|done|]. apply filter_all, ascii_not_grouping, b32_ascii. Qed.

(** The code a joiner shows is read back by the adder however it was grouped:
    any text that is the code with white space and dashes put anywhere into it
    (and the code itself) decodes to the key and the token it was made from; and
    the code is 79 characters of the alphabet. *)
Theorem code_reads_back key token code :
  length key = 32%nat → length token = 16%nat →
  filter (λ c, grouping c = false) code = ascii_chars (encode_code key token) →
  decode_code code = Ok (key, token) ∧
  decode_code (ascii_chars (encode_code key token)) = Ok (key, token) ∧
  length (encode_code key token) = 79%nat.
Proof.
  intros Hk Ht Hcode. split_and!; [by apply decode_grouped|by apply decode_encode_code|].
  apply Nat2Z.inj. unfold encode_code. rewrite b32_length, !length_app, Hk, Ht. reflexivity.
Qed.

(** *** Digits *)
Definition is_digit (b : byte) : Prop := 48 <= u8 b <= 57.

Lemma pretty_go_shape n : ∀ (x : N) t, (x < 10 ^ N.of_nat n)%N →
  ∃ ds, as_bytes (pretty_N_go x t) = ds ++ as_bytes t ∧ (length ds <= n)%nat ∧ Forall is_digit ds.
Proof.
  induction n as [|n IH]; intros x t Hx.
  { assert (x = 0%N) as -> by (simpl in Hx; lia). exists []. split; [by rewrite pretty_N_go_0|]. by split. }
  destruct (decide (x = 0)%N) as [->|Hne]; [exists []; split; [by rewrite pretty_N_go_0|split; [simpl; lia|done]]|].
  rewrite pretty_N_go_step by lia.
  destruct (IH (x `div` 10)%N (String (pretty_N_char (x `mod` 10)) t)) as (ds & -> & Hl & Hd).
  { rewrite Nat2N.inj_succ, N.pow_succ_r' in Hx. apply N.Div0.div_lt_upper_bound. lia. }
  exists (ds ++ [Ascii.byte_of_ascii (pretty_N_char (x `mod` 10))]). split_and!.
  - rewrite <- app_assoc. done.
  - rewrite length_app. simpl. lia.
  - apply Forall_app. split; [done|]. apply Forall_singleton. unfold is_digit, pretty_N_char.
    repeat (case_match; try (vm_compute; by split)).
Qed.

Lemma pretty_shape n : 0 <= n < 1000000 →
  (length (as_bytes (pretty n)) <= 6)%nat ∧ Forall is_digit (as_bytes (pretty n)).
Proof.
  intros Hn. unfold pretty, pretty_Z. destruct n as [|q|q]; [|unfold pretty, pretty_positive, pretty, pretty_N|lia].
  { split; [vm_compute; lia|]. apply Forall_singleton. split; vm_compute; discriminate. }
  rewrite decide_False by done. destruct (pretty_go_shape 6 (N.pos q) "") as (ds & -> & Hl & Hd); [simpl; lia|].
  simpl. rewrite app_nil_r. done.
Qed.

(** The comparison digits are always exactly six decimal digits. *)
Theorem sas_six_digits token joiner_key adder_key nonce_j nonce_a :
  length (as_bytes (sas token joiner_key adder_key nonce_j nonce_a)) = 6%nat ∧
  Forall is_digit (as_bytes (sas token joiner_key adder_key nonce_j nonce_a)).
Proof.
  unfold sas. set (n := _ mod 1000000). destruct (pretty_shape n) as [Hl Hd]; [apply Z.mod_pos_bound; lia|].
  unfold six_digits. rewrite as_bytes_str_of. split.
  - rewrite length_app, length_replicate. lia.
  - apply Forall_app. split; [|done]. apply Forall_replicate. split; vm_compute; discriminate.
Qed.
End Codes.

Section Concrete.
Import Toy.
Definition spaced (b : bytes) : chars := ascii_chars (take 4 b) ++ [0x20] ++ ascii_chars (drop 4 b) ++ [45; 0x2003].

Lemma code_reads_back_witness :
  decode_code (spaced (encode_code (be_bytes 32 7) (be_bytes 16 9))) = Ok (be_bytes 32 7, be_bytes 16 9).
Proof.
  destruct (code_reads_back (be_bytes 32 7) (be_bytes 16 9)
    (spaced (encode_code (be_bytes 32 7) (be_bytes 16 9)))) as [Hs _].
  - vm_compute; reflexivity.
  - vm_compute; reflexivity.
  - vm_compute; reflexivity.
  - exact Hs.
Defined.
End Concrete.
