(* ===== verification/MeetingWire.v ===== *)
(** * The meeting wire ([runtime/crates/kernel/src/meeting.rs], from the frames on)

    The bootstrap fragment, the transcript both sides hash for the comparison
    digits, and the generation counter every task of a meeting is held to. *)
From S2P Require Import Prelude Text Crypto Error Codes.

Definition CODE_VERSION : byte := byte_of 1.
Definition MEETING_TTL_MS : Z := 120000.

Section Wire.
Context {b32 : Base32Visual} {blake : Blake3}.

Definition encode_fragment (key token : bytes) : bytes := b32_encode ([CODE_VERSION] ++ key ++ token).

(** [str::strip_prefix] on characters. *)
Fixpoint strip_chars (p s : chars) : option chars :=
  match p, s with
  | [], s => Some s
  | c :: p, d :: s => if c =? d then strip_chars p s else None
  | _, [] => None
  end.
Definition MEET_PREFIX : chars := ascii_chars (as_bytes "meet/").

Definition decode_fragment (fragment : chars) : result string (bytes * bytes) :=
  let fragment := default fragment (strip_chars MEET_PREFIX fragment) in
  let cleaned := filter (λ c, grouping c = false) fragment in
  payload ← ok_or "that is not a meeting fragment"%string (b32_decode (utf8 cleaned));
  if negb (length payload =? 49)%nat || negb (bool_decide (payload !! 0%nat = Some CODE_VERSION))
  then Err "that meeting fragment has the wrong version or length"%string
  else Ok (slice 1 33 payload, slice 33 49 payload).

Definition commitment (nonce : bytes) : bytes := blake3 nonce.

Definition fixed32 (b : bytes) (name : string) : result string bytes :=
  ok_or ("that device sent a malformed " +:+ name) (try_array 32 b).

(** One field of the transcript: its length as a [u32] (a truncating cast), then
    its bytes. *)
Definition field (b : bytes) : bytes := be_bytes 4 (Z.of_nat (length b)) ++ b.
Definition SAS_DOMAIN : bytes := as_bytes "polyvisor:meeting:sas:v0" ++ [byte_of 0].
Definition transcript (token guest_key host_key guest_intro host_intro guest_nonce host_nonce : bytes) : bytes :=
  SAS_DOMAIN ++ ([token; guest_key; host_key; guest_intro; host_intro; guest_nonce; host_nonce] ≫= field).
Definition sas (token guest_key host_key guest_intro host_intro guest_nonce host_nonce : bytes) : string :=
  let digest := blake3 (transcript token guest_key host_key guest_intro host_intro guest_nonce host_nonce) in
  six_digits (be_val (take 4 digest) mod 1000000).

(** ** Reading the fragment back *)
Lemma strip_prefix_chars p s : strip_chars p (p ++ s) = Some s.
Proof. induction p as [|c p IH]; [by destruct s|]. simpl. by rewrite Z.eqb_refl. Qed.

(** No text of the alphabet starts with the prefix: [/] is not in it. *)
Lemma strip_alphabet b : Forall (λ c, 48 <= u8 c <= 122) b → strip_chars MEET_PREFIX (ascii_chars b) = None.
Proof.
  intros Hb. unfold MEET_PREFIX. change (ascii_chars (as_bytes "meet/")) with [109; 101; 101; 116; 47].
  unfold ascii_chars.
  do 5 (destruct Hb as [|? b ? Hb]; [done|]; rewrite fmap_cons; cbn [strip_chars];
    match goal with |- (if ?c then _ else _) = None => let E := fresh in destruct c eqn:E; [|done] end).
  match goal with E : (47 =? _) = true |- _ => apply Z.eqb_eq in E end. lia.
Qed.

Lemma decode_encode_fragment key token (prefix : bool) :
  length key = 32%nat → length token = 16%nat →
  decode_fragment ((if prefix then MEET_PREFIX else []) ++ ascii_chars (encode_fragment key token)) = Ok (key, token).
Proof.
  intros Hk Ht. pose proof (b32_ascii ([CODE_VERSION] ++ key ++ token)) as Ha. unfold decode_fragment.
  assert (default ((if prefix then MEET_PREFIX else []) ++ ascii_chars (encode_fragment key token))
    (strip_chars MEET_PREFIX ((if prefix then MEET_PREFIX else []) ++ ascii_chars (encode_fragment key token)))
    = ascii_chars (encode_fragment key token)) as ->.
  { destruct prefix; [by rewrite strip_prefix_chars|]. by rewrite app_nil_l, strip_alphabet. }
  rewrite filter_all by by apply ascii_not_grouping. unfold encode_fragment.
  rewrite utf8_ascii, b32_decode_encode by done. cbn [ok_or mbind result_bind].
  rewrite !length_app, Hk, Ht. cbn [length Nat.add Nat.eqb negb orb].
  rewrite bool_decide_true by done. cbn [negb]. do 2 f_equal.
  - change (slice 1 33 ([CODE_VERSION] ++ key ++ token)) with (take 32 (key ++ token)).
    by rewrite take_app_length' by done.
  - change (slice 33 49 ([CODE_VERSION] ++ key ++ token)) with (take 16 (drop 32 (key ++ token))).
    rewrite drop_app_length' by done. by rewrite take_ge by lia.
Qed.

(** ** The transcript determines the exchange *)
Definition framed (b : bytes) : Prop := Z.of_nat (length b) < 2 ^ 32.

Lemma field_inj a b r r' : framed a → framed b → field a ++ r = field b ++ r' → a = b ∧ r = r'.
Proof.
  unfold framed, field. intros Ha Hb H. rewrite <- !app_assoc in H.
  apply app_inj_1 in H as [Hlen H]; [|by rewrite !length_be_bytes].
  apply be_bytes_inj in Hlen; [|lia..]. apply app_inj_1 in H; [done|lia].
Qed.

Lemma fields_inj l l' :
  length l = length l' → Forall framed l → Forall framed l' → l ≫= field = l' ≫= field → l = l'.
Proof.
  intros Hlen Hl. revert l' Hlen. induction Hl as [|a l Ha Hl IH]; intros [|b l'] Hlen Hl' H; try done.
  inversion Hl'; subst. simpl in H. apply field_inj in H as [-> H]; [|done..]. f_equal. apply IH; auto.
Qed.

(** Two exchanges with the same transcript are the same exchange: the token, both
    endpoint keys, both introductions and both nonces, however long the
    introductions are (below 4 GiB each), so the digits can only coincide for
    different exchanges by a hash collision or by chance. *)
Theorem transcript_determines_exchange t gk hk gi hi gn hn t' gk' hk' gi' hi' gn' hn' :
  Forall framed [t; gk; hk; gi; hi; gn; hn] → Forall framed [t'; gk'; hk'; gi'; hi'; gn'; hn'] →
  transcript t gk hk gi hi gn hn = transcript t' gk' hk' gi' hi' gn' hn' ↔
  [t; gk; hk; gi; hi; gn; hn] = [t'; gk'; hk'; gi'; hi'; gn'; hn'].
Proof.
  intros H1 H2. split; [|by intros [= -> -> -> -> -> -> ->]].
  intros H. apply app_inv_head in H. by apply fields_inj in H.
Qed.
End Wire.

(** ** Generations: a [u32] that never wraps *)
Definition next_generation (current : Z) : result Error Z :=
  match checked_add 32 current 1 with
  | Some g => Ok g
  | None => Err (Error_new Unavailable "this runtime has exhausted meeting generations")
  end.

Lemma next_generation_Ok g g' : next_generation g = Ok g' → g' = g + 1.
Proof. unfold next_generation, checked_add. repeat case_match; congruence. Qed.
