(* ===== verification/Coop.v ===== *)
(** * Cooperative tasks over a shared cell

    The kernel is single-threaded: its tasks share cells ([RefCell]s) and
    interleave exactly at their awaits.  A system is the cell, the suspended
    tasks by number, and the trace of what was done; running a task from one
    await to the next is one step. *)
From S2P Require Import Prelude.

Section Coop.
Context {S K A : Type}.

Record sys := mkSys {
  cell : S;
  tasks : gmap nat K;
  next : nat;
  trace : list A;
}.

Definition with_cell (f : S → S) (σ : sys) : sys := mkSys (f (cell σ)) (tasks σ) (next σ) (trace σ).
Definition log (a : A) (σ : sys) : sys := mkSys (cell σ) (tasks σ) (next σ) (trace σ ++ [a]).
(** Task [t] waits at [k]. *)
Definition park (t : nat) (k : K) (σ : sys) : sys := mkSys (cell σ) (<[t := k]> (tasks σ)) (next σ) (trace σ).
Definition drop_task (t : nat) (σ : sys) : sys := mkSys (cell σ) (delete t (tasks σ)) (next σ) (trace σ).
Definition spawn (k : K) (σ : sys) : sys :=
  mkSys (cell σ) (<[next σ := k]> (tasks σ)) (Datatypes.S (next σ)) (trace σ).

(** Task numbers are handed out once. *)
Definition numbered (σ : sys) : Prop := ∀ t, is_Some (tasks σ !! t) → (t < next σ)%nat.

Lemma numbered_fresh σ : numbered σ → tasks σ !! next σ = None.
Proof. intros H. apply eq_None_not_Some. intros Hs%H. lia. Qed.
Lemma numbered_park t k σ : numbered σ → is_Some (tasks σ !! t) → numbered (park t k σ).
Proof. intros H Ht t'; simpl; intros [->|[_ ?]]%lookup_insert_is_Some; auto. Qed.
Lemma numbered_drop t σ : numbered σ → numbered (drop_task t σ).
Proof. intros H t'; simpl; intros [_ ?]%lookup_delete_is_Some; auto. Qed.
Lemma numbered_spawn k σ : numbered σ → numbered (spawn k σ).
Proof. intros H t'; simpl; intros [<-|[_ Ht]]%lookup_insert_is_Some; [lia|]. specialize (H _ Ht). lia. Qed.

(** A task after each of the updates. *)
Lemma tasks_park t k σ t' k' :
  tasks (park t k σ) !! t' = Some k' → (t' = t ∧ k' = k) ∨ (t' ≠ t ∧ tasks σ !! t' = Some k').
Proof. simpl. intros [[<- <-]|[? ?]]%lookup_insert_Some; auto. Qed.
Lemma tasks_drop t σ t' k' : tasks (drop_task t σ) !! t' = Some k' → t' ≠ t ∧ tasks σ !! t' = Some k'.
Proof. simpl. intros [? ?]%lookup_delete_Some; auto. Qed.
Lemma tasks_spawn k σ t' k' :
  tasks (spawn k σ) !! t' = Some k' → (t' = next σ ∧ k' = k) ∨ (t' ≠ next σ ∧ tasks σ !! t' = Some k').
Proof. simpl. intros [[<- <-]|[? ?]]%lookup_insert_Some; auto. Qed.
End Coop.
Arguments sys _ _ _ : clear implicits.
