(* ===== verification/Meeting.v ===== *)
(** * Contact meetings ([runtime/crates/kernel/src/meeting.rs])

    The shared cell and the tasks of a meeting, as [Coop] systems: the exports,
    the guest, the host, the review both end in, and the expiry timers.  Every
    task carries the generation it was started under; the theorems say what
    that buys: a task of another generation is inert, and a confirmation
    reaches the ceremony whose digits are on the screen. *)
From S2P Require Import Prelude Crypto Error Codes MeetingWire Coop.

Record Review := mkReview {
  rv_generation : Z;
  rv_sas : string;
  peer_key : bytes;
  claims : list (string * string);
}.

Inductive Phase :=
| Idle
| Offering (generation : Z) (link : bytes)
| Dialing (generation : Z)
| AwaitingConfirm (review : Review)
| AwaitingPeer
| PhaseDone (contact_id : string)
| PhaseFailed (why : string).

Record Offer := mkOffer { token : bytes; expires : Z; claimed : bool; introduction : bytes }.

(** [Session]; [owner] is the task whose transport it is. *)
Record Session := mkSession { s_generation : Z; owner : nat; confirm : bool; s_cancelled : bool }.

Record Meeting := mkMeeting {
  generation : Z;
  phase : Phase;
  offer : option Offer;
  session : option Session;
}.
Definition Meeting_default : Meeting := mkMeeting 0 Idle None None.

Definition is_done (p : Phase) : bool := match p with PhaseDone _ => true | _ => false end.
(** [transition]: [None] when it answers [false]. *)
Definition transition (m : Meeting) (g : Z) (p : Phase) : option Meeting :=
  if negb (generation m =? g) || is_done (phase m) then None
  else Some (mkMeeting (generation m) p (if is_done p then None else offer m) (session m)).

Definition burned_why : string := "someone else used this meeting link; make a new one".
Definition burn_generation (m : Meeting) : result Error Meeting :=
  g ← next_generation (generation m);
  Ok (mkMeeting g (PhaseFailed burned_why) None (session m)).

(** [meeting_is_active] *)
Definition active (m : Meeting) (g : Z) : bool :=
  (generation m =? g) && match phase m with Idle | PhaseDone _ | PhaseFailed _ => false | _ => true end.

Section Meeting.
(** A verified introduction, and what the review shows of it
    ([polyvisor_contacts_model]). *)
Context {Intro : Type} (intro_key : Intro → bytes) (intro_claims : Intro → list (string * string)).

Inductive Frame :=
| Claim (token endpoint_key introduction commit : bytes)
| Accept (endpoint_key introduction commit : bytes)
| Reveal (nonce : bytes)
| Confirm
| Accepted
| FrameRefused
| Cancel.

(** A suspended task, by the await it is at; [g] is its generation. *)
Inductive task :=
| OfferSharing (g : Z)
| JoinSharing (g : Z) (host_key token : bytes)
| Expiring (g expires : Z)
(* the guest *)
| GuestDialing (g : Z) (host_key token guest_intro : bytes)
| GuestClaiming (g : Z) (host_key token guest_intro guest_nonce : bytes)
| GuestAccept (g : Z) (host_key token guest_intro guest_nonce : bytes)
| GuestValidating (g : Z) (host_key token guest_intro guest_nonce host_intro host_commit : bytes)
| GuestRevealing (g : Z) (host_key token guest_intro guest_nonce host_intro host_commit : bytes) (i : Intro)
| GuestReveal (g : Z) (host_key token guest_intro guest_nonce host_intro host_commit : bytes) (i : Intro)
(* the host *)
| HostClaim (guest_key : bytes)
| HostValidating (g : Z) (guest_key token guest_intro guest_commit host_intro : bytes)
| HostAccepting (g : Z) (guest_key token guest_intro guest_commit host_intro host_nonce : bytes) (i : Intro)
| HostReveal (g : Z) (guest_key token guest_intro guest_commit host_intro host_nonce : bytes) (i : Intro)
| HostRevealing (g : Z) (guest_key token guest_intro guest_nonce host_intro host_nonce : bytes) (i : Intro)
(* [meeting_confirm_and_persist] *)
| Reviewing (host : bool) (g : Z) (i : Intro) (confirmed peer_confirmed : bool)
| SendingConfirm (host : bool) (g : Z) (i : Intro) (peer_confirmed : bool)
| Accepting (host : bool) (g : Z) (i : Intro)
| Persisting (host : bool) (g : Z) (i : Intro)
| SendingReceipt (host : bool) (g : Z) (id : string)
| AwaitingReceipt (host : bool) (g : Z) (id : string).

(** What an await answers; [TimedOut] where the code selects on a timer. *)
Inductive answer :=
| Sent (r : result string unit)
| Got (f : option Frame)
| Fired
| TimedOut
| Dialed (r : result string bytes)
| ShareDone (r : result Error bytes)
| Validated (r : result string Intro)
| MutationRuns
| MutationRefused (why : string)
| ContactStored (r : result string string).

Inductive act :=
| Announced (g : Z) (p : Phase)
| Sending (t : nat) (f : Frame)
| Closed (t : nat)
| Disposed (t : nat)
| ConfirmFired (t : nat)
| PeerConfirmed (t : nat)
| CommitChecked (t : nat) (commit nonce : bytes)
| Shown (t : nat) (digits : string)
| ContactAccepted (g : Z) (t : nat) (i : Intro)
| Ended (t : nat) (outcome : result string string)
| Replied (r : result Error unit).

Abbreviation sys := (Coop.sys Meeting task act).
Definition init : sys := mkSys Meeting_default ∅ 0 [].

Record env := mkEnv {
  now : Z;
  entropy : nat → byte;
  identity_open : result Error unit;
  engine : result Error unit;
  endpoint : bool;
  page_url : bytes;
}.
Definition fill (e : env) (n : nat) : bytes := entropy e <$> seq 0 n.

Definition is_current (g : Z) (σ : sys) : bool := generation (cell σ) =? g.

(** [meeting_set_phase] *)
Definition set_phase (g : Z) (p : Phase) (σ : sys) : sys :=
  match transition (cell σ) g p with
  | None => σ
  | Some m => log (Announced g p) (with_cell (λ _, m) σ)
  end.

(** [meeting_dispose]: a spawned task that tells the other side and closes. *)
Definition dispose (s : option Session) (σ : sys) : sys :=
  match s with None => σ | Some s => log (Disposed (owner s)) σ end.

Definition replaced : Error := Error_new Refused "that meeting was replaced".
Definition replaced_why : string := "that meeting was replaced".

(** [meeting_reserve] *)
Definition reserve (σ : sys) : result Error (Z * sys) :=
  g ← next_generation (generation (cell σ));
  Ok (g, dispose (session (cell σ)) (with_cell (λ _, mkMeeting g Idle None None) σ)).

(** [meeting_expire] *)
Definition expired_why : string := "this meeting expired".
Definition expire (g : Z) (σ : sys) : sys :=
  let m := cell σ in
  if negb (active m g) then σ else
  match next_generation (generation m) with
  | Err _ => with_cell (λ m, mkMeeting (generation m) (PhaseFailed "meeting generations exhausted") None (session m)) σ
  | Ok g' =>
    let σ := log (Announced g' (PhaseFailed expired_why))
               (with_cell (λ _, mkMeeting g' (PhaseFailed expired_why) None None) σ) in
    match session m with None => σ | Some s => log (Closed (owner s)) σ end
  end.

(** [meeting_finish] *)
Definition finish (g : Z) (outcome : result string string) (σ : sys) : sys :=
  if negb (is_current g σ) then σ else
  let took := match session (cell σ) with
              | Some s => if s_generation s =? g then Some s else None
              | None => None
              end in
  let σ := if took is Some _ then with_cell (λ m, mkMeeting (generation m) (phase m) (offer m) None) σ else σ in
  if match took with Some s => s_cancelled s | None => false end then σ else
  let σ := if is_done (phase (cell σ)) then σ else
           set_phase g (match outcome with Ok id => PhaseDone id | Err why => PhaseFailed why end) σ in
  match took with Some s => log (Closed (owner s)) σ | None => σ end.

(** The end of a ceremony: the host clears its offer first, if it still stands. *)
Definition clear_offer (g : Z) (σ : sys) : sys :=
  if is_current g σ then with_cell (λ m, mkMeeting (generation m) (phase m) None (session m)) σ else σ.
Definition end_task (host : bool) (t : nat) (g : Z) (outcome : result string string) (σ : sys) : sys :=
  drop_task t (log (Ended t outcome) (finish g outcome (if host then clear_offer g σ else σ))).

(** [meeting_bind_session] *)
Definition bind_session (t : nat) (g : Z) (σ : sys) : option sys :=
  if negb (is_current g σ) || bool_decide (is_Some (session (cell σ))) then None
  else Some (with_cell (λ m, mkMeeting (generation m) (phase m) (offer m) (Some (mkSession g t true false))) σ).
Definition already : string := "this device is already meeting".

Definition cancelled_why : string := "the other person cancelled".
Definition gone : string := "the other device went away".
Definition out_of_order : string := "that device did not speak meeting".
Definition unexpected (f : option Frame) : string :=
  match f with Some Cancel => cancelled_why | Some _ => out_of_order | None => gone end.
(** [next_reveal] on the frame that arrived. *)
Definition reveal_of (f : option Frame) : result string bytes :=
  match f with Some (Reveal nonce) => fixed32 nonce "nonce" | f => Err (unexpected f) end.

Context {b32 : Base32Visual} {blake : Blake3} (self_key : bytes).

Definition send (t : nat) (f : Frame) (k : task) (σ : sys) : sys := park t k (log (Sending t f) σ).

(** ** The exports *)

(** [page_url.split(['?', '#']).next()] *)
Fixpoint page_of (url : bytes) : bytes :=
  match url with
  | [] => []
  | c :: url => if (u8 c =? 63) || (u8 c =? 35) then [] else c :: page_of url
  end.
Definition not_bound : Error :=
  Error_new Unavailable "this device is still binding its endpoint; try again in a moment".

Definition meeting_offer (e : env) (σ : sys) : sys :=
  match (_ ← identity_open e; engine e) with
  | Err why => log (Replied (Err why)) σ
  | Ok _ =>
    if negb (endpoint e) then log (Replied (Err not_bound)) σ else
    match reserve σ with
    | Err why => log (Replied (Err why)) σ
    | Ok (g, σ) => spawn (OfferSharing g) σ
    end
  end.

(** After [contacts_share]. *)
Definition offer_shared (e : env) (t : nat) (g : Z) (r : result Error bytes) (σ : sys) : sys :=
  let σ := drop_task t σ in
  match r with
  | Err why => log (Replied (Err why)) (set_phase g (PhaseFailed (message why)) σ)
  | Ok intro =>
    if negb (is_current g σ) then log (Replied (Err replaced)) σ else
    let token := fill e 16 in
    let link := page_of (page_url e) ++ as_bytes "#meet/" ++ encode_fragment self_key token in
    let expires := saturating_add 64 (now e) MEETING_TTL_MS in
    let σ := with_cell (λ m, mkMeeting (generation m) (phase m) (Some (mkOffer token expires false intro)) (session m)) σ in
    log (Replied (Ok ())) (spawn (Expiring g expires) (set_phase g (Offering g link) σ))
  end.

Definition meeting_join (e : env) (fragment : chars) (σ : sys) : sys :=
  match (_ ← identity_open e; engine e) with
  | Err why => log (Replied (Err why)) σ
  | Ok _ =>
    if negb (endpoint e) then log (Replied (Err not_bound)) σ else
    match decode_fragment fragment with
    | Err why => log (Replied (Err (Error_new Refused why))) σ
    | Ok (host_key, token) =>
      if bool_decide (host_key = self_key)
      then log (Replied (Err (Error_new Refused "that is this device's own meeting link"))) σ else
      match reserve σ with
      | Err why => log (Replied (Err why)) σ
      | Ok (g, σ) => spawn (JoinSharing g host_key token) (set_phase g (Dialing g) σ)
      end
    end
  end.

Definition join_shared (e : env) (t : nat) (g : Z) (host_key token : bytes) (r : result Error bytes) (σ : sys) : sys :=
  let σ := drop_task t σ in
  match r with
  | Err why => log (Replied (Err why)) (set_phase g (PhaseFailed (message why)) σ)
  | Ok intro =>
    if negb (is_current g σ) then log (Replied (Err replaced)) σ else
    let expires := saturating_add 64 (now e) MEETING_TTL_MS in
    log (Replied (Ok ())) (spawn (GuestDialing g host_key token intro) (spawn (Expiring g expires) σ))
  end.

Definition nothing_to_confirm : Error := Error_new Refused "there is nothing to confirm".
Definition meeting_confirm (e : env) (g : Z) (σ : sys) : sys :=
  match identity_open e with
  | Err why => log (Replied (Err why)) σ
  | Ok _ =>
    match phase (cell σ) with
    | AwaitingConfirm review =>
      if negb (g =? generation (cell σ)) || negb (g =? rv_generation review)
      then log (Replied (Err replaced)) σ else
      match session (cell σ) with
      | Some (mkSession sg t true c) =>
        log (Replied (Ok ())) (log (ConfirmFired t)
          (with_cell (λ m, mkMeeting (generation m) (phase m) (offer m) (Some (mkSession sg t false c))) σ))
      | _ => log (Replied (Err nothing_to_confirm)) σ
      end
    | _ => log (Replied (Err nothing_to_confirm)) σ
    end
  end.

Definition meeting_cancel (e : env) (g : Z) (σ : sys) : sys :=
  match identity_open e with
  | Err why => log (Replied (Err why)) σ
  | Ok _ =>
    if negb (is_current g σ) then log (Replied (Err replaced)) σ else
    match next_generation (generation (cell σ)) with
    | Err why => log (Replied (Err why)) σ
    | Ok g' =>
      log (Replied (Ok ())) (dispose (session (cell σ))
        (log (Announced g' Idle) (with_cell (λ _, mkMeeting g' Idle None None) σ)))
    end
  end.

(** [meeting_status]: expires a lapsed offer on the way past. *)
Definition meeting_status (e : env) (σ : sys) : sys :=
  match identity_open e with
  | Err _ => σ
  | Ok _ =>
    match offer (cell σ), phase (cell σ) with
    | Some o, Offering _ _ => if expires o <=? now e then expire (generation (cell σ)) σ else σ
    | _, _ => σ
    end
  end.

(** [meeting_invalidate]: before a pairing adopts another identity. *)
Definition meeting_invalidate (e : env) (σ : sys) : sys :=
  if active (cell σ) (generation (cell σ)) then meeting_cancel e (generation (cell σ)) σ else σ.

(** ** The review both roles end in *)
Definition review (host : bool) (t : nat) (g : Z) (digits : string) (i : Intro) (σ : sys) : sys :=
  let rv := mkReview g digits (intro_key i) (intro_claims i) in
  match transition (cell σ) g (AwaitingConfirm rv) with
  | None => end_task host t g (Err replaced_why) σ
  | Some _ => park t (Reviewing host g i false false) (log (Shown t digits) (set_phase g (AwaitingConfirm rv) σ))
  end.

(** The head of the loop: both confirmations lead to the contacts document. *)
Definition review_again (host : bool) (t : nat) (g : Z) (i : Intro) (confirmed peer_confirmed : bool) (σ : sys) : sys :=
  if confirmed && peer_confirmed then
    if is_current g σ then park t (Accepting host g i) σ else end_task host t g (Err replaced_why) σ
  else park t (Reviewing host g i confirmed peer_confirmed) σ.

Definition review_woke (host : bool) (t : nat) (g : Z) (i : Intro) (confirmed peer_confirmed : bool)
    (a : answer) (σ : sys) : option sys :=
  match a with
  | Fired =>
    if confirmed then None else
    Some (if negb (is_current g σ) then end_task host t g (Err replaced_why) σ
          else send t Confirm (SendingConfirm host g i peer_confirmed) σ)
  | Got f =>
    Some (if negb (is_current g σ) then end_task host t g (Err replaced_why) σ else
          match f with
          | Some Confirm => review_again host t g i confirmed true (log (PeerConfirmed t) σ)
          | f => end_task host t g (Err (unexpected f)) σ
          end)
  | _ => None
  end.

(** From the loop's end to the receipt. *)
Definition accept_step (host : bool) (t : nat) (g : Z) (i : Intro) (a : answer) (σ : sys) : option sys :=
  match a with
  | MutationRuns =>
    Some (if is_current g σ then park t (Persisting host g i) (log (ContactAccepted g t i) σ)
          else end_task host t g (Err replaced_why) σ)
  | MutationRefused why => Some (end_task host t g (Err why) σ)
  | _ => None
  end.
Definition stored (host : bool) (t : nat) (g : Z) (r : result string string) (σ : sys) : sys :=
  match r with
  | Err why => end_task host t g (Err why) σ
  | Ok id =>
    if is_current g σ then send t Accepted (SendingReceipt host g id) (set_phase g (PhaseDone id) σ)
    else end_task host t g (Err replaced_why) σ
  end.

(** ** The guest *)
Definition guest_bound (e : env) (t : nat) (g : Z) (host_key token guest_intro : bytes) (σ : sys) : sys :=
  match bind_session t g σ with
  | None => end_task false t g (Err already) σ
  | Some σ =>
    match engine e with
    | Err why => end_task false t g (Err (message why)) σ
    | Ok _ =>
      let guest_nonce := fill e 32 in
      send t (Claim token self_key guest_intro (commitment guest_nonce))
        (GuestClaiming g host_key token guest_intro guest_nonce) σ
    end
  end.

Definition resume_guest (e : env) (t : nat) (k : task) (a : answer) (σ : sys) : option sys :=
  match k, a with
  | GuestDialing g host_key token guest_intro, Dialed (Ok dialed) =>
    Some (if bool_decide (dialed = host_key) then
            if is_current g σ then guest_bound e t g host_key token guest_intro σ
            else drop_task t (log (Closed t) σ)
          else end_task false t g (Err "that device answered with a different endpoint key"%string) σ)
  | GuestDialing g _ _ _, Dialed (Err why) => Some (end_task false t g (Err why) σ)
  | GuestDialing g _ _ _, TimedOut => Some (end_task false t g (Err "that meeting connection timed out"%string) σ)
  | GuestClaiming g host_key token guest_intro guest_nonce, Sent (Ok _) =>
    Some (park t (GuestAccept g host_key token guest_intro guest_nonce) σ)
  | GuestAccept g host_key token guest_intro guest_nonce, Got f =>
    Some (match f with
          | Some (Accept endpoint_key host_intro commit) =>
            if bool_decide (endpoint_key = host_key) then
              match fixed32 commit "commitment" with
              | Err why => end_task false t g (Err why) σ
              | Ok host_commit =>
                park t (GuestValidating g host_key token guest_intro guest_nonce host_intro host_commit) σ
              end
            else end_task false t g (Err out_of_order) σ
          | Some FrameRefused => end_task false t g (Err "that meeting link is spent or expired"%string) σ
          | f => end_task false t g (Err (unexpected f)) σ
          end)
  | GuestValidating g host_key token guest_intro guest_nonce host_intro host_commit, Validated r =>
    Some (match r with
          | Err why => end_task false t g (Err why) σ
          | Ok i => send t (Reveal guest_nonce)
                      (GuestRevealing g host_key token guest_intro guest_nonce host_intro host_commit i) σ
          end)
  | GuestRevealing g host_key token guest_intro guest_nonce host_intro host_commit i, Sent (Ok _) =>
    Some (park t (GuestReveal g host_key token guest_intro guest_nonce host_intro host_commit i) σ)
  | GuestReveal g host_key token guest_intro guest_nonce host_intro host_commit i, Got f =>
    Some (match reveal_of f with
          | Err why => end_task false t g (Err why) σ
          | Ok host_nonce =>
            if negb (bool_decide (commitment host_nonce = host_commit))
            then end_task false t g (Err "that device's nonce did not match its commitment"%string) σ
            else review false t g (sas token self_key host_key guest_intro host_intro guest_nonce host_nonce) i
                   (log (CommitChecked t host_commit host_nonce) σ)
          end)
  | (GuestClaiming g _ _ _ _ | GuestRevealing g _ _ _ _ _ _ _), Sent (Err why) =>
    Some (end_task false t g (Err why) σ)
  | _, _ => None
  end.

(** ** The host *)
Inductive Verdict := Ignore | Refuse | Burn | Claimed (o : Offer).
Definition verdict (now : Z) (token' : bytes) (o : option Offer) : Verdict :=
  match o with
  | None => Ignore
  | Some o =>
    if negb (bool_decide (token' = token o)) then Ignore
    else if claimed o then Burn
    else if expires o <=? now then Refuse
    else Claimed o
  end.

(** [meeting_run_claimed] up to the validation of the guest's introduction. *)
Definition run_claimed (t : nat) (g : Z) (guest_key token' guest_intro guest_commit host_intro : bytes) (σ : sys) : sys :=
  match try_array 16 token' with
  | None => end_task true t g (Err "that meeting token is malformed"%string) σ
  | Some token =>
    match fixed32 guest_commit "commitment" with
    | Err why => end_task true t g (Err why) σ
    | Ok guest_commit => park t (HostValidating g guest_key token guest_intro guest_commit host_intro) σ
    end
  end.

(** [meeting_run_host] on the frame it reads. *)
Definition run_host (e : env) (t : nat) (guest_key : bytes) (f : option Frame) (σ : sys) : sys :=
  match f with
  | Some (Claim token' wire_key guest_intro guest_commit) =>
    if negb (bool_decide (wire_key = guest_key)) then drop_task t (log (Closed t) σ) else
    match verdict (now e) token' (offer (cell σ)) with
    | Ignore => drop_task t (log (Closed t) σ)
    | Refuse => drop_task t (log (Sending t FrameRefused) σ)
    | Burn =>
      match burn_generation (cell σ) with
      | Err _ => drop_task t σ
      | Ok m =>
        drop_task t (log (Sending t FrameRefused) (dispose (session m)
          (log (Announced (generation m) (PhaseFailed burned_why))
             (with_cell (λ _, mkMeeting (generation m) (phase m) (offer m) None) σ))))
      end
    | Claimed o =>
      let o' := mkOffer (token o) (expires o) true (introduction o) in
      let σ := with_cell (λ m, mkMeeting (generation m) (phase m) (Some o') (session m)) σ in
      run_claimed t (generation (cell σ)) guest_key token' guest_intro guest_commit (introduction o) σ
    end
  | _ => drop_task t (log (Closed t) σ)
  end.

Definition host_validated (e : env) (t : nat) (g : Z) (guest_key token guest_intro guest_commit host_intro : bytes)
    (r : result string Intro) (σ : sys) : sys :=
  match r with
  | Err why => end_task true t g (Err why) σ
  | Ok i =>
    match engine e with
    | Err why => end_task true t g (Err (message why)) σ
    | Ok _ =>
      match bind_session t g σ with
      | None => end_task true t g (Err already) σ
      | Some σ =>
        let host_nonce := fill e 32 in
        send t (Accept self_key host_intro (commitment host_nonce))
          (HostAccepting g guest_key token guest_intro guest_commit host_intro host_nonce i) σ
      end
    end
  end.

Definition resume_host (e : env) (t : nat) (k : task) (a : answer) (σ : sys) : option sys :=
  match k, a with
  | HostClaim guest_key, Got f => Some (run_host e t guest_key f σ)
  | HostClaim _, TimedOut => Some (drop_task t (log (Closed t) σ))
  | HostValidating g guest_key token guest_intro guest_commit host_intro, Validated r =>
    Some (host_validated e t g guest_key token guest_intro guest_commit host_intro r σ)
  | HostAccepting g guest_key token guest_intro guest_commit host_intro host_nonce i, Sent (Ok _) =>
    Some (park t (HostReveal g guest_key token guest_intro guest_commit host_intro host_nonce i) σ)
  | HostReveal g guest_key token guest_intro guest_commit host_intro host_nonce i, Got f =>
    Some (match reveal_of f with
          | Err why => end_task true t g (Err why) σ
          | Ok guest_nonce =>
            if negb (bool_decide (commitment guest_nonce = guest_commit))
            then end_task true t g (Err "that device's nonce did not match its commitment"%string) σ
            else send t (Reveal host_nonce)
                   (HostRevealing g guest_key token guest_intro guest_nonce host_intro host_nonce i)
                   (log (CommitChecked t guest_commit guest_nonce) σ)
          end)
  | HostRevealing g guest_key token guest_intro guest_nonce host_intro host_nonce i, Sent (Ok _) =>
    Some (review true t g (sas token guest_key self_key guest_intro host_intro guest_nonce host_nonce) i σ)
  | (HostAccepting g _ _ _ _ _ _ _ | HostRevealing g _ _ _ _ _ _ _), Sent (Err why) =>
    Some (end_task true t g (Err why) σ)
  | _, _ => None
  end.

Definition resume_review (t : nat) (k : task) (a : answer) (σ : sys) : option sys :=
  match k, a with
  | Reviewing host g i confirmed peer_confirmed, a => review_woke host t g i confirmed peer_confirmed a σ
  | SendingConfirm host g i peer_confirmed, Sent (Ok _) =>
    Some (review_again host t g i true peer_confirmed
            (if peer_confirmed then σ else set_phase g AwaitingPeer σ))
  | SendingConfirm host g _ _, Sent (Err why) => Some (end_task host t g (Err why) σ)
  | Accepting host g i, a => accept_step host t g i a σ
  | Persisting host g _, ContactStored r => Some (stored host t g r σ)
  | SendingReceipt host g id, Sent _ => Some (park t (AwaitingReceipt host g id) σ)
  | AwaitingReceipt host g id, Got _ => Some (end_task host t g (Ok id) σ)
  | (SendingReceipt host g id | AwaitingReceipt host g id), TimedOut => Some (end_task host t g (Ok id) σ)
  | _, _ => None
  end.

Definition resume (e : env) (t : nat) (k : task) (a : answer) (σ : sys) : option sys :=
  match k with
  | OfferSharing g => match a with ShareDone r => Some (offer_shared e t g r σ) | _ => None end
  | JoinSharing g host_key token =>
    match a with ShareDone r => Some (join_shared e t g host_key token r σ) | _ => None end
  | Expiring g expires =>
    match a with
    | TimedOut =>
      Some (let σ := drop_task t σ in
            if active (cell σ) g && (expires <=? now e) then expire g σ else σ)
    | _ => None
    end
  | GuestDialing _ _ _ _ | GuestClaiming _ _ _ _ _ | GuestAccept _ _ _ _ _ | GuestValidating _ _ _ _ _ _ _
  | GuestRevealing _ _ _ _ _ _ _ _ | GuestReveal _ _ _ _ _ _ _ _ => resume_guest e t k a σ
  | HostClaim _ | HostValidating _ _ _ _ _ _ | HostAccepting _ _ _ _ _ _ _ _ | HostReveal _ _ _ _ _ _ _ _
  | HostRevealing _ _ _ _ _ _ _ _ => resume_host e t k a σ
  | _ => resume_review t k a σ
  end.

(** ** Runs *)
Inductive input :=
| CallOffer
| CallJoin (fragment : chars)
| CallConfirm (g : Z)
| CallCancel (g : Z)
| CallStatus
| CallInvalidate
| Inbound (guest_key : bytes)
| Resume (t : nat) (a : answer).

Definition was_fired (t : nat) (a : act) : bool :=
  match a with ConfirmFired t' => bool_decide (t' = t) | _ => false end.
Definition fired (t : nat) (σ : sys) : bool := existsb (was_fired t) (trace σ).

Definition step (e : env) (σ : sys) (i : input) : option sys :=
  match i with
  | CallOffer => Some (meeting_offer e σ)
  | CallJoin fragment => Some (meeting_join e fragment σ)
  | CallConfirm g => Some (meeting_confirm e g σ)
  | CallCancel g => Some (meeting_cancel e g σ)
  | CallStatus => Some (meeting_status e σ)
  | CallInvalidate => Some (meeting_invalidate e σ)
  | Inbound guest_key => Some (spawn (HostClaim guest_key) σ)
  | Resume t a =>
    match tasks σ !! t, a with
    | None, _ => None
    | Some k, Fired => if fired t σ then resume e t k Fired σ else None
    | Some k, a => resume e t k a σ
    end
  end.

Inductive reachable : sys → Prop :=
| reach_init : reachable init
| reach_step σ e i σ' : reachable σ → step e σ i = Some σ' → reachable σ'.

(** ** Tasks of another generation are inert *)
Definition gen_of (k : task) : option Z :=
  match k with
  | OfferSharing g | JoinSharing g _ _ | Expiring g _
  | GuestDialing g _ _ _ | GuestClaiming g _ _ _ _ | GuestAccept g _ _ _ _ | GuestValidating g _ _ _ _ _ _
  | GuestRevealing g _ _ _ _ _ _ _ | GuestReveal g _ _ _ _ _ _ _
  | HostValidating g _ _ _ _ _ | HostAccepting g _ _ _ _ _ _ _ | HostReveal g _ _ _ _ _ _ _
  | HostRevealing g _ _ _ _ _ _ _
  | Reviewing _ g _ _ _ | SendingConfirm _ g _ _ | Accepting _ g _ | Persisting _ g _
  | SendingReceipt _ g _ | AwaitingReceipt _ g _ => Some g
  | HostClaim _ => None
  end.

Definition quiet (a : act) : Prop :=
  match a with Announced _ _ | ContactAccepted _ _ _ => False | _ => True end.
Definition inert (σ σ' : sys) : Prop :=
  cell σ' = cell σ ∧ ∃ l, trace σ' = trace σ ++ l ∧ Forall quiet l.

Lemma inert_refl σ : inert σ σ.
Proof. split; [done|]. exists []. by rewrite app_nil_r. Qed.
Lemma inert_log a σ σ' : inert σ σ' → quiet a → inert σ (log a σ').
Proof.
  intros [H (l & Hl & Hq)] Ha. split; [done|]. exists (l ++ [a]). simpl. rewrite Hl, app_assoc.
  split; [done|]. by apply Forall_app; split; [|apply Forall_singleton].
Qed.
Lemma inert_park t k σ σ' : inert σ σ' → inert σ (park t k σ').
Proof. done. Qed.
Lemma inert_drop t σ σ' : inert σ σ' → inert σ (drop_task t σ').
Proof. done. Qed.

Definition stale (g : Z) (σ : sys) : Prop := is_current g σ = false.
Lemma stale_set_phase g p σ : stale g σ → set_phase g p σ = σ.
Proof. unfold stale, is_current, set_phase, transition. by intros ->. Qed.
Lemma stale_active g σ : stale g σ → active (cell σ) g = false.
Proof. unfold stale, is_current, active. by intros ->. Qed.
Lemma stale_end host t g o σ : stale g σ → end_task host t g o σ = drop_task t (log (Ended t o) σ).
Proof.
  unfold end_task, stale. intros Hs. assert ((if host then clear_offer g σ else σ) = σ) as ->.
  { unfold clear_offer. rewrite Hs. by destruct host. }
  unfold finish. by rewrite Hs.
Qed.
Lemma stale_bind t g σ : stale g σ → bind_session t g σ = None.
Proof. unfold bind_session, stale. by intros ->. Qed.
Lemma stale_review host t g d i σ : stale g σ → review host t g d i σ = drop_task t (log (Ended t (Err replaced_why)) σ).
Proof.
  intros Hs. unfold review. assert (∀ p, transition (cell σ) g p = None) as ->.
  { intros p. unfold transition. unfold stale, is_current in Hs. by rewrite Hs. }
  by apply stale_end.
Qed.
Lemma stale_log a g σ : stale g σ → stale g (log a σ).
Proof. done. Qed.
Lemma stale_drop t g σ : stale g σ → stale g (drop_task t σ).
Proof. done. Qed.

Ltac inert_steps :=
  repeat lazymatch goal with
    | |- inert _ (log _ _) => apply inert_log; [|exact I]
    | |- inert _ (park _ _ _) => apply inert_park
    | |- inert _ (drop_task _ _) => apply inert_drop
    | |- inert ?s ?s => apply inert_refl
    end.

(** What a generation buys.  Whatever a task of a meeting that was cancelled,
    replaced, burned or expired is answered, running it on changes nothing of the
    meeting that is on the screen: not its phase, its offer, its session or its
    generation; it announces nothing and it accepts no contact. *)
Theorem stale_task_inert e t k a σ σ' g :
  resume e t k a σ = Some σ' → gen_of k = Some g → generation (cell σ) ≠ g → inert σ σ'.
Proof.
  intros Hr Hg Hne. assert (stale g σ) as Hs by by apply Z.eqb_neq.
  destruct k; try discriminate Hg; injection Hg as <-; unfold resume, resume_guest, resume_host, resume_review in Hr;
    destruct a; try discriminate Hr;
    unfold review_woke, accept_step, stored, host_validated, guest_bound, offer_shared, join_shared,
      review_again, reveal_of, send in Hr.
  all: repeat (first [progress simplify_eq | case_match]).
  all: rewrite ?stale_review, ?stale_end, ?stale_set_phase by (try apply stale_log; try apply stale_drop; exact Hs).
  all: inert_steps.
  all: exfalso; match goal with
       | E : negb _ = false |- _ => apply negb_false_iff in E; exact (eq_true_false_abs _ E Hs)
       | E : is_current _ _ = true |- _ => exact (eq_true_false_abs _ E Hs)
       | E : bind_session _ _ _ = Some _ |- _ => by rewrite stale_bind in E
       | E : active _ _ && _ = true |- _ => apply andb_true_iff in E as [E _]; exact (eq_true_false_abs _ E (stale_active _ _ Hs))
       end.
Qed.

(** ** One ceremony per generation *)

(** The ceremony a task belongs to; a timer and an unread dial belong to none. *)
Definition cgen (k : task) : option Z :=
  match k with Expiring _ _ | HostClaim _ => None | k => gen_of k end.
(** Still collecting this side's own introduction. *)
Definition sharing (k : task) : bool :=
  match k with OfferSharing _ | JoinSharing _ _ _ => true | _ => false end.
(** Past [meeting_bind_session]. *)
Definition bound (k : task) : bool :=
  match k with
  | OfferSharing _ | JoinSharing _ _ _ | Expiring _ _ | GuestDialing _ _ _ _ | HostClaim _
  | HostValidating _ _ _ _ _ _ => false
  | _ => true
  end.
Definition unclaimed (m : Meeting) : Prop := ∃ o, offer m = Some o ∧ claimed o = false.
Definition none_current (σ : sys) : Prop :=
  ∀ t k, tasks σ !! t = Some k → cgen k ≠ Some (generation (cell σ)).

Record one_ceremony (σ : sys) : Prop := {
  oc_numbered : numbered σ;
  oc_past : ∀ t k g, tasks σ !! t = Some k → cgen k = Some g → g <= generation (cell σ);
  oc_unique : ∀ t t' k k', tasks σ !! t = Some k → tasks σ !! t' = Some k' →
    cgen k = Some (generation (cell σ)) → cgen k' = Some (generation (cell σ)) → t = t';
  oc_offer : unclaimed (cell σ) → none_current σ;
  oc_session : ∀ s, session (cell σ) = Some s →
    s_generation s = generation (cell σ) ∧ s_cancelled s = false ∧
    ∃ k, tasks σ !! owner s = Some k ∧ cgen k = Some (generation (cell σ)) ∧ sharing k = false;
  oc_bound : ∀ t k, tasks σ !! t = Some k → bound k = true → cgen k = Some (generation (cell σ)) →
    ∃ s, session (cell σ) = Some s ∧ owner s = t;
  oc_shown : ∀ rv, phase (cell σ) = AwaitingConfirm rv →
    rv_generation rv = generation (cell σ) ∧
    ∃ s, session (cell σ) = Some s ∧ Shown (owner s) (rv_sas rv) ∈ trace σ;
}.

Definition reviewing (p : Phase) : bool := match p with AwaitingConfirm _ => true | _ => false end.

Lemma one_log a σ : one_ceremony σ → one_ceremony (log a σ).
Proof.
  intros [H1 H2 H3 H4 H5 H6 H7]. split; try done. intros rv Hrv. destruct (H7 rv Hrv) as (Hg & s & Hs & Hin).
  split; [done|]. exists s. split; [done|]. apply elem_of_app. by left.
Qed.

(** A phase that is not a review. *)
Lemma one_phase g p σ : one_ceremony σ → reviewing p = false → one_ceremony (set_phase g p σ).
Proof.
  intros Hi Hp. unfold set_phase, transition. case_match; [|done]. case_match; [done|]. simplify_eq.
  apply one_log. destruct Hi as [H1 H2 H3 H4 H5 H6 H7]. split; simpl; try done.
  - intros (o & Ho & Hc). apply H4. destruct (is_done p); [done|]. by exists o.
  - intros rv ->. done.
Qed.

(** A new generation leaves every ceremony behind. *)
Lemma one_bump g p σ : one_ceremony σ → generation (cell σ) < g → reviewing p = false →
  one_ceremony (with_cell (λ _, mkMeeting g p None None) σ).
Proof.
  intros [H1 H2 H3 H4 H5 H6 H7] Hg Hp. split; simpl; try done.
  - intros t k g0 Hk Hc. specialize (H2 _ _ _ Hk Hc). lia.
  - intros t t' k k' Hk Hk' Hc. specialize (H2 _ _ _ Hk Hc). lia.
  - by intros (o & [=] & _).
  - intros t k Hk _ Hc. specialize (H2 _ _ _ Hk Hc). lia.
  - intros rv ->. done.
Qed.

Lemma one_no_offer σ : one_ceremony σ →
  one_ceremony (with_cell (λ m, mkMeeting (generation m) (phase m) None (session m)) σ).
Proof. intros [H1 H2 H3 H4 H5 H6 H7]. split; try done. by intros (o & [=] & _). Qed.

(** A task moves on within its ceremony. *)
Lemma one_park t k k' σ : one_ceremony σ → tasks σ !! t = Some k → cgen k' = cgen k →
  sharing k' = false →
  (bound k' = true → cgen k = Some (generation (cell σ)) → ∃ s, session (cell σ) = Some s ∧ owner s = t) →
  one_ceremony (park t k' σ).
Proof.
  intros [H1 H2 H3 H4 H5 H6 H7] Hk Hc Hs Hb.
  assert (∀ t0 k0, tasks (park t k' σ) !! t0 = Some k0 → ∃ k1, tasks σ !! t0 = Some k1 ∧ cgen k0 = cgen k1) as Hold.
  { intros t0 k0 [[-> ->]|[_ Ht]]%tasks_park; eauto. }
  split; try done.
  - apply numbered_park; eauto.
  - intros t0 k0 g0 (k1 & Hk1 & ->)%Hold. by eapply H2.
  - intros t0 t1 k0 k1 (k2 & Hk2 & ->)%Hold (k3 & Hk3 & ->)%Hold. by eapply H3.
  - intros Hu t0 k0 (k1 & Hk1 & ->)%Hold. by apply (H4 Hu t0).
  - intros s Hse. destruct (H5 s Hse) as (Hg & Hca & k0 & Hk0 & Hc0 & Hs0). split; [done|]. split; [done|].
    simpl. destruct (decide (owner s = t)) as [E|Hne].
    + exists k'. rewrite E, lookup_insert_eq. split; [done|]. split; [|done]. rewrite Hc. congruence.
    + exists k0. by rewrite lookup_insert_ne.
  - intros t0 k0 [[-> ->]|[_ Ht]]%tasks_park; [|by apply H6]. rewrite Hc. apply Hb.
Qed.

(** A task outside every ceremony starts or goes. *)
Lemma one_spawn_none k σ : one_ceremony σ → cgen k = None → bound k = false → one_ceremony (spawn k σ).
Proof.
  intros [H1 H2 H3 H4 H5 H6 H7] Hc Hb. split; try done.
  - by apply numbered_spawn.
  - intros t0 k0 g0 [[-> ->]|[_ Ht]]%tasks_spawn; [congruence|by apply (H2 t0)].
  - intros t0 t1 k0 k1 [[-> ->]|[_ Ht0]]%tasks_spawn [[-> ->]|[_ Ht1]]%tasks_spawn; try congruence. by eapply H3.
  - intros Hu t0 k0 [[-> ->]|[_ Ht]]%tasks_spawn; [by rewrite Hc|]. by apply (H4 Hu t0).
  - intros s Hse. destruct (H5 s Hse) as (Hg & Hca & k0 & Hk0 & Hc0 & Hs0). split; [done|]. split; [done|].
    exists k0. simpl. rewrite lookup_insert_ne; [done|]. intros E. rewrite <- E, numbered_fresh in Hk0; done.
  - intros t0 k0 [[-> ->]|[_ Ht]]%tasks_spawn; [congruence|by apply H6].
Qed.
(** A ceremony starts where there is none. *)
Lemma one_spawn k σ : one_ceremony σ → cgen k = Some (generation (cell σ)) → bound k = false →
  none_current σ → ¬ unclaimed (cell σ) → one_ceremony (spawn k σ).
Proof.
  intros [H1 H2 H3 H4 H5 H6 H7] Hc Hb Hno Hun. split; try done.
  - by apply numbered_spawn.
  - intros t0 k0 g0 [[-> ->]|[_ Ht]]%tasks_spawn; [simpl; intros [= <-]%(eq_trans (eq_sym Hc)); lia|by apply (H2 t0)].
  - intros t0 t1 k0 k1 [[-> ->]|[_ Ht0]]%tasks_spawn [[-> ->]|[_ Ht1]]%tasks_spawn Hc0 Hc1; [done| | |].
    + by destruct (Hno _ _ Ht1).
    + by destruct (Hno _ _ Ht0).
    + by destruct (Hno _ _ Ht0).
  - intros s Hse. destruct (H5 s Hse) as (_ & _ & k0 & Hk0 & Hc0 & _). by destruct (Hno _ _ Hk0).
  - intros t0 k0 [[-> ->]|[_ Ht]]%tasks_spawn; [congruence|by apply H6].
Qed.
Lemma one_drop t k σ : one_ceremony σ → tasks σ !! t = Some k →
  (cgen k = Some (generation (cell σ)) → sharing k = true ∨ session (cell σ) = None) →
  one_ceremony (drop_task t σ).
Proof.
  intros [H1 H2 H3 H4 H5 H6 H7] Hk Hc. split; try done.
  - by apply numbered_drop.
  - intros t0 k0 g0 [_ Ht]%tasks_drop. by apply (H2 t0).
  - intros t0 t1 k0 k1 [_ Ht]%tasks_drop [_ Ht1]%tasks_drop. by apply H3.
  - intros Hu t0 k0 [_ Ht]%tasks_drop. by apply (H4 Hu t0).
  - intros s Hse. destruct (H5 s Hse) as (Hg & Hca & k0 & Hk0 & Hc0 & Hs0). split; [done|]. split; [done|].
    exists k0. simpl. rewrite lookup_delete_ne; [done|]. intros E. rewrite <- E, Hk in Hk0. injection Hk0 as <-.
    simpl in Hse, Hc0. destruct (Hc Hc0); congruence.
  - intros t0 k0 [_ Ht]%tasks_drop. by apply H6.
Qed.

(** The end of a ceremony, by its own task. *)
Lemma one_end host t k g o σ : one_ceremony σ → tasks σ !! t = Some k →
  (g = generation (cell σ) → ∀ t' k', tasks σ !! t' = Some k' → cgen k' = Some g → t' = t) →
  (cgen k = Some g ∨ cgen k = None) →
  one_ceremony (end_task host t g o σ).
Proof.
  intros Hi Hk Hon Hcg. unfold end_task.
  assert (one_ceremony (if host then clear_offer g σ else σ)) as Hi'.
  { unfold clear_offer. destruct host; [|done]. destruct (is_current g σ); [by apply one_no_offer|done]. }
  assert (tasks (if host then clear_offer g σ else σ) = tasks σ ∧
    generation (cell (if host then clear_offer g σ else σ)) = generation (cell σ) ∧
    session (cell (if host then clear_offer g σ else σ)) = session (cell σ)) as (E1 & E2 & E3).
  { unfold clear_offer. destruct host; [|done]. by destruct (is_current g σ). }
  revert Hi' E1 E2 E3. generalize (if host then clear_offer g σ else σ) as τ. intros τ Hi' E1 E2 E3.
  unfold finish, is_current. destruct (Z.eqb_spec (generation (cell τ)) g) as [Hg|Hg]; cbn [negb].
  2: { eapply one_drop; [by apply one_log|simpl; by rewrite E1|]. simpl. intros Hc. destruct Hcg; congruence. }
  set (took := match session (cell τ) with
               | Some s => if s_generation s =? g then Some s else None
               | None => None
               end).
  assert (took = session (cell τ) ∧ match took with Some s => s_cancelled s | None => false end = false) as [Htook ->].
  { unfold took. destruct (session (cell τ)) as [s|] eqn:Hse; [|done].
    destruct (oc_session _ Hi' s Hse) as (G1 & G2 & _). by rewrite G1, Hg, Z.eqb_refl. }
  set (υ := if took is Some _ then with_cell (λ m, mkMeeting (generation m) (phase m) (offer m) None) τ else τ).
  assert (tasks υ = tasks τ ∧ session (cell υ) = None ∧ generation (cell υ) = g ∧ trace υ = trace τ ∧
    offer (cell υ) = offer (cell τ) ∧ phase (cell υ) = phase (cell τ) ∧ next υ = next τ) as (F1 & F2 & F3 & F4 & F5 & F6 & F7).
  { unfold υ. rewrite Htook. destruct (session (cell τ)) eqn:Hse; by split_and!. }
  set (p := match o with Ok id => PhaseDone id | Err why => PhaseFailed why end).
  assert (∃ ph off l, (if is_done (phase (cell υ)) then υ else set_phase g p υ)
    = mkSys (mkMeeting g ph off None) (tasks τ) (next τ) l ∧ reviewing ph = false ∧
      (∀ o, off = Some o → offer (cell τ) = Some o)) as (ph & off & l & -> & Hph & Hoff).
  { destruct (is_done (phase (cell υ))) eqn:Hd.
    - exists (phase (cell υ)), (offer (cell υ)), (trace υ). split; [|split; [by destruct (phase (cell υ))|by rewrite F5]].
      destruct υ as [[]]. simpl in *. congruence.
    - unfold set_phase, transition. rewrite F3, Z.eqb_refl, Hd. cbn [negb orb].
      eexists _, _, _. split; [unfold log, with_cell; simpl; rewrite F1, F2, F7; reflexivity|].
      split; [by destruct o|]. rewrite F5. by destruct (is_done p). }
  assert (one_ceremony (drop_task t (mkSys (mkMeeting g ph off None) (tasks τ) (next τ) l))) as Hend.
  { destruct Hi' as [H1 H2 H3 H4 H5 H6 H7]. rewrite Hg in *. split; simpl; try done.
    - apply (numbered_drop t τ). done.
    - intros t0 k0 g0 [_ Ht]%tasks_drop. by apply (H2 t0).
    - intros t0 t1 k0 k1 [_ Ht]%tasks_drop [_ Ht1]%tasks_drop. by apply H3.
    - intros (o' & Ho & Hcl) t0 k0 [_ Ht]%tasks_drop Hc0.
      apply (H4 (ex_intro _ o' (conj (Hoff _ Ho) Hcl)) t0 k0 Ht). by rewrite Hg.
    - intros t0 k0 [Hne Ht]%tasks_drop _ Hc0. destruct Hne. simpl in Ht, Hc0. rewrite E1 in Ht. apply (Hon ltac:(congruence) t0 k0 Ht Hc0).
    - intros rv ->. done. }
  assert (∀ a σ, one_ceremony (drop_task t σ) → one_ceremony (drop_task t (log a σ))) as Hlog.
  { intros a σ0 Hσ. apply (one_log a) in Hσ. exact Hσ. }
  apply Hlog. destruct took; [by apply Hlog|done].
Qed.

Lemma only_by_unique t k g σ : one_ceremony σ → tasks σ !! t = Some k → cgen k = Some g →
  g = generation (cell σ) → ∀ t' k', tasks σ !! t' = Some k' → cgen k' = Some g → t' = t.
Proof. intros Hi Hk Hc -> t' k' Hk' Hc'. by eapply (oc_unique _ Hi t' t). Qed.

Lemma one_end_own host t k g o σ : one_ceremony σ → tasks σ !! t = Some k → cgen k = Some g →
  one_ceremony (end_task host t g o σ).
Proof. intros Hi Hk Hc. eapply one_end; [done|done|by eapply only_by_unique|by left]. Qed.

Lemma one_bind t k g σ σ' : one_ceremony σ → tasks σ !! t = Some k → cgen k = Some g →
  bound k = false → sharing k = false → bind_session t g σ = Some σ' →
  one_ceremony σ' ∧ tasks σ' = tasks σ ∧ trace σ' = trace σ ∧ generation (cell σ') = g ∧
  session (cell σ') = Some (mkSession g t true false).
Proof.
  intros Hi Hk Hc Hb Hs. unfold bind_session, is_current. destruct (Z.eqb_spec (generation (cell σ)) g) as [Hg|]; [|done].
  cbn [negb orb]. destruct (session (cell σ)) eqn:Hse; [done|]. intros [= <-]. split; [|done].
  destruct Hi as [H1 H2 H3 H4 H5 H6 H7]. split; simpl; try done.
  - intros s [= <-]. simpl. split; [done|]. split; [done|]. exists k. by rewrite Hg.
  - intros t0 k0 Ht0 Hb0 Hc0. destruct (H6 _ _ Ht0 Hb0 Hc0) as (s & Hse' & _). congruence.
  - intros rv Hrv. destruct (H7 rv Hrv) as (_ & s & Hse' & _). congruence.
Qed.

Lemma one_review host t k g d i σ : one_ceremony σ → tasks σ !! t = Some k → cgen k = Some g → bound k = true →
  one_ceremony (review host t g d i σ).
Proof.
  intros Hi Hk Hc Hb. unfold review, set_phase. destruct (transition (cell σ) g _) as [m|] eqn:Hm.
  2: { by eapply one_end_own. }
  unfold transition in Hm. destruct (Z.eqb_spec (generation (cell σ)) g) as [Hg|]; [|done]. cbn [negb orb] in Hm.
  case_match; [done|]. injection Hm as <-. cbn [is_done].
  destruct (oc_bound _ Hi t k Hk Hb) as (s & Hse & Hown); [congruence|].
  set (rv := mkReview g d (intro_key i) (intro_claims i)).
  set (τ := log (Shown t d) (log (Announced g (AwaitingConfirm rv))
    (with_cell (λ _, mkMeeting (generation (cell σ)) (AwaitingConfirm rv) (offer (cell σ)) (session (cell σ))) σ))).
  assert (one_ceremony τ) as Hτ.
  { destruct Hi as [H1 H2 H3 H4 H5 H6 H7]. split; try done. intros rv' [= <-]. simpl. split; [done|].
    exists s. split; [done|]. rewrite Hown. apply elem_of_app. right. by left. }
  apply (one_park t k); [done|done|by rewrite Hc|done|]. intros _ _. by exists s.
Qed.

Lemma one_expire g σ : one_ceremony σ → one_ceremony (expire g σ).
Proof.
  intros Hi. unfold expire. case_match; [done|]. destruct (next_generation _) as [g'|e] eqn:Hn.
  - apply next_generation_Ok in Hn. assert (one_ceremony (log (Announced g' (PhaseFailed expired_why))
      (with_cell (λ _, mkMeeting g' (PhaseFailed expired_why) None None) σ))) as Ho.
    { apply one_log, one_bump; [done|lia|done]. }
    case_match; [by apply one_log|done].
  - destruct Hi as [H1 H2 H3 H4 H5 H6 H7]. split; try done. by intros (o & [=] & _).
Qed.

Lemma one_dispose s σ : one_ceremony σ → one_ceremony (dispose s σ).
Proof. intros Hi. destruct s; [by apply one_log|done]. Qed.

Lemma one_reserve σ g τ : one_ceremony σ → reserve σ = Ok (g, τ) →
  one_ceremony τ ∧ g = generation (cell τ) ∧ none_current τ ∧ ¬ unclaimed (cell τ).
Proof.
  intros Hi. unfold reserve. destruct (next_generation _) as [g'|e] eqn:Hn; [|done]. intros [= <- <-].
  apply next_generation_Ok in Hn.
  split; [by apply one_dispose, one_bump; [|lia|]|]. assert (∀ s τ, cell (dispose s τ) = cell τ ∧ tasks (dispose s τ) = tasks τ) as Hd.
  { by intros [] ?. }
  unfold none_current. destruct (Hd (session (cell σ)) (with_cell (λ _, mkMeeting g' Idle None None) σ)) as [-> ->].
  split; [done|]. split; [|by intros (o & [=] & _)].
  intros t k Hk Hc. pose proof (oc_past _ Hi _ _ _ Hk Hc). simpl in *. lia.
Qed.

Lemma set_phase_same g p σ : generation (cell (set_phase g p σ)) = generation (cell σ) ∧
  tasks (set_phase g p σ) = tasks σ ∧ (¬ unclaimed (cell σ) → ¬ unclaimed (cell (set_phase g p σ))).
Proof.
  unfold set_phase, transition. case_match; [|done]. case_match; [done|]. simplify_eq. split; [done|]. split; [done|].
  intros Hu (o & Ho & Hc). apply Hu. simpl in Ho. destruct (is_done p); [done|]. by exists o.
Qed.

Lemma one_park_phase t k k' g p σ : one_ceremony σ → tasks σ !! t = Some k → cgen k' = cgen k →
  sharing k' = false → reviewing p = false → bound k = true →
  one_ceremony (park t k' (set_phase g p σ)).
Proof.
  intros Hi Hk Hc Hs Hp Hb. destruct (set_phase_same g p σ) as (Eg & Et & _).
  assert (session (cell (set_phase g p σ)) = session (cell σ)) as Ese.
  { unfold set_phase, transition. case_match; [|done]. case_match; [done|]. by simplify_eq. }
  apply (one_park t k); [by apply one_phase|by rewrite Et|done|done|]. rewrite Eg, Ese. intros _ Hg.
  by apply (oc_bound _ Hi t k).
Qed.

(** A sharing task has no session; after it, its generation has no ceremony. *)
Lemma one_shared t k σ : one_ceremony σ → tasks σ !! t = Some k → sharing k = true →
  one_ceremony (drop_task t σ) ∧
  (cgen k = Some (generation (cell σ)) → none_current (drop_task t σ) ∧ session (cell σ) = None ∧ ¬ unclaimed (cell σ)).
Proof.
  intros Hi Hk Hs. split; [eapply one_drop; [done|done|by left]|]. intros Hc. split_and!.
  - intros t' k' [Hne Hk']%tasks_drop Hc'. apply Hne. by eapply (oc_unique _ Hi).
  - destruct (session (cell σ)) as [s|] eqn:Hse; [|done].
    destruct (oc_session _ Hi s Hse) as (_ & _ & k' & Hk' & Hc' & Hs').
    assert (owner s = t) as E by by eapply (oc_unique _ Hi). rewrite E in Hk'. congruence.
  - intros Hu. by destruct (oc_offer _ Hi Hu t k Hk).
Qed.

Lemma one_offer_shared e t g r σ : one_ceremony σ → tasks σ !! t = Some (OfferSharing g) →
  one_ceremony (offer_shared e t g r σ).
Proof.
  intros Hi Hk. destruct (one_shared t _ σ Hi Hk) as [Hd Hcur]; [done|]. unfold offer_shared.
  destruct r as [intro|why]; [|by apply one_log, one_phase]. unfold is_current.
  destruct (Z.eqb_spec (generation (cell (drop_task t σ))) g) as [Hg|]; cbn [negb]; [|by apply one_log].
  destruct Hcur as (Hno & Hse & _); [simpl in *; congruence|].
  apply one_log, one_spawn_none; [|done|done]. apply one_phase; [|done].
  destruct Hd as [H1 H2 H3 H4 H5 H6 H7]. by split.
Qed.

Lemma one_join_shared e t g hk tok r σ : one_ceremony σ → tasks σ !! t = Some (JoinSharing g hk tok) →
  one_ceremony (join_shared e t g hk tok r σ).
Proof.
  intros Hi Hk. destruct (one_shared t _ σ Hi Hk) as [Hd Hcur]; [done|]. unfold join_shared.
  destruct r as [intro|why]; [|by apply one_log, one_phase]. unfold is_current.
  destruct (Z.eqb_spec (generation (cell (drop_task t σ))) g) as [Hg|]; cbn [negb]; [|by apply one_log].
  destruct Hcur as (Hno & Hse & Hu); [simpl in *; congruence|].
  apply one_log, one_spawn; [by apply one_spawn_none|simpl in *; congruence|done| |done].
  intros t' k' [[_ ->]|[_ Hk']]%tasks_spawn; [done|]. by apply (Hno t').
Qed.

Lemma verdict_claimed n tok o' o : verdict n tok o' = Claimed o → o' = Some o ∧ claimed o = false ∧ n < expires o.
Proof.
  unfold verdict. destruct o' as [q|]; [|done]. case_match; [done|]. destruct (claimed q) eqn:E; [done|].
  destruct (Z.leb_spec (expires q) n); [done|]. by intros [= <-].
Qed.

Lemma one_run_host e t gk f σ : one_ceremony σ → tasks σ !! t = Some (HostClaim gk) → one_ceremony (run_host e t gk f σ).
Proof.
  intros Hi Hk. assert (∀ τ, one_ceremony τ → tasks τ = tasks σ → one_ceremony (drop_task t τ)) as Hdrop.
  { intros τ Hτ E. eapply one_drop; [done|by rewrite E|done]. }
  unfold run_host. destruct f as [f|]; [|by apply Hdrop; [apply one_log|]].
  destruct f; try (by apply Hdrop; [apply one_log|]).
  case_match; [by apply Hdrop; [apply one_log|]|].
  destruct (verdict _ _ _) as [| | |o] eqn:Hv; try (by apply Hdrop; [apply one_log|]).
  - unfold burn_generation. destruct (next_generation _) as [g'|why] eqn:Hn; cbn [mbind result_bind]; [|by apply Hdrop].
    apply next_generation_Ok in Hn. apply Hdrop; [|by destruct (session (cell σ))].
    apply one_log, one_dispose, one_log, one_bump; [done|simpl; lia|done].
  - apply verdict_claimed in Hv as (Ho & Hcl & _). pose proof (oc_offer _ Hi (ex_intro _ o (conj Ho Hcl))) as Hno.
    set (τ := with_cell _ σ).
    assert (one_ceremony τ) as Hτ.
    { destruct Hi as [H1 H2 H3 H4 H5 H6 H7]. by split. }
    assert (∀ o, one_ceremony (end_task true t (generation (cell τ)) o τ)) as Hend.
    { intros out. eapply one_end; [done|exact Hk| |by right]. intros _ t' k' Hk' Hc'. by destruct (Hno t' k' Hk'). }
    unfold run_claimed. destruct (try_array 16 _); [|done]. destruct (fixed32 _ _); [|done].
    destruct Hτ as [H1 H2 H3 H4 H5 H6 H7]. split; try done.
    + apply numbered_park; [done|]. eauto.
    + intros t0 k0 g0 [[-> ->]|[_ Ht]]%tasks_park; [simpl; intros [= <-]; lia|by apply (H2 t0)].
    + intros t0 t1 k0 k1 [[-> ->]|[_ Ht0]]%tasks_park [[-> ->]|[_ Ht1]]%tasks_park Hc0 Hc1; [done| | |].
      * by destruct (Hno _ _ Ht1).
      * by destruct (Hno _ _ Ht0).
      * by destruct (Hno _ _ Ht0).
    + by intros (o0 & [= <-] & [=]).
    + intros s Hse. destruct (H5 s Hse) as (_ & _ & k0 & Hk0 & Hc0 & _). by destruct (Hno _ _ Hk0).
    + intros t0 k0 [[-> ->]|[_ Ht]]%tasks_park; [done|by apply H6].
Qed.

(** Through the end of a step by the task's own ceremony. *)
Ltac own :=
  match goal with
  | |- one_ceremony (end_task _ _ _ _ _) => eapply one_end_own; [|eassumption|reflexivity]
  | |- one_ceremony (log _ _) => apply one_log
  | |- one_ceremony (park _ _ _) => eapply one_park; [|eassumption|reflexivity|reflexivity|]
  end.

Lemma one_guest e t k a σ σ' : one_ceremony σ → tasks σ !! t = Some k → resume_guest e t k a σ = Some σ' → one_ceremony σ'.
Proof.
  intros Hi Hk Hr. assert (bound k = true → ∀ g, cgen k = Some g → cgen k = Some (generation (cell σ)) →
    ∃ s, session (cell σ) = Some s ∧ owner s = t) as Hb by (intros Hb g _ Hc; by eapply (oc_bound _ Hi)).
  destruct k; try discriminate Hr; destruct a; try discriminate Hr; unfold resume_guest, guest_bound, send in Hr.
  all: repeat (first [progress simplify_eq | case_match]).
  all: try match goal with
       | E : bind_session _ _ _ = Some _ |- _ =>
         destruct (one_bind _ _ _ _ _ Hi Hk eq_refl eq_refl eq_refl E) as (Hi' & E1 & _ & _ & Hse); rewrite <- E1 in Hk
       end.
  all: repeat own; try done; try (by intros _; apply (Hb eq_refl _ eq_refl)).
  - intros _ _. by eexists.
  - eapply one_drop; [by apply one_log|exact Hk|]. simpl.
    match goal with E : is_current _ _ = false |- _ => apply Z.eqb_neq in E; congruence end.
  - by eapply one_review; [apply one_log|exact Hk| |].
Qed.

Lemma one_host e t k a σ σ' : one_ceremony σ → tasks σ !! t = Some k → resume_host e t k a σ = Some σ' → one_ceremony σ'.
Proof.
  intros Hi Hk Hr. assert (bound k = true → ∀ g, cgen k = Some g → cgen k = Some (generation (cell σ)) →
    ∃ s, session (cell σ) = Some s ∧ owner s = t) as Hb by (intros Hb g _ Hc; by eapply (oc_bound _ Hi)).
  destruct k; try discriminate Hr; destruct a; try discriminate Hr; unfold resume_host, host_validated, send in Hr.
  all: repeat (first [progress simplify_eq | case_match]).
  all: try match goal with
       | E : bind_session _ _ _ = Some _ |- _ =>
         destruct (one_bind _ _ _ _ _ Hi Hk eq_refl eq_refl eq_refl E) as (Hi' & E1 & _ & _ & Hse); rewrite <- E1 in Hk
       end.
  all: repeat own; try done; try (by intros _; apply (Hb eq_refl _ eq_refl)).
  - by apply one_run_host.
  - eapply one_drop; [by apply one_log|exact Hk|done].
  - intros _ _. by eexists.
  - by eapply one_review.
Qed.

Lemma one_review_step t k a σ σ' : one_ceremony σ → tasks σ !! t = Some k → resume_review t k a σ = Some σ' → one_ceremony σ'.
Proof.
  intros Hi Hk Hr. assert (bound k = true → ∀ g, cgen k = Some g → cgen k = Some (generation (cell σ)) →
    ∃ s, session (cell σ) = Some s ∧ owner s = t) as Hb by (intros Hb g _ Hc; by eapply (oc_bound _ Hi)).
  destruct k; try discriminate Hr; destruct a; try discriminate Hr;
    unfold resume_review, review_woke, accept_step, stored, review_again, send in Hr.
  all: repeat (first [progress simplify_eq | case_match]).
  all: repeat own; try done; try (by intros _; apply (Hb eq_refl _ eq_refl)).
  - by eapply one_park_phase; [|exact Hk|..].
  - change (one_ceremony (log (Sending t Accepted) (park t (SendingReceipt host g a) (set_phase g (PhaseDone a) σ)))).
    by eapply one_log, one_park_phase; [|exact Hk|..].
Qed.

Lemma one_cancel e g σ : one_ceremony σ → one_ceremony (meeting_cancel e g σ).
Proof.
  intros Hi. unfold meeting_cancel. case_match; [|by apply one_log]. case_match; [by apply one_log|].
  destruct (next_generation _) as [g'|why] eqn:Hn; [|by apply one_log]. apply next_generation_Ok in Hn.
  apply one_log, one_dispose, one_log, one_bump; [done|lia|done].
Qed.

Lemma one_offer_export e σ : one_ceremony σ → one_ceremony (meeting_offer e σ).
Proof.
  intros Hi. unfold meeting_offer. case_match; [|by apply one_log]. case_match; [by apply one_log|].
  destruct (reserve σ) as [[g τ]|why] eqn:Hr; [|by apply one_log].
  destruct (one_reserve _ _ _ Hi Hr) as (Hτ & -> & Hno & Hu). by apply one_spawn.
Qed.

Lemma one_join_export e fragment σ : one_ceremony σ → one_ceremony (meeting_join e fragment σ).
Proof.
  intros Hi. unfold meeting_join. repeat (case_match; try by apply one_log).
  match goal with E : reserve _ = Ok _ |- _ => destruct (one_reserve _ _ _ Hi E) as (Hτ & -> & Hno & Hu) end.
  match goal with |- one_ceremony (spawn _ (set_phase ?g ?p ?τ)) => destruct (set_phase_same g p τ) as (Eg & Et & Eu) end.
  apply one_spawn; [by apply one_phase|by rewrite Eg|done| |by apply Eu].
  unfold none_current. by rewrite Et, Eg.
Qed.

Lemma one_confirm e g σ : one_ceremony σ → one_ceremony (meeting_confirm e g σ).
Proof.
  intros Hi. unfold meeting_confirm. destruct (identity_open e); [|by apply one_log].
  destruct (phase (cell σ)) eqn:Hph; try by apply one_log. case_match; [by apply one_log|].
  destruct (session (cell σ)) as [[sg o [] c]|] eqn:Hse; try by apply one_log.
  apply one_log, one_log. destruct Hi as [H1 H2 H3 H4 H5 H6 H7]. split; simpl; try done.
  - intros s [= <-]. by destruct (H5 _ Hse) as (? & ? & ?).
  - intros t k Hk Hb Hc. destruct (H6 t k Hk Hb Hc) as (s & Hs & Ho). simplify_eq. by eexists.
  - intros rv Hrv. destruct (H7 rv Hrv) as (Hg & s & Hs & Ho). split; [done|]. simplify_eq. by eexists.
Qed.

Lemma one_expiring e t g x σ : one_ceremony σ → tasks σ !! t = Some (Expiring g x) →
  one_ceremony (let τ := drop_task t σ in if active (cell τ) g && (x <=? now e) then expire g τ else τ).
Proof.
  intros Hi Hk. assert (one_ceremony (drop_task t σ)) as Hd by by eapply one_drop.
  cbv zeta. case_match; [by apply one_expire|done].
Qed.

Lemma one_resume e t k a σ σ' : one_ceremony σ → tasks σ !! t = Some k → resume e t k a σ = Some σ' → one_ceremony σ'.
Proof.
  intros Hi Hk Hr.
  destruct k; try (by eapply one_guest; [| |exact Hr]); try (by eapply one_host; [| |exact Hr]);
    try (by eapply one_review_step; [| |exact Hr]); destruct a; try discriminate Hr; injection Hr as <-.
  - by apply one_offer_shared.
  - by apply one_join_shared.
  - by apply one_expiring.
Qed.

Lemma one_ceremony_step e σ i σ' : one_ceremony σ → step e σ i = Some σ' → one_ceremony σ'.
Proof.
  intros Hi Hs. destruct i as [| | | | | | |t a]; try injection Hs as <-.
  - by apply one_offer_export.
  - by apply one_join_export.
  - by apply one_confirm.
  - by apply one_cancel.
  - unfold meeting_status. repeat (case_match; try done). by apply one_expire.
  - unfold meeting_invalidate. case_match; [by apply one_cancel|done].
  - by apply one_spawn_none.
  - simpl in Hs. destruct (tasks σ !! t) as [k|] eqn:Hk; [|by destruct a].
    eapply one_resume; [done|exact Hk|]. destruct a; try exact Hs. case_match; [exact Hs|done].
Qed.

Lemma reachable_one σ : reachable σ → one_ceremony σ.
Proof.
  intros Hr. induction Hr as [|σ e i σ' Hr IH Hs]; [|by eapply one_ceremony_step].
  split; try done; by intros t [? ?].
Qed.
End Meeting.
