(* ===== verification/MeetingRuns.v ===== *)
(** * What a meeting stores, and whom a confirmation reaches

    The safety of [Meeting]'s runs: a contact is stored only when both people
    confirmed the digits of the introduction that is stored, and the
    confirmation button reaches the ceremony on the screen. *)
From S2P Require Import Prelude Crypto Error Codes MeetingWire Coop Meeting.

Section Runs.
Context {Intro : Type} (intro_key : Intro → bytes) (intro_claims : Intro → list (string * string)).
Context {b32 : Base32Visual} {blake : Blake3} (self_key : bytes).

Abbreviation sys := (Coop.sys Meeting (@task Intro) (@act Intro)).
Abbreviation step := (step intro_key intro_claims self_key).
Abbreviation reachable := (reachable intro_key intro_claims self_key).
Abbreviation resume := (resume intro_key intro_claims self_key).
Abbreviation act := (@act Intro).
Abbreviation task := (@task Intro).

(** ** Both confirmations precede the contact *)

(** Task [t] showed [i] with digits over both nonces, of which it had checked the
    other side's against the commitment. *)
Definition reviewed (l : list act) (t : nat) (g : Z) (i : Intro) : Prop :=
  ∃ host tok gk hk gi hi gn hn c,
    let digits := sas tok gk hk gi hi gn hn in
    let n := if host : bool then gn else hn in
    Announced g (AwaitingConfirm (mkReview g digits (intro_key i) (intro_claims i))) ∈ l ∧
    Shown t digits ∈ l ∧ CommitChecked t c n ∈ l ∧ commitment n = c.
Definition agreed (l : list act) (t : nat) (g : Z) (i : Intro) : Prop :=
  ConfirmFired t ∈ l ∧ PeerConfirmed t ∈ l ∧ reviewed l t g i.

Definition task_ok (l : list act) (t : nat) (k : task) : Prop :=
  match k with
  | HostRevealing _ _ _ _ guest_nonce _ _ _ => ∃ c, CommitChecked t c guest_nonce ∈ l ∧ commitment guest_nonce = c
  | Reviewing _ g i here there =>
    reviewed l t g i ∧ (here = true → ConfirmFired t ∈ l) ∧ (there = true → PeerConfirmed t ∈ l)
  | SendingConfirm _ g i there =>
    reviewed l t g i ∧ ConfirmFired t ∈ l ∧ (there = true → PeerConfirmed t ∈ l)
  | Accepting _ g i | Persisting _ g i => agreed l t g i
  | _ => True
  end.
Definition act_ok (l : list act) (a : act) : Prop :=
  match a with ContactAccepted g t i => agreed l t g i | _ => True end.
Record both_first (σ : sys) : Prop := {
  bf_task : ∀ t k, tasks σ !! t = Some k → task_ok (trace σ) t k;
  bf_act : ∀ a, a ∈ trace σ → act_ok (trace σ) a;
}.

Lemma reviewed_mono l l' t g i : l ⊆ l' → reviewed l t g i → reviewed l' t g i.
Proof.
  intros Hl (host & tok & gk & hk & gi & hi & gn & hn & c & H1 & H2 & H3 & H4).
  exists host, tok, gk, hk, gi, hi, gn, hn, c. simpl in *. auto.
Qed.
Lemma agreed_mono l l' t g i : l ⊆ l' → agreed l t g i → agreed l' t g i.
Proof. intros Hl (H1 & H2 & H3). split; [auto|]. split; [auto|]. by eapply reviewed_mono. Qed.
Lemma task_ok_mono l l' t k : l ⊆ l' → task_ok l t k → task_ok l' t k.
Proof.
  intros Hl. destruct k; simpl; eauto using agreed_mono.
  - intros (c & H1 & H2). eauto.
  - intros (H1 & H2 & H3). split_and!; eauto using reviewed_mono.
  - intros (H1 & H2 & H3). split_and!; eauto using reviewed_mono.
Qed.
Lemma act_ok_mono l l' a : l ⊆ l' → act_ok l a → act_ok l' a.
Proof. intros Hl. destruct a; simpl; eauto using agreed_mono. Qed.

(** An update that starts no task and stores no contact. *)
Definition plain (a : act) : bool := match a with ContactAccepted _ _ _ => false | _ => true end.
Definition tame (σ σ' : sys) : Prop :=
  tasks σ' ⊆ tasks σ ∧ ∃ l, trace σ' = trace σ ++ l ∧ forallb plain l = true.

Lemma tame_refl σ : tame σ σ.
Proof. split; [done|]. exists []. by rewrite app_nil_r. Qed.
Lemma tame_trans σ1 σ2 σ3 : tame σ1 σ2 → tame σ2 σ3 → tame σ1 σ3.
Proof.
  intros [H1 (l & Hl & Hp)] [H2 (l' & Hl' & Hp')]. split; [by etrans|]. exists (l ++ l').
  by rewrite Hl', Hl, app_assoc, forallb_app, Hp, Hp'.
Qed.
Lemma tame_log a σ : plain a = true → tame σ (log a σ).
Proof. intros Ha. split; [done|]. exists [a]. simpl. by rewrite Ha. Qed.
Lemma tame_cell f σ : tame σ (with_cell f σ).
Proof. split; [done|]. exists []. by rewrite app_nil_r. Qed.
Lemma tame_drop t σ : tame σ (drop_task t σ).
Proof. split; [apply delete_subseteq|]. exists []. by rewrite app_nil_r. Qed.
Lemma tame_phase g p σ : tame σ (set_phase g p σ).
Proof. unfold set_phase. case_match; [|apply tame_refl]. by eapply tame_trans, tame_log; [apply tame_cell|]. Qed.
Lemma tame_dispose s σ : tame σ (dispose s σ).
Proof. destruct s; [by apply tame_log|apply tame_refl]. Qed.

(** Through an update written with the primitives. *)
Ltac tame :=
  repeat lazymatch goal with
    | |- tame ?s ?s => apply tame_refl
    | |- tame _ (match _ with _ => _ end) => case_match
    | |- tame _ (set_phase _ _ _) => eapply tame_trans, tame_phase
    | |- tame _ (dispose _ _) => eapply tame_trans, tame_dispose
    | |- tame _ (drop_task _ _) => eapply tame_trans, tame_drop
    | |- tame _ (log _ _) => eapply tame_trans, tame_log; [|reflexivity]
    | |- tame _ (with_cell _ _) => eapply tame_trans, tame_cell
    end.

Lemma tame_end host t g o σ : tame σ (end_task host t g o σ).
Proof. unfold end_task, clear_offer, finish. cbv zeta. tame. Qed.
Lemma tame_expire g σ : tame σ (expire g σ).
Proof. unfold expire. cbv zeta. tame. Qed.
Lemma tame_reserve g σ σ' : reserve σ = Ok (g, σ') → tame σ σ'.
Proof.
  unfold reserve. destruct (next_generation _); [|done]. intros [= <- <-]. tame.
Qed.
Lemma tame_cancel e g σ : tame σ (meeting_cancel e g σ).
Proof. unfold meeting_cancel. tame. Qed.

Lemma more (l l' : list act) : l ⊆ l ++ l'.
Proof. by apply list_subseteq_app_l. Qed.
Lemma tame_more σ σ' : tame σ σ' → trace σ ⊆ trace σ'.
Proof. intros [_ (l & -> & _)]. apply more. Qed.

Lemma both_tame σ σ' : both_first σ → tame σ σ' → both_first σ'.
Proof.
  intros [H1 H2] [Ht (l & Hl & Hp)]. split.
  - intros t k Hk. rewrite Hl. eapply task_ok_mono, H1; [apply list_subseteq_app_l; done|]. by eapply lookup_weaken.
  - intros a. rewrite Hl. intros [Ha|Ha]%elem_of_app.
    + eapply act_ok_mono, H2; [apply list_subseteq_app_l; done|done].
    + apply list_elem_of_In, (proj1 (forallb_forall _ _) Hp) in Ha. by destruct a.
Qed.
Lemma both_park t k σ : both_first σ → task_ok (trace σ) t k → both_first (park t k σ).
Proof. intros [H1 H2] Hk. split; [|done]. intros t' k' [[-> ->]|[_ Ht]]%tasks_park; [done|by apply H1]. Qed.
Lemma both_spawn k σ : both_first σ → task_ok (trace σ) (next σ) k → both_first (spawn k σ).
Proof. intros [H1 H2] Hk. split; [|done]. intros t' k' [[-> ->]|[_ Ht]]%tasks_spawn; [done|by apply H1]. Qed.
Lemma both_log a σ : both_first σ → act_ok (trace σ) a → both_first (log a σ).
Proof.
  intros [H1 H2] Ha. split; simpl.
  - intros t k Hk. eapply task_ok_mono, H1, Hk. by apply list_subseteq_app_l.
  - intros b [Hb|Hb]%elem_of_app; (eapply act_ok_mono; [by apply list_subseteq_app_l|]); [by apply H2|].
    apply list_elem_of_singleton in Hb. by subst.
Qed.

Lemma both_review host t g i σ tok gk hk gi hi gn hn c : both_first σ →
  CommitChecked t c (if host : bool then gn else hn) ∈ trace σ → commitment (if host then gn else hn) = c →
  both_first (review intro_key intro_claims host t g (sas tok gk hk gi hi gn hn) i σ).
Proof.
  intros Hb Hin Hc. unfold review. set (rv := mkReview _ _ _ _).
  destruct (transition (cell σ) g (AwaitingConfirm rv)) as [m|] eqn:Hm; [|by eapply both_tame, tame_end].
  apply both_park; [eapply both_tame; [done|]; eapply tame_trans, tame_log; [apply tame_phase|done]|].
  split; [|done]. exists host, tok, gk, hk, gi, hi, gn, hn, c. unfold set_phase. rewrite Hm. simpl.
  split; [|split; [|split; [|done]]]; apply elem_of_app; [left|right|left]; try apply elem_of_app; [right|..|left]; try done;
    by left.
Qed.

Ltac tame ::=
  repeat lazymatch goal with
    | |- tame ?s ?s => apply tame_refl
    | |- tame _ (match _ with _ => _ end) => case_match
    | |- tame _ (set_phase _ _ _) => eapply tame_trans, tame_phase
    | |- tame _ (dispose _ _) => eapply tame_trans, tame_dispose
    | |- tame _ (end_task _ _ _ _ _) => eapply tame_trans, tame_end
    | |- tame _ (expire _ _) => eapply tame_trans, tame_expire
    | |- tame _ (drop_task _ _) => eapply tame_trans, tame_drop
    | |- tame _ (log _ _) => eapply tame_trans, tame_log; [|reflexivity]
    | |- tame _ (with_cell _ _) => eapply tame_trans, tame_cell
    end.

(** The updates of a path: a task parked or spawned, and otherwise tame ones. *)
Ltac both :=
  repeat match goal with
    | |- both_first (park _ _ _) => apply both_park; [|done]
    | |- both_first (spawn _ _) => apply both_spawn; [|done]
    | |- both_first (log (ContactAccepted _ _ _) _) => fail 1
    | |- both_first (review _ _ _ _ _ _ _ _) => fail 1
    | |- both_first (park _ _ _) => apply both_park
    | |- both_first (log _ (spawn _ _)) => apply both_log; [|exact I]
    | H : both_first ?s |- both_first _ => eapply both_tame; [exact H|]; tame; done
    end.

(** The next frames of the loop. *)
Lemma both_review_again host t g i (here there : bool) σ : both_first σ → reviewed (trace σ) t g i →
  (here = true → ConfirmFired t ∈ trace σ) → (there = true → PeerConfirmed t ∈ trace σ) →
  both_first (review_again host t g i here there σ).
Proof.
  intros Hb Hr Hh Ht. unfold review_again. destruct here, there; cbn [andb]; try (by apply both_park).
  case_match; [|by eapply both_tame, tame_end]. apply both_park; [done|]. split; [by apply Hh|]. split; [by apply Ht|done].
Qed.

Ltac checked Hc :=
  match goal with E : negb (bool_decide (commitment _ = _)) = false |- _ =>
    pose proof (bool_decide_eq_true_1 _ (proj1 (negb_false_iff _) E)) as Hc
  end.

Lemma both_guest e t k a σ σ' : both_first σ → resume_guest intro_key intro_claims self_key e t k a σ = Some σ' → both_first σ'.
Proof.
  intros Hb Hr.
  destruct k; try discriminate Hr; destruct a; try discriminate Hr; unfold resume_guest, guest_bound, send, bind_session in Hr.
  all: repeat (first [progress simplify_eq | case_match]).
  all: both.
  checked Hc. eapply (both_review false); [both| |exact Hc].
  apply elem_of_app. right. by left.
Qed.

Lemma both_host e t k a σ σ' : both_first σ → tasks σ !! t = Some k →
  resume_host intro_key intro_claims self_key e t k a σ = Some σ' → both_first σ'.
Proof.
  intros Hb Hk Hr. pose proof (bf_task _ Hb t k Hk) as Hok.
  destruct k; try discriminate Hr; destruct a; try discriminate Hr;
    unfold resume_host, host_validated, run_host, run_claimed, send, bind_session in Hr.
  all: repeat (first [progress simplify_eq | case_match]).
  all: both.
  - checked Hc. eexists. split; [|exact Hc]. apply elem_of_app. left.
    apply elem_of_app. right. by left.
  - destruct Hok as (c & Hin & Hc). by eapply (both_review true).
Qed.

Lemma both_review_step t k a σ σ' : both_first σ → tasks σ !! t = Some k →
  (a = Fired → ConfirmFired t ∈ trace σ) → resume_review t k a σ = Some σ' → both_first σ'.
Proof.
  intros Hb Hk Hf Hr. pose proof (bf_task _ Hb t k Hk) as Hok.
  destruct k; try discriminate Hr; destruct a; try discriminate Hr;
    unfold resume_review, review_woke, accept_step, stored, send in Hr.
  all: repeat (first [progress simplify_eq | case_match]).
  all: both.
  - destruct Hok as (Hr & Hh & Ht). apply both_review_again; [both|..]; simpl.
    + eapply reviewed_mono; [apply more|done].
    + intros Hc. by apply more, Hh.
    + intros _. apply elem_of_app. right. by left.
  - destruct Hok as (Hr & Hh & Ht). split_and!; simpl.
    + eapply reviewed_mono; [apply more|done].
    + by apply more, Hf.
    + intros Hc. by apply more, Ht.
  - destruct Hok as (Hr & Hh & Ht). apply both_review_again; auto.
  - destruct Hok as (Hr & Hh & Ht). apply both_review_again; [both|..]; try done.
    + eapply reviewed_mono; [apply tame_more, tame_phase|done].
    + intros _. by eapply tame_more; [apply tame_phase|].
  - by apply both_log.
  - by eapply agreed_mono; [apply more|].
Qed.

Lemma both_resume e t k a σ σ' : both_first σ → tasks σ !! t = Some k →
  (a = Fired → ConfirmFired t ∈ trace σ) → resume e t k a σ = Some σ' → both_first σ'.
Proof.
  intros Hb Hk Hf Hr.
  destruct k; try (by eapply both_guest; [|exact Hr]); try (by eapply both_host; [|exact Hk|exact Hr]);
    try (by eapply both_review_step; [|exact Hk|exact Hf|exact Hr]); destruct a; try discriminate Hr; injection Hr as <-;
    unfold offer_shared, join_shared; repeat case_match; both.
Qed.

Lemma fired_confirm t (σ : sys) : fired t σ = true → ConfirmFired t ∈ trace σ.
Proof.
  unfold fired. intros (a & Ha & Hf)%existsb_exists. destruct a; try done. simpl in Hf.
  apply bool_decide_eq_true in Hf as ->. by apply list_elem_of_In.
Qed.

Lemma both_first_step e i σ σ' : both_first σ → step e σ i = Some σ' → both_first σ'.
Proof.
  intros Hb Hs. destruct i as [| | | | | | |t a]; try injection Hs as <-.
  - unfold meeting_offer. repeat case_match; both.
    match goal with E : reserve _ = Ok _ |- _ => eapply both_tame, tame_reserve, E end. both.
  - unfold meeting_join. repeat case_match; both.
  eapply both_tame, tame_phase.   match goal with E : reserve _ = Ok _ |- _ => eapply both_tame, tame_reserve, E end. both.
  - unfold meeting_confirm. repeat case_match; both.
  - eapply both_tame, tame_cancel. done.
  - unfold meeting_status. repeat case_match; both.
  - unfold meeting_invalidate. case_match; [|done]. by eapply both_tame, tame_cancel.
  - both.
  - simpl in Hs. destruct (tasks σ !! t) as [k|] eqn:Hk; [|by destruct a].
    eapply both_resume; [done|exact Hk| |destruct a; try exact Hs; case_match; [exact Hs|done]].
    intros ->. apply fired_confirm. by destruct (fired t σ).
Qed.

Lemma reachable_both σ : reachable σ → both_first σ.
Proof.
  intros Hr. induction Hr as [|σ e i σ' Hr IH Hs]; [split; [done|by intros a ?%elem_of_nil]|by eapply both_first_step].
Qed.

(** C10: A contact needs both people.  In every run, however the exports, the
    frames, the timers and the awaits interleave, a contact is stored only for an
    introduction this device showed with its digits after checking the other
    side's nonce against the commitment it had sent first, and only once this
    device's user and the other device both confirmed that ceremony. *)
Theorem contacts_need_both σ : reachable σ → ∀ g t i, ContactAccepted g t i ∈ trace σ → agreed (trace σ) t g i.
Proof. intros Hr g t i Hin. exact (bf_act _ (reachable_both σ Hr) _ Hin). Qed.

(** ** The confirmation reaches the digits on the screen *)
Lemma cgen_gen (k : task) g : cgen k = Some g → gen_of k = Some g.
Proof. by destruct k. Qed.

(** The button confirms what is shown.  In every run, while the digits of a
    review are on the screen there is one live ceremony of that generation that
    showed exactly those digits; confirming the generation on the screen fires
    that ceremony's confirmation and no other, once, and confirming any other
    generation is refused without a change. *)
Theorem confirmation_reaches_the_shown σ e rv :
  reachable σ → phase (cell σ) = AwaitingConfirm rv → identity_open e = Ok () →
  ∃ s k, session (cell σ) = Some s ∧ tasks σ !! owner s = Some k ∧ gen_of k = Some (rv_generation rv) ∧
    Shown (owner s) (rv_sas rv) ∈ trace σ ∧
    trace (meeting_confirm e (rv_generation rv) σ) = trace σ ++
      (if confirm s then [ConfirmFired (owner s); Replied (Ok ())] else [Replied (Err nothing_to_confirm)]) ∧
    ∀ g, g ≠ rv_generation rv → meeting_confirm e g σ = log (Replied (Err replaced)) σ.
Proof.
  intros Hr%reachable_one Hp Ho. destruct (oc_shown _ Hr rv Hp) as (Hg & s & Hs & Hin).
  destruct (oc_session _ Hr s Hs) as (_ & _ & k & Hk & Hc & _). exists s, k.
  split; [done|]. split; [done|]. split; [rewrite Hg; by apply cgen_gen|]. split; [done|]. split.
  - unfold meeting_confirm. rewrite Ho, Hp, Hs, Hg, Z.eqb_refl. cbn [negb orb].
    destruct s as [sg o [] c]; simpl; [by rewrite <- app_assoc|done].
  - intros g Hne. unfold meeting_confirm. rewrite Ho, Hp, <- Hg.
    by rewrite (proj2 (Z.eqb_neq _ _) Hne).
Qed.

(** One ceremony at a time.  In every run at most one suspended task is a
    ceremony of the current generation, however many links were offered, joined,
    burned or cancelled and however many peers dialed in; and a session in the
    cell is that ceremony's. *)
Theorem one_ceremony_at_a_time σ t t' k k' :
  reachable σ → tasks σ !! t = Some k → tasks σ !! t' = Some k' →
  cgen k = Some (generation (cell σ)) → cgen k' = Some (generation (cell σ)) →
  t = t' ∧ ∀ s, session (cell σ) = Some s → owner s = t ∧ s_generation s = generation (cell σ).
Proof.
  intros Hr%reachable_one Hk Hk' Hc Hc'. split; [by eapply (oc_unique _ Hr)|].
  intros s Hs. destruct (oc_session _ Hr s Hs) as (Hg & _ & k0 & Hk0 & Hc0 & _). split; [|done].
  by eapply (oc_unique _ Hr).
Qed.

(** Runs of steps, for concrete inputs. *)
Fixpoint steps (l : list (env * input)) (σ : sys) : option sys :=
  match l with
  | [] => Some σ
  | (e, i) :: l => σ ← step e σ i; steps l σ
  end.
Lemma steps_reachable l σ σ' : reachable σ → steps l σ = Some σ' → reachable σ'.
Proof.
  revert σ. induction l as [|[e i] l IH]; intros σ Hr; simpl; [by intros [= <-]|].
  destruct (step e σ i) as [σ1|] eqn:Hs; [|done]. apply IH. by eapply reach_step.
Qed.
End Runs.

(** ** A guest's ceremony *)
Section Concrete.
Import Toy.

Definition self : bytes := replicate 32 (byte_of 7).
Definition host : bytes := replicate 32 (byte_of 8).
Definition nonce_h : bytes := replicate 32 (byte_of 9).
Definition e0 : env := mkEnv 1000 (λ _, byte_of 3) (Ok ()) (Ok ()) true [].
Definition key_of (i : bytes) : bytes := i.
Definition claims_of (i : bytes) : list (string * string) := [("name"%string, "Ada"%string)].

Definition guest_shows : list (env * @input bytes) :=
  [(e0, CallJoin (ascii_chars (encode_fragment host (replicate 16 (byte_of 5)))));
   (e0, Resume 0 (ShareDone (Ok [byte_of 1])));
   (e0, Resume 2 (Dialed (Ok host))); (e0, Resume 2 (Sent (Ok ())));
   (e0, Resume 2 (Got (Some (Accept host [byte_of 2] (commitment nonce_h)))));
   (e0, Resume 2 (Validated (Ok [byte_of 2]))); (e0, Resume 2 (Sent (Ok ())));
   (e0, Resume 2 (Got (Some (Reveal nonce_h))))].
Definition guest_accepts : list (env * @input bytes) :=
  guest_shows ++
  [(e0, CallConfirm 1); (e0, Resume 2 Fired); (e0, Resume 2 (Sent (Ok ()))); (e0, Resume 2 (Got (Some Confirm)));
   (e0, Resume 2 MutationRuns)].

Definition after (l : list (env * @input bytes)) : sys Meeting task act :=
  default init (steps key_of claims_of self l init).
Lemma after_reachable l : is_Some (steps key_of claims_of self l init) → reachable key_of claims_of self (after l).
Proof. intros [σ Hs]. unfold after. rewrite Hs. by eapply steps_reachable; [apply reach_init|]. Qed.

Lemma contacts_need_both_witness :
  ContactAccepted 1 2 [byte_of 2] ∈ trace (after guest_accepts) ∧
  agreed key_of claims_of (trace (after guest_accepts)) 2 1 [byte_of 2].
Proof.
  assert (ContactAccepted 1 2 [byte_of 2] ∈ trace (after guest_accepts)) as Hin.
  { apply (list_elem_of_lookup_2 _ 12). vm_compute. reflexivity. }
  split; [exact Hin|]. apply (contacts_need_both key_of claims_of self); [|exact Hin].
  apply after_reachable. vm_compute. by eexists.
Defined.

Lemma confirmation_reaches_the_shown_witness :
  ∃ rv, phase (cell (after guest_shows)) = AwaitingConfirm rv ∧ rv_sas rv = "145772"%string ∧
  ∃ s k, session (cell (after guest_shows)) = Some s ∧ tasks (after guest_shows) !! owner s = Some k ∧
    gen_of k = Some (rv_generation rv) ∧ Shown (owner s) (rv_sas rv) ∈ trace (after guest_shows) ∧
    trace (meeting_confirm e0 (rv_generation rv) (after guest_shows)) = trace (after guest_shows) ++
      (if confirm s then [ConfirmFired (owner s); Replied (Ok ())] else [Replied (Err nothing_to_confirm)]) ∧
    ∀ g, g ≠ rv_generation rv →
      meeting_confirm e0 g (after guest_shows) = log (Replied (Err replaced)) (after guest_shows).
Proof.
  eexists. split; [vm_compute; reflexivity|]. split; [reflexivity|].
  apply (confirmation_reaches_the_shown key_of claims_of self).
  - apply after_reachable. vm_compute. by eexists.
  - vm_compute. reflexivity.
  - reflexivity.
Defined.

Lemma one_ceremony_at_a_time_witness :
  ∃ k, tasks (after guest_shows) !! 2%nat = Some k ∧ cgen k = Some (generation (cell (after guest_shows))) ∧
  (2%nat = 2%nat ∧ ∀ s, session (cell (after guest_shows)) = Some s →
    owner s = 2%nat ∧ s_generation s = generation (cell (after guest_shows))).
Proof.
  eexists. split; [vm_compute; reflexivity|]. split; [vm_compute; reflexivity|].
  eapply (one_ceremony_at_a_time key_of claims_of self).
  - apply after_reachable. vm_compute. by eexists.
  - vm_compute. reflexivity.
  - vm_compute. reflexivity.
  - vm_compute. reflexivity.
  - vm_compute. reflexivity.
Defined.

(** A cancelled meeting's dial that still comes through: [inert]. *)
Definition guest_cancelled : list (env * @input bytes) := take 2 guest_shows ++ [(e0, CallCancel 1)].
Definition cancelled_dial : @task bytes := GuestDialing 1 host (replicate 16 (byte_of 5)) [byte_of 1].
Lemma stale_task_inert_witness :
  tasks (after guest_cancelled) !! 2%nat = Some cancelled_dial ∧ generation (cell (after guest_cancelled)) ≠ 1 ∧
  ∃ σ', resume key_of claims_of self e0 2 cancelled_dial (Dialed (Ok host)) (after guest_cancelled) = Some σ' ∧
    inert (after guest_cancelled) σ'.
Proof.
  split; [vm_compute; reflexivity|]. split; [vm_compute; discriminate|].
  eexists. split; [reflexivity|].
  eapply (stale_task_inert key_of claims_of self e0 2 cancelled_dial (Dialed (Ok host)) _ _ 1);
    [reflexivity|reflexivity|vm_compute; discriminate].
Defined.

Lemma transcript_determines_exchange_witness :
  transcript [] host self [] [byte_of 1] [] nonce_h ≠ transcript [] host self [byte_of 1] [] [] nonce_h.
Proof.
  intros H. apply (transcript_determines_exchange [] host self [] [byte_of 1] [] nonce_h
    [] host self [byte_of 1] [] [] nonce_h) in H; [discriminate H|..]; repeat constructor.
Defined.
End Concrete.
