(* ===== verification/Automerge.v ===== *)
(** * Automerge, as the workspace uses it

    [automerge] is a dependency: its documents are a parameter of the models
    that use them, and these classes are what those models rely on.
    [Automerge] is the map interface of [ReadDoc] and [Transactable] (the
    workspace stores nothing but maps and scalars), [MapLaws] its documented
    behaviour within one document.  [History] is the change graph.  Each class
    has a concrete instance, so that the laws are known to be satisfiable and
    the models can be evaluated. *)
From S2P Require Import Prelude.

(** [ScalarValue], by what the workspace writes; the rest reads as nothing. *)
Inductive scalar := Str (s : string) | Bytes (b : bytes) | Int (z : Z) | Boolean (b : bool) | OtherScalar.
(** [Value]: a scalar, or an object named by its id. *)
Inductive value := Scalar (s : scalar) | Object.
#[export] Instance scalar_eq_dec : EqDecision scalar.
Proof. solve_decision. Defined.
#[export] Instance value_eq_dec : EqDecision value.
Proof. solve_decision. Defined.

(** [Value::to_str], [Value::to_i64], [Value::to_bool] and the bytes of a scalar. *)
Definition to_str (v : value) : option string := match v with Scalar (Str s) => Some s | _ => None end.
Definition to_i64 (v : value) : option Z := match v with Scalar (Int z) => Some z | _ => None end.
Definition to_bool (v : value) : option bool := match v with Scalar (Boolean b) => Some b | _ => None end.
Definition to_bytes (v : value) : option bytes := match v with Scalar (Bytes b) => Some b | _ => None end.

(** [ReadDoc] and [Transactable] on a document [A] with object ids [Oid].  A
    register holds the values of the concurrent writes nothing overwrote:
    [get_all] reads them (an unknown object reads as none), [get] the one
    automerge shows. *)
Class Automerge (A Oid : Type) := {
  ROOT : Oid;
  get : A → Oid → string → result string (option (value * Oid));
  get_all : A → Oid → string → list (value * Oid);
  keys : A → Oid → list string;
  put : A → Oid → string → scalar → result string A;
  put_object : A → Oid → string → result string (A * Oid);
  delete : A → Oid → string → result string A;
  (** the objects that are maps *)
  is_map : A → Oid → bool;
}.

Section Laws.
Context `{AM : Automerge A Oid}.

(** The register [k] of [o] is what changes between [a] and [b]. *)
Definition only (o : Oid) (k : string) (a b : A) : Prop :=
  (∀ o', is_map a o' = true → is_map b o' = true) ∧
  ∀ o' k', is_map a o' = true → (o' ≠ o ∨ k' ≠ k) →
    get_all b o' k' = get_all a o' k' ∧ get b o' k' = get a o' k'.

Class MapLaws := {
  root_map a : is_map a ROOT = true;
  get_one a o k : is_map a o = true →
    match get a o k with
    | Ok (Some x) => x ∈ get_all a o k
    | Ok None => get_all a o k = []
    | Err _ => False
    end;
  elem_of_keys a o k : is_map a o = true → k ∈ keys a o ↔ get_all a o k ≠ [];
  NoDup_keys a o : NoDup (keys a o);
  put_spec a o k v : is_map a o = true →
    ∃ b x, put a o k v = Ok b ∧ only o k a b ∧ get_all b o k = [(Scalar v, x)];
  delete_spec a o k : is_map a o = true →
    ∃ b, delete a o k = Ok b ∧ only o k a b ∧ get_all b o k = [];
  put_object_spec a o k : is_map a o = true →
    ∃ b x, put_object a o k = Ok (b, x) ∧ only o k a b ∧ get_all b o k = [(Object, x)] ∧
      is_map a x = false ∧ is_map b x = true ∧ ∀ j, get_all b x j = [];
}.

(** [doc.get(..).ok().flatten()] *)
Definition get_ok (a : A) (o : Oid) (k : string) : option (value * Oid) :=
  match get a o k with Ok x => x | Err _ => None end.
End Laws.
Arguments MapLaws A Oid {AM}.

Section Lemmas.
Context `{MapLaws A Oid}.

Lemma get_ok_none a o k : is_map a o = true → get_all a o k = [] → get_ok a o k = None.
Proof.
  intros Hm Hg. pose proof (get_one a o k Hm) as Hk. unfold get_ok. destruct (get a o k) as [[x|]|]; [|done..].
  rewrite Hg in Hk. by apply elem_of_nil in Hk.
Qed.
Lemma get_ok_one a o k x : is_map a o = true → get_all a o k = [x] → get_ok a o k = Some x.
Proof.
  intros Hm Hg. pose proof (get_one a o k Hm) as Hk. unfold get_ok. destruct (get a o k) as [[y|]|]; [| |done].
  - rewrite Hg in Hk. by apply list_elem_of_singleton in Hk as ->.
  - congruence.
Qed.
Lemma get_ok_in a o k x : is_map a o = true → get_ok a o k = Some x → x ∈ get_all a o k.
Proof.
  intros Hm. pose proof (get_one a o k Hm) as Hk. unfold get_ok. destruct (get a o k) as [[y|]|]; naive_solver.
Qed.
Lemma get_ok_only a b o k o' k' : only o k a b → is_map a o' = true → (o' ≠ o ∨ k' ≠ k) →
  get_ok b o' k' = get_ok a o' k'.
Proof. intros [_ Ho] Hm Hne. unfold get_ok. by destruct (Ho o' k' Hm Hne) as [_ ->]. Qed.
End Lemmas.

(** ** An instance

    Registers as lists of values, the first of them shown; objects are numbered
    in the order they are made. *)
Module Toy.
Record doc := mkDoc { regs : gmap (nat * string) (list (value * nat)); made : nat }.
Definition reg (d : doc) (o : nat) (k : string) : list (value * nat) := default [] (regs d !! (o, k)).
Definition mapped (d : doc) (o : nat) : bool := (o <=? made d)%nat.
Definition set (d : doc) (o : nat) (k : string) (l : list (value * nat)) : doc :=
  mkDoc (match l with [] => base.delete (o, k) (regs d) | _ => <[(o, k) := l]> (regs d) end) (made d).
(** The registers of objects that were made. *)
Definition no_object : string := "no such object".

#[export] Instance automerge : Automerge doc nat := {|
  ROOT := O;
  get d o k := if mapped d o then Ok (head (reg d o k)) else Err no_object;
  get_all d o k := if mapped d o then reg d o k else [];
  keys d o := if mapped d o
    then omap (λ p, match p with ((o', k), l) => if decide (o' = o ∧ l ≠ []) then Some k else None end) (map_to_list (regs d))
    else [];
  put d o k v := if mapped d o then Ok (set d o k [(Scalar v, O)]) else Err no_object;
  put_object d o k := if mapped d o
    then let x := S (made d) in
         Ok (mkDoc (<[(o, k) := [(Object, x)]]> (filter (λ p, p.1.1 ≠ x) (regs d))) x, x)
    else Err no_object;
  delete d o k := if mapped d o then Ok (set d o k []) else Err no_object;
  is_map := mapped;
|}.

Lemma reg_set d o k l o' k' : reg (set d o k l) o' k' = if decide (o' = o ∧ k' = k) then l else reg d o' k'.
Proof.
  unfold reg, set. case_decide as E.
  - destruct E as [-> ->]. destruct l; cbn [regs]; [by rewrite lookup_delete_eq|by rewrite lookup_insert_eq].
  - assert ((o, k) ≠ (o', k')) by naive_solver.
    destruct l; cbn [regs]; [by rewrite lookup_delete_ne|by rewrite lookup_insert_ne].
Qed.
Lemma only_set d o k l : only o k d (set d o k l).
Proof.
  split; [done|]. intros o' k' Hm Hne. cbn [is_map automerge get_all get] in *.
  change (mapped (set d o k l) o') with (mapped d o'). rewrite Hm, reg_set, decide_False; [done|]. intros [-> ->]. naive_solver.
Qed.

#[export] Instance laws : MapLaws doc nat.
Proof.
  split.
  - intros d. reflexivity.
  - intros d o k Hm. cbn [is_map automerge get get_all] in *. rewrite Hm. destruct (reg d o k) as [|x l]; [done|]. left.
  - intros d o k Hm. cbn [is_map automerge keys get_all] in *. rewrite Hm, list_elem_of_omap. unfold reg. split.
    + intros ([[o' k'] l] & Hin%elem_of_map_to_list & Hk). case_decide as E; [|done]. destruct E as [-> Hl].
      injection Hk as ->. by rewrite Hin.
    + destruct (regs d !! (o, k)) as [l|] eqn:Hr; [|done]. simpl. intros Hl. exists ((o, k), l).
      split; [by apply elem_of_map_to_list|]. by rewrite decide_True.
  - intros d o. cbn [automerge keys]. destruct (mapped d o); [|by apply NoDup_nil].
    pose proof (NoDup_fst_map_to_list (regs d)) as Hn. revert Hn. generalize (map_to_list (regs d)) as l.
    induction l as [|[[o' k] l0] l IH]; [intros; by apply NoDup_nil|]. simpl. intros [Hk Hn]%NoDup_cons.
    case_decide as E; [|by apply IH]. destruct E as [-> _]. apply NoDup_cons. split; [|by apply IH].
    intros ([[o' k'] l'] & Hin & E)%list_elem_of_omap. case_decide as E'; [|done]. destruct E' as [-> _]. injection E as ->.
    apply Hk. apply list_elem_of_fmap. by exists (o, k, l').
  - intros d o k v Hm. cbn [is_map automerge put get_all] in *. rewrite Hm. exists (set d o k [(Scalar v, O)]), O.
    split; [done|]. split; [apply only_set|]. change (mapped (set d o k [(Scalar v, 0%nat)]) o) with (mapped d o).
    by rewrite Hm, reg_set, decide_True.
  - intros d o k Hm. cbn [is_map automerge delete get_all] in *. rewrite Hm. exists (set d o k []).
    split; [done|]. split; [apply only_set|]. change (mapped (set d o k []) o) with (mapped d o).
    by rewrite Hm, reg_set, decide_True.
  - intros d o k Hm. cbn [is_map automerge put_object get_all] in *. rewrite Hm.
    set (x := S (made d)). set (b := mkDoc _ x). exists b, x.
    assert (∀ o', mapped d o' = true → mapped b o' = true ∧ o' ≠ x) as Hle.
    { unfold mapped, b, x. cbn [made]. intros o' Ho%Nat.leb_le. split; [apply Nat.leb_le|]; lia. }
    assert (∀ o' k', o' ≠ x → (o', k') ≠ (o, k) → reg b o' k' = reg d o' k') as Hr.
    { intros o' k' Ho Hne. unfold reg, b. cbn [regs]. rewrite lookup_insert_ne by done. f_equal.
      destruct (regs d !! (o', k')) eqn:E; [by apply map_lookup_filter_Some|].
      apply map_lookup_filter_None. by left. }
    split; [done|]. split; [split|split; [|split; [|split]]].
    + intros o' Ho. by apply Hle.
    + intros o' k' Ho Hne. destruct (Hle o' Ho) as [Hb Hx]. cbn [automerge get]. cbn [is_map automerge] in Ho.
      cbn [automerge get_all]. rewrite Ho, Hb, Hr by naive_solver. done.
    + destruct (Hle o Hm) as [Hb _]. cbn [is_map automerge] in Hb. rewrite Hb. unfold reg, b. cbn [regs].
      by rewrite lookup_insert_eq.
    + unfold mapped. apply Nat.leb_gt. lia.
    + unfold mapped, b. cbn [made]. apply Nat.leb_le. lia.
    + intros j. case_match; [|done]. unfold reg, b. cbn [regs]. rewrite lookup_insert_ne.
      * rewrite map_lookup_filter. destruct (regs d !! (x, j)); simpl; [|done]. by case_guard.
      * intros [= -> _]. destruct (Hle x Hm) as [_ []]. done.
Qed.
Definition empty : doc := mkDoc ∅ 0.
End Toy.
