(* ===== verification/History.v ===== *)
(** * Documents as histories of commits ([runtime/crates/document-history/src/lib.rs])

    A [Document] is an automerge document together with the commits it has
    applied and the local ones nobody has published.  One local transaction is
    one change and one commit, named by the change's hash. *)
From S2P Require Import Prelude Crypto Automerge.

(** ** The change graph ([automerge::Change], [get_changes] and what adds to it) *)
Class ChangeGraph (A C : Type) := {
  (** [Change::hash], [deps], [is_empty], [raw_bytes] and [from_bytes] *)
  hash : C → bytes;
  deps : C → list bytes;
  is_empty : C → bool;
  raw_bytes : C → bytes;
  from_bytes : bytes → result string C;
  (** a document, its author, its changes and its heads *)
  new : A;
  set_actor : bytes → A → A;
  get_actor : A → bytes;
  get_changes : A → list C;
  get_heads : A → list bytes;
  (** what is added to it: the document afterwards, and whether it all went in *)
  apply_changes : A → list C → A * result string unit;
  load_incremental : A → bytes → A * result string unit;
  merge : A → A → A * result string unit;
  load : bytes → result string A;
  save : A → bytes;
  (** the end of a transaction: the change, unless it made no operations *)
  commit : A → A * option C;
  empty_commit : A → A * option C;
  (** changes that wait for the ones they depend on; the changes of a bundle *)
  queued : A → list C;
  bundled : bytes → list C;
}.

(** [CommitId::new(change.hash().0)]; [NewCommit]. *)
Record NewCommit := mkCommit { head : bytes; parents : list bytes; blob : bytes }.
Record Absorbed := mkAbsorbed { landed : bool; content : bool }.
Definition Absorbed_default : Absorbed := mkAbsorbed false false.

Section History.
Context `{CG : ChangeGraph A C}.

Record Document := mkDocument {
  doc : A;
  tree : bytes;
  applied : gset bytes;
  pending : list NewCommit;
}.

Definition commit_of (c : C) : NewCommit := mkCommit (hash c) (deps c) (raw_bytes c).
Definition ids (l : list C) : gset bytes := list_to_set (hash <$> l).

Definition empty (actor tree : bytes) : Document := mkDocument (set_actor actor new) tree ∅ [].
Definition adopt (a : A) (actor tree : bytes) : Document :=
  let a := set_actor actor a in
  mkDocument a tree (ids (get_changes a)) [].
Definition load_document (b actor tree : bytes) : Document :=
  adopt (match load b with Ok a => a | Err _ => new end) actor tree.
Definition try_load (b actor tree : bytes) : result string Document :=
  a ← load b; Ok (adopt a actor tree).

Definition read (d : Document) : A := doc d.
Definition actor_id (d : Document) : bytes := get_actor (doc d).
Definition revision (d : Document) : Z := Z.of_nat (length (get_changes (doc d))).
Definition contains (d : Document) (id : bytes) : bool := bool_decide (id ∈ applied d).
Definition drain_local_commits (d : Document) : list NewCommit * Document :=
  (pending d, mkDocument (doc d) (tree d) (applied d) []).
Definition diverged (d : Document) : bool := (1 <? length (get_heads (doc d)))%nat.

Definition merge_snapshot (b : bytes) (d : Document) : Document * result string unit :=
  match load b with
  | Err e => (d, Err e)
  | Ok other =>
    match merge (doc d) other with
    | (a, Err e) => (mkDocument a (tree d) (applied d) (pending d), Err e)
    | (a, Ok _) => (mkDocument a (tree d) (ids (get_changes a)) (pending d), Ok ())
    end
  end.

(** Reading back what landed: [for change in self.doc.get_changes(&[])]. *)
Fixpoint take_in (l : list C) (s : gset bytes) (r : Absorbed) : gset bytes * Absorbed :=
  match l with
  | [] => (s, r)
  | c :: l =>
    if bool_decide (hash c ∈ s) then take_in l s r
    else take_in l ({[hash c]} ∪ s) (mkAbsorbed true (content r || negb (is_empty c)))
  end.
Definition read_back (a : A) (d : Document) : Document * Absorbed :=
  let '(s, r) := take_in (get_changes a) (applied d) Absorbed_default in
  (mkDocument a (tree d) s (pending d), r).
Definition with_doc (a : A) (d : Document) : Document := mkDocument a (tree d) (applied d) (pending d).

(** [Document::apply] *)
Fixpoint fresh_changes (s : gset bytes) (items : list (bytes * bytes)) : list C :=
  match items with
  | [] => []
  | (id, blob) :: items =>
    if bool_decide (id ∈ s) then fresh_changes s items else
    match from_bytes blob with
    | Err _ => fresh_changes s items
    | Ok c => c :: fresh_changes s items
    end
  end.
Definition apply (items : list (bytes * bytes)) (d : Document) : Document * Absorbed :=
  match fresh_changes (applied d) items with
  | [] => (d, Absorbed_default)
  | changes =>
    match apply_changes (doc d) changes with
    | (a, Err _) => (with_doc a d, Absorbed_default)
    | (a, Ok _) => read_back a d
    end
  end.

(** [Document::apply_bundles] *)
Fixpoint load_bundles (s : gset bytes) (bundles : list (bytes * bytes)) (loaded : bool) (a : A) : A * bool :=
  match bundles with
  | [] => (a, loaded)
  | (head, b) :: bundles =>
    if bool_decide (head ∈ s) then load_bundles s bundles loaded a else
    match load_incremental a b with
    | (a, Ok _) => load_bundles s bundles true a
    | (a, Err _) => load_bundles s bundles loaded a
    end
  end.
Definition apply_bundles (bundles : list (bytes * bytes)) (d : Document) : Document * Absorbed :=
  match load_bundles (applied d) bundles false (doc d) with
  | (a, false) => (with_doc a d, Absorbed_default)
  | (a, true) => read_back a d
  end.

(** [Document::merge_anchor]: the commit is the caller's to publish. *)
Definition merge_anchor (d : Document) : Document * option NewCommit :=
  match empty_commit (doc d) with
  | (a, None) => (with_doc a d, None)
  | (a, Some c) => (mkDocument a (tree d) ({[hash c]} ∪ applied d) (pending d), Some (commit_of c))
  end.

(** [Document::transact]: a failed transaction is rolled back. *)
Definition transact (f : A → result string A) (d : Document) : result string Document :=
  a ← f (doc d);
  match commit a with
  | (a, None) => Ok (with_doc a d)
  | (a, Some c) => Ok (mkDocument a (tree d) ({[hash c]} ∪ applied d) (pending d ++ [commit_of c]))
  end.

(** *** [Document::publish] *)
Fixpoint decode_batch (s batch : gset bytes) (blobs : list bytes) : result string (gset bytes * list C) :=
  match blobs with
  | [] => Ok (batch, [])
  | b :: blobs =>
    c ← map_err (λ e, "invalid Automerge change: " +:+ e) (from_bytes b);
    if bool_decide (hash c ∈ s) || bool_decide (hash c ∈ batch) then decode_batch s batch blobs
    else '(batch, l) ← decode_batch s ({[hash c]} ∪ batch) blobs; Ok (batch, c :: l)
  end.
Definition depends_on (s : gset bytes) (c : C) : bool := forallb (λ h, bool_decide (h ∈ s)) (deps c).
(** [remaining.iter().position(..)] and [remove(index)]. *)
Fixpoint take_ready (s : gset bytes) (l : list C) : option (C * list C) :=
  match l with
  | [] => None
  | c :: l => if depends_on s c then Some (c, l) else '(x, l) ← take_ready s l; Some (x, c :: l)
  end.
(** The [while] loop; each turn takes one change out, so as many turns as there
    are changes are enough. *)
Fixpoint causal_order (fuel : nat) (available : gset bytes) (remaining : list C) : option (list C) :=
  match remaining, fuel with
  | [], _ => Some []
  | _, O => None
  | _, S fuel =>
    '(c, remaining) ← take_ready available remaining;
    l ← causal_order fuel ({[hash c]} ∪ available) remaining;
    Some (c :: l)
  end.

Definition publish (blobs : list bytes) (d : Document) : result string (bool * Document) :=
  '(batch, changes) ← decode_batch (applied d) ∅ blobs;
  if negb (forallb (depends_on (applied d ∪ batch)) changes)
  then Err "an Automerge change dependency is missing"%string else
  match changes with
  | [] => Ok (false, d)
  | _ =>
    let '(candidate, r) := apply_changes (doc d) changes in
    _ ← map_err (λ e, "invalid Automerge change batch: " +:+ e) r;
    ordered ← ok_or "the Automerge change batch is not causally ordered"%string
                (causal_order (length changes) (applied d) changes);
    Ok (true, mkDocument candidate (tree d) (ids ordered ∪ applied d) (pending d ++ (commit_of <$> ordered)))
  end.
End History.
Arguments Document A : clear implicits.

(** [document_history::actor] *)
Definition actor `{Sha256} (domain seed scope : bytes) : bytes := take 16 (sha256 (domain ++ seed ++ scope)).

(** ** What automerge promises of its graph

    A change is held when it was given to the document; it is in the history
    once everything it depends on is. *)
Section Graph.
Context `{CG : ChangeGraph A C}.

Inductive ready (held : list C) : C → Prop :=
| ready_intro c cs : c ∈ held → hash <$> cs = deps c → (∀ c', c' ∈ cs → ready held c') → ready held c.
Definition held (a : A) : list C := get_changes a ++ queued a.

Class GraphLaws := {
  hash_inj : Inj (=) (=) (hash (A := A));
  acyclic : well_founded (λ c' c, hash c' ∈ deps c);
  change_bytes c : from_bytes (A := A) (raw_bytes c) = Ok c;
  settled a c : c ∈ get_changes a ↔ ready (held a) c;
  NoDup_changes a : NoDup (get_changes a);
  held_new c : c ∉ held new;
  held_actor x a c : c ∈ held (set_actor x a) ↔ c ∈ held a;
  held_apply a cs b : apply_changes a cs = (b, Ok ()) → ∀ c, c ∈ held b ↔ c ∈ held a ∨ c ∈ cs;
  held_load a x b : load_incremental a x = (b, Ok ()) → ∀ c, c ∈ held b ↔ c ∈ held a ∨ c ∈ bundled x;
  held_merge a o b : merge a o = (b, Ok ()) → ∀ c, c ∈ held b ↔ c ∈ held a ∨ c ∈ get_changes o;
  (** a refusal loses nothing *)
  kept_apply a cs c : c ∈ get_changes a → c ∈ get_changes (apply_changes a cs).1;
  kept_load a x c : c ∈ get_changes a → c ∈ get_changes (load_incremental a x).1;
  kept_merge a o c : c ∈ get_changes a → c ∈ get_changes (merge a o).1;
  commit_none a b : commit a = (b, None) → ∀ c, c ∈ held b ↔ c ∈ held a;
  commit_some a b x : commit a = (b, Some x) →
    (∀ c, c ∈ held b ↔ c ∈ held a ∨ c = x) ∧ ∀ h, h ∈ deps x → ∃ c, hash c = h ∧ c ∈ get_changes a;
  empty_none a b : empty_commit a = (b, None) → ∀ c, c ∈ held b ↔ c ∈ held a;
  empty_some a b x : empty_commit a = (b, Some x) →
    (∀ c, c ∈ held b ↔ c ∈ held a ∨ c = x) ∧ ∀ h, h ∈ deps x → ∃ c, hash c = h ∧ c ∈ get_changes a;
}.
End Graph.
Arguments GraphLaws A C {CG}.

Section Theorems.
Context `{GraphLaws A C}.
Existing Instance hash_inj.

Lemma ready_mono (K K' : list C) c : K ⊆ K' → ready K c → ready K' c.
Proof.
  intros HK. induction 1 as [c cs Hc Hd _ IH]. econstructor; eauto.
Qed.
Lemma ready_iff (K : list C) c : ready K c ↔ c ∈ K ∧ ∀ h, h ∈ deps c → ∃ c', hash c' = h ∧ ready K c'.
Proof.
  split.
  - destruct 1 as [c cs Hc Hd Hr]. split; [done|]. intros h Hh. rewrite <- Hd in Hh. apply list_elem_of_fmap in Hh as (c' & -> & Hc'). eauto.
  - intros [Hc Hd]. assert (∃ cs, hash <$> cs = deps c ∧ ∀ c', c' ∈ cs → ready K c') as (cs & E & Hr).
    { clear Hc. induction (deps c) as [|h l IH]; [exists []; split; [done|by intros ? ?%elem_of_nil]|].
      destruct IH as (cs & E & Hr); [intros h' Hh; apply Hd; by right|]. destruct (Hd h) as (c' & <- & Hc'); [left|].
      exists (c' :: cs). split; [by rewrite fmap_cons, E|]. intros x [->|Hx]%elem_of_cons; auto. }
    by econstructor.
Qed.

(** *** The applied set is the history *)
Definition in_history (d : Document A) : Prop := applied d ⊆ ids (get_changes (doc d)).
Definition exact (d : Document A) : Prop := applied d = ids (get_changes (doc d)).

Lemma elem_of_ids h (l : list C) : h ∈ ids l ↔ ∃ c, hash c = h ∧ c ∈ l.
Proof.
  unfold ids. rewrite elem_of_list_to_set, list_elem_of_fmap. naive_solver.
Qed.
Lemma elem_of_ids_hash c (l : list C) : hash c ∈ ids l ↔ c ∈ l.
Proof. rewrite elem_of_ids. split; [intros (c' & E & Hc); by apply hash_inj in E as ->|eauto]. Qed.
Lemma ids_mono (l l' : list C) : l ⊆ l' → ids l ⊆ ids l'.
Proof. intros Hl h. rewrite !elem_of_ids. intros (c & Hh & Hc). eauto. Qed.

Lemma take_in_set (l : list C) s r : (take_in l s r).1 = ids l ∪ s.
Proof.
  revert s r. induction l as [|c l IH]; intros s r; simpl; [set_solver|].
  case_bool_decide as Hc; rewrite IH; unfold ids; simpl; set_solver.
Qed.
Lemma read_back_exact a (d : Document A) : applied d ⊆ ids (get_changes a) → exact (read_back a d).1.
Proof.
  intros Hd. unfold exact, read_back. pose proof (take_in_set (get_changes a) (applied d) Absorbed_default) as Ht.
  destruct (take_in _ _ _) as [s r]. simpl in *. set_solver.
Qed.

(** What landed is what the history did not have. *)
Lemma take_in_landed (l : list C) s r :
  landed (take_in l s r).2 = landed r || existsb (λ c, negb (bool_decide (hash c ∈ s))) l.
Proof.
  revert s r. induction l as [|c l IH]; intros s r; simpl; [by rewrite orb_false_r|].
  case_bool_decide as Hc; rewrite IH; simpl; [done|]. by rewrite orb_true_r.
Qed.

Lemma changes_mono a b : (∀ c, c ∈ held a → c ∈ held b) → get_changes a ⊆ get_changes b.
Proof. intros Hh c. rewrite !settled. apply ready_mono. exact Hh. Qed.

(** *** What one batch adds *)
Inductive batch := Commits (items : list (bytes * bytes)) | Fragments (bundles : list (bytes * bytes)).
Definition absorb (b : batch) (d : Document A) : Document A :=
  match b with Commits items => (apply items d).1 | Fragments bundles => (apply_bundles bundles d).1 end.



Lemma read_back_doc a (d : Document A) : doc (read_back a d).1 = a.
Proof. unfold read_back. by destruct (take_in _ _ _). Qed.






(** What automerge refuses, it refuses whole: a batch with one such change lands
    nothing of its other changes, which absorbed apart would land. *)
Theorem refused_batch_lands_nothing items d e : fresh_changes (applied d) items ≠ [] →
  (apply_changes (C := C) (doc d) (fresh_changes (applied d) items)).2 = Err e →
  applied (absorb (Commits items) d) = applied d ∧ (apply items d).2 = Absorbed_default.
Proof.
  intros Hne He. cbn [absorb]. unfold apply. destruct (fresh_changes _ _) as [|c l]; [done|]. destruct (apply_changes _ _) as [a [|]]; [done|by split].
Qed.

(** *** Publishing *)
Fixpoint causal (s : gset bytes) (l : list C) : Prop :=
  match l with
  | [] => True
  | c :: l => (∀ h, h ∈ deps (A := A) c → h ∈ s) ∧ causal ({[hash (A := A) c]} ∪ s) l
  end.

Lemma depends_on_spec s (c : C) : depends_on (A := A) s c = true ↔ ∀ h, h ∈ deps (A := A) c → h ∈ s.
Proof.
  unfold depends_on. rewrite forallb_forall. split.
  - intros Hd h Hh. exact (bool_decide_eq_true_1 _ (Hd h (proj1 (list_elem_of_In _ _) Hh))).
  - intros Hd h Hh. apply bool_decide_eq_true_2, Hd. exact (proj2 (list_elem_of_In _ _) Hh).
Qed.

Lemma take_ready_Some s (l : list C) c r : take_ready (A := A) s l = Some (c, r) →
  (∀ h, h ∈ deps (A := A) c → h ∈ s) ∧ l ≡ₚ c :: r.
Proof.
  revert r. induction l as [|x l IH]; intros r; simpl; [done|]. destruct (depends_on s x) eqn:Hx.
  - intros [= -> ->]. by rewrite <- depends_on_spec.
  - destruct (take_ready s l) as [[y r']|] eqn:Hl; simpl; [|done]. intros [= -> <-].
    destruct (IH r' eq_refl) as [Hd Hp]. split; [done|]. rewrite Hp. constructor.
Qed.
Lemma take_ready_None s (l : list C) c : take_ready (A := A) s l = None → c ∈ l → ∃ h, h ∈ deps (A := A) c ∧ h ∉ s.
Proof.
  induction l as [|x l IH]; intros Hn Hc; [by apply elem_of_nil in Hc|]. simpl in Hn.
  destruct (depends_on s x) eqn:Hx; [done|]. destruct (take_ready s l) as [[]|] eqn:Hl; [done|].
  apply elem_of_cons in Hc as [->|Hc]; [|by apply IH]. unfold depends_on in Hx.
  destruct (decide (Exists (λ h, h ∉ s) (deps (A := A) x))) as [He|He]; [by apply Exists_exists in He|].
  apply not_true_iff_false in Hx. destruct Hx. apply forallb_forall. intros h Hh. apply bool_decide_eq_true_2.
  destruct (decide (h ∈ s)) as [|Hs]; [done|]. destruct He. apply Exists_exists. exists h.
  split; [exact (proj2 (list_elem_of_In _ _) Hh)|done].
Qed.

(** Hash links have no cycles: some change of a batch depends on none of it. *)
Lemma first_change (s : gset bytes) (l : list C) c :
  (∀ x h, x ∈ l → h ∈ deps (A := A) x → h ∈ s ∨ h ∈ ids (A := A) l) → c ∈ l →
  ∃ m, m ∈ l ∧ ∀ h, h ∈ deps (A := A) m → h ∈ s.
Proof.
  intros Hl. induction c as [c IH] using (well_founded_induction acyclic). intros Hc.
  destruct (decide (Forall (λ h, h ∈ s) (deps (A := A) c))) as [Hf|Hf].
  - exists c. split; [done|]. by apply Forall_forall.
  - apply not_Forall_Exists in Hf; [|apply _]. apply Exists_exists in Hf as (h & Hh & Hs).
    destruct (Hl c h Hc Hh) as [|Hi]; [done|]. apply elem_of_ids in Hi as (x & <- & Hx). by apply (IH x).
Qed.

Lemma causal_order_total (fuel : nat) (s : gset bytes) (l : list C) : (length l ≤ fuel)%nat →
  (∀ x h, x ∈ l → h ∈ deps (A := A) x → h ∈ s ∨ h ∈ ids (A := A) l) →
  ∃ o, causal_order (A := A) fuel s l = Some o ∧ o ≡ₚ l ∧ causal s o.
Proof.
  revert s l. induction fuel as [|fuel IH]; intros s l Hf Hl.
  { destruct l; [|simpl in Hf; lia]. by exists []. }
  destruct l as [|c0 l0]; [by exists []|]. remember (c0 :: l0) as l eqn:El.
  assert (c0 ∈ l) as Hc0 by (rewrite El; left).
  change (causal_order (S fuel) s l) with (match l with [] => Some [] | _ =>
    '(c, r) ← take_ready (A := A) s l; o ← causal_order (A := A) fuel ({[hash (A := A) c]} ∪ s) r; Some (c :: o) end).
  destruct (take_ready s l) as [[c r]|] eqn:Ht.
  - destruct (take_ready_Some _ _ _ _ Ht) as [Hd Hp].
    destruct (IH ({[hash (A := A) c]} ∪ s) r) as (o & Ho & Hperm & Hcausal).
    + apply Permutation_length in Hp. simpl in Hp. lia.
    + intros x h Hx Hh. destruct (Hl x h) as [?|Hi]; [rewrite Hp; by right|done|set_solver|].
      apply elem_of_ids in Hi as (y & <- & Hy). rewrite Hp in Hy. apply elem_of_cons in Hy as [->|Hy]; [set_solver|].
      right. apply elem_of_ids. eauto.
    + exists (c :: o). rewrite El at 1. simpl. rewrite Ho. split; [done|]. split; [by rewrite Hp, Hperm|]. by split.
  - destruct (first_change s l c0 Hl Hc0) as (m & Hm & Hd).
    destruct (take_ready_None _ _ _ Ht Hm) as (h & Hh & Hn). by destruct Hn; apply Hd.
Qed.

Lemma decode_batch_spec (s batch : gset bytes) blobs batch' (l : list C) : decode_batch (A := A) s batch blobs = Ok (batch', l) →
  batch' = ids (A := A) l ∪ batch ∧ NoDup (hash (A := A) <$> l) ∧
  (∀ c, c ∈ l → (hash (A := A) c ∉ s) ∧ (hash (A := A) c ∉ batch)) ∧
  ∀ c, c ∈ l ∨ hash (A := A) c ∈ s ∨ hash (A := A) c ∈ batch ↔
    (∃ b, b ∈ blobs ∧ from_bytes (A := A) b = Ok c) ∨ hash (A := A) c ∈ s ∨ hash (A := A) c ∈ batch.
Proof.
  revert batch batch' l. induction blobs as [|b blobs IH]; intros batch batch' l.
  { intros [= <- <-]. split; [unfold ids; simpl; set_solver|]. split; [by apply NoDup_nil|].
    split; [by intros c ?%elem_of_nil|]. intros c.
    split; [intros [?%elem_of_nil|]; [done|auto]|intros [(? & ?%elem_of_nil & _)|]; [done|auto]]. }
  simpl. destruct (from_bytes b) as [x|e] eqn:Hx; cbn [map_err mbind result_bind]; [|done].
  destruct (bool_decide (hash x ∈ s) || bool_decide (hash x ∈ batch)) eqn:Hin.
  - intros Hl. destruct (IH _ _ _ Hl) as (H1 & H2 & H3 & H4). split_and!; [done..|]. intros c. rewrite H4.
    apply orb_true_iff in Hin. rewrite !bool_decide_eq_true in Hin. split.
    + intros [(y & Hy & Hc)|?]; [left; exists y; split; [by right|done]|by right].
    + intros [(y & [->|Hy]%elem_of_cons & Hc)|?]; [|left; eauto|by right].
      right. rewrite Hx in Hc. by injection Hc as ->.
  - apply orb_false_iff in Hin as [Hs%bool_decide_eq_false Hb%bool_decide_eq_false].
    destruct (decode_batch s ({[hash x]} ∪ batch) blobs) as [[bt l']|] eqn:Hl; cbn [mbind result_bind]; [|done].
    intros [= <- <-]. destruct (IH _ _ _ Hl) as (H1 & H2 & H3 & H4). split_and!.
    + rewrite H1. unfold ids. simpl. set_solver.
    + simpl. apply NoDup_cons. split; [|done]. intros (c & E & Hc)%list_elem_of_fmap.
      destruct (H3 c Hc) as [_ Hn]. apply Hn. rewrite <- E. set_solver.
    + intros c [->|Hc]%elem_of_cons; [done|]. destruct (H3 c Hc). set_solver.
    + intros c. specialize (H4 c). rewrite elem_of_union, elem_of_singleton in H4. rewrite elem_of_cons. split.
      * intros [[->|Hc]|Hc]; [left; exists b; split; [left|done]| |by right].
        destruct (proj1 H4 (or_introl Hc)) as [(y & Hy & E)|[?|[E|?]]]; [|by auto| |by auto].
        -- left. exists y. split; [by right|done].
        -- apply hash_inj in E as ->. left. exists b. split; [left|done].
      * intros [(y & [->|Hy]%elem_of_cons & E)|?]; [rewrite Hx in E; injection E as ->; by auto| |by auto].
        destruct (proj2 H4 (or_introl (ex_intro _ y (conj Hy E)))) as [?|[?|[E'|?]]]; [by auto..| |by auto].
        apply hash_inj in E' as ->. by auto.
Qed.

Lemma decode_batch_each (s batch : gset bytes) blobs :
  match decode_batch (A := A) (C := C) s batch blobs with
  | Ok _ => ∀ b, b ∈ blobs → ∃ c : C, from_bytes (A := A) b = Ok c
  | Err why => ∃ b e, b ∈ blobs ∧ from_bytes (A := A) (C := C) b = Err e ∧ why = ("invalid Automerge change: "%string +:+ e)
  end.
Proof.
  revert batch. induction blobs as [|b blobs IH]; intros batch; [by intros b ?%elem_of_nil|]. simpl.
  destruct (from_bytes b) as [x|e] eqn:Hx; cbn [map_err mbind result_bind].
  2: { exists b, e. split; [left|by split]. }
  assert (∀ batch, match decode_batch (A := A) (C := C) s batch blobs with
    | Ok _ => ∀ y, y ∈ b :: blobs → ∃ c : C, from_bytes (A := A) y = Ok c
    | Err why => ∃ y e, y ∈ b :: blobs ∧ from_bytes (A := A) (C := C) y = Err e ∧ why = ("invalid Automerge change: "%string +:+ e) end) as IH'.
  { intros batch'. specialize (IH batch'). destruct (decode_batch s batch' blobs).
    - intros y [->|Hy]%elem_of_cons; eauto.
    - destruct IH as (y & e' & Hy & Hb). exists y, e'. split; [by right|done]. }
  destruct (_ || _); [by apply IH'|]. specialize (IH' ({[hash x]} ∪ batch)). by destruct (decode_batch _ _ blobs) as [[]|].
Qed.

Lemma decode_batch_members s blobs batch (l : list C) : decode_batch (A := A) s ∅ blobs = Ok (batch, l) →
  ∀ c, c ∈ l ↔ (hash (A := A) c ∉ s) ∧ ∃ b, b ∈ blobs ∧ from_bytes (A := A) b = Ok c.
Proof.
  intros Hl. destruct (decode_batch_spec _ _ _ _ _ Hl) as (_ & _ & H3 & H4). intros c. specialize (H4 c). specialize (H3 c).
  set_solver.
Qed.
Lemma publish_doc blobs (d d' : Document A) : publish (C := C) blobs d = Ok (true, d') →
  ∃ l, apply_changes (C := C) (doc d) l = (doc d', Ok ()) ∧
    ∀ c, c ∈ l ↔ (hash (A := A) c ∉ applied d) ∧ ∃ b, b ∈ blobs ∧ from_bytes (A := A) b = Ok c.
Proof.
  unfold publish. destruct (decode_batch _ _ _) as [[batch l]|] eqn:Hl; cbn [mbind result_bind]; [|done].
  pose proof (decode_batch_members _ _ _ _ Hl) as Hm. destruct (forallb _ _); [|done]. destruct l as [|c0 l0]; [done|].
  remember (c0 :: l0) as l. destruct (apply_changes (doc d) l) as [a [[]|]] eqn:Ha; cbn [map_err mbind result_bind]; [|done].
  destruct (causal_order _ _ _) as [o|]; cbn [ok_or mbind result_bind]; [|done]. intros [= <-]. by exists l.
Qed.

(** What is new in a batch; a dependency that neither the document nor the batch has. *)
Definition new_in (blobs : list bytes) (d : Document A) (c : C) : Prop :=
  hash (A := A) c ∉ applied d ∧ ∃ b, b ∈ blobs ∧ from_bytes (A := A) b = Ok c.
Definition missing (blobs : list bytes) (d : Document A) (h : bytes) : Prop :=
  h ∉ applied d ∧ ∀ b (c : C), b ∈ blobs → from_bytes (A := A) b = Ok c → hash (A := A) c ≠ h.
(** What may come of a batch. *)
Definition published (blobs : list bytes) (d : Document A) (r : result string (bool * Document A)) : Prop :=
  match r with
  | Ok (true, d') => ∃ cs l, tree d' = tree d ∧ pending d' = pending d ++ (commit_of (A := A) <$> cs) ∧
      NoDup (hash (A := A) <$> cs) ∧ causal (applied d) cs ∧ applied d' = ids (A := A) cs ∪ applied d ∧
      (∀ c, c ∈ cs ↔ new_in blobs d c) ∧ l ≡ₚ cs ∧ apply_changes (C := C) (doc d) l = (doc d', Ok ())
  | Ok (false, d') => d' = d ∧
      ∀ b, b ∈ blobs → ∃ c : C, from_bytes (A := A) b = Ok c ∧ hash (A := A) c ∈ applied d
  | Err why => (∃ b e, b ∈ blobs ∧ from_bytes (A := A) (C := C) b = Err e ∧ why = ("invalid Automerge change: "%string +:+ e)) ∨
      (∃ (c : C) h, new_in blobs d c ∧ h ∈ deps (A := A) c ∧ missing blobs d h ∧ why = "an Automerge change dependency is missing"%string) ∨
      ∃ l e, (∀ c, c ∈ l ↔ new_in blobs d c) ∧ (apply_changes (C := C) (doc d) l).2 = Err e ∧ why = ("invalid Automerge change batch: "%string +:+ e)
  end.
Lemma publish_spec blobs d : published blobs d (publish (A := A) (C := C) blobs d).
Proof.
  unfold published, publish. destruct (decode_batch (applied d) ∅ blobs) as [[batch l]|e] eqn:Hl; cbn [mbind result_bind].
  - destruct (decode_batch_spec _ _ _ _ _ Hl) as (H1 & H2 & H3 & H4).
    pose proof (decode_batch_members _ _ _ _ Hl) as Hmem.
    destruct (forallb (depends_on (applied d ∪ batch)) l) eqn:Hd; cbn [negb].
    + destruct l as [|c0 l0].
      * split; [done|]. intros b Hb. pose proof (decode_batch_each (applied d) ∅ blobs) as He. rewrite Hl in He.
        destruct (He b Hb) as [c Hc]. exists c. split; [done|]. destruct (decide (hash c ∈ applied d)) as [|Hn]; [done|].
        destruct (not_elem_of_nil c). apply Hmem. eauto.
      * remember (c0 :: l0) as l eqn:El. destruct (apply_changes (doc d) l) as [candidate [[]|e]] eqn:Ha; cbn [map_err mbind result_bind].
        2: { right. right. exists l, e. by rewrite Ha. }
        destruct (causal_order_total (length l) (applied d) l) as (o & Ho & Hp & Hc); [done| |].
        { intros x h Hx Hh. rewrite forallb_forall in Hd. specialize (Hd x (proj1 (list_elem_of_In _ _) Hx)).
          rewrite depends_on_spec in Hd. specialize (Hd h Hh). rewrite H1 in Hd. set_solver. }
        rewrite El in Ho. rewrite <- El in Ho. rewrite Ho. cbn [ok_or mbind result_bind]. exists o, l. cbn [pending applied tree doc].
        split_and!; [done|done|by rewrite Hp|done|done| |done|done]. intros c. by rewrite Hp.
    + right. left. apply not_true_iff_false in Hd. clear -H Hd Hmem H1.
      destruct (decide (Exists (λ c, Exists (λ h, h ∉ applied d ∪ batch) (deps (A := A) c)) l)) as [He|He].
      * apply Exists_exists in He as (c & Hc & (h & Hh & Hn)%Exists_exists). rewrite H1 in Hn.
        exists c, h. split; [by apply Hmem|]. split; [done|]. split; [|done]. split; [set_solver|]. intros b c' Hb Hc' <-. apply Hn.
        destruct (decide (hash c' ∈ applied d)) as [|Hna]; [set_solver|]. assert (c' ∈ l) as Hin by (apply Hmem; eauto).
        apply elem_of_union; right. apply elem_of_union; left. by apply elem_of_ids_hash.
      * destruct Hd. apply forallb_forall. intros c Hc. apply depends_on_spec. intros h Hh.
        destruct (decide (h ∈ applied d ∪ batch)) as [|Hn]; [done|]. destruct He. apply Exists_exists. exists c.
        split; [exact (proj2 (list_elem_of_In _ _) Hc)|]. apply Exists_exists. eauto.
  - left. pose proof (decode_batch_each (applied d) ∅ blobs) as He. by rewrite Hl in He.
Qed.


(** *** Every operation *)
(** The operations of a transaction add nothing to the graph; its commit does. *)
Definition steady (f : A → result string A) : Prop := ∀ a b c, f a = Ok b → c ∈ held b ↔ c ∈ held a.

Inductive dstep (d : Document A) : Document A → Prop :=
| d_absorb b : dstep d (absorb b d)
| d_merge x : dstep d (merge_snapshot (C := C) x d).1
| d_anchor : dstep d (merge_anchor (C := C) d).1
| d_transact f d' : steady f → transact (C := C) f d = Ok d' → dstep d d'
| d_publish blobs r d' : publish (C := C) blobs d = Ok (r, d') → dstep d d'
| d_drain : dstep d (drain_local_commits d).2.

(** The history only grows, and the applied commits stay within it. *)
Definition grown (d d' : Document A) : Prop :=
  get_changes (C := C) (doc d) ⊆ get_changes (doc d') ∧ in_history d'.

Lemma grown_read_back a (d : Document A) : in_history d → get_changes (doc d) ⊆ get_changes a →
  grown d (read_back (C := C) a d).1.
Proof.
  intros Hd Ha. split; [by rewrite read_back_doc|].
  assert (applied d ⊆ ids (get_changes a)) as Hs by (etrans; [exact Hd|by apply ids_mono]).
  apply read_back_exact in Hs. unfold in_history. by rewrite Hs.
Qed.
Lemma grown_with_doc a (d : Document A) : in_history d → get_changes (C := C) (doc d) ⊆ get_changes a → grown d (with_doc a d).
Proof. intros Hd Ha. split; [done|]. unfold in_history. simpl. etrans; [exact Hd|by apply ids_mono]. Qed.
Lemma grown_commit a a' x (d : Document A) p : in_history d → (∀ c, c ∈ held a ↔ c ∈ held (doc d)) →
  (∀ c, c ∈ held a' ↔ c ∈ held a ∨ c = x) → (∀ h, h ∈ deps (A := A) x → ∃ c, hash (A := A) c = h ∧ c ∈ get_changes a) →
  grown d (mkDocument a' (tree d) ({[hash (A := A) x]} ∪ applied d) p).
Proof.
  intros Hd Ha Ha' Hx. assert (get_changes (doc d) ⊆ get_changes a') as Hg.
  { apply changes_mono. intros c. rewrite Ha', Ha. auto. }
  split; [done|]. unfold in_history. simpl. apply union_least.
  - apply singleton_subseteq_l, elem_of_ids_hash, settled, ready_iff. split; [apply Ha'; by right|].
    intros h (c & Hc & Hin)%Hx. exists c. split; [done|]. apply settled in Hin. apply (ready_mono (held a)); [|done].
    intros y. rewrite Ha'. auto.
  - etrans; [exact Hd|by apply ids_mono].
Qed.
Lemma kept_bundles s bundles loaded (a : A) : get_changes (C := C) a ⊆ get_changes (load_bundles (C := C) s bundles loaded a).1.
Proof.
  revert loaded a. induction bundles as [|[h x] bundles IH]; intros loaded a; simpl; [done|].
  case_bool_decide; [done|]. pose proof (λ c, kept_load (C := C) a x c) as Hk.
  destruct (load_incremental a x) as [b [|]]; (etrans; [exact Hk|apply IH]).
Qed.

(** The causal order keeps every published change within the history. *)
Lemma causal_ready (K : list C) s (l : list C) : (∀ h, h ∈ s → ∃ c, hash (A := A) c = h ∧ ready K c) → l ⊆ K → causal s l →
  ∀ c, c ∈ l → ready K c.
Proof.
  revert s. induction l as [|x l IH]; intros s Hs Hl Hc c; [by intros ?%elem_of_nil|].
  destruct Hc as [Hd Hc]. assert (ready K x) as Hx.
  { apply ready_iff. split; [apply Hl; left|]. intros h Hh. by apply Hs, Hd. }
  intros [->|Hin]%elem_of_cons; [done|]. apply (IH ({[hash x]} ∪ s)); [|set_solver|done|done].
  intros h [->%elem_of_singleton|Hh]%elem_of_union; eauto.
Qed.

(** The applied set never runs ahead of the history, whatever arrives, in whatever
    order, and even where automerge refuses it; and no operation loses a change. *)
Theorem applied_within_history d d' : in_history d → dstep d d' → grown d d'.
Proof.
  intros Hd Hs. destruct Hs as [b|x| |f d' Hf Ht|blobs r d' Hp|].
  - destruct b as [items|bundles]; cbn [absorb].
    + unfold apply. destruct (fresh_changes _ _) as [|x l]; [by split|].
      pose proof (λ c, kept_apply (C := C) (doc d) (x :: l) c) as Hk.
      destruct (apply_changes (doc d) (x :: l)) as [a [|]]; [by apply grown_read_back|by apply grown_with_doc].
    + unfold apply_bundles. pose proof (kept_bundles (applied d) bundles false (doc d)) as Hk.
      destruct (load_bundles _ _ _ _) as [a []]; [by apply grown_read_back|by apply grown_with_doc].
  - unfold merge_snapshot. destruct (load x) as [o|]; [|by split]. pose proof (λ c, kept_merge (C := C) (doc d) o c) as Hk.
    destruct (merge (doc d) o) as [a [|]]; [|by apply grown_with_doc]. split; [done|]. by unfold in_history.
  - unfold merge_anchor. destruct (empty_commit (doc d)) as [a [x|]] eqn:He.
    + destruct (empty_some _ _ _ He) as [Ha Hx]. by eapply grown_commit.
    + apply grown_with_doc; [done|]. apply changes_mono. intros c. by rewrite (empty_none _ _ He).
  - unfold transact in Ht. destruct (f (doc d)) as [a|] eqn:Ha; [|done]. cbn [mbind result_bind] in Ht.
    destruct (commit a) as [b [x|]] eqn:Hb; injection Ht as <-.
    + destruct (commit_some _ _ _ Hb) as [Hh Hx]. eapply grown_commit; [done| |done|done]. intros c. by apply Hf.
    + apply grown_with_doc; [done|]. apply changes_mono. intros c. by rewrite (commit_none _ _ Hb), (Hf _ _ c Ha).
  - pose proof (publish_spec blobs d) as Hspec. unfold published in Hspec. rewrite Hp in Hspec. destruct r.
    2: { destruct Hspec as [-> _]. by split. }
    destruct Hspec as (cs & _ & _ & _ & _ & Hc & Happ & Hmem & _).
    destruct (publish_doc _ _ _ Hp) as (l & Hl & Hlm).
    assert (get_changes (doc d) ⊆ get_changes (doc d')) as Hg.
    { apply changes_mono. intros c. rewrite (held_apply _ _ _ Hl). auto. }
    split; [done|]. unfold in_history. rewrite Happ. apply union_least; [|etrans; [exact Hd|by apply ids_mono]].
    apply ids_mono. intros c Hin. apply settled. revert c Hin. apply (causal_ready _ (applied d)); [|intros c|done].
    + intros h Hh. apply Hd, elem_of_ids in Hh as (c & <- & Hin). exists c. split; [done|]. by apply settled, Hg.
    + intros Hin. apply (held_apply _ _ _ Hl). right. by apply Hlm, Hmem.
  - by split.
Qed.
End Theorems.

(** ** An instance

    Each author's changes are a chain: the [s]-th depends on the one before it.
    The document is [Automerge]'s toy registers with the changes it was given. *)
Module Toy.
#[local] Existing Instances Automerge.Toy.automerge Automerge.Toy.laws.
Record adoc := mkADoc { view : Automerge.Toy.doc; given : list (nat * nat); who : bytes; staged : bool }.

Definition on_view (f : Automerge.Toy.doc → result string Automerge.Toy.doc) (d : adoc) : result string adoc :=
  v ← f (view d); Ok (mkADoc v (given d) (who d) true).
#[export] Instance automerge : Automerge adoc nat := {|
  ROOT := ROOT (A := Automerge.Toy.doc);
  get d := get (view d);
  get_all d := get_all (view d);
  keys d := keys (view d);
  put d o k v := on_view (λ a, put a o k v) d;
  put_object d o k := '(v, x) ← put_object (view d) o k; Ok (mkADoc v (given d) (who d) true, x);
  delete d o k := on_view (λ a, delete a o k) d;
  is_map d := is_map (view d);
|}.
#[export] Instance laws : MapLaws adoc nat.
Proof.
  split.
  - intros d. apply (root_map (view d)).
  - intros d. apply (get_one (view d)).
  - intros d. apply (elem_of_keys (view d)).
  - intros d. apply (NoDup_keys (view d)).
  - intros d o k v Hm. destruct (put_spec (view d) o k v Hm) as (b & x & Hp & Ho & Hg).
    exists (mkADoc b (given d) (who d) true), x. cbn [put automerge]. unfold on_view. by rewrite Hp.
  - intros d o k Hm. destruct (delete_spec (view d) o k Hm) as (b & Hp & Ho & Hg).
    exists (mkADoc b (given d) (who d) true). cbn [delete automerge]. unfold on_view. by rewrite Hp.
  - intros d o k Hm. destruct (put_object_spec (view d) o k Hm) as (b & x & Hp & Ho).
    exists (mkADoc b (given d) (who d) true), x. cbn [put_object automerge]. by rewrite Hp.
Qed.

Fixpoint nat_bytes (n : nat) : bytes := match n with O => [Byte.x01] | S n => Byte.x00 :: nat_bytes n end.
Fixpoint parse_nat (b : bytes) : option (nat * bytes) :=
  match b with
  | Byte.x00 :: b => '(n, r) ← parse_nat b; Some (S n, r)
  | Byte.x01 :: b => Some (O, b)
  | _ => None
  end.
Definition chash (c : nat * nat) : bytes := nat_bytes c.1 ++ nat_bytes c.2.
Definition parse_change (b : bytes) : option (nat * nat * bytes) :=
  '(a, b) ← parse_nat b; '(s, b) ← parse_nat b; Some (a, s, b).
Fixpoint parse_changes (fuel : nat) (b : bytes) : list (nat * nat) :=
  match fuel, parse_change b with
  | S fuel, Some (c, b) => c :: parse_changes fuel b
  | _, _ => []
  end.
Lemma parse_nat_bytes n r : parse_nat (nat_bytes n ++ r) = Some (n, r).
Proof. induction n as [|n IH]; simpl; [done|]. by rewrite IH. Qed.
Lemma parse_hash c r : parse_change (chash c ++ r) = Some (c, r).
Proof.
  unfold parse_change, chash. rewrite <- app_assoc, parse_nat_bytes. simpl. rewrite parse_nat_bytes. simpl.
  by destruct c.
Qed.

Definition chain (l : list (nat * nat)) (c : nat * nat) : bool :=
  forallb (λ s, bool_decide ((c.1, s) ∈ l)) (seq 0 (S c.2)).
Definition history (d : adoc) : list (nat * nat) := filter (λ c, chain (given d) c = true) (remove_dups (given d)).
Definition me (d : adoc) : nat := match who d with [] => O | b :: _ => Z.to_nat (u8 b) end.
Fixpoint unused (fuel : nat) (l : list (nat * nat)) (a s : nat) : nat :=
  match fuel with
  | O => s
  | S fuel => if bool_decide ((a, s) ∈ l) then unused fuel l a (S s) else s
  end.
Definition author (d : adoc) : adoc * option (nat * nat) :=
  let c := (me d, unused (length (given d)) (history d) (me d) 0) in
  (mkADoc (view d) (given d ++ [c]) (who d) false, Some c).
Definition give (cs : list (nat * nat)) (d : adoc) : adoc := mkADoc (view d) (given d ++ cs) (who d) (staged d).

#[export] Instance graph : ChangeGraph adoc (nat * nat) := {|
  hash := chash;
  deps c := match c.2 with O => [] | S s => [chash (c.1, s)] end;
  is_empty _ := false;
  raw_bytes := chash;
  from_bytes b := match parse_change b with Some (c, []) => Ok c | _ => Err "not a change"%string end;
  new := mkADoc Automerge.Toy.empty [] [] false;
  set_actor x d := mkADoc (view d) (given d) x (staged d);
  get_actor := who;
  get_changes := history;
  get_heads d := chash <$> filter (λ c, (c.1, S c.2) ∉ history d) (history d);
  apply_changes d cs := (give cs d, Ok ());
  load_incremental d b := (give (parse_changes (length b) b) d, Ok ());
  merge d o := (give (history o) d, Ok ());
  load b := Ok (mkADoc Automerge.Toy.empty (parse_changes (length b) b) [] false);
  save d := history d ≫= chash;
  commit d := if staged d then author d else (d, None);
  empty_commit d := author d;
  queued d := filter (λ c, chain (given d) c ≠ true) (given d);
  bundled b := parse_changes (length b) b;
|}.

Lemma elem_of_history d c : c ∈ history d ↔ chain (given d) c = true.
Proof.
  unfold history. rewrite list_elem_of_filter, elem_of_remove_dups. split; [by intros [? _]|]. intros Hc. split; [done|].
  unfold chain in Hc. rewrite forallb_forall in Hc. specialize (Hc c.2 ltac:(apply in_seq; lia)).
  apply bool_decide_eq_true in Hc. by destruct c.
Qed.
Lemma elem_of_held d c : c ∈ held d ↔ c ∈ given d.
Proof.
  unfold held. cbn [get_changes graph queued]. rewrite elem_of_app, elem_of_history, list_elem_of_filter.
  destruct (decide (chain (given d) c = true)) as [Hc|Hc]; [|tauto]. split; [|auto]. intros _.
  apply elem_of_history in Hc. unfold history in Hc. apply list_elem_of_filter in Hc as [_ Hc]. by apply elem_of_remove_dups.
Qed.
Lemma chain_spec (l : list (nat * nat)) c : chain l c = true ↔ ∀ s, (s ≤ c.2)%nat → (c.1, s) ∈ l.
Proof.
  unfold chain. rewrite forallb_forall. split.
  - intros H s Hs. specialize (H s ltac:(apply in_seq; lia)). by apply bool_decide_eq_true in H.
  - intros H s Hs%in_seq. apply bool_decide_eq_true_2, H. lia.
Qed.
Lemma ready_chain (l : list (nat * nat)) c : ready (A := adoc) l c ↔ chain l c = true.
Proof.
  rewrite chain_spec. split.
  - induction 1 as [[a s] cs Hin Hd _ IH]. intros s' Hs'. simpl in *. destruct (decide (s' = s)) as [->|]; [done|].
    destruct s as [|s]; [lia|]. destruct cs as [|c' []]; try discriminate Hd. injection Hd as Hd.
    assert (c' = (a, s)) as -> by (pose proof (parse_hash c' []) as E; rewrite Hd, parse_hash in E; by injection E).
    apply (IH (a, s)); [left|simpl; lia].
  - destruct c as [a s]. simpl. induction s as [|s IH]; intros H.
    + apply (ready_intro _ _ []); [by apply H|done|by intros ? ?%elem_of_nil].
    + apply (ready_intro _ _ [(a, s)]); [by apply H|done|]. intros c' ->%list_elem_of_singleton. apply IH. intros s' Hs'.
      apply H. lia.
Qed.
Lemma unused_below fuel l a s : (∀ s', (s' < s)%nat → (a, s') ∈ l) → ∀ s', (s' < unused fuel l a s)%nat → (a, s') ∈ l.
Proof.
  revert s. induction fuel as [|fuel IH]; intros s Hs; simpl; [done|]. case_bool_decide as Hin; [|done].
  apply IH. intros s' Hs'. destruct (decide (s' = s)) as [->|]; [done|]. apply Hs. lia.
Qed.
Lemma author_spec (d b : adoc) x : author d = (b, Some x) →
  (∀ c, c ∈ held b ↔ c ∈ held d ∨ c = x) ∧ ∀ h, h ∈ deps (A := adoc) x → ∃ c, hash (A := adoc) c = h ∧ c ∈ get_changes d.
Proof.
  intros [= <- <-]. split.
  - intros c. rewrite !elem_of_held. cbn [given]. rewrite elem_of_app, list_elem_of_singleton. done.
  - cbn [deps graph snd]. pose proof (unused_below (length (given d)) (history d) (me d) 0 ltac:(intros; lia)) as Hu.
    destruct (unused _ _ _ _) as [|s]; intros h; [by intros ?%elem_of_nil|]. intros ->%list_elem_of_singleton.
    exists (me d, s). split; [done|]. apply Hu. lia.
Qed.
Lemma held_give cs d c : c ∈ held (give cs d) ↔ c ∈ held d ∨ c ∈ cs.
Proof. rewrite !elem_of_held. apply elem_of_app. Qed.
Lemma kept_give cs d c : c ∈ get_changes d → c ∈ get_changes (give cs d).
Proof.
  cbn [get_changes graph]. rewrite !elem_of_history, !chain_spec. cbn [given give]. intros H s Hs. apply elem_of_app. auto.
Qed.

#[export] Instance graph_laws : GraphLaws adoc (nat * nat).
Proof.
  split.
  - intros c c' E. pose proof (parse_hash c []) as H. cbn [hash graph] in E. rewrite E, parse_hash in H. by injection H.
  - apply (wf_projected lt snd); [|apply lt_wf]. intros [a s] [a' s'] Hd. cbn [deps graph snd] in Hd.
    destruct s' as [|s']; [by apply elem_of_nil in Hd|]. apply list_elem_of_singleton in Hd.
    pose proof (parse_hash (a, s) []) as E. cbn [hash graph] in Hd. rewrite Hd, parse_hash in E. injection E as -> ->. simpl. lia.
  - intros c. cbn [from_bytes raw_bytes graph]. pose proof (parse_hash c []) as E. rewrite app_nil_r in E. by rewrite E.
  - intros d c. rewrite ready_chain. cbn [get_changes graph]. rewrite elem_of_history, !chain_spec.
    split; intros H s Hs; apply elem_of_held; auto.
  - intros d. apply NoDup_filter, NoDup_remove_dups.
  - intros c. rewrite elem_of_held. by intros ?%elem_of_nil.
  - intros x d c. by rewrite !elem_of_held.
  - intros d cs b [= <-] c. apply held_give.
  - intros d cs b [= <-] c. apply held_give.
  - intros d o b [= <-] c. apply held_give.
  - intros d cs c. apply kept_give.
  - intros d cs c. apply kept_give.
  - intros d o c. apply kept_give.
  - intros d b. cbn [commit graph]. destruct (staged d); [done|]. by intros [= <-].
  - intros d b x. cbn [commit graph]. destruct (staged d); [apply author_spec|done].
  - intros d b [=].
  - intros d b x. apply author_spec.
Qed.
End Toy.

(** ** Concrete documents *)
Section Concrete.
Import Toy.
Abbreviation D := (Document adoc).
Definition d0 : D := empty [byte_of 5] [].
Definition item (c : nat * nat) : bytes * bytes := (chash c, chash c).



Lemma applied_within_history_witness : in_history d0 ∧ grown d0 (absorb (Commits [item (0, 0)%nat]) d0).
Proof.
  split; [done|]. apply (applied_within_history (A := adoc) d0); [done|apply d_absorb].
Defined.

(** A change that waits in automerge's queue for its parent is let into the
    history when [publish] brings the parent, but not into the applied set: until
    some later batch reads the history back, the document denies holding it, and
    an application's next change on top of it is refused for a missing
    dependency. *)
Definition parked : D := absorb (Commits [item (0, 1)%nat]) d0.
Theorem publish_forgets_released :
  match publish [chash (0, 0)%nat] parked with
  | Ok (true, d) => (0, 1)%nat ∈ get_changes (doc d) ∧ contains d (chash (0, 1)%nat) = false ∧
      publish [chash (0, 2)%nat] d = Err "an Automerge change dependency is missing"%string
  | _ => False
  end.
Proof.
  vm_compute. split; [|split; [reflexivity|reflexivity]]. apply list_elem_of_In. vm_compute. auto.
Qed.
End Concrete.
