(* ===== verification/ContactsWire.v ===== *)
(** * Signed contact artifacts ([runtime/crates/contacts-model/src/lib.rs], up to the document)

    Root bindings, self profiles and introductions: their wire messages, their
    signatures and every check a reader makes.  Protocol buffers ([prost]) and
    Ed25519 are dependencies and parameters here; Keyhive's judgement of an
    authority proof is the callback the code takes. *)
From S2P Require Import Prelude Crypto.

(** [prost::Message] on one message type: what is encoded decodes to itself. *)
Class Message (M : Type) := {
  encode_to_vec : M → bytes;
  decode_message : bytes → option M;
  decode_encoded m : decode_message (encode_to_vec m) = Some m;
}.
(** Signatures: [SigningKey::sign], [VerifyingKey::verify_strict], [from_bytes]
    and [is_weak].  A signer's key is a valid point of full order. *)
Class Signatures `{Ed25519} := {
  sign : bytes → bytes → bytes;
  verify_strict : bytes → bytes → bytes → bool;
  on_curve : bytes → bool;
  is_weak : bytes → bool;
  length_sign s m : length (sign s m) = 64%nat;
  verify_sign s m : verify_strict (verifying_key s) m (sign s m) = true;
  on_curve_signer s : on_curve (verifying_key s) = true;
  strong_signer s : is_weak (verifying_key s) = false;
  (** a key is read from 32 bytes *)
  length_on_curve k : on_curve k = true → length k = 32%nat;
}.

Definition VERSION : Z := 0.
Definition BINDING_DOMAIN : bytes := as_bytes "polyvisor:root-group-binding:v0" ++ [byte_of 0].
Definition PROFILE_DOMAIN : bytes := as_bytes "polyvisor:self-profile:v0" ++ [byte_of 0].
Definition INTRODUCTION_DOMAIN : bytes := as_bytes "polyvisor:introduction:v0" ++ [byte_of 0].
Definition MIN_TIMESTAMP_SECONDS : Z := -62135596800.
Definition MAX_TIMESTAMP_SECONDS : Z := 253402300799.
Definition MAX_SIGNED_BYTES : Z := 256 * 1024.
Definition MAX_PARTIES : nat := 64.
Definition MAX_CLAIMS_PER_PARTY : nat := 128.
Definition MAX_NAME_BYTES : nat := 256.
Definition MAX_VALUE_BYTES : nat := 4096.

(** ** The values.  A 32-byte identifier is its bytes. *)
Record Claim := mkClaim { name : string; value : string }.
Record Party := mkParty { public_key : bytes; observations : list Claim }.
Record ClaimedTime := mkTime { seconds : Z; nanos : Z }.
Record RootBinding := mkBinding { root : bytes; group : bytes }.
Record Profile := mkProfile { subject : bytes; issuer : bytes; claims : list Claim }.
(** [SignedRootBinding] and [SignedProfile] are their exact bytes. *)
Record AuthenticatedIdentity := mkIdentity {
  binding : bytes;
  profiles : list bytes;
  authority_device : bytes;
  proof : bytes;
}.
Record Introduction := mkIntroduction {
  intro_issuer : AuthenticatedIdentity;
  device : bytes;
  authenticated_identities : list AuthenticatedIdentity;
  parties : list Party;
  issued_at : ClaimedTime;
}.
Record AuthorityRequest := mkRequest {
  request_root : bytes;
  request_group : bytes;
  request_device : bytes;
  request_proof : bytes;
}.
Record PendingIntroduction := mkPending { introduction : Introduction; requests : list AuthorityRequest }.

(** ** The messages ([src/proto/introduction.proto]) *)
Module Proto.
Record Signed := mkSigned { payload : bytes; signature : bytes }.
Record RootBinding := mkRootBinding { version : Z; root_public_key : bytes; group_id : bytes }.
Record Profile := mkProfile { p_version : Z; subject_root : bytes; issuer_root : bytes; p_claims : list (string * string) }.
Record AuthenticatedIdentity := mkIdentity {
  root_binding : bytes;
  profiles : list bytes;
  authority_device : bytes;
  keyhive_authority_proof : bytes;
}.
Record Introduction := mkIntroduction {
  i_version : Z;
  issuer : option AuthenticatedIdentity;
  device_signing_key : bytes;
  authenticated_identities : list AuthenticatedIdentity;
  parties : list (bytes * list (string * string));
  issued_at : option (Z * Z);
}.
End Proto.

Section Wire.
Context {EdI : Ed25519} {SigI : Signatures} {MsgS : Message Proto.Signed} {MsgB : Message Proto.RootBinding}
  {MsgP : Message Proto.Profile} {MsgI : Message Proto.Introduction}.

(** ** Checks *)
Definition require_version (version : Z) (what : string) : result string unit :=
  if version =? VERSION then Ok () else Err ("unsupported " +:+ what +:+ " version").
Definition bounded (b : bytes) : result string unit :=
  if Z.of_nat (length b) <=? MAX_SIGNED_BYTES then Ok () else Err "signed value is too large"%string.
Definition key32 (b : bytes) (what : string) : result string bytes :=
  ok_or ("invalid " +:+ what +:+ " length") (try_array 32 b).
Definition valid_key (b : bytes) (what : string) : result string bytes :=
  if negb (on_curve b) then Err ("invalid " +:+ what)
  else if is_weak b then Err ("weak " +:+ what) else Ok b.
Definition domain_message (domain payload : bytes) : bytes := domain ++ payload.
Definition verify_signature (key domain payload signature : bytes) : result string unit :=
  key ← valid_key key "signing key";
  if negb (length signature =? 64)%nat then Err "invalid signature"%string
  else if verify_strict key (domain_message domain payload) signature then Ok ()
  else Err "signature does not verify"%string.
Fixpoint claims_fit (l : list Claim) : result string unit :=
  match l with
  | [] => Ok ()
  | c :: l =>
    if (MAX_NAME_BYTES <? String.length (name c))%nat || (MAX_VALUE_BYTES <? String.length (value c))%nat
    then Err "claim is too large"%string else claims_fit l
  end.
Definition validate_claims (l : list Claim) : result string unit :=
  if (MAX_CLAIMS_PER_PARTY <? length l)%nat then Err "too many claims"%string else claims_fit l.
Definition valid_time (t : ClaimedTime) : result string unit :=
  if negb ((MIN_TIMESTAMP_SECONDS <=? seconds t) && (seconds t <=? MAX_TIMESTAMP_SECONDS)) || (1000000000 <=? nanos t)
  then Err "invalid introduction time"%string else Ok ().

Definition proto_claim (c : Claim) : string * string := (name c, value c).
Definition extract_claims (l : list (string * string)) : result string (list Claim) :=
  let l := (λ c, mkClaim c.1 c.2) <$> l in _ ← validate_claims l; Ok l.

(** ** Root bindings *)
Definition sign_root_binding (seed group : bytes) : bytes :=
  let b := encode_to_vec (Proto.mkRootBinding VERSION (verifying_key seed) group) in
  encode_to_vec (Proto.mkSigned b (sign seed (domain_message BINDING_DOMAIN b))).
Definition verify_root_binding (b : bytes) : result string RootBinding :=
  _ ← bounded b;
  signed ← ok_or "invalid root binding envelope"%string (decode_message b);
  let payload := Proto.payload signed in
  v ← ok_or "invalid root binding payload"%string (decode_message payload);
  _ ← require_version (Proto.version v) "root binding";
  root ← key32 (Proto.root_public_key v) "root identity";
  group ← key32 (Proto.group_id v) "group id";
  _ ← verify_signature root BINDING_DOMAIN payload (Proto.signature signed);
  Ok (mkBinding root group).
(** [SignedRootBinding::from_bytes] *)
Definition binding_from_bytes (b : bytes) : result string bytes := _ ← verify_root_binding b; Ok b.

(** ** Self profiles *)
Definition sign_profile (seed : bytes) (l : list Claim) : result string bytes :=
  _ ← validate_claims l;
  let identity := verifying_key seed in
  let p := encode_to_vec (Proto.mkProfile VERSION identity identity (proto_claim <$> l)) in
  Ok (encode_to_vec (Proto.mkSigned p (sign seed (domain_message PROFILE_DOMAIN p)))).
Definition verify_profile (b : bytes) : result string Profile :=
  _ ← bounded b;
  signed ← ok_or "invalid signed profile envelope"%string (decode_message b);
  let payload := Proto.payload signed in
  v ← ok_or "invalid profile payload"%string (decode_message payload);
  _ ← require_version (Proto.p_version v) "profile";
  subject ← key32 (Proto.subject_root v) "profile subject";
  issuer ← key32 (Proto.issuer_root v) "profile issuer";
  if negb (bool_decide (subject = issuer))
  then Err "an official self-profile must have identical subject and issuer"%string else
  claims ← extract_claims (Proto.p_claims v);
  _ ← verify_signature issuer PROFILE_DOMAIN payload (Proto.signature signed);
  Ok (mkProfile subject issuer claims).
(** [SignedProfile::from_bytes] *)
Definition profile_from_bytes (b : bytes) : result string bytes := _ ← verify_profile b; Ok b.

(** ** Introductions *)
Definition all_identities (v : Introduction) : list AuthenticatedIdentity := intro_issuer v :: authenticated_identities v.

Fixpoint validate_profiles (its : RootBinding) (seen : gset bytes) (l : list bytes) : result string unit :=
  match l with
  | [] => Ok ()
  | signed :: l =>
    p ← verify_profile signed;
    if negb (bool_decide (subject p = root its)) || negb (bool_decide (issuer p = root its))
    then Err "profile does not match its root binding"%string
    else if bool_decide (signed ∈ seen) then Err "authenticated identity repeats a profile variant"%string
    else validate_profiles its ({[signed]} ∪ seen) l
  end.
Definition validate_authenticated_identity (v : AuthenticatedIdentity) : result string RootBinding :=
  b ← verify_root_binding (binding v);
  if bool_decide (profiles v = []) || bool_decide (proof v = [])
  then Err "authenticated identity lacks profile or authority proof"%string else
  _ ← valid_key (authority_device v) "authority device";
  _ ← validate_profiles b ∅ (profiles v);
  Ok b.
Definition authority_request (v : AuthenticatedIdentity) : result string AuthorityRequest :=
  b ← validate_authenticated_identity v;
  Ok (mkRequest (root b) (group b) (authority_device v) (proof v)).

Fixpoint validate_identities (seen : gset bytes) (l : list AuthenticatedIdentity) : result string unit :=
  match l with
  | [] => Ok ()
  | v :: l =>
    b ← validate_authenticated_identity v;
    if bool_decide (root b ∈ seen) then Err "introduction repeats an authenticated identity"%string
    else validate_identities ({[root b]} ∪ seen) l
  end.
Fixpoint validate_parties (seen : gset bytes) (l : list Party) : result string unit :=
  match l with
  | [] => Ok ()
  | p :: l =>
    _ ← valid_key (public_key p) "observed party key";
    if bool_decide (public_key p ∈ seen) then Err "introduction repeats a party"%string else
    _ ← validate_claims (observations p);
    validate_parties ({[public_key p]} ∪ seen) l
  end.
Definition validate_introduction (v : Introduction) : result string unit :=
  _ ← valid_time (issued_at v);
  if (MAX_PARTIES <? length (parties v) + 1)%nat then Err "introduction has too many parties"%string else
  _ ← valid_key (device v) "device signing key";
  issuer ← validate_authenticated_identity (intro_issuer v);
  if negb (bool_decide (authority_device (intro_issuer v) = device v))
  then Err "issuer authority device does not match introduction signer"%string else
  _ ← validate_identities {[root issuer]} (authenticated_identities v);
  validate_parties {[root issuer]} (parties v).

(** [as i32] and [u32::try_from]. *)
Definition as_i32 (z : Z) : Z := (z + 2 ^ 31) mod 2 ^ 32 - 2 ^ 31.
Definition proto_identity (v : AuthenticatedIdentity) : Proto.AuthenticatedIdentity :=
  Proto.mkIdentity (binding v) (profiles v) (authority_device v) (proof v).
Definition protobuf_introduction (v : Introduction) : Proto.Introduction :=
  Proto.mkIntroduction VERSION (Some (proto_identity (intro_issuer v))) (device v)
    (proto_identity <$> authenticated_identities v)
    ((λ p, (public_key p, proto_claim <$> observations p)) <$> parties v)
    (Some (seconds (issued_at v), as_i32 (nanos (issued_at v)))).

Definition extract_identity (v : Proto.AuthenticatedIdentity) : result string AuthenticatedIdentity :=
  b ← binding_from_bytes (Proto.root_binding v);
  ps ← mapM profile_from_bytes (Proto.profiles v);
  d ← key32 (Proto.authority_device v) "authority device";
  Ok (mkIdentity b ps d (Proto.keyhive_authority_proof v)).
Definition extract_party (p : bytes * list (string * string)) : result string Party :=
  k ← key32 p.1 "observed party key";
  l ← extract_claims p.2;
  Ok (mkParty k l).
Definition extract_introduction (v : Proto.Introduction) : result string Introduction :=
  _ ← require_version (Proto.i_version v) "introduction";
  t ← ok_or "introduction has no issued time"%string (Proto.issued_at v);
  n ← (if t.2 <? 0 then Err "invalid introduction time"%string else Ok t.2);
  let at_ := mkTime t.1 n in
  _ ← valid_time at_;
  w ← ok_or "introduction has no issuer"%string (Proto.issuer v);
  issuer ← extract_identity w;
  d ← key32 (Proto.device_signing_key v) "device signing key";
  ids ← mapM extract_identity (Proto.authenticated_identities v);
  ps ← mapM extract_party (Proto.parties v);
  Ok (mkIntroduction issuer d ids ps at_).

Definition sign_introduction (v : Introduction) (seed : bytes) : result string bytes :=
  _ ← validate_introduction v;
  if negb (bool_decide (device v = verifying_key seed))
  then Err "introduction device key does not match signer"%string else
  let payload := encode_to_vec (protobuf_introduction v) in
  let envelope := encode_to_vec (Proto.mkSigned payload (sign seed (domain_message INTRODUCTION_DOMAIN payload))) in
  _ ← bounded envelope;
  Ok envelope.
Definition verify_introduction (b : bytes) : result string PendingIntroduction :=
  _ ← bounded b;
  signed ← ok_or "invalid introduction envelope"%string (decode_message b);
  let payload := Proto.payload signed in
  wire ← ok_or "invalid introduction payload"%string (decode_message payload);
  v ← extract_introduction wire;
  _ ← validate_introduction v;
  _ ← verify_signature (device v) INTRODUCTION_DOMAIN payload (Proto.signature signed);
  requests ← mapM authority_request (all_identities v);
  Ok (mkPending v requests).

(** [validate_authority]: the kernel's callback, with whatever state it keeps. *)
Section Authority.
Context {St : Type} (kernel_validate : AuthorityRequest → St → St * result string unit).
Fixpoint validate_requests (l : list AuthorityRequest) (s : St) : St * result string unit :=
  match l with
  | [] => (s, Ok ())
  | r :: l =>
    match kernel_validate r s with
    | (s, Err why) => (s, Err why)
    | (s, Ok _) => validate_requests l s
    end
  end.
(** [Ok] is a [VerifiedIntroduction]. *)
Definition validate_authority (pending : PendingIntroduction) (s : St) : St * result string Introduction :=
  let '(s, r) := validate_requests (requests pending) s in (s, _ ← r; Ok (introduction pending)).
End Authority.

(** [VerifiedIntroduction::select] *)
Record Selected := mkSelected { chosen : Introduction; roots : gset bytes; chosen_parties : gset nat }.
Definition select (v : Introduction) (identity_roots : list bytes) (party_indices : list nat) : result string Selected :=
  available ← mapM (λ i, b ← verify_root_binding (binding i); Ok (root b)) (all_identities v);
  let wanted : gset bytes := list_to_set identity_roots in
  if negb (size wanted =? length identity_roots)%nat || negb (bool_decide (wanted ⊆ list_to_set available))
  then Err "identity selection was not present in the verified introduction"%string else
  let picked : gset nat := list_to_set party_indices in
  if negb (size picked =? length party_indices)%nat ||
     existsb (λ i, (length (parties v) <=? i)%nat) (elements picked)
  then Err "party selection was not present in the verified introduction"%string else
  Ok (mkSelected v wanted picked).

Arguments domain_message : simpl never.

(** ** What a validated value is *)
Lemma valid_key_Ok b w k : valid_key b w = Ok k → k = b ∧ on_curve b = true ∧ is_weak b = false.
Proof. unfold valid_key. destruct (on_curve b); [|done]. destruct (is_weak b); [done|]. by intros [= <-]. Qed.
Lemma key32_Ok b w k : key32 b w = Ok k ↔ k = b ∧ length b = 32%nat.
Proof. unfold key32. rewrite ok_or_Ok. apply try_array_Some. Qed.
Lemma extract_proto_claims l : validate_claims l = Ok () → extract_claims (proto_claim <$> l) = Ok l.
Proof.
  intros Hl. unfold extract_claims. rewrite <- list_fmap_compose.
  assert ((λ c : string * string, mkClaim c.1 c.2) ∘ proto_claim <$> l = l) as ->.
  { induction l as [|[n w] l IH]; [done|]. unfold validate_claims in *. simpl. f_equal.
    clear. induction l as [|[n w] l IH]; [done|]. simpl. by f_equal. }
  by rewrite Hl.
Qed.

Definition strong (k : bytes) : Prop := on_curve k = true ∧ is_weak k = false.

(** A complete identity: its binding verifies, every profile is that root's own,
    and none repeats. *)
Record complete (v : AuthenticatedIdentity) (b : RootBinding) : Prop := {
  id_binding : verify_root_binding (binding v) = Ok b;
  id_profiles : profiles v ≠ [];
  id_proof : proof v ≠ [];
  id_device : strong (authority_device v);
  id_distinct : NoDup (profiles v);
  id_own : ∀ p, p ∈ profiles v → ∃ l, verify_profile p = Ok (mkProfile (root b) (root b) l);
}.

Lemma validate_profiles_spec b seen l : validate_profiles b seen l = Ok () →
  NoDup l ∧ ∀ p, p ∈ l → (p ∉ seen) ∧ ∃ c, verify_profile p = Ok (mkProfile (root b) (root b) c).
Proof.
  revert seen. induction l as [|p l IH]; intros seen; simpl.
  { intros _. split; [by apply NoDup_nil|by intros p ?%elem_of_nil]. }
  intros (q & Hq & Hl)%bind_Ok. destruct (bool_decide (subject q = root b)) eqn:H1; [|done].
  destruct (bool_decide (issuer q = root b)) eqn:H2; [|done]. cbn [negb orb] in Hl. case_bool_decide as Hs; [done|].
  destruct (IH _ Hl) as [Hn Hin]. apply bool_decide_eq_true in H1, H2. split.
  - apply NoDup_cons. split; [|done]. intros Hp. destruct (Hin p Hp) as [Hp' _]. set_solver.
  - intros x [->|Hx]%elem_of_cons; [|destruct (Hin x Hx); set_solver]. split; [done|].
    destruct q as [sub iss c]. simpl in *. subst. eauto.
Qed.

Lemma validate_identity_spec v b : validate_authenticated_identity v = Ok b → complete v b.
Proof.
  unfold validate_authenticated_identity. intros (b' & Hb & Hv)%bind_Ok.
  destruct (bool_decide (profiles v = []) || bool_decide (proof v = [])) eqn:He; [done|].
  apply orb_false_iff in He as [H1%bool_decide_eq_false H2%bool_decide_eq_false].
  apply bind_Ok in Hv as (k & Hk & Hv). apply bind_Ok in Hv as ([] & Hp & [= ->]).
  apply valid_key_Ok in Hk as (_ & Ho & Hw). destruct (validate_profiles_spec _ _ _ Hp) as [Hn Hin].
  split; [done..|]. intros p Hx. by apply Hin.
Qed.

Lemma extract_proto_identity v b : complete v b → extract_identity (proto_identity v) = Ok v.
Proof.
  intros [H1 H2 H3 H4 H5 H6]. unfold extract_identity, proto_identity, binding_from_bytes. cbn [Proto.root_binding Proto.profiles
    Proto.authority_device Proto.keyhive_authority_proof]. rewrite H1. cbn [mbind result_bind].
  assert (mapM profile_from_bytes (profiles v) = Ok (profiles v)) as ->.
  { apply mapM_Ok. apply Forall2_same_length_lookup_2; [done|]. intros i x y Hx Hy. simplify_eq.
    destruct (H6 x) as [l Hl]; [by eapply list_elem_of_lookup_2|]. unfold profile_from_bytes. by rewrite Hl. }
  cbn [mbind result_bind]. rewrite (proj2 (key32_Ok _ _ (authority_device v))).
  - by destruct v.
  - split; [done|]. apply length_on_curve, H4.
Qed.

Lemma validate_identities_spec seen l : validate_identities seen l = Ok () →
  ∃ bs, Forall2 complete l bs ∧ NoDup (root <$> bs) ∧ ∀ b, b ∈ bs → root b ∉ seen.
Proof.
  revert seen. induction l as [|v l IH]; intros seen; simpl.
  { intros _. exists []. split; [constructor|]. split; [by apply NoDup_nil|by intros b ?%elem_of_nil]. }
  intros (b & Hb%validate_identity_spec & Hl)%bind_Ok. case_bool_decide as Hs; [done|].
  destruct (IH _ Hl) as (bs & Hbs & Hn & Hin). exists (b :: bs). split; [by constructor|]. split.
  - simpl. apply NoDup_cons. split; [|done]. intros (b' & E & Hb')%list_elem_of_fmap. apply (Hin b' Hb'). rewrite <- E. set_solver.
  - intros x [->|Hx]%elem_of_cons; [done|]. specialize (Hin x Hx). set_solver.
Qed.
Lemma validate_parties_spec seen l : validate_parties seen l = Ok () →
  NoDup (public_key <$> l) ∧ ∀ p, p ∈ l → (public_key p ∉ seen) ∧ strong (public_key p) ∧ validate_claims (observations p) = Ok ().
Proof.
  revert seen. induction l as [|p l IH]; intros seen; simpl.
  { intros _. split; [by apply NoDup_nil|by intros p ?%elem_of_nil]. }
  intros (k & (_ & Ho & Hw)%valid_key_Ok & Hl)%bind_Ok. case_bool_decide as Hs; [done|].
  apply bind_Ok in Hl as ([] & Hc & Hl). destruct (IH _ Hl) as [Hn Hin]. split.
  - apply NoDup_cons. split; [|done]. intros (q & E & Hq)%list_elem_of_fmap. destruct (Hin q Hq) as [Hx _].
    rewrite <- E in Hx. set_solver.
  - intros x [->|Hx]%elem_of_cons; [done|]. destruct (Hin x Hx) as (? & ? & ?). set_solver.
Qed.

(** An introduction that passed every check, with its identities' bindings. *)
Record well_formed (v : Introduction) (bs : list RootBinding) : Prop := {
  wf_identities : Forall2 complete (all_identities v) bs;
  wf_roots : NoDup (root <$> bs);
  wf_device : strong (device v) ∧ authority_device (intro_issuer v) = device v;
  wf_parties : (length (parties v) < MAX_PARTIES)%nat ∧ NoDup (public_key <$> parties v);
  wf_party : ∀ p, p ∈ parties v → strong (public_key p) ∧ validate_claims (observations p) = Ok () ∧
    Some (public_key p) ≠ root <$> head bs;
  wf_time : MIN_TIMESTAMP_SECONDS <= seconds (issued_at v) <= MAX_TIMESTAMP_SECONDS ∧ nanos (issued_at v) < 1000000000;
}.

Lemma valid_time_Ok t : valid_time t = Ok () ↔
  MIN_TIMESTAMP_SECONDS <= seconds t <= MAX_TIMESTAMP_SECONDS ∧ nanos t < 1000000000.
Proof.
  unfold valid_time. destruct (Z.leb_spec MIN_TIMESTAMP_SECONDS (seconds t)), (Z.leb_spec (seconds t) MAX_TIMESTAMP_SECONDS),
    (Z.leb_spec 1000000000 (nanos t)); simpl; split; try done; try lia.
Qed.

Lemma validate_introduction_spec v : validate_introduction v = Ok () → ∃ bs, well_formed v bs.
Proof.
  unfold validate_introduction. intros ([] & Ht%valid_time_Ok & Hv)%bind_Ok.
  destruct (Nat.ltb_spec MAX_PARTIES (length (parties v) + 1)) as [|Hp]; [done|].
  apply bind_Ok in Hv as (k & (_ & Ho & Hw)%valid_key_Ok & Hv). apply bind_Ok in Hv as (b & Hb%validate_identity_spec & Hv).
  case_bool_decide as Hd; [|done]. cbn [negb] in Hv. apply bind_Ok in Hv as ([] & Hi & Hv).
  destruct (validate_identities_spec _ _ Hi) as (bs & Hbs & Hn & Hin), (validate_parties_spec _ _ Hv) as [Hpn Hpp].
  exists (b :: bs). split.
  - by constructor.
  - simpl. apply NoDup_cons. split; [|done]. intros (b' & E & Hb')%list_elem_of_fmap. apply (Hin b' Hb'). set_solver.
  - by split.
  - split; [lia|done].
  - intros p Hx. destruct (Hpp p Hx) as (Hs & Hst & Hc). split; [done|]. split; [done|]. simpl. intros [= E]. set_solver.
  - done.
Qed.

(** ** Signing and verifying *)
Lemma domain_message_inj d d' p p' :
  d ∈ [BINDING_DOMAIN; PROFILE_DOMAIN; INTRODUCTION_DOMAIN] → d' ∈ [BINDING_DOMAIN; PROFILE_DOMAIN; INTRODUCTION_DOMAIN] →
  domain_message d p = domain_message d' p' → d = d' ∧ p = p'.
Proof.
  assert (∀ x, x ∈ [BINDING_DOMAIN; PROFILE_DOMAIN; INTRODUCTION_DOMAIN] →
    x = BINDING_DOMAIN ∨ x = PROFILE_DOMAIN ∨ x = INTRODUCTION_DOMAIN) as Hx by set_solver.
  unfold domain_message. intros [->|[->| ->]]%Hx [->|[->| ->]]%Hx E; try (split; [done|by apply app_inv_head in E]); exfalso.
  all: apply (f_equal (take 15)) in E; rewrite !take_app_le in E by (vm_compute; lia); vm_compute in E; discriminate E.
Qed.

Lemma verify_signature_Ok key d p sg : verify_signature key d p sg = Ok () ↔
  strong key ∧ length sg = 64%nat ∧ verify_strict key (domain_message d p) sg = true.
Proof.
  unfold verify_signature, valid_key, strong. destruct (on_curve key), (is_weak key); cbn [negb mbind result_bind];
    try (split; [done|naive_solver]).
  destruct (Nat.eqb_spec (length sg) 64); cbn [negb]; [|split; [done|naive_solver]].
  destruct (verify_strict _ _ _); naive_solver.
Qed.
Lemma verify_signed seed d p : verify_signature (verifying_key seed) d p (sign seed (domain_message d p)) = Ok ().
Proof.
  apply verify_signature_Ok. split; [split; [apply on_curve_signer|apply strong_signer]|]. split; [apply length_sign|].
  apply verify_sign.
Qed.

(** What each reader accepts, and under which domain the accepted bytes are signed. *)
Definition signed_under (d key b : bytes) : Prop :=
  ∃ s, decode_message b = Some s ∧ verify_strict key (domain_message d (Proto.payload s)) (Proto.signature s) = true.
Lemma root_binding_signed b r : verify_root_binding b = Ok r → signed_under BINDING_DOMAIN (root r) b.
Proof.
  unfold verify_root_binding. intros ([] & _ & (s & Hs%ok_or_Ok & (w & _ & ([] & _ & (k & _ & (g & _ & Hv)%bind_Ok)%bind_Ok)%bind_Ok)%bind_Ok)%bind_Ok)%bind_Ok.
  apply bind_Ok in Hv as ([] & (_ & _ & Hv)%verify_signature_Ok & [= <-]). by exists s.
Qed.
Lemma profile_signed b p : verify_profile b = Ok p → signed_under PROFILE_DOMAIN (issuer p) b ∧ subject p = issuer p ∧
  validate_claims (claims p) = Ok ().
Proof.
  unfold verify_profile. intros ([] & _ & (s & Hs%ok_or_Ok & (w & _ & ([] & _ & (k & _ & (g & _ & Hv)%bind_Ok)%bind_Ok)%bind_Ok)%bind_Ok)%bind_Ok)%bind_Ok.
  case_bool_decide as E; [|done]. cbn [negb] in Hv. apply bind_Ok in Hv as (l & Hl & Hv).
  apply bind_Ok in Hv as ([] & (_ & _ & Hv)%verify_signature_Ok & [= <-]). split; [by exists s|]. split; [done|].
  unfold extract_claims in Hl. by apply bind_Ok in Hl as ([] & Hl & [= <-]).
Qed.

Lemma as_i32_small n : 0 <= n < 1000000000 → as_i32 n = n.
Proof. intros Hn. unfold as_i32. rewrite Z.mod_small; lia. Qed.

Lemma extract_protobuf v bs : well_formed v bs → 0 <= nanos (issued_at v) →
  extract_introduction (protobuf_introduction v) = Ok v.
Proof.
  intros [H1 H2 [H3 H3'] H4 H5 H6] Hn. unfold extract_introduction, protobuf_introduction. cbn [Proto.i_version Proto.issued_at
    Proto.issuer Proto.device_signing_key Proto.authenticated_identities Proto.parties ok_or mbind result_bind fst snd].
  change (require_version VERSION "introduction") with (@Ok string unit ()). cbn [mbind result_bind].
  rewrite as_i32_small by lia. rewrite (proj2 (Z.ltb_ge _ _)) by lia. cbn [mbind result_bind].
  assert (∀ n, n = nanos (issued_at v) → mkTime (seconds (issued_at v)) n = issued_at v) as -> by (intros ? ->; by destruct (issued_at v)); [|done].
  rewrite (proj2 (valid_time_Ok _) H6). cbn [mbind result_bind].
  unfold all_identities in H1. inversion H1 as [|? b ? bs' Hi Hbs]; subst.
  rewrite (extract_proto_identity _ _ Hi). cbn [mbind result_bind].
  rewrite (proj2 (key32_Ok _ _ (device v))) by (split; [done|apply length_on_curve, H3]). cbn [mbind result_bind].
  assert (mapM extract_identity (proto_identity <$> authenticated_identities v) = Ok (authenticated_identities v)) as ->.
  { apply mapM_Ok. clear -Hbs. induction Hbs as [|x y l k Hx Hl IH]; [constructor|]. simpl. constructor; [|done].
    by eapply extract_proto_identity. }
  assert (mapM extract_party ((λ p, (public_key p, proto_claim <$> observations p)) <$> parties v) = Ok (parties v)) as ->.
  { apply mapM_Ok. clear -H5. induction (parties v) as [|p l IH]; [constructor|]. simpl. constructor.
    - destruct (H5 p) as ([Hs _] & Hc & _); [left|]. unfold extract_party. cbn [fst snd].
      rewrite (proj2 (key32_Ok _ _ (public_key p))) by (split; [done|by apply length_on_curve]). cbn [mbind result_bind].
      rewrite extract_proto_claims by done. by destruct p.
    - apply IH. intros q Hq. apply H5. by right. }
  by destruct v.
Qed.

Lemma complete_request v b : validate_authenticated_identity v = Ok b →
  authority_request v = Ok (mkRequest (root b) (group b) (authority_device v) (proof v)).
Proof. intros Hb. unfold authority_request. by rewrite Hb. Qed.

Lemma validate_identities_each seen l : validate_identities seen l = Ok () → Forall (λ v, is_ok (validate_authenticated_identity v) = true) l.
Proof.
  revert seen. induction l as [|v l IH]; intros seen; simpl; [constructor|]. intros (b & Hb & Hl)%bind_Ok.
  case_bool_decide; [done|]. constructor; [by rewrite Hb|by eapply IH].
Qed.
Lemma validate_introduction_each v : validate_introduction v = Ok () →
  Forall (λ i, is_ok (validate_authenticated_identity i) = true) (all_identities v).
Proof.
  unfold validate_introduction. intros ([] & _ & Hv)%bind_Ok. destruct (_ <? _)%nat; [done|].
  apply bind_Ok in Hv as (k & _ & Hv). apply bind_Ok in Hv as (b & Hb & Hv). destruct (negb _); [done|].
  apply bind_Ok in Hv as ([] & Hi & _). constructor; [by rewrite Hb|by eapply validate_identities_each].
Qed.
Lemma requests_of l : Forall (λ i, is_ok (validate_authenticated_identity i) = true) l → ∃ rs, mapM authority_request l = Ok rs.
Proof.
  induction 1 as [|v l Hv Hl [rs IH]]; [by exists []|]. destruct (validate_authenticated_identity v) as [b|] eqn:Hb; [|done].
  eexists. cbn [mapM]. rewrite (complete_request _ _ Hb), IH. reflexivity.
Qed.

Lemma signed_reads_back v seed b :
  0 <= nanos (issued_at v) → sign_introduction v seed = Ok b →
  ∃ rs, verify_introduction b = Ok (mkPending v rs) ∧ Forall2 (λ i r, authority_request i = Ok r) (all_identities v) rs.
Proof.
  intros Hn Hs. unfold sign_introduction in Hs. apply bind_Ok in Hs as ([] & Hv & Hs).
  case_bool_decide as Hd; [|done]. cbn [negb] in Hs. apply bind_Ok in Hs as ([] & Hb & [= <-]).
  destruct (validate_introduction_spec _ Hv) as [bs Hw], (requests_of _ (validate_introduction_each _ Hv)) as [rs Hrs].
  exists rs. split; [|by apply mapM_Ok]. unfold verify_introduction. rewrite Hb. cbn [mbind result_bind].
  rewrite decode_encoded. cbn [ok_or mbind result_bind Proto.payload Proto.signature]. rewrite decode_encoded.
  cbn [ok_or mbind result_bind]. rewrite (extract_protobuf _ _ Hw Hn). cbn [mbind result_bind]. rewrite Hv.
  cbn [mbind result_bind]. rewrite Hd, verify_signed. cbn [mbind result_bind]. by rewrite Hrs.
Qed.

(** C39: An introduction survives its wire.  Whatever a device signs, every reader gets
    back exactly: the issuer and the forwarded identities with their exact signed
    bytes, the parties and their claims in order, and the time; with one authority
    request per identity, the issuer's first. *)
Theorem introduction_round_trip v seed b :
  0 <= nanos (issued_at v) → sign_introduction v seed = Ok b →
  ∃ rs, verify_introduction b = Ok (mkPending v rs) ∧ Forall2 (λ i r, authority_request i = Ok r) (all_identities v) rs.
Proof. exact (signed_reads_back v seed b). Qed.

(** C32: A reader's introduction is well formed.  Whatever bytes arrive, an introduction
    that verifies has a device of full order that signed it and that its issuer's
    authority names; between one and 64 parties, none the issuer or repeated, with
    claims within their bounds; distinct identities, each with a verified binding,
    an authority proof and distinct profiles that its own root signed; a time in
    range; and it asks Keyhive for exactly each identity's own root, group, device
    and proof. *)
Theorem verified_introduction_well_formed b p : verify_introduction b = Ok p →
  ∃ bs, well_formed (introduction p) bs ∧ signed_under INTRODUCTION_DOMAIN (device (introduction p)) b ∧
    Forall2 (λ i r, ∃ rb, verify_root_binding (binding i) = Ok rb ∧
      r = mkRequest (root rb) (group rb) (authority_device i) (proof i)) (all_identities (introduction p)) (requests p).
Proof.
  unfold verify_introduction. intros ([] & _ & (s & Hs%ok_or_Ok & (w & Hw & (v & Hx & ([] & Hv & ([] & Hsg & Hp)%bind_Ok)%bind_Ok)%bind_Ok)%bind_Ok)%bind_Ok)%bind_Ok.
  apply bind_Ok in Hp as (rs & Hrs & [= <-]). destruct (validate_introduction_spec _ Hv) as [bs Hbs].
  exists bs. split; [done|]. apply verify_signature_Ok in Hsg as (_ & _ & Hsg). split; [by exists s|].
  apply mapM_Ok in Hrs. eapply Forall2_impl; [exact Hrs|]. intros i r Hr. unfold authority_request in Hr.
  apply bind_Ok in Hr as (rb & Hrb & [= <-]). exists rb. split; [|done].
  by apply validate_identity_spec, id_binding in Hrb.
Qed.

(** *** Keyhive's judgement *)
Section Judged.
Context {St : Type} (kernel_validate : AuthorityRequest → St → St * result string unit).
Lemma validate_requests_each l s s' : validate_requests kernel_validate l s = (s', Ok ()) →
  Forall (λ r, ∃ t, (kernel_validate r t).2 = Ok ()) l.
Proof.
  revert s. induction l as [|r l IH]; intros s; simpl; [constructor|].
  destruct (kernel_validate r s) as [t [[]|why]] eqn:Hr; [|done]. intros Hl. constructor; [|by eapply IH].
  exists s. by rewrite Hr.
Qed.
(** Nothing is authenticated that Keyhive was not asked about.  An introduction
    becomes verified only if the kernel's callback accepted, for every identity in
    it, that identity's exact root, group, device and authority proof; and it is the
    introduction that was read. *)
Theorem authenticated_only_by_keyhive b p s s' v :
  verify_introduction b = Ok p → validate_authority kernel_validate p s = (s', Ok v) →
  v = introduction p ∧ ∀ i, i ∈ all_identities v → ∃ rb t, verify_root_binding (binding i) = Ok rb ∧
    (kernel_validate (mkRequest (root rb) (group rb) (authority_device i) (proof i)) t).2 = Ok ().
Proof.
  unfold validate_authority. intros Hb Hv.
  destruct (validate_requests kernel_validate (requests p) s) as [t [[]|why]] eqn:Hr; [|done]. injection Hv as <- <-.
  split; [done|]. apply validate_requests_each in Hr.
  assert (Forall2 (λ i r, ∃ rb, verify_root_binding (binding i) = Ok rb ∧
      r = mkRequest (root rb) (group rb) (authority_device i) (proof i)) (all_identities (introduction p)) (requests p)) as H2.
  { unfold verify_introduction in Hb.
    apply bind_Ok in Hb as ([] & _ & (x & _ & (w & _ & (v & _ & ([] & Hv & ([] & _ & Hp)%bind_Ok)%bind_Ok)%bind_Ok)%bind_Ok)%bind_Ok).
    apply bind_Ok in Hp as (rs & Hrs%mapM_Ok & [= <-]). eapply Forall2_impl; [exact Hrs|]. intros i r Hi. unfold authority_request in Hi.
    apply bind_Ok in Hi as (rb & Hrb%validate_identity_spec & [= <-]). exists rb. split; [by apply id_binding|done]. }
  intros i [n Hn]%list_elem_of_lookup_1. destruct (Forall2_lookup_l _ _ _ _ _ H2 Hn) as (r & Hrn & rb & Hrb & ->).
  destruct (proj1 (Forall_lookup _ _) Hr _ _ Hrn) as [t' Ht]. eauto.
Qed.
End Judged.
End Wire.

(** ** An instance, and introductions that verify *)
Module ToySigned.
Import Crypto.Toy.
#[export] Program Instance signatures : Signatures := {|
  sign s m := fit 64 (verifying_key s ++ m);
  verify_strict k m g := bool_decide (g = fit 64 (k ++ m));
  on_curve k := bool_decide (length k = 32%nat);
  is_weak _ := false;
|}.
Next Obligation. intros. apply length_fit. Qed.
Next Obligation. intros. by apply bool_decide_eq_true_2. Qed.
Next Obligation. intros. apply bool_decide_eq_true_2, length_verifying_key. Qed.
Next Obligation. done. Qed.
Next Obligation. by intros k ?%bool_decide_eq_true. Qed.

(** A plain serialisation: lengths in unary, then the parts. *)
Class Wire (T : Type) := {
  write : T → bytes;
  parse : bytes → option (T * bytes);
  parse_write x r : parse (write x ++ r) = Some (x, r);
}.
Fixpoint write_nat (n : nat) : bytes := match n with O => [Byte.x01] | S n => Byte.x00 :: write_nat n end.
Fixpoint parse_nat (b : bytes) : option (nat * bytes) :=
  match b with
  | Byte.x00 :: b => '(n, r) ← parse_nat b; Some (S n, r)
  | Byte.x01 :: b => Some (O, b)
  | _ => None
  end.
Lemma parse_write_nat n r : parse_nat (write_nat n ++ r) = Some (n, r).
Proof. induction n as [|n IH]; simpl; [done|]. by rewrite IH. Qed.

#[export] Program Instance wire_bytes : Wire bytes := {|
  write b := write_nat (length b) ++ b;
  parse b := '(n, r) ← parse_nat b; Some (take n r, drop n r);
|}.
Next Obligation. intros b r. cbv beta. rewrite <- app_assoc, parse_write_nat. cbn [mbind option_bind]. by rewrite take_app_length, drop_app_length. Qed.
Program Definition wire_by {T U} `{Wire U} (f : T → U) (g : U → T) (fg : ∀ x, g (f x) = x) : Wire T := {|
  write x := write (f x);
  parse b := '(y, r) ← parse b; Some (g y, r);
|}.
Next Obligation. intros T U ? f g fg x r. cbv beta. rewrite parse_write. cbn [mbind option_bind]. by rewrite fg. Qed.
#[export] Instance wire_string : Wire string := wire_by as_bytes str_of str_of_as_bytes.
#[export] Program Instance wire_z : Wire Z :=
  wire_by (λ z, write_pos (countable.encode z)) (λ b, default 0 (countable.decode (read_pos b))) _.
Next Obligation. intros z. cbn. by rewrite read_write, decode_encode. Qed.
#[export] Program Instance wire_prod `{Wire A, Wire B} : Wire (A * B) := {|
  write p := write p.1 ++ write p.2;
  parse b := '(x, b) ← parse b; '(y, b) ← parse b; Some ((x, y), b);
|}.
Next Obligation. intros A ? B ? [x y] r. cbv beta. cbn [fst snd]. rewrite <- app_assoc, parse_write. cbn [mbind option_bind]. by rewrite parse_write. Qed.
Fixpoint parse_many `{Wire A} (n : nat) (b : bytes) : option (list A * bytes) :=
  match n with
  | O => Some ([], b)
  | S n => '(x, b) ← parse b; '(l, b) ← parse_many n b; Some (x :: l, b)
  end.
#[export] Program Instance wire_list `{Wire A} : Wire (list A) := {|
  write l := write_nat (length l) ++ (l ≫= write);
  parse b := '(n, b) ← parse_nat b; parse_many n b;
|}.
Next Obligation.
  intros A ? l r. cbv beta. rewrite <- app_assoc, parse_write_nat. cbn [mbind option_bind]. induction l as [|x l IH]; [done|].
  cbn [length parse_many]. change ((x :: l) ≫= write) with (write x ++ (l ≫= write)).
  rewrite <- app_assoc, parse_write. cbn [mbind option_bind]. by rewrite IH.
Qed.
#[export] Program Instance wire_option `{Wire A} : Wire (option A) :=
  wire_by (λ o, match o with None => [] | Some x => [x] end) head _.
Next Obligation. by intros A ? []. Qed.

Definition whole {T} (o : option (T * bytes)) : option T := match o with Some (x, []) => Some x | _ => None end.
#[export] Program Instance message `{Wire T} : Message T := {|
  encode_to_vec := write;
  decode_message b := whole (parse b);
|}.
Next Obligation. intros T ? x. cbv beta. pose proof (parse_write x []) as E. rewrite app_nil_r in E. by rewrite E. Qed.
#[export] Program Instance wire_signed : Wire Proto.Signed :=
  wire_by (λ s, (Proto.payload s, Proto.signature s)) (λ t, Proto.mkSigned t.1 t.2) _.
Next Obligation. by intros []. Qed.
#[export] Program Instance wire_binding : Wire Proto.RootBinding :=
  wire_by (λ s, (Proto.version s, Proto.root_public_key s, Proto.group_id s)) (λ t, Proto.mkRootBinding t.1.1 t.1.2 t.2) _.
Next Obligation. by intros []. Qed.
#[export] Program Instance wire_profile : Wire Proto.Profile :=
  wire_by (λ s, (Proto.p_version s, Proto.subject_root s, Proto.issuer_root s, Proto.p_claims s))
    (λ t, Proto.mkProfile t.1.1.1 t.1.1.2 t.1.2 t.2) _.
Next Obligation. by intros []. Qed.
#[export] Program Instance wire_identity : Wire Proto.AuthenticatedIdentity :=
  wire_by (λ s, (Proto.root_binding s, Proto.profiles s, Proto.authority_device s, Proto.keyhive_authority_proof s))
    (λ t, Proto.mkIdentity t.1.1.1 t.1.1.2 t.1.2 t.2) _.
Next Obligation. by intros []. Qed.
#[export] Program Instance wire_introduction : Wire Proto.Introduction :=
  wire_by (λ s, (Proto.i_version s, Proto.issuer s, Proto.device_signing_key s, Proto.authenticated_identities s,
      Proto.parties s, Proto.issued_at s))
    (λ t, Proto.mkIntroduction t.1.1.1.1.1 t.1.1.1.1.2 t.1.1.1.2 t.1.1.2 t.1.2 t.2) _.
Next Obligation. by intros []. Qed.
End ToySigned.

Section Concrete.
Import Crypto.Toy ToySigned.
Definition ada : bytes := [byte_of 1].
Definition ada_device : bytes := [byte_of 2].
Definition ada_profile : bytes :=
  match sign_profile ada [mkClaim "name" "Ada"] with Ok b => b | Err _ => [] end.
Definition ada_intro : Introduction :=
  mkIntroduction (mkIdentity (sign_root_binding ada (replicate 32 (byte_of 9))) [ada_profile] (verifying_key ada_device) [byte_of 7])
    (verifying_key ada_device) [] [mkParty (replicate 32 (byte_of 5)) [mkClaim "met" "Lyon"]] (mkTime 1 2).
Definition ada_wire : bytes := match sign_introduction ada_intro ada_device with Ok b => b | Err _ => [] end.

Definition ada_pending : PendingIntroduction :=
  match verify_introduction ada_wire with Ok p => p | Err _ => mkPending ada_intro [] end.
Lemma ada_signed : sign_introduction ada_intro ada_device = Ok ada_wire.
Proof. vm_compute. reflexivity. Qed.
Lemma ada_verified : verify_introduction ada_wire = Ok ada_pending.
Proof. vm_compute. reflexivity. Qed.

Lemma introduction_round_trip_witness :
  ∃ rs, verify_introduction ada_wire = Ok (mkPending ada_intro rs) ∧
    Forall2 (λ i r, authority_request i = Ok r) (all_identities ada_intro) rs.
Proof. apply (introduction_round_trip ada_intro ada_device); [vm_compute; discriminate|exact ada_signed]. Defined.

Lemma verified_introduction_well_formed_witness :
  ∃ bs, well_formed (introduction ada_pending) bs ∧ signed_under INTRODUCTION_DOMAIN (device (introduction ada_pending)) ada_wire ∧
    Forall2 (λ i r, ∃ rb, verify_root_binding (binding i) = Ok rb ∧
      r = mkRequest (root rb) (group rb) (authority_device i) (proof i))
      (all_identities (introduction ada_pending)) (requests ada_pending).
Proof. apply (verified_introduction_well_formed ada_wire), ada_verified. Defined.

(** A Keyhive that knows one group. *)
Definition knows (r : AuthorityRequest) (n : nat) : nat * result string unit :=
  (S n, if decide (request_group r = replicate 32 (byte_of 9)) then Ok () else Err "no such group"%string).
Lemma authenticated_only_by_keyhive_witness :
  validate_authority knows ada_pending 0%nat = (1%nat, Ok ada_intro) ∧
  ada_intro = introduction ada_pending ∧ ∀ i, i ∈ all_identities ada_intro → ∃ rb t, verify_root_binding (binding i) = Ok rb ∧
    (knows (mkRequest (root rb) (group rb) (authority_device i) (proof i)) t).2 = Ok ().
Proof.
  assert (validate_authority knows ada_pending 0%nat = (1%nat, Ok ada_intro)) as Hv by (vm_compute; reflexivity).
  split; [exact Hv|]. exact (authenticated_only_by_keyhive knows ada_wire ada_pending 0%nat 1%nat ada_intro ada_verified Hv).
Defined.

End Concrete.
