(* ===== verification/Registers.v ===== *)
(** * Documents of registers

    What the schemas over [Document] share: string-keyed registers at the root
    of an automerge document, the operations that read and write them, and how
    each transaction changes them. *)
From S2P Require Import Prelude BTree Automerge History.

(** A transaction's commit changes nothing a reader sees. *)
Class CommitView (A Oid C : Type) `{Automerge A Oid} `{ChangeGraph A C} := {
  commit_view a b x : commit (C := C) a = (b, x) → ∀ o,
    is_map b o = is_map a o ∧ keys b o = keys a o ∧ ∀ k, get_all b o k = get_all a o k ∧ get b o k = get a o k;
}.

(** [sort] and [dedup] of a totally ordered list. *)
Definition sort_dedup `{KeyOrder K, Countable K} (l : list K) : list K := btree_elems (list_to_set l : gset K).
Lemma elem_of_sort_dedup `{KeyOrder K, Countable K} (l : list K) x : x ∈ sort_dedup l ↔ x ∈ l.
Proof. unfold sort_dedup. by rewrite elem_of_btree_elems, elem_of_list_to_set. Qed.

Lemma btree_elems_singleton `{KeyOrder K, Countable K} (x : K) : btree_elems ({[x]} : gset K) = [x].
Proof. apply Permutation_singleton_r. rewrite btree_elems_perm. by rewrite elements_singleton. Qed.
Lemma sort_dedup_one `{KeyOrder K, Countable K} (x : K) : sort_dedup [x] = [x].
Proof. unfold sort_dedup. rewrite list_to_set_singleton_L. apply btree_elems_singleton. Qed.
Lemma str_app_assoc s t u : s +:+ t +:+ u = (s +:+ t) +:+ u.
Proof. induction s as [|c s IH]; [done|]. change (String c (s +:+ t +:+ u) = String c ((s +:+ t) +:+ u)). by rewrite IH. Qed.
(** [str::strip_prefix] and [str::starts_with]. *)
Fixpoint str_strip (p s : string) : option string :=
  match p, s with
  | EmptyString, s => Some s
  | String c p, String d s => if Ascii.eqb c d then str_strip p s else None
  | String _ _, EmptyString => None
  end.
Definition starts_with (s p : string) : bool := match str_strip p s with Some _ => true | None => false end.
Lemma str_strip_Some p s r : str_strip p s = Some r ↔ s = p +:+ r.
Proof.
  assert (EmptyString +:+ r = r) as E0 by done.
  assert (∀ c p, String c p +:+ r = String c (p +:+ r)) as E1 by done.
  revert s. induction p as [|c p IH]; intros [|d s]; cbn [str_strip]; rewrite ?E0, ?E1; try (split; congruence).
  destruct (Ascii.eqb_spec c d) as [->|Hne]; [rewrite IH|]; split; congruence.
Qed.
Lemma str_strip_app p r : str_strip p (p +:+ r) = Some r.
Proof. by apply str_strip_Some. Qed.
Lemma starts_with_app p r : starts_with (p +:+ r) p = true.
Proof. unfold starts_with. by rewrite str_strip_app. Qed.
Lemma starts_with_spec s p : starts_with s p = true ↔ ∃ r, s = p +:+ r.
Proof.
  unfold starts_with. destruct (str_strip p s) as [r|] eqn:E.
  - apply str_strip_Some in E as ->. split; [by eexists|done].
  - split; [done|]. intros [r ->]. by rewrite str_strip_app in E.
Qed.

Section Registers.
Context {A Oid C : Type} {AM : Automerge A Oid} {CG : ChangeGraph A C}.
Abbreviation Document := (Document A).

Definition root_keys (d : Document) : list string := keys (read d) ROOT.
Definition root_string (d : Document) (k : string) : option string :=
  match get_ok (read d) ROOT k with Some (v, _) => to_str v | None => None end.
(** [BTreeSet<Vec<u8>>] *)
Definition all_root_bytes (d : Document) (k : string) : gset bytes :=
  list_to_set (omap (λ v, to_bytes v.1) (get_all (read d) ROOT k)).

(** An operation answers and leaves a document, also when it fails halfway. *)
Definition op (X : Type) : Type := Document → Document * result string X.
#[export] Instance op_ret : MRet op := λ X x d, (d, Ok x).
#[export] Instance op_bind : MBind op := λ X Y f m d,
  match m d with (d, Ok x) => f x d | (d, Err e) => (d, Err e) end.
Definition lift {X} (r : result string X) : op X := λ d, (d, r).
Definition fail {X} (why : string) : op X := lift (Err why).
Definition reading {X} (f : Document → X) : op X := λ d, (d, Ok (f d)).
Definition tx (f : A → result string A) : op unit := λ d,
  match transact f d with Ok d => (d, Ok ()) | Err e => (d, Err e) end.
Fixpoint puts (l : list (string * scalar)) (a : A) : result string A :=
  match l with [] => Ok a | (k, v) :: l => a ← put a ROOT k v; puts l a end.
Fixpoint deletes (l : list string) (a : A) : result string A :=
  match l with [] => Ok a | k :: l => a ← delete a ROOT k; deletes l a end.

(** ** How registers change *)
Definition values (d : Document) (k : string) : list value := (get_all (read d) ROOT k).*1.
Definition same_register (d d' : Document) (k : string) : Prop :=
  get_all (read d') ROOT k = get_all (read d) ROOT k ∧ get (read d') ROOT k = get (read d) ROOT k.

Context {ML : MapLaws A Oid} {CV : CommitView A Oid C}.

Lemma same_refl d k : same_register d d k.
Proof. done. Qed.
Lemma same_trans d1 d2 d3 k : same_register d1 d2 k → same_register d2 d3 k → same_register d1 d3 k.
Proof. intros [H1 H2] [H3 H4]. split; congruence. Qed.
Lemma same_string d d' k : same_register d d' k → root_string d' k = root_string d k.
Proof. intros [_ H]. unfold root_string, get_ok. by rewrite H. Qed.
Lemma same_bytes d d' k : same_register d d' k → all_root_bytes d' k = all_root_bytes d k.
Proof. intros [H _]. unfold all_root_bytes. by rewrite H. Qed.
Lemma same_values d d' k : same_register d d' k → values d' k = values d k.
Proof. intros [H _]. unfold values. by rewrite H. Qed.

Lemma values_string d k s : values d k = [Scalar (Str s)] → root_string d k = Some s.
Proof.
  unfold values, root_string. intros H. destruct (get_all (read d) ROOT k) as [|[v x] []] eqn:E; try done. injection H as ->.
  by rewrite (get_ok_one _ _ _ _ (root_map _) E).
Qed.
Lemma values_none d k : values d k = [] → root_string d k = None.
Proof.
  unfold values, root_string. intros H%fmap_nil_inv. by rewrite (get_ok_none _ _ _ (root_map _) H).
Qed.
Lemma values_bytes d k b : values d k = [Scalar (Bytes b)] → all_root_bytes d k = {[b]}.
Proof.
  unfold values, all_root_bytes. intros H. destruct (get_all (read d) ROOT k) as [|[v x] []]; try done. injection H as ->.
  simpl. set_solver.
Qed.
Lemma values_no_bytes d k : values d k = [] → all_root_bytes d k = ∅.
Proof. unfold values, all_root_bytes. by intros ->%fmap_nil_inv. Qed.
Lemma string_is_some d k s : root_string d k = Some s → k ∈ root_keys d.
Proof.
  unfold root_string, root_keys. destruct (get_ok (read d) ROOT k) as [[v x]|] eqn:E; [|done]. intros _.
  apply (get_ok_in _ _ _ _ (root_map _)) in E. apply (elem_of_keys _ _ _ (root_map _)). intros H. rewrite H in E.
  by apply elem_of_nil in E.
Qed.
Lemma elem_of_root_keys d k : k ∈ root_keys d ↔ values d k ≠ [].
Proof.
  unfold root_keys, values. rewrite (elem_of_keys _ _ _ (root_map _)). split; intros H E; apply H.
  - by apply fmap_nil_inv in E.
  - by rewrite E.
Qed.

Lemma puts_spec l a : NoDup l.*1 → ∃ b, puts l a = Ok b ∧
  (∀ k v, (k, v) ∈ l → (get_all b ROOT k).*1 = [Scalar v]) ∧
  ∀ k, k ∉ l.*1 → get_all b ROOT k = get_all a ROOT k ∧ get b ROOT k = get a ROOT k.
Proof.
  revert a. induction l as [|[k v] l IH]; intros a Hn.
  { exists a. split; [done|]. split; [by intros k v ?%elem_of_nil|done]. }
  simpl in Hn. apply NoDup_cons in Hn as [Hk Hn]. destruct (put_spec a ROOT k v (root_map a)) as (a' & x & Hp & Ho & Hg).
  destruct (IH a' Hn) as (b & Hb & Hin & Hout). exists b. simpl. rewrite Hp. split; [done|]. split.
  - intros k' v' [[= -> ->]|Hk']%elem_of_cons; [|by apply Hin]. destruct (Hout k Hk) as [-> _]. by rewrite Hg.
  - intros k' Hk'. assert (k' ≠ k ∧ k' ∉ l.*1) as [Hne Hk''] by set_solver. destruct (Hout k' Hk'') as [-> ->].
    apply Ho; [apply root_map|by right].
Qed.
Lemma deletes_spec l a : ∃ b, deletes l a = Ok b ∧
  (∀ k, k ∈ l → get_all b ROOT k = []) ∧
  ∀ k, k ∉ l → get_all b ROOT k = get_all a ROOT k ∧ get b ROOT k = get a ROOT k.
Proof.
  revert a. induction l as [|k l IH]; intros a.
  { exists a. split; [done|]. split; [by intros k ?%elem_of_nil|done]. }
  destruct (delete_spec a ROOT k (root_map a)) as (a' & Hp & Ho & Hg).
  destruct (IH a') as (b & Hb & Hin & Hout). exists b. simpl. rewrite Hp. split; [done|].
  split; intros k' Hk'.
  - destruct (decide (k' ∈ l)) as [|Hn]; [by apply Hin|]. destruct (Hout k' Hn) as [-> _].
    apply elem_of_cons in Hk' as [->|]; done.
  - assert (k' ≠ k ∧ k' ∉ l) as [Hne Hk''] by set_solver. destruct (Hout k' Hk'') as [-> ->].
    apply Ho; [apply root_map|by right].
Qed.

(** A transaction that goes through. *)
Lemma tx_ok f d a : f (doc d) = Ok a → ∃ d', tx f d = (d', Ok ()) ∧ ∀ k,
  get_all (read d') ROOT k = get_all a ROOT k ∧ get (read d') ROOT k = get a ROOT k.
Proof.
  intros Hf. unfold tx, transact. rewrite Hf. cbn [mbind result_bind]. destruct (commit a) as [b [x|]] eqn:Hc.
  - eexists. split; [done|]. intros k. by apply (commit_view _ _ _ Hc).
  - eexists. split; [done|]. intros k. by apply (commit_view _ _ _ Hc).
Qed.
(** The same of every object. *)
Lemma tx_view f d a : f (doc d) = Ok a → ∃ d', tx f d = (d', Ok ()) ∧
  (∀ o, is_map (read d') o = is_map a o) ∧ ∀ o k, get_ok (read d') o k = get_ok a o k.
Proof.
  intros Hf. unfold tx, transact. rewrite Hf. cbn [mbind result_bind]. destruct (commit a) as [b x] eqn:Hc.
  pose proof (commit_view a b x Hc) as Hv. assert ((∀ o, is_map b o = is_map a o) ∧ ∀ o k, get_ok b o k = get_ok a o k) as [Hm Hg].
  { split; intros o; [by destruct (Hv o) as (-> & _)|]. intros k. unfold get_ok. destruct (Hv o) as (_ & _ & Hk).
    by destruct (Hk k) as [_ ->]. }
  destruct x; eexists; split; done.
Qed.
Lemma tx_puts l d : NoDup l.*1 → ∃ d', tx (puts l) d = (d', Ok ()) ∧
  (∀ k v, (k, v) ∈ l → values d' k = [Scalar v]) ∧ ∀ k, k ∉ l.*1 → same_register d d' k.
Proof.
  intros Hn. destruct (puts_spec l (doc d) Hn) as (a & Ha & Hin & Hout). destruct (tx_ok _ d a Ha) as (d' & Hd & Hv).
  exists d'. split; [done|]. split.
  - intros k v Hk. unfold values. destruct (Hv k) as [-> _]. by apply Hin.
  - intros k Hk. destruct (Hv k) as [E1 E2], (Hout k Hk) as [E3 E4]. split; [by rewrite E1|by rewrite E2].
Qed.
Lemma tx_deletes l d : ∃ d', tx (deletes l) d = (d', Ok ()) ∧
  (∀ k, k ∈ l → values d' k = []) ∧ ∀ k, k ∉ l → same_register d d' k.
Proof.
  destruct (deletes_spec l (doc d)) as (a & Ha & Hin & Hout). destruct (tx_ok _ d a Ha) as (d' & Hd & Hv).
  exists d'. split; [done|]. split.
  - intros k Hk. unfold values. destruct (Hv k) as [-> _]. by rewrite Hin.
  - intros k Hk. destruct (Hv k) as [E1 E2], (Hout k Hk) as [E3 E4]. split; [by rewrite E1|by rewrite E2].
Qed.

(** Running operations. *)
Lemma op_bind_inv {X Y} (m : op X) (f : X → op Y) d r : (m ≫= f) d = r →
  (∃ d' x, m d = (d', Ok x) ∧ f x d' = r) ∨ (∃ d' e, m d = (d', Err e) ∧ r = (d', Err e)).
Proof. unfold mbind, op_bind. destruct (m d) as [d' [x|e]]; eauto 6. Qed.
Lemma op_bind_Ok {X Y} (m : op X) (f : X → op Y) d d' y : (m ≫= f) d = (d', Ok y) ↔
  ∃ d1 x, m d = (d1, Ok x) ∧ f x d1 = (d', Ok y).
Proof. unfold mbind, op_bind. destruct (m d) as [d1 [x|e]]; naive_solver. Qed.
Lemma op_bind_assoc {X Y Z} (m : op X) (f : X → op Y) (g : Y → op Z) d : ((m ≫= f) ≫= g) d = (m ≫= λ x, f x ≫= g) d.
Proof. unfold mbind, op_bind. by destruct (m d) as [d' [x|e]]. Qed.
Lemma bind_reading {X Y} (f : Document → X) (g : X → op Y) d : (reading f ≫= g) d = g (f d) d.
Proof. done. Qed.
Lemma bind_lift_Ok {X Y} x (g : X → op Y) d : (lift (Ok x) ≫= g) d = g x d.
Proof. done. Qed.
Lemma bind_lift {X Y} r (g : X → op Y) d : (lift r ≫= g) d = match r with Ok x => g x d | Err e => (d, Err e) end.
Proof. by destruct r. Qed.
End Registers.

(** The toy document commits without touching its registers. *)
#[local] Existing Instances History.Toy.automerge History.Toy.graph.
#[export] Instance toy_commit : CommitView History.Toy.adoc nat (nat * nat).
Proof.
  split. intros a b x. cbn [commit History.Toy.graph]. destruct (History.Toy.staged a); [|by intros [= <- _]].
  by intros [= <- _].
Qed.
