(* ===== verification/Contacts.v ===== *)
(** * The contacts document ([runtime/crates/contacts-model/src/lib.rs], from [bind_root] on)

    The self identity, the contacts with their observations and preferences, and
    the meetings, all as string-keyed registers at the root of one automerge
    document; and the operations that read and write them. *)
From S2P Require Import Prelude BTree Text Crypto Automerge History Registers ContactsWire.

Definition ROOT_BINDING : string := "identity:root-group-binding".
Definition SELF_PROFILE : string := "identity:self-profile".
Definition ALIAS_PREFIX : string := "alias:".

Inductive Provenance := Local | Imported | Verified.
#[export] Instance Provenance_eq_dec : EqDecision Provenance.
Proof. solve_decision. Defined.
Record Observation := mkObservation {
  o_name : string;
  o_value : string;
  provenance : Provenance;
  o_issuer : option bytes;
  claimed : option ClaimedTime;
  received : Z;
  o_meeting : string;
}.
Record MeetingRecord := mkMeeting {
  meeting_id : string;
  method : string;
  source : string;
  source_key : option bytes;
  occurred : Z;
  verified : bool;
}.
Record SelfProfile := mkSelf { self_root : bytes; self_binding : bytes; variants : list bytes }.
Record RetainedIdentity := mkRetained {
  retained_root : bytes;
  retained_binding : bytes;
  retained_profiles : list bytes;
  authorities : list (bytes * bytes);
}.
Record Contact := mkContact {
  contact_id : string;
  contact_key32 : option bytes;
  petname : string;
  glyph : string;
  retained_identity : option RetainedIdentity;
  contact_observations : list Observation;
  preferred : list (string * string);
}.

(** ** Text *)

(** [str::split_once(':')]. *)
Definition colon : Ascii.ascii := Ascii.ascii_of_byte Byte.x3a.
Fixpoint split_colon (s : string) : option (string * string) :=
  match s with
  | EmptyString => None
  | String c s => if Ascii.eqb c colon then Some (EmptyString, s) else '(a, b) ← split_colon s; Some (String c a, b)
  end.
(** [str::parse] for an integer type: an optional sign ([-] for signed types
    only), at least one digit, and no overflow. *)
Fixpoint digits (acc : Z) (l : bytes) : option Z :=
  match l with
  | [] => Some acc
  | b :: l => if (48 <=? u8 b) && (u8 b <=? 57) then digits (acc * 10 + (u8 b - 48)) l else None
  end.
Definition in_bounds (lo hi z : Z) : option Z := if (lo <=? z) && (z <=? hi) then Some z else None.
Definition parse_digits (l : bytes) : option Z := match l with [] => None | _ => digits 0 l end.
Definition parse_int (lo hi : Z) (s : string) : option Z :=
  match as_bytes s with
  | [] => None
  | b :: l =>
    if u8 b =? 43 then z ← parse_digits l; in_bounds lo hi z
    else if (u8 b =? 45) && (lo <? 0) then z ← parse_digits l; in_bounds lo hi (- z)
    else z ← parse_digits (b :: l); in_bounds lo hi z
  end.
Definition parse_u64 : string → option Z := parse_int 0 (2 ^ 64 - 1).
Definition parse_u32 : string → option Z := parse_int 0 (2 ^ 32 - 1).
Definition parse_i64 : string → option Z := parse_int (- 2 ^ 63) (2 ^ 63 - 1).

(** [decode_text]: hexadecimal of UTF-8. *)
Definition decode_text (s : string) : option string := visor_unhex s ≫= from_utf8.
(** [decode_hex32] *)
Definition decode_hex32 (s : string) : result string bytes :=
  ok_or "invalid public key encoding"%string (us_unhex s).

(** ** Keys *)
Definition contact_key (id field : string) : string := "contact:" +:+ id +:+ ":" +:+ field.
Definition meeting_key (id field : string) : string := "meeting:" +:+ id +:+ ":" +:+ field.
Definition preferred_key (id name : string) : string := "preferred:" +:+ id +:+ ":" +:+ hex (as_bytes name).
Definition nonempty (s : string) : bool := negb (bool_decide (s = EmptyString)).
Definition hex_or_empty (k : option bytes) : string := match k with Some k => hex k | None => EmptyString end.

Definition show_provenance (p : Provenance) : string :=
  match p with Local => "Local" | Imported => "Imported" | Verified => "Verified" end.
Definition read_provenance (s : string) : option Provenance :=
  if bool_decide (s = "Local"%string) then Some Local
  else if bool_decide (s = "Imported"%string) then Some Imported
  else if bool_decide (s = "Verified"%string) then Some Verified else None.
Definition OBS_FIELDS : list string :=
  ["name"; "value"; "provenance"; "issuer"; "claimed-seconds"; "claimed-nanos"; "received"; "meeting"; "present"]%string.
Definition observation_fields (o : Observation) : list (string * string) :=
  [("name", o_name o); ("value", o_value o); ("provenance", show_provenance (provenance o));
   ("issuer", hex_or_empty (o_issuer o));
   ("claimed-seconds", match claimed o with Some t => pretty (seconds t) | None => EmptyString end);
   ("claimed-nanos", match claimed o with Some t => pretty (nanos t) | None => EmptyString end);
   ("received", pretty (received o)); ("meeting", o_meeting o); ("present", "true")]%string.

Section Ids.
Context {ShaI : Sha256}.
Definition local_id (domain entropy actor : bytes) : string :=
  hex (take 16 (sha256 (domain ++ entropy ++ le_bytes 8 (Z.of_nat (length actor)) ++ actor))).
Definition CONTACT_DOMAIN : bytes := as_bytes "polyvisor:local-contact:v0" ++ [byte_of 0].
Definition MEETING_DOMAIN : bytes := as_bytes "polyvisor:meeting:v0" ++ [byte_of 0].
Definition derived_entropy (entropy : bytes) (index : Z) : bytes :=
  sha256 (as_bytes "polyvisor:forwarded-contact:v0" ++ [byte_of 0] ++ entropy ++ be_bytes 8 index).
Definition observation_discriminator (o : Observation) : string :=
  let field b := be_bytes 8 (Z.of_nat (length b)) ++ b in
  hex (take 16 (sha256 (as_bytes "polyvisor:observation:v0" ++ [byte_of 0] ++
    ([default [] (o_issuer o); as_bytes (o_name o); as_bytes (o_value o); as_bytes (o_meeting o)] ≫= field)))).
End Ids.

(** ** Reading *)
Section Model.
Context {EdI : Ed25519} {SigI : Signatures} {ShaI : Sha256}.
Context {MsgS : Message Proto.Signed} {MsgB : Message Proto.RootBinding} {MsgP : Message Proto.Profile}
  {MsgA : Message Proto.AuthenticatedIdentity}.
Context {A Oid C : Type} {AM : Automerge A Oid} {CG : ChangeGraph A C}.
Abbreviation Document := (Document A).
Abbreviation op := (Registers.op (A := A)).

Definition root_binding (d : Document) : option bytes :=
  let values := all_root_bytes d ROOT_BINDING in
  if (size values =? 1)%nat then hd_error (btree_elems values) ≫= λ b, ok (binding_from_bytes b) else None.
Definition root_identity (d : Document) : option bytes :=
  b ← root_binding d; r ← ok (verify_root_binding b); Some (root r).
Definition own_profile (root b : bytes) : bool :=
  match verify_profile b with
  | Ok p => bool_decide (subject p = root) && bool_decide (issuer p = root)
  | Err _ => false
  end.
Definition self_profile (d : Document) : option SelfProfile :=
  root ← root_identity d;
  binding ← root_binding d;
  let stored := omap (λ v, to_bytes v.1 ≫= λ b, ok (profile_from_bytes b)) (get_all (read d) ROOT SELF_PROFILE) in
  Some (mkSelf root binding (sort_dedup (filter (λ b, own_profile root b = true) stored))).

Definition contact_ids (d : Document) : list string :=
  sort_dedup (omap (λ k, rest ← str_strip "contact:" k; '(id, field) ← split_colon rest;
                         if bool_decide (field = "exists"%string) then Some id else None) (root_keys d)).
Definition meeting (d : Document) (id : string) : option MeetingRecord :=
  method ← root_string d (meeting_key id "method");
  occurred ← root_string d (meeting_key id "occurred") ≫= parse_u64;
  Some (mkMeeting id method
    (default EmptyString (root_string d (meeting_key id "source")))
    (root_string d (meeting_key id "source-key") ≫= λ s, if nonempty s then ok (decode_hex32 s) else None)
    occurred
    (bool_decide (root_string d (meeting_key id "verified") = Some "true"%string))).
Definition later (a b : MeetingRecord) : Prop :=
  occurred b < occurred a ∨ (occurred b = occurred a ∧ key_le (meeting_id a) (meeting_id b)).
#[export] Instance later_dec : RelDecision later.
Proof. intros a b. unfold later. apply _. Defined.
Definition meetings (d : Document) : list MeetingRecord :=
  let ids := sort_dedup (omap (λ k, rest ← str_strip "meeting:" k; fst <$> split_colon rest) (root_keys d)) in
  merge_sort later (omap (meeting d) ids).

Definition observation_sources (d : Document) (id : string) : list string :=
  merge_sort key_le (id :: omap (λ k, source ← str_strip ALIAS_PREFIX k;
    if bool_decide (root_string d k = Some id) then Some source else None) (root_keys d)).
Definition observation_start (id : string) : string := "observation:" +:+ id +:+ ":".
Definition observation_prefixes (d : Document) (id : string) : list string :=
  sort_dedup (omap (λ k, rest ← str_strip (observation_start id) k; '(disc, _) ← split_colon rest;
                         Some (observation_start id +:+ disc +:+ ":")) (root_keys d)).
(** [prefix.rsplit(':').nth(1)]: what a prefix adds to its start. *)
Definition discriminator (id prefix : string) : option string :=
  rest ← str_strip (observation_start id) prefix; fst <$> split_colon rest.

(** One observation, as its registers spell it. *)
Definition read_observation (d : Document) (prefix : string) : option Observation :=
  let field f := root_string d (prefix +:+ f) in
  if negb (bool_decide (field "present" = Some "true"))%string then None else
  p ← field "provenance"%string ≫= read_provenance;
  n ← field "name"%string;
  v ← field "value"%string;
  let issuer := field "issuer"%string ≫= λ s, if nonempty s then ok (decode_hex32 s) else None in
  let claimed := field "claimed-seconds"%string ≫= λ s,
    if nonempty s then
      sec ← parse_i64 s; ns ← field "claimed-nanos"%string ≫= parse_u32; Some (mkTime sec ns)
    else None in
  Some (mkObservation n v p issuer claimed
    (default 0 (field "received"%string ≫= parse_u64))
    (default EmptyString (field "meeting"%string))).
(** The first source to spell a discriminator is the one that is read. *)
Fixpoint first_spellings (seen : gset string) (l : list (string * string)) : list string :=
  match l with
  | [] => []
  | (prefix, disc) :: l =>
    if bool_decide (disc ∈ seen) then first_spellings seen l else prefix :: first_spellings ({[disc]} ∪ seen) l
  end.
Definition by_name_value (a b : Observation) : Prop := key_le (o_name a, o_value a) (o_name b, o_value b).
#[export] Instance by_name_value_dec : RelDecision by_name_value.
Proof. intros a b. unfold by_name_value. apply _. Defined.
Definition observations_of (d : Document) (id : string) : list Observation :=
  let spelled := observation_sources d id ≫= λ src,
    omap (λ p, pair p <$> discriminator src p) (observation_prefixes d src) in
  merge_sort by_name_value (omap (read_observation d) (first_spellings ∅ spelled)).

(** [BTreeMap<String, String>]: the contact's own choices win over its aliases'. *)
Definition preferences (d : Document) (src : string) (m : gmap string string) : gmap string string :=
  foldl (λ m k, match str_strip ("preferred:" +:+ src +:+ ":") k ≫= decode_text, root_string d k with
                | Some name, Some value => <[name := value]> m
                | _, _ => m
                end) m (root_keys d).
Definition preferred_values (d : Document) (id : string) : list (string * string) :=
  let observed := observations_of d id in
  let aliases := filter (λ s, s ≠ id) (observation_sources d id) in
  let m := preferences d id (foldl (λ m src, preferences d src m) ∅ aliases) in
  filter (λ p, existsb (λ o, bool_decide (o_name o = p.1) && bool_decide (o_value o = p.2)) observed = true) (btree_items m).

Definition identity_of (b : bytes) : option AuthenticatedIdentity :=
  decode_message b ≫= λ w, ok (extract_identity w).
Definition retained_identity_at (d : Document) (id : string) : option RetainedIdentity :=
  variants ← mapM identity_of (btree_elems (all_root_bytes d (contact_key id "retained-identity")));
  first ← hd_error variants;
  b ← ok (verify_root_binding (binding first));
  if existsb (λ v, negb (is_ok (validate_authenticated_identity v)) ||
       negb (match verify_root_binding (binding v) with
             | Ok r => bool_decide (root r = root b) && bool_decide (group r = group b)
             | Err _ => false
             end)) variants
  then None else
  Some (mkRetained (root b) (binding first)
    (sort_dedup (variants ≫= profiles))
    (sort_dedup ((λ v, (authority_device v, proof v)) <$> variants))).

Definition contact (d : Document) (id : string) : option Contact :=
  if negb (bool_decide (root_string d (contact_key id "exists") = Some "true"%string)) then None else
  Some (mkContact id
    (root_string d (contact_key id "public-key") ≫= λ s, if nonempty s then ok (decode_hex32 s) else None)
    (default EmptyString (root_string d (contact_key id "petname")))
    (default EmptyString (root_string d (contact_key id "glyph")))
    (retained_identity_at d id)
    (observations_of d id)
    (preferred_values d id)).
Definition contacts (d : Document) : list Contact := omap (contact d) (contact_ids d).
Definition retained_root_contact (d : Document) (root : bytes) : option string :=
  hd_error (filter (λ id, (retained_root <$> retained_identity_at d id) = Some root) (contact_ids d)).
Definition contact_with_public_key (d : Document) (key : bytes) : option string :=
  contact_id <$> hd_error (filter (λ c, contact_key32 c = Some key) (contacts d)).

(** ** Writing *)
#[export] Instance RootBinding_eq_dec : EqDecision RootBinding.
Proof. solve_decision. Defined.

Definition bind_root (binding : bytes) : op bool :=
  verified ← lift (verify_root_binding binding);
  bindings ← reading (λ d, btree_elems (all_root_bytes d ROOT_BINDING));
  if (1 <? length bindings)%nat then fail "contacts root binding is conflicted" else
  match hd_error bindings ≫= λ b, ok (binding_from_bytes b) with
  | Some existing =>
    existing_value ← lift (verify_root_binding existing);
    if bool_decide (existing_value = verified) && bool_decide (existing = binding) then mret false
    else fail "the established root/group binding cannot be replaced"
  | None => _ ← tx (puts [(ROOT_BINDING, Bytes binding)]); mret true
  end.

Definition not_established : string := "contacts root is not established".
Definition write_self_profile (profile : bytes) : op unit :=
  found ← reading root_identity;
  root ← lift (ok_or not_established found);
  decoded ← lift (verify_profile profile);
  if negb (bool_decide (subject decoded = root)) || negb (bool_decide (issuer decoded = root))
  then fail "profile is not signed by the established root"
  else tx (puts [(SELF_PROFILE, Bytes profile)]).
Definition resolve_self_profile (seed : bytes) (expected : list bytes) (l : list Claim) : op bytes :=
  found ← reading root_identity;
  established ← lift (ok_or not_established found);
  if negb (bool_decide (established = verifying_key seed))
  then fail "profile resolver does not hold the established root" else
  found ← reading self_profile;
  current ← lift (ok_or not_established found);
  if negb (bool_decide (variants current = sort_dedup expected))
  then fail "self-profile variants changed while editing" else
  signed ← lift (sign_profile seed l);
  _ ← write_self_profile signed;
  mret signed.

Definition contacts_adopt (from : Document) : op unit :=
  _ ← lift (ok_or "source contacts identity is not ready"%string (self_profile from));
  mine ← reading (λ d, filter (λ k, k = ROOT_BINDING ∨ k = SELF_PROFILE) (root_keys d));
  _ ← tx (deletes mine);
  merge_snapshot (save (C := C) (doc from)).

Definition put_strings (l : list (string * string)) : op unit := tx (puts ((λ p, (p.1, Str p.2)) <$> l)).
Definition create_contact (key : option bytes) (petname glyph : string) (entropy : bytes) : op string :=
  _ ← lift (match key with Some k => _ ← valid_key k "contact public key"; Ok () | None => Ok () end);
  actor ← reading (actor_id (C := C));
  let id := local_id CONTACT_DOMAIN entropy actor in
  known ← reading (λ d, contact d id);
  if known is Some _ then fail "contact entropy was reused" else
  _ ← put_strings [(contact_key id "exists", "true"); (contact_key id "petname", petname);
                   (contact_key id "glyph", glyph); (contact_key id "public-key", hex_or_empty key)]%string;
  mret id.

Definition require_contact (id : string) : op unit :=
  found ← reading (λ d, contact d id);
  lift (match found with Some _ => Ok () | None => Err ("no contact with id " +:+ id) end).
Definition set_label (id petname glyph : string) : op unit :=
  _ ← require_contact id;
  put_strings [(contact_key id "petname", petname); (contact_key id "glyph", glyph)].

Definition show_bool (b : bool) : string := if b then "true" else "false".
Definition create_meeting (method source : string) (source_key : option bytes) (occurred : Z) (verified : bool)
    (entropy : bytes) : op string :=
  actor ← reading (actor_id (C := C));
  let id := local_id MEETING_DOMAIN entropy actor in
  _ ← put_strings [(meeting_key id "method", method); (meeting_key id "source", source);
                   (meeting_key id "source-key", hex_or_empty source_key); (meeting_key id "occurred", pretty occurred);
                   (meeting_key id "verified", show_bool verified)];
  mret id.

Definition provenance_allowed (o : Observation) (m : MeetingRecord) : result string unit :=
  match provenance o with
  | Verified =>
    if bool_decide (is_Some (o_issuer o)) && bool_decide (is_Some (claimed o)) && verified m &&
       bool_decide (source_key m = o_issuer o)
    then Ok () else Err "verified observation lacks verified provenance"%string
  | Local | Imported =>
    match o_issuer o, claimed o with
    | None, None => Ok ()
    | _, _ => Err "local/imported observation cannot claim authentication"%string
    end
  end.
Definition write_observation (id : string) (o : Observation) : op unit :=
  _ ← require_contact id;
  _ ← lift (validate_claims [mkClaim (o_name o) (o_value o)]);
  found ← reading (λ d, meeting d (o_meeting o));
  m ← lift (ok_or "observation has no meeting"%string found);
  _ ← lift (provenance_allowed o m);
  let prefix := observation_start id +:+ observation_discriminator o +:+ ":" in
  put_strings ((λ p, (prefix +:+ p.1, p.2)) <$> observation_fields o).

Definition remove_observation (id name value : string) : op unit :=
  sources ← reading (λ d, observation_sources d id);
  prefixes ← reading (λ d, filter (λ p, root_string d (p +:+ "name") = Some name ∧ root_string d (p +:+ "value") = Some value)
                                   (sources ≫= observation_prefixes d));
  preferences ← reading (λ d, filter (λ k, root_string d k = Some value) ((λ s, preferred_key s name) <$> sources));
  tx (λ a,
    a ← deletes (prefixes ≫= λ p, (λ f, p +:+ f) <$> OBS_FIELDS) a;
    foldl (λ r k, a ← r; x ← get a ROOT k; match x with Some _ => delete a ROOT k | None => Ok a end) (Ok a) preferences).

Definition set_preferred (id name : string) (value : option string) : op unit :=
  _ ← require_contact id;
  observed ← reading (λ d, observations_of d id);
  match value with
  | Some wanted =>
    if negb (existsb (λ o, bool_decide (o_name o = name) && bool_decide (o_value o = wanted)) observed)
    then fail "preferred value is not an observation"
    else tx (puts [(preferred_key id name, Str wanted)])
  | None =>
    stale ← reading (λ d, filter (λ k, is_Some (root_string d k)) ((λ s, preferred_key s name) <$> observation_sources d id));
    tx (deletes stale)
  end.

(** What [delete_contact] takes with it. *)
Definition owned (id : string) (sources : list string) (k : string) : bool :=
  starts_with k ("contact:" +:+ id +:+ ":") ||
  existsb (λ s, starts_with k ("observation:" +:+ s +:+ ":") || starts_with k ("preferred:" +:+ s +:+ ":") ||
                bool_decide (k = ALIAS_PREFIX +:+ s)) sources.
Definition delete_contact (id : string) : op unit :=
  _ ← require_contact id;
  keys ← reading (λ d, filter (λ k, owned id (observation_sources d id) k = true) (root_keys d));
  tx (deletes keys).

Definition merge_contacts (keyless into : string) : op unit :=
  found ← reading (λ d, contact d keyless);
  source ← lift (ok_or "no such keyless contact"%string found);
  found ← reading (λ d, contact d into);
  target ← lift (ok_or "no such keyed contact"%string found);
  if bool_decide (is_Some (contact_key32 source)) || bool_decide (contact_key32 target = None)
  then fail "contacts can only merge keyless into keyed" else
  _ ← tx (puts [(ALIAS_PREFIX +:+ keyless, Str into)]);
  _ ← (if negb (nonempty (petname target)) || negb (nonempty (glyph target))
       then set_label into (if nonempty (petname target) then petname target else petname source)
              (if nonempty (glyph target) then glyph target else glyph source)
       else mret ());
  keys ← reading (λ d, filter (λ k, starts_with k ("contact:" +:+ keyless +:+ ":") = true) (root_keys d));
  tx (deletes keys).

(** *** Keeping a verified introduction *)
Definition groups_of (d : Document) (root' : bytes) (b : bytes) : list bytes :=
  match verify_root_binding b with
  | Ok r => if bool_decide (root r = root') then [group r] else []
  | Err _ => []
  end.
Definition ensure_unique_root_group (d : Document) (identity : AuthenticatedIdentity) : result string unit :=
  candidate ← verify_root_binding (binding identity);
  let self_bindings := btree_elems (all_root_bytes d ROOT_BINDING) in
  if (1 <? length self_bindings)%nat && existsb (λ b, negb (bool_decide (groups_of d (root candidate) b = []))) self_bindings
  then Err "self root binding is conflicted"%string else
  let own := self_bindings ≫= groups_of d (root candidate) in
  let retained := contact_ids d ≫= λ id,
    btree_elems (all_root_bytes d (contact_key id "retained-identity")) ≫= λ b,
      match identity_of b with Some i => groups_of d (root candidate) (binding i) | None => [] end in
  if existsb (λ g, negb (bool_decide (g = group candidate))) (own ++ retained)
  then Err "that root is already accepted for another group"%string else Ok ().
Definition retain_identity (id : string) (identity : AuthenticatedIdentity) : op unit :=
  tx (puts [(contact_key id "retained-identity", Bytes (encode_to_vec (proto_identity identity)))]).

Section Persist.
Context (issuer_root : bytes) (my_petname my_glyph : string) (entropy : bytes) (received : Z) (at_ : ClaimedTime).
Definition or_first (first : option string) (id : string) : option string :=
  Some (match first with Some f => f | None => id end).
Fixpoint persist_identities (index : Z) (l : list AuthenticatedIdentity) (first : option string) : op (option string) :=
  match l with
  | [] => mret first
  | identity :: l =>
    b ← lift (verify_root_binding (binding identity));
    known ← reading (λ d, match retained_root_contact d (root b) with
                          | Some id => Some id
                          | None => contact_with_public_key d (root b)
                          end);
    id ← (match known with
          | Some id => mret id
          | None =>
            let own := bool_decide (root b = issuer_root) in
            create_contact (Some (root b)) (if own then my_petname else EmptyString) (if own then my_glyph else EmptyString)
              (derived_entropy entropy (index + 1))
          end);
    _ ← retain_identity id identity;
    persist_identities (index + 1) l (or_first first id)
  end.
Fixpoint persist_claims (id meeting : string) (l : list Claim) : op unit :=
  match l with
  | [] => mret ()
  | c :: l =>
    _ ← write_observation id (mkObservation (name c) (value c) Verified (Some issuer_root) (Some at_) received meeting);
    persist_claims id meeting l
  end.
Fixpoint persist_parties (l : list (nat * Party)) (first : option string) : op (option string) :=
  match l with
  | [] => mret first
  | (index, p) :: l =>
    let index := Z.of_nat index in
    known ← reading (λ d, contact_with_public_key d (public_key p));
    id ← (match known with
          | Some id => mret id
          | None => create_contact (Some (public_key p)) EmptyString EmptyString
                      (derived_entropy entropy (index + 1 + Z.of_nat MAX_PARTIES))
          end);
    m ← create_meeting "verified introduction" EmptyString (Some issuer_root) received true
          (derived_entropy entropy (index + 1 + Z.of_nat MAX_PARTIES * 2));
    _ ← persist_claims id m (observations p);
    persist_parties l (or_first first id)
  end.
End Persist.

Fixpoint check_groups (l : list AuthenticatedIdentity) (d : Document) : result string unit :=
  match l with
  | [] => Ok ()
  | i :: l => _ ← ensure_unique_root_group d i; check_groups l d
  end.
Definition wanted (roots : gset bytes) (i : AuthenticatedIdentity) : bool :=
  match verify_root_binding (binding i) with Ok r => bool_decide (root r ∈ roots) | Err _ => false end.
Definition empty_selection : string := "introduction selection is empty".
Definition persist_verified_introduction (selected : Selected) (petname glyph : string) (entropy : bytes) (received : Z)
    : op string :=
  let intro := chosen selected in
  let picked := filter (λ i, wanted (roots selected) i = true) (all_identities intro) in
  if bool_decide (picked = []) && bool_decide (chosen_parties selected = ∅) then fail empty_selection else
  checked ← reading (check_groups picked);
  _ ← lift checked;
  b ← lift (verify_root_binding (binding (intro_issuer intro)));
  first ← persist_identities (root b) petname glyph entropy 0 picked None;
  first ← persist_parties (root b) entropy received (issued_at intro)
            (filter (λ p, p.1 ∈ chosen_parties selected) (imap pair (parties intro))) first;
  lift (ok_or empty_selection first).
End Model.

(** ** Importing an unsigned list ([parse_unsigned_import])

    [from_slice] is [serde_json]'s reader of [Vec<JsonParty>]. *)
Record ReviewParty := mkReview { review_index : Z; review_key : option bytes; review_claims : list Claim }.
Section Imports.
Context {EdI : Ed25519} {SigI : Signatures}.
Context (from_slice : bytes → option (list (option string * list Claim))).
Definition import_key (key : option string) : result string (option bytes) :=
  match key with
  | Some key => k ← decode_hex32 key; k ← valid_key k "contact key"; Ok (Some k)
  | None => Ok None
  end.
Definition import_row (row : nat * (option string * list Claim)) : result string ReviewParty :=
  let '(index, (key, l)) := row in
  _ ← validate_claims l;
  key ← import_key key;
  Ok (mkReview (Z.of_nat index) key l).
Definition parse_unsigned_import (b : bytes) : result string (list ReviewParty) :=
  _ ← bounded b;
  rows ← ok_or "invalid contact JSON"%string (from_slice b);
  if (MAX_PARTIES <? length rows)%nat then Err "too many imported contacts"%string
  else mapM import_row (imap pair rows).
End Imports.
