(* ===== verification/ContactsFacts.v ===== *)
(** * What the contacts document promises

    Each operation of [Contacts] on every branch: what it leaves in the
    document, and that a refusal leaves the document as it was. *)
From S2P Require Import Prelude BTree Text Crypto Codes Automerge History Registers ContactsWire Contacts.

(** ** Decimal integers read back *)
Definition dec (acc : Z) (l : bytes) : Z := foldl (λ acc b, acc * 10 + (u8 b - 48)) acc l.
Lemma digits_dec acc l : Forall is_digit l → digits acc l = Some (dec acc l).
Proof.
  revert acc. induction l as [|b l IH]; intros acc Hl; [done|]. apply Forall_cons in Hl as [Hb Hl]. simpl.
  unfold is_digit in Hb. rewrite (proj2 (Z.leb_le _ _)), (proj2 (Z.leb_le _ _)) by lia. by apply IH.
Qed.
Lemma dec_snoc acc l b : dec acc (l ++ [b]) = dec acc l * 10 + (u8 b - 48).
Proof. unfold dec. by rewrite foldl_app. Qed.
Lemma char_digit m : (m < 10)%N → let b := Ascii.byte_of_ascii (pretty_N_char m) in is_digit b ∧ u8 b - 48 = Z.of_N m.
Proof.
  intros Hm. assert (m ∈ [0; 1; 2; 3; 4; 5; 6; 7; 8; 9]%N) as Hin.
  { rewrite !elem_of_cons. lia. }
  repeat (apply elem_of_cons in Hin as [->|Hin]; [vm_compute; by repeat split|]). by apply elem_of_nil in Hin.
Qed.
Lemma pretty_go_dec x t : ∃ ds, as_bytes (pretty_N_go x t) = ds ++ as_bytes t ∧ Forall is_digit ds ∧
  dec 0 ds = Z.of_N x ∧ ((0 < x)%N → ds ≠ []).
Proof.
  revert t. induction x as [x IH] using (well_founded_induction N.lt_wf_0). intros t.
  destruct (decide (x = 0)%N) as [->|Hne]; [exists []; by rewrite pretty_N_go_0|].
  rewrite pretty_N_go_step by lia.
  destruct (IH (x `div` 10)%N ltac:(apply N.div_lt; lia) (String (pretty_N_char (x `mod` 10)) t)) as (ds & -> & Hd & Hv & _).
  destruct (char_digit (x mod 10)) as [Hb Hu]; [by apply N.mod_lt|].
  exists (ds ++ [Ascii.byte_of_ascii (pretty_N_char (x `mod` 10))]). split_and!.
  - by rewrite <- app_assoc.
  - apply Forall_app. split; [done|]. by apply Forall_singleton.
  - rewrite dec_snoc, Hu, Hv, N2Z.inj_div, N2Z.inj_mod. pose proof (Z.div_mod (Z.of_N x) 10). lia.
  - by destruct ds.
Qed.
Lemma pretty_pos p : ∃ b l, as_bytes (pretty (Zpos p)) = b :: l ∧ Forall is_digit (b :: l) ∧ dec 0 (b :: l) = Zpos p.
Proof.
  change (pretty (Z.pos p)) with (pretty (N.pos p)). unfold pretty, pretty_N. rewrite decide_False by done.
  destruct (pretty_go_dec (N.pos p) "") as (ds & -> & Hd & Hv & Hn). change (as_bytes "") with (@nil byte).
  rewrite app_nil_r. destruct ds as [|b l]; [by destruct Hn|]. eauto.
Qed.
Lemma parse_pretty lo hi z : lo <= z <= hi → parse_int lo hi (pretty z) = Some z.
Proof.
  intros Hz. unfold parse_int. assert (in_bounds lo hi z = Some z) as Hb.
  { unfold in_bounds. by rewrite (proj2 (Z.leb_le _ _)), (proj2 (Z.leb_le _ _)) by lia. }
  destruct z as [|p|p].
  - change (as_bytes (pretty 0)) with [Byte.x30]. simpl. exact Hb.
  - destruct (pretty_pos p) as (b & l & -> & Hd & Hv). pose proof Hd as [Hb0 _]%Forall_cons. unfold is_digit in Hb0.
    rewrite (proj2 (Z.eqb_neq _ 43)), (proj2 (Z.eqb_neq _ 45)) by lia. cbn [andb]. unfold parse_digits.
    rewrite digits_dec, Hv by done. exact Hb.
  - change (pretty (Z.neg p)) with ("-" +:+ pretty (Zpos p)). destruct (pretty_pos p) as (b & l & E & Hd & Hv).
    rewrite as_bytes_app, E. cbn [app]. change (u8 Byte.x2d =? 43) with false. change (u8 Byte.x2d =? 45) with true.
    change (as_bytes "-" ++ b :: l) with (Byte.x2d :: b :: l). cbv iota beta.
    change (u8 Byte.x2d =? 43) with false. change (u8 Byte.x2d =? 45) with true.
    rewrite (proj2 (Z.ltb_lt lo 0)) by lia. cbn [andb]. unfold parse_digits. rewrite digits_dec, Hv by done. exact Hb.
Qed.

(** ** The text of keys *)
Fixpoint colon_free (s : string) : bool :=
  match s with EmptyString => true | String c s => negb (Ascii.eqb c colon) && colon_free s end.
Lemma split_colon_app a b : colon_free a = true → split_colon (a +:+ ":" +:+ b) = Some (a, b).
Proof.
  induction a as [|c a IH]; [done|]. cbn [colon_free]. intros [Hc Ha]%andb_true_iff.
  change (String c a +:+ ":" +:+ b) with (String c (a +:+ ":" +:+ b)). cbn [split_colon].
  destruct (Ascii.eqb c colon); [done|]. by rewrite IH.
Qed.

Lemma split_colon_Some s a b : split_colon s = Some (a, b) ↔ s = a +:+ ":" +:+ b ∧ colon_free a = true.
Proof.
  split; [|by intros [-> H]; apply split_colon_app]. revert a. induction s as [|c s IH]; intros a; [done|]. cbn [split_colon].
  destruct (Ascii.eqb_spec c colon) as [->|Hne]; [by intros [= <- <-]|].
  intros ((a' & b') & Hs & [= <- <-])%bind_Some. destruct (IH _ Hs) as [-> Hf]. split; [done|].
  cbn [colon_free]. rewrite Hf, andb_true_r. by apply negb_true_iff, Ascii.eqb_neq.
Qed.
Lemma colon_free_bytes s : Forall (λ b, u8 b ≠ 58) (as_bytes s) → colon_free s = true.
Proof.
  induction s as [|c s IH]; [done|]. change (as_bytes (String c s)) with (Ascii.byte_of_ascii c :: as_bytes s).
  intros [Hc Hs]%Forall_cons. cbn [colon_free]. rewrite (IH Hs), andb_true_r. apply negb_true_iff, Ascii.eqb_neq.
  by intros ->.
Qed.
Lemma hex_byte_colon_free b : Forall (λ x, u8 x ≠ 58) (hex_byte b).
Proof. by destruct b; repeat constructor. Qed.
Lemma hex_colon_free b : colon_free (hex b) = true.
Proof.
  apply colon_free_bytes. rewrite as_bytes_hex. induction b as [|x b IH]; [by constructor|].
  apply Forall_app. split; [apply hex_byte_colon_free|exact IH].
Qed.

Section Facts.
Context {EdI : Ed25519} {SigI : Signatures} {ShaI : Sha256}.
Context {MsgS : Message Proto.Signed} {MsgB : Message Proto.RootBinding} {MsgP : Message Proto.Profile}
  {MsgA : Message Proto.AuthenticatedIdentity}.
Context {A Oid C : Type} {AM : Automerge A Oid} {CG : ChangeGraph A C} {ML : MapLaws A Oid} {CV : CommitView A Oid C}.
Implicit Types d : Document A.

(** A single write of a root binding is the binding that reads back. *)
Lemma root_binding_one d b : values d ROOT_BINDING = [Scalar (Bytes b)] → is_ok (verify_root_binding b) = true →
  root_binding d = Some b.
Proof.
  intros Hv Hb. unfold root_binding. rewrite (values_bytes _ _ _ Hv). assert (size ({[b]} : gset bytes) = 1%nat) as -> by apply size_singleton.
  rewrite btree_elems_singleton.
  simpl. unfold binding_from_bytes. destruct (verify_root_binding b); done.
Qed.
Lemma length_btree_elems (s : gset bytes) : length (btree_elems s) = size s.
Proof. rewrite (Permutation_length (btree_elems_perm s)). done. Qed.

(** The root of a contacts document is bound once: binding it is the first
    write of its register, repeating the binding changes nothing, and any other
    attempt (a second binding, a conflicted register, one that does not verify)
    is refused and changes nothing.  The exception is a lone stored binding
    that does not verify, which is no binding. *)
Theorem bind_root_once b d d' r : bind_root b d = (d', r) →
  match r with
  | Ok true => root_binding d = None ∧ is_ok (verify_root_binding b) = true ∧ root_binding d' = Some b ∧
      ∀ k, k ≠ ROOT_BINDING → same_register d d' k
  | Ok false => d' = d ∧ root_binding d = Some b
  | Err _ => d' = d
  end.
Proof.
  unfold bind_root. rewrite bind_lift. destruct (verify_root_binding b) as [v|] eqn:Hv; [|by intros [= <- <-]].
  rewrite bind_reading, length_btree_elems. destruct (1 <? size _)%nat eqn:Hs; [by intros [= <- <-]|].
  destruct (hd_error _ ≫= _) as [existing|] eqn:He.
  - rewrite bind_lift. destruct (verify_root_binding existing) as [ev|] eqn:Hev; [|by intros [= <- <-]].
    destruct (_ && _) eqn:Hb; [|by intros [= <- <-]]. intros [= <- <-]. split; [done|].
    apply andb_true_iff in Hb as [_ ->%bool_decide_eq_true]. unfold root_binding. rewrite He.
    rewrite (proj2 (Nat.eqb_eq _ _)); [done|]. apply Nat.ltb_ge in Hs.
    assert (0 < size (all_root_bytes d ROOT_BINDING))%nat; [|lia]. rewrite <- length_btree_elems.
    destruct (btree_elems _); [done|simpl; lia].
  - destruct (tx_puts [(ROOT_BINDING, Bytes b)] d ltac:(by apply NoDup_singleton)) as (d1 & Hd & Hin & Hout).
    intros Hr. unfold mbind, op_bind in Hr. rewrite Hd in Hr. injection Hr as <- <-. split_and!.
    + unfold root_binding. by destruct (_ =? _)%nat.
    + done.
    + apply root_binding_one; [apply Hin, list_elem_of_singleton; done|by rewrite Hv].
    + intros k Hk. apply Hout. set_solver.
Qed.

(** ** Contacts *)
Lemma contact_key_inj i f g : contact_key i f = contact_key i g → f = g.
Proof. unfold contact_key. by intros H%(inj _)%(inj _)%(inj _). Qed.
Definition at_contact (id : string) (q : string * string) : string * string := (contact_key id q.1, q.2).
Lemma NoDup_at_contact id l : NoDup l.*1 → NoDup (at_contact id <$> l).*1.
Proof.
  intros Hn. rewrite <- list_fmap_compose. change (NoDup (contact_key id ∘ fst <$> l)). rewrite list_fmap_compose.
  apply NoDup_fmap_2; [|done]. intros f g. apply contact_key_inj.
Qed.
Lemma put_strings_spec (l : list (string * string)) d : NoDup l.*1 → ∃ d', put_strings l d = (d', Ok ()) ∧
  (∀ k s, (k, s) ∈ l → values d' k = [Scalar (Str s)]) ∧ ∀ k, k ∉ l.*1 → same_register d d' k.
Proof.
  intros Hn. assert (((λ p : string * string, (p.1, Str p.2)) <$> l).*1 = l.*1) as E.
  { rewrite <- list_fmap_compose. by apply list_fmap_ext. }
  destruct (tx_puts ((λ p, (p.1, Str p.2)) <$> l) d) as (d' & Hd & Hin & Hout); [by rewrite E|].
  exists d'. split; [done|]. rewrite E in Hout. split; [|done].
  intros k s Hk. apply Hin. apply list_elem_of_fmap. by exists (k, s).
Qed.
Lemma contact_is_some d id : is_Some (contact d id) ↔ root_string d (contact_key id "exists") = Some "true"%string.
Proof. unfold contact. case_bool_decide; simpl; naive_solver. Qed.
Lemma contact_none d id : values d (contact_key id "exists") = [] → contact d id = None.
Proof.
  intros H%values_none. destruct (contact d id) eqn:E; [|done].
  assert (is_Some (contact d id)) as Hs by by eexists. apply contact_is_some in Hs. congruence.
Qed.
(** What [decode_hex32] makes of a key register. *)
Definition key_of (s : option string) : option bytes :=
  s ≫= λ s, if nonempty s then ok (decode_hex32 s) else None.
Lemma key_of_hex (k : option bytes) : (∀ b, k = Some b → length b = 32%nat) → key_of (Some (hex_or_empty k)) = k.
Proof.
  intros Hk. destruct k as [b|]; [|done]. specialize (Hk b eq_refl). cbn [hex_or_empty key_of mbind option_bind].
  unfold nonempty. rewrite bool_decide_eq_false_2.
  - simpl. unfold decode_hex32. by rewrite us_unhex_hex.
  - intros E. apply (f_equal as_bytes) in E. rewrite as_bytes_hex in E. apply (f_equal length) in E.
    rewrite length_hex_bytes in E. simpl in E. lia.
Qed.

Definition contact_fields_of (key : option bytes) (pn gl : string) : list (string * string) :=
  [("exists", "true"); ("petname", pn); ("glyph", gl); ("public-key", hex_or_empty key)]%string.
(** What [create_contact] does to the registers. *)
Lemma create_contact_spec key pn gl e d d' r : create_contact (C := C) key pn gl e d = (d', r) →
  match r with
  | Ok id => id = local_id CONTACT_DOMAIN e (actor_id (C := C) d) ∧ contact d id = None ∧
      (∀ f s, (f, s) ∈ contact_fields_of key pn gl → values d' (contact_key id f) = [Scalar (Str s)]) ∧
      ∀ k, (∀ f, f ∈ (contact_fields_of key pn gl).*1 → k ≠ contact_key id f) → same_register d d' k
  | Err _ => d' = d
  end.
Proof.
  unfold create_contact. rewrite bind_lift. destruct (match key with Some k => _ | None => _ end) as [u|];
    [|by intros [= <- <-]].
  rewrite !bind_reading. set (id := local_id _ _ _). destruct (contact d id) as [c|] eqn:Hc; [by intros [= <- <-]|].
  set (l := contact_fields_of key pn gl).
  destruct (put_strings_spec (at_contact id <$> l) d) as (d1 & Hd & Hin & Hout).
  { apply NoDup_at_contact. apply (bool_decide_unpack _). vm_compute. done. }
  intros Hr. unfold mbind, op_bind in Hr. change (put_strings _ d) with (put_strings (at_contact id <$> l) d) in Hr.
  rewrite Hd in Hr. injection Hr as <- <-. split_and!; [done|done| |].
  - intros f s Hf. apply Hin, list_elem_of_fmap. by exists (f, s).
  - intros k Hk. apply Hout. intros (q & -> & Hq)%list_elem_of_fmap. apply list_elem_of_fmap in Hq as (p & -> & Hp).
    apply (Hk p.1); [|done]. by apply list_elem_of_fmap_2.
Qed.

(** A created contact reads back as it was given, at an identifier derived from
    the entropy and the author, and nothing but its four registers changes;
    entropy that was used and a key that is not a usable public key are refused,
    and change nothing. *)
Theorem created_contact_reads_back key pn gl e d d' r : (∀ b, key = Some b → length b = 32%nat) →
  create_contact (C := C) key pn gl e d = (d', r) →
  match r with
  | Ok id => id = local_id CONTACT_DOMAIN e (actor_id (C := C) d) ∧ contact d id = None ∧
      (∃ c, contact d' id = Some c ∧ contact_id c = id ∧ contact_key32 c = key ∧ petname c = pn ∧ glyph c = gl ∧
            retained_identity c = retained_identity_at d id) ∧
      ∀ k, (∀ f, f ∈ ["exists"; "petname"; "glyph"; "public-key"]%string → k ≠ contact_key id f) → same_register d d' k
  | Err _ => d' = d
  end.
Proof.
  intros Hk32 Hr. apply create_contact_spec in Hr. destruct r as [id|]; [|done]. destruct Hr as (Hid & Hc & Hin & Hout).
  split_and!; [done|done| |exact Hout].
  assert (∀ f s, (f, s) ∈ contact_fields_of key pn gl → root_string d' (contact_key id f) = Some s) as Hf.
  { intros f s Hf. by apply values_string, Hin. }
  unfold contact_fields_of in Hf.
  unfold contact. rewrite (Hf "exists"%string "true"%string) by set_solver.
  eexists. split; [by rewrite bool_decide_eq_true_2|]. cbn [contact_id contact_key32 petname glyph retained_identity].
  rewrite (Hf "petname"%string pn), (Hf "glyph"%string gl), (Hf "public-key"%string (hex_or_empty key)) by set_solver.
  split_and!; [done|by apply key_of_hex|done|done|].
  unfold retained_identity_at. erewrite same_bytes; [done|]. apply Hout. intros f Hf' E%contact_key_inj. subst f.
  unfold contact_fields_of in Hf'. set_solver.
Qed.

(** ** Observations and aliases *)
Lemma elem_of_sources d id s :
  s ∈ observation_sources d id ↔ s = id ∨ root_string d (ALIAS_PREFIX +:+ s) = Some id.
Proof.
  unfold observation_sources. rewrite merge_sort_Permutation, elem_of_cons, list_elem_of_omap. apply or_iff_compat_l. split.
  - intros (k & Hk & Hs). apply bind_Some in Hs as (s' & ->%str_strip_Some & Hs). case_bool_decide; [|done].
    by injection Hs as ->.
  - intros Hs. exists (ALIAS_PREFIX +:+ s). split; [by eapply string_is_some|].
    rewrite str_strip_app. cbn [mbind option_bind]. by rewrite bool_decide_eq_true_2.
Qed.
Lemma elem_of_prefixes d id p : p ∈ observation_prefixes d id ↔
  ∃ k disc f, k ∈ root_keys d ∧ k = observation_start id +:+ disc +:+ ":" +:+ f ∧ colon_free disc = true ∧
    p = observation_start id +:+ disc +:+ ":".
Proof.
  unfold observation_prefixes. rewrite elem_of_sort_dedup, list_elem_of_omap. split.
  - intros (k & Hk & Hs). apply bind_Some in Hs as (rest & ->%str_strip_Some & Hs).
    apply bind_Some in Hs as ((disc & f) & Hs & [= <-]). apply split_colon_Some in Hs as [-> Hf]. eauto 8.
  - intros (k & disc & f & Hk & -> & Hf & ->). eexists. split; [exact Hk|].
    rewrite str_strip_app. cbn [mbind option_bind]. by rewrite split_colon_app.
Qed.

Lemma owned_contact id l f : owned id l (contact_key id f) = true.
Proof.
  apply orb_true_iff. left. unfold contact_key. apply starts_with_spec. exists f. by rewrite !str_app_assoc.
Qed.
Lemma owned_alias id l s : s ∈ l → owned id l (ALIAS_PREFIX +:+ s) = true.
Proof.
  intros Hs. apply orb_true_iff. right. apply existsb_exists. exists s. split; [by apply list_elem_of_In|].
  by rewrite bool_decide_eq_true_2, orb_true_r.
Qed.
Lemma owned_observation id l s f : s ∈ l → owned id l (observation_start s +:+ f) = true.
Proof.
  intros Hs. apply orb_true_iff. right. apply existsb_exists. exists s. split; [by apply list_elem_of_In|].
  unfold observation_start. by rewrite starts_with_app.
Qed.

(** Deleting a contact removes it with everything it owned -- its registers, its
    observations and preferences, those of the contacts merged into it and their
    aliases -- and nothing else; a contact that does not exist is refused. *)
Theorem delete_leaves_nothing id d d' r : delete_contact id d = (d', r) →
  match r with
  | Ok _ => is_Some (contact d id) ∧ contact d' id = None ∧
      observation_sources d' id = [id] ∧ observations_of d' id = [] ∧ preferred_values d' id = [] ∧
      (∀ k, owned id (observation_sources d id) k = true → values d' k = []) ∧
      ∀ k, owned id (observation_sources d id) k = false → same_register d d' k
  | Err _ => d' = d ∧ contact d id = None
  end.
Proof.
  unfold delete_contact, require_contact. intros Hr. rewrite op_bind_assoc, bind_reading, bind_lift in Hr.
  destruct (contact d id) as [c|] eqn:Hc; [|by injection Hr as <- <-]. rewrite bind_reading in Hr.
  set (keys := filter _ _) in Hr. destruct (tx_deletes keys d) as (d1 & Hd & Hin & Hout). rewrite Hd in Hr. injection Hr as <- <-.
  set (own := owned id (observation_sources d id)) in *.
  assert (∀ k, own k = true → values d1 k = []) as Hgone.
  { intros k Hk. destruct (decide (k ∈ keys)) as [|Hn]; [by apply Hin|]. rewrite (same_values _ _ _ (Hout k Hn)).
    destruct (values d k) eqn:E; [done|]. destruct Hn. apply list_elem_of_filter. split; [done|].
    apply elem_of_root_keys. by rewrite E. }
  assert (∀ k, own k = false → same_register d d1 k) as Hsame.
  { intros k Hk. apply Hout. intros [Hk' _]%list_elem_of_filter. congruence. }
  assert (observation_sources d1 id = [id]) as Hsrc.
  { apply Permutation_singleton_r. unfold observation_sources. rewrite merge_sort_Permutation. apply perm_skip.
    apply Permutation_nil_r, elem_of_nil_inv. intros s Hs. apply list_elem_of_omap in Hs as (k & _ & Hs).
    apply bind_Some in Hs as (s' & ->%str_strip_Some & Hs). case_bool_decide as Hk; [|done].
    destruct (own (ALIAS_PREFIX +:+ s')) eqn:Ho.
    - rewrite (values_none _ _ (Hgone _ Ho)) in Hk. done.
    - rewrite (same_string _ _ _ (Hsame _ Ho)) in Hk. unfold own in Ho. rewrite owned_alias in Ho; [done|]. apply elem_of_sources. by right. }
  assert (observation_prefixes d1 id = []) as Hpre.
  { apply elem_of_nil_inv. intros p (k & disc & f & Hk & -> & _)%elem_of_prefixes. apply elem_of_root_keys in Hk as []. apply Hgone.
    apply owned_observation. apply elem_of_sources. by left. }
  assert (observations_of d1 id = []) as Hobs.
  { unfold observations_of. rewrite Hsrc. cbn [mbind list_bind]. by rewrite Hpre. }
  split_and!; [by eexists| |done|done| |done|done].
  - apply contact_none, Hgone, owned_contact.
  - unfold preferred_values. rewrite Hobs. simpl. apply elem_of_nil_inv. by intros x [Hx _]%list_elem_of_filter.
Qed.

(** *** An observation's registers spell it *)
(** The Rust types of its fields. *)
Record typed (o : Observation) : Prop := {
  typed_issuer b : o_issuer o = Some b → length b = 32%nat;
  typed_claimed t : claimed o = Some t → - 2 ^ 63 <= seconds t < 2 ^ 63 ∧ 0 <= nanos t < 2 ^ 32;
  typed_received : 0 <= received o < 2 ^ 64;
}.
Lemma nonempty_pretty (z : Z) : nonempty (pretty z) = true.
Proof.
  unfold nonempty. rewrite bool_decide_eq_false_2; [done|]. intros E.
  pose proof (parse_pretty z z z ltac:(lia)) as H. by rewrite E in H.
Qed.
Lemma read_written d p o : typed o →
  (∀ f s, (f, s) ∈ observation_fields o → root_string d (p +:+ f) = Some s) → read_observation d p = Some o.
Proof.
  intros [Hi Hc Hr] Hf. unfold read_observation, observation_fields in *.
  rewrite (Hf "present"%string "true"%string), (Hf "provenance"%string (show_provenance (provenance o))), (Hf "name"%string (o_name o)),
    (Hf "value"%string (o_value o)), (Hf "issuer"%string (hex_or_empty (o_issuer o))), (Hf "received"%string (pretty (received o))),
    (Hf "meeting"%string (o_meeting o)) by set_solver.
  erewrite (Hf "claimed-seconds"%string), (Hf "claimed-nanos"%string) by (rewrite !elem_of_cons; eauto 12).
  rewrite (bool_decide_eq_true_2 (Some "true"%string = Some "true"%string)) by done. cbn [negb].
  assert (Some (show_provenance (provenance o)) ≫= read_provenance = Some (provenance o)) as -> by by destruct (provenance o).
  change (Some (hex_or_empty (o_issuer o)) ≫= _) with (key_of (Some (hex_or_empty (o_issuer o)))). rewrite (key_of_hex _ Hi).
  cbn [mbind option_bind]. unfold parse_u64. rewrite parse_pretty by lia. cbn [default].
  assert ((if nonempty (match claimed o with Some t => pretty (seconds t) | None => ""%string end) then
     sec ← parse_i64 (match claimed o with Some t => pretty (seconds t) | None => ""%string end);
     ns ← parse_u32 (match claimed o with Some t => pretty (nanos t) | None => ""%string end); Some (mkTime sec ns) else None) = claimed o) as Hcl.
  { destruct (claimed o) as [[s n]|]; [|done]. destruct (Hc _ eq_refl) as [Hs Hn]. cbn [seconds nanos] in *. rewrite nonempty_pretty.
    unfold parse_i64, parse_u32. rewrite !parse_pretty by lia. done. }
  cbn [mbind option_bind] in Hcl. rewrite Hcl. by destruct o.
Qed.
Lemma first_spelling l seen p disc : (p, disc) ∈ l → disc ∉ seen → (∀ p', (p', disc) ∈ l → p' = p) →
  p ∈ first_spellings seen l.
Proof.
  revert seen. induction l as [|[p' disc'] l IH]; intros seen Hp Hs Hu; [by apply elem_of_nil in Hp|]. cbn [first_spellings].
  destruct (decide (disc' = disc)) as [->|Hne].
  - rewrite bool_decide_eq_false_2 by done. rewrite (Hu p') by set_solver. set_solver.
  - assert ((p, disc) ∈ l) as Hl by set_solver. case_bool_decide.
    + apply IH; set_solver.
    + apply elem_of_cons. right. apply IH; set_solver.
Qed.
Definition spelling (id disc : string) : string := observation_start id +:+ disc +:+ ":".
Lemma discriminator_spelling id disc : colon_free disc = true → discriminator id (spelling id disc) = Some disc.
Proof.
  intros Hf. unfold discriminator, spelling. rewrite str_strip_app. cbn [mbind option_bind].
  change (disc +:+ ":") with (disc +:+ ":" +:+ ""). by rewrite split_colon_app.
Qed.
Lemma spelling_field id disc f : spelling id disc +:+ f = observation_start id +:+ disc +:+ ":" +:+ f.
Proof. unfold spelling. by rewrite !str_app_assoc. Qed.
(** An observation that reads under a discriminator no alias spells is one of
    the contact's. *)
Lemma spelled_observation d id disc o : colon_free disc = true → read_observation d (spelling id disc) = Some o →
  (∀ s, s ∈ observation_sources d id → s ≠ id → spelling s disc ∉ observation_prefixes d s) →
  o ∈ observations_of d id.
Proof.
  intros Hf Ho Hu. unfold observations_of. rewrite merge_sort_Permutation, list_elem_of_omap.
  exists (spelling id disc). split; [|done]. apply (first_spelling _ _ _ disc); [|set_solver|].
  - apply list_elem_of_bind. exists id. split; [|apply elem_of_sources; by left]. apply list_elem_of_omap.
    exists (spelling id disc). split; [|by rewrite discriminator_spelling].
    assert (root_string d (spelling id disc +:+ "present") = Some "true"%string) as Hp.
    { unfold read_observation in Ho. case_bool_decide; done. }
    apply elem_of_prefixes. exists (spelling id disc +:+ "present"), disc, "present"%string.
    split_and!; [by eapply string_is_some|apply spelling_field|done|done].
  - intros p' (s & Hp & Hs)%list_elem_of_bind. apply list_elem_of_omap in Hp as (p & Hp & Hd).
    pose proof Hp as (k & disc' & f & _ & _ & Hf' & ->)%elem_of_prefixes.
    change (_ +:+ disc' +:+ ":") with (spelling s disc') in *. rewrite (discriminator_spelling _ _ Hf') in Hd. injection Hd as <- ->.
    destruct (decide (s = id)) as [->|Hne]; [done|]. by destruct (Hu s Hs Hne).
Qed.

(** What [write_observation] does to the registers. *)
Lemma write_observation_spec id o d d' r : write_observation id o d = (d', r) →
  match r with
  | Ok _ => is_Some (contact d id) ∧
      (∃ m, meeting d (o_meeting o) = Some m ∧ provenance_allowed o m = Ok ()) ∧
      (∀ f s, (f, s) ∈ observation_fields o →
        root_string d' (spelling id (observation_discriminator o) +:+ f) = Some s) ∧
      ∀ k, (∀ f, f ∈ OBS_FIELDS → k ≠ spelling id (observation_discriminator o) +:+ f) → same_register d d' k
  | Err _ => d' = d
  end.
Proof.
  unfold write_observation, require_contact. intros Hr. rewrite op_bind_assoc, bind_reading, bind_lift in Hr.
  destruct (contact d id) as [c|] eqn:Hc; [|by injection Hr as <- <-]. rewrite bind_lift in Hr.
  destruct (validate_claims _); [|by injection Hr as <- <-]. rewrite bind_reading, bind_lift in Hr.
  destruct (meeting d (o_meeting o)) as [m|] eqn:Hm; [|by injection Hr as <- <-]. cbn [ok_or] in Hr. rewrite bind_lift in Hr.
  destruct (provenance_allowed o m) as [[]|] eqn:Hp; [|by injection Hr as <- <-].
  set (disc := observation_discriminator o) in *.
  destruct (put_strings_spec ((λ q, (spelling id disc +:+ q.1, q.2)) <$> observation_fields o) d) as (d1 & Hd & Hin & Hout).
  { rewrite <- list_fmap_compose. change (NoDup (String.append (spelling id disc) <$> OBS_FIELDS)). apply NoDup_fmap_2; [apply _|].
    apply (bool_decide_unpack _). vm_compute. done. }
  change (put_strings _ d) with (put_strings ((λ q, (spelling id disc +:+ q.1, q.2)) <$> observation_fields o) d) in Hr.
  rewrite Hd in Hr. injection Hr as <- <-. split_and!; [by eexists|by exists m| |].
  - intros f s Hf. apply values_string, Hin, list_elem_of_fmap. by exists (f, s).
  - intros k Hk. apply Hout. intros (q & -> & Hq)%list_elem_of_fmap. apply list_elem_of_fmap in Hq as (q' & -> & Hq).
    apply (Hk q'.1); [|done]. change OBS_FIELDS with (observation_fields o).*1. by apply list_elem_of_fmap_2.
Qed.

(** A written observation reads back exactly, under a contact that exists and a
    meeting that permits its provenance, and nothing but its nine registers
    changes; unless an alias spells the same discriminator it is then among the
    contact's observations.  A refused one changes nothing. *)
Theorem written_observation_reads_back id o d d' r : typed o → write_observation id o d = (d', r) →
  match r with
  | Ok _ => is_Some (contact d id) ∧
      (∃ m, meeting d (o_meeting o) = Some m ∧ provenance_allowed o m = Ok ()) ∧
      read_observation d' (spelling id (observation_discriminator o)) = Some o ∧
      ((∀ s, s ∈ observation_sources d' id → s ≠ id → spelling s (observation_discriminator o) ∉ observation_prefixes d' s) →
        o ∈ observations_of d' id) ∧
      ∀ k, (∀ f, f ∈ OBS_FIELDS → k ≠ spelling id (observation_discriminator o) +:+ f) → same_register d d' k
  | Err _ => d' = d
  end.
Proof.
  intros Ht Hr. apply write_observation_spec in Hr. destruct r as [u|]; [|done]. destruct Hr as (Hc & Hm & Hf & Hout).
  assert (read_observation d' (spelling id (observation_discriminator o)) = Some o) as Hread by by apply read_written.
  split_and!; [done|done|done| |done]. apply spelled_observation; [apply hex_colon_free|done].
Qed.

(** ** Merging *)
Lemma contact_key_colon a f b g : colon_free a = true → colon_free b = true → contact_key a f = contact_key b g → a = b ∧ f = g.
Proof.
  intros Ha Hb H. unfold contact_key in H. apply (inj _) in H. pose proof (split_colon_app a f Ha) as E.
  rewrite H, split_colon_app in E by done. injection E as -> ->. done.
Qed.
Lemma contact_prefix id k : starts_with k ("contact:" +:+ id +:+ ":") = true ↔ ∃ f, k = contact_key id f.
Proof.
  rewrite starts_with_spec. unfold contact_key. split; intros [f ->]; exists f; by rewrite !str_app_assoc.
Qed.
Lemma set_label_spec id pn gl d : is_Some (contact d id) → ∃ d', set_label id pn gl d = (d', Ok ()) ∧
  root_string d' (contact_key id "petname") = Some pn ∧ root_string d' (contact_key id "glyph") = Some gl ∧
  ∀ k, k ≠ contact_key id "petname" → k ≠ contact_key id "glyph" → same_register d d' k.
Proof.
  intros [c Hc]. unfold set_label, require_contact.
  destruct (put_strings_spec (at_contact id <$> [("petname", pn); ("glyph", gl)]%string) d) as (d' & Hd & Hin & Hout).
  { apply NoDup_at_contact. apply (bool_decide_unpack _). vm_compute. done. }
  exists d'. rewrite op_bind_assoc, bind_reading, bind_lift, Hc. split_and!.
  - exact Hd.
  - apply values_string, Hin. set_solver.
  - apply values_string, Hin. set_solver.
  - intros k H1 H2. apply Hout. set_solver.
Qed.
Lemma contact_fields d id c : contact d id = Some c →
  contact_id c = id ∧ contact_key32 c = key_of (root_string d (contact_key id "public-key")) ∧
  petname c = default EmptyString (root_string d (contact_key id "petname")) ∧
  glyph c = default EmptyString (root_string d (contact_key id "glyph")).
Proof. unfold contact. destruct (negb _); [done|]. by intros [= <-]. Qed.
Lemma merge_label d d1 into target pn gl : contact d into = Some target → (∀ f, same_register d d1 (contact_key into f)) →
  is_Some (contact d1 into) →
  (negb (nonempty (petname target)) || negb (nonempty (glyph target)) = false → pn = petname target ∧ gl = glyph target) →
  ∃ d2, (if negb (nonempty (petname target)) || negb (nonempty (glyph target)) then set_label into pn gl else mret ()) d1
      = (d2, Ok ()) ∧
    (∀ k, k ≠ contact_key into "petname" → k ≠ contact_key into "glyph" → same_register d1 d2 k) ∧
    default EmptyString (root_string d2 (contact_key into "petname")) = pn ∧
    default EmptyString (root_string d2 (contact_key into "glyph")) = gl.
Proof.
  intros Ht Hsame Hc Hl. destruct (_ || _).
  - destruct (set_label_spec into pn gl d1 Hc) as (d2 & H2 & Hp & Hg & Ho). exists d2. by rewrite Hp, Hg.
  - exists d1. destruct (Hl eq_refl) as [-> ->]. rewrite !(same_string _ _ _ (Hsame _)).
    by destruct (contact_fields _ _ _ Ht) as (_ & _ & ? & ?).
Qed.

(** Merging a contact without a key into one with a key removes the first,
    leaves the second with its key and with its own names where it had them,
    makes the first an alias whose observations are read as the second's, and
    touches no other register; in particular no observation and no preference is
    rewritten.  Any other merge is refused and changes nothing. *)
Theorem merge_keeps_observations keyless into d d' r : colon_free keyless = true → colon_free into = true →
  merge_contacts keyless into d = (d', r) →
  match r with
  | Ok _ => ∃ source target merged, contact d keyless = Some source ∧ contact d into = Some target ∧
      contact_key32 source = None ∧ is_Some (contact_key32 target) ∧
      contact d' keyless = None ∧ contact d' into = Some merged ∧ contact_key32 merged = contact_key32 target ∧
      petname merged = (if nonempty (petname target) then petname target else petname source) ∧
      glyph merged = (if nonempty (glyph target) then glyph target else glyph source) ∧
      keyless ∈ observation_sources d' into ∧
      ∀ k, k ≠ ALIAS_PREFIX +:+ keyless → (∀ f, k ≠ contact_key keyless f) →
        k ≠ contact_key into "petname" → k ≠ contact_key into "glyph" → same_register d d' k
  | Err _ => d' = d
  end.
Proof.
  intros Hf1 Hf2. unfold merge_contacts. intros Hr. rewrite bind_reading, bind_lift in Hr.
  destruct (contact d keyless) as [source|] eqn:Hs; [|by injection Hr as <- <-]. cbn [ok_or] in Hr.
  rewrite bind_reading, bind_lift in Hr. destruct (contact d into) as [target|] eqn:Ht; [|by injection Hr as <- <-].
  cbn [ok_or] in Hr. case_bool_decide as Hk1; [by injection Hr as <- <-|].
  case_bool_decide as Hk2; [by injection Hr as <- <-|]. cbn [orb] in Hr.
  assert (keyless ≠ into) as Hne.
  { intros ->. rewrite Hs in Ht. injection Ht as <-. by apply Hk1, not_eq_None_Some. }
  destruct (tx_puts [(ALIAS_PREFIX +:+ keyless, Str into)] d ltac:(by apply NoDup_singleton)) as (d1 & Hd1 & Hin1 & Hout1).
  unfold mbind, op_bind in Hr. rewrite Hd1 in Hr.
  set (pn := if nonempty (petname target) then _ else _) in *. set (gl := if nonempty (glyph target) then _ else _) in *.
  assert (is_Some (contact d1 into)) as Hc1.
  { apply contact_is_some. erewrite same_string; [apply contact_is_some; by eexists|]. apply Hout1.
    by intros ?%list_elem_of_singleton. }
  assert (∀ f, same_register d d1 (contact_key into f)) as Hsame1.
  { intros f. apply Hout1. by intros ?%list_elem_of_singleton. }
  destruct (merge_label d d1 into target pn gl) as (d2 & Hd2 & Hout2 & Hpn & Hgl); [done|done|done| |].
  { intros E%orb_false_iff. destruct E as [E1%negb_false_iff E2%negb_false_iff]. unfold pn, gl. by rewrite E1, E2. }
  rewrite Hd2 in Hr. cbn [reading] in Hr. set (keys := filter _ _) in Hr.
  destruct (tx_deletes keys d2) as (d3 & Hd3 & Hin3 & Hout3). unfold reading in Hr. rewrite Hd3 in Hr. injection Hr as <- <-.
  assert (∀ k, (∀ f, k ≠ contact_key keyless f) → same_register d2 d3 k) as Hsame3.
  { intros k Hk. apply Hout3. intros [[f Hf]%contact_prefix _]%list_elem_of_filter. by apply (Hk f). }
  assert (∀ f, same_register d2 d3 (contact_key into f)) as Hinto.
  { intros f. apply Hsame3. intros f' [E _]%contact_key_colon; [by apply Hne|done..]. }
  assert (∀ f, f ≠ "petname"%string → f ≠ "glyph"%string → same_register d d3 (contact_key into f)) as Hkeep.
  { intros f Hf1' Hf2'. eapply same_trans; [apply Hsame1|]. eapply same_trans; [|apply Hinto].
    apply Hout2; by intros ?%contact_key_inj. }
  assert (is_Some (contact d3 into)) as [merged Hm].
  { apply contact_is_some. rewrite (same_string _ _ _ (Hkeep "exists"%string ltac:(done) ltac:(done))).
    apply contact_is_some. by eexists. }
  destruct (contact_fields _ _ _ Hm) as (_ & Hm1 & Hm2 & Hm3), (contact_fields _ _ _ Ht) as (_ & Ht1 & _ & _).
  exists source, target, merged. split_and!; try done.
  - by apply eq_None_not_Some.
  - by apply not_eq_None_Some.
  - apply contact_none. destruct (decide (contact_key keyless "exists" ∈ keys)) as [|Hn]; [by apply Hin3|].
    destruct (values d3 _) eqn:E; [done|]. rewrite (same_values _ _ _ (Hout3 _ Hn)) in E. destruct Hn.
    apply list_elem_of_filter. split; [by apply contact_prefix; eexists|]. apply elem_of_root_keys. by rewrite E.
  - rewrite Hm1, Ht1. by rewrite (same_string _ _ _ (Hkeep "public-key"%string ltac:(done) ltac:(done))).
  - by rewrite Hm2, (same_string _ _ _ (Hinto _)).
  - by rewrite Hm3, (same_string _ _ _ (Hinto _)).
  - apply elem_of_sources. right. rewrite (same_string d2 d3) by by apply Hsame3.
    rewrite (same_string d1 d2) by by apply Hout2. apply values_string, Hin1, list_elem_of_singleton. done.
  - intros k H1 H2 H3 H4. eapply same_trans; [apply Hout1; by intros ?%list_elem_of_singleton|].
    eapply same_trans; [by apply Hout2|by apply Hsame3].
Qed.

(** ** The self profile *)
Lemma root_identity_same d d' : same_register d d' ROOT_BINDING → root_binding d' = root_binding d ∧ root_identity d' = root_identity d.
Proof.
  intros Hs. assert (root_binding d' = root_binding d) as E by (unfold root_binding; by rewrite (same_bytes _ _ _ Hs)).
  split; [done|]. unfold root_identity. by rewrite E.
Qed.
Lemma write_self_profile_spec p d d' r : write_self_profile p d = (d', r) →
  match r with
  | Ok _ => ∃ root its, root_identity d = Some root ∧ verify_profile p = Ok its ∧ subject its = root ∧ issuer its = root ∧
      values d' SELF_PROFILE = [Scalar (Bytes p)] ∧ ∀ k, k ≠ SELF_PROFILE → same_register d d' k
  | Err _ => d' = d
  end.
Proof.
  unfold write_self_profile. rewrite bind_reading, bind_lift.
  destruct (root_identity d) as [root|]; [|by intros [= <- <-]]. cbn [ok_or]. rewrite bind_lift.
  destruct (verify_profile p) as [its|] eqn:Hp; [|by intros [= <- <-]].
  destruct (_ || _) eqn:E; [by intros [= <- <-]|].
  apply orb_false_iff in E as [E1%negb_false_iff%bool_decide_eq_true E2%negb_false_iff%bool_decide_eq_true].
  destruct (tx_puts [(SELF_PROFILE, Bytes p)] d ltac:(by apply NoDup_singleton)) as (d1 & Hd & Hin & Hout).
  rewrite Hd. intros [= <- <-]. exists root, its. split_and!; try done.
  - apply Hin. by apply list_elem_of_singleton.
  - intros k Hk. apply Hout. by intros ?%list_elem_of_singleton.
Qed.
Lemma self_profile_one d root b p its : root_identity d = Some root → root_binding d = Some b →
  values d SELF_PROFILE = [Scalar (Bytes p)] → verify_profile p = Ok its → subject its = root → issuer its = root →
  self_profile d = Some (mkSelf root b [p]).
Proof.
  intros Hr Hb Hv Hp Hs Hi. unfold self_profile. rewrite Hr, Hb. cbn [mbind option_bind]. do 2 f_equal.
  unfold values in Hv. destruct (get_all (read d) ROOT SELF_PROFILE) as [|[v x] []]; try done. injection Hv as ->.
  cbn [omap list_omap to_bytes mbind option_bind fst]. unfold profile_from_bytes. rewrite Hp. cbn [mbind result_bind ok option_bind].
  rewrite filter_cons_True by (unfold own_profile; by rewrite Hp, !bool_decide_eq_true_2). rewrite filter_nil. apply sort_dedup_one.
Qed.

(** Resolving the self profile replaces every concurrent variant by one freshly
    signed profile, and only by the holder of the established root, and only
    from the exact variants the caller saw; anything else is refused and
    changes nothing. *)
Theorem resolve_replaces seed expected l d d' r : resolve_self_profile seed expected l d = (d', r) →
  match r with
  | Ok signed => sign_profile seed l = Ok signed ∧
      (∃ its, verify_profile signed = Ok its ∧ subject its = verifying_key seed ∧ issuer its = verifying_key seed) ∧
      (∃ s, self_profile d = Some s ∧ variants s = sort_dedup expected ∧
        self_profile d' = Some (mkSelf (verifying_key seed) (self_binding s) [signed])) ∧
      ∀ k, k ≠ SELF_PROFILE → same_register d d' k
  | Err _ => d' = d
  end.
Proof.
  unfold resolve_self_profile. rewrite bind_reading, bind_lift.
  destruct (root_identity d) as [root|] eqn:Hroot; [|by intros [= <- <-]]. cbn [ok_or].
  case_bool_decide as Hk; [|by intros [= <- <-]]. cbn [negb]. rewrite bind_reading, bind_lift.
  destruct (self_profile d) as [s|] eqn:Hs; [|by intros [= <- <-]]. cbn [ok_or].
  case_bool_decide as Hv; [|by intros [= <- <-]]. cbn [negb]. rewrite bind_lift.
  destruct (sign_profile seed l) as [signed|] eqn:Hsign; [|by intros [= <- <-]]. unfold mbind at 1, op_bind.
  destruct (write_self_profile signed d) as [d1 [[]|e]] eqn:Hw; apply write_self_profile_spec in Hw; [|by intros [= <- <-]].
  intros [= <- <-]. destruct Hw as (root' & its & Hroot' & Hp & H1 & H2 & Hval & Hout).
  assert (root' = root) as -> by congruence. subst root.
  destruct (root_identity_same d d1) as [Eb Ei]; [by apply Hout|].
  split_and!; [done|by exists its| |done]. exists s. split_and!; [done|done|].
  unfold self_profile in Hs. rewrite Hroot in Hs. cbn [mbind option_bind] in Hs.
  apply bind_Some in Hs as (b & Hb & [= <-]). cbn [self_binding].
  eapply self_profile_one; [by rewrite Ei|by rewrite Eb|done..].
Qed.
End Facts.

(** ** Imported lists *)
Section Imported.
Context {EdI : Ed25519} {SigI : Signatures}.
Context (from_slice : bytes → option (list (option string * list Claim))).
(** What an unsigned list imports to is bounded and checked: no more rows than
    an introduction may have, in the order read, each with its own index,
    claims within their bounds, and a key that is absent or a usable public key
    spelled by the row. *)
Theorem imported_rows_checked b l : parse_unsigned_import from_slice b = Ok l →
  Z.of_nat (length b) <= MAX_SIGNED_BYTES ∧ (length l <= MAX_PARTIES)%nat ∧
  ∃ rows, from_slice b = Some rows ∧ length rows = length l ∧
  ∀ i p, l !! i = Some p → ∃ key, rows !! i = Some (key, review_claims p) ∧ review_index p = Z.of_nat i ∧
    validate_claims (review_claims p) = Ok () ∧
    match key with
    | Some s => ∃ k, review_key p = Some k ∧ decode_hex32 s = Ok k ∧ strong k
    | None => review_key p = None
    end.
Proof.
  unfold parse_unsigned_import. intros ([] & Hb & H)%bind_Ok. apply bind_Ok in H as (rows & Hr & H).
  unfold bounded in Hb. destruct (Z.leb_spec (Z.of_nat (length b)) MAX_SIGNED_BYTES) as [Hle|]; [|done].
  destruct (Nat.ltb_spec MAX_PARTIES (length rows)) as [|Hn]; [done|].
  destruct (from_slice b) as [rows'|]; [|done]. injection Hr as ->.
  assert (Forall2 (λ x y, import_row x = Ok y) (imap pair rows) l) as Hf by by apply mapM_Ok.
  pose proof (Forall2_length _ _ _ Hf) as Hlen. rewrite length_imap in Hlen.
  split_and!; [done|lia|]. exists rows. split_and!; [done|done|]. intros i p Hp.
  destruct (Forall2_lookup_r _ _ _ _ _ Hf Hp) as ([j [key c]] & Hx & Hrow).
  rewrite list_lookup_imap in Hx. apply fmap_Some in Hx as ([key' c'] & Hx & [= -> -> ->]).
  cbn [import_row] in Hrow. apply bind_Ok in Hrow as ([] & Hc & Hrow). apply bind_Ok in Hrow as (k & Hk & [= <-]).
  exists key'. split_and!; [done|done|done|]. cbn [review_key]. destruct key' as [s|]; [|by injection Hk as <-].
  apply bind_Ok in Hk as (k' & Hd & Hk). apply bind_Ok in Hk as (k'' & (-> & Hk)%valid_key_Ok & [= <-]). by exists k'.
Qed.
End Imported.

(** ** Concrete documents *)
Module Concrete.
Import Crypto.Toy ToySigned.
#[local] Existing Instances History.Toy.automerge History.Toy.laws History.Toy.graph.
Abbreviation op := (Registers.op (A := History.Toy.adoc)).
(** A checksum in place of SHA-256. *)
Definition sum (b : bytes) : bytes := replicate 32 (byte_of (foldl (λ acc x, (acc * 31 + u8 x) mod 257) 7 b mod 256)).
Lemma length_sum b : length (sum b) = 32%nat.
Proof. apply length_replicate. Qed.
#[local] Instance checksum : Sha256 := {| sha256 := sum; length_sha256 := length_sum |}.
Definition start : Document History.Toy.adoc := mkDocument (new (C := nat * nat)) [] ∅ [].
Definition after {X} (m : op X) (d : Document History.Toy.adoc) : Document History.Toy.adoc := (m d).1.
Definition answer {X} (m : op X) (d : Document History.Toy.adoc) : result string X := (m d).2.
Definition ada_binding : bytes := sign_root_binding ada (replicate 32 (byte_of 9)).
Definition bound := after (bind_root ada_binding) start.
Definition named := after (write_self_profile ada_profile) bound.
Definition bob_key : bytes := replicate 32 (byte_of 5).
Definition bob := create_contact (C := nat * nat) (Some bob_key) "bob" "" [byte_of 1].
Definition with_bob := after bob named.
Definition bobby := create_contact (C := nat * nat) None "bobby" "*" [byte_of 2].
Definition with_both := after bobby with_bob.
Definition bob_id : string := Eval vm_compute in match answer bob named with Ok i => i | Err e => e end.
Definition bobby_id : string := Eval vm_compute in match answer bobby with_bob with Ok i => i | Err e => e end.
Definition met := create_meeting (C := nat * nat) "in person" "" None 7 false [byte_of 3].
Definition with_meeting := after met with_both.
Definition met_id : string := Eval vm_compute in match answer met with_both with Ok i => i | Err e => e end.
Definition seen : Observation := mkObservation "city" "Lyon" Local None None 12 met_id.
Definition observed := after (write_observation bobby_id seen) with_meeting.
Definition merged := after (merge_contacts bobby_id bob_id) observed.
Lemma imported_rows_checked_witness :
  parse_unsigned_import (λ _, Some [(Some (hex bob_key), [mkClaim "met" "Lyon"]); (None, [])]) [] =
    Ok [mkReview 0 (Some bob_key) [mkClaim "met" "Lyon"]; mkReview 1 None []] ∧ (2 <= MAX_PARTIES)%nat.
Proof.
  assert (parse_unsigned_import (λ _, Some [(Some (hex bob_key), [mkClaim "met" "Lyon"]); (None, [])]) [] =
    Ok [mkReview 0 (Some bob_key) [mkClaim "met" "Lyon"]; mkReview 1 None []]) as Hr by (vm_compute; reflexivity).
  split; [exact Hr|]. exact (proj1 (proj2 (imported_rows_checked _ [] _ Hr))).
Defined.
Lemma ran {X} (m : op X) d r : answer m d = r → m d = (after m d, r).
Proof. unfold answer, after. intros <-. apply surjective_pairing. Qed.
Lemma bind_root_once_run : bind_root ada_binding start = (bound, Ok true).
Proof. apply (ran (bind_root ada_binding) start). vm_compute. reflexivity. Qed.
Lemma created_contact_reads_back_run : bob named = (with_bob, Ok bob_id).
Proof. apply (ran bob named). vm_compute. reflexivity. Qed.
Lemma written_observation_reads_back_run : write_observation bobby_id seen with_meeting = (observed, Ok ()).
Proof. apply (ran (write_observation bobby_id seen) with_meeting). vm_compute. reflexivity. Qed.
Lemma merge_keeps_observations_run : merge_contacts bobby_id bob_id observed = (merged, Ok ()).
Proof. apply (ran (merge_contacts bobby_id bob_id) observed). vm_compute. reflexivity. Qed.
Lemma delete_leaves_nothing_run : delete_contact bob_id merged = (after (delete_contact bob_id) merged, Ok ()).
Proof. apply (ran (delete_contact bob_id) merged). vm_compute. reflexivity. Qed.
Definition nameless : bytes := match sign_profile ada [] with Ok b => b | Err _ => [] end.
Lemma resolve_replaces_run : resolve_self_profile ada [ada_profile] [] named = (after (resolve_self_profile ada [ada_profile] []) named, Ok nameless).
Proof. apply (ran (resolve_self_profile ada [ada_profile] []) named). vm_compute. reflexivity. Qed.
Lemma seen_typed : typed seen.
Proof. split; [done|done|]. vm_compute. by split. Qed.
Lemma bind_root_once_witness : root_binding start = None ∧ root_binding bound = Some ada_binding.
Proof.
  pose proof bind_root_once_run as Hr.
  pose proof (bind_root_once ada_binding start bound (Ok true) Hr) as (H1 & _ & H2 & _). by split.
Defined.
Lemma created_contact_reads_back_witness : ∃ c, contact with_bob bob_id = Some c ∧ contact_key32 c = Some bob_key ∧ petname c = "bob"%string.
Proof.
  pose proof created_contact_reads_back_run as Hr.
  destruct (created_contact_reads_back (Some bob_key) "bob" "" [byte_of 1] named with_bob (Ok bob_id)) as (_ & _ & (c & H) & _);
    [by intros b [= <-]|exact Hr|]. exists c. split_and!; apply H.
Defined.
Lemma written_observation_reads_back_witness : read_observation observed (spelling bobby_id (observation_discriminator seen)) = Some seen.
Proof.
  pose proof written_observation_reads_back_run as Hr.
  destruct (written_observation_reads_back bobby_id seen with_meeting observed (Ok ())) as (_ & _ & H & _); [exact seen_typed|exact Hr|exact H].
Defined.
Lemma merge_keeps_observations_witness :
  contact merged bobby_id = None ∧ bobby_id ∈ observation_sources merged bob_id.
Proof.
  pose proof merge_keeps_observations_run as Hr.
  destruct (merge_keeps_observations bobby_id bob_id observed merged (Ok ())) as (s & t & m & H); [done|done|exact Hr|].
  split; apply H.
Defined.
Lemma delete_leaves_nothing_witness :
  observations_of merged bob_id = [seen] ∧ observations_of (after (delete_contact bob_id) merged) bob_id = [].
Proof.
  pose proof delete_leaves_nothing_run as Hr.
  pose proof (delete_leaves_nothing bob_id merged _ (Ok ()) Hr) as (_ & _ & _ & H & _). split; [vm_compute; reflexivity|exact H].
Defined.
Lemma resolve_replaces_witness :
  ∃ s, self_profile (after (resolve_self_profile ada [ada_profile] []) named) = Some s ∧ variants s = [nameless].
Proof.
  pose proof resolve_replaces_run as Hr.
  destruct (resolve_replaces ada [ada_profile] [] named _ (Ok nameless) Hr) as (_ & _ & (s & _ & _ & H) & _).
  eexists. split; [exact H|reflexivity].
Defined.
End Concrete.
