(* ===== verification/ContactsGroups.v ===== *)
(** * One group per root ([contacts-model]: [persist_verified_introduction])

    A root key is accepted for one group: the invariant over the documents an
    introduction is kept in, carried through every write of the operation, also
    when it fails halfway. *)
From S2P Require Import Prelude BTree Text Crypto Codes Automerge History Registers ContactsWire Contacts ContactsFacts.

Section Groups.
Context {EdI : Ed25519} {SigI : Signatures} {ShaI : Sha256}.
Context {MsgS : Message Proto.Signed} {MsgB : Message Proto.RootBinding} {MsgP : Message Proto.Profile}
  {MsgA : Message Proto.AuthenticatedIdentity}.
Context {A Oid C : Type} {AM : Automerge A Oid} {CG : ChangeGraph A C} {ML : MapLaws A Oid} {CV : CommitView A Oid C}.
Implicit Types d : Document A.

(** What the stored retained identity [b] says of a root. *)
Definition retains (b : bytes) (r : RootBinding) : Prop :=
  ∃ i, identity_of b = Some i ∧ verify_root_binding (binding i) = Ok r.
(** The bindings a document has accepted: its own, and its contacts'. *)
Definition accepted d (r : RootBinding) : Prop :=
  (∃ b, b ∈ all_root_bytes d ROOT_BINDING ∧ verify_root_binding b = Ok r) ∨
  ∃ id b, id ∈ contact_ids d ∧ b ∈ all_root_bytes d (contact_key id "retained-identity") ∧ retains b r.
Definition one_group d : Prop := ∀ r r', accepted d r → accepted d r' → root r = root r' → group r = group r'.
(** No retained identity outlives its contact. *)
Definition no_orphans d : Prop := ∀ id, colon_free id = true →
  values d (contact_key id "retained-identity") ≠ [] → values d (contact_key id "exists") ≠ [].

Lemma elem_of_contact_ids d id : id ∈ contact_ids d ↔ colon_free id = true ∧ values d (contact_key id "exists") ≠ [].
Proof.
  unfold contact_ids. rewrite elem_of_sort_dedup, list_elem_of_omap. split.
  - intros (k & Hk & Hs). apply bind_Some in Hs as (rest & ->%str_strip_Some & Hs).
    apply bind_Some in Hs as ((i & f) & [-> Hf]%split_colon_Some & Hs). case_bool_decide as Hx; [|done].
    injection Hs as ->. split; [done|]. subst f. by apply elem_of_root_keys in Hk.
  - intros [Hf Hv]. exists (contact_key id "exists"). split; [by apply elem_of_root_keys|].
    unfold contact_key. rewrite str_strip_app. cbn [mbind option_bind]. by rewrite split_colon_app.
Qed.
Lemma all_bytes_values d k b : b ∈ all_root_bytes d k → values d k ≠ [].
Proof.
  unfold all_root_bytes, values. rewrite elem_of_list_to_set, list_elem_of_omap. intros (x & Hx & _) E%fmap_nil_inv.
  rewrite E in Hx. by apply elem_of_nil in Hx.
Qed.

(** ** The check *)
Lemma elem_of_groups_of d k b g : g ∈ groups_of d k b ↔ ∃ r, verify_root_binding b = Ok r ∧ root r = k ∧ group r = g.
Proof.
  unfold groups_of. destruct (verify_root_binding b) as [r|]; [|split; [by intros ?%elem_of_nil|by intros (? & ? & _)]].
  case_bool_decide as Hr; [rewrite list_elem_of_singleton|rewrite elem_of_nil].
  - split; [intros ->; by exists r|by intros (? & [= <-] & _ & <-)].
  - split; [done|by intros (? & [= <-] & ? & _)].
Qed.
(** An identity that passes belongs to the group its root is accepted for. *)
Lemma unique_group d i u r c : ensure_unique_root_group d i = Ok u → verify_root_binding (binding i) = Ok c →
  accepted d r → root r = root c → group r = group c.
Proof.
  unfold ensure_unique_root_group. intros H Hc Ha Hr. rewrite Hc in H. cbn [mbind result_bind] in H.
  destruct (_ && _); [done|]. destruct (existsb _ (_ ++ _)) eqn:E; [done|].
  assert (group r ∈ (btree_elems (all_root_bytes d ROOT_BINDING) ≫= groups_of d (root c)) ++
    (contact_ids d ≫= λ id, btree_elems (all_root_bytes d (contact_key id "retained-identity")) ≫= λ b,
      match identity_of b with Some i => groups_of d (root c) (binding i) | None => [] end)) as Hin.
  { apply elem_of_app. destruct Ha as [(b & Hb & Hv)|(id & b & Hid & Hb & j & Hj & Hv)].
    - left. apply list_elem_of_bind. exists b. rewrite elem_of_groups_of, elem_of_btree_elems. eauto.
    - right. apply list_elem_of_bind. exists id. split; [|done]. apply list_elem_of_bind. exists b.
      rewrite elem_of_btree_elems, Hj, elem_of_groups_of. eauto. }
  apply not_true_iff_false in E. destruct (decide (group r = group c)) as [|Hne]; [done|]. destruct E.
  apply existsb_exists. exists (group r). split; [by apply list_elem_of_In|]. by rewrite bool_decide_eq_false_2.
Qed.
Lemma check_groups_each l d : check_groups l d = Ok () → ∀ i, i ∈ l → ensure_unique_root_group d i = Ok ().
Proof.
  induction l as [|i l IH]; intros H j; [by intros ?%elem_of_nil|]. cbn [check_groups] in H.
  destruct (ensure_unique_root_group d i) as [[]|] eqn:E; [|done]. intros [->|Hj]%elem_of_cons; [done|]. by apply IH.
Qed.

(** ** The invariant while an introduction is kept *)
Context (allowed : RootBinding → Prop).
Definition within d : Prop := no_orphans d ∧ ∀ r, accepted d r → allowed r.
(** Every write that leaves the document's own bindings and the contacts alone,
    or keeps an allowed identity at a contact that exists, keeps the invariant. *)
Lemma within_step d d' : within d → same_register d d' ROOT_BINDING →
  (∀ id, colon_free id = true → values d (contact_key id "exists") ≠ [] → values d' (contact_key id "exists") ≠ []) →
  (∀ id, colon_free id = true → same_register d d' (contact_key id "retained-identity") ∨
     (values d' (contact_key id "exists") ≠ [] ∧
      ∀ b r, b ∈ all_root_bytes d' (contact_key id "retained-identity") → retains b r → allowed r)) →
  within d'.
Proof.
  intros [Ho Ha] Hroot Hex Hret. split.
  - intros id Hf Hv. destruct (Hret id Hf) as [Hs|[Hs _]]; [|done]. apply Hex, Ho; [done..|].
    by rewrite <- (same_values _ _ _ Hs).
  - intros r [(b & Hb & Hv)|(id & b & [Hf Hid]%elem_of_contact_ids & Hb & Hr)].
    + apply Ha. left. exists b. by rewrite <- (same_bytes _ _ _ Hroot).
    + destruct (Hret id Hf) as [Hs|[_ Hs]]; [|by eapply Hs]. apply Ha. right. exists id, b.
      rewrite <- (same_bytes _ _ _ Hs), elem_of_contact_ids. split_and!; [done| |done|done].
      apply Ho; [done|]. eapply all_bytes_values. by rewrite <- (same_bytes _ _ _ Hs).
Qed.
Lemma within_frame d d' : within d → same_register d d' ROOT_BINDING → (∀ id f, same_register d d' (contact_key id f)) → within d'.
Proof.
  intros Hw Hr Hc. apply (within_step d); [done..| |by left]. intros id Hf. by rewrite (same_values _ _ _ (Hc id _)).
Qed.

(** An operation that keeps the invariant, from where it starts to what it
    answers; it may fail anywhere. *)
Abbreviation op := (Registers.op (A := A)).
Definition keeps {X} (P : Document A → Prop) (m : op X) (Q : X → Document A → Prop) : Prop := ∀ d, within d → P d →
  within (m d).1 ∧ match (m d).2 with Ok x => Q x (m d).1 | Err _ => True end.
Definition anywhere (d : Document A) : Prop := True.
Lemma keeps_run {X} (m : op X) P Q d d' r : keeps P m Q → within d → P d → m d = (d', r) → within d'.
Proof. intros Hm Hw HP Hr. destruct (Hm d Hw HP) as [H _]. by rewrite Hr in H. Qed.
Definition alive (id : string) d : Prop := colon_free id = true ∧ values d (contact_key id "exists") ≠ [].
Lemma keeps_ret {X} (x : X) P (Q : X → Document A → Prop) : (∀ d, P d → Q x d) → keeps P (mret x) Q.
Proof. intros HQ d Hw HP. split; [done|]. by apply HQ. Qed.
Lemma keeps_lift {X} (r : result string X) P : keeps P (lift r) (λ _, P).
Proof. intros d Hw. split; [done|]. by destruct r. Qed.
Lemma keeps_bind {X Y} (m : op X) (f : X → op Y) P Q R :
  keeps P m Q → (∀ x, keeps (Q x) (f x) R) → keeps P (m ≫= f) R.
Proof.
  intros Hm Hf d Hw HP. destruct (Hm d Hw HP) as [H1 H2]. unfold mbind, op_bind. destruct (m d) as [d' [x|e]]; [by apply Hf|done].
Qed.
Lemma keeps_reading {X Y} (f : Document A → X) (g : X → op Y) (P : Document A → Prop) Q R :
  (∀ d, P d → Q (f d) d) → (∀ x, keeps (Q x) (g x) R) → keeps P (reading f ≫= g) R.
Proof. intros Hf Hg d Hw HP. rewrite bind_reading. apply Hg; [done|]. by apply Hf. Qed.

Lemma keeps_create_contact key pn gl e P : keeps P (create_contact (C := C) key pn gl e) alive.
Proof.
  intros d Hw _. destruct (create_contact key pn gl e d) as [d' [id|x]] eqn:Hc; apply create_contact_spec in Hc; [|by subst d'].
  destruct Hc as (-> & _ & Hin & Hout). cbn [fst snd]. set (id := local_id _ _ _) in *.
  assert (colon_free id = true) as Hid by apply hex_colon_free.
  assert (values d' (contact_key id "exists") ≠ []) as Hex.
  { rewrite (Hin "exists"%string "true"%string); [done|unfold contact_fields_of; set_solver]. }
  split; [|done]. apply (within_step d); [done| | |].
  - apply Hout. by intros f _.
  - intros i Hi Hv. destruct (decide (i = id)) as [->|Hne]; [done|].
    erewrite same_values; [exact Hv|]. apply Hout. by intros f _ [E _]%contact_key_colon.
  - intros i Hi. left. apply Hout. intros f Hf [_ E]%contact_key_colon; [|done..]. subst f.
    cbn in Hf. set_solver.
Qed.
(** Writing meetings and observations. *)
Lemma keeps_frame {X} (m : op X) P :
  (∀ d d' r, m d = (d', r) → ∀ k, (∀ f, k ≠ "meeting:" +:+ f) → (∀ f, k ≠ "observation:" +:+ f) → same_register d d' k) →
  keeps P m (λ _, anywhere).
Proof.
  intros Hm d Hw _. destruct (m d) as [d' r] eqn:E. split; [|by destruct r].
  apply (within_frame d); [done|by apply (Hm _ _ _ E)|]. intros id f. by apply (Hm _ _ _ E).
Qed.
Lemma keeps_create_meeting mt s k o v e P : keeps P (create_meeting (C := C) mt s k o v e) (λ _, anywhere).
Proof.
  apply keeps_frame. intros d d' r. unfold create_meeting. rewrite bind_reading. set (id := local_id _ _ _).
  set (l := [(meeting_key id "method", mt); _; _; _; _]).
  destruct (put_strings_spec l d) as (d1 & Hd & _ & Hout).
  { change (NoDup (meeting_key id <$> ["method"; "source"; "source-key"; "occurred"; "verified"]%string)).
    apply NoDup_fmap_2; [|apply (bool_decide_unpack _); by vm_compute]. unfold meeting_key. intros f g E. by do 3 apply (inj _) in E. }
  unfold mbind, op_bind. rewrite Hd. intros [= <- <-] k' Hm _. apply Hout. unfold l. cbn [fmap list_fmap fst]. rewrite !elem_of_cons, elem_of_nil.
  unfold meeting_key in *. intros E. repeat (destruct E as [E|E]; [by apply Hm in E|]). done.
Qed.
Lemma keeps_write_observation id o P : keeps P (write_observation id o) (λ _, anywhere).
Proof.
  apply keeps_frame. intros d d' r Hr k _ Ho. apply write_observation_spec in Hr. destruct r; [|by subst d'].
  destruct Hr as (_ & _ & _ & Hout). apply Hout. intros f _ ->. eapply Ho. unfold spelling, observation_start.
  by rewrite <- !str_app_assoc.
Qed.
Lemma keeps_persist_claims issuer_root received at_ id m l P : keeps P (persist_claims issuer_root received at_ id m l) (λ _, anywhere).
Proof.
  revert P. induction l as [|c l IH]; intros P; [by apply keeps_ret|].
  eapply keeps_bind; [apply keeps_write_observation|]. intros x. apply IH.
Qed.
Lemma extract_proto_binding i j : ok (extract_identity (proto_identity i)) = Some j → binding j = binding i.
Proof.
  unfold extract_identity, binding_from_bytes. cbn [Proto.root_binding Proto.profiles Proto.authority_device proto_identity].
  destruct (verify_root_binding (binding i)); [|done]. cbn [mbind result_bind]. destruct (mapM _ _); [|done].
  cbn [mbind result_bind]. destruct (key32 _ _); [|done]. by intros [= <-].
Qed.

(** Keeping an allowed identity at a contact that exists. *)
Lemma keeps_retain_identity id i : (∀ r, verify_root_binding (binding i) = Ok r → allowed r) →
  keeps (alive id) (retain_identity id i) (λ _, anywhere).
Proof.
  intros Ha d Hw [Hf Hid]. unfold retain_identity. set (b := encode_to_vec _).
  destruct (tx_puts [(contact_key id "retained-identity", Bytes b)] d ltac:(by apply NoDup_singleton)) as (d' & Hd & Hin & Hout).
  rewrite Hd. split; [|done]. cbn [fst].
  assert (∀ k, k ≠ contact_key id "retained-identity" → same_register d d' k) as Hs.
  { intros k Hk. apply Hout. by intros ?%list_elem_of_singleton. }
  assert (∀ j, colon_free j = true → same_register d d' (contact_key j "exists")) as Hex.
  { intros j Hj. apply Hs. by intros [_ ?]%contact_key_colon. }
  apply (within_step d); [done|by apply Hs| |].
  - intros j Hj. by rewrite (same_values _ _ _ (Hex j Hj)).
  - intros j Hj. destruct (decide (j = id)) as [->|Hne]; [|left; apply Hs; by intros [? _]%contact_key_colon].
    right. split; [by rewrite (same_values _ _ _ (Hex id Hf))|]. intros b' r Hb' Hr.
    rewrite (values_bytes d' _ b) in Hb' by (apply Hin; by apply list_elem_of_singleton). apply elem_of_singleton in Hb' as ->.
    destruct Hr as (j & Hj' & Hr). apply Ha. unfold identity_of, b in Hj'. rewrite decode_encoded in Hj'. cbn [mbind option_bind] in Hj'.
    by rewrite <- (extract_proto_binding i j).
Qed.
Lemma contact_alive d id c : contact d id = Some c → values d (contact_key id "exists") ≠ [].
Proof.
  intros Hc. apply elem_of_root_keys. eapply string_is_some. apply contact_is_some. by eexists.
Qed.
Lemma known_alive d r id : match retained_root_contact d r with Some id => Some id | None => contact_with_public_key d r end = Some id →
  alive id d.
Proof.
  unfold retained_root_contact, contact_with_public_key, contacts. intros H. apply elem_of_contact_ids.
  destruct (hd_error (filter _ (contact_ids d))) as [i|] eqn:E.
  - injection H as ->. destruct (filter _ (contact_ids d)) as [|j l] eqn:Ef; [done|]. injection E as ->.
    assert (id ∈ id :: l) as Hin by set_solver. rewrite <- Ef in Hin. by apply list_elem_of_filter in Hin as [_ ?].
  - destruct (filter _ (omap _ _)) as [|c l] eqn:Ef; [done|]. injection H as <-.
    assert (c ∈ c :: l) as Hin by set_solver. rewrite <- Ef in Hin. apply list_elem_of_filter in Hin as [_ Hin].
    apply list_elem_of_omap in Hin as (i & Hi & Hc). by destruct (contact_fields _ _ _ Hc) as (-> & _).
Qed.
Lemma public_key_alive d k id : contact_with_public_key d k = Some id → alive id d.
Proof.
  unfold contact_with_public_key, contacts. intros H. apply elem_of_contact_ids.
  destruct (filter _ _) as [|c l] eqn:Ef; [done|]. injection H as <-.
  assert (c ∈ c :: l) as Hin by set_solver. rewrite <- Ef in Hin. apply list_elem_of_filter in Hin as [_ Hin].
  apply list_elem_of_omap in Hin as (i & Hi & Hc). by destruct (contact_fields _ _ _ Hc) as (-> & _).
Qed.
(** The contact an operation works on: a known one, or a new one. *)
Lemma keeps_known known key pn gl e :
  keeps (λ d, ∀ id, known = Some id → alive id d)
    (match known with Some id => mret id | None => create_contact (C := C) key pn gl e end) alive.
Proof.
  destruct known as [id|]; [|apply keeps_create_contact]. apply keeps_ret. auto.
Qed.
Lemma keeps_persist_identities issuer_root pn gl e l index first : (∀ i r, i ∈ l → verify_root_binding (binding i) = Ok r → allowed r) →
  ∀ P, keeps P (persist_identities (C := C) issuer_root pn gl e index l first) (λ _, anywhere).
Proof.
  revert index first. induction l as [|i l IH]; intros index first Ha P; [by apply keeps_ret|].
  eapply keeps_bind; [apply keeps_lift|]. intros b. eapply (keeps_reading _ _ _ (λ known d, ∀ id, known = Some id → alive id d)); [intros d _ id; apply known_alive|]. intros known.
  eapply keeps_bind; [apply keeps_known|]. intros id.
  eapply keeps_bind; [apply keeps_retain_identity; intros r; apply Ha; set_solver|]. intros x. apply IH. set_solver.
Qed.
Lemma keeps_persist_parties issuer_root e received at_ l first :
  ∀ P, keeps P (persist_parties (C := C) issuer_root e received at_ l first) (λ _, anywhere).
Proof.
  revert first. induction l as [|[index p] l IH]; intros first P; [by apply keeps_ret|].
  eapply (keeps_reading _ _ _ (λ known d, ∀ id, known = Some id → alive id d)); [intros d _ id; apply public_key_alive|]. intros known.
  eapply keeps_bind; [apply keeps_known|]. intros id.
  eapply keeps_bind; [apply keeps_create_meeting|]. intros m.
  eapply keeps_bind; [apply keeps_persist_claims|]. intros x. apply IH.
Qed.
End Groups.

(** ** The whole operation *)
Section Persisted.
Context {EdI : Ed25519} {SigI : Signatures} {ShaI : Sha256}.
Context {MsgS : Message Proto.Signed} {MsgB : Message Proto.RootBinding} {MsgP : Message Proto.Profile}
  {MsgA : Message Proto.AuthenticatedIdentity}.
Context {A Oid C : Type} {AM : Automerge A Oid} {CG : ChangeGraph A C} {ML : MapLaws A Oid} {CV : CommitView A Oid C}.
Implicit Types d : Document A.

(** The roots an introduction names are distinct (which [validate_introduction] checks). *)
Definition distinct_roots (v : Introduction) : Prop := ∀ i j r r', i ∈ all_identities v → j ∈ all_identities v →
  verify_root_binding (binding i) = Ok r → verify_root_binding (binding j) = Ok r' → root r = root r' → i = j.

Lemma validated_distinct v : validate_introduction v = Ok () → distinct_roots v.
Proof.
  intros (bs & [Hids Hn _ _ _ _])%validate_introduction_spec i j r r' [a Hi]%list_elem_of_lookup [b Hj]%list_elem_of_lookup H1 H2 Hr.
  destruct (Forall2_lookup_l _ _ _ _ _ Hids Hi) as (x & Hx & Hcx), (Forall2_lookup_l _ _ _ _ _ Hids Hj) as (y & Hy & Hcy).
  pose proof (id_binding _ _ Hcx). pose proof (id_binding _ _ Hcy). assert (x = r ∧ y = r') as [-> ->] by (split; congruence).
  enough (a = b) as -> by congruence. eapply NoDup_lookup; [exact Hn|by rewrite list_lookup_fmap, Hx|].
  by rewrite list_lookup_fmap, Hy, Hr.
Qed.

(** C31: Keeping a verified introduction never leaves a root with two groups: where
    every accepted root has one group and no retained identity outlived its
    contact, both still hold afterwards, whether the operation succeeds, is
    refused or fails halfway. *)
Theorem persist_keeps_one_group sel pn gl e received d d' r : validate_introduction (chosen sel) = Ok () →
  no_orphans d → one_group d →
  persist_verified_introduction (C := C) sel pn gl e received d = (d', r) →
  no_orphans d' ∧ one_group d'.
Proof.
  intros Hdist%validated_distinct Ho Hone. unfold persist_verified_introduction. destruct (_ && _); [by intros [= <- <-]|].
  set (picked := filter (λ i, wanted (roots sel) i = true) _). rewrite bind_reading, bind_lift.
  destruct (check_groups picked d) as [[]|] eqn:Hck; [|by intros [= <- <-]]. pose proof (check_groups_each _ _ Hck) as Hu.
  set (allowed := λ r, accepted d r ∨ ∃ i, i ∈ picked ∧ verify_root_binding (binding i) = Ok r).
  intros Hr. assert (within allowed d') as [Ho' Ha'].
  { refine (keeps_run allowed _ anywhere (λ _, anywhere) d d' r _ _ I Hr); [|split; [done|by left]].
    eapply keeps_bind; [apply keeps_lift|]. intros b.
    eapply keeps_bind; [apply keeps_persist_identities; right; by eexists|]. intros first.
    eapply keeps_bind; [apply keeps_persist_parties|]. intros first'. apply keeps_lift. }
  split; [done|]. intros r1 r2 H1%Ha' H2%Ha' Hroot.
  assert (∀ i, i ∈ picked → i ∈ all_identities (chosen sel)) as Hp by (intros i [_ ?]%list_elem_of_filter; done).
  destruct H1 as [H1|(i & Hi & H1)], H2 as [H2|(j & Hj & H2)].
  - by apply Hone.
  - by apply (unique_group d j ()); [apply Hu| |..].
  - symmetry. by apply (unique_group d i ()); [apply Hu| |..].
  - rewrite (Hdist i j r1 r2) in H1; [congruence|auto..].
Qed.
End Persisted.

Module Concrete.
Import Crypto.Toy ToySigned ContactsFacts.Concrete.
#[local] Existing Instances History.Toy.automerge History.Toy.laws History.Toy.graph checksum.
Definition picked : Selected := mkSelected ada_intro {[verifying_key ada]} {[0%nat]}.
Definition keeping := persist_verified_introduction (C := nat * nat) picked "me" "*" [byte_of 4] 20.
Definition kept := after keeping start.
Lemma kept_run : is_ok (answer keeping start) = true ∧ length (contacts kept) = 2%nat ∧
  (retained_root <$> omap retained_identity (contacts kept)) = [verifying_key ada].
Proof. vm_compute. done. Qed.
Lemma start_empty k : values start k = [].
Proof.
  destruct (values start k) eqn:E; [done|]. assert (k ∈ root_keys start) as Hk by (apply elem_of_root_keys; by rewrite E).
  vm_compute in Hk. by apply elem_of_nil in Hk.
Qed.
Lemma start_accepts r : ¬ accepted start r.
Proof.
  intros [(b & Hb & _)|(id & b & _ & Hb & _)]; apply all_bytes_values in Hb; by rewrite start_empty in Hb.
Qed.
Lemma ada_validates : validate_introduction ada_intro = Ok ().
Proof. vm_compute. reflexivity. Qed.
Lemma persist_keeps_one_group_witness : is_ok (answer keeping start) = true ∧ no_orphans kept ∧ one_group kept.
Proof.
  split; [apply kept_run|].
  apply (persist_keeps_one_group picked "me" "*" [byte_of 4] 20 start kept (answer keeping start)).
  - exact ada_validates.
  - intros id _ H. by rewrite start_empty in H.
  - intros r r' H. by destruct (start_accepts r H).
  - apply (ran keeping start). reflexivity.
Defined.
End Concrete.
