(* ===== verification/Async.v ===== *)
(** * Asynchronous functions as the calls they make

    An [async fn] of the kernel as the sequence of its calls to the rest of the
    program: reads and writes of the shared cells and awaits alike.  What a call
    answers is up to the rest of the program, so a theorem about every history
    holds whatever other tasks do in between.  [wp] is the weakest condition
    under which every call is made only where a guard allows it, and the answer
    meets a postcondition. *)
From S2P Require Import Prelude.

Section Async.
Context {C : Type} {ans : C → Type}.

Inductive prog (X : Type) : Type :=
| Done (x : X)
| Call (c : C) (k : ans c → prog X).
Arguments Done {X} x.
Arguments Call {X} c k.

Fixpoint prog_bind_ {X Y} (f : X → prog Y) (p : prog X) : prog Y :=
  match p with
  | Done x => f x
  | Call c k => Call c (λ y, prog_bind_ f (k y))
  end.
#[export] Instance prog_ret : MRet prog := λ X x, Done x.
#[export] Instance prog_bind : MBind prog := λ X Y f p, prog_bind_ f p.
Definition call (c : C) : prog (ans c) := Call c Done.

(** The question mark, and a guarded return. *)
Definition try {E X Y} (p : prog (result E X)) (k : X → prog (result E Y)) : prog (result E Y) :=
  r ← p; match r with Ok x => k x | Err e => Done (Err e) end.

(** ** Histories *)
Record event := Ev { asked : C; answered : ans asked }.

(** Every history a program may leave: complete, or cut where it waits. *)
Fixpoint runs {X} (p : prog X) (t : list event) (r : option X) : Prop :=
  match p with
  | Done x => t = [] ∧ r = Some x
  | Call c k => (t = [] ∧ r = None) ∨ ∃ y t', t = Ev c y :: t' ∧ runs (k y) t' r
  end.
Lemma runs_bind {X Y} (p : prog X) (f : X → prog Y) t y : runs (p ≫= f) t (Some y) ↔
  ∃ t1 t2 x, t = t1 ++ t2 ∧ runs p t1 (Some x) ∧ runs (f x) t2 (Some y).
Proof.
  revert t. induction p as [x|c k IH]; intros t; cbn [mbind prog_bind prog_bind_ runs].
  - split; [intros Hr; by exists [], t, x|]. by intros (t1 & t2 & x' & -> & [-> [= ->]] & Hr).
  - split.
    + intros [[_ ?]|(a & t' & -> & Hr)]; [done|]. apply IH in Hr as (t1 & t2 & x & -> & H1 & H2).
      exists (Ev c a :: t1), t2, x. split; [done|]. split; [|done]. right. by exists a, t1.
    + intros (t1 & t2 & x & -> & [[_ ?]|(a & t' & -> & H1)] & H2); [done|]. right. exists a, (t' ++ t2). split; [done|].
      apply IH. by exists t', t2, x.
Qed.
Lemma runs_try {E X Y} (p : prog (result E X)) (k : X → prog (result E Y)) t y : runs (try p k) t (Some (Ok y)) ↔
  ∃ t1 t2 x, t = t1 ++ t2 ∧ runs p t1 (Some (Ok x)) ∧ runs (k x) t2 (Some (Ok y)).
Proof.
  unfold try. rewrite runs_bind. split.
  - intros (t1 & t2 & [x|e] & -> & H1 & H2); [by exists t1, t2, x|]. by destruct H2 as [_ [= ?]].
  - intros (t1 & t2 & x & -> & H1 & H2). by exists t1, t2, (Ok x).
Qed.
Lemma runs_call c t y : runs (call c) t (Some y) ↔ t = [Ev c y].
Proof.
  unfold call. cbn [runs]. split; [by intros [[_ ?]|(a & t' & -> & -> & [= ->])]|]. intros ->. right. by exists y, [].
Qed.
Lemma runs_Done {X} (x y : X) t : runs (Done x) t (Some y) ↔ t = [] ∧ x = y.
Proof. cbn. split; [by intros [-> [= ->]]|by intros [-> ->]]. Qed.
Lemma runs_ret {X} (x y : X) t : runs (mret x) t (Some y) ↔ t = [] ∧ x = y.
Proof. apply runs_Done. Qed.

(** One run, from what the calls answer in turn; cut where a call has no answer. *)
Fixpoint run_with {S X} (handle : S → ∀ c, option (ans c * S)) (s : S) (p : prog X) : list event * option X :=
  match p with
  | Done x => ([], Some x)
  | Call c k =>
    match handle s c with
    | None => ([], None)
    | Some (y, s) => let '(t, x) := run_with handle s (k y) in (Ev c y :: t, x)
    end
  end.
Lemma run_with_runs {S X} (handle : S → ∀ c, option (ans c * S)) s (p : prog X) :
  runs p (run_with handle s p).1 (run_with handle s p).2.
Proof.
  revert s. induction p as [x|c k IH]; intros s; cbn [run_with runs]; [done|].
  destruct (handle s c) as [[y s']|]; [|by left]. specialize (IH y s').
  destruct (run_with handle s' (k y)) as [t x]. right. by exists y, t.
Qed.

(** ** Guards *)
Context (guard : list event → C → Prop).
Fixpoint wp {X} (p : prog X) (h : list event) (Q : X → list event → Prop) : Prop :=
  match p with
  | Done x => Q x h
  | Call c k => guard h c ∧ ∀ y, wp (k y) (h ++ [Ev c y]) Q
  end.
Lemma wp_mono {X} (p : prog X) h (Q R : X → list event → Prop) :
  wp p h Q → (∀ x h', Q x (h ++ h') → R x (h ++ h')) → wp p h R.
Proof.
  revert h. induction p as [x|c k IH]; intros h; cbn [wp]; intros Hp HQ.
  - specialize (HQ x []). rewrite app_nil_r in HQ. auto.
  - destruct Hp as [Hg Hp]. split; [done|]. intros y. apply IH; [done|]. intros x h'. rewrite <- !app_assoc. apply HQ.
Qed.
Lemma wp_bind {X Y} (p : prog X) (f : X → prog Y) h Q : wp p h (λ x h, wp (f x) h Q) → wp (p ≫= f) h Q.
Proof.
  revert h. induction p as [x|c k IH]; intros h; [done|]. cbn [wp mbind prog_bind prog_bind_].
  intros [Hg Hp]. split; [done|]. intros y. by apply IH.
Qed.
Lemma wp_try {E X Y} (p : prog (result E X)) (k : X → prog (result E Y)) h Q :
  wp p h (λ r h, match r with Ok x => wp (k x) h Q | Err e => Q (Err e) h end) → wp (try p k) h Q.
Proof. intros Hp. apply wp_bind. eapply wp_mono; [exact Hp|]. by intros [x|e] h'. Qed.

(** What the weakest precondition says of histories: every call is made where
    the guard allows it, and the answer meets the postcondition. *)
Lemma wp_guards {X} (p : prog X) h Q t r : wp p h Q → runs p t r →
  (∀ t1 e t2, t = t1 ++ e :: t2 → guard (h ++ t1) (asked e)) ∧ match r with Some x => Q x (h ++ t) | None => True end.
Proof.
  revert h t. induction p as [x|c k IH]; intros h t Hp Hr; cbn [wp runs] in *.
  - destruct Hr as [-> ->]. rewrite app_nil_r. split; [|done]. by intros [|??] ? ?.
  - destruct Hr as [[-> ->]|(y & t' & -> & Hr)]; [split; [|done]; by intros [|??] ? ?|].
    destruct Hp as [Hg Hp]. destruct (IH y _ _ (Hp y) Hr) as [Hgs Hq]. rewrite <- app_assoc in Hq. split; [|done].
    intros [|e' t1] e t2; cbn [app]; intros [= <- E].
    + by rewrite app_nil_r.
    + specialize (Hgs t1 e t2 E). by rewrite <- app_assoc in Hgs.
Qed.

(** A program none of whose calls is guarded leaves its history behind it. *)
Fixpoint all_calls {X} (P : C → Prop) (p : prog X) : Prop :=
  match p with Done _ => True | Call c k => P c ∧ ∀ y, all_calls P (k y) end.
Lemma all_calls_bind {X Y} P (p : prog X) (f : X → prog Y) : all_calls P p → (∀ x, all_calls P (f x)) → all_calls P (p ≫= f).
Proof.
  intros Hp Hf. induction p as [x|c k IH]; [apply Hf|]. destruct Hp as [Hc Hk]. split; [done|]. intros y. apply IH, Hk.
Qed.
Lemma all_calls_try {E X Y} P (p : prog (result E X)) (k : X → prog (result E Y)) :
  all_calls P p → (∀ x, all_calls P (k x)) → all_calls P (try p k).
Proof. intros Hp Hk. apply all_calls_bind; [done|]. intros [x|e]; [apply Hk|done]. Qed.
Lemma wp_quiet {X} (P : C → Prop) (p : prog X) h Q : (∀ h c, P c → guard h c) → all_calls P p →
  (∀ t x, runs p t (Some x) → Q x (h ++ t)) → wp p h Q.
Proof.
  intros HP. revert h. induction p as [x|c k IH]; intros h Hp HQ; cbn [wp].
  - specialize (HQ [] x). rewrite app_nil_r in HQ. by apply HQ.
  - destruct Hp as [Hc Hk]. split; [by apply HP|]. intros y. apply IH; [done|]. intros t x Hr.
    rewrite <- app_assoc. apply HQ. cbn [runs]. right. by exists y, t.
Qed.
Lemma wp_quietly {E X Y} (P : C → Prop) (p : prog (result E X)) (k : X → prog (result E Y)) h Q : (∀ h c, P c → guard h c) →
  all_calls P p → (∀ e h', Q (Err e) h') → (∀ t x, runs p t (Some (Ok x)) → wp (k x) (h ++ t) Q) → wp (try p k) h Q.
Proof. intros HP Hp HE Hk. apply wp_try. apply (wp_quiet P); [done..|]. intros t [x|e] Hr; [by apply Hk|apply HE]. Qed.
Lemma wp_result {E X Y} (r : result E X) (k : X → prog (result E Y)) h Q :
  (∀ e h', Q (Err e) h') → (∀ x, r = Ok x → wp (k x) h Q) → wp (try (Done r) k) h Q.
Proof. intros HE Hk. destruct r as [x|e]; [by apply Hk|apply HE]. Qed.
(** The calls a program makes are the ones its history shows. *)
Lemma wp_trace {X} (P : C → Prop) (p : prog X) h Q : all_calls P p → wp p h Q →
  wp p h (λ x h', Q x h' ∧ ∃ t, h' = h ++ t ∧ Forall (λ e, P (asked e)) t).
Proof.
  revert h. induction p as [x|c k IH]; intros h; cbn [wp all_calls].
  - intros _ HQ. split; [done|]. exists []. by rewrite app_nil_r.
  - intros [Hc Hk] [Hg Hp]. split; [done|]. intros y. eapply wp_mono; [apply IH; [apply Hk|apply Hp]|]. cbn. intros x h' [HQ (t & E & Ht)]. split; [exact HQ|].
    exists (Ev c y :: t). split; [rewrite E, <- app_assoc; done|by constructor].
Qed.
End Async.
Arguments prog {C} ans X.
Arguments event {C} ans.
Arguments Done {C ans X} x.
Arguments Call {C ans X} c k.

(** A part of a program, seen from where it began. *)
Lemma wp_from {C} {ans : C → Type} {X} (G G' : list (event ans) → C → Prop) (p : prog ans X) h0 u Q :
  (∀ u c, G' u c → G (h0 ++ u) c) → wp G' p u Q → wp G p (h0 ++ u) (λ x h, ∃ u', h = h0 ++ u' ∧ Q x u').
Proof.
  intros HG. revert u. induction p as [x|c k IH]; intros u; cbn [wp]; [intros HQ; by exists u|].
  intros [Hc Hk]. split; [by apply HG|]. intros y. rewrite <- app_assoc. by apply IH.
Qed.

(** ** Calls carried out by another program

    The calls of one layer are the functions of the layer below. *)
Section Interp.
Context {C : Type} {ans : C → Type} {D : Type} {low : D → Type}.
Context (impl : ∀ c : C, prog low (ans c)).
Fixpoint interp {X} (p : prog ans X) : prog low X :=
  match p with
  | Done x => Done x
  | Call c k => y ← impl c; interp (k y)
  end.
(** The lower history of an upper one: one block for each call. *)
Fixpoint carries (t : list (event low)) (T : list (event ans)) : Prop :=
  match T with
  | [] => t = []
  | Ev c y :: T => ∃ b t', t = b ++ t' ∧ runs (impl c) b (Some y) ∧ carries t' T
  end.
Lemma carries_app t T t' T' : carries t T → carries t' T' → carries (t ++ t') (T ++ T').
Proof.
  revert t. induction T as [|[c y] T IH]; intros t; cbn; [by intros ->|]. intros (b & u & -> & Hb & Hu) HT'.
  exists b, (u ++ t'). rewrite app_assoc. split_and!; auto.
Qed.
Lemma runs_bind_cut {X Y} (p : prog low X) (f : X → prog low Y) t : runs (p ≫= f) t None →
  runs p t None ∨ ∃ t1 t2 x, t = t1 ++ t2 ∧ runs p t1 (Some x) ∧ runs (f x) t2 None.
Proof.
  revert t. induction p as [x|c k IH]; intros t; cbn [mbind prog_bind prog_bind_ runs].
  - intros Hr. right. by exists [], t, x.
  - intros [[-> _]|(y & t' & -> & Hr)]; [left; by left|]. destruct (IH y t' Hr) as [Hp|(t1 & t2 & x & -> & H1 & H2)].
    + left. right. by exists y, t'.
    + right. exists (Ev c y :: t1), t2, x. split_and!; [done| |done]. right. by exists y, t1.
Qed.
Lemma runs_nothing {X} (p : prog ans X) : ∃ r, runs p [] r.
Proof. destruct p as [x|c k]; [by exists (Some x)|exists None; by left]. Qed.
(** A lower history carries an upper one, and at most the calls of one more. *)
Lemma runs_interp {X} (p : prog ans X) t r : runs (interp p) t r →
  ∃ T t1 t2, t = t1 ++ t2 ∧ carries t1 T ∧
    (t2 = [] ∧ runs p T r ∨
     r = None ∧ runs p T None ∧ ∃ c, runs (impl c) t2 None ∧ ∀ y, ∃ r', runs p (T ++ [Ev c y]) r').
Proof.
  revert t. induction p as [x|c k IH]; intros t; cbn [interp].
  - intros [-> ->]. exists [], [], []. split_and!; [done..|]. by left.
  - intros Hr. assert ((∃ t1 t2 y, t = t1 ++ t2 ∧ runs (impl c) t1 (Some y) ∧ runs (interp (k y)) t2 r) ∨ r = None ∧ runs (impl c) t None) as [Hd|[-> Hc]].
    { destruct r as [x|]; [left; by apply runs_bind|]. apply runs_bind_cut in Hr as [?|?]; auto. }
    + destruct Hd as (t1 & t2 & y & -> & Hy & Hk). destruct (IH y t2 Hk) as (T & u1 & u2 & -> & Hu & Hend).
      exists (Ev c y :: T), (t1 ++ u1), u2. split; [by rewrite app_assoc|]. split; [by exists t1, u1|].
      destruct Hend as [[-> Hp]|(-> & Hn & c' & Hc' & Hall)]; [left; split; [done|]; right; by exists y, T|].
      right. split; [done|]. split; [right; by exists y, T|]. exists c'. split; [done|]. intros y'. destruct (Hall y') as [r' Hr']. exists r'. right. by exists y, (T ++ [Ev c' y']).
    + exists [], [], t. split_and!; [done..|]. right. split; [done|]. split; [by left|]. exists c. split; [done|]. intros y.
      destruct (runs_nothing (k y)) as [r' Hr']. exists r'. right. by exists y, [].
Qed.
Lemma app_cons_split {A} (b u t1 t2 : list A) e : b ++ u = t1 ++ e :: t2 →
  (∃ b2, b = t1 ++ e :: b2) ∨ ∃ t1', t1 = b ++ t1' ∧ u = t1' ++ e :: t2.
Proof.
  revert t1. induction b as [|x b IH]; intros t1; [intros E; right; exists t1; by split|].
  destruct t1 as [|x' t1]; intros [= -> Ht]; [left; by exists b|].
  destruct (IH t1 Ht) as [[b2 ->]|(t1' & -> & ->)]; [left; by exists b2|right; by exists t1'].
Qed.
(** The call one lower event belongs to, and the upper history before it. *)
Lemma carries_at t T t1 e t2 : carries t T → t = t1 ++ e :: t2 →
  ∃ T1 c y T2 t0 b1 b2, T = T1 ++ Ev c y :: T2 ∧ carries t0 T1 ∧ t1 = t0 ++ b1 ∧ runs (impl c) (b1 ++ e :: b2) (Some y).
Proof.
  revert t t1. induction T as [|[c y] T IH]; intros t t1; cbn; [intros -> H; by destruct t1|].
  intros (b & u & -> & Hb & Hu) [[b2 ->]|(t1' & -> & ->)]%app_cons_split.
  - by exists [], c, y, T, [], t1, b2.
  - destruct (IH _ t1' Hu eq_refl) as (T1 & c' & y' & T2 & t0 & b1 & b2 & -> & Ht0 & -> & Hb').
    exists (Ev c y :: T1), c', y', T2, (b ++ t0), b1, b2. split_and!; [done| |by rewrite app_assoc|done]. by exists b, t0.
Qed.
Lemma all_calls_interp {X} (P : D → Prop) (Q : C → Prop) (p : prog ans X) : all_calls Q p → (∀ c, Q c → all_calls P (impl c)) → all_calls P (interp p).
Proof. intros Hp Hi. induction p as [x|c k IH]; [done|]. destruct Hp as [Hc Hk]. apply all_calls_bind; auto. Qed.
End Interp.
Lemma all_calls_mono {C} {ans : C → Type} {X} (P Q : C → Prop) (p : prog ans X) : (∀ c, P c → Q c) → all_calls P p → all_calls Q p.
Proof. intros HPQ. induction p as [x|c k IH]; [done|]. intros [Hc Hk]. split; auto. Qed.
Lemma all_calls_runs {C} {ans : C → Type} {X} (P : C → Prop) (p : prog ans X) t r : all_calls P p → runs p t r → Forall (λ e, P (asked e)) t.
Proof.
  revert t. induction p as [x|c k IH]; intros t; cbn.
  - intros _ [-> _]. by constructor.
  - intros [Hc Hk] [[-> _]|(y & t' & -> & Hr)]; [by constructor|]. constructor; [done|]. by eapply IH.
Qed.

(** ** A layer's calls among more calls

    Where each call of one layer is one call of a larger one, the lower history
    is the upper one, renamed. *)
Section Embed.
Context {C : Type} {ans : C → Type} {D : Type} {low : D → Type}.
Context (impl : ∀ c : C, prog low (ans c)) (place : event ans → event low).
Context (one_call : ∀ c b y, runs (impl c) b (Some y) ↔ b = [place (Ev c y)]).
Lemma carries_place t T : carries impl t T ↔ t = place <$> T.
Proof.
  revert t. induction T as [|[c y] T IH]; intros t; [done|]. cbn [carries]. split.
  - intros (b & t' & -> & ->%one_call & ->%IH). done.
  - intros ->. exists [place (Ev c y)], (place <$> T). split; [done|]. split; [by apply one_call|by apply IH].
Qed.
Lemma runs_embed {X} (p : prog ans X) t x : runs (interp impl p) t (Some x) → ∃ T, t = place <$> T ∧ runs p T (Some x).
Proof.
  intros (T & t1 & t2 & -> & Hc%carries_place & [[-> Hp]|[? _]])%runs_interp; [|done].
  exists T. by rewrite app_nil_r.
Qed.
End Embed.
Notation "x ←! p ; k" := (try p (λ x, k))
  (at level 20, p at level 100, k at level 200, right associativity).
