(* ===== verification/Identity.v ===== *)
(** * The user's identity on a device ([runtime/crates/kernel/src/contacts.rs],
      the identity gates of [lib.rs]) and its custody ([root_transfer.rs])

    The identity is what the contacts document and the Keyhive group say
    together; custody of its root seed can be copied to another enrolled device.
    Each function is the calls it makes on the rest of the kernel ([call]); the
    answers are anything, so what other tasks do between two calls is covered. *)
From S2P Require Import Prelude Crypto Error Device Persist ContactsWire Contacts Async.

Definition TRANSFER : byte := byte_of 1.
Definition PERSISTED : byte := byte_of 2.
Definition RECEIVED : byte := byte_of 3.
Definition REFUSED : byte := byte_of 4.
Definition TRANSFER_LEN : nat := 1 + 32 + 32 + 32.
Definition MAX_FRAME : nat := TRANSFER_LEN.
Inductive Frame := Transfer (root group seed : bytes) | Persisted | Received | FrameRefused.
#[export] Instance Frame_eq_dec : EqDecision Frame.
Proof. solve_decision. Defined.

Definition encode (f : Frame) : bytes :=
  match f with
  | Transfer root group seed => [TRANSFER] ++ root ++ group ++ seed
  | Persisted => [PERSISTED]
  | Received => [RECEIVED]
  | FrameRefused => [REFUSED]
  end.
Definition decode (b : bytes) : option Frame :=
  match b with
  | [] => None
  | tag :: body =>
    if bool_decide (tag = PERSISTED) && bool_decide (body = []) then Some Persisted
    else if bool_decide (tag = RECEIVED) && bool_decide (body = []) then Some Received
    else if bool_decide (tag = REFUSED) && bool_decide (body = []) then Some FrameRefused
    else if bool_decide (tag = TRANSFER) && (length body =? TRANSFER_LEN - 1)%nat
    then Some (Transfer (slice 0 32 body) (slice 32 64 body) (slice 64 96 body))
    else None
  end.
(** What [receive] makes of the bytes that came. *)
Definition received_frame (b : bytes) : option Frame := if (length b <=? MAX_FRAME)%nat then decode b else None.

#[export] Instance IdentityContext_eq_dec : EqDecision IdentityContext.
Proof. solve_decision. Defined.
Record IdentityStatus := mkStatus { st_root : bytes; st_group : bytes; has_root : bool }.

Section Identity.
Context {EdI : Ed25519} {SigI : Signatures}.
Context {MsgS : Message Proto.Signed} {MsgB : Message Proto.RootBinding} {MsgP : Message Proto.Profile}.
Context {VaultState DriveSealed : Type}.
Abbreviation DeviceState := (@Persist.DeviceState VaultState DriveSealed).

(** ** Calls on the rest of the kernel *)
Inductive call :=
(* the shared cells *)
| ReadState
| ReadContext
| EngineKey
| ReplaceRootSeed (seed : option bytes)
| Panic
| Fill32
| PushContactsChanged
(* the engine, the checkpoint and the network *)
| ReadSelfProfile
(* [document_mutate]: [bind_root], then [write_self_profile] *)
| BindIdentity (binding profile : bytes)
| AuthorityGroup
| AuthorityMembers
| CheckpointDurable
| Endpoint
| Connect (endpoint : string)
| Send (frame : bytes)
| Recv
| Close.
(** Network calls race a timer: [None] is the timer.  [ReplaceRootSeed] answers
    whether there is a device to change; nothing comes after a panic. *)
Definition ans (c : call) : Type :=
  match c with
  | ReadState => DeviceState
  | ReadContext => IdentityContext
  | EngineKey => option bytes
  | ReplaceRootSeed _ => bool
  | Panic => Empty_set
  | Fill32 => bytes
  | PushContactsChanged => unit
  | ReadSelfProfile => result string (option SelfProfile)
  | BindIdentity _ _ => result string unit
  | AuthorityGroup => result string bytes
  | AuthorityMembers => result string (list bytes)
  | CheckpointDurable => result Error unit
  | Endpoint => bool
  | Connect _ => option (result string bytes)
  | Send _ => option (result string unit)
  | Recv => option (option bytes)
  | Close => unit
  end.
Abbreviation prog := (Async.prog ans).
Abbreviation history := (list (Async.event ans)).

Definition refused (why : string) : Error := Error_new Refused why.
Definition engine_failed (why : string) : Error := Error_new Failed why.
Definition identity_changed : Error := Error_new Unavailable "the user identity changed during this operation".
Definition give {X} (e : Error) : prog (result Error X) := Done (Err e).
Definition check (b : bool) (e : Error) : prog (result Error unit) := Done (if b then Ok () else Err e).

(** ** Gates *)
Definition identity_open : prog (result Error unit) :=
  s ← Async.call ReadState; c ← Async.call ReadContext; Done (Persist.identity_open s c).
Definition identity_context : prog IdentityContext := Async.call ReadContext.
Definition identity_context_is (expected : IdentityContext) : prog bool :=
  c ← Async.call ReadContext; Done (bool_decide (c = expected)).
Definition engine : prog (result Error bytes) :=
  k ← Async.call EngineKey; Done (ok_or (Error_new Unavailable "this device's sync engine is not running") k).
Definition root_seed : prog (option bytes) :=
  s ← Async.call ReadState; Done (Persist.device s ≫= Device.root_seed).
Definition panic {X} : prog X := Call Panic (λ y : Empty_set, match y with end).
Definition replace_root_seed (seed : option bytes) : prog (result Error unit) :=
  there ← Async.call (ReplaceRootSeed seed);
  if there : bool then Done (Ok ()) else panic.
Definition install_root_seed (seed : bytes) : prog (result Error unit) := replace_root_seed (Some seed).
Definition clear_root_custody : prog (result Error unit) := replace_root_seed None.
Definition no_custody : string := "this device does not hold the user root; transfer or unlock it first".
Definition require_root_seed : prog (result Error bytes) :=
  s ← root_seed; Done (ok_or (refused no_custody) s).
Definition engine_call {X} (p : prog (result string X)) : prog (result Error X) := r ← p; Done (map_err engine_failed r).

(** ** The identity *)
Definition mismatch : Error := Error_new Unavailable "the public identity does not match this device's Keyhive group".
Definition custody_mismatch : Error := Error_new Unavailable "local root custody does not match the public identity".
Definition validate_profile_context (p : SelfProfile) (g : bytes) : prog (result Error unit) :=
  b ←! Done (map_err refused (verify_root_binding (self_binding p)));
  if negb (bool_decide (root b = self_root p)) || negb (bool_decide (group b = g)) then give mismatch else
  held ← root_seed;
  match held with
  | Some seed => check (bool_decide (verifying_key seed = self_root p)) custody_mismatch
  | None => Done (Ok ())
  end.
Definition contacts_profile : prog (result Error SelfProfile) :=
  _ ←! identity_open;
  context ← identity_context;
  _ ←! engine;
  found ←! engine_call (Async.call ReadSelfProfile);
  p ←! Done (ok_or (Error_new Unavailable "the user identity is not ready") found);
  g ←! engine_call (Async.call AuthorityGroup);
  same ← identity_context_is context;
  if negb same then give identity_changed else
  _ ←! validate_profile_context p g;
  Done (Ok p).
Definition identity_status : prog (result Error IdentityStatus) :=
  p ←! contacts_profile;
  b ←! Done (map_err refused (verify_root_binding (self_binding p)));
  held ← root_seed;
  Done (Ok (mkStatus (self_root p) (group b) (bool_decide (is_Some held)))).

(** The first identity of a device. *)
Definition initialize_contacts : prog (result Error bool) :=
  _ ←! engine;
  g ←! engine_call (Async.call AuthorityGroup);
  found ←! engine_call (Async.call ReadSelfProfile);
  match found with
  | Some p => _ ←! validate_profile_context p g; Done (Ok false)
  | None =>
    seed ← Async.call Fill32;
    let binding := sign_root_binding seed g in
    s ← Async.call ReadState;
    let name := default EmptyString (Persist.device s ≫= λ d, meta_user (meta d) !! "name"%string) in
    profile ←! Done (map_err refused (sign_profile seed
      (if bool_decide (name = EmptyString) then [] else [mkClaim "name" name])));
    _ ←! engine_call (Async.call (BindIdentity binding profile));
    _ ←! install_root_seed seed;
    Done (Ok true)
  end.

(** ** Root custody transfer *)
Section Transfer.
Context (endpoint_id : bytes → string).

Definition timed_out : Error := Error_new Failed "root transfer timed out".
Definition not_member : Error := Error_new Refused "that device is not a current member".
Definition changed : Error := Error_new Refused "the user identity changed during transfer".
Definition require_same_identity (before after : IdentityStatus) : prog (result Error unit) :=
  check (bool_decide (st_root before = st_root after) && bool_decide (st_group before = st_group after)) changed.
Definition member_key_for_endpoint (endpoint : string) : prog (result Error bytes) :=
  _ ←! engine;
  l ←! engine_call (Async.call AuthorityMembers);
  Done (ok_or (Error_new Refused "that endpoint is not a current member") (hd_error (filter (λ k, endpoint_id k = endpoint) l))).
Definition require_current_member (key : bytes) : prog (result Error unit) :=
  _ ←! engine;
  l ←! engine_call (Async.call AuthorityMembers);
  check (bool_decide (key ∈ l)) not_member.
Definition send (f : Frame) : prog (result Error (result string unit)) :=
  r ← Async.call (Send (encode f)); Done (ok_or timed_out r).
Definition receive : prog (result Error (option Frame)) :=
  r ← Async.call Recv; b ←! Done (ok_or timed_out r); Done (Ok (b ≫= received_frame)).
Definition sent_ok (r : result string unit) : result Error unit := map_err (Error_new Failed) r.
Definition require_context (context : IdentityContext) : prog (result Error unit) :=
  same ← identity_context_is context; check same changed.

(** The sender, once connected to [peer]. *)
Definition transfer_to (target peer : bytes) (before : IdentityStatus) (context : IdentityContext) : prog (result Error unit) :=
  _ ←! check (bool_decide (peer = target)) (Error_new Refused "a different device answered the selected endpoint");
  _ ←! require_current_member peer;
  identity ←! identity_status;
  _ ←! require_context context;
  _ ←! require_same_identity before identity;
  seed ←! require_root_seed;
  r ←! send (Transfer (st_root identity) (st_group identity) seed);
  _ ←! Done (sent_ok r);
  f ←! receive;
  match f with
  | Some Persisted =>
    _ ←! require_context context;
    identity ←! identity_status;
    _ ←! require_same_identity before identity;
    _ ←! require_current_member peer;
    r ←! send Received;
    Done (sent_ok r)
  | Some FrameRefused => give (Error_new Refused "the recipient refused root custody")
  | _ => give (Error_new Failed "the recipient did not acknowledge persisted root custody")
  end.
Definition root_transfer (endpoint : string) : prog (result Error unit) :=
  _ ←! identity_open;
  target ←! member_key_for_endpoint endpoint;
  mine ←! engine;
  if bool_decide (target = mine) then give (Error_new Refused "root custody is already on this device") else
  before ←! identity_status;
  context ← identity_context;
  ready ← Async.call Endpoint;
  if negb ready then give (Error_new Unavailable "this device endpoint is not ready") else
  r ← Async.call (Connect endpoint);
  c ←! Done (ok_or timed_out r);
  peer ←! Done (map_err (Error_new Failed) c);
  result ← transfer_to target peer before context;
  _ ← Async.call Close;
  Done result.

(** The recipient. *)
Definition receive_root_transfer (sender : bytes) : prog (result Error unit) :=
  _ ←! identity_open;
  _ ←! require_current_member sender;
  before ←! identity_status;
  context ← identity_context;
  f ←! receive;
  match f with
  | Some (Transfer root group seed) =>
    _ ←! require_current_member sender;
    identity ←! identity_status;
    _ ←! require_context context;
    _ ←! require_same_identity before identity;
    if negb (bool_decide (root = st_root identity)) || negb (bool_decide (group = st_group identity))
       || negb (bool_decide (verifying_key seed = root))
    then give (Error_new Refused "transferred custody does not match this user's identity") else
    previous ← root_seed;
    _ ←! install_root_seed seed;
    landed ← Async.call CheckpointDurable;
    match landed with
    | Err error =>
      same ← identity_context_is context;
      if same : bool then
        _ ←! replace_root_seed previous;
        _ ← Async.call CheckpointDurable;
        give error
      else give error
    | Ok _ =>
      _ ←! require_context context;
      _ ← Async.call PushContactsChanged;
      Done (Ok ())
    end
  | _ => give (Error_new Refused "invalid root transfer frame")
  end.
Definition root_transfer_accept (sender : bytes) : prog unit :=
  outcome ← receive_root_transfer sender;
  let reply := match outcome with Ok _ => Persisted | Err _ => FrameRefused end in
  sent ← Async.call (Send (encode reply));
  _ ← match outcome, sent with
      | Ok _, Some (Ok _) => _ ← Async.call Recv; Done ()
      | _, _ => Done ()
      end;
  Async.call Close.
End Transfer.
End Identity.
