(* ===== verification/Custody.v ===== *)
(** * Root custody ([runtime/crates/kernel/src/root_transfer.rs])

    What the two sides of a transfer may do, over every history: a seed is
    installed only when everything the code checks was checked after it came,
    acknowledged only once it is on disk, and rolled back to what was there;
    and it is sent only to a current member of the same identity. *)
From S2P Require Import Prelude Crypto Error Seal Device Persist ContactsWire Contacts Async Identity.

(** ** Frames *)
Lemma received_encode f : match f with Transfer root group seed => length root = 32%nat ∧ length group = 32%nat ∧ length seed = 32%nat | _ => True end →
  received_frame (encode f) = Some f.
Proof.
  destruct f as [root group seed| | |]; [|done..]. intros (H1 & H2 & H3). unfold received_frame.
  assert (length (encode (Transfer root group seed)) = TRANSFER_LEN) as -> by (cbn; rewrite !length_app; lia).
  change (TRANSFER_LEN <=? MAX_FRAME)%nat with true. cbn [decode encode app].
  change (bool_decide (TRANSFER = PERSISTED)) with false. change (bool_decide (TRANSFER = RECEIVED)) with false.
  change (bool_decide (TRANSFER = REFUSED)) with false. change (bool_decide (TRANSFER = TRANSFER)) with true. cbn [andb].
  rewrite !length_app, H1, H2, H3. change (32 + (32 + 32) =? TRANSFER_LEN - 1)%nat with true. cbn iota.
  assert (∀ (l r : bytes) n m, n = length l → slice (length l) m (l ++ r) = take (m - n) r) as Hs.
  { intros l r n m ->. unfold slice. by rewrite drop_app_length. }
  do 2 f_equal.
  - unfold slice. rewrite drop_0. by apply take_app_length'.
  - rewrite <- H1 at 1. rewrite (Hs _ _ 32%nat) by done. by apply take_app_length'.
  - rewrite app_assoc. replace 64%nat with (length (root ++ group)) at 1 by (rewrite length_app; lia).
    rewrite (Hs _ _ 64%nat) by (rewrite length_app; lia). apply take_ge. lia.
Qed.

Section Custody.
Context {EdI : Ed25519} {SigI : Signatures}.
Context {MsgS : Message Proto.Signed} {MsgB : Message Proto.RootBinding} {MsgP : Message Proto.Profile}.
Context {VaultState DriveSealed : Type}.
Abbreviation ans := (@ans VaultState DriveSealed).
Abbreviation call := (@Identity.call).
Abbreviation prog := (Async.prog ans).
Abbreviation event := (Async.event ans).
Abbreviation history := (list event).
Abbreviation E := (@Ev _ ans).
Abbreviation DeviceState := (@Persist.DeviceState VaultState DriveSealed).
Implicit Types (h t u : history) (root group seed key : bytes) (s : DeviceState).

(** ** What a history shows *)
Definition listed (key : bytes) (h : history) : Prop := ∃ l, E AuthorityMembers (Ok l) ∈ h ∧ key ∈ l.
(** The public profile's root binding, verified, is for the device's group. *)
Definition identity_read (root group : bytes) (h : history) : Prop :=
  ∃ p b, E ReadSelfProfile (Ok (Some p)) ∈ h ∧ E AuthorityGroup (Ok group) ∈ h ∧
    verify_root_binding (self_binding p) = Ok b ∧ ContactsWire.root b = root ∧ ContactsWire.group b = group.
Definition held (s : DeviceState) : option bytes := Persist.device s ≫= Device.root_seed.

(** ** The parts that only read *)
Definition quiet (c : call) : Prop :=
  match c with ReplaceRootSeed _ | Send _ | PushContactsChanged | CheckpointDurable | BindIdentity _ _ => False | _ => True end.

Lemma runs_check (b : bool) e (t : history) x : runs (check (VaultState := VaultState) (DriveSealed := DriveSealed) b e) t (Some (Ok x)) → t = [] ∧ b = true.
Proof. unfold check. intros [-> Hx]%runs_Done. by destruct b. Qed.
Lemma quiet_engine_call {X} (p : prog (result string X)) : all_calls quiet p → all_calls quiet (engine_call p).
Proof. intros Hp. apply all_calls_bind; done. Qed.
Lemma runs_engine_call {X} (p : prog (result string X)) t x : runs (engine_call p) t (Some (Ok x)) → runs p t (Some (Ok x)).
Proof.
  unfold engine_call. rewrite runs_bind. intros (t1 & t2 & [y|] & -> & Hp & [-> Hx]%runs_Done); [|done].
  injection Hx as ->. by rewrite app_nil_r.
Qed.
Lemma quiet_validate p g : all_calls quiet (validate_profile_context (VaultState := VaultState) (DriveSealed := DriveSealed) p g).
Proof.
  unfold validate_profile_context. apply all_calls_try; [done|]. intros b. case_match; [done|].
  apply all_calls_bind; [by repeat split|]. by intros [k|].
Qed.
Lemma runs_validate p g t x : runs (validate_profile_context (VaultState := VaultState) (DriveSealed := DriveSealed) p g) t (Some (Ok x)) →
  ∃ b, verify_root_binding (self_binding p) = Ok b ∧ ContactsWire.root b = self_root p ∧ ContactsWire.group b = g.
Proof.
  unfold validate_profile_context. rewrite runs_try. intros (t1 & t2 & b & -> & [-> Hb]%runs_Done & Hr).
  exists b. destruct (verify_root_binding (self_binding p)) as [b'|]; [|done]. injection Hb as ->. split; [done|].
  destruct (decide (ContactsWire.root b = self_root p)) as [Hroot|Hroot]; [|by rewrite bool_decide_false in Hr by done; apply runs_Done in Hr as [_ ?]].
  destruct (decide (ContactsWire.group b = g)) as [Hg|Hg]; [done|].
  rewrite (bool_decide_false (ContactsWire.group b = g)) in Hr by done. rewrite orb_true_r in Hr. by apply runs_Done in Hr as [_ ?].
Qed.
Lemma reads_validate p g t r : runs (validate_profile_context (VaultState := VaultState) (DriveSealed := DriveSealed) p g) t (Some r) →
  Forall (λ e, asked e = ReadState) t.
Proof.
  unfold validate_profile_context, try. rewrite runs_bind. intros (t1 & t2 & b & -> & [-> _]%runs_Done & Hr). cbn [app].
  destruct b as [b|]; [|by apply runs_Done in Hr as [-> _]]. case_match; [by apply runs_Done in Hr as [-> _]|].
  apply runs_bind in Hr as (t3 & t4 & o & -> & Ho & Hr). apply runs_bind in Ho as (t5 & t6 & s & -> & Hs & [-> _]%runs_Done).
  apply (runs_call (ans := ans) ReadState) in Hs as ->. destruct o; apply runs_Done in Hr as [-> _]; by repeat constructor.
Qed.
Lemma quiet_contacts_profile : all_calls quiet (contacts_profile (VaultState := VaultState) (DriveSealed := DriveSealed)).
Proof.
  unfold contacts_profile.
  repeat first [apply all_calls_try; [first [apply quiet_validate|apply quiet_engine_call; by repeat split|by repeat split]|intros ?]
    |apply all_calls_bind; [by repeat split|intros ?]|case_match|done].
Qed.
Lemma quiet_identity_status : all_calls quiet (identity_status (VaultState := VaultState) (DriveSealed := DriveSealed)).
Proof. apply all_calls_try; [apply quiet_contacts_profile|]. intros p. apply all_calls_try; [done|]. intros b. by repeat split. Qed.
Lemma quiet_require_member key : all_calls quiet (require_current_member (VaultState := VaultState) (DriveSealed := DriveSealed) key).
Proof. repeat first [apply all_calls_try; [first [apply quiet_engine_call|idtac]; by repeat split|intros ?]|done]. Qed.

Lemma runs_contacts_profile t p : runs (contacts_profile (VaultState := VaultState) (DriveSealed := DriveSealed)) t (Some (Ok p)) →
  ∃ b, E ReadSelfProfile (Ok (Some p)) ∈ t ∧ E AuthorityGroup (Ok (ContactsWire.group b)) ∈ t ∧
    verify_root_binding (self_binding p) = Ok b ∧ ContactsWire.root b = self_root p.
Proof.
  unfold contacts_profile. rewrite runs_try. intros (a1 & a2 & [] & -> & _ & Hp).
  apply runs_bind in Hp as (b1 & b2 & c & -> & _ & Hp).
  rewrite runs_try in Hp. destruct Hp as (c1 & c2 & k & -> & _ & Hp).
  rewrite runs_try in Hp. destruct Hp as (d1 & d2 & found & -> & Hf%runs_engine_call & Hp). apply (runs_call (ans := ans) ReadSelfProfile) in Hf as ->.
  rewrite runs_try in Hp. destruct Hp as (e1 & e2 & p' & -> & [-> He]%runs_Done & Hp).
  rewrite runs_try in Hp. destruct Hp as (f1 & f2 & g & -> & Hg%runs_engine_call & Hp). apply (runs_call (ans := ans) AuthorityGroup) in Hg as ->.
  apply runs_bind in Hp as (g1 & g2 & [] & -> & _ & Hp); [|by apply runs_Done in Hp as [_ ?]].
  cbn [negb] in Hp. rewrite runs_try in Hp. destruct Hp as (i1 & i2 & [] & -> & Hv%runs_validate & [_ [= ->]]%runs_Done).
  destruct Hv as (b & Hb & Hroot & <-). destruct found as [p'|]; [|done]. injection He as ->.
  exists b. split_and!; [| |done..]; rewrite !elem_of_app, !list_elem_of_singleton; tauto.
Qed.
Lemma runs_identity_status t st : runs (identity_status (VaultState := VaultState) (DriveSealed := DriveSealed)) t (Some (Ok st)) →
  identity_read (st_root st) (st_group st) t.
Proof.
  unfold identity_status. rewrite runs_try. intros (t1 & t2 & p & -> & (b & Hs & Hg & Hb & Hroot)%runs_contacts_profile & Hr).
  rewrite runs_try in Hr. destruct Hr as (t3 & t4 & b' & -> & [-> Hb']%runs_Done & Hr). rewrite Hb in Hb'. injection Hb' as <-.
  assert (st_root st = self_root p ∧ st_group st = ContactsWire.group b) as [-> ->].
  { apply runs_bind in Hr as (? & ? & o & -> & _ & Hr). by apply runs_Done in Hr as [_ [= <-]]. }
  exists p, b. split_and!; [| |done..]; apply elem_of_app; by left.
Qed.
Lemma runs_require_member key t x : runs (require_current_member (VaultState := VaultState) (DriveSealed := DriveSealed) key) t (Some (Ok x)) → listed key t.
Proof.
  unfold require_current_member. rewrite runs_try. intros (t1 & t2 & k & -> & _ & Hr).
  rewrite runs_try in Hr. destruct Hr as (t3 & t4 & l & -> & Hl%runs_engine_call & [-> Hb]%runs_check). apply (runs_call (ans := ans) AuthorityMembers) in Hl as ->.
  exists l. split; [set_solver|]. by apply bool_decide_eq_true in Hb.
Qed.
Lemma quiet_member_key endpoint_id endpoint : all_calls quiet (member_key_for_endpoint (VaultState := VaultState) (DriveSealed := DriveSealed) endpoint_id endpoint).
Proof. repeat first [apply all_calls_try; [first [apply quiet_engine_call|idtac]; by repeat split|intros ?]|done]. Qed.
Lemma runs_member_key endpoint_id endpoint t key :
  runs (member_key_for_endpoint (VaultState := VaultState) (DriveSealed := DriveSealed) endpoint_id endpoint) t (Some (Ok key)) →
  endpoint_id key = endpoint ∧ listed key t.
Proof.
  unfold member_key_for_endpoint. rewrite runs_try. intros (t1 & t2 & k & -> & _ & Hr).
  rewrite runs_try in Hr. destruct Hr as (t3 & t4 & l & -> & Hl%runs_engine_call & [-> Hk]%runs_Done).
  apply (runs_call (ans := ans) AuthorityMembers) in Hl as ->.
  assert (key ∈ filter (λ k, endpoint_id k = endpoint) l) as [He Hin]%list_elem_of_filter.
  { destruct (filter _ l) as [|x xs]; [done|]. injection Hk as ->. left. }
  split; [done|]. exists l. split; [set_solver|done].
Qed.

(** ** The recipient *)
(** [h] ends where the code holds everything it checks before it installs
    [seed]: the frame came after the context [c] was read; before and after it,
    [sender] was listed as a member and the frame's identity was read as the
    device's own; [c] is still the context; the seed is that root's. *)
Definition ready (sender : bytes) (h : history) (c : IdentityContext) (s : DeviceState) (seed : bytes) : Prop :=
  ∃ u1 b group u2, h = u1 ++ E ReadContext c :: E Recv (Some (Some b)) :: u2 ++ [E ReadContext c; E ReadState s] ∧
    received_frame b = Some (Transfer (verifying_key seed) group seed) ∧
    listed sender u1 ∧ identity_read (verifying_key seed) group u1 ∧
    listed sender u2 ∧ identity_read (verifying_key seed) group u2.
(** Where a seed may change: to the checked one, or, when the checkpoint did
    not land and the context is still the same, back to what was there. *)
Definition may_replace (sender : bytes) (h : history) (o : option bytes) : Prop :=
  (∃ c s seed, ready sender h c s seed ∧ o = Some seed) ∨
  (∃ h0 c s seed e, ready sender h0 c s seed ∧ o = held s ∧
    h = h0 ++ [E (ReplaceRootSeed (Some seed)) true; E CheckpointDurable (Err e); E ReadContext c]).
(** The seed is on disk, and the context is still the same. *)
Definition saved (sender : bytes) (h : history) : Prop :=
  ∃ h0 c s seed, ready sender h0 c s seed ∧
    h = h0 ++ [E (ReplaceRootSeed (Some seed)) true; E CheckpointDurable (Ok tt); E ReadContext c; E PushContactsChanged tt].
Definition recipient_may (sender : bytes) (h : history) (c : call) : Prop :=
  match c with
  | ReplaceRootSeed o => may_replace sender h o
  | Send b => b = encode FrameRefused ∨ b = encode Persisted ∧ saved sender h
  | BindIdentity _ _ => False
  | _ => True
  end.

Lemma wp_read {X Y} (G : history → call → Prop) (p : prog (result Error X)) (k : X → prog (result Error Y)) h Q :
  (∀ h c, quiet c → G h c) → all_calls quiet p → (∀ e h, Q (Err e) h) →
  (∀ t x, runs p t (Some (Ok x)) → wp G (k x) (h ++ t) Q) → wp G (try p k) h Q.
Proof. intros HG Hp HE Hk. apply wp_try. apply (wp_quiet G quiet); [done..|]. intros t [x|e] Hr; [by apply Hk|apply HE]. Qed.
Lemma wp_check {Y} (G : history → call → Prop) (b : bool) e (k : unit → prog (result Error Y)) h Q :
  (∀ e h, Q (Err e) h) → (b = true → wp G (k tt) h Q) → wp G (try (check b e) k) h Q.
Proof. intros HE Hk. unfold check. destruct b; [by apply Hk|apply HE]. Qed.

Ltac step := cbn [try mbind prog_bind prog_bind_ mret prog_ret Async.call check give identity_context_is require_context
  root_seed install_root_seed replace_root_seed identity_context send receive ok_or option_bind negb orb].
Lemma recipient_receives sender : wp (recipient_may sender) (receive_root_transfer sender) []
  (λ r h, match r with Ok _ => saved sender h | Err _ => True end).
Proof.
  unfold receive_root_transfer.
  assert (∀ h c, quiet c → recipient_may sender h c) as HG by (intros h []; cbn; tauto).
  assert (all_calls quiet (identity_open (VaultState := VaultState) (DriveSealed := DriveSealed))) as Hopen by done.
  apply wp_read; [done..|]. intros t0 [] _.
  apply wp_read; [done|apply quiet_require_member|done|]. intros t1 [] Hm1%runs_require_member.
  apply wp_read; [done|apply quiet_identity_status|done|]. intros t2 before Hi1%runs_identity_status.
  split; [done|]. intros c. step.
  split; [done|]. intros [[b|]|]; [|done..]. step.
  destruct (received_frame b) as [[root group seed| | |]|] eqn:Hb; [|exact I..].
  apply wp_read; [done|apply quiet_require_member|done|]. intros t3 [] Hm2%runs_require_member.
  apply wp_read; [done|apply quiet_identity_status|done|]. intros t4 now Hi2%runs_identity_status.
  split; [done|]. intros c'. step. destruct (decide (c' = c)) as [->|]; [|rewrite (bool_decide_false (c' = c)) by done; exact I].
  rewrite (bool_decide_true (c = c)) by done. step.
  apply wp_check; [done|]. intros [Hr1%bool_decide_eq_true Hg1%bool_decide_eq_true]%andb_true_iff.
  destruct (decide (root = st_root now)) as [Hr|]; [|rewrite (bool_decide_false (root = st_root now)) by done; exact I].
  destruct (decide (group = st_group now)) as [Hg|]; [|rewrite (bool_decide_false (group = st_group now)), ?orb_true_r by done; exact I].
  destruct (decide (verifying_key seed = root)) as [Hk|]; [|rewrite (bool_decide_false (verifying_key seed = root)), ?orb_true_r by done; exact I].
  rewrite (bool_decide_true (root = _)), (bool_decide_true (group = _)), (bool_decide_true (verifying_key seed = _)) by done. step.
  split; [done|]. intros s. step.
  match goal with |- wp _ _ ?h0 _ => assert (ready sender h0 c s seed) as Hready; [|generalize dependent h0] end.
  { exists (t0 ++ t1 ++ t2), b, group, (t3 ++ t4). rewrite Hk. split.
    - rewrite <- !app_assoc. done.
    - rewrite Hr, Hg, <- Hr1, <- Hg1 in *. unfold listed, identity_read in *. set_solver. }
  intros h0 Hready. split; [left; by eauto|]. intros []; [|by split]. step. split; [done|]. intros [[]|e]; step.
  - split; [done|]. intros c'. step. destruct (decide (c' = c)) as [->|]; [|rewrite (bool_decide_false (c' = c)) by done; exact I].
    rewrite (bool_decide_true (c = c)) by done. split; [done|]. intros []. exists h0, c, s, seed. split; [done|]. by rewrite <- !app_assoc.
  - split; [done|]. intros c'. step. destruct (decide (c' = c)) as [->|]; [|rewrite (bool_decide_false (c' = c)) by done; exact I].
    rewrite (bool_decide_true (c = c)) by done. split; [|by intros []]. right. exists h0, c, s, seed, e. split_and!; [done..|]. by rewrite <- !app_assoc.
Qed.

(** ** The sender *)
Section Sender.
Context (endpoint_id : bytes → string).
(** [h] ends where the code holds everything it checks before it sends [seed]:
    [target], a listed member, has the chosen [endpoint], is the peer of the
    connection, and after the connection is listed again; the identity read
    after the connection is the one read before it, and so is the context. *)
Definition sendable (endpoint : string) (h : history) (c : IdentityContext) (target root group seed : bytes) : Prop :=
  ∃ u1 u2 s, h = u1 ++ [E ReadContext c; E Endpoint true; E (Connect endpoint) (Some (Ok target))] ++ u2 ++ [E ReadContext c; E ReadState s] ∧
    endpoint_id target = endpoint ∧ listed target u1 ∧ identity_read root group u1 ∧
    listed target u2 ∧ identity_read root group u2 ∧ held s = Some seed.
(** The recipient said it keeps the seed, and everything still holds. *)
Definition acknowledged (endpoint : string) (h : history) : Prop :=
  ∃ h0 c target root group seed b u, sendable endpoint h0 c target root group seed ∧
    h = h0 ++ [E (Send (encode (Transfer root group seed))) (Some (Ok tt)); E Recv (Some (Some b)); E ReadContext c] ++ u ∧
    received_frame b = Some Persisted ∧ identity_read root group u ∧ listed target u.
Definition sender_may (endpoint : string) (h : history) (c : call) : Prop :=
  match c with
  | Send b => (∃ c target root group seed, sendable endpoint h c target root group seed ∧ b = encode (Transfer root group seed)) ∨
    acknowledged endpoint h ∧ b = encode Received
  | ReplaceRootSeed _ | BindIdentity _ _ | PushContactsChanged | CheckpointDurable => False
  | _ => True
  end.
(** What a successful transfer has behind it. *)
Definition delivered (endpoint : string) (h : history) : Prop :=
  ∃ h0, acknowledged endpoint h0 ∧ h = h0 ++ [E (Send (encode Received)) (Some (Ok tt))].

Lemma sender_quiet endpoint : ∀ h c, quiet c → sender_may endpoint h c.
Proof. by intros h []. Qed.
#[local] Hint Resolve sender_quiet quiet_require_member quiet_identity_status : core.

(** Everything [transfer_to] may rely on when it starts. *)
Lemma sender_sends endpoint target peer before c h0 : endpoint_id target = endpoint → listed target h0 →
  identity_read (st_root before) (st_group before) h0 →
  wp (sender_may endpoint) (transfer_to target peer before c) (h0 ++ [E ReadContext c; E Endpoint true; E (Connect endpoint) (Some (Ok peer))])
    (λ r h, match r with Ok _ => delivered endpoint h | Err _ => True end).
Proof.
  intros He Hl Hi. unfold transfer_to. apply wp_check; [done|]. intros ->%bool_decide_eq_true.
  apply wp_read; [auto..|]. intros t1 [] Hl1%runs_require_member.
  apply wp_read; [auto..|]. intros t2 now Hi1%runs_identity_status.
  split; [done|]. intros c'. step. destruct (decide (c' = c)) as [->|]; [|rewrite (bool_decide_false (c' = c)) by done; exact I].
  rewrite (bool_decide_true (c = c)) by done. step.
  apply wp_check; [done|]. intros [Hr%bool_decide_eq_true Hg%bool_decide_eq_true]%andb_true_iff. rewrite Hr, Hg in Hi.
  split; [done|]. intros s. step. destruct (Persist.device s ≫= Device.root_seed) as [seed|] eqn:Hs; [|exact I].
  match goal with |- wp _ _ ?h _ => assert (sendable endpoint h c target (st_root now) (st_group now) seed) as Hready; [|generalize dependent h] end.
  { exists h0, (t1 ++ t2), s. split; [by rewrite <- !app_assoc|]. unfold listed, identity_read in *. set_solver. }
  intros h Hready. split; [left; by eauto 8|]. intros [[[]|]|]; [|exact I..]. step.
  split; [done|]. intros [[b|]|]; [|exact I..]. step. destruct (received_frame b) as [[| | |]|] eqn:Hb; [exact I| |exact I..].
  split; [done|]. intros c'. step. destruct (decide (c' = c)) as [->|]; [|rewrite (bool_decide_false (c' = c)) by done; exact I].
  rewrite (bool_decide_true (c = c)) by done. step.
  apply wp_read; [auto..|]. intros t3 last Hi2%runs_identity_status.
  apply wp_check; [done|]. intros [Hr2%bool_decide_eq_true Hg2%bool_decide_eq_true]%andb_true_iff. rewrite <- Hr2, <- Hg2, Hr, Hg in Hi2.
  apply wp_read; [auto..|]. intros t4 [] Hl2%runs_require_member.
  match goal with |- wp _ _ ?h _ => assert (acknowledged endpoint h) as Hack; [|generalize dependent h] end.
  { exists h, c, target, (st_root now), (st_group now), seed, b, (t3 ++ t4). split; [done|]. split; [by rewrite <- !app_assoc|].
    split; [done|]. unfold listed, identity_read in *. set_solver. }
  intros h' Hack. split; [by right|]. intros [[[]|]|]; [|exact I..]. by exists h'.
Qed.
End Sender.

(** ** What holds over every history *)
(** C14: Nothing reaches the device's root seed, and nothing is acknowledged,
    before the checks: over every history of [root_transfer_accept]. *)
Theorem received_seed_is_checked sender t r : runs (root_transfer_accept sender) t r →
  ∀ t1 e t2, t = t1 ++ e :: t2 → recipient_may sender t1 (asked e).
Proof.
  intros Hr. eapply (wp_guards (recipient_may sender) _ [] (λ _ _, True)) in Hr as [Hr _]; [exact Hr|].
  unfold root_transfer_accept. apply wp_bind. eapply wp_mono; [apply recipient_receives|].
  intros [[]|e] h Hs; cbn [app] in *.
  - split; [by right|]. intros [[[]|]|]; cbn; done.
  - split; [by left|]. done.
Qed.

(** C15: The sender gives the root away only to a current member of the same
    identity, over every history of [root_transfer]; and it reports success
    only when the recipient acknowledged a persisted seed, the receipt went out
    and the connection is closed. *)
Theorem sent_seed_is_checked endpoint_id endpoint t r : runs (root_transfer endpoint_id endpoint) t r →
  (∀ t1 e t2, t = t1 ++ e :: t2 → sender_may endpoint_id endpoint t1 (asked e)) ∧
  (r = Some (Ok tt) → ∃ h, delivered endpoint_id endpoint h ∧ t = h ++ [E Close tt]).
Proof.
  intros Hr. eapply (wp_guards (sender_may endpoint_id endpoint) _ []
    (λ r h, match r with Ok _ => ∃ h', delivered endpoint_id endpoint h' ∧ h = h' ++ [E Close tt] | Err _ => True end)) in Hr as [Hr Hq].
  { split; [exact Hr|]. by intros ->. }
  clear. unfold root_transfer. assert (Hq := sender_quiet endpoint_id endpoint).
  apply wp_read; [done..|]. intros t0 [] _.
  apply wp_read; [done|apply quiet_member_key|done|]. intros t1 target [He Hl]%runs_member_key.
  apply wp_read; [done..|]. intros t2 mine _.
  destruct (bool_decide (target = mine)); [exact I|].
  apply wp_read; [done|apply quiet_identity_status|done|]. intros t3 before Hi%runs_identity_status.
  split; [done|]. intros c. step. split; [done|]. intros ready'. step. destruct ready'; [|exact I]. step.
  split; [done|]. intros [[peer|e]|]; [|exact I..]. step.
  apply (wp_bind (ans := ans)). rewrite <- !app_assoc. cbn [app].
  replace (t0 ++ t1 ++ t2 ++ t3 ++ _) with ((t0 ++ t1 ++ t2 ++ t3) ++ [E ReadContext c; E Endpoint true; E (Connect endpoint) (Some (Ok peer))])
    by by rewrite <- !app_assoc.
  eapply wp_mono; [apply sender_sends; [done|unfold listed, identity_read in *; set_solver..]|].
  intros [[]|e] h Hd; cbn in Hd; (split; [done|]); intros []; [|exact I]. by eexists.
Qed.
(** ** The first identity *)
Definition founding (h : history) (seed binding : bytes) (claims : list Claim) : Prop :=
  ∃ h0 group s, h = h0 ++ [E Fill32 seed; E ReadState s] ∧ E AuthorityGroup (Ok group) ∈ h0 ∧
    E ReadSelfProfile (Ok None) ∈ h0 ∧ binding = sign_root_binding seed group ∧
    let name := default EmptyString (Persist.device s ≫= λ d, meta_user (meta d) !! "name"%string) in
    claims = if bool_decide (name = EmptyString) then [] else [mkClaim "name" name].
Definition founder_may (h : history) (c : call) : Prop :=
  match c with
  | BindIdentity binding profile => ∃ seed claims, founding h seed binding claims ∧ sign_profile seed claims = Ok profile
  | ReplaceRootSeed o => ∃ h0 seed binding profile claims, o = Some seed ∧ founding h0 seed binding claims ∧
      h = h0 ++ [E (BindIdentity binding profile) (Ok tt)]
  | Send _ | PushContactsChanged | CheckpointDurable => False
  | _ => True
  end.
(** A device founds an identity only when its contacts document has none: the
    document is bound, by a seed just drawn, to the device's own group under the
    device's name, before the device keeps the seed; and an identity that is
    there already stays as it was. *)
Theorem identity_founded_once t r : runs initialize_contacts t r →
  (∀ t1 e t2, t = t1 ++ e :: t2 → founder_may t1 (asked e)) ∧
  (∀ b, r = Some (Ok b) → (b = true ↔ E ReadSelfProfile (Ok None) ∈ t)).
Proof.
  intros Hr. eapply (wp_guards founder_may _ [] (λ r h, match r with Ok b => b = true ↔ E ReadSelfProfile (Ok None) ∈ h | Err _ => True end))
    in Hr as [Hr Hq].
  { split; [exact Hr|]. by intros b ->. }
  clear. assert (∀ h (c : call), quiet c → founder_may h c) as HG by by intros h [].
  unfold initialize_contacts.
  split; [done|]. intros [k|]; [|exact I]. step. split; [done|]. intros [g|e]; [|exact I]. step.
  split; [done|]. intros [[p|]|e]; [| |exact I]; step.
  - apply wp_read; [done|apply quiet_validate|done|]. intros t [] Hr%reads_validate. step. cbn [app]. split; [done|].
    rewrite !elem_of_cons, Forall_forall in *. intros [H|[H|[H|Hin]]]; exfalso; [| | |by apply Hr in Hin];
      by apply (f_equal (λ e : event, match e with Ev ReadSelfProfile (Ok None) => true | _ => false end)) in H.
  - split; [done|]. intros seed. step. split; [done|]. intros s. step. cbn [app].
    match goal with |- wp _ ?p ?h _ => match p with context [sign_profile seed ?cl] =>
      set (claims := cl); assert (founding h seed (sign_root_binding seed g) claims) as Hf end end.
    { exists [E EngineKey (Some k); E AuthorityGroup (Ok g); E ReadSelfProfile (Ok None)], g, s. split_and!; [done|set_solver..|done|done]. }
    destruct (sign_profile seed claims) as [profile|] eqn:Hs; [|exact I]. step.
    split; [by exists seed, claims|]. intros [[]|]; [|exact I]. step. cbn [app].
    split; [by eexists _, seed, _, profile, claims; split; [|split; [exact Hf|]]|].
    intros []; step; [|by split]. split; [|done]. intros _. set_solver.
Qed.
End Custody.

(** ** A concrete transfer *)
Module Concrete.
Import Crypto.Toy ToySigned.
Definition ada : bytes := replicate 32 (byte_of 1).
Definition group : bytes := replicate 32 (byte_of 9).
Definition profile : SelfProfile := mkSelf (verifying_key ada) (sign_root_binding ada group) [].
Definition alice : bytes := replicate 32 (byte_of 5).
Definition bob : bytes := replicate 32 (byte_of 6).
Definition device_with (root_seed : option bytes) : @Persist.DeviceState unit unit :=
  mkState (IndexRow_fresh "device" 0) (Some (mkDek [])) None (Some (mkDevice "device" root_seed 0 Meta_default)) [] None None 0 0 false.
(** The rest of a kernel: the seed its device holds, whether checkpoints land,
    and the frames still to come. *)
Record world := mkWorld { public : option SelfProfile; there : bool; custody : option bytes; disk : result Error unit; inbox : list bytes }.
Definition handle (w : world) (c : call) : option (ans c * world) :=
  match c as c return option (ans c * world) with
  | ReadState => Some (device_with (custody w), w)
  | ReadContext => Some (mkContext 0 false, w)
  | EngineKey => Some (Some bob, w)
  | ReplaceRootSeed o => Some (there w, mkWorld (public w) (there w) o (disk w) (inbox w))
  | Panic => None
  | Fill32 => Some (ada, w)
  | PushContactsChanged => Some (tt, w)
  | ReadSelfProfile => Some (Ok (public w), w)
  | BindIdentity _ _ => Some (Ok tt, w)
  | AuthorityGroup => Some (Ok group, w)
  | AuthorityMembers => Some (Ok [alice; bob], w)
  | CheckpointDurable => Some (disk w, if decide (disk w = Err erased_error) then mkWorld (public w) false None (disk w) (inbox w) else w)
  | Endpoint => Some (true, w)
  | Connect _ => Some (Some (Ok alice), w)
  | Send _ => Some (Some (Ok tt), w)
  | Recv => Some (Some (hd_error (inbox w)), mkWorld (public w) (there w) (custody w) (disk w) (tail (inbox w)))
  | Close => Some (tt, w)
  end.
Definition accepting (d : result Error unit) :=
  run_with handle (mkWorld (Some profile) true None d [encode (Transfer (verifying_key ada) group ada); encode Received]) (root_transfer_accept alice).
Definition sending := run_with handle (mkWorld (Some profile) true (Some ada) (Ok tt) [encode Persisted])
  (root_transfer (λ k, if decide (k = alice) then "alice" else "bob")%string "alice").
Definition initializing := run_with handle (mkWorld None true None (Ok tt) []) initialize_contacts.
Definition disk_full : Error := Error_new Failed "disk".
Definition effects (t : list (Async.event (ans (VaultState := unit) (DriveSealed := unit)))) : list call :=
  omap (λ c, match c with ReplaceRootSeed _ | Send _ | PushContactsChanged | CheckpointDurable | Close => Some c | _ => None end)
    (asked <$> t).
Lemma accepting_effects : effects (accepting (Ok tt)).1 =
  [ReplaceRootSeed (Some ada); CheckpointDurable; PushContactsChanged; Send (encode Persisted); Close].
Proof. vm_compute. reflexivity. Qed.
Lemma rolling_back_effects : effects (accepting (Err disk_full)).1 =
  [ReplaceRootSeed (Some ada); CheckpointDurable; ReplaceRootSeed None; CheckpointDurable; Send (encode FrameRefused); Close].
Proof. vm_compute. reflexivity. Qed.
(** The device is erased while the recipient waits for its checkpoint: the
    rollback finds no device, and the recipient never answers. *)
Example erased_while_receiving : effects (accepting (Err erased_error)).1 =
  [ReplaceRootSeed (Some ada); CheckpointDurable; ReplaceRootSeed None] ∧ (accepting (Err erased_error)).2 = None.
Proof. vm_compute. split; reflexivity. Qed.
Lemma sending_effects : effects sending.1 = [Send (encode (Transfer (verifying_key ada) group ada)); Send (encode Received); Close] ∧
  sending.2 = Some (Ok tt).
Proof. vm_compute. split; reflexivity. Qed.
Lemma asked_guarded {G : list (Async.event (ans (VaultState := unit) (DriveSealed := unit))) → call → Prop} t c : (∀ t1 e t2, t = t1 ++ e :: t2 → G t1 (asked e)) → c ∈ effects t → ∃ h, G h c.
Proof.
  intros HG (c' & (e & -> & (t1 & t2 & Ht)%list_elem_of_split)%list_elem_of_fmap & Hc)%list_elem_of_omap.
  exists t1. assert (asked e = c) as <- by (by destruct (asked e); simplify_eq). by apply (HG t1 e t2).
Qed.
Lemma received_seed_is_checked_witness :
  (∃ h, recipient_may (VaultState := unit) (DriveSealed := unit) alice h (ReplaceRootSeed (Some ada))) ∧
  (∃ h, recipient_may (VaultState := unit) (DriveSealed := unit) alice h (ReplaceRootSeed None)) ∧
  (∃ h, recipient_may (VaultState := unit) (DriveSealed := unit) alice h (Send (encode Persisted))).
Proof.
  assert (∀ d, runs (root_transfer_accept alice) (accepting d).1 (accepting d).2) as Hr by (intros d; apply run_with_runs).
  split_and!.
  - apply (asked_guarded (accepting (Ok tt)).1); [exact (received_seed_is_checked _ _ _ (Hr (Ok tt)))|]. rewrite accepting_effects. left.
  - apply (asked_guarded (accepting (Err disk_full)).1); [exact (received_seed_is_checked _ _ _ (Hr (Err disk_full)))|]. rewrite rolling_back_effects. do 2 right. left.
  - apply (asked_guarded (accepting (Ok tt)).1); [exact (received_seed_is_checked _ _ _ (Hr (Ok tt)))|]. rewrite accepting_effects. do 3 right. left.
Defined.
Lemma sent_seed_is_checked_witness :
  ∃ h, delivered (VaultState := unit) (DriveSealed := unit) (λ k, if decide (k = alice) then "alice" else "bob")%string "alice" h ∧
    sending.1 = h ++ [Ev Close tt].
Proof.
  apply (proj2 (sent_seed_is_checked (λ k, if decide (k = alice) then "alice" else "bob")%string "alice" sending.1 sending.2
    (run_with_runs handle _ _))). exact (proj2 sending_effects).
Defined.
Lemma identity_founded_once_witness :
  (∃ h, founder_may (VaultState := unit) (DriveSealed := unit) h (ReplaceRootSeed (Some ada))) ∧
  Ev ReadSelfProfile (Ok None) ∈ initializing.1.
Proof.
  pose proof (identity_founded_once initializing.1 initializing.2 (run_with_runs handle _ _)) as [Hg Hb].
  split; [apply (asked_guarded initializing.1); [exact Hg|]; vm_compute; left|].
  apply (Hb true); [vm_compute|]; reflexivity.
Defined.
End Concrete.
