(* ===== verification/DriveText.v ===== *)
(** * The durable store: its state and its texts ([runtime/crates/kernel/src/drive.rs])

    Names under the group's key, the encodings requests are built from, how an
    answer is classified, and the state the device keeps.  JSON is read and
    written by [serde_json], a parameter.  Text is UTF-8 bytes; the client id a
    person types is a list of characters. *)
From S2P Require Import Prelude Crypto Error Text Codes Storage.

(** ** JSON *)
Record Issued := mkIssued { access_token : string; refresh_token : option string; expires_in : option Z }.
Class DriveJson := {
  json : Type;
  Null : json;
  (** [from_slice::<Value>], with the error's text *)
  parse : bytes → result string json;
  get : json → string → option json;
  as_str : json → option string;
  as_array : json → option (list json);
  (** [json!({..}).to_string()] of string and string-list fields *)
  object_text : list (string * (string + list string)) → string;
  parse_issued : bytes → result string Issued;
  item_to_vec : StoreItem → result string bytes;
  item_from_slice : bytes → result string StoreItem;
}.
Record HttpResponse := mkResponse { status : Z; headers : list (string * string); body : bytes }.

(** ** Names and encodings *)
Section Names.
Context `{Hmac}.
Definition object_name (name_key tree commit : bytes) (kind : ItemKind) : string :=
  hex (hmac name_key (tree ++ commit ++ match kind with ItemFragment => as_bytes "fragment" | ItemCommit => [] end)).
Definition folder_name (name_key : bytes) : string :=
  "polyvisor-" +:+ str_of (take 16 (hex_bytes (hmac name_key (as_bytes "folder")))).
End Names.

(** [query]: percent-encoding; [format!("%{other:02X}")]. *)
Definition unreserved (b : byte) : bool :=
  let x := u8 b in
  ((65 <=? x) && (x <=? 90)) || ((97 <=? x) && (x <=? 122)) || ((48 <=? x) && (x <=? 57)) ||
  (x =? 45) || (x =? 95) || (x =? 46) || (x =? 126).
Definition HEX_digit (n : Z) : byte := byte_of (if n <? 10 then 48 + n else 55 + n).
Definition query_byte (b : byte) : bytes :=
  if unreserved b then [b] else [byte_of 37; HEX_digit (u8 b / 16); HEX_digit (u8 b mod 16)].
Definition query (raw : string) : string := str_of (as_bytes raw ≫= query_byte).
Definition form (pairs : list (string * string)) : string :=
  String.concat "&" ((λ '(key, value), query key +:+ "=" +:+ query value) <$> pairs).
(** [str::replace] of one character. *)
Fixpoint replace_char (c : Ascii.ascii) (by_ raw : string) : string :=
  match raw with
  | EmptyString => EmptyString
  | String d raw => (if Ascii.eqb d c then by_ else String d EmptyString) +:+ replace_char c by_ raw
  end.
Definition backslash : Ascii.ascii := Ascii.ascii_of_nat 92.
Definition quote : Ascii.ascii := Ascii.ascii_of_nat 39.
Definition literal (raw : string) : string :=
  replace_char quote (String backslash (String quote EmptyString))
    (replace_char backslash (String backslash (String backslash EmptyString)) raw).

(** ** Requests *)
Definition DRIVE_API : string := "https://www.googleapis.com".
Definition DRIVE_AUTH : string := "https://accounts.google.com/o/oauth2/v2/auth".
Definition DRIVE_TOKEN : string := "https://oauth2.googleapis.com/token".
Definition SCOPE : string := "https://www.googleapis.com/auth/drive.appdata".
Definition APP_DATA : string := "appDataFolder".
Definition FOLDER_MIME : string := "application/vnd.google-apps.folder".
Definition BOUNDARY : string := "polyvisordrive1f4a2e7c".
Definition PAGE_SIZE : Z := 1000.
Definition crlf : string := String (Ascii.ascii_of_nat 13) (String (Ascii.ascii_of_nat 10) EmptyString).

Record Config := mkConfig { page_url : string; cfg_api : option string; oauth : option string }.
(** [trim_end_matches('/')] *)
Fixpoint trim_slashes_rev (b : bytes) : bytes :=
  match b with c :: b' => if u8 c =? 47 then trim_slashes_rev b' else b | [] => [] end.
Definition trim_end_slashes (s : string) : string := str_of (reverse (trim_slashes_rev (reverse (as_bytes s)))).
Definition api (self : Config) : string := default DRIVE_API (cfg_api self).
Definition auth_url (self : Config) : string :=
  match oauth self with Some base => trim_end_slashes base +:+ "/auth" | None => DRIVE_AUTH end.
Definition token_url (self : Config) : string :=
  match oauth self with Some base => trim_end_slashes base +:+ "/token" | None => DRIVE_TOKEN end.

(** ** The state *)
Record Tokens := mkTokens { access : string; refresh : string; client_id : string; client_secret : string; expires_at_ms : Z }.
Record Sealed := mkSealed { s_tokens : option Tokens; s_last_pull : Z; s_last_push : Z }.
Record Binding := mkDriveBinding { provider : string; b_state : string; b_last_pull : Z; b_last_push : Z }.
Record Ceremony := mkCeremony { verifier : string; c_state : string; c_client_id : string; c_client_secret : string }.
Inductive Trouble := Reauthorize (why : string) | Hiccup (why : string).
#[export] Instance Trouble_eq_dec : EqDecision Trouble.
Proof. solve_decision. Defined.
Record Drive := mkDrive {
  tokens : option Tokens;
  last_pull : Z;
  last_push : Z;
  pending : option Ceremony;
  trouble : option Trouble;
  folder : option (bytes * string);
  rejected : gset string;
}.
Definition Drive_default : Drive := mkDrive None 0 0 None None None ∅.
Definition set_tokens t d := mkDrive t (last_pull d) (last_push d) (pending d) (trouble d) (folder d) (rejected d).
Definition set_pull n d := mkDrive (tokens d) n (last_push d) (pending d) (trouble d) (folder d) (rejected d).
Definition set_push n d := mkDrive (tokens d) (last_pull d) n (pending d) (trouble d) (folder d) (rejected d).
Definition set_pending p d := mkDrive (tokens d) (last_pull d) (last_push d) p (trouble d) (folder d) (rejected d).
Definition set_trouble t d := mkDrive (tokens d) (last_pull d) (last_push d) (pending d) t (folder d) (rejected d).
Definition set_folder f d := mkDrive (tokens d) (last_pull d) (last_push d) (pending d) (trouble d) f (rejected d).
Definition set_rejected r d := mkDrive (tokens d) (last_pull d) (last_push d) (pending d) (trouble d) (folder d) r.

Definition restore (sealed : option Sealed) : Drive :=
  match sealed with
  | None => Drive_default
  | Some s => mkDrive (s_tokens s) (s_last_pull s) (s_last_push s) None None None ∅
  end.
Definition sealed (self : Drive) : option Sealed :=
  _ ← tokens self; Some (mkSealed (tokens self) (last_pull self) (last_push self)).
Definition bound (self : Drive) : bool := bool_decide (is_Some (tokens self)).
Definition state (self : Drive) : string :=
  match tokens self, trouble self with
  | None, _ => "not connected"
  | Some _, Some (Reauthorize why) => "needs re-authorization: " +:+ why
  | Some _, Some (Hiccup why) => "connected; the last sync did not finish: " +:+ why
  | Some _, None => "connected"
  end.
Definition binding (self : Drive) : Binding := mkDriveBinding "gdrive" (state self) (last_pull self) (last_push self).

(** ** Answers *)
Definition expiry (now : Z) (expires_in : option Z) : Z :=
  match expires_in with
  | Some seconds => saturating_add 64 now (saturating_sub (saturating_mul 64 seconds 1000) 60000)
  | None => 0
  end.
Definition refusal (status : Z) (what : string) : option Trouble :=
  if status =? 401 then Some (Reauthorize ("the store no longer accepts this device's sign-in, so it cannot " +:+ what)) else None.
Definition success (status : Z) : bool := (200 <=? status) && (status <? 300).

(** The bytes of a UTF-8 text that do not start a character. *)
Definition continuation (b : byte) : bool := (128 <=? u8 b) && (u8 b <? 192).
(** [text.char_indices().nth(limit)] *)
Fixpoint nth_char (limit : nat) (text : bytes) : option nat :=
  match text with
  | [] => None
  | b :: text =>
    if continuation b then S <$> nth_char limit text else
    match limit with O => Some 0%nat | S limit => S <$> nth_char limit text end
  end.
Definition ellipsis : bytes := [byte_of 0xe2; byte_of 0x80; byte_of 0xa6].
Definition clip (text : string) (limit : nat) : string :=
  match nth_char limit (as_bytes text) with
  | Some cut => str_of (take cut (as_bytes text) ++ ellipsis)
  | None => text
  end.

Section Json.
Context `{DriveJson}.
Definition str_field (v : json) (k : string) : option string := get v k ≫= as_str.
Definition json_of (response : HttpResponse) (what : string) : result Trouble json :=
  match refusal (status response) what with
  | Some t => Err t
  | None =>
    if negb (success (status response))
    then Err (Hiccup ("the store answered " +:+ pretty (status response) +:+ " trying to " +:+ what)) else
    if bool_decide (body response = []) then Ok Null else
    map_err (λ e, Hiccup ("the store's answer could not be read: " +:+ e)) (parse (body response))
  end.
Definition oauth_error (b : bytes) : string :=
  match parse b with
  | Err _ => EmptyString
  | Ok value =>
    let code := default EmptyString (str_field value "error") in
    let detail := default EmptyString (str_field value "error_description") in
    let shown joined := ": " +:+ clip joined 120 in
    match bool_decide (code = EmptyString), bool_decide (detail = EmptyString) with
    | true, true => EmptyString
    | false, true => shown code
    | true, false => shown detail
    | false, false => shown (code +:+ ": " +:+ detail)
    end
  end.
(** The pairs of one page of a listing. *)
Definition file_entry (file : json) : option (string * string) :=
  id ← str_field file "id"; name ← str_field file "name"; Some (id, name).
Definition page_files (value : json) : list (string * string) :=
  match get value "files" ≫= as_array with Some files => omap file_entry files | None => [] end.
Definition multipart (folder name : string) (b : bytes) : bytes :=
  as_bytes ("--" +:+ BOUNDARY +:+ crlf +:+ "Content-Type: application/json; charset=UTF-8" +:+ crlf +:+ crlf +:+
    object_text [("name", inl name); ("parents", inr [folder])] +:+ crlf) ++
  as_bytes ("--" +:+ BOUNDARY +:+ crlf +:+ "Content-Type: application/octet-stream" +:+ crlf +:+ crlf) ++ b ++
  as_bytes (crlf +:+ "--" +:+ BOUNDARY +:+ "--" +:+ crlf).
End Json.

(** ** What the encodings keep *)
(** Reading a percent-encoding back. *)
Fixpoint unquery (text : bytes) : option bytes :=
  match text with
  | [] => Some []
  | c :: text =>
    if u8 c =? 37 then
      match text with
      | a :: b :: text => h ← to_digit16 a; l ← to_digit16 b; r ← unquery text; Some (byte_of (16 * h + l) :: r)
      | _ => None
      end
    else r ← unquery text; Some (c :: r)
  end.
Lemma unquery_byte b text : unquery (query_byte b ++ text) = r ← unquery text; Some (b :: r).
Proof. destruct b; reflexivity. Qed.
Lemma query_byte_plain b : forallb (λ c, unreserved c || (u8 c =? 37)) (query_byte b) = true.
Proof. by destruct b. Qed.
Lemma as_bytes_query raw : as_bytes (query raw) = as_bytes raw ≫= query_byte.
Proof. unfold query. apply String.list_byte_of_string_of_list_byte. Qed.
Lemma query_spec raw : unquery (as_bytes (query raw)) = Some (as_bytes raw) ∧
  Forall (λ c, unreserved c = true ∨ u8 c = 37) (as_bytes (query raw)).
Proof.
  rewrite as_bytes_query. generalize (as_bytes raw) as l. induction l as [|b l [IH1 IH2]]; [by split|].
  rewrite bind_cons. split; [by rewrite unquery_byte, IH1|]. apply Forall_app. split; [|done].
  pose proof (query_byte_plain b) as Hb. rewrite forallb_forall in Hb. rewrite Forall_forall. intros c Hc%list_elem_of_In.
  apply Hb, orb_true_iff in Hc as [?|?%Z.eqb_eq]; auto.
Qed.

(** A Drive query literal, read from behind its opening quote. *)
Fixpoint scan_literal (s : string) : option (string * string) :=
  match s with
  | EmptyString => None
  | String c s =>
    if Ascii.eqb c quote then Some (EmptyString, s) else
    if Ascii.eqb c backslash then
      match s with EmptyString => None | String d s => '(x, r) ← scan_literal s; Some (String d x, r) end
    else '(x, r) ← scan_literal s; Some (String c x, r)
  end.
Lemma scan_quote rest : scan_literal (String quote rest) = Some (EmptyString, rest).
Proof. reflexivity. Qed.
Lemma scan_char c raw rest : Ascii.eqb c quote = false → Ascii.eqb c backslash = false →
  scan_literal (String c (raw +:+ rest)) = '(x, r) ← scan_literal (raw +:+ rest); Some (String c x, r).
Proof. intros H1 H2. cbn [scan_literal]. by rewrite H1, H2. Qed.
Lemma scan_escaped c s : scan_literal (String backslash (String c s)) = '(x, r) ← scan_literal s; Some (String c x, r).
Proof. reflexivity. Qed.
Lemma literal_cons c raw : literal (String c raw) =
  (if Ascii.eqb c quote then String backslash (String quote EmptyString)
   else if Ascii.eqb c backslash then String backslash (String backslash EmptyString) else String c EmptyString) +:+ literal raw.
Proof.
  unfold literal. cbn [replace_char]. destruct (Ascii.eqb c backslash) eqn:Eb.
  - apply Ascii.eqb_eq in Eb as ->. reflexivity.
  - generalize (replace_char backslash (String backslash (String backslash EmptyString)) raw) as r. intros r.
    change (String c EmptyString +:+ r) with (String c r). cbn [replace_char]. by destruct (Ascii.eqb c quote).
Qed.
Lemma literal_spec raw rest : scan_literal (literal raw +:+ String quote rest) = Some (raw, rest).
Proof.
  induction raw as [|c raw IH]; [apply scan_quote|]. rewrite literal_cons.
  destruct (Ascii.eqb c quote) eqn:Eq; [|destruct (Ascii.eqb c backslash) eqn:Eb].
  - apply Ascii.eqb_eq in Eq as ->. change (scan_literal (String backslash (String quote (literal raw +:+ String quote rest))) = Some (String quote raw, rest)).
    by rewrite scan_escaped, IH.
  - apply Ascii.eqb_eq in Eb as ->. change (scan_literal (String backslash (String backslash (literal raw +:+ String quote rest))) = Some (String backslash raw, rest)).
    by rewrite scan_escaped, IH.
  - change (scan_literal (String c (literal raw +:+ String quote rest)) = Some (String c raw, rest)).
    by rewrite scan_char, IH.
Qed.

(** A form, read back at its [&] and [=]. *)
Fixpoint split_on (sep : Z) (b : bytes) : list bytes :=
  match b with
  | [] => [[]]
  | c :: b =>
    if u8 c =? sep then [] :: split_on sep b else
    match split_on sep b with field :: fields => (c :: field) :: fields | [] => [[c]] end
  end.
Definition read_field (field : bytes) : option (string * string) :=
  match split_on 61 field with
  | [key; value] => k ← unquery key; v ← unquery value; Some (str_of k, str_of v)
  | _ => None
  end.
Definition read_form (text : string) : option (list (string * string)) := mapM read_field (split_on 38 (as_bytes text)).
Lemma split_on_none sep b : Forall (λ c, u8 c ≠ sep) b → split_on sep b = [b].
Proof.
  induction 1 as [|c b Hc _ IH]; [done|]. cbn [split_on]. rewrite IH. by rewrite (proj2 (Z.eqb_neq _ _)).
Qed.
Lemma split_on_sep sep b s b' : Forall (λ c, u8 c ≠ sep) b → u8 s = sep → split_on sep (b ++ s :: b') = b :: split_on sep b'.
Proof.
  intros Hb Hs. induction Hb as [|c b Hc _ IH]; cbn [app split_on].
  - by rewrite (proj2 (Z.eqb_eq _ _)).
  - rewrite IH. by rewrite (proj2 (Z.eqb_neq _ _)).
Qed.
Lemma query_clean raw sep : sep = 38 ∨ sep = 61 → Forall (λ c, u8 c ≠ sep) (as_bytes (query raw)).
Proof.
  intros Hs. destruct (query_spec raw) as [_ Hf]. eapply Forall_impl; [exact Hf|]. intros c Hc Hu.
  unfold unreserved in Hc. destruct Hs as [-> | ->]; rewrite Hu in Hc; destruct Hc as [?|?]; done.
Qed.
Definition field_text '(key, value) : string := query key +:+ "=" +:+ query value.
Lemma as_bytes_field kv : as_bytes (field_text kv) = as_bytes (query kv.1) ++ byte_of 61 :: as_bytes (query kv.2).
Proof. destruct kv as [k v]. unfold field_text. by rewrite !as_bytes_app. Qed.
Lemma read_field_text kv : read_field (as_bytes (field_text kv)) = Some kv.
Proof.
  destruct kv as [k v]. unfold read_field. rewrite as_bytes_field. cbn [fst snd].
  rewrite split_on_sep by (apply query_clean || done; auto). rewrite split_on_none by (apply query_clean; auto).
  rewrite (proj1 (query_spec k)), (proj1 (query_spec v)). cbn. by rewrite !str_of_as_bytes.
Qed.
Lemma field_clean kv : Forall (λ c, u8 c ≠ 38) (as_bytes (field_text kv)).
Proof.
  rewrite as_bytes_field. apply Forall_app. split; [apply query_clean; auto|]. constructor; [done|]. apply query_clean; auto.
Qed.
Lemma form_spec pairs : pairs ≠ [] → read_form (form pairs) = Some pairs.
Proof.
  unfold read_form, form. change (λ '(key, value), query key +:+ "=" +:+ query value) with field_text.
  induction pairs as [|kv pairs IH]; [done|]. intros _. destruct pairs as [|kv' pairs].
  - cbn [fmap list_fmap String.concat]. rewrite split_on_none by apply field_clean. cbn. by rewrite read_field_text.
  - specialize (IH ltac:(done)). rewrite !fmap_cons in *.
    change (String.concat "&" (field_text kv :: field_text kv' :: (field_text <$> pairs))) with
      (field_text kv +:+ "&" +:+ String.concat "&" (field_text kv' :: (field_text <$> pairs))).
    rewrite !as_bytes_app. change (as_bytes "&") with [byte_of 38]. cbn [app].
    rewrite split_on_sep by (apply field_clean || done). cbn [mapM]. rewrite read_field_text. cbn [mbind option_bind].
    by rewrite IH.
Qed.

(** What a person, a page or the store chose is only ever a value of a request:
    a query value and a form read back as they were built, and a name in a
    query literal never closes it. *)
Theorem request_values_contained :
  (∀ raw, unquery (as_bytes (query raw)) = Some (as_bytes raw) ∧
    Forall (λ c, unreserved c = true ∨ u8 c = 37) (as_bytes (query raw))) ∧
  (∀ pairs, pairs ≠ [] → read_form (form pairs) = Some pairs) ∧
  (∀ raw rest, scan_literal (literal raw +:+ String quote rest) = Some (raw, rest)).
Proof. split_and!; [apply query_spec|apply form_spec|apply literal_spec]. Qed.
Lemma request_values_contained_witness :
  read_form (form [("code", "a&b=c'%")]) = Some [("code", "a&b=c'%")] ∧
  scan_literal (literal "it's\here" +:+ "' in parents") = Some ("it's\here", " in parents").
Proof.
  destruct request_values_contained as (_ & Hform & Hliteral). split; [by apply Hform|exact (Hliteral _ " in parents")].
Defined.

Lemma hex_inj a b : hex a = hex b → a = b.
Proof.
  intros E. apply (f_equal visor_unhex) in E. rewrite !visor_unhex_hex in E. by injection E.
Qed.
Section NameFacts.
Context `{Hmac}.
(** Two items of the store share an object name only when they are the same
    tree, id and kind, unless two messages collide under the group's key; and
    names are 64 hexadecimal characters. *)
Theorem object_names_distinct key t c k t' c' k' :
  length t = 32%nat → length c = 32%nat → length t' = 32%nat → length c' = 32%nat →
  object_name key t c k = object_name key t' c' k' →
  (t, c, k) = (t', c', k') ∨ ∃ m m', m ≠ m' ∧ hmac key m = hmac key m'.
Proof.
  intros Ht Hc Ht' Hc' E%hex_inj. set (m := t ++ c ++ _) in E. set (m' := t' ++ c' ++ _) in E.
  destruct (decide (m = m')) as [Em|]; [left|right; by exists m, m']. subst m m'. rewrite !app_assoc in Em.
  assert (k = k') as ->.
  { apply (f_equal length) in Em. rewrite !length_app, Ht, Hc, Ht', Hc' in Em. by destruct k, k'. }
  apply app_inj_2 in Em as [Em _]; [|done]. apply app_inj_1 in Em as [-> ->]; [done|congruence].
Qed.
Lemma length_object_name key t c k : String.length (object_name key t c k) = 64%nat.
Proof. unfold object_name. rewrite length_string, as_bytes_hex, length_hex_bytes, length_hmac. done. Qed.
End NameFacts.
Lemma object_names_distinct_witness :
  let r b := replicate 32 (byte_of b) in
  (r 1, r 2, ItemCommit) = (r 1, r 2, ItemCommit) ∨ ∃ m m', m ≠ m' ∧ hmac (Hmac := Toy.mac) (r 0) m = hmac (Hmac := Toy.mac) (r 0) m'.
Proof. intros r. by apply (object_names_distinct (r 0) (r 1) (r 2) ItemCommit (r 1) (r 2) ItemCommit). Defined.

Lemma expiry_bounds now e : 0 <= now < 2 ^ 64 → (∀ n, e = Some n → 0 <= n < 2 ^ 64) →
  0 <= expiry now e < 2 ^ 64 ∧ (∀ n, e = Some n → now <= expiry now e ∧ (now <> 0 → expiry now e <> 0)).
Proof.
  intros Hn He. unfold expiry, saturating_add, saturating_sub, saturating_mul, umax.
  destruct e as [n|]; [specialize (He n eq_refl)|split; [lia|done]]. split; [lia|]. intros ? [= <-]. lia.
Qed.
(** What was sealed comes back, and a device that never connected seals nothing. *)
Lemma restore_sealed d : restore (sealed d) = match tokens d with Some _ => mkDrive (tokens d) (last_pull d) (last_push d) None None None ∅ | None => Drive_default end.
Proof. unfold sealed. destruct (tokens d); done. Qed.
