(* ===== verification/DriveClient.v ===== *)
(** * The Drive client and the consent ceremony ([runtime/crates/kernel/src/drive.rs])

    Each function is the calls it makes: the [drive] cell, the clock, the
    fetch seam and the checkpoint.  Paging follows the store's own tokens for as
    long as it gives them; a program follows it for [fuel] pages, and every
    finite history is one of some fuel. *)
From S2P Require Import Prelude Crypto Error Text Codes Storage Persist Async DriveText.

Section Client.
Context `{Hmac} `{Sha256} `{Base64Url} `{DriveJson}.
Context {VaultState DriveSealed : Type}.
Context (drive_config : Config).
Abbreviation DeviceState := (@Persist.DeviceState VaultState DriveSealed).

Inductive call :=
| ReadState
| GetDrive
| SetDrive (f : Drive → Drive)
| Now
| Fill (n : nat)
| Fetch (method url : string) (headers : list (string * string)) (body : bytes)
| Checkpoint
(* the paging is not followed any further *)
| Cut.
Definition ans (c : call) : Type :=
  match c with
  | ReadState => DeviceState
  | GetDrive => Drive
  | SetDrive _ => unit
  | Now => Z
  | Fill _ => bytes
  | Fetch _ _ _ _ => result string HttpResponse
  | Checkpoint => result Error unit
  | Cut => Empty_set
  end.
Abbreviation prog := (Async.prog ans).
Definition cut {X} : prog X := Call Cut (λ y : Empty_set, match y with end).

(** ** Tokens *)
Inductive TokenFailure := TokenRefused (why : string) | Unreachable (why : string).
Definition why (f : TokenFailure) : string := match f with TokenRefused w | Unreachable w => w end.
Definition form_header : list (string * string) := [("content-type", "application/x-www-form-urlencoded")]%string.
Definition token_request (form : string) : prog (result TokenFailure Issued) :=
  r ← Async.call (Fetch "POST" (token_url drive_config) form_header (as_bytes form));
  response ←! Done (map_err Unreachable r);
  if negb (success (status response))
  then Done (Err (TokenRefused ("the sign-in service answered " +:+ pretty (status response) +:+ oauth_error (body response)))) else
  Done (map_err (λ e, TokenRefused ("the sign-in service's answer could not be read: " +:+ e)) (parse_issued (body response))).
Definition not_connected : Trouble := Reauthorize "this device is not connected".
Definition refresh_form (t : Tokens) : string :=
  form [("grant_type", "refresh_token"); ("refresh_token", refresh t); ("client_id", client_id t); ("client_secret", client_secret t)]%string.
Definition renewed (issued : Issued) (now : Z) (t : Tokens) : Tokens :=
  mkTokens (access_token issued) (default (refresh t) (refresh_token issued)) (client_id t) (client_secret t)
    (expiry now (expires_in issued)).
Definition refresh_tokens : prog (result Trouble unit) :=
  d ← Async.call GetDrive;
  t ←! Done (ok_or not_connected (tokens d));
  r ← token_request (refresh_form t);
  issued ←! Done (map_err (λ f, match f with TokenRefused w => Reauthorize w | Unreachable w => Hiccup w end) r);
  now ← Async.call Now;
  _ ← Async.call (SetDrive (λ d, set_tokens (renewed issued now <$> tokens d) d));
  landed ← Async.call Checkpoint;
  Done (map_err (λ e, Hiccup (message e)) landed).

(** ** Requests *)
Definition bearer (access : string) : string * string := ("authorization", "Bearer " +:+ access)%string.
Definition authorized (method url : string) (headers : list (string * string)) (body : bytes) : prog (result Trouble HttpResponse) :=
  d ← Async.call GetDrive;
  t ←! Done (ok_or not_connected (tokens d));
  r ← Async.call (Fetch method url (headers ++ [bearer (access t)]) body);
  Done (map_err Hiccup r).
(** The clock is read only when the tokens say when they expire. *)
Definition is_stale : prog bool :=
  d ← Async.call GetDrive;
  match tokens d with
  | Some t => if expires_at_ms t =? 0 then Done false else now ← Async.call Now; Done (expires_at_ms t <=? now)
  | None => Done false
  end.
Definition drive_request (method url : string) (headers : list (string * string)) (body : bytes) : prog (result Trouble HttpResponse) :=
  s ← is_stale;
  _ ←! (if s : bool then refresh_tokens else Done (Ok ()));
  response ←! authorized method url headers body;
  if negb (status response =? 401) then Done (Ok response) else
  _ ←! refresh_tokens;
  authorized method url headers body.

Definition list_url (q : string) (page : option string) : string :=
  api drive_config +:+ "/drive/v3/files?q=" +:+ query q +:+ "&fields=" +:+ query "nextPageToken,files(id,name)" +:+
    "&pageSize=" +:+ pretty PAGE_SIZE +:+ "&spaces=" +:+ APP_DATA +:+
    match page with Some token => "&pageToken=" +:+ query token | None => EmptyString end.
Fixpoint drive_pages (fuel : nat) (q : string) (out : list (string * string)) (page : option string) :
    prog (result Trouble (list (string * string))) :=
  match fuel with
  | O => cut
  | S fuel =>
    response ←! drive_request "GET" (list_url q page) [] [];
    value ←! Done (json_of response "list the store");
    let out := out ++ page_files value in
    match str_field value "nextPageToken" with
    | None => Done (Ok out)
    | page => drive_pages fuel q out page
    end
  end.
Definition drive_query (fuel : nat) (q : string) := drive_pages fuel q [] None.
Definition list_q (folder : string) : string := "'" +:+ literal folder +:+ "' in parents and trashed = false".
Definition drive_list (fuel : nat) (folder : string) := drive_query fuel (list_q folder).
Definition named_q (name : string) : string :=
  "name = '" +:+ literal name +:+ "' and '" +:+ APP_DATA +:+ "' in parents and trashed = false".
Definition folder_meta (name : string) : bytes :=
  as_bytes (object_text [("name", inl name); ("mimeType", inl FOLDER_MIME); ("parents", inr [APP_DATA])])%string.
Definition resolve_folder (fuel : nat) (name_key : bytes) : prog (result Trouble string) :=
  let name := folder_name name_key in
  found ←! drive_query fuel (named_q name);
  id ←! match hd_error found with
        | Some (id, _) => Done (Ok id)
        | None =>
          response ←! drive_request "POST" (api drive_config +:+ "/drive/v3/files?fields=id")
                        [("content-type", "application/json")] (folder_meta name);
          value ←! Done (json_of response "create the store's folder");
          Done (ok_or (Hiccup "the store answered a folder with no id") (str_field value "id"))
        end;
  _ ← Async.call (SetDrive (λ d, set_rejected ∅ (set_folder (Some (name_key, id)) d)));
  Done (Ok id).
Definition drive_folder (fuel : nat) (name_key : bytes) : prog (result Trouble string) :=
  d ← Async.call GetDrive;
  match DriveText.folder d with
  | Some (cached_key, id) => if bool_decide (cached_key = name_key) then Done (Ok id) else resolve_folder fuel name_key
  | None => resolve_folder fuel name_key
  end.
Definition upload_url : string := api drive_config +:+ "/upload/drive/v3/files?uploadType=multipart&fields=id".
Definition upload_header : list (string * string) := [("content-type", "multipart/related; boundary=" +:+ BOUNDARY)]%string.
Definition drive_create (folder name : string) (b : bytes) : prog (result Trouble string) :=
  response ←! drive_request "POST" upload_url upload_header (multipart folder name b);
  value ←! Done (json_of response "write to the store");
  Done (ok_or (Hiccup "the store answered an object with no id") (str_field value "id")).
Definition object_url (id : string) : string := api drive_config +:+ "/drive/v3/files/" +:+ query id.
Definition drive_delete (id : string) : prog (result Trouble unit) :=
  response ←! drive_request "DELETE" (object_url id) [] [];
  let status := status response in
  Done (if success status || (status =? 404) then Ok () else
        Err (default (Hiccup ("the store answered " +:+ pretty status +:+ " deleting an object")) (refusal status "delete from the store"))).
Definition drive_read (id : string) : prog (result Trouble (option bytes)) :=
  response ←! drive_request "GET" (object_url id +:+ "?alt=media") [] [];
  let status := status response in
  Done (if status =? 200 then Ok (Some (body response)) else
        if status =? 404 then Ok None else
        Err (default (Hiccup ("the store answered " +:+ pretty status +:+ " reading an object")) (refusal status "read from the store"))).

(** ** The ceremony *)
Definition failed_ (why : string) : Error := Error_new Failed why.
Definition refused_ (why : string) : Error := Error_new Refused why.
Definition open_ : prog (result Error unit) := s ← Async.call ReadState; Done (Persist.open s).
Definition storage_status : prog (result Error Binding) :=
  _ ←! open_; d ← Async.call GetDrive; Done (Ok (binding d)).
Definition auth_request (client_id challenge state : string) : string :=
  auth_url drive_config +:+ "?client_id=" +:+ query client_id +:+ "&redirect_uri=" +:+ query (page_url drive_config) +:+
    "&response_type=code&scope=" +:+ query SCOPE +:+ "&code_challenge=" +:+ query challenge +:+
    "&code_challenge_method=S256&state=" +:+ query state +:+ "&access_type=offline&prompt=consent".
Definition oauth_start (client_id : chars) (client_secret : string) : prog (result Error string) :=
  _ ←! open_;
  if forallb is_whitespace client_id
  then Done (Err (refused_ "a Google OAuth client id is needed before this device can connect a store")) else
  verifier_bytes ← Async.call (Fill 32);
  let verifier := b64_encode verifier_bytes in
  let challenge := b64_encode (sha256 verifier) in
  state_bytes ← Async.call (Fill 16);
  let state := hex state_bytes in
  let client_id := str_of (utf8 client_id) in
  _ ← Async.call (SetDrive (set_pending (Some (mkCeremony (str_of verifier) state client_id client_secret))));
  Done (Ok (auth_request client_id (str_of challenge) state)).
Definition not_this_request : Error := refused_ "that sign-in answer does not belong to the request this device made".
Definition not_waiting : Error := refused_ "this device is not waiting for a sign-in".
Definition no_refresh_token : Error := failed_ "that sign-in returned no refresh token, so this device could not stay connected".
(** The pending ceremony, taken when [state] is its own and left when not. *)
Definition take_ceremony (state : string) : prog (result Error Ceremony) :=
  d ← Async.call GetDrive;
  match pending d with
  | Some ceremony =>
    if bool_decide (c_state ceremony = state)
    then _ ← Async.call (SetDrive (set_pending None)); Done (Ok ceremony)
    else Done (Err not_this_request)
  | None => Done (Err not_waiting)
  end.
Definition exchange_form (code : string) (ceremony : Ceremony) : string :=
  form [("grant_type", "authorization_code"); ("code", code); ("code_verifier", verifier ceremony);
        ("redirect_uri", page_url drive_config); ("client_id", c_client_id ceremony); ("client_secret", c_client_secret ceremony)]%string.
Definition connected (t : Tokens) (d : Drive) : Drive :=
  set_rejected ∅ (set_folder None (set_trouble None (set_tokens (Some t) d))).
Definition oauth_complete (code state : string) : prog (result Error unit) :=
  _ ←! open_;
  ceremony ←! take_ceremony state;
  r ← token_request (exchange_form code ceremony);
  issued ←! Done (map_err (λ f, failed_ (why f)) r);
  refresh ←! Done (ok_or no_refresh_token (refresh_token issued));
  now ← Async.call Now;
  _ ← Async.call (SetDrive (connected (mkTokens (access_token issued) refresh (c_client_id ceremony) (c_client_secret ceremony)
                                         (expiry now (expires_in issued)))));
  Async.call Checkpoint.
Definition storage_disconnect : prog (result Error unit) :=
  _ ←! open_;
  _ ← Async.call (SetDrive (λ _, Drive_default));
  Async.call Checkpoint.

(** ** Requests *)
Abbreviation history := (list (Async.event ans)).
Abbreviation E := (@Ev _ ans).
Implicit Types (h t : history).
(** One attempt: the tokens of that moment, and the request with their bearer. *)
Definition attempt (m u : string) (hs : list (string * string)) (b : bytes) (t : history) (a : result string HttpResponse) : Prop :=
  ∃ d tk, tokens d = Some tk ∧ t = [E GetDrive d; E (Fetch m u (hs ++ [bearer (access tk)]) b) a].
Definition refreshed (t : history) : Prop := runs refresh_tokens t (Some (Ok ())).
(** What came back is the last attempt's answer; a 401 was tried once more,
    behind a refresh. *)
Definition answered_by (m u : string) (hs : list (string * string)) (b : bytes) (t : history) (response : HttpResponse) : Prop :=
  ∃ t0 t1, t = t0 ++ t1 ∧
    (attempt m u hs b t1 (Ok response) ∧ status response ≠ 401 ∨
     ∃ first a1 a2 a3, t1 = a1 ++ a2 ++ a3 ∧ attempt m u hs b a1 (Ok first) ∧ status first = 401 ∧ refreshed a2 ∧ attempt m u hs b a3 (Ok response)).
Lemma runs_authorized m u hs b t response : runs (authorized m u hs b) t (Some (Ok response)) → attempt m u hs b t (Ok response).
Proof.
  intros [[_ ?]|(d & t' & -> & Hr)]; [done|]. cbn in Hr. exists d. destruct (tokens d) as [tk|]; [|by destruct Hr as [_ ?]].
  exists tk. split; [done|]. destruct Hr as [[_ ?]|(a & t2 & -> & -> & [= Ha])]; [done|]. destruct a; [by injection Ha as ->|done].
Qed.
Lemma runs_drive_request m u hs b t response : runs (drive_request m u hs b) t (Some (Ok response)) → answered_by m u hs b t response.
Proof.
  unfold drive_request. rewrite runs_bind. intros (t0 & t1 & s & -> & _ & Hr).
  apply runs_try in Hr as (t2 & t3 & [] & -> & _ & Hr).
  apply runs_try in Hr as (t4 & t5 & first & -> & Hf%runs_authorized & Hr).
  exists (t0 ++ t2), (t4 ++ t5). split; [by rewrite app_assoc|]. destruct (Z.eqb_spec (status first) 401) as [H401|H401]; cbn [negb] in Hr.
  - right. apply runs_try in Hr as (t6 & t7 & [] & -> & Hfresh & Hr%runs_authorized). exists first, t4, t6, t7. by split_and!.
  - left. destruct Hr as [-> [= <-]]. by rewrite app_nil_r.
Qed.
Lemma success_not_401 s : success s = true → s ≠ 401.
Proof. unfold success. intros [?%Z.leb_le ?%Z.ltb_lt]%andb_true_iff. lia. Qed.

Lemma json_of_Ok response what v : json_of response what = Ok v →
  success (status response) = true ∧ (body response = [] ∧ v = Null ∨ parse (body response) = Ok v).
Proof.
  unfold json_of, refusal. destruct (status response =? 401); [done|]. destruct (success _); [|done]. cbn [negb].
  case_bool_decide; [intros [= <-]; auto|]. destruct (parse _); [|done]. intros [= ->]. auto.
Qed.
Lemma runs_create folder name b t id : runs (drive_create folder name b) t (Some (Ok id)) →
  ∃ response v, answered_by "POST" upload_url upload_header (multipart folder name b) t response ∧
    success (status response) = true ∧ (body response = [] ∧ v = Null ∨ parse (body response) = Ok v) ∧ str_field v "id" = Some id.
Proof.
  intros Hr. apply runs_try in Hr as (t1 & t2 & response & -> & Hq%runs_drive_request & Hr).
  apply runs_try in Hr as (t3 & t4 & v & -> & [-> [= Hj]] & [-> [= Hid]]). rewrite app_nil_r. exists response, v.
  symmetry in Hj. apply json_of_Ok in Hj as [Hs Hv]. destruct (str_field v "id") as [id'|]; [|done]. injection Hid as ->. by split_and!.
Qed.

(** What the operations of the store answer is what it said last to exactly
    their request: an object is created when a 2xx answer names it, deleted when
    a 2xx answer or a 404 says so, and read when a 200 answer carries it. *)
Theorem store_answers folder name b id :
  (∀ t id', runs (drive_create folder name b) t (Some (Ok id')) →
    ∃ response v, answered_by "POST" upload_url upload_header (multipart folder name b) t response ∧
      success (status response) = true ∧ (body response = [] ∧ v = Null ∨ parse (body response) = Ok v) ∧ str_field v "id" = Some id') ∧
  (∀ t, runs (drive_delete id) t (Some (Ok ())) →
    ∃ response, answered_by "DELETE" (object_url id) [] [] t response ∧ (success (status response) = true ∨ status response = 404)) ∧
  (∀ t found, runs (drive_read id) t (Some (Ok found)) →
    ∃ response, answered_by "GET" (object_url id +:+ "?alt=media") [] [] t response ∧
      match found with Some b' => status response = 200 ∧ body response = b' | None => status response = 404 end).
Proof.
  split_and!; [intros t id'; apply runs_create|..].
  - intros t Hr. apply runs_try in Hr as (t1 & t2 & response & -> & Hq%runs_drive_request & [-> [= Hd]]). rewrite app_nil_r.
    exists response. split; [done|]. destruct (success (status response)); [by left|right]. cbn in Hd.
    destruct (Z.eqb_spec (status response) 404); [done|]. done.
  - intros t found Hr. apply runs_try in Hr as (t1 & t2 & response & -> & Hq%runs_drive_request & [-> [= Hd]]). rewrite app_nil_r.
    exists response. split; [done|]. destruct (Z.eqb_spec (status response) 200); [injection Hd as ->; done|].
    destruct (Z.eqb_spec (status response) 404); [injection Hd as ->; done|done].
Qed.

(** ** The consent *)
(** The ceremony that was waiting under [state], read and taken at once. *)
Definition taken (state : string) (h : history) (c : Ceremony) : Prop :=
  ∃ h0 d, h = h0 ++ [E GetDrive d; E (SetDrive (set_pending None)) tt] ∧ pending d = Some c ∧ c_state c = state.
(** The tokens a 2xx answer to the ceremony's exchange issued. *)
Definition issued_for (state code : string) (h : history) (tk : Tokens) : Prop :=
  ∃ h0 c response i rt now,
    h = h0 ++ [E (Fetch "POST" (token_url drive_config) form_header (as_bytes (exchange_form code c))) (Ok response); E Now now] ∧
    taken state h0 c ∧ success (status response) = true ∧ parse_issued (body response) = Ok i ∧ refresh_token i = Some rt ∧
    tk = mkTokens (access_token i) rt (c_client_id c) (c_client_secret c) (expiry now (expires_in i)).
Definition consent_may (state code : string) (h : history) (c : call) : Prop :=
  match c with
  | Fetch m u hs b => ∃ c, taken state h c ∧ m = "POST"%string ∧ u = token_url drive_config ∧ hs = form_header ∧ b = as_bytes (exchange_form code c)
  | SetDrive f => (f = set_pending None ∧ ∃ h0 d c, h = h0 ++ [E GetDrive d] ∧ pending d = Some c ∧ c_state c = state) ∨
      (∃ tk, issued_for state code h tk ∧ f = connected tk)
  | Checkpoint => ∃ h0 tk, h = h0 ++ [E (SetDrive (connected tk)) tt] ∧ issued_for state code h0 tk
  | _ => True
  end.
Ltac step := cbn [try mbind prog_bind prog_bind_ mret prog_ret Async.call ok_or option_bind map_err negb orb].
(** Over every history of [oauth_complete]: a code is exchanged only for the
    ceremony waiting under that state, which is taken first; tokens are stored
    only as the exchange issued them, with a refresh token; and success means
    they were checkpointed. *)
Theorem consent_is_ours code state t r : runs (oauth_complete code state) t r →
  (∀ t1 e t2, t = t1 ++ e :: t2 → consent_may state code t1 (asked e)) ∧
  (r = Some (Ok ()) → ∃ h0 tk, t = h0 ++ [E (SetDrive (connected tk)) tt; E Checkpoint (Ok tt)] ∧ issued_for state code h0 tk).
Proof.
  intros Hr. eapply (wp_guards (consent_may state code) _ []
    (λ r h, match r with Ok _ => ∃ h0 tk, h = h0 ++ [E (SetDrive (connected tk)) tt; E Checkpoint (Ok tt)] ∧ issued_for state code h0 tk | Err _ => True end))
    in Hr as [Hr Hq].
  { split; [exact Hr|]. by intros ->. }
  clear. split; [done|]. intros s. step. destruct (Persist.open s) as [[]|]; [|exact I].
  split; [done|]. intros d. step. destruct (pending d) as [c|] eqn:Hp; [|exact I].
  destruct (decide (c_state c = state)) as [Hc|]; [|rewrite bool_decide_false by done; exact I]. rewrite bool_decide_true by done.
  split; [left; split; [done|]; by eexists _, d, c|]. intros []. step.
  match goal with |- wp _ _ ?g _ => assert (taken state g c) as Ht; [|revert Ht; generalize g; intros h Ht] end.
  { exists [E ReadState s], d. by split_and!. }
  split; [by exists c|]. intros [response|e]; [|exact I]. step.
  destruct (success (status response)) eqn:Hs; [|exact I]. step.
  destruct (parse_issued (body response)) as [i|e] eqn:Hi; [|exact I]. step.
  destruct (refresh_token i) as [rt|] eqn:Hrt; [|exact I]. step.
  split; [done|]. intros now. step.
  match goal with |- wp _ (Call (SetDrive (connected ?k)) _) ?g _ => assert (issued_for state code g k) as Hiss; [|revert Hiss; generalize k, g; intros tk h' Hiss] end.
  { exists h, c, response, i, rt, now. rewrite <- app_assoc. by split_and!. }
  split; [right; by exists tk|]. intros []. step. split; [by exists h', tk|]. intros [[]|e]; [|exact I].
  exists h', tk. by rewrite <- app_assoc.
Qed.
End Client.

(** ** Concrete requests *)
Module Concrete.
Import Crypto.Toy.
#[local] Instance json1 : DriveJson := {|
  json := option string; Null := None; parse _ := Ok (Some "object"%string); get v _ := Some v; as_str v := v; as_array _ := None;
  object_text _ := ""%string; parse_issued _ := Ok (mkIssued "access" (Some "refresh"%string) None);
  item_to_vec item := Ok (si_blob item); item_from_slice b := Err ""%string |}.
Definition config : Config := mkConfig "https://page/" None (Some "http://localhost/oauth/"%string).
Definition device0 : @Persist.DeviceState unit unit :=
  mkState (Device.IndexRow_fresh "device" 0) (Some (Seal.mkDek [])) None None [] None None 0 0 false.
Definition waiting : Drive :=
  mkDrive (Some (mkTokens "old" "refresh" "id" "secret" 0)) 0 0 (Some (mkCeremony "verifier" "state" "id" "secret")) None None ∅.
(** A store that refuses the first [n] bearers and then accepts. *)
Definition handle (n : nat) (c : call) : option (ans c * nat) :=
  match c as c return option (ans (VaultState := unit) (DriveSealed := unit) c * nat) with
  | ReadState => Some (device0, n)
  | GetDrive => Some (waiting, n)
  | SetDrive _ => Some (tt, n)
  | Now => Some (7, n)
  | Fill k => Some (replicate k (byte_of 1), n)
  | Fetch _ u _ _ =>
    match n with
    | S m => if decide (u = token_url config) then Some (Ok (mkResponse 200 [] []), n) else Some (Ok (mkResponse 401 [] []), m)
    | O => Some (Ok (mkResponse 200 [] [byte_of 1]), O)
    end
  | Checkpoint => Some (Ok tt, n)
  | Cut => None
  end.
Definition creating := run_with handle 1%nat (drive_create config "folder" "name" [byte_of 1]).
Lemma creating_created : creating.2 = Some (Ok "object"%string).
Proof. vm_compute. reflexivity. Qed.
Lemma store_answers_witness : ∃ response,
  answered_by (VaultState := unit) (DriveSealed := unit) config "POST" (upload_url config) upload_header (multipart "folder" "name" [byte_of 1]) creating.1 response ∧
  success (status response) = true.
Proof.
  destruct (proj1 (store_answers (VaultState := unit) (DriveSealed := unit) config "folder" "name" [byte_of 1] "id") creating.1 "object"%string)
    as (response & v & Ha & Hs & _); [|by exists response].
  rewrite <- creating_created. apply run_with_runs.
Defined.
Definition completing := run_with handle 0%nat (oauth_complete config "code" "state").
Lemma completing_connected : completing.2 = Some (Ok tt).
Proof. vm_compute. reflexivity. Qed.
Lemma consent_is_ours_witness : ∃ h0 tk, completing.1 = h0 ++ [Ev (SetDrive (connected tk)) tt; Ev Checkpoint (Ok tt)] ∧
  issued_for (VaultState := unit) (DriveSealed := unit) config "state" "code" h0 tk.
Proof.
  exact (proj2 (consent_is_ours config "code" "state" completing.1 completing.2 (run_with_runs handle 0%nat _)) completing_connected).
Defined.
End Concrete.
