(* ===== verification/DrivePass.v ===== *)
(** * A pass of the durable store ([runtime/crates/kernel/src/drive.rs])

    What one synchronisation reads from the store, takes in, publishes and
    deletes, over the operations of the Drive client ([Folder], [List], [Read],
    [Create], [Delete]) and of the engine.  The answers are anything, so every
    call another task could make meanwhile is covered.  The two loops the code
    does not bound are followed for [fuel] turns; every finite history is one of
    some fuel. *)
From S2P Require Import Prelude Crypto Error Text Codes Opaque Trees Storage Async DriveText.

Section Pass.
Context `{Hmac} `{Sha256} `{DriveJson}.

Inductive call :=
(* the Drive client *)
| Folder (name_key : bytes)
| ListFolder (folder : string)
| Read (id : string)
| Create (folder name : string) (body : bytes)
| Delete (id : string)
(* the engine *)
| Engine
| NameKey
| Items
| ReadNotHeld
| Ingest (items : list StoreItem)
| ValidStoreItem (item : StoreItem)
| OpaqueStatus (tree : bytes)
| ControlBarrier
| ControlRevision
(* the kernel *)
| OpenDevice
| GetDrive
| SetDrive (f : Drive → Drive)
| Now
| Checkpoint
| Sessions
| WakeDocuments (app : string)
| RefreshPersonalization
| PushPersonalizationChanged
| PushContactsChanged
(* the [syncing] gate, and the spawner *)
| GetGate
| SetGate (running dirty : bool)
| Upgrade
| SpawnSync
| Cut.
Definition ans (c : call) : Type :=
  match c with
  | Folder _ => result Trouble string
  | ListFolder _ => result Trouble (list (string * string))
  | Read _ => result Trouble (option bytes)
  | Create _ _ _ => result Trouble string
  | Delete _ => result Trouble unit
  | Engine => result Error unit
  | NameKey => option bytes
  | Items => list StoreItem
  | ReadNotHeld => list (bytes * bytes)
  | Ingest _ => result string bool
  | ValidStoreItem _ => bool
  | OpaqueStatus _ => option bool
  | ControlBarrier => result string unit
  | ControlRevision => Z
  | OpenDevice => result Error unit
  | GetDrive => Drive
  | SetDrive _ => unit
  | Now => Z
  | Checkpoint => result Error unit
  | Sessions => list string
  | WakeDocuments _ => unit
  | RefreshPersonalization => unit
  | PushPersonalizationChanged | PushContactsChanged => unit
  | GetGate => bool * bool
  | SetGate _ _ => unit
  | Upgrade => bool
  | SpawnSync => unit
  | Cut => Empty_set
  end.
Abbreviation prog := (Async.prog ans).
Definition cut {X} : prog X := Call Cut (λ y : Empty_set, match y with end).
Definition set_drive (f : Drive → Drive) : prog unit := Async.call (SetDrive f).

Definition engine : prog (result Trouble unit) :=
  e ← Async.call Engine; Done (map_err (λ e, Hiccup (message e)) (e : result Error unit)).

Section WithKey.
Context (name_key : bytes).
Definition name_of (item : StoreItem) : string := object_name name_key (si_tree item) (si_commit item) (si_kind item).
(** [engine.name_key().as_ref() == Some(name_key)] *)
Definition still_ours : prog bool := k ← Async.call NameKey; Done (bool_decide (k = Some name_key)).
(** [Engine::item_publishable] *)
Definition item_publishable (item : StoreItem) : prog bool :=
  if negb (is_opaque_tree (si_tree item)) then Done true else
  s ← Async.call (OpaqueStatus (si_tree item)); Done (bool_decide (s = Some true)).

(** ** What is downloaded *)
Definition held_names (items : list StoreItem) (read : list (bytes * bytes)) : gset string :=
  list_to_set (name_of <$> items) ∪ list_to_set ((λ '(tree, commit), object_name name_key tree commit ItemCommit) <$> read).
(** [None] when the group changed. *)
Fixpoint download (held : gset string) (remote : list (string * string)) (acc : list (string * string * StoreItem)) :
    prog (result Trouble (option (list (string * string * StoreItem)))) :=
  match remote with
  | [] => Done (Ok (Some acc))
  | (id, name) :: remote =>
    ours ← still_ours;
    if negb ours then Done (Ok None) else
    if bool_decide (name ∈ held) then download held remote acc else
    d ← Async.call GetDrive;
    if bool_decide (id ∈ rejected d) then download held remote acc else
    read ←! Async.call (Read id);
    match read with
    | None => download held remote acc
    | Some bytes =>
      match item_from_slice bytes with
      | Ok item => download held remote (acc ++ [(id, name, item)])
      | Err _ => _ ← set_drive (λ d, set_rejected ({[id]} ∪ rejected d) d); download held remote acc
      end
    end
  end.
(** Which opaque payloads may be taken in. *)
Definition eligible '((id, name, item) : string * string * StoreItem) : prog bool :=
  if negb (is_opaque_tree (si_tree item)) then Done false else
  if negb (bool_decide (name = name_of item)) then Done false else
  valid ← Async.call (ValidStoreItem item);
  if negb (valid : bool) then Done false else
  s ← Async.call (OpaqueStatus (si_tree item)); Done (bool_decide (s = Some true)).
Fixpoint filter_calls {A} (f : A → prog bool) (l : list A) : prog (list A) :=
  match l with
  | [] => Done []
  | x :: l => b ← f x; l ← filter_calls f l; Done (if b : bool then x :: l else l)
  end.
Definition ingest (items : list StoreItem) : prog (result Trouble bool) :=
  if bool_decide (items = []) then Done (Ok false) else
  r ← Async.call (Ingest items); Done (map_err Hiccup r).

(** ** What is published *)
(** One upload, unless the store has the name. *)
Definition put_item (folder : string) (item : StoreItem) : prog (result Trouble string) :=
  body ←! Done (map_err (λ e, Hiccup ("an item could not be written: " +:+ e)) (item_to_vec item));
  Async.call (Create folder (name_of item) body).
(** One turn over the control items: whether the group changed, whether
    something was pushed, and the names now present. *)
Fixpoint push_items (folder : string) (items : list StoreItem) (pushed : bool) (present : gset string) :
    prog (result Trouble (bool * bool * gset string)) :=
  match items with
  | [] => Done (Ok (false, pushed, present))
  | item :: items =>
    let name := name_of item in
    if bool_decide (name ∈ present) then push_items folder items pushed present else
    _ ←! put_item folder item;
    let present := {[name]} ∪ present in
    ours ← still_ours;
    if negb ours then Done (Ok (true, true, present)) else push_items folder items true present
  end.
Fixpoint drive_push_control (fuel : nat) (folder : string) (pushed : bool) (present : gset string) :
    prog (result Trouble (bool * gset string)) :=
  match fuel with
  | O => cut
  | S fuel =>
    ours ← still_ours;
    if negb ours then Done (Ok (pushed, present)) else
    b ← Async.call ControlBarrier;
    _ ←! Done (map_err Hiccup b);
    ours ← still_ours;
    if negb ours then Done (Ok (pushed, present)) else
    revision ← Async.call ControlRevision;
    items ← Async.call Items;
    control ← filter_calls item_publishable (filter (λ item, si_tree item = us_tree) items);
    r ←! push_items folder control pushed present;
    let '(changed, pushed, present) := r in
    if changed : bool then Done (Ok (pushed, present)) else
    now ← Async.call ControlRevision;
    if negb (now =? revision) then drive_push_control fuel folder pushed present else
    Done (Ok (pushed, present))
  end.
(** Retire one object: control first, then the status once more.  [true] when
    the group changed. *)
Definition retire (fuel : nat) (folder : string) (tree : bytes) (id : string) (present : gset string) :
    prog (result Trouble (bool * gset string)) :=
  r ←! drive_push_control fuel folder false present;
  let '(_, present) := r in
  ours ← still_ours;
  if negb ours then Done (Ok (true, present)) else
  s ← Async.call (OpaqueStatus tree);
  if negb (bool_decide (s = Some false)) then Done (Ok (false, present)) else
  _ ←! Async.call (Delete id);
  Done (Ok (false, present)).
(** The content loop: whether the group changed, and what was pushed. *)
Fixpoint push_content (fuel : nat) (folder : string) (items : list StoreItem) (pushed : bool) (present : gset string) :
    prog (result Trouble (bool * bool * gset string)) :=
  match items with
  | [] => Done (Ok (false, pushed, present))
  | item :: items =>
    ours ← still_ours;
    if negb ours then Done (Ok (true, pushed, present)) else
    may ← item_publishable item;
    if negb may then push_content fuel folder items pushed present else
    let name := name_of item in
    if bool_decide (name ∈ present) then push_content fuel folder items pushed present else
    id ←! put_item folder item;
    let present := {[name]} ∪ present in
    ours ← still_ours;
    if negb ours then Done (Ok (true, true, present)) else
    if negb (is_opaque_tree (si_tree item)) then push_content fuel folder items true present else
    may ← item_publishable item;
    if may : bool then push_content fuel folder items true present else
    r ←! retire fuel folder (si_tree item) id present;
    let '(changed, present) := r in
    if changed : bool then Done (Ok (true, true, present)) else push_content fuel folder items true present
  end.

(** ** What is deleted *)
Definition obsolete '((id, name, item) : string * string * StoreItem) : prog bool :=
  if negb (is_opaque_tree (si_tree item)) then Done false else
  if negb (bool_decide (name = name_of item)) then Done false else
  valid ← Async.call (ValidStoreItem item);
  if negb (valid : bool) then Done false else
  s ← Async.call (OpaqueStatus (si_tree item)); Done (bool_decide (s = Some false)).
Fixpoint clean_up (fuel : nat) (folder : string) (downloaded : list (string * string * StoreItem)) (present : gset string) :
    prog (result Trouble unit) :=
  match downloaded with
  | [] => Done (Ok ())
  | (id, name, item) :: downloaded =>
    ours ← still_ours;
    if negb ours then Done (Ok ()) else
    old ← obsolete (id, name, item);
    if negb old then clean_up fuel folder downloaded present else
    r ←! retire fuel folder (si_tree item) id present;
    let '(changed, present) := r in
    if changed : bool then Done (Ok ()) else clean_up fuel folder downloaded present
  end.
Definition stamp_if (b : bool) (set : Z → Drive → Drive) : prog unit :=
  if b then now ← Async.call Now; set_drive (set now) else Done ().

(** [Kernel::sync_attempt], from its end. *)
Definition publish (fuel : nat) (folder : string) (remote : list (string * string))
    (downloaded : list (string * string * StoreItem)) (landed : bool) : prog (result Trouble bool) :=
  _ ← stamp_if landed set_pull;
  r ←! drive_push_control fuel folder false (list_to_set (snd <$> remote));
  items ← Async.call Items;
  r ←! push_content fuel folder (filter (λ item, si_tree item ≠ us_tree) items) r.1 r.2;
  if r.1.1 : bool then Done (Ok landed) else
  _ ← stamp_if r.1.2 set_push;
  _ ←! clean_up fuel folder downloaded r.2;
  Done (Ok landed).
Definition take_in (fuel : nat) (folder : string) (remote : list (string * string))
    (downloaded : list (string * string * StoreItem)) : prog (result Trouble bool) :=
  ours ← still_ours;
  if negb ours then Done (Ok false) else
  landed ←! ingest (snd <$> filter (λ x, is_opaque_tree (si_tree x.2) = false) downloaded);
  ours ← still_ours;
  if negb ours then Done (Ok landed) else
  payload ← filter_calls eligible downloaded;
  also ←! ingest (snd <$> payload);
  publish fuel folder remote downloaded (landed || also).
Definition sync_attempt (fuel : nat) : prog (result Trouble bool) :=
  folder ←! Async.call (Folder name_key);
  _ ←! engine;
  remote ←! Async.call (ListFolder folder);
  items ← Async.call Items;
  read ← Async.call ReadNotHeld;
  found ←! download (held_names items read) remote [];
  match found with
  | None => Done (Ok false)
  | Some downloaded => take_in fuel folder remote downloaded
  end.
End WithKey.

(** ** Around a pass *)
Fixpoint wake_all (apps : list string) : prog unit :=
  match apps with [] => Done () | app :: apps => _ ← Async.call (WakeDocuments app); wake_all apps end.
Definition sync_once (fuel : nat) : prog (result Error unit) :=
  d ← Async.call GetDrive;
  if negb (bound d) then Done (Ok ()) else
  _ ←! Async.call Engine;
  k ← Async.call NameKey;
  match k with
  | None => Done (Ok ())
  | Some name_key =>
    r ← sync_attempt name_key fuel;
    match r with
    | Ok ingested =>
      _ ← set_drive (set_trouble None);
      if negb ingested then Done (Ok ()) else
      apps ← Async.call Sessions;
      _ ← wake_all apps;
      _ ← Async.call RefreshPersonalization;
      _ ← Async.call PushPersonalizationChanged;
      _ ← Async.call PushContactsChanged;
      Async.call Checkpoint
    | Err trouble => _ ← set_drive (set_trouble (Some trouble)); Done (Ok ())
    end
  end.
(** [Kernel::sync_loop]: a pass, and another while one was asked for meanwhile. *)
Fixpoint sync_loop (fuel : nat) : prog (result Error unit) :=
  match fuel with
  | O => cut
  | S fuel =>
    g ← Async.call GetGate;
    _ ← Async.call (SetGate g.1 false);
    _ ←! sync_once fuel;
    g ← Async.call GetGate;
    if negb g.2 then Done (Ok ()) else sync_loop fuel
  end.
Definition sync_gated (fuel : nat) : prog (result Error unit) :=
  g ← Async.call GetGate;
  if g.1 : bool then _ ← Async.call (SetGate true true); Done (Ok ()) else
  _ ← Async.call (SetGate true g.2);
  result ← sync_loop fuel;
  _ ← Async.call (SetGate false false);
  Done result.
Definition sync_now (fuel : nat) : prog (result Error unit) :=
  _ ←! Async.call OpenDevice;
  _ ← set_drive (set_trouble None);
  sync_gated fuel.
Definition schedule_store_sync : prog unit :=
  d ← Async.call GetDrive;
  if negb (bound d) || match trouble d with Some (Reauthorize _) => true | _ => false end then Done () else
  there ← Async.call Upgrade;
  if there : bool then Async.call SpawnSync else Done ().
End Pass.
