(* ===== verification/DriveFacts.v ===== *)
(** * What a pass of the durable store may do

    Over every history of [sync_attempt]: what it deletes was proved retired, it
    uploads each name once and content only behind its control, and it takes in
    only what it read for the group it still belongs to.  Single-threaded async
    code is not interrupted between two awaits ([steady]): two reads of the
    group's key with no await between them answer alike. *)
From S2P Require Import Prelude Crypto Error Text Codes Opaque Trees Storage Async DriveText DrivePass.

Section Facts.
Context `{Hmac} `{Sha256} `{DriveJson}.
Context (name_key : bytes).
Abbreviation event := (Async.event ans).
Abbreviation history := (list event).
Abbreviation prog := (Async.prog ans).
Abbreviation E := (@Ev _ ans).
Implicit Types (h t : history) (item : StoreItem).

(** ** What a history shows *)
Definition awaits (c : call) : bool :=
  match c with
  | Folder _ | ListFolder _ | Read _ | Create _ _ _ | Delete _ | Ingest _ | ControlBarrier | Checkpoint | RefreshPersonalization => true
  | _ => false
  end.
(** The group's key as read last since the last await. *)
Definition note (s : option (option bytes)) (e : event) : option (option bytes) :=
  match e with Ev NameKey k => Some k | Ev c _ => if awaits c then None else s end.
Definition last_read (h : history) : option (option bytes) := foldl note None h.
Fixpoint steady_from (s : option (option bytes)) (h : history) : bool :=
  match h with
  | [] => true
  | e :: h => match s, e with Some k, Ev NameKey k' => bool_decide (k = k') | _, _ => true end && steady_from (note s e) h
  end.
Definition steady (h : history) : bool := steady_from None h.
(** The opaque statuses read since the last await. *)
Definition note_status (s : list (bytes * option bool)) (e : event) : list (bytes * option bool) :=
  match e with Ev (OpaqueStatus tree) a => s ++ [(tree, a)] | Ev c _ => if awaits c then [] else s end.
Definition statuses (h : history) : list (bytes * option bool) := foldl note_status [] h.

Definition entry_of (folder : string) (e : event) : list (string * string) :=
  match e with Ev (ListFolder f) (Ok l) => if decide (f = folder) then l else [] | _ => [] end.
Definition read_of (e : event) : list (string * StoreItem) :=
  match e with
  | Ev (Read id) (Ok (Some b)) => match item_from_slice b with Ok item => [(id, item)] | Err _ => [] end
  | _ => []
  end.
Definition tried_of (folder : string) (e : event) : list string :=
  match e with Ev (Create f name _) _ => if decide (f = folder) then [name] else [] | _ => [] end.
Definition created_of (folder : string) (e : event) : list (string * string) :=
  match e with Ev (Create f name _) (Ok id) => if decide (f = folder) then [(name, id)] else [] | _ => [] end.
Definition items_of (e : event) : list StoreItem := match e with Ev Items l => l | _ => [] end.
Definition valid_of (e : event) : list StoreItem := match e with Ev (ValidStoreItem item) true => [item] | _ => [] end.
Definition entries (folder : string) (h : history) : list (string * string) := h ≫= entry_of folder.
Definition reads (h : history) : list (string * StoreItem) := h ≫= read_of.
Definition tried (folder : string) (h : history) : list string := h ≫= tried_of folder.
Definition created (folder : string) (h : history) : list (string * string) := h ≫= created_of folder.
Definition items_seen (h : history) : list StoreItem := h ≫= items_of.
Definition valid_seen (h : history) : list StoreItem := h ≫= valid_of.
(** The names the store is known to have. *)
Definition names (folder : string) (h : history) : list string := ((entries folder h).*2) ++ tried folder h.

Lemma entries_app f h t : entries f (h ++ t) = entries f h ++ entries f t. Proof. apply bind_app. Qed.
Lemma reads_app h t : reads (h ++ t) = reads h ++ reads t. Proof. apply bind_app. Qed.
Lemma tried_app f h t : tried f (h ++ t) = tried f h ++ tried f t. Proof. apply bind_app. Qed.
Lemma created_app f h t : created f (h ++ t) = created f h ++ created f t. Proof. apply bind_app. Qed.
Lemma items_seen_app h t : items_seen (h ++ t) = items_seen h ++ items_seen t. Proof. apply bind_app. Qed.
Lemma valid_seen_app h t : valid_seen (h ++ t) = valid_seen h ++ valid_seen t. Proof. apply bind_app. Qed.
Lemma last_read_app h t : last_read (h ++ t) = foldl note (last_read h) t. Proof. apply foldl_app. Qed.
Lemma statuses_app h t : statuses (h ++ t) = foldl note_status (statuses h) t. Proof. apply foldl_app. Qed.
Lemma elem_of_names f h n : n ∈ names f h ↔ n ∈ ((entries f h).*2) ∨ n ∈ tried f h.
Proof. apply elem_of_app. Qed.
Lemma names_app f h t n : n ∈ names f (h ++ t) ↔ n ∈ names f h ∨ n ∈ names f t.
Proof. rewrite !elem_of_names, entries_app, tried_app, fmap_app, !elem_of_app. tauto. Qed.
Lemma steady_from_app s h t : steady_from s (h ++ t) = steady_from s h && steady_from (foldl note s h) t.
Proof. revert s. induction h as [|e h IH]; intros s; [done|]. cbn [app steady_from foldl]. by rewrite IH, andb_assoc. Qed.
Lemma steady_app h t : steady (h ++ t) = true → steady h = true.
Proof. unfold steady. rewrite steady_from_app. by intros [? _]%andb_true_iff. Qed.

(** ** What allows a call *)
Definition current (h : history) : Prop := last_read h = Some (Some name_key).
Definition broken (h : history) : Prop := ∃ k, last_read h = Some k ∧ k ≠ Some name_key.
(** The history ends where the control barrier is up: after the submission
    barrier, while the group was still this one, a batch of items was taken whose
    control items the store all has, and the control did not move meanwhile. *)
Definition controlled (folder : string) (h : history) : Prop :=
  ∃ h1 h2 r l, h = h1 ++ [E ControlBarrier (Ok tt); E NameKey (Some name_key); E ControlRevision r; E Items l] ++ h2 ++ [E ControlRevision r] ∧
    (is_opaque_tree us_tree = false → ∀ item, item ∈ l → si_tree item = us_tree → name_of name_key item ∈ names folder h).
Definition controlled_before (folder : string) (h : history) : Prop := ∃ h0 h3, h = h0 ++ h3 ∧ controlled folder h0.
(** An object may be deleted when it is this pass's own or one whose name,
    signature and tree agree, and its tree was found retired behind the barrier,
    with nothing in between. *)
Definition delete_ok (folder : string) (h : history) (id : string) : Prop :=
  ∃ h0 item, h = h0 ++ [E NameKey (Some name_key); E (OpaqueStatus (si_tree item)) (Some false)] ∧
    is_opaque_tree (si_tree item) = true ∧ controlled folder h0 ∧
    ((id, name_of name_key item) ∈ entries folder h0 ∧ (id, item) ∈ reads h0 ∧ item ∈ valid_seen h0 ∨
     (name_of name_key item, id) ∈ created folder h0 ∧ item ∈ items_seen h0).
(** A name is uploaded once, with the bytes of an item the engine holds, for the
    group of this instant; content only behind the barrier, and opaque content
    only while its tree is current. *)
Definition create_ok (folder : string) (h : history) (name : string) (b : bytes) : Prop :=
  ∃ item, item ∈ items_seen h ∧ name = name_of name_key item ∧ item_to_vec item = Ok b ∧ (name ∉ names folder h) ∧ current h ∧
    (si_tree item = us_tree ∨ controlled_before folder h ∧
      (is_opaque_tree (si_tree item) = true → (si_tree item, Some true) ∈ statuses h)).
(** What is taken in was listed and read, for the group of this instant; opaque
    content only when it is signed, named and current. *)
Definition ingest_ok (folder : string) (h : history) (items : list StoreItem) : Prop :=
  current h ∧ ∀ item, item ∈ items → ∃ id name, (id, name) ∈ entries folder h ∧ (id, item) ∈ reads h ∧
    (is_opaque_tree (si_tree item) = true → name = name_of name_key item ∧ item ∈ valid_seen h ∧ (si_tree item, Some true) ∈ statuses h).
Definition pass_may (folder : string) (h : history) (c : call) : Prop :=
  match c with
  | Create f name b => f = folder ∧ create_ok folder h name b
  | Delete id => delete_ok folder h id
  | Ingest items => ingest_ok folder h items
  | _ => True
  end.
Definition may (folder : string) (h : history) (c : call) : Prop := steady h = true → pass_may folder h c.

(** ** Reads between awaits *)
Definition asking (c : call) : Prop := match c with ValidStoreItem _ | OpaqueStatus _ => True | _ => False end.
Definition asks (t : history) : Prop := Forall (λ e, asking (asked e)) t.
Lemma asking_may folder h c : asking c → may folder h c.
Proof. by destruct c. Qed.
Lemma asks_quiet t h folder : asks t → last_read (h ++ t) = last_read h ∧ entries folder (h ++ t) = entries folder h ∧
  tried folder (h ++ t) = tried folder h ∧ reads (h ++ t) = reads h ∧ created folder (h ++ t) = created folder h ∧
  items_seen (h ++ t) = items_seen h ∧ statuses h ⊆ statuses (h ++ t).
Proof.
  intros Ht. rewrite last_read_app, statuses_app, entries_app, tried_app, reads_app, created_app, items_seen_app.
  generalize (last_read h), (statuses h). induction Ht as [|[c a] t Hc Ht IH]; intros k l.
  { unfold entries, tried, reads, created, items_seen. cbn. rewrite !app_nil_r. done. }
  specialize (IH k). destruct c; try done.
  destruct (IH (l ++ [(tree, a)])) as (H1' & H2 & H3 & H4 & H5 & H6 & H7). split_and!; [done..|]. cbn. set_solver.
Qed.

(** A read-only function, run from [h], leaves what it asked behind. *)
Lemma wp_asks {X} folder (p : prog X) h Q : all_calls asking p →
  (∀ t x, runs p t (Some x) → asks t → Q x (h ++ t)) → wp (may folder) p h Q.
Proof.
  intros Hp HQ. apply (wp_quiet _ asking); [intros; by apply asking_may|done|].
  intros t x Hr. apply HQ; [done|]. clear HQ h Q. revert t Hr. induction p as [y|c k IH]; intros t; cbn [runs].
  - intros [-> _]. by constructor.
  - destruct Hp as [Hc Hk]. intros [[_ ?]|(a & t' & -> & Hr)]; [done|]. constructor; [done|]. by eapply IH.
Qed.
Lemma wp_ours {X} folder (k : bool → prog X) h Q :
  wp (may folder) (k true) (h ++ [E NameKey (Some name_key)]) Q →
  (∀ a, a ≠ Some name_key → wp (may folder) (k false) (h ++ [E NameKey a]) Q) →
  wp (may folder) (still_ours name_key ≫= k) h Q.
Proof.
  intros Ht Hf. split; [done|]. intros a. cbn [mbind prog_bind prog_bind_].
  destruct (decide (a = Some name_key)) as [->|Ha]; [by rewrite bool_decide_true|rewrite bool_decide_false by done; auto].
Qed.
Lemma current_snoc h : current (h ++ [E NameKey (Some name_key)]).
Proof. unfold current. by rewrite last_read_app. Qed.
Lemma broken_snoc h a : a ≠ Some name_key → broken (h ++ [E NameKey a]).
Proof. intros Ha. exists a. by rewrite last_read_app. Qed.
(** Two reads with no await between them agree. *)
Lemma broken_not_ours h t : broken h → last_read (h ++ t) = last_read h → steady ((h ++ t) ++ [E NameKey (Some name_key)]) = true → False.
Proof.
  intros (k & Hk & Hne) Ht. unfold steady. rewrite steady_from_app. change (foldl note None (h ++ t)) with (last_read (h ++ t)).
  rewrite Ht, Hk. cbn. rewrite bool_decide_false by done. by rewrite andb_false_r.
Qed.

(** ** Filters *)
Lemma quiet_publishable item : all_calls asking (item_publishable item).
Proof. unfold item_publishable. by destruct (is_opaque_tree _). Qed.
Lemma runs_publishable item t : runs (item_publishable item) t (Some true) →
  is_opaque_tree (si_tree item) = false ∧ t = [] ∨ is_opaque_tree (si_tree item) = true ∧ t = [E (OpaqueStatus (si_tree item)) (Some true)].
Proof.
  unfold item_publishable. destruct (is_opaque_tree _); cbn [negb].
  - rewrite runs_bind. intros (t1 & t2 & s & -> & Hs & [-> [= Hb]]). apply (runs_call (ans := ans) (OpaqueStatus _)) in Hs as ->.
    symmetry in Hb. apply bool_decide_eq_true in Hb as ->. by right.
  - intros [-> _]%runs_Done. by left.
Qed.
Lemma runs_unpublishable item t : runs (item_publishable item) t (Some false) → is_opaque_tree (si_tree item) = true.
Proof. unfold item_publishable. destruct (is_opaque_tree _); [done|]. by intros [_ ?]%runs_Done. Qed.
Lemma quiet_filter {A} (f : A → prog bool) l : (∀ x, all_calls asking (f x)) → all_calls asking (filter_calls f l).
Proof. intros Hf. induction l as [|x l IH]; [done|]. apply all_calls_bind; [done|]. intros b. by apply all_calls_bind. Qed.
Lemma runs_filter {A} (f : A → prog bool) l t l' : runs (filter_calls f l) t (Some l') →
  (∀ x, x ∈ l' → x ∈ l ∧ ∃ t1 t2 t3, t = t1 ++ t2 ++ t3 ∧ runs (f x) t2 (Some true)) ∧
  (∀ x, x ∈ l → x ∈ l' ∨ ∃ t2, runs (f x) t2 (Some false)).
Proof.
  revert t l'. induction l as [|y l IH]; intros t l'; cbn [filter_calls].
  { intros [-> <-]%runs_Done. split; intros x Hx; by apply elem_of_nil in Hx. }
  rewrite runs_bind. intros (t1 & t2 & b & -> & Hb & Hr). apply runs_bind in Hr as (t3 & t4 & l1 & -> & Hl & [-> <-]%runs_Done).
  apply IH in Hl as [H1' H2]. rewrite app_nil_r. split.
  - intros x Hx. assert (x ∈ l1 ∨ x = y ∧ b = true) as [Hx'|[-> ->]] by (destruct b; [apply elem_of_cons in Hx as [->|?]|]; auto).
    + destruct (H1' x Hx') as [Hin (a1 & a2 & a3 & -> & Ha)]. split; [by right|]. exists (t1 ++ a1), a2, a3. by rewrite <- !app_assoc.
    + split; [left|]. by exists [], t1, t3.
  - intros x [->|Hx]%elem_of_cons.
    + destruct b; [left; left|right; by exists t1].
    + destruct (H2 x Hx) as [?|?]; [left|by right]. destruct b; [by right|done].
Qed.

(** ** Uploads *)
Definition exact (folder : string) (h : history) (present : gset string) : Prop := ∀ n, n ∈ present ↔ n ∈ names folder h.
Lemma exact_quiet folder h t present : exact folder h present → entries folder t = [] → tried folder t = [] → exact folder (h ++ t) present.
Proof. intros He H1' H2 n. rewrite (He n), names_app. unfold names at 3. rewrite H1', H2. set_solver. Qed.
Lemma exact_put folder h item b r present : exact folder h present →
  exact folder (h ++ [E (Create folder (name_of name_key item) b) r]) ({[name_of name_key item]} ∪ present).
Proof.
  intros He n. rewrite names_app, <- (He n). unfold names, entries, tried. cbn. rewrite decide_True by done. cbn. set_solver.
Qed.
Lemma names_mono folder h t n : n ∈ names folder h → n ∈ names folder (h ++ t).
Proof. rewrite names_app. auto. Qed.

Lemma wp_put {Y} folder item (k : string → prog (result Trouble Y)) h Q :
  item ∈ items_seen h → name_of name_key item ∉ names folder h → current h →
  (steady h = true → si_tree item = us_tree ∨ controlled_before folder h ∧
    (is_opaque_tree (si_tree item) = true → (si_tree item, Some true) ∈ statuses h)) →
  (∀ e h, Q (Err e) h) →
  (∀ b id, wp (may folder) (k id) (h ++ [E (Create folder (name_of name_key item) b) (Ok id)]) Q) →
  wp (may folder) (try (put_item name_key folder item) k) h Q.
Proof.
  intros Hi Hn Hc Hb HE Hk. unfold put_item. destruct (item_to_vec item) as [b|e] eqn:Hv; [|apply HE].
  split; [|intros [id|e]; [apply Hk|apply HE]]. intros Hs. split; [done|]. exists item. split_and!; auto.
Qed.

(** One turn over the control items. *)
Lemma wp_push_items folder items pushed present h : current h → exact folder h present →
  (∀ item, item ∈ items → item ∈ items_seen h ∧ si_tree item = us_tree) →
  wp (may folder) (push_items name_key folder items pushed present) h (λ r h', match r with
    | Err _ => True
    | Ok (changed, _, present') => exact folder h' present' ∧ (changed = true → broken h') ∧
        (changed = false → ∀ item, item ∈ items → name_of name_key item ∈ names folder h') end).
Proof.
  revert pushed present h. induction items as [|item items IH]; intros pushed present h Hc He Hi; cbn [push_items].
  { split_and!; [done..|]. intros _ item Hin. by apply elem_of_nil in Hin. }
  assert (∀ i, i ∈ items → i ∈ items_seen h ∧ si_tree i = us_tree) as Hi' by (intros i ?; apply Hi; by right).
  destruct (Hi item) as [Hin Hus]; [left|]. destruct (decide (name_of name_key item ∈ present)) as [Hn|Hn].
  - rewrite bool_decide_true by done. eapply wp_mono; [by apply IH|]. intros [[[changed p] present']|] t; [|done].
    intros (He' & Hb & Hall). split_and!; [done..|]. intros Hch i [->|Hii]%elem_of_cons; [|by apply Hall].
    by apply names_mono, He.
  - rewrite bool_decide_false by done. apply wp_put; [done| |done|by left|done|].
    { by rewrite <- (He _). }
    intros b id. cbn [try]. apply wp_ours.
    + eapply wp_mono; [apply IH|].
      * apply current_snoc.
      * apply exact_quiet; [by apply exact_put|done..].
      * intros i Hii. destruct (Hi' i Hii) as [Hs ?]. split; [|done]. rewrite !items_seen_app. set_solver.
      * intros [[[changed p] present']|] t; [|done]. intros (He' & Hb & Hall). split_and!; [done..|].
        intros Hch i [->|Hii]%elem_of_cons; [|by apply Hall].
        apply names_mono, names_mono. apply (exact_put folder h item b (Ok id) present He). set_solver.
    + intros a Ha. split_and!; [apply exact_quiet; [by apply exact_put|done..]|by intros _; apply broken_snoc|done].
Qed.

Lemma asks_kept t h folder present : asks t → (exact folder h present → exact folder (h ++ t) present) ∧
  (current h → current (h ++ t)) ∧ items_seen (h ++ t) = items_seen h.
Proof.
  intros Ht. destruct (asks_quiet t h folder Ht) as (Hl & He & Htr & _ & _ & Hi & _). split_and!; [| |done].
  - intros Hx n. unfold names. rewrite He, Htr. apply Hx.
  - unfold current. by rewrite Hl.
Qed.
Ltac quiet_exact := repeat first [eassumption | apply exact_quiet; [|done|done]].

(** The barrier. *)
Lemma wp_push_control fuel folder pushed present h : exact folder h present →
  wp (may folder) (drive_push_control name_key fuel folder pushed present) h (λ r h', match r with
    | Err _ => True
    | Ok (_, present') => exact folder h' present' ∧ (controlled folder h' ∨ broken h') end).
Proof.
  revert pushed present h. induction fuel as [|fuel IH]; intros pushed present h He; cbn [drive_push_control]; [by split|].
  apply wp_ours; [|intros a Ha; split; [quiet_exact|right; by apply broken_snoc]].
  split; [done|]. intros [[]|e]; [|exact I]. cbn [mbind prog_bind prog_bind_ map_err try].
  apply wp_ours; [|intros a Ha; split; [quiet_exact|right; by apply broken_snoc]].
  split; [done|]. intros r. cbn [mbind prog_bind prog_bind_]. split; [done|]. intros l. cbn [mbind prog_bind prog_bind_].
  match goal with |- wp _ _ ?g _ => assert (exact folder g present ∧ current g ∧ l ⊆ items_seen g ∧
    g = (h ++ [E NameKey (Some name_key)]) ++ [E ControlBarrier (Ok tt); E NameKey (Some name_key); E ControlRevision r; E Items l])
    as (He0 & Hc0 & Hl0 & Hh0); [|revert He0 Hc0 Hl0 Hh0; generalize g; intros h0 He0 Hc0 Hl0 Hh0] end.
  { split_and!; [quiet_exact| | |by rewrite <- !app_assoc].
    - unfold current. rewrite last_read_app, last_read_app, current_snoc. done.
    - rewrite items_seen_app. cbn. set_solver. }
  apply (wp_bind (ans := ans)), wp_asks; [apply quiet_filter; intros; apply quiet_publishable|].
  intros t control [Hin Hall]%runs_filter Ht. destruct (asks_kept t h0 folder present Ht) as (Hex & Hcu & His).
  apply wp_try. eapply wp_mono; [apply wp_push_items; [by apply Hcu|by apply Hex|]|].
  { intros item Hii. apply Hin in Hii as [[Hus Hii]%list_elem_of_filter _]. rewrite His. auto. }
  intros [[[changed p] present']|e] t' Hp; [|done]. destruct Hp as (He' & Hb & Hn).
  destruct changed; [split; [done|right; by apply Hb]|]. split; [done|]. intros r'. cbn [mbind prog_bind prog_bind_].
  destruct (decide (r' = r)) as [->|Hne].
  - rewrite Z.eqb_refl. split; [quiet_exact|left].
    exists (h ++ [E NameKey (Some name_key)]), (t ++ t'), r, l. split; [rewrite Hh0, <- !app_assoc; done|].
    intros Hop item Hii Hus. apply names_mono. apply (Hn eq_refl item).
    destruct (Hall item) as [?|[t2 Hr2]]; [by apply list_elem_of_filter|done|].
    apply runs_unpublishable in Hr2. rewrite Hus in Hr2. congruence.
  - rewrite (proj2 (Z.eqb_neq r' r)) by done. eapply wp_mono; [apply IH; quiet_exact|done].
Qed.

(** ** Deletions *)
Definition own (folder : string) (h : history) (id : string) item : Prop :=
  (id, name_of name_key item) ∈ entries folder h ∧ (id, item) ∈ reads h ∧ item ∈ valid_seen h ∨
  (name_of name_key item, id) ∈ created folder h ∧ item ∈ items_seen h.
Lemma own_mono folder h t id item : own folder h id item → own folder (h ++ t) id item.
Proof. unfold own. rewrite entries_app, reads_app, valid_seen_app, created_app, items_seen_app. set_solver. Qed.
Lemma wp_retire fuel folder item id present h : exact folder h present → is_opaque_tree (si_tree item) = true → own folder h id item →
  wp (may folder) (retire name_key fuel folder (si_tree item) id present) h (λ r h', match r with
    | Err _ => True
    | Ok (_, present') => exact folder h' present' end).
Proof.
  intros He Hop Hown. unfold retire. apply wp_try. eapply wp_mono; [by apply wp_push_control|].
  intros [[p present']|e] t Hp; [|done]. destruct Hp as [He' Hc]. apply (own_mono _ _ t) in Hown.
  revert He' Hc Hown. generalize (h ++ t). intros h' He' Hc Hown.
  apply wp_ours; [|intros a Ha; quiet_exact].
  split; [done|]. intros s. cbn [mbind prog_bind prog_bind_].
  destruct (decide (s = Some false)) as [->|]; [|rewrite bool_decide_false by done; quiet_exact].
  rewrite bool_decide_true by done. cbn [negb]. split; [|intros [[]|?]; [|exact I]; quiet_exact].
  intros Hs. exists h', item. rewrite <- app_assoc. split_and!; [done..| |exact Hown].
  destruct Hc as [?|Hb]; [done|]. exfalso. apply (broken_not_ours h' [] Hb); rewrite app_nil_r; [done|]. by apply steady_app in Hs.
Qed.

(** ** Content *)
Lemma controlled_before_mono folder h t : controlled_before folder h → controlled_before folder (h ++ t).
Proof. intros (h0 & h3 & -> & Hc). exists h0, (h3 ++ t). by rewrite <- app_assoc. Qed.
Definition behind (folder : string) (h : history) : Prop :=
  steady (h ++ [E NameKey (Some name_key)]) = true → controlled_before folder h.
Lemma behind_next folder h t : behind folder h → behind folder ((h ++ [E NameKey (Some name_key)]) ++ t).
Proof. intros Hb Hs. apply controlled_before_mono, controlled_before_mono, Hb. by apply steady_app, steady_app in Hs. Qed.
Lemma statuses_snoc h tree a : (tree, a) ∈ statuses (h ++ [E (OpaqueStatus tree) a]).
Proof. rewrite statuses_app. cbn. set_solver. Qed.

(** What follows an upload: content is published, opaque content again only
    while it is current, and deleted at once if it was retired meanwhile. *)
Lemma wp_uploaded fuel folder item id present (rest : gset string → Async.prog ans (result Trouble (bool * bool * gset string))) h Q :
  exact folder h present → own folder h id item →
  (∀ u present', exact folder (h ++ u) present' → wp (may folder) (rest present') (h ++ u) Q) →
  (∀ e h', Q (Err e) h') → (∀ present' h', exact folder h' present' → Q (Ok (true, true, present')) h') →
  wp (may folder) (
    ours ← still_ours name_key;
    if negb ours then Done (Ok (true, true, present)) else
    if negb (is_opaque_tree (si_tree item)) then rest present else
    may1 ← item_publishable item;
    if may1 : bool then rest present else
    r ←! retire name_key fuel folder (si_tree item) id present;
    let '(changed, present) := r in
    if changed : bool then Done (Ok (true, true, present)) else rest present) h Q.
Proof.
  intros He Hown Hrest HE Hend. apply wp_ours; [|intros a Ha; apply Hend; quiet_exact].
  destruct (is_opaque_tree (si_tree item)) eqn:Hop; cbn [negb]; [|apply Hrest; quiet_exact].
  apply (wp_bind (ans := ans)), wp_asks; [apply quiet_publishable|]. intros t may1 _ Ht.
  assert (exact folder ((h ++ [E NameKey (Some name_key)]) ++ t) present) as He1
    by (apply (asks_kept t _ folder present Ht); quiet_exact).
  rewrite <- app_assoc in *. destruct may1; [by apply Hrest|].
  apply wp_try. eapply wp_mono; [apply wp_retire; [done..|by apply own_mono]|].
  intros [[changed present']|?] t3 Hp; [|apply HE]. destruct changed; [by apply Hend|].
  rewrite <- app_assoc in *. by apply Hrest.
Qed.
Lemma wp_push_content fuel folder items pushed present h : exact folder h present → (∀ item, item ∈ items → item ∈ items_seen h) →
  behind folder h →
  wp (may folder) (push_content name_key fuel folder items pushed present) h (λ r h', match r with
    | Err _ => True
    | Ok (_, _, present') => exact folder h' present' end).
Proof.
  revert pushed present h. induction items as [|item items IH]; intros pushed present h He Hi Hbe; cbn [push_content]; [done|].
  assert (item ∈ items_seen h) as Hin by (apply Hi; left).
  apply wp_ours; [|intros a Ha; quiet_exact].
  apply (wp_bind (ans := ans)), wp_asks; [apply quiet_publishable|]. intros t may1 Hr Ht.
  set (h1 := h ++ [E NameKey (Some name_key)]) in *.
  destruct (asks_kept t h1 folder present Ht) as (Hex & Hcu & His).
  assert (exact folder (h1 ++ t) present) as He1 by (apply Hex; subst h1; quiet_exact).
  assert (∀ pushed' u present', exact folder ((h1 ++ t) ++ u) present' →
    wp (may folder) (push_content name_key fuel folder items pushed' present') ((h1 ++ t) ++ u)
      (λ r h', match r with Err _ => True | Ok (_, _, present') => exact folder h' present' end)) as Hrest.
  { intros pushed' u present' Hu. apply IH; [done| |rewrite <- app_assoc; by apply behind_next].
    intros i Hii. rewrite items_seen_app, His. subst h1. rewrite items_seen_app. specialize (Hi i). set_solver. }
  pose proof (λ p, Hrest p [] present) as Hnext. rewrite app_nil_r in Hnext.
  destruct may1; cbn [negb]; [|by apply Hnext].
  destruct (decide (name_of name_key item ∈ present)) as [Hn|Hn]; [rewrite bool_decide_true by done; by apply Hnext|].
  rewrite bool_decide_false by done. apply wp_put.
  - rewrite His. subst h1. rewrite items_seen_app. set_solver.
  - by rewrite <- (He1 _).
  - apply Hcu. subst h1. apply current_snoc.
  - intros Hs. right. split; [apply controlled_before_mono, controlled_before_mono, Hbe; by apply steady_app in Hs|].
    intros Hop. apply runs_publishable in Hr as [[? _]|[_ ->]]; [congruence|apply statuses_snoc].
  - done.
  - intros b id. apply wp_uploaded; [by apply exact_put| | |done..].
    + right. rewrite created_app, items_seen_app, His. subst h1. rewrite items_seen_app. cbn. rewrite decide_True by done. set_solver.
    + intros u present' Hu. rewrite <- app_assoc. apply Hrest. by rewrite app_assoc.
Qed.

(** ** What was downloaded *)
Lemma quiet_eligible x : all_calls asking (eligible name_key x).
Proof. destruct x as [[id name] item]. unfold eligible. do 2 (case_match; [done|]). split; [done|]. intros []; by repeat split. Qed.
Lemma quiet_obsolete x : all_calls asking (obsolete name_key x).
Proof. destruct x as [[id name] item]. unfold obsolete. do 2 (case_match; [done|]). split; [done|]. intros []; by repeat split. Qed.
(** Both rules check the tree, the name and the signature before the status. *)
Definition checked (s : option bool) (x : string * string * StoreItem) (t : history) : Prop :=
  is_opaque_tree (si_tree x.2) = true ∧ x.1.2 = name_of name_key x.2 ∧
  t = [E (ValidStoreItem x.2) true; E (OpaqueStatus (si_tree x.2)) s].
Lemma runs_eligible x t : runs (eligible name_key x) t (Some true) → checked (Some true) x t.
Proof.
  destruct x as [[id name] item]. unfold eligible, checked. cbn [fst snd].
  destruct (is_opaque_tree _); [|by intros [_ ?]]. destruct (decide (name = name_of name_key item)) as [->|]; [|rewrite bool_decide_false by done; by intros [_ ?]].
  rewrite bool_decide_true by done. cbn. intros [[_ ?]|([] & t' & -> & Hr)]; [done| |by destruct Hr as [_ ?]].
  cbn in Hr. destruct Hr as [[_ ?]|(s & t2 & -> & -> & [= Hb])]; [done|]. symmetry in Hb. by apply bool_decide_eq_true in Hb as ->.
Qed.
Lemma runs_obsolete x t : runs (obsolete name_key x) t (Some true) → checked (Some false) x t.
Proof.
  destruct x as [[id name] item]. unfold obsolete, checked. cbn [fst snd].
  destruct (is_opaque_tree _); [|by intros [_ ?]]. destruct (decide (name = name_of name_key item)) as [->|]; [|rewrite bool_decide_false by done; by intros [_ ?]].
  rewrite bool_decide_true by done. cbn. intros [[_ ?]|([] & t' & -> & Hr)]; [done| |by destruct Hr as [_ ?]].
  cbn in Hr. destruct Hr as [[_ ?]|(s & t2 & -> & -> & [= Hb])]; [done|]. symmetry in Hb. by apply bool_decide_eq_true in Hb as ->.
Qed.
Definition fetched (folder : string) (h : history) (x : string * string * StoreItem) : Prop :=
  (x.1.1, x.1.2) ∈ entries folder h ∧ (x.1.1, x.2) ∈ reads h.
Lemma fetched_mono folder h t x : fetched folder h x → fetched folder (h ++ t) x.
Proof. unfold fetched. rewrite entries_app, reads_app. set_solver. Qed.

Lemma wp_clean_up fuel folder downloaded present h : exact folder h present →
  (∀ x, x ∈ downloaded → fetched folder h x) →
  wp (may folder) (clean_up name_key fuel folder downloaded present) h (λ _ _, True).
Proof.
  revert present h. induction downloaded as [|[[id name] item] downloaded IH]; intros present h He Hd; [exact I|].
  cbn [clean_up]. assert (∀ x, x ∈ downloaded → fetched folder h x) as Hd' by (intros x ?; apply Hd; by right).
  apply wp_ours; [|done]. apply (wp_bind (ans := ans)), wp_asks; [apply quiet_obsolete|]. intros t old Hr Ht.
  set (h1 := h ++ [E NameKey (Some name_key)]) in *. assert (exact folder h1 present) as He1 by (subst h1; quiet_exact).
  assert (∀ u x, x ∈ downloaded → fetched folder ((h1 ++ t) ++ u) x) as Hd1.
  { intros u x Hx. subst h1. rewrite <- !app_assoc. by apply fetched_mono, Hd'. }
  destruct (asks_kept t h1 folder present Ht) as (Hex & _ & _).
  destruct old; cbn [negb]; [|apply IH; [by apply Hex|]; specialize (Hd1 []); by rewrite app_nil_r in Hd1].
  apply runs_obsolete in Hr as (Hop & Hn & Htt). cbn [fst snd] in *.
  apply wp_try. eapply wp_mono; [apply wp_retire; [by apply Hex|done|]|].
  - left. destruct (Hd (id, name, item)) as [Hen Hre]; [left|]. cbn [fst snd] in *. rewrite <- Hn. subst h1 t.
    rewrite !entries_app, !reads_app, !valid_seen_app. set_solver.
  - intros [[[] present']|?] u Hp; [done| |done]. apply IH; [done|apply Hd1].
Qed.

Lemma wp_download folder held remote acc h :
  (∀ e, e ∈ remote → e ∈ entries folder h) → (∀ x, x ∈ acc → fetched folder h x) →
  wp (may folder) (download name_key held remote acc) h (λ r h', match r with
    | Ok (Some downloaded) => ∀ x, x ∈ downloaded → fetched folder h' x
    | _ => True end).
Proof.
  revert acc h. induction remote as [|[id name] remote IH]; intros acc h Hr Ha; cbn [download]; [done|].
  assert (∀ t acc', (∀ x, x ∈ acc' → fetched folder (h ++ t) x) →
    wp (may folder) (download name_key held remote acc') (h ++ t) (λ r h', match r with
    | Ok (Some downloaded) => ∀ x, x ∈ downloaded → fetched folder h' x
    | _ => True end)) as Hnext.
  { intros t acc' Ha'. apply IH; [|done]. intros e He. rewrite entries_app. specialize (Hr e). set_solver. }
  assert (∀ t x, x ∈ acc → fetched folder (h ++ t) x) as Ha' by (intros; apply fetched_mono; auto).
  apply wp_ours; [|done]. case_bool_decide; [by apply Hnext, Ha'|].
  split; [done|]. intros d. cbn [mbind prog_bind prog_bind_]. rewrite <- app_assoc. case_bool_decide; [by apply Hnext, Ha'|].
  split; [done|]. intros [[b|]|e]; [| |exact I]; cbn [mbind prog_bind prog_bind_]; rewrite <- app_assoc; [|by apply Hnext, Ha'].
  destruct (item_from_slice b) as [item|e] eqn:Hb.
  - apply Hnext. intros x [Hx|Hx]%elem_of_app; [by apply Ha'|]. apply list_elem_of_singleton in Hx as ->. split; cbn [fst snd].
    + rewrite entries_app, elem_of_app. left. apply Hr. left.
    + rewrite reads_app, elem_of_app. right. unfold reads. cbn. rewrite Hb. set_solver.
  - split; [done|]. intros []. cbn [mbind prog_bind prog_bind_]. rewrite <- app_assoc. by apply Hnext, Ha'.
Qed.

(** ** The pass *)
(** Calls that neither list nor upload leave the known names alone. *)
Definition nameless (c : call) : Prop := match c with ListFolder _ | Create _ _ _ => False | _ => True end.
Lemma exact_nameless folder h t present : Forall (λ e, nameless (asked e)) t → exact folder h present → exact folder (h ++ t) present.
Proof.
  intros Ht He. apply exact_quiet; [done|..]; induction Ht as [|[c a] t Hc _ IH]; [done| |done|];
    unfold entries, tried in *; rewrite bind_cons, IH; by destruct c.
Qed.
Lemma nameless_download held remote acc : all_calls nameless (download name_key held remote acc).
Proof.
  revert acc. induction remote as [|[id name] remote IH]; intros acc; cbn [download]; [done|].
  apply all_calls_bind; [by repeat split|]. intros []; [|done]. cbn [negb]. case_match; [done|].
  split; [done|]. intros d. cbn. case_match; [apply IH|]. split; [done|]. intros [[b|]|e]; cbn; [|done..].
  destruct (item_from_slice b); [apply IH|]. split; [done|]. intros []. apply IH.
Qed.

Lemma wp_publish fuel folder remote downloaded landed h : exact folder h (list_to_set (snd <$> remote)) →
  (∀ x, x ∈ downloaded → fetched folder h x) →
  wp (may folder) (publish name_key fuel folder remote downloaded landed) h (λ _ _, True).
Proof.
  intros He Hd. unfold publish.
  assert (∀ t, wp (may folder) (stamp_if landed set_pull) t (λ _ t', ∃ u, t' = t ++ u ∧ Forall (λ e, nameless (asked e)) u)) as Hst.
  { intros t. eapply wp_mono; [apply (wp_trace _ nameless) with (Q := λ _ _, True)|by intros x h' [_ ?]]; by destruct landed. }
  apply (wp_bind (ans := ans)). eapply wp_mono; [apply Hst|]. intros _ u (u' & ->%app_inv_head & Hu).
  apply wp_try. eapply wp_mono; [apply wp_push_control; by apply exact_nameless|].
  intros [[pushed present]|e] t; [|done]. intros [He' Hc]. cbn [fst snd]. rewrite <- app_assoc in *. generalize dependent (u' ++ t).
  intros t' He' Hc. split; [done|]. intros l. cbn [mbind prog_bind prog_bind_]. apply wp_try.
  eapply wp_mono; [apply wp_push_content; [quiet_exact| |]|].
  - intros item [_ Hi]%list_elem_of_filter. rewrite items_seen_app, elem_of_app. right. unfold items_seen. cbn. by rewrite app_nil_r.
  - intros Hs. destruct Hc as [Hc|Hb]; [by exists (h ++ t'), [E Items l]|]. exfalso. by eapply (broken_not_ours (h ++ t') [E Items l]); [|rewrite last_read_app|].
  - intros [[[[] p] present']|e] t2 He2; [done| |done]. cbn [fst snd]. apply (wp_bind (ans := ans)).
    eapply wp_mono; [apply (wp_trace _ nameless) with (Q := λ _ _, True); by destruct p|]. intros _ t3 [_ (t3' & ->%app_inv_head & Ht3)].
    apply wp_try. eapply wp_mono; [apply wp_clean_up; [by apply exact_nameless|]|by intros []].
    intros x Hx. rewrite <- !app_assoc. by apply fetched_mono, Hd.
Qed.

Lemma wp_ingest {Y} folder items (k : bool → prog (result Trouble Y)) h Q :
  (steady h = true → items ≠ [] → ingest_ok folder h items) → (∀ e h, Q (Err e) h) →
  (∀ b t, Forall (λ e, nameless (asked e)) t → (items = [] → t = []) → wp (may folder) (k b) (h ++ t) Q) →
  wp (may folder) (try (ingest items) k) h Q.
Proof.
  intros Hok HE Hk. unfold ingest. destruct (decide (items = [])) as [Hi|Hi].
  - rewrite bool_decide_true by done. specialize (Hk false []). rewrite app_nil_r in Hk. by apply Hk.
  - rewrite bool_decide_false by done. split; [intros Hs; by apply Hok|]. intros [b|e]; [|apply HE].
    apply Hk; [by repeat constructor|done].
Qed.
Lemma checked_since s x t t' h : checked s x t → asks t' → valid_seen t ⊆ valid_seen ((h ++ t) ++ t') ∧
  x.2 ∈ valid_seen ((h ++ t) ++ t') ∧ (si_tree x.2, s) ∈ statuses ((h ++ t) ++ t').
Proof.
  intros (_ & _ & ->) Ht'. rewrite !valid_seen_app. split_and!; [set_solver|set_solver|].
  apply (asks_quiet t' _ EmptyString Ht'). rewrite statuses_app. cbn. set_solver.
Qed.

Lemma wp_take_in fuel folder remote downloaded h : exact folder h (list_to_set (snd <$> remote)) →
  (∀ x, x ∈ downloaded → fetched folder h x) →
  wp (may folder) (take_in name_key fuel folder remote downloaded) h (λ _ _, True).
Proof.
  intros He Hd. unfold take_in. apply wp_ours; [|done]. apply wp_ingest; [|done|].
  { intros _ _. split; [apply current_snoc|]. intros item ([[id name] i] & -> & [Hop Hx]%list_elem_of_filter)%list_elem_of_fmap.
    destruct (fetched_mono folder h [E NameKey (Some name_key)] _ (Hd _ Hx)). exists id, name. split_and!; [done..|]. cbn in *. congruence. }
  intros landed t Ht _. rewrite <- app_assoc. set (u := [E NameKey (Some name_key)] ++ t).
  assert (Forall (λ e, nameless (asked e)) u) as Hu by (by constructor). clearbody u.
  apply wp_ours; [|done]. set (h1 := (h ++ u) ++ [E NameKey (Some name_key)]).
  assert (∀ v x, x ∈ downloaded → fetched folder (h1 ++ v) x) as Hd1 by (intros; subst h1; rewrite <- !app_assoc; by apply fetched_mono, Hd).
  assert (current h1) as Hc1 by apply current_snoc.
  assert (exact folder h1 (list_to_set (snd <$> remote))) as He1 by (subst h1; apply exact_quiet; [by apply exact_nameless|done..]).
  clearbody h1. apply (wp_bind (ans := ans)), wp_asks; [apply quiet_filter, quiet_eligible|].
  intros v payload [Hin _]%runs_filter Hv. destruct (asks_kept v h1 folder (list_to_set (snd <$> remote)) Hv) as (Hex & Hcu & _).
  apply wp_ingest; [|done|].
  { intros _ _. split; [by apply Hcu|]. intros item (x & -> & Hx)%list_elem_of_fmap. destruct (Hin x Hx) as [Hxd (t1 & t2 & t3 & -> & Hr)].
    destruct (Hd1 (t1 ++ t2 ++ t3) x Hxd) as [Hen Hre]. exists x.1.1, x.1.2. split_and!; [done..|]. intros _.
    apply runs_eligible in Hr as Hch. apply Forall_app in Hv as [_ [_ Hv3]%Forall_app].
    destruct (checked_since (Some true) x t2 t3 (h1 ++ t1) Hch Hv3) as (_ & Hva & Hs). rewrite <- !app_assoc in *. split_and!; [apply Hch|done..]. }
  intros also t2 Ht2 _. rewrite <- app_assoc. apply wp_publish; [|by apply Hd1].
  rewrite app_assoc. apply exact_nameless; [done|]. by apply Hex.
Qed.

(** From the resolved folder on. *)
Lemma wp_after_folder fuel folder :
  wp (may folder) (_ ←! engine;
    remote ←! Async.call (ListFolder folder);
    items ← Async.call Items;
    read ← Async.call ReadNotHeld;
    found ←! download name_key (held_names name_key items read) remote [];
    match found with
    | None => Done (Ok false)
    | Some downloaded => take_in name_key fuel folder remote downloaded
    end) [E (Folder name_key) (Ok folder)] (λ _ _, True).
Proof.
  split; [done|]. intros [[]|e]; [|exact I]. cbn [mbind prog_bind prog_bind_ map_err].
  split; [done|]. intros [remote|e]; [|exact I]. cbn [mbind prog_bind prog_bind_].
  split; [done|]. intros items. cbn [mbind prog_bind prog_bind_]. split; [done|]. intros read. cbn [mbind prog_bind prog_bind_].
  match goal with |- wp _ _ ?g _ => assert (entries folder g = remote ∧ tried folder g = []) as [Hen Htr] end.
  { unfold entries, tried. cbn. rewrite decide_True by done. by rewrite app_nil_r. }
  apply wp_try. eapply wp_mono.
  - apply (wp_trace _ nameless); [apply nameless_download|]. apply (wp_download folder); [|intros x Hx; by apply elem_of_nil in Hx].
    by rewrite Hen.
  - intros [[downloaded|]|e] t; [|done..]. intros [Hd (t' & ->%app_inv_head & Ht)]. apply wp_take_in; [|done].
    apply exact_nameless; [done|]. intros n. unfold names. rewrite Hen, Htr, app_nil_r. by rewrite elem_of_list_to_set.
Qed.

Lemma store_pass_spec fuel t r : runs (sync_attempt name_key fuel) t r → steady t = true →
  ∀ t1 e t2, t = t1 ++ e :: t2 →
  match asked e with Create _ _ _ | Delete _ | Ingest _ => True | _ => False end →
  ∃ folder t0, t1 = E (Folder name_key) (Ok folder) :: t0 ∧ pass_may folder t1 (asked e).
Proof.
  intros Hr Hs t1 e t2 Ht He. cbn in Hr. destruct Hr as [[-> _]|([folder|tr] & t' & -> & Hr)]; [by destruct t1| |].
  - destruct (wp_guards _ _ _ _ _ _ (wp_after_folder fuel folder) Hr) as [Hg _].
    destruct t1 as [|e1 t1]; [injection Ht as <- _; done|]. injection Ht as <- Ht. exists folder, t1. split; [done|].
    apply (Hg t1 e t2 Ht). apply (steady_app _ (e :: t2)). by rewrite Ht in Hs.
  - cbn in Hr. destruct Hr as [-> _]. destruct t1 as [|? [|]]; [injection Ht as <- _; done|done..].
Qed.

(** C24: Over every history of a pass: an object is deleted only when it is this
    group's own, its tree is retired, and the control that retired it is already
    in the store; a name is uploaded once, for the group of that instant, content
    only behind its control and opaque content only while current; and only what
    was listed and read is taken in, opaque content only when signed, named and
    current. *)
Theorem store_pass_guarded fuel t r : runs (sync_attempt name_key fuel) t r → steady t = true →
  ∀ t1 e t2, t = t1 ++ e :: t2 →
  match asked e with Create _ _ _ | Delete _ | Ingest _ => True | _ => False end →
  ∃ folder t0, t1 = E (Folder name_key) (Ok folder) :: t0 ∧ pass_may folder t1 (asked e).
Proof. exact (store_pass_spec fuel t r). Qed.
End Facts.

(** ** A concrete pass *)
Module Concrete.
Import Crypto.Toy.
Definition key : bytes := replicate 32 (byte_of 7).
#[local] Instance mac4 : Hmac := {| hmac k m := fit 32 (take 1 k ++ drop 28 m); length_hmac k m := length_fit 32 _ |}.
Definition opaque : bytes := OPAQUE_PREFIX ++ replicate 28 (byte_of 1).
(** Every object of this store holds an item of the opaque tree. *)
#[local] Instance json0 : DriveJson := {|
  json := unit; Null := tt; parse _ := Err ""%string; get _ _ := None; as_str _ := None; as_array _ := None;
  object_text _ := ""%string; parse_issued _ := Err ""%string;
  item_to_vec item := Ok (si_blob item);
  item_from_slice b := Ok (mkStoreItem opaque (replicate 32 (byte_of 2)) [] b ItemCommit) |}.
Definition control : StoreItem := mkStoreItem us_tree (replicate 32 (byte_of 3)) [] [byte_of 3] ItemCommit.
Definition content : StoreItem := mkStoreItem (replicate 32 (byte_of 4)) (replicate 32 (byte_of 4)) [] [byte_of 4] ItemFragment.
Definition retired : StoreItem := mkStoreItem opaque (replicate 32 (byte_of 2)) [] [byte_of 5] ItemCommit.
(** The rest of the kernel and the store: one retired object in the folder. *)
Definition handle (n : nat) (c : call) : option (ans c * nat) :=
  match c as c return option (ans c * nat) with
  | Folder _ => Some (Ok "folder"%string, n)
  | ListFolder _ => Some (Ok [("old"%string, name_of key retired)], n)
  | Read _ => Some (Ok (Some [byte_of 5]), n)
  | Create _ _ _ => Some (Ok "new"%string, n)
  | Delete _ => Some (Ok tt, n)
  | Engine => Some (Ok tt, n)
  | NameKey => Some (Some key, n)
  | Items => Some ([control; content], n)
  | ReadNotHeld => Some ([], n)
  | Ingest _ => Some (Ok true, n)
  | ValidStoreItem _ => Some (true, n)
  | OpaqueStatus _ => Some (Some false, n)
  | ControlBarrier => Some (Ok tt, n)
  | ControlRevision => Some (1, n)
  | OpenDevice => Some (Ok tt, n)
  | GetDrive => Some (Drive_default, n)
  | SetDrive _ => Some (tt, n)
  | Now => Some (5, n)
  | Checkpoint => Some (Ok tt, n)
  | Sessions => Some ([], n)
  | WakeDocuments _ | RefreshPersonalization | PushPersonalizationChanged | PushContactsChanged => Some (tt, n)
  | GetGate => Some ((false, false), n)
  | SetGate _ _ => Some (tt, n)
  | Upgrade => Some (true, n)
  | SpawnSync => Some (tt, n)
  | Cut => None
  end.
Definition pass := run_with handle 0%nat (sync_attempt key 1).
Definition effect (c : call) : bool := match c with Create _ _ _ | Delete _ | Ingest _ => true | _ => false end.
Lemma pass_effects : filter (λ c, effect c = true) (asked <$> pass.1) =
    [Create "folder" (name_of key control) [byte_of 3]; Create "folder" (name_of key content) [byte_of 4]; Delete "old"]%string ∧
  pass.2 = Some (Ok false) ∧ steady pass.1 = true.
Proof. vm_compute. split_and!; reflexivity. Qed.
Lemma store_pass_guarded_witness :
  ∃ folder t0, pass_may key folder (Ev (Folder key) (Ok folder) :: t0) (Delete "old").
Proof.
  assert (Delete "old" ∈ filter (λ c, effect c = true) (asked <$> pass.1)) as [_ (e & He & (t1 & t2 & Ht)%list_elem_of_split)%list_elem_of_fmap]%list_elem_of_filter.
  { rewrite (proj1 pass_effects). set_solver. }
  destruct (store_pass_guarded key 1 pass.1 pass.2 (run_with_runs handle 0%nat _) (proj2 (proj2 pass_effects)) t1 e t2 Ht) as (folder & t0 & -> & Hm).
  { by rewrite <- He. }
  exists folder, t0. by rewrite He.
Defined.
End Concrete.
