(* ===== verification/DriveLink.v ===== *)
(** * A pass on the wire ([runtime/crates/kernel/src/drive.rs])

    The operations a pass calls are the functions of the Drive client, so a
    history of requests carries a history of the pass; what the pass may delete
    is what a [DELETE] on the wire names. *)
From S2P Require Import Prelude Crypto Error Text Codes Opaque Trees Storage Persist Async DriveText DriveClient DrivePass DriveFacts.

Section Link.
Context `{Hmac} `{Sha256} `{Base64Url} `{DriveJson}.
Context {VaultState DriveSealed : Type}.
Context (drive_config : Config).

(** The client's calls, and the pass's own. *)
Inductive wire := Client (c : DriveClient.call) | Own (c : DrivePass.call).
Definition wire_ans (c : wire) : Type :=
  match c with
  | Client c => DriveClient.ans (VaultState := VaultState) (DriveSealed := DriveSealed) c
  | Own c => DrivePass.ans c
  end.
Definition client {X} (p : Async.prog DriveClient.ans X) : Async.prog wire_ans X :=
  interp (λ c, Async.call (ans := wire_ans) (Client c)) p.
Definition store_impl (fuel : nat) (c : DrivePass.call) : Async.prog wire_ans (DrivePass.ans c) :=
  match c with
  | Folder name_key => client (drive_folder drive_config fuel name_key)
  | ListFolder folder => client (drive_list drive_config fuel folder)
  | Read id => client (drive_read drive_config id)
  | Create folder name body => client (drive_create drive_config folder name body)
  | Delete id => client (drive_delete drive_config id)
  | c => Async.call (ans := wire_ans) (Own c)
  end.
(** [Kernel::sync_attempt], down to its requests. *)
Definition sync_attempt_wire (fuel : nat) (name_key : bytes) := interp (store_impl fuel) (sync_attempt name_key fuel).

(** ** Which operation sends what *)
Definition sends (m u : string) (c : DriveClient.call) : Prop :=
  match c with Fetch m' u' _ _ => m' = "POST"%string ∨ m' = m ∧ u' = u | _ => True end.
Abbreviation cprog := (Async.prog (DriveClient.ans (VaultState := VaultState) (DriveSealed := DriveSealed))).
Lemma sends_token m u form : all_calls (sends m u) (token_request (VaultState := VaultState) (DriveSealed := DriveSealed) drive_config form).
Proof. split; [by left|]. intros [response|e]; [|done]. cbn. by destruct (success _). Qed.
Lemma sends_refresh m u : all_calls (sends m u) (refresh_tokens (VaultState := VaultState) (DriveSealed := DriveSealed) drive_config).
Proof.
  apply all_calls_bind; [by repeat split|]. intros d. apply all_calls_try; [done|]. intros tk.
  apply all_calls_bind; [apply sends_token|]. intros r. apply all_calls_try; [done|]. intros i. by repeat split.
Qed.
Lemma sends_request m u hs b : all_calls (sends m u) (drive_request (VaultState := VaultState) (DriveSealed := DriveSealed) drive_config m u hs b).
Proof.
  assert (all_calls (sends m u) (authorized (VaultState := VaultState) (DriveSealed := DriveSealed) m u hs b)) as Ha.
  { split; [done|]. intros d. cbn. destruct (tokens d); [|done]. split; [by right|]. done. }
  apply all_calls_bind.
  - split; [done|]. intros d. cbn. destruct (tokens d) as [tk|]; [|done]. by destruct (expires_at_ms tk =? 0).
  - intros s. apply all_calls_try; [destruct s; [apply sends_refresh|done]|]. intros _. apply all_calls_try; [done|]. intros response.
    destruct (negb _); [done|]. apply all_calls_try; [apply sends_refresh|done].
Qed.
(** Everything but a deletion reads or posts. *)
Definition harmless (c : DriveClient.call) : Prop := match c with Fetch m _ _ _ => m = "POST"%string ∨ m = "GET"%string | _ => True end.
Lemma harmless_get u hs b : all_calls harmless (drive_request (VaultState := VaultState) (DriveSealed := DriveSealed) drive_config "GET" u hs b).
Proof. eapply all_calls_mono; [|apply sends_request]. intros []; cbn; tauto. Qed.
Lemma harmless_post u hs b : all_calls harmless (drive_request (VaultState := VaultState) (DriveSealed := DriveSealed) drive_config "POST" u hs b).
Proof. eapply all_calls_mono; [|apply sends_request]. intros []; cbn; tauto. Qed.
Lemma harmless_pages fuel q out page : all_calls harmless (drive_pages (VaultState := VaultState) (DriveSealed := DriveSealed) drive_config fuel q out page).
Proof.
  revert out page. induction fuel as [|fuel IH]; intros out page; [by split|].
  apply all_calls_try; [apply harmless_get|]. intros response. apply all_calls_try; [done|]. intros v. by case_match.
Qed.
Lemma harmless_folder fuel k : all_calls harmless (drive_folder (VaultState := VaultState) (DriveSealed := DriveSealed) drive_config fuel k).
Proof.
  assert (all_calls harmless (resolve_folder (VaultState := VaultState) (DriveSealed := DriveSealed) drive_config fuel k)) as Hr.
  { apply all_calls_try; [apply harmless_pages|]. intros found. apply all_calls_try; [|by repeat split].
    destruct (hd_error found) as [[id name]|]; [done|]. apply all_calls_try; [apply harmless_post|]. intros response. by apply all_calls_try. }
  split; [done|]. intros d. cbn. destruct (DriveText.folder d) as [[k' id]|]; [|done]. by case_bool_decide.
Qed.
Lemma harmless_others fuel (c : DrivePass.call) : match c with Delete _ => False | _ => True end →
  all_calls (λ c, match c with Client c => harmless c | Own _ => True end) (store_impl fuel c).
Proof.
  assert (∀ X (p : cprog X), all_calls harmless p → all_calls (λ c, match c with Client c => harmless c | Own _ => True end) (client p)) as Hc.
  { intros X p Hp. eapply all_calls_interp; [exact Hp|]. by repeat split. }
  destruct c; try done; intros _; apply Hc.
  - apply harmless_folder.
  - apply harmless_pages.
  - apply all_calls_try; [apply harmless_get|]. done.
  - apply all_calls_try; [apply harmless_post|]. intros response. by apply all_calls_try.
Qed.
Lemma sends_delete fuel id : all_calls (λ c, match c with Client c => sends "DELETE" (object_url drive_config id) c | Own _ => True end)
  (store_impl fuel (Delete id)).
Proof.
  eapply all_calls_interp; [|by repeat split]. apply all_calls_try; [apply sends_request|done].
Qed.
Lemma deletes_only fuel c b r hs u body t : runs (store_impl fuel c) b r →
  Ev (ans := wire_ans) (Client (Fetch "DELETE" u hs body)) t ∈ b → ∃ id, c = Delete id ∧ u = object_url drive_config id.
Proof.
  intros Hr Hin. assert (∀ P : wire → Prop, all_calls P (store_impl fuel c) → P (Client (Fetch "DELETE" u hs body))) as Hall.
  { intros P HP. apply (all_calls_runs _ _ _ _ HP) in Hr. rewrite Forall_forall in Hr. exact (Hr _ Hin). }
  destruct (match c with Delete id => Some id | _ => None end) as [id|] eqn:Hc.
  - destruct c; try done. exists id0. split; [done|]. by destruct (Hall _ (sends_delete fuel id0)) as [?|[_ ?]].
  - assert (match c with Delete _ => False | _ => True end) as Hn by by destruct c. by destruct (Hall _ (harmless_others fuel c Hn)).
Qed.

(** ** Single-threaded reads, on the wire *)
Abbreviation wire_history := (list (Async.event wire_ans)).
Definition wire_note (s : option (option bytes)) (e : Async.event wire_ans) : option (option bytes) :=
  match e with
  | Ev (Own NameKey) k => Some k
  | Ev (Own c) _ => if awaits c then None else s
  | Ev (Client (Fetch _ _ _ _)) _ | Ev (Client DriveClient.Checkpoint) _ => None
  | Ev (Client _) _ => s
  end.
Fixpoint wire_steady_from (s : option (option bytes)) (t : wire_history) : bool :=
  match t with
  | [] => true
  | e :: t => match s, e with Some k, Ev (Own NameKey) k' => bool_decide (k = k') | _, _ => true end && wire_steady_from (wire_note s e) t
  end.
Definition wire_steady (t : wire_history) : bool := wire_steady_from None t.
Lemma wire_steady_app s t t' : wire_steady_from s (t ++ t') = wire_steady_from s t && wire_steady_from (foldl wire_note s t) t'.
Proof. revert s. induction t as [|e t IH]; intros s; [done|]. cbn [app wire_steady_from foldl]. by rewrite IH, andb_assoc. Qed.
Definition store_op (c : DrivePass.call) : bool :=
  match c with Folder _ | ListFolder _ | Read _ | Create _ _ _ | Delete _ => true | _ => false end.
Lemma carries_steady fuel t T s s' : carries (store_impl fuel) t T → s' = None ∨ s' = s → wire_steady_from s t = true → steady_from s' T = true.
Proof.
  revert t s s'. induction T as [|[c y] T IH]; intros t s s'; [done|]. cbn [carries]. intros (b & t' & -> & Hb & Ht) Hs.
  rewrite wire_steady_app, andb_true_iff. intros [Hsb Hst]. cbn [steady_from]. apply andb_true_iff.
  destruct (store_op c) eqn:Hop.
  { split; [by destruct c, s'|]. eapply IH; [exact Ht| |exact Hst]. left. by destruct c. }
  assert (b = [Ev (ans := wire_ans) (Own c) y]) as ->.
  { destruct c; try done; by destruct Hb as [[_ ?]|(y' & t'' & -> & -> & [= ->])]. }
  cbn [wire_steady_from foldl] in *. apply andb_true_iff in Hsb as [Hsb _]. split.
  - destruct Hs as [->| ->]; [by destruct c|]. destruct c; try done; by destruct s.
  - eapply IH; [exact Ht| |exact Hst]. destruct Hs as [->| ->]; destruct c; auto.
Qed.

Lemma deletes_at fuel c b1 u hs body a b2 r : runs (store_impl fuel c) (b1 ++ Ev (ans := wire_ans) (Client (Fetch "DELETE" u hs body)) a :: b2) r →
  ∃ id, c = Delete id ∧ u = object_url drive_config id.
Proof. intros Hr. eapply deletes_only; [exact Hr|]. apply elem_of_app. right. left. Qed.

(** C35: Every [DELETE] on the wire names an object the pass may delete at that
    point: this group's own, of a tree retired behind the control barrier. *)
Theorem wire_deletes_retired fuel name_key t r : runs (sync_attempt_wire fuel name_key) t r → wire_steady t = true →
  ∀ t1 u hs body a t2, t = t1 ++ Ev (Client (Fetch "DELETE" u hs body)) a :: t2 →
  ∃ folder id T t0 b, u = object_url drive_config id ∧ t1 = t0 ++ b ∧ carries (store_impl fuel) t0 T ∧ delete_ok name_key folder T id.
Proof.
  intros (T & b1 & b2 & -> & Hc & Hend)%runs_interp Hs t1 u hs body a t2 Ht.
  unfold wire_steady in Hs. rewrite wire_steady_app, andb_true_iff in Hs. destruct Hs as [Hs _].
  assert (steady T = true) as HT by (eapply carries_steady; [exact Hc|by left|exact Hs]).
  assert (∃ r', runs (sync_attempt name_key fuel) T r') as [r' Hr'] by (destruct Hend as [[_ ?]|(_ & ? & _)]; eauto).
  apply app_cons_split in Ht as [[b3 Hb1]|(t1' & -> & Hb2)].
  - destruct (carries_at _ _ _ _ _ _ Hc Hb1) as (T1 & c & y & T2 & t0 & b & b4 & -> & Ht0 & -> & (id & -> & ->)%deletes_at).
    destruct (store_pass_spec name_key fuel _ _ Hr' HT T1 (Ev (Delete id) y) T2 eq_refl I) as (folder & T0 & -> & Hd).
    by exists folder, id, (Ev (Folder name_key) (Ok folder) :: T0), t0, b.
  - destruct Hend as [[-> _]|(_ & _ & c & Hb & Hall)]; [by destruct t1'|]. subst b2.
    apply deletes_at in Hb as (id & -> & ->). destruct (Hall (Ok tt)) as [r2 Hr2].
    destruct (store_pass_spec name_key fuel _ _ Hr2) with (t1 := T) (e := Ev (ans := DrivePass.ans) (Delete id) (Ok tt)) (t2 := @nil (Async.event DrivePass.ans))
      as (folder & T0 & -> & Hd); [|done|done|].
    { unfold steady in *. rewrite steady_from_app, HT. cbn. by destruct (foldl _ _ _). }
    by exists folder, id, (Ev (Folder name_key) (Ok folder) :: T0), b1, t1'.
Qed.
End Link.

(** ** A concrete pass, down to its requests *)
Module Concrete.
Import Crypto.Toy DriveFacts.Concrete.
#[local] Existing Instances mac4.
Inductive value := Text (s : string) | Arr (l : list value) | Obj (l : list (string * value)).
Definition listing : value :=
  Obj [("files", Arr [Obj [("id", Text "old"); ("name", Text (name_of key retired))]])]%string.
#[local] Instance json2 : DriveJson := {|
  json := value; Null := Arr [];
  parse b := Ok (if decide (b = [byte_of 0]) then listing else Obj [("id", Text "new")])%string;
  get v k := match v with Obj l => snd <$> list_find (λ e, e.1 = k) l ≫= λ e, Some e.2 | _ => None end;
  as_str v := match v with Text s => Some s | _ => None end;
  as_array v := match v with Arr l => Some l | _ => None end;
  object_text _ := ""%string; parse_issued _ := Err ""%string;
  item_to_vec item := Ok (si_blob item);
  item_from_slice b := Ok (mkStoreItem opaque (replicate 32 (byte_of 2)) [] b ItemCommit) |}.
Definition config : Config := mkConfig "https://page/" (Some "http://localhost"%string) None.
Definition bound0 : Drive := mkDrive (Some (mkTokens "access" "refresh" "id" "secret" 0)) 0 0 None None None ∅.
Definition serve (m u : string) : HttpResponse :=
  if decide (m = "DELETE"%string) then mkResponse 204 [] [] else
  if decide (m = "POST"%string) then mkResponse 200 [] [byte_of 1] else
  if decide (u = object_url config "old" +:+ "?alt=media") then mkResponse 200 [] [byte_of 5] else mkResponse 200 [] [byte_of 0].
Definition handle_wire (n : nat) (c : wire) : option (wire_ans (VaultState := unit) (DriveSealed := unit) c * nat) :=
  match c as c return option (wire_ans (VaultState := unit) (DriveSealed := unit) c * nat) with
  | Own c => handle n c
  | Client c =>
    match c as c return option (DriveClient.ans (VaultState := unit) (DriveSealed := unit) c * nat) with
    | DriveClient.ReadState => None
    | DriveClient.GetDrive => Some (bound0, n)
    | DriveClient.SetDrive _ => Some (tt, n)
    | DriveClient.Now => Some (7, n)
    | Fill k => Some (replicate k (byte_of 1), n)
    | Fetch m u _ _ => Some (Ok (serve m u), n)
    | DriveClient.Checkpoint => Some (Ok tt, n)
    | DriveClient.Cut => None
    end
  end.
Definition wired := run_with handle_wire 0%nat (sync_attempt_wire config 2 key).
Definition deleted_url (e : Async.event (wire_ans (VaultState := unit) (DriveSealed := unit))) : option string :=
  match e with Ev (Client (Fetch m u _ _)) _ => if decide (m = "DELETE"%string) then Some u else None | _ => None end.
Lemma wired_effects : omap deleted_url wired.1 = [object_url config "old"] ∧ wired.2 = Some (Ok false) ∧ wire_steady wired.1 = true.
Proof. vm_compute. split_and!; reflexivity. Qed.
Lemma deleted_at t u : u ∈ omap deleted_url t → ∃ t1 hs body a t2, t = t1 ++ Ev (ans := wire_ans) (Client (Fetch "DELETE" u hs body)) a :: t2.
Proof.
  intros ([c a] & (t1 & t2 & ->)%list_elem_of_split & He)%list_elem_of_omap.
  destruct c as [[]|]; try done. cbn in He. case_decide as Hm; [|done]. subst method. injection He as ->. by eexists _, _, _, _, _.
Qed.
Lemma wire_deletes_retired_witness : ∃ folder id T, object_url config "old" = object_url config id ∧ delete_ok key folder T id.
Proof.
  destruct (deleted_at wired.1 (object_url config "old")) as (t1 & hs & body & a & t2 & Ht).
  { rewrite (proj1 wired_effects). left. }
  destruct (wire_deletes_retired config 2 key wired.1 wired.2 (run_with_runs handle_wire 0%nat _) (proj2 (proj2 wired_effects)) t1 _ _ _ _ t2 Ht)
    as (folder & id & T & t0 & b & Hu & _ & _ & Hd). exact (ex_intro _ folder (ex_intro _ id (ex_intro _ T (conj Hu Hd)))).
Defined.
End Concrete.
