(* ===== verification/Apps.v ===== *)
(** * The app registry ([runtime/crates/kernel/src/apps.rs])

    What is installed, fetched once from the home origin, and the bundle bytes
    behind it: components fetched once, assets hashed on every fetch. *)
From S2P Require Import Prelude BTree Text Crypto Error Async DriveText.

(** [data_encoding::HEXLOWER], which decodes exactly what it encodes. *)
Class HexLower := {
  hexlower_decode : bytes → option bytes;
  hexlower_hex b : hexlower_decode (hex_bytes b) = Some b;
  hexlower_canonical t b : hexlower_decode t = Some b → t = hex_bytes b;
}.
(** [serde_json::from_slice] at one type, with its reason. *)
Class ReadsJson (T : Type) := { read_json : bytes → result string T }.

Record AppInfo := mkAppInfo { ai_id : string; ai_title : string }.
Record AssetInfo := mkAssetInfo { as_handle : bytes; as_media_type : string }.
Record ComponentArtifacts := mkArtifacts { wasm : bytes; plan : string }.
Record AssetJson := mkAssetJson { j_handle : string; j_path : string; j_media_type : string }.
Record ManifestJson := mkManifestJson { j_id : string; j_title : string; j_component : string; j_plan : string; j_assets : list AssetJson }.
Record Asset := mkAsset { a_handle : bytes; a_path : string; a_media_type : string }.
Record Manifest := mkManifest { m_id : string; m_title : string; m_component : string; m_plan : string; m_assets : list Asset }.
(** [apps] of the registry: in id order, and never changed after the fetch. *)
Abbreviation Registry := (gmap string Manifest).

Definition failed (url reason : string) : Error := Error_new Failed (url +:+ ": " +:+ reason).
Section Apps.
Context {HexI : HexLower} {ShaI : Sha256} {IdsI : ReadsJson (list string)} {ManifestI : ReadsJson ManifestJson}.
(** Exactly a digest's worth of lower-case digits. *)
Definition unhex (text : string) : option bytes :=
  if (String.length text =? 64)%nat then hexlower_decode (as_bytes text) else None.

Definition decode_asset (url : string) (a : AssetJson) : result Error Asset :=
  h ← ok_or (failed url (j_path a +:+ " has a handle that is not a sha256 in hex")) (unhex (j_handle a));
  Ok (mkAsset h (j_path a) (j_media_type a)).
Definition decode (m : ManifestJson) (url : string) : result Error Manifest :=
  l ← mapM (decode_asset url) (j_assets m);
  Ok (mkManifest (j_id m) (j_title m) (j_component m) (j_plan m) l).

(** ** Calls: the fetch seam, and the cell of components *)
Inductive call := Request (url : string) | Cached (app : string) | Keep (app : string) (c : ComponentArtifacts).
Definition ans (c : call) : Type :=
  match c with
  | Request _ => result string HttpResponse
  | Cached _ => option ComponentArtifacts
  | Keep _ _ => unit
  end.
Abbreviation prog := (Async.prog ans).
(** [Fetch::get] *)
Definition get (url : string) : prog (result string bytes) :=
  response ←! Async.call (ans := ans) (Request url);
  Done (if success (status response) then Ok (body response)
        else Err (url +:+ ": the host answered " +:+ pretty (status response))).
Definition get_or_failed (url : string) : prog (result Error bytes) := r ← get url; Done (map_err (failed url) r).

Definition index_url (home : string) : string := home +:+ "/apps/index.json".
Definition manifest_url (home id : string) : string := home +:+ "/apps/" +:+ id +:+ "/manifest.json".
Definition file_url (home app path : string) : string := home +:+ "/apps/" +:+ app +:+ "/" +:+ path.
Definition read_manifest (id url : string) (b : bytes) : result Error Manifest :=
  j ← map_err (λ e, failed url ("not an app manifest: " +:+ e)) (read_json b);
  m ← decode j url;
  if negb (bool_decide (m_id m = id))
  then Err (failed url ("the manifest names itself " +:+ m_id m +:+ " but sits under " +:+ id))
  else Ok m.
Fixpoint fetch_manifests (home : string) (ids : list string) (apps : Registry) : prog (result Error Registry) :=
  match ids with
  | [] => Done (Ok apps)
  | id :: ids =>
    let url := manifest_url home id in
    b ←! get_or_failed url;
    m ←! Done (read_manifest id url b);
    fetch_manifests home ids (<[id:=m]> apps)
  end.
Definition fetch (home : string) : prog (result Error Registry) :=
  let url := index_url home in
  index ←! get_or_failed url;
  ids ←! Done (map_err (λ e, failed url ("not a list of app ids: " +:+ e)) (read_json index));
  fetch_manifests home ids ∅.

(** ** Queries *)
Definition contains (r : Registry) (app : string) : bool := bool_decide (is_Some (r !! app)).
Definition info_of (m : Manifest) : AppInfo := mkAppInfo (m_id m) (m_title m).
Definition installed (r : Registry) : list AppInfo := info_of <$> btree_values r.
Definition info (r : Registry) (app : string) : option AppInfo := info_of <$> r !! app.
Definition manifest (r : Registry) (app : string) : result Error Manifest :=
  ok_or (Error_new UnknownApp ("no app named " +:+ app +:+ " is installed")) (r !! app).
Definition assets (r : Registry) (app : string) : result Error (list AssetInfo) :=
  m ← manifest r app; Ok ((λ a, mkAssetInfo (a_handle a) (a_media_type a)) <$> m_assets m).

Definition component (r : Registry) (home app : string) : prog (result Error ComponentArtifacts) :=
  cached ← Async.call (ans := ans) (Cached app);
  match cached with
  | Some c => Done (Ok c)
  | None =>
    m ←! Done (manifest r app);
    wasm ←! get_or_failed (file_url home app (m_component m));
    plan_bytes ←! get_or_failed (file_url home app (m_plan m));
    plan ←! Done (ok_or (failed (file_url home app (m_plan m)) "the translation envelope is not text") (from_utf8 plan_bytes));
    let artifacts := mkArtifacts wasm plan in
    _ ← Async.call (ans := ans) (Keep app artifacts);
    Done (Ok artifacts)
  end.
Definition no_asset (app : string) : Error := Error_new NotFound (app +:+ " has no asset under that handle").
Definition wrong_hash (path : string) : Error := Error_new Failed (path +:+ " does not hash to the handle the manifest gives it").
Definition asset (r : Registry) (home app : string) (handle : bytes) : prog (result Error bytes) :=
  m ←! Done (manifest r app);
  a ←! Done (ok_or (no_asset app) (hd_error (filter (λ a, a_handle a = handle) (m_assets m))));
  b ←! get_or_failed (file_url home app (a_path a));
  Done (if bool_decide (sha256 b = a_handle a) then Ok b else Err (wrong_hash (a_path a))).

(** ** What is installed *)
Lemma runs_fetched url t b : runs (get_or_failed url) t (Some (Ok b)) →
  ∃ r, t = [Ev (ans := ans) (Request url) (Ok r)] ∧ success (status r) = true ∧ body r = b.
Proof.
  unfold get_or_failed, get. rewrite runs_bind. intros (t1 & t2 & x & -> & Hg & [-> Hx]%runs_Done). destruct x as [b'|]; [|done].
  injection Hx as <-. rewrite runs_try in Hg. destruct Hg as (t3 & t4 & r & -> & ->%(runs_call (ans := ans) (Request url)) & [-> Hb]%runs_Done).
  exists r. destruct (success (status r)); [|done]. by injection Hb as <-.
Qed.
Lemma unhex_length s b : unhex s = Some b → length b = 32%nat.
Proof.
  unfold unhex. destruct (Nat.eqb_spec (String.length s) 64) as [Hs|]; [|done]. intros Hd%hexlower_canonical.
  pose proof (length_string s) as Hl. rewrite Hd, length_hex_bytes in Hl. lia.
Qed.
(** The manifest of [id], as the bytes that came from its own place say. *)
Record installs (home id : string) (m : Manifest) (t : list (Async.event ans)) : Prop := {
  in_fetched : ∃ r j, Ev (ans := ans) (Request (manifest_url home id)) (Ok r) ∈ t ∧ read_json (body r) = Ok j ∧ decode j (manifest_url home id) = Ok m;
  in_named : m_id m = id;
  in_handles : ∀ a, a ∈ m_assets m → length (a_handle a) = 32%nat;
}.
Lemma decode_handles url j m : decode j url = Ok m → ∀ a, a ∈ m_assets m → length (a_handle a) = 32%nat.
Proof.
  intros (l & Hl & [= <-])%bind_Ok a Ha. cbn [m_assets] in Ha. apply mapM_Ok in Hl.
  apply list_elem_of_lookup in Ha as [i Hi]. destruct (Forall2_lookup_r _ _ _ _ _ Hl Hi) as (x & _ & Hx).
  unfold decode_asset in Hx. apply bind_Ok in Hx as (h & Hh%ok_or_Ok & [= <-]). by apply unhex_length in Hh.
Qed.
Lemma runs_fetch_manifests home ids apps t r : runs (fetch_manifests home ids apps) t (Some (Ok r)) →
  (∀ id m, apps !! id = Some m → id ∉ ids → r !! id = Some m) ∧
  ∀ id, id ∈ ids → ∃ m, r !! id = Some m ∧ installs home id m t.
Proof.
  revert apps t. induction ids as [|i ids IH]; intros apps t; cbn [fetch_manifests].
  - intros [_ [= ->]]%runs_Done. split; [done|]. by intros id ?%elem_of_nil.
  - rewrite runs_try. intros (t1 & t2 & b & -> & (resp & -> & _ & <-)%runs_fetched & Hr).
    rewrite runs_try in Hr. destruct Hr as (t3 & t4 & m & -> & [-> [= Hm%symmetry]] & Hr).
    destruct (IH _ _ Hr) as [Hold Hnew]. unfold read_manifest in Hm. apply bind_Ok in Hm as (j & Hj%map_err_Ok & Hm).
    apply bind_Ok in Hm as (m' & Hd & Hm). case_bool_decide as Hid; [|done]. injection Hm as ->.
    split; [intros id m0 H0 [Hne Hni]%not_elem_of_cons; apply Hold; [by rewrite lookup_insert_ne|done]|].
    assert (∀ id m0, installs home id m0 t4 → installs home id m0 ([Ev (ans := ans) (Request (manifest_url home i)) (Ok resp)] ++ [] ++ t4)) as Hmono.
    { intros id m0 [(r0 & j0 & H1 & H2) H3 H4]. split; [|done..]. exists r0, j0. split; [|done]. rewrite !elem_of_app. tauto. }
    intros id Hin. destruct (decide (id ∈ ids)) as [Hin'|Hni].
    { destruct (Hnew id Hin') as (m0 & H0 & H1). exists m0. split; [done|by apply Hmono]. }
    apply elem_of_cons in Hin as [->|?]; [|done]. exists m. split; [apply Hold; [by rewrite lookup_insert_eq|done]|].
    split; [|done|by eapply decode_handles]. exists resp, j. split; [|done]. by left.
Qed.
Lemma runs_fetch_manifests_dom home ids apps t r : runs (fetch_manifests home ids apps) t (Some (Ok r)) → dom r = dom apps ∪ list_to_set ids.
Proof.
  revert apps t. induction ids as [|i ids IH]; intros apps t; cbn [fetch_manifests list_to_set].
  - intros [_ [= ->]]%runs_Done. set_solver.
  - rewrite runs_try. intros (t1 & t2 & b & -> & _ & Hr). rewrite runs_try in Hr. destruct Hr as (t3 & t4 & m & -> & _ & Hr).
    rewrite (IH _ _ Hr), dom_insert_L. set_solver.
Qed.
(** What a fetched registry holds is exactly what the index of the home origin
    lists, each app by the manifest at its own place, which names it and gives
    every asset a 32-byte handle. *)
Theorem registry_from_home home t r : runs (fetch home) t (Some (Ok r)) →
  ∃ response ids, Ev (ans := ans) (Request (index_url home)) (Ok response) ∈ t ∧ read_json (body response) = Ok ids ∧
    dom r = list_to_set ids ∧ ∀ id m, r !! id = Some m → installs home id m t.
Proof.
  unfold fetch. cbv zeta. rewrite runs_try. intros (t1 & t2 & b & -> & (resp & -> & _ & <-)%runs_fetched & Hr).
  rewrite runs_try in Hr. destruct Hr as (t3 & t4 & ids & -> & [-> [= Hids%symmetry]] & Hr). apply map_err_Ok in Hids.
  exists resp, ids. split; [by left|]. split; [done|]. pose proof (runs_fetch_manifests_dom _ _ _ _ _ Hr) as Hd.
  rewrite dom_empty_L, (left_id_L ∅ (∪)) in Hd. split; [done|]. intros id m Hm.
  destruct (proj2 (runs_fetch_manifests _ _ _ _ _ Hr) id) as (m' & Hm' & [(r0 & j0 & H1 & H2) H3 H4]).
  { apply elem_of_dom_2 in Hm. rewrite Hd in Hm. by apply elem_of_list_to_set in Hm. }
  rewrite Hm in Hm'. injection Hm' as <-. split; [|done..]. exists r0, j0. split; [|done]. rewrite !elem_of_app. tauto.
Qed.
(** An asset that is answered hashes to the handle it was asked by, which the
    manifest of its app lists. *)
Theorem asset_authentic r home app handle t b : runs (asset r home app handle) t (Some (Ok b)) →
  sha256 b = handle ∧ ∃ m a, r !! app = Some m ∧ a ∈ m_assets m ∧ a_handle a = handle ∧
    ∃ response, t = [Ev (ans := ans) (Request (file_url home app (a_path a))) (Ok response)] ∧ success (status response) = true ∧ body response = b.
Proof.
  unfold asset. rewrite runs_try. intros (t1 & t2 & m & -> & [-> [= Hm%symmetry]] & Hr). apply ok_or_Ok in Hm.
  rewrite runs_try in Hr. destruct Hr as (t3 & t4 & a & -> & [-> [= Ha%symmetry]] & Hr). apply ok_or_Ok in Ha.
  rewrite runs_try in Hr. destruct Hr as (t5 & t6 & b' & -> & (resp & -> & Hs & Hb)%runs_fetched & [-> Hok]%runs_Done).
  case_bool_decide as Hh; [|done]. injection Hok as ->.
  assert (a ∈ filter (λ a, a_handle a = handle) (m_assets m)) as [Hah Hin]%list_elem_of_filter.
  { destruct (filter _ _); [done|]. injection Ha as ->. left. }
  split; [by rewrite Hh|]. exists m, a. split_and!; [done..|]. exists resp. by split_and!.
Qed.
(** A component is fetched once: what is answered is kept, and what is kept is
    answered without a request. *)
Theorem component_kept r home app t c : runs (component r home app) t (Some (Ok c)) →
  t = [Ev (ans := ans) (Cached app) (Some c)] ∨
  ∃ m w p, r !! app = Some m ∧ t = [Ev (ans := ans) (Cached app) None; Ev (ans := ans) (Request (file_url home app (m_component m))) (Ok w);
      Ev (ans := ans) (Request (file_url home app (m_plan m))) (Ok p); Ev (ans := ans) (Keep app c) tt] ∧
    wasm c = body w ∧ from_utf8 (body p) = Some (plan c).
Proof.
  unfold component. rewrite runs_bind. intros (t1 & t2 & cached & -> & ->%(runs_call (ans := ans) (Cached app)) & Hr).
  destruct cached as [c'|]; [apply runs_Done in Hr as [-> [= ->]]; by left|]. right.
  rewrite runs_try in Hr. destruct Hr as (t3 & t4 & m & -> & [-> [= Hm%symmetry]] & Hr). apply ok_or_Ok in Hm.
  rewrite runs_try in Hr. destruct Hr as (t5 & t6 & w & -> & (wr & -> & _ & <-)%runs_fetched & Hr).
  rewrite runs_try in Hr. destruct Hr as (t7 & t8 & p & -> & (pr & -> & _ & <-)%runs_fetched & Hr).
  rewrite runs_try in Hr. destruct Hr as (t9 & t10 & text & -> & [-> [= Ht%symmetry]] & Hr). apply ok_or_Ok in Ht.
  apply runs_bind in Hr as (t11 & t12 & [] & -> & ->%(runs_call (ans := ans) (Keep _ _)) & [-> [= ->]]).
  exists m, wr, pr. by split_and!.
Qed.
End Apps.

Module Concrete.
Import Crypto.Toy.
#[local] Program Instance hexlower : HexLower := {|
  hexlower_decode t := b ← decode_pairs u8_from_str_radix16 t; if bool_decide (hex_bytes b = t) then Some b else None;
|}.
Next Obligation. intros b. cbn. rewrite decode_pairs_hex by apply u8_from_str_radix16_hex. cbn. by rewrite bool_decide_true. Qed.
Next Obligation. intros t b. cbn. destruct (decode_pairs _ t) as [c|]; [|done]. cbn. case_bool_decide; [|done]. by intros [= ->]. Qed.
Definition page : bytes := as_bytes "body {}".
Definition manifest0 : ManifestJson := mkManifestJson "tasks" "Tasks" "c.wasm" "c.json" [mkAssetJson (hex (fit 32 page)) "tasks.css" "text/css"].
#[local] Instance ids_json : ReadsJson (list string) := {| read_json b := if bool_decide (b = as_bytes "index") then Ok ["tasks"%string] else Err "not a list"%string |}.
#[local] Instance manifest_json : ReadsJson ManifestJson := {| read_json b := if bool_decide (b = as_bytes "manifest") then Ok manifest0 else Err "not a manifest"%string |}.
Definition host (s : unit) (c : call) : option (ans c * unit) :=
  match c as c return option (ans c * unit) with
  | Request url => Some (Ok (mkResponse 200 [] (if bool_decide (url = "h/apps/index.json"%string) then as_bytes "index"
      else if bool_decide (url = "h/apps/tasks/manifest.json"%string) then as_bytes "manifest" else page)), s)
  | Cached _ => Some (None, s)
  | Keep _ _ => Some (tt, s)
  end.
Definition fetching := run_with host tt (fetch "h").
Definition registry0 : Registry := match fetching.2 with Some (Ok r) => r | _ => ∅ end.
Lemma fetched : fetching.2 = Some (Ok registry0).
Proof. vm_compute. reflexivity. Qed.
Definition serving := run_with host tt (asset registry0 "h" "tasks" (fit 32 page)).
Definition launching := run_with host tt (component registry0 "h" "tasks").
Lemma registry_from_home_witness : ∃ ids : list string, dom registry0 = list_to_set ids ∧ ∃ m, registry0 !! "tasks"%string = Some m ∧ m_id m = "tasks"%string.
Proof.
  pose proof (run_with_runs host tt (fetch "h")) as Hr. change (runs (fetch "h") fetching.1 fetching.2) in Hr. rewrite fetched in Hr.
  destruct (registry_from_home "h" fetching.1 registry0 Hr) as (resp & ids & _ & _ & Hd & Hi). exists ids. split; [exact Hd|].
  assert (is_Some (registry0 !! "tasks"%string)) as [m Hm] by (vm_compute; by eexists). exists m. split; [exact Hm|]. apply (Hi _ _ Hm).
Defined.
Lemma asset_authentic_witness : sha256 page = fit 32 page ∧ serving.2 = Some (Ok page).
Proof.
  assert (serving.2 = Some (Ok page)) as He by (vm_compute; reflexivity). split; [|exact He].
  assert (runs (asset registry0 "h" "tasks" (fit 32 page)) serving.1 serving.2) as Hr by exact (run_with_runs host tt _).
  rewrite He in Hr. exact (proj1 (asset_authentic registry0 "h" "tasks" (fit 32 page) serving.1 page Hr)).
Defined.
Lemma component_kept_witness : ∃ m, registry0 !! "tasks"%string = Some m.
Proof.
  assert (launching.2 = Some (Ok (mkArtifacts page (str_of page)))) as He by (vm_compute; reflexivity).
  assert (runs (component registry0 "h" "tasks") launching.1 launching.2) as Hr by exact (run_with_runs host tt _).
  rewrite He in Hr. destruct (component_kept registry0 "h" "tasks" launching.1 _ Hr) as [Hc|(m & w & p & Hm & _)]; [|by exists m].
  exfalso. apply (f_equal length) in Hc. vm_compute in Hc. discriminate Hc.
Defined.
End Concrete.
