(* ===== verification/Events.v ===== *)
(** * The outbound event queue ([runtime/crates/kernel/src/events.rs])

    A queue and one waker: what lets an event born of network activity alone
    reach a visor with no call made on this device. *)
From S2P Require Import Prelude.

Section Events.
Context {Phase Status : Type}.
Inductive Event :=
| SessionEnded (session : Z) (reason : string)
| PairingChanged (phase : Phase)
| PersonalizationChanged
| ContactsChanged
| MeetingChanged (status : Status)
| SharingChanged.
(** A waker is the task it wakes. *)
Context {Waker : Type}.
Record Inner := mkInner { queue : list Event; waker : option Waker }.
Definition Events_default : Inner := mkInner [] None.
(** The waker is taken with the cell, and woken after it is released. *)
Definition push (e : Event) (s : Inner) : Inner * option Waker := (mkInner (queue s ++ [e]) None, waker s).
(** One poll of [next]: an event, or [None] with the waker left behind. *)
Definition poll_next (w : Waker) (s : Inner) : Inner * option Event :=
  match queue s with
  | e :: q => (mkInner q (waker s), Some e)
  | [] => (mkInner [] (Some w), None)
  end.
End Events.
Arguments Event : clear implicits.
Arguments Inner : clear implicits.

(** ** One pump over the queue

    The worker glue polls [next] again as soon as it answered, and when its
    waker is woken; anyone may push at any time. *)
Section Pump.
Context {Phase Status : Type}.
Abbreviation Event := (Event Phase Status).
Record sys := mkSys {
  cell : Inner Phase Status unit;
  parked : bool;
  pushed : list Event;
  delivered : list Event;
}.
Definition init : sys := mkSys Events_default false [] [].
Definition push_step (e : Event) (s : sys) : sys :=
  let '(c, w) := push e (cell s) in
  mkSys c (match w with Some _ => false | None => parked s end) (pushed s ++ [e]) (delivered s).
Definition poll_step (s : sys) : sys :=
  match poll_next tt (cell s) with
  | (c, Some e) => mkSys c false (pushed s) (delivered s ++ [e])
  | (c, None) => mkSys c true (pushed s) (delivered s)
  end.
Inductive step : sys → sys → Prop :=
| Pushed e s : step s (push_step e s)
| Polled s : parked s = false → step s (poll_step s).
Inductive reachable : sys → Prop :=
| Begin : reachable init
| Next s s' : reachable s → step s s' → reachable s'.

Record pump_ok (s : sys) : Prop := {
  po_order : pushed s = delivered s ++ queue (cell s);
  po_waker : parked s = true ↔ waker (cell s) = Some tt;
  po_parked : parked s = true → queue (cell s) = [];
}.
Lemma step_ok s s' : pump_ok s → step s s' → pump_ok s'.
Proof.
  intros Hok Hs. destruct Hs as [e s0|s0 Hready]; destruct s0 as [[q w] pk pu de], Hok as [Ho Hw Hp]; cbn in *; subst pu.
  - unfold push_step. cbn. split; cbn; [by rewrite app_assoc| |].
    + split; [|done]. destruct w as [[]|]; [done|]. intros ->. by pose proof (proj1 Hw eq_refl).
    + destruct w as [[]|]; [done|]. intros ->. by pose proof (proj1 Hw eq_refl).
  - subst pk. unfold poll_step. cbn. destruct q as [|e q]; cbn.
    + by split; cbn.
    + split; cbn; [by rewrite <- app_assoc| |done]. split; [done|]. intros ->. by pose proof (proj2 Hw eq_refl).
Qed.
Lemma reachable_ok s : reachable s → pump_ok s.
Proof. induction 1 as [|s s' _ IH Hs]; [by split|by eapply step_ok]. Qed.
(** Polling until it parks. *)
Fixpoint drain (n : nat) (s : sys) : sys := match n with O => s | S n => drain n (poll_step s) end.
Lemma drains q s : queue (cell s) = q → pushed s = delivered s ++ q → parked s = false →
  delivered (drain (length q) s) = pushed s ∧ pushed (drain (length q) s) = pushed s ∧ queue (cell (drain (length q) s)) = [].
Proof.
  revert s. induction q as [|e q IH]; intros [[q' w] pk pu de]; cbn; intros Hq Hp Hk; subst q' pk.
  { by rewrite app_nil_r in Hp. }
  apply (IH (mkSys (mkInner q w) false pu (de ++ [e]))); cbn; [done| |done]. by rewrite Hp, <- app_assoc.
Qed.
(** No event is lost, doubled or reordered, and no wake-up is missed: whatever is
    pushed and whenever it is polled, what was delivered followed by what waits is
    what was pushed; a parked pump has nothing waiting, and any other pump that is
    polled as often as there are events waiting has delivered everything. *)
Theorem pump_misses_nothing s : reachable s →
  pushed s = delivered s ++ queue (cell s) ∧
  (parked s = true → queue (cell s) = []) ∧
  (parked s = false → delivered (drain (length (queue (cell s))) s) = pushed s) ∧
  (∀ e, parked (push_step e s) = false).
Proof.
  intros Hs%reachable_ok. destruct Hs as [Ho Hw Hp]. split_and!; [done..| |].
  - intros Hk. by apply drains.
  - intros e. unfold push_step. cbn. destruct (waker (cell s)) as [[]|]; [done|]. destruct (parked s); [|done]. by pose proof (proj1 Hw eq_refl).
Qed.
End Pump.
Arguments sys : clear implicits.

Module Concrete.
Definition ran : sys unit unit := poll_step (push_step ContactsChanged (poll_step (push_step SharingChanged init))).
Lemma ran_reachable : reachable ran.
Proof. repeat first [apply Begin | eapply Next; [|by constructor]]. Qed.
Lemma pump_misses_nothing_witness : delivered ran = [SharingChanged; ContactsChanged] ∧ pushed ran = delivered ran.
Proof.
  split; [reflexivity|]. destruct (pump_misses_nothing ran ran_reachable) as [H _]. rewrite H. reflexivity.
Defined.
End Concrete.
