(* ===== verification/Calls.v ===== *)
(** * What the kernel's longer operations call

    The calls of [Identity] among those the contacts book, document sharing and
    the peers make: documents of the engine, its group authority and grants, the
    clock, the checkpoint and the network.  [document_read] and
    [document_mutate] of the engine are read here as the transaction they are:
    the document is taken, the change runs, and the document is put back with
    what it published, also when the change was refused halfway. *)
From S2P Require Import Prelude Crypto Error Storage Persist ContactsWire Contacts Automerge History Async Identity.

(** [DocumentAccess], [SharedDocument] and [DocumentGrant] of the engine. *)
Inductive DocumentAccess := AccessRead | AccessEdit.
#[export] Instance DocumentAccess_eq_dec : EqDecision DocumentAccess.
Proof. solve_decision. Defined.
Record DocumentGrant := mkGrant {
  g_partition : string;
  g_document : bytes;
  g_recipient_group : bytes;
  g_access : DocumentAccess;
  g_authority : bytes;
  g_frontier : bytes;
}.

Section Calls.
Context {A : Type} {VaultState DriveSealed : Type}.

Inductive call :=
| Base (c : Identity.call)
(* the engine's documents: read, taken by a mutation, put back by it *)
| ReadDocument (app : string)
| BeginDocument (app : string)
| WriteDocument (app : string) (d : Document A)
(* its group *)
| MembershipProof
| VerifyMembership (proof group device : bytes)
(* shared documents *)
| GrantDocument (partition : string) (group device proof : bytes) (access : DocumentAccess)
| ValidateGrant (g : DocumentGrant) (sender_group sender_device : bytes)
| AdoptDocument (g : DocumentGrant) (sender_group sender_device : bytes)
| InlineItems (partition : string) (budget : Z)
| ImportInline (partition : string) (items : list StoreItem)
(* the kernel's cells and seams *)
| PersistEngine
| MeetingGeneration
| Now
| FillBytes (n : nat)
| GeneratePetname
| LockSharing
| UnlockSharing
| PushSharingChanged
(* the sharing connection, and the task an adoption leaves behind *)
| HasEndpoint
| Dial (endpoint : string)
| SendFrame (frame : bytes)
| RecvFrame
| CloseConnection
| SpawnHint (device : bytes)
(* the sessions, the device's fields and the registry *)
| SessionApp (session : Z)
| SessionDocument (session : Z)
| AppMeta (app : string)
| RegistryContains (app : string).
(** Network calls race a timer: [None] is the timer. *)
Definition ans (c : call) : Type :=
  match c with
  | Base c => Identity.ans (VaultState := VaultState) (DriveSealed := DriveSealed) c
  | ReadDocument _ | BeginDocument _ => result string (Document A)
  | WriteDocument _ _ => result string unit
  | MembershipProof => result string bytes
  | VerifyMembership _ _ _ => result string unit
  | GrantDocument _ _ _ _ _ => result string DocumentGrant
  | ValidateGrant _ _ _ | AdoptDocument _ _ _ => result string unit
  | InlineItems _ _ => result string (option (list StoreItem))
  | ImportInline _ _ => result string bool
  | PersistEngine => result Error unit
  | MeetingGeneration | Now => Z
  | FillBytes _ => bytes
  | GeneratePetname => string
  | LockSharing | UnlockSharing | PushSharingChanged => unit
  | HasEndpoint => bool
  | Dial _ => option (result string bytes)
  | SendFrame _ => option (result string unit)
  | RecvFrame => option (option bytes)
  | CloseConnection | SpawnHint _ => unit
  | SessionApp _ => result Error string
  | SessionDocument _ => option string
  | AppMeta _ => result Error (gmap string string)
  | RegistryContains _ => bool
  end.
Abbreviation prog := (Async.prog ans).
Abbreviation history := (list (Async.event ans)).

(** The operations of [Identity], as they are. *)
Definition base_call (c : Identity.call) : prog (Identity.ans (VaultState := VaultState) (DriveSealed := DriveSealed) c) :=
  Async.call (ans := ans) (Base c).
Definition place (e : Async.event (Identity.ans (VaultState := VaultState) (DriveSealed := DriveSealed))) : Async.event ans :=
  match e with Ev c y => Ev (ans := ans) (Base c) y end.
Definition base {X} (p : Async.prog (Identity.ans (VaultState := VaultState) (DriveSealed := DriveSealed)) X) : prog X :=
  interp base_call p.
Lemma base_one_call c b y : runs (base_call c) b (Some y) ↔ b = [place (Ev c y)].
Proof. exact (runs_call (ans := ans) (Base c) b y). Qed.
Lemma runs_base {X} (p : Async.prog (Identity.ans (VaultState := VaultState) (DriveSealed := DriveSealed)) X) t x :
  runs (base p) t (Some x) → ∃ T, t = place <$> T ∧ runs p T (Some x).
Proof. apply (runs_embed base_call place), base_one_call. Qed.
Lemma base_calls {X} (P : call → Prop) (Q : Identity.call → Prop) (p : Async.prog (Identity.ans (VaultState := VaultState) (DriveSealed := DriveSealed)) X) :
  all_calls Q p → (∀ c, Q c → P (Base c)) → all_calls P (base p).
Proof. intros Hp HQ. eapply all_calls_interp; [exact Hp|]. intros c Hc. split; [by apply HQ|done]. Qed.

(** ** Documents *)
(** [Engine::document_read] *)
Definition document_read {X} (app : string) (read : Document A → X) : prog (result string X) :=
  d ←! Async.call (ans := ans) (ReadDocument app); Done (Ok (read d)).
(** [Engine::document_mutate]: what the change has authored is published even
    when it ends in a refusal; only then its answer comes back. *)
Definition document_mutate {X} (app : string) (change : Document A → prog (Document A * result string X)) : prog (result string X) :=
  d ←! Async.call (ans := ans) (BeginDocument app);
  r ← change d;
  _ ←! Async.call (ans := ans) (WriteDocument app r.1);
  Done r.2.

Definition identity_context : prog IdentityContext := base Identity.identity_context.
Definition identity_context_is (c : IdentityContext) : prog bool := base (Identity.identity_context_is c).
Definition engine : prog (result Error bytes) := base Identity.engine.
Definition engine_call {X} (p : prog (result string X)) : prog (result Error X) := r ← p; Done (map_err engine_failed r).
(** A change that holds the identity it started under. *)
Definition within {X} (context : IdentityContext) (why : string) (change : Document A → prog (Document A * result string X)) (d : Document A) :
    prog (Document A * result string X) :=
  same ← identity_context_is context;
  if same : bool then change d else Done (d, Err why).
End Calls.
Arguments call : clear implicits.
