(* ===== verification/Book.v ===== *)
(** * The contacts book ([runtime/crates/kernel/src/contacts.rs])

    The kernel's operations on the contacts document: what is read and checked
    before a change, the identity the change is held to, and what an
    introduction shows before anything of it is kept. *)
From S2P Require Import Prelude BTree Crypto Error Persist ContactsWire Registers Contacts Automerge History Async Identity Calls.

Definition CONTACTS_APP : string := "polyvisor:contacts".

(** [selections] of an import: which reviewed party, and which of its claims. *)
Record Selection := mkSelection { sel_index : Z; sel_claims : list (string * string) }.
Record AuthenticatedIdentityReview := mkIdentityReview {
  ir_root : bytes;
  ir_group : bytes;
  ir_profiles : list (list Claim);
}.
Record SignedIntroductionReview := mkSignedReview {
  sr_identities : list AuthenticatedIdentityReview;
  sr_parties : list Party;
  sr_issued_at : ClaimedTime;
}.
#[export] Instance Claim_eq_dec : EqDecision Claim.
Proof. solve_decision. Defined.
#[export] Instance SelfProfile_eq_dec : EqDecision SelfProfile.
Proof. solve_decision. Defined.
#[export] Instance AuthenticatedIdentity_eq_dec : EqDecision AuthenticatedIdentity.
Proof. solve_decision. Defined.

Definition optional_key (b : bytes) : result Error (option bytes) :=
  if bool_decide (b = []) then Ok None
  else match try_array 32 b with
       | Some k => Ok (Some k)
       | None => Err (refused "a contact public key must be 32 bytes")
       end.
(** [i64::try_from] and [as u32] of a [u64]. *)
Definition claimed_time (now_ms : Z) : result Error ClaimedTime :=
  s ← ok_or (Error_new Failed "the system clock is out of range") (in_bounds (- 2 ^ 63) (2 ^ 63 - 1) (now_ms / 1000));
  Ok (mkTime s ((now_ms mod 1000 * 1000000) mod 2 ^ 32)).

Section Book.
Context {EdI : Ed25519} {SigI : Signatures} {ShaI : Sha256} {B64I : Base64Url}.
Context {MsgS : Message Proto.Signed} {MsgB : Message Proto.RootBinding} {MsgP : Message Proto.Profile}
  {MsgA : Message Proto.AuthenticatedIdentity} {MsgI : Message Proto.Introduction}.
Context {A Oid C : Type} {AM : Automerge A Oid} {CG : ChangeGraph A C}.
Context {VaultState DriveSealed : Type}.
(** [serde_json]'s reader of an unsigned list of contacts. *)
Context (from_slice : bytes → option (list (option string * list Claim))).
Abbreviation ans := (Calls.ans (A := A) (VaultState := VaultState) (DriveSealed := DriveSealed)).
Abbreviation prog := (Async.prog ans).
Abbreviation Document := (Document A).
Abbreviation op := (Registers.op (A := A)).
Abbreviation call c := (Async.call (ans := ans) c).

Definition identity_open : prog (result Error unit) := base Identity.identity_open.
Definition contacts_profile : prog (result Error SelfProfile) := base Identity.contacts_profile.

(** ** Reading *)
Definition contacts_items : prog (result Error (list Contact)) :=
  _ ←! identity_open;
  _ ←! engine;
  engine_call (document_read CONTACTS_APP contacts).
Definition no_contact : Error := Error_new NotFound "no such contact".
Definition contacts_get (id : string) : prog (result Error Contact) :=
  _ ←! identity_open;
  _ ←! engine;
  found ←! engine_call (document_read CONTACTS_APP (λ d, contact d id));
  Done (ok_or no_contact found).
Definition contacts_meetings : prog (result Error (list MeetingRecord)) :=
  _ ←! identity_open;
  _ ←! engine;
  engine_call (document_read CONTACTS_APP meetings).

(** ** Changing *)
Definition contacts_changed : prog (result Error unit) :=
  _ ←! call PersistEngine;
  _ ← call (Base PushContactsChanged);
  Done (Ok ()).
Definition stale_identity : string := "the user identity changed during a contacts update".
Definition contacts_mutate_in {X} (context : IdentityContext) (change : Document → prog (Document * result string X)) :
    prog (result Error X) :=
  _ ←! engine;
  r ← document_mutate CONTACTS_APP (within context stale_identity change);
  x ←! Done (map_err refused r);
  _ ←! contacts_changed;
  Done (Ok x).
Definition contacts_mutate {X} (change : op X) : prog (result Error X) :=
  _ ←! identity_open;
  context ← identity_context;
  contacts_mutate_in context (λ d, Done (change d)).
Definition fresh_contacts_entropy : prog bytes := call (Base Fill32).

Definition profile_changed : Error := refused "the self-profile changed; review every current variant again".
Definition contacts_resolve_profile (observed_variants : list bytes) (l : list Claim) : prog (result Error SelfProfile) :=
  _ ←! identity_open;
  context ← identity_context;
  current ←! contacts_profile;
  _ ←! Done (if bool_decide (merge_sort key_le (variants current) = merge_sort key_le observed_variants)
             then Ok () else Err profile_changed);
  root ←! base require_root_seed;
  _ ←! contacts_mutate_in context (λ d, Done (let r := resolve_self_profile root (variants current) l d in
                                                  (r.1, _ ← r.2; Ok ())));
  contacts_profile.
Definition contacts_create (public_key : bytes) (petname glyph : string) : prog (result Error string) :=
  _ ←! identity_open;
  petname ← (if nonempty petname then Done petname else call GeneratePetname);
  key ←! Done (optional_key public_key);
  entropy ← fresh_contacts_entropy;
  contacts_mutate (create_contact key petname glyph entropy).
Definition contacts_set_label (id petname glyph : string) : prog (result Error unit) :=
  contacts_mutate (set_label id petname glyph).
Definition contacts_set_observation (id name value : string) : prog (result Error unit) :=
  received ← call Now;
  entropy ← fresh_contacts_entropy;
  contacts_mutate (
    meeting ← create_meeting "entered by hand" EmptyString None received false entropy;
    write_observation id (mkObservation name value Local None None received meeting)).
Definition contacts_remove_observation (id name value : string) : prog (result Error unit) :=
  contacts_mutate (remove_observation id name value).
Definition contacts_set_preferred (id name : string) (value : option string) : prog (result Error unit) :=
  contacts_mutate (set_preferred id name value).
Definition contacts_delete (id : string) : prog (result Error unit) := contacts_mutate (delete_contact id).
Definition contacts_merge (keyless into : string) : prog (result Error unit) := contacts_mutate (merge_contacts keyless into).

(** ** Unsigned imports *)
Definition contacts_import_preview (b : bytes) : prog (result Error (list ReviewParty)) :=
  _ ←! identity_open;
  Done (map_err refused (parse_unsigned_import from_slice b)).
Section ImportUnsigned.
Context (review : list ReviewParty) (received : Z) (entropy : bytes) (meeting : string).
Fixpoint import_claims (id : string) (l : list (string * string)) : op unit :=
  match l with
  | [] => mret ()
  | (name, value) :: l =>
    _ ← write_observation id (mkObservation name value Imported None None received meeting);
    import_claims id l
  end.
Definition shown (party : ReviewParty) (p : string * string) : bool :=
  existsb (λ c, bool_decide (ContactsWire.name c = p.1) && bool_decide (ContactsWire.value c = p.2)) (review_claims party).
(** [per_contact[..4]] *)
Definition per_contact (index : Z) : bytes := le_bytes 4 (index + 1) ++ drop 4 entropy.
Fixpoint import_selections (l : list Selection) : op (list string) :=
  match l with
  | [] => mret []
  | s :: l =>
    party ← Registers.lift (ok_or "an import selection names no reviewed party"%string
      (hd_error (filter (λ p, review_index p = sel_index s) review)));
    if negb (forallb (shown party) (sel_claims s)) then Registers.fail "a selected claim was not in the preview" else
    id ← create_contact (review_key party) EmptyString EmptyString (per_contact (sel_index s));
    _ ← import_claims id (sel_claims s);
    ids ← import_selections l;
    mret (id :: ids)
  end.
End ImportUnsigned.
Definition contacts_import_unsigned (b : bytes) (source : string) (selections : list Selection) : prog (result Error (list string)) :=
  _ ←! identity_open;
  review ←! Done (map_err refused (parse_unsigned_import from_slice b));
  received ← call Now;
  entropy ← fresh_contacts_entropy;
  contacts_mutate (
    meeting ← create_meeting "imported from a file" source None received false entropy;
    import_selections review received entropy meeting selections).

(** ** Introductions *)
Definition displayed_changed : Error := refused "the displayed self identity changed before sharing".
Definition forwarded (l : list Contact) (id : string) : result Error AuthenticatedIdentity :=
  r ← ok_or (refused "a selected contact has no authenticated identity to forward")
        (c ← hd_error (filter (λ c, contact_id c = id) l); retained_identity c);
  a ← ok_or (refused "a selected contact has no retained authority proof") (hd_error (authorities r));
  Ok (mkIdentity (retained_binding r) (retained_profiles r) a.1 a.2).
Definition contacts_share (expected_root : bytes) (expected_profiles : list bytes) (forwarded_contact_ids : list string)
    (expected_forwarded : list AuthenticatedIdentity) (ps : list Party) : prog (result Error bytes) :=
  _ ←! identity_open;
  context ← identity_context;
  profile ←! contacts_profile;
  _ ←! Done (if bool_decide (self_root profile = expected_root) &&
                bool_decide (merge_sort key_le (variants profile) = merge_sort key_le expected_profiles)
             then Ok () else Err displayed_changed);
  key ←! engine;
  proof ←! engine_call (call MembershipProof);
  l ←! contacts_items;
  identities ←! Done (mapM (forwarded l) forwarded_contact_ids);
  _ ←! Done (if bool_decide (identities = expected_forwarded) then Ok ()
             else Err (refused "a displayed forwarded identity changed before sharing"));
  now_profile ←! contacts_profile;
  _ ←! Done (if bool_decide (now_profile = profile) then Ok () else Err displayed_changed);
  s ← call (Base ReadState);
  same ← identity_context_is context;
  if negb same then Done (Err identity_changed) else
  now ← call Now;
  at_ ←! Done (claimed_time now);
  Done (map_err refused (sign_introduction
    (mkIntroduction (mkIdentity (self_binding profile) (variants profile) key proof) key identities ps at_) (seed s))).

(** The engine's judgement of each authority proof, in turn. *)
Fixpoint verify_requests (l : list AuthorityRequest) : prog (result string unit) :=
  match l with
  | [] => Done (Ok ())
  | r :: l =>
    _ ←! call (VerifyMembership (request_proof r) (request_group r) (request_device r));
    verify_requests l
  end.
Definition contacts_validate_introduction (b : bytes) : prog (result Error Introduction) :=
  _ ←! identity_open;
  context ← identity_context;
  pending ←! Done (map_err refused (verify_introduction b));
  _ ←! engine;
  r ← verify_requests (requests pending);
  _ ←! Done (map_err refused r);
  same ← identity_context_is context;
  if negb same then Done (Err identity_changed) else
  Done (Ok (introduction pending)).
Definition contacts_validate_meeting_introduction (b : bytes) : prog (result Error Introduction) :=
  v ←! contacts_validate_introduction b;
  Done (if bool_decide (authenticated_identities v = []) && bool_decide (parties v = []) then Ok v
        else Err (refused "a meeting card must contain only its issuer identity")).
Definition review_identity (i : AuthenticatedIdentity) : result string AuthenticatedIdentityReview :=
  b ← verify_root_binding (binding i);
  ps ← mapM (λ p, r ← verify_profile p; Ok (claims r)) (profiles i);
  Ok (mkIdentityReview (root b) (group b) ps).
Definition contacts_signed_preview (b : bytes) : prog (result Error SignedIntroductionReview) :=
  _ ←! identity_open;
  v ←! contacts_validate_introduction b;
  identities ←! Done (map_err refused (mapM review_identity (all_identities v)));
  Done (Ok (mkSignedReview identities (parties v) (issued_at v))).

Definition replaced : string := "that meeting was replaced".
Definition meeting_is_generation (generation : Z) : prog bool :=
  g ← call MeetingGeneration; Done (bool_decide (g = generation)).
Definition keep_issuer (v : Introduction) (issuer entropy : bytes) (received : Z) : op string := λ d,
  match select v [issuer] [] with
  | Ok selected => persist_verified_introduction selected EmptyString EmptyString entropy received d
  | Err why => (d, Err why)
  end.
Definition contacts_accept_meeting (generation : Z) (v : Introduction) : prog (result Error string) :=
  _ ←! identity_open;
  context ← identity_context;
  issuer ←! Done (map_err refused (b ← verify_root_binding (binding (intro_issuer v)); Ok (root b)));
  mine ← meeting_is_generation generation;
  if negb mine then Done (Err (refused replaced)) else
  received ← call Now;
  entropy ← fresh_contacts_entropy;
  contacts_mutate_in context (λ d,
    mine ← meeting_is_generation generation;
    Done (if negb mine then (d, Err replaced) else keep_issuer v issuer entropy received d)).
Definition contacts_import_accept (b : bytes) (selected_roots : list bytes) (selected_parties : list nat)
    (petname glyph : string) : prog (result Error string) :=
  _ ←! identity_open;
  context ← identity_context;
  v ←! contacts_validate_introduction b;
  same ← identity_context_is context;
  if negb same then Done (Err identity_changed) else
  selected ←! Done (map_err refused (select v selected_roots selected_parties));
  entropy ← fresh_contacts_entropy;
  received ← call Now;
  contacts_mutate_in context (λ d, Done (persist_verified_introduction selected petname glyph entropy received d)).
Definition contacts_decode_link (body : string) : prog (result Error bytes) :=
  _ ←! identity_open;
  Done (if 2 * MAX_SIGNED_BYTES <? Z.of_nat (String.length body) then Err (refused "that contact link is too large")
        else ok_or (refused "that contact link is not valid base64url") (b64_decode (as_bytes body))).
End Book.
