(* ===== verification/BookFacts.v ===== *)
(** * What the contacts book may keep and show

    Over every history: a change is written only under the identity it began
    with and announced only once it is on disk; what an import or a meeting
    keeps of an introduction was verified first, each authority proof by the
    engine; and what is signed for others is what was displayed. *)
From S2P Require Import Prelude BTree Crypto Error Storage Persist ContactsWire Registers Contacts Automerge History Async ContactsFacts Identity Custody Calls Book.

Lemma claimed_time_nanos now at_ : claimed_time now = Ok at_ → 0 <= nanos at_.
Proof. unfold claimed_time. intros (s & _ & [= <-])%bind_Ok. apply Z.mod_pos_bound. lia. Qed.

Section Facts.
Context {EdI : Ed25519} {SigI : Signatures} {ShaI : Sha256}.
Context {MsgS : Message Proto.Signed} {MsgB : Message Proto.RootBinding} {MsgP : Message Proto.Profile}
  {MsgA : Message Proto.AuthenticatedIdentity} {MsgI : Message Proto.Introduction}.
Context {A Oid C : Type} {AM : Automerge A Oid} {CG : ChangeGraph A C}.
Context {VaultState DriveSealed : Type}.
Abbreviation ans := (Calls.ans (A := A) (VaultState := VaultState) (DriveSealed := DriveSealed)).
Abbreviation prog := (Async.prog ans).
Abbreviation history := (list (Async.event ans)).
Abbreviation E := (@Ev _ ans).
Abbreviation Document := (Document A).
Implicit Types (h t u : history).

(** ** The parts that change nothing *)
Definition quiet (c : Calls.call A) : Prop :=
  match c with
  | Base c => Custody.quiet c
  | WriteDocument _ _ | GrantDocument _ _ _ _ _ | AdoptDocument _ _ _ | ImportInline _ _ | SendFrame _ | PushSharingChanged | SpawnHint _ => False
  | _ => True
  end.
Lemma quiet_base {X} (p : Async.prog (Identity.ans (VaultState := VaultState) (DriveSealed := DriveSealed)) X) :
  all_calls Custody.quiet p → all_calls quiet (base (A := A) p).
Proof. intros Hp. by apply (base_calls quiet Custody.quiet). Qed.
Lemma quiet_asked_engine {X} (p : prog (result string X)) : all_calls quiet p → all_calls quiet (Calls.engine_call p).
Proof. intros Hp. by apply all_calls_bind. Qed.
Lemma runs_asked_engine {X} (p : prog (result string X)) t x : runs (Calls.engine_call p) t (Some (Ok x)) → runs p t (Some (Ok x)).
Proof.
  unfold Calls.engine_call. rewrite runs_bind. intros (t1 & t2 & [y|] & -> & Hp & [-> Hx]%runs_Done); [|done].
  injection Hx as ->. by rewrite app_nil_r.
Qed.
Lemma quiet_identity_open : all_calls quiet (identity_open (A := A) (VaultState := VaultState) (DriveSealed := DriveSealed)).
Proof. by apply quiet_base. Qed.
Lemma quiet_engine : all_calls quiet (Calls.engine (A := A) (VaultState := VaultState) (DriveSealed := DriveSealed)).
Proof. by apply quiet_base. Qed.
Lemma quiet_profile : all_calls quiet (contacts_profile (A := A) (VaultState := VaultState) (DriveSealed := DriveSealed)).
Proof. apply quiet_base, quiet_contacts_profile. Qed.
Lemma quiet_read {X} app (read : Document → X) : all_calls quiet (document_read (VaultState := VaultState) (DriveSealed := DriveSealed) app read).
Proof. apply all_calls_try; [by repeat split|done]. Qed.
Lemma quiet_items : all_calls quiet (contacts_items (A := A) (Oid := Oid) (VaultState := VaultState) (DriveSealed := DriveSealed)).
Proof.
  apply all_calls_try; [apply quiet_identity_open|]. intros _. apply all_calls_try; [apply quiet_engine|]. intros _.
  apply quiet_asked_engine, quiet_read.
Qed.
Lemma quiet_get id : all_calls quiet (contacts_get (A := A) (VaultState := VaultState) (DriveSealed := DriveSealed) id).
Proof.
  apply all_calls_try; [apply quiet_identity_open|]. intros _. apply all_calls_try; [apply quiet_engine|]. intros _.
  apply all_calls_try; [apply quiet_asked_engine, quiet_read|done].
Qed.
Lemma runs_get id t c : runs (contacts_get id) t (Some (Ok c)) → ∃ d, E (ReadDocument CONTACTS_APP) (Ok d) ∈ t ∧ contact d id = Some c.
Proof.
  unfold contacts_get. rewrite runs_try. intros (t1 & t2 & [] & -> & _ & Hr). rewrite runs_try in Hr. destruct Hr as (t3 & t4 & k & -> & _ & Hr).
  rewrite runs_try in Hr. destruct Hr as (t5 & t6 & found & -> & Hf%runs_asked_engine & [-> Hc%ok_or_Ok]%runs_Done).
  unfold document_read in Hf. rewrite runs_try in Hf. destruct Hf as (t7 & t8 & d & -> & ->%(runs_call (ans := ans) (ReadDocument _)) & [-> [= <-]]%runs_Done).
  exists d. split; [|done]. rewrite !elem_of_app, list_elem_of_singleton. tauto.
Qed.
Lemma quiet_requests l : all_calls quiet (verify_requests (A := A) (VaultState := VaultState) (DriveSealed := DriveSealed) l).
Proof. induction l as [|r l IH]; [done|]. apply all_calls_try; [by repeat split|by intros]. Qed.
Lemma quiet_validate_introduction b : all_calls quiet (contacts_validate_introduction (A := A) (VaultState := VaultState) (DriveSealed := DriveSealed) b).
Proof.
  apply all_calls_try; [apply quiet_identity_open|]. intros _. apply all_calls_bind; [by apply quiet_base|]. intros c.
  apply all_calls_try; [done|]. intros pending. apply all_calls_try; [apply quiet_engine|]. intros _.
  apply all_calls_bind; [apply quiet_requests|]. intros r. apply all_calls_try; [done|]. intros _.
  apply all_calls_bind; [by apply quiet_base|]. by intros [].
Qed.

(** ** What a history shows *)
(** The public profile was read, its root binding verified for the device's group. *)
Definition profile_read (p : SelfProfile) (h : history) : Prop :=
  ∃ b, E (Base ReadSelfProfile) (Ok (Some p)) ∈ h ∧ E (Base AuthorityGroup) (Ok (ContactsWire.group b)) ∈ h ∧
    verify_root_binding (self_binding p) = Ok b ∧ ContactsWire.root b = self_root p.
Lemma runs_profile t p : runs (contacts_profile (A := A) (VaultState := VaultState) (DriveSealed := DriveSealed)) t (Some (Ok p)) → profile_read p t.
Proof.
  intros (T & -> & (b & Hs & Hg & Hb)%runs_contacts_profile)%runs_base. exists b. split_and!; [| |apply Hb..].
  - apply list_elem_of_fmap. by exists (Ev ReadSelfProfile (Ok (Some p))).
  - apply list_elem_of_fmap. by exists (Ev AuthorityGroup (Ok (ContactsWire.group b))).
Qed.
Lemma profile_read_app p h h' : profile_read p h ∨ profile_read p h' → profile_read p (h ++ h').
Proof. unfold profile_read. intros [(b & Hp)|(b & Hp)]; exists b; rewrite !elem_of_app; tauto. Qed.
Lemma runs_engine t key : runs (Calls.engine (A := A) (VaultState := VaultState) (DriveSealed := DriveSealed)) t (Some (Ok key)) →
  E (Base EngineKey) (Some key) ∈ t.
Proof.
  intros (T & -> & Hr)%runs_base. apply runs_bind in Hr as (t1 & t2 & k & -> & ->%(runs_call (ans := Identity.ans) EngineKey) & [-> Hk%ok_or_Ok]%runs_Done).
  subst k. left.
Qed.
(** [b] verified as the introduction [v], and the engine accepted the authority
    proof of each of its identities. *)
Definition authorized (b : bytes) (v : Introduction) (h : history) : Prop :=
  ∃ rs, verify_introduction b = Ok (mkPending v rs) ∧
    ∀ r, r ∈ rs → E (VerifyMembership (request_proof r) (request_group r) (request_device r)) (Ok tt) ∈ h.
Lemma authorized_mono b v h h' : authorized b v h → authorized b v (h ++ h').
Proof. intros (rs & Hv & Hr). exists rs. split; [done|]. intros r Hin. apply elem_of_app. left. by apply Hr. Qed.
Lemma runs_requests l t x : runs (verify_requests l) t (Some (Ok x)) →
  ∀ r, r ∈ l → E (VerifyMembership (request_proof r) (request_group r) (request_device r)) (Ok tt) ∈ t.
Proof.
  revert t. induction l as [|r l IH]; intros t; [by intros _ r ?%elem_of_nil|]. cbn [verify_requests]. rewrite runs_try.
  intros (t1 & t2 & [] & -> & ->%(runs_call (ans := ans) (VerifyMembership _ _ _)) & Hr) r' [->|Hin]%elem_of_cons; [left|].
  right. by eapply IH.
Qed.
Lemma runs_validate_introduction b t v : runs (contacts_validate_introduction b) t (Some (Ok v)) → authorized b v t.
Proof.
  unfold contacts_validate_introduction. rewrite runs_try. intros (t1 & t2 & [] & -> & _ & Hr).
  apply runs_bind in Hr as (t3 & t4 & c & -> & _ & Hr). rewrite runs_try in Hr. destruct Hr as (t5 & t6 & [v' rs] & -> & [-> Hv]%runs_Done & Hr).
  rewrite runs_try in Hr. destruct Hr as (t7 & t8 & k & -> & _ & Hr). apply runs_bind in Hr as (t9 & t10 & r & -> & Hq & Hr).
  rewrite runs_try in Hr. destruct Hr as (t11 & t12 & [] & -> & [-> Hok]%runs_Done & Hr). destruct r as [[]|]; [|done].
  apply runs_bind in Hr as (t13 & t14 & [] & -> & _ & Hr); apply runs_Done in Hr as [_ Hr]; [|done]. injection Hr as <-.
  exists rs. split; [by destruct (verify_introduction b); simplify_eq/=|]. intros r Hin.
  rewrite !elem_of_app. pose proof (runs_requests _ _ _ Hq r Hin). tauto.
Qed.

(** ** Rules *)
Section Rules.
Context (G : history → Calls.call A → Prop) (G_quiet : ∀ h c, quiet c → G h c).
Lemma wp_quiet_try {X Y} (p : prog (result Error X)) (k : X → prog (result Error Y)) h Q :
  all_calls quiet p → (∀ e h', Q (Err e) h') → (∀ t x, runs p t (Some (Ok x)) → wp G (k x) (h ++ t) Q) → wp G (try p k) h Q.
Proof. by apply (wp_quietly G quiet). Qed.
Lemma wp_pure {X Y} (r : result Error X) (k : X → prog (result Error Y)) h Q :
  (∀ e h', Q (Err e) h') → (∀ x, r = Ok x → wp G (k x) h Q) → wp G (try (Done r) k) h Q.
Proof. apply wp_result. Qed.
Lemma wp_ask {Y} c (k : ans c → prog Y) h Q : quiet c → (∀ y, wp G (k y) (h ++ [E c y]) Q) → wp G (Async.call c ≫= k) h Q.
Proof. intros Hc Hk. split; [by apply G_quiet|exact Hk]. Qed.
Lemma wp_still {Y} ctx (k : bool → prog Y) h Q :
  (∀ c, c ≠ ctx → wp G (k false) (h ++ [E (Base ReadContext) c]) Q) → wp G (k true) (h ++ [E (Base ReadContext) ctx]) Q →
  wp G (Calls.identity_context_is ctx ≫= k) h Q.
Proof.
  intros Hf Ht. split; [by apply G_quiet|]. intros c. change (wp G (k (bool_decide (c = ctx))) (h ++ [E (Base ReadContext) c]) Q).
  destruct (decide (c = ctx)) as [->|Hc]; [by rewrite bool_decide_true|]. rewrite bool_decide_false by done. by apply Hf.
Qed.
(** A change of the contacts document, held to the identity [ctx]. *)
Lemma wp_mutate_in {X} ctx (change : Document → prog (Document * result string X)) h Q :
  (∀ e h', Q (Err e) h') →
  (∀ k d, let h1 := h ++ [E (Base EngineKey) (Some k); E (BeginDocument CONTACTS_APP) (Ok d)] in
    (∀ c, c ≠ ctx → G (h1 ++ [E (Base ReadContext) c]) (WriteDocument CONTACTS_APP d)) ∧
    wp G (change d) (h1 ++ [E (Base ReadContext) ctx]) (λ r h2, G h2 (WriteDocument CONTACTS_APP r.1) ∧ ∀ x, r.2 = Ok x →
      let h3 := h2 ++ [E (WriteDocument CONTACTS_APP r.1) (Ok tt); E PersistEngine (Ok tt)] in
      G h3 (Base PushContactsChanged) ∧ Q (Ok x) (h3 ++ [E (Base PushContactsChanged) tt]))) →
  wp G (contacts_mutate_in ctx change) h Q.
Proof.
  intros HE Hc. unfold contacts_mutate_in. apply (wp_ask (Base EngineKey)); [done|]. intros [k|]; [|apply HE].
  apply (wp_bind (ans := ans)), (wp_ask (BeginDocument CONTACTS_APP)); [done|]. intros [d|e]; [|apply HE].
  rewrite <- app_assoc. cbn [app]. destruct (Hc k d) as [Hstale Hfresh].
  apply (wp_bind (ans := ans)). apply wp_still.
  - intros c Hne. split; [by apply Hstale|]. intros [[]|e]; apply HE.
  - eapply wp_mono; [exact Hfresh|]. intros [d' r] t [Hw Hok]. split; [exact Hw|]. intros [[]|e]; [|apply HE].
    destruct r as [x|e]; [|apply HE]. split; [by apply G_quiet|]. intros [[]|e]; [|apply HE].
    specialize (Hok x eq_refl). rewrite <- !app_assoc in *. destruct Hok as [Hp HQ]. split; [exact Hp|]. intros []. exact HQ.
Qed.
End Rules.

(** ** What is kept of an introduction *)
(** [h] ends inside a change of the contacts document [d]: [ctx] was read, [u]
    came after it, and the change reads the context as [c]. *)
Definition changing (h : history) (ctx : IdentityContext) (u : history) (d : Document) (c : IdentityContext) : Prop :=
  ∃ h0 k, h = h0 ++ E (Base ReadContext) ctx :: u ++
    [E (Base EngineKey) (Some k); E (BeginDocument CONTACTS_APP) (Ok d); E (Base ReadContext) c].
Definition saved (h : history) : Prop :=
  ∃ h0 d, h = h0 ++ [E (WriteDocument CONTACTS_APP d) (Ok tt); E PersistEngine (Ok tt)].
Section Imports.
Context (b : bytes) (roots : list bytes) (ps : list nat) (petname glyph : string).
(** What the import makes of a document: what keeping the chosen part of an
    introduction that was authorized meanwhile makes of it. *)
Definition kept (u : history) (d d' : Document) (r : result string string) : Prop :=
  ∃ v s entropy received, authorized b v u ∧ select v roots ps = Ok s ∧
    (d', r) = persist_verified_introduction s petname glyph entropy received d.
Definition importer_may (h : history) (c : Calls.call A) : Prop :=
  match c with
  | WriteDocument app d' => app = CONTACTS_APP ∧ ∃ ctx u d c, changing h ctx u d c ∧
      (c ≠ ctx ∧ d' = d ∨ c = ctx ∧ ∃ r, kept u d d' r)
  | Base PushContactsChanged => saved h
  | _ => quiet c
  end.
Lemma importer_quiet h c : quiet c → importer_may h c.
Proof. destruct c; try done. by destruct c. Qed.
(** C25: Whatever happens meanwhile, importing an introduction writes the contacts
    document only under the identity it began with, and only what keeping the
    chosen part of the verified introduction makes of it, after the engine
    accepted the authority proof of every identity in it; it announces the change
    only once it is on disk, and answers a contact only then. *)
Theorem import_keeps_authorized t r : runs (contacts_import_accept b roots ps petname glyph) t r →
  (∀ t1 e t2, t = t1 ++ e :: t2 → importer_may t1 (asked e)) ∧
  (∀ id, r = Some (Ok id) → ∃ h ctx u d d', changing h ctx u d ctx ∧ kept u d d' (Ok id) ∧
    t = h ++ [E (WriteDocument CONTACTS_APP d') (Ok tt); E PersistEngine (Ok tt); E (Base PushContactsChanged) tt]).
Proof.
  intros Hr. eapply (wp_guards importer_may _ [] (λ r h, match r with Ok id => ∃ h0 ctx u d d', changing h0 ctx u d ctx ∧ kept u d d' (Ok id) ∧
    h = h0 ++ [E (WriteDocument CONTACTS_APP d') (Ok tt); E PersistEngine (Ok tt); E (Base PushContactsChanged) tt] | Err _ => True end)) in Hr as [Hr Hq].
  { split; [exact Hr|]. by intros id ->. }
  clear. pose proof importer_quiet as HG. unfold contacts_import_accept.
  apply wp_quiet_try; [done|apply quiet_identity_open|done|]. intros t0 [] _.
  apply (wp_ask importer_may HG (Base ReadContext)); [done|]. intros ctx.
  apply wp_quiet_try; [done|apply quiet_validate_introduction|done|]. intros t1 v Hv%runs_validate_introduction.
  apply wp_still; [done|done|]. cbn [negb]. apply wp_pure; [done|]. intros s Hs%map_err_Ok.
  apply (wp_ask importer_may HG (Base Fill32)); [done|]. intros entropy.
  apply (wp_ask importer_may HG Now); [done|]. intros received.
  apply wp_mutate_in; [done..|]. intros k d.
  set (u := t1 ++ [E (Base ReadContext) ctx; E (Base Fill32) entropy; E Now received]).
  match goal with |- let h1 := ?h ++ ?l in _ => assert (∀ c, changing ((h ++ l) ++ [E (Base ReadContext) c]) ctx u d c) as Hc; [|generalize dependent (h ++ l)] end.
  { intros c. exists t0, k. subst u. by rewrite <- !app_assoc. }
  intros h1 Hc. assert (authorized b v u) as Hu by (eapply authorized_mono; exact Hv).
  destruct (persist_verified_introduction s petname glyph entropy received d) as [d' r'] eqn:Hk.
  assert (kept u d d' r') as Hkept by by exists v, s, entropy, received. split.
  - intros c Hne. split; [done|]. exists ctx, u, d, c. split; [apply Hc|by left].
  - split; [split; [done|]; exists ctx, u, d, ctx; split; [apply Hc|right; by eauto]|]. cbn. intros id ->.
    split; [by eexists _, _|]. exists (h1 ++ [E (Base ReadContext) ctx]), ctx, u, d, d'. split; [apply Hc|]. split; [done|]. by rewrite <- !app_assoc.
Qed.
End Imports.

(** ** The book's own changes *)
(** Over every history, a change the user makes to the book (a label, an
    observation, a preference, a deletion, a merge, an unsigned import) is written
    only under the identity it began with, is put back untouched under another,
    and is announced and answered only once it is on disk. *)
Theorem change_held_to_identity {X} (change : Registers.op X) t r : runs (contacts_mutate change) t r →
  (∀ t1 c a t2, t = t1 ++ E c a :: t2 → match c with
    | WriteDocument app d' => app = CONTACTS_APP ∧ ∃ ctx d c, changing t1 ctx [] d c ∧ d' = if decide (c = ctx) then (change d).1 else d
    | Base PushContactsChanged => saved t1
    | c => quiet c end) ∧
  (∀ x, r = Some (Ok x) → ∃ h ctx d, changing h ctx [] d ctx ∧ (change d).2 = Ok x ∧
    t = h ++ [E (WriteDocument CONTACTS_APP (change d).1) (Ok tt); E PersistEngine (Ok tt); E (Base PushContactsChanged) tt]).
Proof.
  set (G := λ (h : history) (c : Calls.call A), match c with
    | WriteDocument app d' => app = CONTACTS_APP ∧ ∃ ctx d c, changing h ctx [] d c ∧ d' = if decide (c = ctx) then (change d).1 else d
    | Base PushContactsChanged => saved h
    | c => quiet c end).
  intros Hr. eapply (wp_guards G _ [] (λ r h, match r with Ok x => ∃ h0 ctx d, changing h0 ctx [] d ctx ∧ (change d).2 = Ok x ∧
    h = h0 ++ [E (WriteDocument CONTACTS_APP (change d).1) (Ok tt); E PersistEngine (Ok tt); E (Base PushContactsChanged) tt] | Err _ => True end)) in Hr as [Hr Hq].
  { split; [intros t1 c a t2 Ht; exact (Hr t1 _ t2 Ht)|by intros x ->]. }
  clear. assert (∀ h c, quiet c → G h c) as HG by (intros h c; destruct c; try done; by destruct c).
  unfold contacts_mutate. apply wp_quiet_try; [done|apply quiet_identity_open|done|]. intros t0 [] _.
  apply (wp_ask G HG (Base ReadContext)); [done|]. intros ctx. apply wp_mutate_in; [done..|]. intros k d.
  match goal with |- let h1 := ?h ++ ?l in _ => assert (∀ c, changing ((h ++ l) ++ [E (Base ReadContext) c]) ctx [] d c) as Hc; [|generalize dependent (h ++ l)] end.
  { intros c. exists t0, k. by rewrite <- !app_assoc. }
  intros h1 Hc. split; [intros c Hne; split; [done|]; exists ctx, d, c; split; [apply Hc|by rewrite decide_False]|].
  split; [split; [done|]; exists ctx, d, ctx; split; [apply Hc|by rewrite decide_True]|]. intros x Hx. split; [by eexists _, _|].
  exists (h1 ++ [E (Base ReadContext) ctx]), ctx, d. split; [apply Hc|]. split; [done|]. by rewrite <- !app_assoc.
Qed.

(** ** What a meeting keeps *)
Section MeetingContact.
Context (generation : Z) (v : Introduction).
(** The change reads the meeting's generation too. *)
Definition current (h : history) (d : Document) (g : Z) : Prop :=
  ∃ h1 ctx u, changing h1 ctx u d ctx ∧ h = h1 ++ [E MeetingGeneration g].
Definition issuer_kept (d d' : Document) (r : result string string) : Prop :=
  ∃ b entropy received, verify_root_binding (binding (intro_issuer v)) = Ok b ∧
    (d', r) = keep_issuer v (ContactsWire.root b) entropy received d.
Definition meeting_may (h : history) (c : Calls.call A) : Prop :=
  match c with
  | WriteDocument app d' => app = CONTACTS_APP ∧
      ((∃ ctx u c, changing h ctx u d' c ∧ c ≠ ctx) ∨ (∃ g, current h d' g ∧ g ≠ generation) ∨
       ∃ d r, current h d generation ∧ issuer_kept d d' r)
  | Base PushContactsChanged => saved h
  | _ => quiet c
  end.
Lemma meeting_quiet h c : quiet c → meeting_may h c.
Proof. destruct c; try done. by destruct c. Qed.
(** A meeting's contact is kept only for its own meeting: whatever happens
    meanwhile, the contacts document is changed only while the identity and the
    meeting's generation are still the ones it began with, and then to what keeping
    the met person's introduction makes of it; the answer comes once it is on
    disk. *)
Theorem meeting_keeps_its_own t r : runs (contacts_accept_meeting generation v) t r →
  (∀ t1 e t2, t = t1 ++ e :: t2 → meeting_may t1 (asked e)) ∧
  (∀ id, r = Some (Ok id) → ∃ h d d', current h d generation ∧ issuer_kept d d' (Ok id) ∧
    t = h ++ [E (WriteDocument CONTACTS_APP d') (Ok tt); E PersistEngine (Ok tt); E (Base PushContactsChanged) tt]).
Proof.
  intros Hr. eapply (wp_guards meeting_may _ [] (λ r h, match r with Ok id => ∃ h0 d d', current h0 d generation ∧ issuer_kept d d' (Ok id) ∧
    h = h0 ++ [E (WriteDocument CONTACTS_APP d') (Ok tt); E PersistEngine (Ok tt); E (Base PushContactsChanged) tt] | Err _ => True end)) in Hr as [Hr Hq].
  { split; [exact Hr|]. by intros id ->. }
  clear. pose proof meeting_quiet as HG. unfold contacts_accept_meeting.
  apply wp_quiet_try; [done|apply quiet_identity_open|done|]. intros t0 [] _.
  apply (wp_ask meeting_may HG (Base ReadContext)); [done|]. intros ctx.
  apply wp_pure; [done|]. intros issuer (b & Hb & [= <-])%map_err_Ok%bind_Ok.
  apply (wp_bind (ans := ans)), (wp_ask meeting_may HG MeetingGeneration); [done|]. intros g. cbn [wp].
  case_bool_decide; cbn [negb]; [|exact I].
  apply (wp_ask meeting_may HG Now); [done|]. intros received.
  apply (wp_ask meeting_may HG (Base Fill32)); [done|]. intros entropy.
  apply wp_mutate_in; [done..|]. intros k d.
  set (u := [E MeetingGeneration g; E Now received; E (Base Fill32) entropy]).
  match goal with |- let h1 := ?h ++ ?l in _ => assert (∀ c, changing ((h ++ l) ++ [E (Base ReadContext) c]) ctx u d c) as Hc; [|generalize dependent (h ++ l)] end.
  { intros c. exists t0, k. subst u. by rewrite <- !app_assoc. }
  intros h1 Hc. split; [intros c Hne; split; [done|]; left; by exists ctx, u, c|].
  apply (wp_bind (ans := ans)), (wp_ask meeting_may HG MeetingGeneration); [done|]. intros g'. cbn [wp].
  assert (∀ g, current ((h1 ++ [E (Base ReadContext) ctx]) ++ [E MeetingGeneration g]) d g) as Hcur by (intros g''; eexists _, ctx, u; split; [apply Hc|done]).
  case_bool_decide as Hg; cbn [negb].
  2: { split; [split; [done|]; right; left; by exists g'|done]. }
  subst g'. destruct (keep_issuer v (ContactsWire.root b) entropy received d) as [d' r'] eqn:Hk.
  assert (issuer_kept d d' r') as Hkept by by exists b, entropy, received.
  split; [split; [done|]; right; right; by exists d, r'|]. cbn. intros id ->. split; [by eexists _, _|].
  exists ((h1 ++ [E (Base ReadContext) ctx]) ++ [E MeetingGeneration generation]), d, d'. split; [apply Hcur|]. split; [done|]. by rewrite <- !app_assoc.
Qed.
End MeetingContact.

(** ** What is signed for others *)
(** What a signed card says, and what was read for it: the profile before and
    after everything else, in one identity. *)
Definition displayed (root : bytes) (profiles : list bytes) (h : history) (p : SelfProfile) (key proof : bytes) (now : Z) : Prop :=
  ∃ h0 ctx u1 u2 s, h = h0 ++ E (Base ReadContext) ctx :: u1 ++ E MembershipProof (Ok proof) :: u2 ++
      [E (Base ReadState) s; E (Base ReadContext) ctx; E Now now] ∧
    profile_read p u1 ∧ profile_read p u2 ∧ E (Base EngineKey) (Some key) ∈ u1 ∧ self_root p = root ∧ variants p ≡ₚ profiles.
Lemma shares_displayed root profiles ids fwd ps t r : runs (contacts_share root profiles ids fwd ps) t r →
  Forall (λ e, quiet (asked e)) t ∧ (∀ wire, r = Some (Ok wire) → ∃ p key proof now at_ rs,
    displayed root profiles t p key proof now ∧ claimed_time now = Ok at_ ∧
    verify_introduction wire = Ok (mkPending (mkIntroduction (mkIdentity (self_binding p) (variants p) key proof) key fwd ps at_) rs)).
Proof.
  intros Hr. eapply (wp_guards (λ _, quiet) _ [] (λ r h, match r with Ok wire => ∃ p key proof now at_ rs,
    displayed root profiles h p key proof now ∧ claimed_time now = Ok at_ ∧
    verify_introduction wire = Ok (mkPending (mkIntroduction (mkIdentity (self_binding p) (variants p) key proof) key fwd ps at_) rs)
    | Err _ => True end)) in Hr as [Hr Hq].
  { split; [|by intros wire ->]. apply Forall_forall. intros e (t1 & t2 & Ht)%list_elem_of_split. by eapply Hr. }
  clear. assert (∀ (h : history) c, quiet c → quiet c) as HG by done. unfold contacts_share.
  apply wp_quiet_try; [done|apply quiet_identity_open|done|]. intros t0 [] _.
  apply (wp_ask _ HG (Base ReadContext)); [done|]. intros ctx.
  apply wp_quiet_try; [done|apply quiet_profile|done|]. intros t1 p Hp%runs_profile.
  apply wp_pure; [done|]. intros [] Heq. destruct (bool_decide (self_root p = root)) eqn:Hroot; [|done].
  apply bool_decide_eq_true in Hroot. cbn [andb] in Heq. case_bool_decide as Hsame; [|done].
  apply wp_quiet_try; [done|apply quiet_engine|done|]. intros t2 key Hkey.
  apply wp_quiet_try; [done|by apply quiet_asked_engine; repeat split|done|]. intros t3 proof ->%runs_asked_engine%(runs_call (ans := ans) MembershipProof).
  apply wp_quiet_try; [done|apply quiet_items|done|]. intros t4 l _.
  apply wp_pure; [done|]. intros identities _. apply wp_pure; [done|]. intros [] Hid. case_bool_decide as Hf; [subst identities|done].
  apply wp_quiet_try; [done|apply quiet_profile|done|]. intros t5 p' Hp'%runs_profile.
  apply wp_pure; [done|]. intros [] Hpp. case_bool_decide as Hpe; [subst p'|done].
  apply (wp_ask _ HG (Base ReadState)); [done|]. intros s. apply wp_still; [done|done|]. cbn [negb].
  apply (wp_ask _ HG Now); [done|]. intros now. apply wp_pure; [done|]. intros at_ Hat. cbn [wp].
  match goal with |- match ?x with _ => _ end => destruct x as [wire|] eqn:Hsign; [|done] end. apply map_err_Ok in Hsign.
  apply signed_reads_back in Hsign as (rs & Hv & _); [|by eapply claimed_time_nanos].
  exists p, key, proof, now, at_, rs. split; [|done]. exists t0, ctx, (t1 ++ t2), (t4 ++ t5), s. cbn [app]. rewrite <- !app_assoc.
  split; [done|]. split; [by apply profile_read_app; left|]. split; [by apply profile_read_app; right|].
  split; [apply elem_of_app; right; by apply runs_engine|]. split; [done|].
  by rewrite <- (merge_sort_Permutation key_le (variants p)), Hsame, merge_sort_Permutation.
Qed.
Lemma quiet_share root profiles ids fwd ps : all_calls quiet (contacts_share (A := A) (VaultState := VaultState) (DriveSealed := DriveSealed) root profiles ids fwd ps).
Proof.
  apply all_calls_try; [apply quiet_identity_open|]. intros _. apply all_calls_bind; [by apply quiet_base|]. intros ctx.
  apply all_calls_try; [apply quiet_profile|]. intros p. apply all_calls_try; [done|]. intros _. apply all_calls_try; [apply quiet_engine|]. intros key.
  apply all_calls_try; [by apply quiet_asked_engine; repeat split|]. intros proof. apply all_calls_try; [apply quiet_items|]. intros l.
  do 2 (apply all_calls_try; [done|]; intros ?). apply all_calls_try; [apply quiet_profile|]. intros q. apply all_calls_try; [done|]. intros _.
  apply all_calls_bind; [by repeat split|]. intros s. apply all_calls_bind; [by apply quiet_base|]. intros []; [|done]. cbn [negb].
  apply all_calls_bind; [by repeat split|]. intros now. by apply all_calls_try.
Qed.
(** A card says what was displayed.  Whatever happens meanwhile, sharing changes
    nothing, and the bytes it answers verify, for every reader, as an introduction
    of exactly the displayed root and profiles, the displayed forwarded identities
    and the parties asked for, with this device's proof, read under one identity
    and read again just before signing. *)
Theorem share_as_displayed root profiles ids fwd ps t r : runs (contacts_share root profiles ids fwd ps) t r →
  Forall (λ e, quiet (asked e)) t ∧ (∀ wire, r = Some (Ok wire) → ∃ p key proof now at_ rs,
    displayed root profiles t p key proof now ∧ claimed_time now = Ok at_ ∧
    verify_introduction wire = Ok (mkPending (mkIntroduction (mkIdentity (self_binding p) (variants p) key proof) key fwd ps at_) rs)).
Proof. exact (shares_displayed root profiles ids fwd ps t r). Qed.
End Facts.

(** ** A concrete book *)
Module Concrete.
Import Crypto.Toy ToySigned ContactsFacts.Concrete.
#[local] Existing Instances History.Toy.automerge History.Toy.laws History.Toy.graph checksum.
Abbreviation cans := (Calls.ans (A := History.Toy.adoc) (VaultState := unit) (DriveSealed := unit)).
Definition self : SelfProfile := mkSelf (verifying_key ada) ada_binding [ada_profile].
Definition base_handle (c : Identity.call) : option (Identity.ans (VaultState := unit) (DriveSealed := unit) c) :=
  match c with
  | ReadState => Some (Custody.Concrete.device_with None)
  | ReadContext => Some (mkContext 0 false)
  | EngineKey => Some (Some (verifying_key []))
  | ReadSelfProfile => Some (Ok (Some self))
  | AuthorityGroup => Some (Ok (replicate 32 (byte_of 9)))
  | Fill32 => Some [byte_of 4]
  | PushContactsChanged => Some tt
  | _ => None
  end.
(** A kernel with one contacts document. *)
Definition handle (d : Document History.Toy.adoc) (c : Calls.call History.Toy.adoc) : option (cans c * Document History.Toy.adoc) :=
  match c as c return option (cans c * Document History.Toy.adoc) with
  | Base c => (λ y, (y, d)) <$> base_handle c
  | ReadDocument _ | BeginDocument _ => Some (Ok d, d)
  | WriteDocument _ d' => Some (Ok tt, d')
  | MembershipProof => Some (Ok [byte_of 7], d)
  | VerifyMembership _ _ _ => Some (Ok tt, d)
  | PersistEngine => Some (Ok tt, d)
  | MeetingGeneration => Some (3, d)
  | Now => Some (20, d)
  | _ => None
  end.
Definition importing := run_with handle start (contacts_import_accept (C := nat * nat) ada_wire [verifying_key ada] [0%nat] "me" "*").
Definition meeting := run_with handle start (contacts_accept_meeting (C := nat * nat) 3 ada_intro).
Definition labelling := run_with handle with_both (contacts_set_label (C := nat * nat) bobby_id "rob" "*").
Definition sharing := run_with handle start (contacts_share (verifying_key ada) [ada_profile] [] [] []).
Definition kept_id : string := Eval vm_compute in match importing.2 with Some (Ok i) => i | _ => EmptyString end.
Definition met_as : string := Eval vm_compute in match meeting.2 with Some (Ok i) => i | _ => EmptyString end.
Definition card : bytes := match sharing.2 with Some (Ok b) => b | _ => [] end.
Lemma import_keeps_authorized_witness :
  ∃ u d d', kept ada_wire [verifying_key ada] [0%nat] "me" "*" (VaultState := unit) (DriveSealed := unit) (C := nat * nat) u d d' (Ok kept_id).
Proof.
  assert (importing.2 = Some (Ok kept_id)) as He by (vm_compute; reflexivity).
  destruct (proj2 (import_keeps_authorized ada_wire [verifying_key ada] [0%nat] "me" "*" importing.1 importing.2 (run_with_runs handle start _)) kept_id He)
    as (h & ctx & u & d & d' & _ & Hk & _). exact (ex_intro _ u (ex_intro _ d (ex_intro _ d' Hk))).
Defined.
Lemma meeting_keeps_its_own_witness :
  ∃ d d', issuer_kept (C := nat * nat) ada_intro d d' (Ok met_as).
Proof.
  assert (meeting.2 = Some (Ok met_as)) as He by (vm_compute; reflexivity).
  destruct (proj2 (meeting_keeps_its_own 3 ada_intro meeting.1 meeting.2 (run_with_runs handle start _)) met_as He)
    as (h & d & d' & _ & Hk & _). exact (ex_intro _ d (ex_intro _ d' Hk)).
Defined.
Lemma change_held_to_identity_witness :
  ∃ h ctx d, changing (VaultState := unit) (DriveSealed := unit) h ctx [] d ctx ∧ (set_label (C := nat * nat) bobby_id "rob" "*" d).2 = Ok ().
Proof.
  assert (labelling.2 = Some (Ok ())) as He by (vm_compute; reflexivity).
  destruct (proj2 (change_held_to_identity (set_label bobby_id "rob" "*") labelling.1 labelling.2 (run_with_runs handle with_both _)) () He)
    as (h & ctx & d & Hc & Hk & _). exact (ex_intro _ h (ex_intro _ ctx (ex_intro _ d (conj Hc Hk)))).
Defined.
Lemma share_as_displayed_witness :
  ∃ p key proof at_ rs, self_root p = verifying_key ada ∧
    verify_introduction card = Ok (mkPending (mkIntroduction (mkIdentity (self_binding p) (variants p) key proof) key [] [] at_) rs).
Proof.
  assert (sharing.2 = Some (Ok card)) as He by (vm_compute; reflexivity).
  destruct (proj2 (share_as_displayed (verifying_key ada) [ada_profile] [] [] [] sharing.1 sharing.2 (run_with_runs handle start _)) card He)
    as (p & key & proof & now & at_ & rs & (h0 & ctx & u1 & u2 & s & _ & _ & _ & _ & Hr & _) & _ & Hv).
  exact (ex_intro _ p (ex_intro _ key (ex_intro _ proof (ex_intro _ at_ (ex_intro _ rs (conj Hr Hv)))))).
Defined.
End Concrete.
