(* ===== verification/Us.v ===== *)
(** * The user-system document ([runtime/crates/engine/src/us.rs])

    The devices of one user: a map of members at the root, each a map of its
    petname and its enrollment; the keyhive identifiers of the group; and the
    opaque registers, one per slot, whose concurrent values are settled by their
    order. *)
From S2P Require Import Prelude BTree Crypto Text Opaque Trees Storage Automerge History Registers.

Record Member := mkMember { m_key : bytes; m_petname : string; enrolled : Z }.
Definition MEMBERS : string := "members".
Definition PETNAME : string := "petname".
Definition ENROLLED : string := "enrolled".
Definition KEYHIVE : string := "keyhive".
Definition GROUP : string := "group".
Definition DOC : string := "doc".
Definition OPAQUE_SLOT_PREFIX : string := "opaque:".

(** [i64::try_from(enrolled).unwrap_or(i64::MAX)], [u64::try_from(..).unwrap_or(0)]. *)
Definition I64_MAX : Z := 2 ^ 63 - 1.
Definition stamp (enrolled : Z) : Z := if enrolled <=? I64_MAX then enrolled else I64_MAX.
Definition unstamp (z : Z) : Z := if z <? 0 then 0 else z.

Section Us.
Context `{!Sha256} {A Oid C : Type} {AM : Automerge A Oid} {CG : ChangeGraph A C}.
Abbreviation Document := (Document A).

Definition us_actor (seed : bytes) : bytes := actor (as_bytes "polyvisor:us-actor:") seed [].
Definition us_empty (seed : bytes) : Document := History.empty (C := C) (us_actor seed) us_tree.
Definition us_load (b seed : bytes) : Document := load_document (C := C) b (us_actor seed) us_tree.

(** ** Members *)
Definition string_at (a : A) (o : Oid) (k : string) : option string := get_ok a o k ≫= λ x, to_str x.1.
Definition int_at (a : A) (o : Oid) (k : string) : option Z := get_ok a o k ≫= λ x, to_i64 x.1.
Definition member_at (a : A) (ms : Oid) (hex_key : string) : option Member :=
  key ← us_unhex hex_key;
  entry ← get_ok a ms hex_key;
  Some (mkMember key (default EmptyString (string_at a entry.2 PETNAME)) (unstamp (default 0 (int_at a entry.2 ENROLLED)))).
Definition earlier (a b : Member) : Prop :=
  enrolled a < enrolled b ∨ (enrolled a = enrolled b ∧ key_le (m_key a) (m_key b)).
#[export] Instance earlier_dec : RelDecision earlier.
Proof. intros a b. unfold earlier. apply _. Defined.
Definition members (d : Document) : list Member :=
  match get (read d) ROOT MEMBERS with
  | Ok (Some (_, ms)) => merge_sort earlier (omap (member_at (read d) ms) (keys (read d) ms))
  | _ => []
  end.

Definition has (l : list Member) (key : bytes) : bool := existsb (λ m, bool_decide (m_key m = key)) l.
Definition us_adopt (b seed me adder : bytes) : result string Document :=
  d ← map_err (λ why, "that device sent a group this one cannot read: " +:+ why) (try_load (C := C) b (us_actor seed) us_tree);
  if negb (has (members d) me) then Err "that device sent a group this one is not in"%string
  else if negb (has (members d) adder) then Err "that device sent a group it is not in itself"%string
  else Ok d.

(** [get] before [put_object]. *)
Definition child (a : A) (o : Oid) (k : string) : result string (A * Oid) :=
  x ← get a o k; match x with Some (_, x) => Ok (a, x) | None => put_object a o k end.
Definition add_member (key : bytes) (petname : string) (enrolled : Z) : Document → result string Document :=
  transact (C := C) (λ a,
    '(a, ms) ← child a ROOT MEMBERS;
    '(a, entry) ← child a ms (hex key);
    a ← put a entry PETNAME (Str petname);
    put a entry ENROLLED (Int (stamp enrolled))).
Definition set_member_petname (key : bytes) (petname : string) : Document → result string Document :=
  transact (C := C) (λ a,
    x ← get a ROOT MEMBERS;
    ms ← ok_or "the group has no members"%string x;
    x ← get a ms.2 (hex key);
    entry ← ok_or "this device is not in its group"%string x;
    put a entry.2 PETNAME (Str petname)).

(** ** Keyhive *)
Definition keyhive (d : Document) : option (bytes * bytes) :=
  k ← get_ok (read d) ROOT KEYHIVE;
  g ← string_at (read d) k.2 GROUP ≫= us_unhex;
  p ← string_at (read d) k.2 DOC ≫= us_unhex;
  Some (g, p).
Definition set_keyhive (group doc : bytes) : Document → result string Document :=
  transact (C := C) (λ a,
    '(a, k) ← child a ROOT KEYHIVE;
    a ← put a k GROUP (Str (hex group));
    put a k DOC (Str (hex doc))).

(** ** Opaque registers *)
(** [Iterator::max] under the derived order. *)
Definition greatest (l : list RegisterValue) : option RegisterValue :=
  foldl (λ m v, match m with
                | None => Some v
                | Some w => if bool_decide (key_le w v) then Some v else Some w
                end) None l.
Definition decoded (d : Document) (k : string) : list RegisterValue :=
  omap (λ x, to_bytes x.1 ≫= RegisterValue_decode) (get_all (read d) ROOT k).
Definition take_register (d : Document) (m : gmap bytes RegisterValue) (k : string) : gmap bytes RegisterValue :=
  match str_strip OPAQUE_SLOT_PREFIX k ≫= unhex12, greatest (decoded d k) with
  | Some slot, Some winner => <[slot := winner]> m
  | _, _ => m
  end.
Definition opaque_registers (d : Document) : gmap bytes RegisterValue := foldl (take_register d) ∅ (root_keys d).
Definition opaque_register (d : Document) (slot : string) : option RegisterValue := opaque_registers d !! slot_hash slot.
Definition set_opaque_register (slot : string) (v : RegisterValue) : Document → result string Document :=
  transact (C := C) (λ a, put a ROOT (OPAQUE_SLOT_PREFIX +:+ hex (slot_hash slot)) (Bytes (RegisterValue_encode v))).

(** [UsDoc::absorb] *)
Definition unheld (d : Document) (l : list (bytes * bytes)) : list (bytes * bytes) := filter (λ x, contains d x.1 = false) l.
Definition us_absorb (storage : SnapshotStorage) (d : Document) : Document * bool :=
  let '(d, fragments) := apply_bundles (C := C) (unheld d (fragment_blobs storage us_tree)) d in
  let '(d, commits) := apply (C := C) (unheld d (commit_blobs storage us_tree)) d in
  (d, landed fragments || landed commits).
End Us.

(** ** What an enrollment changes *)
Section Facts.
Context `{!Sha256} {A Oid C : Type} {AM : Automerge A Oid} {CG : ChangeGraph A C} {ML : MapLaws A Oid} {CV : CommitView A Oid C}.
Implicit Types (a b : A) (o : Oid) (d : Document A).

Definition members_of a : option Oid := snd <$> get_ok a ROOT MEMBERS.
Definition entry_of a (key : string) : option Oid := m ← members_of a; snd <$> get_ok a m key.
(** The member a key of the members map spells. *)
Definition listed a (key : string) : option Member := m ← members_of a; member_at a m key.

(** The shape every device keeps: the members and their entries are maps of
    their own, no two keys share an entry. *)
Record us_ok a : Prop := {
  ok_members m : members_of a = Some m → is_map a m = true ∧ m ≠ ROOT;
  ok_entry m k e : members_of a = Some m → entry_of a k = Some e → is_map a e = true ∧ e ≠ m ∧ e ≠ ROOT;
  ok_apart k k' e : entry_of a k = Some e → entry_of a k' = Some e → k = k';
}.

Lemma child_spec a o k : is_map a o = true → ∃ b x, child a o k = Ok (b, x) ∧
  ((b = a ∧ ∃ v, get_ok a o k = Some (v, x)) ∨
   (get_ok a o k = None ∧ only o k a b ∧ get_ok b o k = Some (Object, x) ∧ is_map a x = false ∧ is_map b x = true ∧
    ∀ j, get_ok b x j = None)).
Proof.
  intros Hm. pose proof (get_one a o k Hm) as Hk. unfold child, get_ok. destruct (get a o k) as [[[v x]|]|] eqn:Hg; [| |done].
  - exists a, x. split; [done|]. left. split; [done|]. by exists v.
  - destruct (put_object_spec a o k Hm) as (b & x & Hp & Ho & Hx & Hn & Hb & He). exists b, x. split; [exact Hp|]. right.
    assert (is_map b o = true) as Hmb by by apply Ho. split_and!; [done|done| |done|done|].
    + by apply (get_ok_one b o k).
    + intros j. by apply (get_ok_none b x j).
Qed.
Lemma put_ok a o k v : is_map a o = true → ∃ b x, put a o k v = Ok b ∧ only o k a b ∧ get_ok b o k = Some (Scalar v, x).
Proof.
  intros Hm. destruct (put_spec a o k v Hm) as (b & x & Hp & Ho & Hx). exists b, x. split_and!; [done|done|].
  apply get_ok_one; [by apply Ho|done].
Qed.

(** ** One step at a time *)
(** The members map appears. *)
Lemma root_child a : us_ok a → ∃ b m, child a ROOT MEMBERS = Ok (b, m) ∧ us_ok b ∧ members_of b = Some m ∧
  (∀ k, listed b k = listed a k) ∧ ∀ k, members_of a = None → entry_of b k = None.
Proof.
  intros Hok. destruct (child_spec a ROOT MEMBERS (root_map a)) as (b & m & Hc & [[-> [v Hv]]|(Hn & Ho & Hg & Hf & Hm & He)]).
  - exists a, m. unfold members_of. rewrite Hv. split_and!; [done..|]. by intros k.
  - exists b, m. assert (members_of b = Some m) as Hb by (unfold members_of; by rewrite Hg).
    assert (members_of a = None) as Ha by (unfold members_of; by rewrite Hn).
    assert (∀ k, entry_of b k = None) as Hnone.
    { intros k. unfold entry_of. rewrite Hb. cbn [mbind option_bind]. by rewrite He. }
    split_and!; [done| |done| |auto].
    + split.
      * intros m' E. assert (m' = m) as -> by congruence. split; [done|]. intros ->. by rewrite (root_map a) in Hf.
      * intros m' k e _ E. by rewrite Hnone in E.
      * intros k k' e E. by rewrite Hnone in E.
    + intros k. unfold listed. rewrite Ha, Hb. cbn [mbind option_bind]. unfold member_at. rewrite He. by destruct (us_unhex k).
Qed.
(** What a step elsewhere leaves alone. *)
Lemma members_only a b o k : only o k a b → (o ≠ ROOT ∨ k ≠ MEMBERS) → members_of b = members_of a.
Proof.
  intros Ho Hne. unfold members_of. rewrite (get_ok_only a b o k ROOT MEMBERS Ho); [done|apply root_map|].
  destruct Hne as [Hne|Hne]; [left|right]; by apply not_eq_sym.
Qed.
Lemma entry_only a b o k m j : us_ok a → only o k a b → members_of a = Some m → (o ≠ ROOT ∨ k ≠ MEMBERS) →
  (o ≠ m ∨ k ≠ j) → get_ok b m j = get_ok a m j ∧ entry_of b j = entry_of a j.
Proof.
  intros Hok Ho Hm Hr Hne. assert (get_ok b m j = get_ok a m j) as E.
  { apply (get_ok_only a b o k); [done|by apply (ok_members a Hok)|]. destruct Hne as [Hne|Hne]; [left|right]; by apply not_eq_sym. }
  split; [done|]. unfold entry_of. rewrite (members_only _ _ _ _ Ho Hr), Hm. cbn [mbind option_bind]. by rewrite E.
Qed.
Lemma listed_only a b o k m j : us_ok a → only o k a b → members_of a = Some m → (o ≠ ROOT ∨ k ≠ MEMBERS) →
  (o ≠ m ∨ k ≠ j) → (∀ e, entry_of a j = Some e → o ≠ e) → listed b j = listed a j.
Proof.
  intros Hok Ho Hm Hr Hne He. destruct (entry_only _ _ _ _ _ j Hok Ho Hm Hr Hne) as [E _].
  unfold listed. rewrite (members_only _ _ _ _ Ho Hr), Hm. cbn [mbind option_bind]. unfold member_at. rewrite E.
  destruct (us_unhex j); [|done]. cbn [mbind option_bind]. destruct (get_ok a m j) as [[v e]|] eqn:Eg; [|done]. cbn [mbind option_bind snd].
  assert (entry_of a j = Some e) as Hj by (unfold entry_of; rewrite Hm; cbn [mbind option_bind]; by rewrite Eg).
  destruct (ok_entry a Hok m j e Hm Hj) as (Hmap & _ & _). specialize (He e Hj).
  unfold string_at, int_at. rewrite !(get_ok_only a b o k e) by (done || (left; by apply not_eq_sym)). done.
Qed.
(** A field of an entry is written. *)
Lemma put_field a m key e f v : us_ok a → members_of a = Some m → entry_of a key = Some e →
  ∃ b x, put a e f v = Ok b ∧ us_ok b ∧ members_of b = Some m ∧ entry_of b key = Some e ∧
    get_ok b e f = Some (Scalar v, x) ∧ (∀ g, g ≠ f → get_ok b e g = get_ok a e g) ∧ ∀ k, k ≠ key → listed b k = listed a k.
Proof.
  intros Hok Hm He. destruct (ok_entry a Hok m key e Hm He) as (Hmap & Hem & Her).
  destruct (put_ok a e f v Hmap) as (b & x & Hp & Ho & Hx). exists b, x.
  assert (members_of b = Some m) as Hmb by (rewrite (members_only _ _ _ _ Ho); [done|by left]).
  assert (∀ k, entry_of b k = entry_of a k) as Heb by (intros k; eapply entry_only; [done|done|done|by left|by left]).
  split_and!; [done| |done|by rewrite Heb|done| |].
  - destruct Hok as [H1 H2 H3]. split.
    + intros m' E. assert (m' = m) as -> by congruence. split; [apply Ho|]; by apply H1.
    + intros m' k e' E Ee. rewrite Heb in Ee. assert (m' = m) as -> by congruence.
      destruct (H2 m k e' Hm Ee) as (? & ? & ?). split_and!; [by apply Ho|done|done].
    + intros k k' e' E1 E2. rewrite Heb in E1, E2. by eapply H3.
  - intros g Hg. apply (get_ok_only a b e f); [done|done|by right].
  - intros k Hk. eapply listed_only; [done|done|done|by left|by left|].
    intros e' He' ->. apply Hk. by eapply (ok_apart a Hok).
Qed.
(** The entry appears. *)
Lemma entry_child a m key : us_ok a → members_of a = Some m → ∃ b e, child a m key = Ok (b, e) ∧ us_ok b ∧
  members_of b = Some m ∧ entry_of b key = Some e ∧ ∀ k, k ≠ key → listed b k = listed a k.
Proof.
  intros Hok Hm. destruct (ok_members a Hok m Hm) as [Hmm Hmr].
  destruct (child_spec a m key Hmm) as (b & e & Hc & [[-> [v Hv]]|(Hn & Ho & Hg & Hf & Hmap & He)]).
  - exists a, e. split_and!; [done..| |done]. unfold entry_of. rewrite Hm. cbn [mbind option_bind]. by rewrite Hv.
  - exists b, e. assert (members_of b = Some m) as Hmb by (rewrite (members_only _ _ _ _ Ho); [done|by left]).
    assert (entry_of b key = Some e) as Heb by (unfold entry_of; rewrite Hmb; cbn [mbind option_bind]; by rewrite Hg).
    assert (∀ k, k ≠ key → entry_of b k = entry_of a k) as Hother.
    { intros k Hk. eapply entry_only; [done|done|done|by left|right; by apply not_eq_sym]. }
    assert (∀ k e', k ≠ key → entry_of b k = Some e' → e' ≠ e ∧ is_map a e' = true ∧ e' ≠ m ∧ e' ≠ ROOT) as Hold.
    { intros k e' Hk Ee. rewrite Hother in Ee by done. destruct (ok_entry a Hok m k e' Hm Ee) as (H1 & H2 & H3).
      split_and!; [|done..]. intros ->. congruence. }
    split_and!; [done| |done|done|].
    + split.
      * intros m' E. assert (m' = m) as -> by congruence. split; [by apply Ho|done].
      * intros m' k e' E Ee. assert (m' = m) as -> by congruence. destruct (decide (k = key)) as [->|Hk].
        -- assert (e' = e) as -> by congruence. split_and!; [done| |]; intros ->; [congruence|by rewrite (root_map a) in Hf].
        -- destruct (Hold k e' Hk Ee) as (_ & H1 & H2 & H3). split_and!; [by apply Ho|done|done].
      * intros k k' e' E1 E2. destruct (decide (k = key)) as [->|Hk], (decide (k' = key)) as [->|Hk']; [done| | |].
        -- assert (e' = e) as -> by congruence. by destruct (Hold k' e Hk' E2).
        -- assert (e' = e) as -> by congruence. by destruct (Hold k e Hk E1).
        -- rewrite Hother in E1, E2 by done. by eapply (ok_apart a Hok).
    + intros k Hk. eapply listed_only; [done|done|done|by left|right; by apply not_eq_sym|].
      intros e' He' E. destruct (ok_entry a Hok m k e' Hm He') as (_ & ? & _). congruence.
Qed.

(** ** Whole operations *)
Lemma elem_of_members d x : x ∈ members d ↔ ∃ k, k ∈ keys (read d) (default ROOT (members_of (read d))) ∧ listed (read d) k = Some x.
Proof.
  unfold members, listed, members_of, get_ok. destruct (get (read d) ROOT MEMBERS) as [[[v m]|]|].
  - rewrite merge_sort_Permutation, list_elem_of_omap. done.
  - cbn. split; [by intros ?%elem_of_nil|by intros (? & _ & ?)].
  - cbn. split; [by intros ?%elem_of_nil|by intros (? & _ & ?)].
Qed.
Lemma listed_key a m k x : us_ok a → members_of a = Some m → listed a k = Some x → k ∈ keys a m.
Proof.
  intros Hok Hm. unfold listed. rewrite Hm. cbn [mbind option_bind]. unfold member_at.
  destruct (us_unhex k); [|done]. cbn [mbind option_bind]. destruct (get_ok a m k) as [y|] eqn:E; [|done]. intros _.
  destruct (ok_members a Hok m Hm) as [Hmm _]. apply (elem_of_keys a m k Hmm). intros Hn. rewrite (get_ok_none a m k Hmm Hn) in E. done.
Qed.
(** The members are what the keys of the map spell. *)
Lemma members_listed d x : us_ok (read d) → x ∈ members d ↔ ∃ k, listed (read d) k = Some x.
Proof.
  intros Hok. rewrite elem_of_members. split; [by intros (k & _ & Hx); exists k|]. intros (k & Hx). exists k. split; [|done].
  destruct (members_of (read d)) as [m|] eqn:Hm; [by eapply listed_key|]. unfold listed in Hx. by rewrite Hm in Hx.
Qed.

(** A transaction a reader sees as its operations. *)
Lemma transact_view f d b : f (doc d) = Ok b → ∃ d', transact (C := C) f d = Ok d' ∧
  (∀ o, is_map (read d') o = is_map b o) ∧ (∀ o k, get_ok (read d') o k = get_ok b o k) ∧ ∀ o, keys (read d') o = keys b o.
Proof.
  intros Hf. unfold transact. rewrite Hf. cbn [mbind result_bind]. destruct (commit b) as [c x] eqn:Hc.
  pose proof (commit_view b c x Hc) as Hv. destruct x as [x|]; (eexists; split; [done|]); unfold read, with_doc; cbn [doc]; unfold get_ok;
    (split_and!; intros o; [by destruct (Hv o) as (-> & _)|intros k; destruct (Hv o) as (_ & _ & Hk); by destruct (Hk k) as [_ ->]|by destruct (Hv o) as (_ & -> & _)]).
Qed.
Lemma us_ok_view a b : us_ok a → (∀ o, is_map b o = is_map a o) → (∀ o k, get_ok b o k = get_ok a o k) →
  us_ok b ∧ members_of b = members_of a ∧ (∀ k, entry_of b k = entry_of a k) ∧ ∀ k, listed b k = listed a k.
Proof.
  intros [H1 H2 H3] Hm Hg. assert (members_of b = members_of a) as E by (unfold members_of; by rewrite Hg).
  assert (∀ k, entry_of b k = entry_of a k) as Ee.
  { intros k. unfold entry_of. rewrite E. destruct (members_of a); [|done]. cbn [mbind option_bind]. by rewrite Hg. }
  split_and!; [|done|done|].
  - split; intros *; rewrite ?E, ?Ee, ?Hm; eauto.
  - intros k. unfold listed. rewrite E. destruct (members_of a) as [m|]; [|done]. cbn [mbind option_bind]. unfold member_at.
    destruct (us_unhex k); [|done]. cbn [mbind option_bind]. rewrite Hg. destruct (get_ok a m k) as [x|]; [|done]. cbn [mbind option_bind].
    unfold string_at, int_at. by rewrite !Hg.
Qed.

(** Enrolling a device always succeeds, keeps the shape every device reads, and
    lists the device under its key with its petname and its stamp (cut to what
    the document can hold); every other member, and none but them, is listed as
    before.  Enrolling again rewrites the entry in place. *)
Theorem add_member_lists key pn t d : length key = 32%nat → us_ok (read d) → ∃ d', add_member (C := C) key pn t d = Ok d' ∧
  us_ok (read d') ∧ listed (read d') (hex key) = Some (mkMember key pn (unstamp (stamp t))) ∧
  (∀ k, k ≠ hex key → listed (read d') k = listed (read d) k) ∧
  ∀ x, x ∈ members d' ↔ x = mkMember key pn (unstamp (stamp t)) ∨ ∃ k, k ≠ hex key ∧ listed (read d) k = Some x.
Proof.
  intros Hlen Hok. set (a := read d) in *.
  destruct (root_child a Hok) as (a1 & m & E1 & Hok1 & Hm1 & Hl1 & _).
  destruct (entry_child a1 m (hex key) Hok1 Hm1) as (a2 & e & E2 & Hok2 & Hm2 & He2 & Hl2).
  destruct (put_field a2 m (hex key) e PETNAME (Str pn) Hok2 Hm2 He2) as (a3 & x3 & E3 & Hok3 & Hm3 & He3 & Hg3 & _ & Hl3).
  destruct (put_field a3 m (hex key) e ENROLLED (Int (stamp t)) Hok3 Hm3 He3) as (a4 & x4 & E4 & Hok4 & Hm4 & He4 & Hg4 & Hk4 & Hl4).
  destruct (transact_view (λ a, '(a, ms) ← child a ROOT MEMBERS; '(a, entry) ← child a ms (hex key);
    a ← put a entry PETNAME (Str pn); put a entry ENROLLED (Int (stamp t))) d a4) as (d' & Hd & Hv1 & Hv2 & _).
  { fold (read d). fold a. rewrite E1. cbn [mbind result_bind]. rewrite E2. cbn [mbind result_bind]. rewrite E3. cbn [mbind result_bind]. exact E4. }
  destruct (us_ok_view a4 (read d') Hok4 Hv1 Hv2) as (Hok' & _ & _ & Hl').
  assert (∀ k, k ≠ hex key → listed (read d') k = listed a k) as Hother.
  { intros k Hk. by rewrite Hl', Hl4, Hl3, Hl2, Hl1. }
  assert (listed (read d') (hex key) = Some (mkMember key pn (unstamp (stamp t)))) as Hself.
  { rewrite Hl'. unfold listed. rewrite Hm4. cbn [mbind option_bind]. unfold member_at. rewrite us_unhex_hex by done. cbn [mbind option_bind].
    unfold entry_of in He4. rewrite Hm4 in He4. cbn [mbind option_bind] in He4. apply fmap_Some in He4 as (y & -> & ->). cbn [mbind option_bind].
    unfold string_at, int_at. rewrite Hg4, Hk4, Hg3 by done. done. }
  exists d'. split_and!; [exact Hd|done|done|done|]. intros x. rewrite members_listed by done. split.
  - intros (k & Hx). destruct (decide (k = hex key)) as [->|Hk]; [left; congruence|right; exists k; by rewrite <- Hother].
  - intros [->|(k & Hk & Hx)]; [by eexists|]. exists k. by rewrite Hother.
Qed.

(** A fresh document has the shape, and no member. *)
Lemma us_ok_none a : get_all a ROOT MEMBERS = [] → us_ok a.
Proof.
  intros Hn. assert (members_of a = None) as E by (unfold members_of; by rewrite (get_ok_none a ROOT MEMBERS (root_map a) Hn)).
  assert (∀ k, entry_of a k = None) as Ee by (intros k; unfold entry_of; by rewrite E).
  split; intros *; rewrite ?E, ?Ee; done.
Qed.

(** A group is adopted only when it was read, and holds both the joining device
    and the one that ran the ceremony. *)
Theorem adopted_group_holds_both w seed me adder d : us_adopt (C := C) w seed me adder = Ok d →
  (∃ a, load (C := C) w = Ok a ∧ doc d = set_actor (C := C) (us_actor seed) a ∧ pending d = []) ∧
  (∃ x, x ∈ members d ∧ m_key x = me) ∧ ∃ y, y ∈ members d ∧ m_key y = adder.
Proof.
  assert (∀ l k, has l k = true → ∃ x, x ∈ l ∧ m_key x = k) as Hhas.
  { intros l k (x & Hx%list_elem_of_In & E%bool_decide_eq_true)%existsb_exists. by exists x. }
  unfold us_adopt, try_load. destruct (load w) as [a|]; [|done]. cbn [mbind result_bind map_err].
  destruct (has _ me) eqn:H1; [|done]. destruct (has _ adder) eqn:H2; [|done]. intros [= <-].
  split_and!; [by exists a|by apply Hhas|by apply Hhas].
Qed.

(** ** Registers *)
Lemma greatest_from (m : option RegisterValue) (l : list RegisterValue) : match foldl (λ m v, match m with
    | None => Some v
    | Some w => if bool_decide (key_le w v) then Some v else Some w
    end) m l with
  | None => l = [] ∧ m = None
  | Some v => (v ∈ l ∨ m = Some v) ∧ ∀ w, w ∈ l ∨ m = Some w → key_le w v
  end.
Proof.
  assert (∀ v : RegisterValue, key_le v v) as Hrefl by (intros v; by destruct (total key_le v v)).
  revert m. induction l as [|x l IH]; intros m; cbn [foldl].
  { destruct m as [v|]; [|done]. split; [by right|]. intros w [Hw%elem_of_nil|[= ->]]; [done|apply Hrefl]. }
  specialize (IH (match m with None => Some x | Some w => if bool_decide (key_le w x) then Some x else Some w end)).
  destruct (foldl _ _ l) as [v|]; [|by destruct IH as [_ IH]; destruct m; [case_bool_decide|]].
  destruct IH as [Hin Hmax]. split.
  - destruct Hin as [Hin|Hin]; [left; set_solver|]. destruct m as [w|]; [case_bool_decide|]; injection Hin as <-; set_solver.
  - intros w [[->|Hw]%elem_of_cons|Hw].
    + destruct m as [u|]; [case_bool_decide as Hu|]; [by apply Hmax; right| |by apply Hmax; right].
      destruct (total key_le x u) as [Hx|Hx]; [|done]. etrans; [exact Hx|]. apply Hmax. by right.
    + apply Hmax. by left.
    + destruct m as [u|]; [|done]. injection Hw as ->. case_bool_decide as Hu; [|apply Hmax; by right].
      etrans; [exact Hu|]. apply Hmax. by right.
Qed.
Lemma greatest_spec l : match greatest l with
  | None => l = []
  | Some v => v ∈ l ∧ ∀ w, w ∈ l → key_le w v
  end.
Proof.
  pose proof (greatest_from None l) as Hg. unfold greatest. destruct (foldl _ _ l) as [v|]; [|by apply Hg].
  destruct Hg as [[Hin|] Hmax]; [|done]. auto.
Qed.
Lemma nibble_digit c x : nibble c = Some x → 0 <= x < 16 ∧ c = hex_digit x.
Proof. by destruct c; try discriminate; intros [= <-]. Qed.
Lemma hex_pair x y : 0 <= x < 16 → 0 <= y < 16 → hex_byte (byte_of (Z.lor (Z.shiftl x 4) y)) = [hex_digit x; hex_digit y].
Proof.
  intros Hx Hy. assert (forallb (λ x, forallb (λ y, bool_decide (hex_byte (byte_of (Z.lor (Z.shiftl x 4) y)) = [hex_digit x; hex_digit y]))
    (seqZ 0 16)) (seqZ 0 16) = true) as Hall by (vm_compute; reflexivity).
  rewrite forallb_forall in Hall. specialize (Hall x ltac:(apply list_elem_of_In, elem_of_seqZ; lia)).
  rewrite forallb_forall in Hall. specialize (Hall y ltac:(apply list_elem_of_In, elem_of_seqZ; lia)).
  by apply bool_decide_eq_true in Hall.
Qed.
Lemma decode_nibbles l r : decode_pairs nibble_pair l = Some r → l = hex_bytes r.
Proof.
  revert r. induction l as [l IH] using (induction_ltof1 _ (@length byte)); unfold ltof in IH.
  intros r. destruct l as [|x [|y l]]; simpl; intros Hl; simplify_eq; [done|].
  apply bind_Some in Hl as (z & Hz & Hl). apply bind_Some in Hl as (r' & Hr & [= <-]).
  apply bind_Some in Hz as (u & [Hu ->]%nibble_digit & Hz). apply bind_Some in Hz as (w & [Hw ->]%nibble_digit & [= <-]).
  change (hex_bytes (?c :: r')) with (hex_byte c ++ hex_bytes r'). rewrite hex_pair by done.
  rewrite (IH l ltac:(simpl; lia) r' Hr). done.
Qed.
Lemma unhex12_canonical s w : unhex12 s = Some w → s = hex w ∧ length w = 12%nat.
Proof.
  unfold unhex12. destruct (decide _) as [Hl|]; [|done]. intros Hb. pose proof (decode_pairs_length _ _ _ Hb). split; [|lia].
  apply decode_nibbles in Hb. apply (f_equal str_of) in Hb. by rewrite str_of_as_bytes in Hb.
Qed.
Lemma take_register_lookup d m k slot : length slot = 12%nat → let key := OPAQUE_SLOT_PREFIX +:+ hex slot in
  take_register d m k !! slot =
  if decide (k = key) then match greatest (decoded d key) with Some w => Some w | None => m !! slot end else m !! slot.
Proof.
  intros Hs key. unfold take_register. destruct (decide (k = key)) as [->|Hne].
  - unfold key at 1. rewrite str_strip_app. cbn [mbind option_bind]. rewrite unhex12_hex by done.
    destruct (greatest (decoded d key)); [|done]. apply lookup_insert_eq.
  - destruct (str_strip OPAQUE_SLOT_PREFIX k ≫= unhex12) as [slot'|] eqn:E; [|done]. destruct (greatest (decoded d k)); [|done].
    apply lookup_insert_ne. intros ->. apply bind_Some in E as (rest & ->%str_strip_Some & [-> _]%unhex12_canonical). done.
Qed.
Lemma registers_fold d l m slot : length slot = 12%nat → let key := OPAQUE_SLOT_PREFIX +:+ hex slot in
  foldl (take_register d) m l !! slot =
  if decide (key ∈ l) then match greatest (decoded d key) with Some w => Some w | None => m !! slot end else m !! slot.
Proof.
  intros Hs key. revert m. induction l as [|k l IH]; intros m; cbn [foldl]; [by rewrite decide_False by (by intros ?%elem_of_nil)|].
  rewrite IH, take_register_lookup by done. fold key.
  destruct (decide (key ∈ l)), (decide (k = key)), (decide (key ∈ k :: l)); try done; try (by destruct (greatest _)); set_solver.
Qed.
Lemma opaque_lookup d slot : length slot = 12%nat →
  opaque_registers d !! slot = greatest (decoded d (OPAQUE_SLOT_PREFIX +:+ hex slot)).
Proof.
  intros Hs. unfold opaque_registers. rewrite registers_fold by done. rewrite lookup_empty. case_decide as Hk; [by destruct (greatest _)|].
  rewrite elem_of_root_keys in Hk. apply dec_stable in Hk. unfold values in Hk. apply fmap_nil_inv in Hk.
  unfold decoded. by rewrite Hk.
Qed.

(** The current value of a slot is the greatest of the concurrent values its
    register decodes to: it is one of them and no other exceeds it, so it does
    not depend on the order they arrived in.  No value, or none that decodes, is
    no current value. *)
Theorem opaque_register_settled d slot : length slot = 12%nat →
  match opaque_registers d !! slot with
  | Some v => v ∈ decoded d (OPAQUE_SLOT_PREFIX +:+ hex slot) ∧
      ∀ w, w ∈ decoded d (OPAQUE_SLOT_PREFIX +:+ hex slot) → key_le w v
  | None => decoded d (OPAQUE_SLOT_PREFIX +:+ hex slot) = []
  end.
Proof. intros Hs. rewrite opaque_lookup by done. apply greatest_spec. Qed.

(** Setting a register replaces every concurrent value of its slot by the new
    one, and no other slot changes. *)
Theorem set_opaque_register_sets slot v d : register_ok v → ∃ d', set_opaque_register (C := C) slot v d = Ok d' ∧
  ∀ s, length s = 12%nat → opaque_registers d' !! s = if decide (s = slot_hash slot) then Some v else opaque_registers d !! s.
Proof.
  intros Hv. set (k := OPAQUE_SLOT_PREFIX +:+ hex (slot_hash slot)).
  destruct (tx_puts [(k, Bytes (RegisterValue_encode v))] d ltac:(by apply NoDup_singleton)) as (d' & Hd & Hin & Hout).
  assert (set_opaque_register (C := C) slot v d = Ok d') as Hset.
  { unfold tx in Hd. unfold set_opaque_register. fold k.
    assert (transact (C := C) (puts [(k, Bytes (RegisterValue_encode v))]) d = transact (C := C) (λ a, put a ROOT k (Bytes (RegisterValue_encode v))) d) as E.
    { unfold transact. cbn [puts]. by destruct (put _ _ _ _). }
    rewrite E in Hd. destruct (transact _ d); congruence. }
  exists d'. split; [exact Hset|]. intros s Hs. rewrite !opaque_lookup by done. destruct (decide (s = slot_hash slot)) as [->|Hne].
  - fold k. specialize (Hin k (Bytes (RegisterValue_encode v)) ltac:(by apply list_elem_of_singleton)).
    unfold values in Hin. unfold decoded. destruct (get_all (read d') ROOT k) as [|[x o] []]; try done. injection Hin as ->.
    cbn [omap list_omap fst to_bytes mbind option_bind]. rewrite RegisterValue_decode_encode by done. done.
  - destruct (Hout (OPAQUE_SLOT_PREFIX +:+ hex s)) as [E _].
    { intros E%list_elem_of_singleton. apply Hne. cbn [fst] in E. unfold k in E. apply (inj _) in E.
      apply (f_equal unhex12) in E. rewrite !unhex12_hex in E by (done || apply length_slot_hash). congruence. }
    unfold decoded. by rewrite E.
Qed.
End Facts.

(** ** A group of two *)
Module Concrete.
Import Crypto.Toy.
#[local] Existing Instances History.Toy.automerge History.Toy.laws History.Toy.graph toy_commit.
Abbreviation doc := (Document History.Toy.adoc).
Definition founder : bytes := replicate 32 (byte_of 3).
Definition phone : bytes := replicate 32 (byte_of 4).
Definition us0 : doc := us_empty (C := nat * nat) founder.
Definition alone : doc := match add_member (C := nat * nat) founder "laptop" 10 us0 with Ok d => d | Err _ => us0 end.
Lemma us0_ok : us_ok (read us0).
Proof. apply us_ok_none. vm_compute. reflexivity. Qed.
Lemma add_member_lists_witness : us_ok (read us0) ∧
  ∃ d, add_member (C := nat * nat) founder "laptop" 10 us0 = Ok d ∧ us_ok (read d) ∧ mkMember founder "laptop" 10 ∈ members d.
Proof.
  split; [exact us0_ok|].
  destruct (add_member_lists (C := nat * nat) founder "laptop" 10 us0) as (d & Hd & Hok & _ & _ & Hm); [reflexivity|exact us0_ok|].
  exists d. split; [exact Hd|]. split; [exact Hok|]. apply Hm. left. reflexivity.
Defined.
Definition live : RegisterValue := mkRegister 4 (replicate 16 (byte_of 2)) (Some GroupSealed).
Definition dead : RegisterValue := mkRegister 5 (replicate 16 (byte_of 1)) None.
(** Two devices wrote the slot apart; both values are held. *)
Definition raced : doc :=
  mkDocument (History.Toy.mkADoc
    (Automerge.Toy.set Automerge.Toy.empty 0 (OPAQUE_SLOT_PREFIX +:+ hex (slot_hash "mail"))
       [(Scalar (Bytes (RegisterValue_encode live)), 0%nat); (Scalar (Bytes (RegisterValue_encode dead)), 0%nat)])
    [] [] false) [] ∅ [].
Lemma opaque_register_settled_witness : opaque_register raced "mail" = Some dead ∧
  ∀ w, w ∈ decoded raced (OPAQUE_SLOT_PREFIX +:+ hex (slot_hash "mail")) → key_le w dead.
Proof.
  assert (opaque_register raced "mail" = Some dead) as E by (vm_compute; reflexivity).
  pose proof (opaque_register_settled raced (slot_hash "mail") (length_slot_hash "mail")) as Hs.
  split; [exact E|]. unfold opaque_register in E. rewrite E in Hs. exact (proj2 Hs).
Defined.
Lemma set_opaque_register_sets_witness : ∃ d, set_opaque_register (C := nat * nat) "mail" dead us0 = Ok d ∧
  opaque_registers d !! slot_hash "mail" = Some dead.
Proof.
  destruct (set_opaque_register_sets (C := nat * nat) "mail" dead us0) as (d & Hd & Hs); [by split; [vm_compute|]|].
  exists d. split; [exact Hd|]. rewrite (Hs (slot_hash "mail") (length_slot_hash "mail")). by rewrite decide_True.
Defined.
Definition both : doc := match add_member (C := nat * nat) phone "phone" 20 alone with Ok d => d | Err _ => alone end.
End Concrete.
