(* ===== verification/VisorModel.v ===== *)
(** * The visor's own document ([runtime/crates/visor-model/src/lib.rs])

    The user's route key and install ids, the sharing records and the
    personalization, at the root of one automerge document; and the operations
    the kernel applies to it. *)
From S2P Require Import Prelude BTree Text Crypto Automerge History Registers.

Definition VISOR_APP : string := "polyvisor:visor".
Definition ROUTE_KEY : string := "route-key".
Definition INSTALL_PREFIX : string := "install:".
Definition HUE : string := "identity:hue".
Definition USER_PREFIX : string := "user:".
Definition APP_PREFIX : string := "app:".
Definition SHARE_PROMPT_PREFIX : string := "share:prompt:".
Definition SHARE_OUT_PREFIX : string := "share:out:".
Definition SHARE_INBOX_PREFIX : string := "share:inbox:".
Definition SHARE_INSTANCE_PREFIX : string := "share:instance:".
Definition PERSONAL_INSTANCE_PREFIX : string := "share:personal:".
Definition APP : string := "app".

Record SharePromptRecord := mkPrompt { p_id : string; p_partition : string; p_app : string; p_label : string }.
Record ShareOutgoingRecord := mkOutgoing {
  o_id : string; o_label : string; recipient : string; o_edit : bool; o_state : string; detail : string;
  endpoint : string; o_envelope : bytes; rebuild_body : bytes; recipient_device : bytes;
}.
Record ShareInboxRecord := mkInbox {
  i_id : string; i_label : string; sender : string; i_app : string; i_edit : bool; i_envelope : bytes;
  adopted_instance : option string; i_endpoint : string; i_device : bytes;
}.
Record ShareInstanceRecord := mkInstance {
  n_partition : string; n_app : string; n_label : string; n_edit : bool; n_endpoint : string; n_device : bytes;
}.

(** [serde_json] of one type: [to_string] may fail, [from_str] reads what it writes. *)
Class SerdeJson (T : Type) := {
  to_string : T → result string string;
  from_str : string → option T;
  from_to x s : to_string x = Ok s → from_str s = Some x;
}.

Definition unhex_text (s : string) : option string := visor_unhex s ≫= from_utf8.

Section Visor.
Context {ShaI : Sha256} {A Oid C : Type} {AM : Automerge A Oid} {CG : ChangeGraph A C}.
Abbreviation Document := (Document A).
Abbreviation op := (Registers.op (A := A)).

(** ** Records *)
Section Records.
Context {T : Type} {JsonT : SerdeJson T}.
Definition put_record (key : string) (x : T) : op unit :=
  s ← lift (to_string x); tx (C := C) (λ a, put a ROOT key (Str s)).
Definition record (d : Document) (key : string) : option T := root_string d key ≫= from_str.
Definition records (d : Document) (prefix : string) : list T :=
  omap (record d) (filter (λ k, starts_with k prefix = true) (root_keys d)).
End Records.
Definition remove_record (key : string) : op unit := tx (C := C) (λ a, delete a ROOT key).

Context {JP : SerdeJson SharePromptRecord} {JO : SerdeJson ShareOutgoingRecord} {JI : SerdeJson ShareInboxRecord}
  {JN : SerdeJson ShareInstanceRecord} {JS : SerdeJson string}.

Definition queue_share_prompt (v : SharePromptRecord) : op unit := put_record (SHARE_PROMPT_PREFIX +:+ p_id v) v.
Definition share_prompt (d : Document) (id : string) : option SharePromptRecord := record d (SHARE_PROMPT_PREFIX +:+ id).
Definition share_prompts (d : Document) : list SharePromptRecord := records d SHARE_PROMPT_PREFIX.
Definition remove_share_prompt (id : string) : op unit := remove_record (SHARE_PROMPT_PREFIX +:+ id).
Definition finish_share_prompt (id : string) (v : ShareOutgoingRecord) : op unit :=
  found ← reading (λ d, share_prompt d id);
  prompt ← lift (ok_or "share prompt disappeared"%string found);
  let v := mkOutgoing id (p_label prompt) (recipient v) (o_edit v) (o_state v) (detail v) (endpoint v) (o_envelope v)
             (rebuild_body v) (recipient_device v) in
  _ ← put_record (SHARE_OUT_PREFIX +:+ id) v;
  remove_share_prompt id.
Definition share_outgoing (d : Document) : list ShareOutgoingRecord := records d SHARE_OUT_PREFIX.
Definition share_outgoing_record (d : Document) (id : string) : option ShareOutgoingRecord := record d (SHARE_OUT_PREFIX +:+ id).
Definition outgoing_disappeared : string := "outgoing invitation disappeared".
Definition with_delivery (v : ShareOutgoingRecord) (state why : string) : ShareOutgoingRecord :=
  mkOutgoing (o_id v) (o_label v) (recipient v) (o_edit v) state why (endpoint v) (o_envelope v) (rebuild_body v) (recipient_device v).
Definition delivery_state (delivered : bool) : string := if delivered then "delivered" else "failed".
Definition not_checkpointed : string := "the recipient did not checkpoint the invitation".
Definition set_share_delivery_detail (id : string) (delivered : bool) (why : string) : op unit :=
  found ← reading (λ d, share_outgoing_record d id);
  v ← lift (ok_or outgoing_disappeared found);
  put_record (SHARE_OUT_PREFIX +:+ id) (with_delivery v (delivery_state delivered) why).
Definition set_share_delivery (id : string) (delivered : bool) : op unit :=
  found ← reading (λ d, share_outgoing_record d id);
  v ← lift (ok_or outgoing_disappeared found);
  put_record (SHARE_OUT_PREFIX +:+ id)
    (with_delivery v (delivery_state delivered) (if delivered then EmptyString else not_checkpointed)).
Definition set_share_envelope (id : string) (envelope : bytes) : op unit :=
  found ← reading (λ d, share_outgoing_record d id);
  v ← lift (ok_or outgoing_disappeared found);
  put_record (SHARE_OUT_PREFIX +:+ id)
    (mkOutgoing (o_id v) (o_label v) (recipient v) (o_edit v) "queued" EmptyString (endpoint v) envelope
       (rebuild_body v) (recipient_device v)).
Definition share_inbox_record (d : Document) (id : string) : option ShareInboxRecord := record d (SHARE_INBOX_PREFIX +:+ id).
Definition receive_share_invitation (v : ShareInboxRecord) : op unit :=
  known ← reading (λ d, share_inbox_record d (i_id v));
  match known with Some _ => mret () | None => put_record (SHARE_INBOX_PREFIX +:+ i_id v) v end.
Definition share_inbox (d : Document) : list ShareInboxRecord := records d SHARE_INBOX_PREFIX.
Definition remove_share_invitation (id : string) : op unit := remove_record (SHARE_INBOX_PREFIX +:+ id).
Definition adopt_share_invitation (id instance partition app : string) : op unit :=
  found ← reading (λ d, share_inbox_record d id);
  v ← lift (ok_or "invitation disappeared"%string found);
  _ ← put_record (SHARE_INBOX_PREFIX +:+ id)
        (mkInbox (i_id v) (i_label v) (sender v) (i_app v) (i_edit v) (i_envelope v) (Some instance) (i_endpoint v) (i_device v));
  put_record (SHARE_INSTANCE_PREFIX +:+ instance)
    (mkInstance partition app (i_label v) (i_edit v) (i_endpoint v) (i_device v)).
Definition share_instance (d : Document) (id : string) : option ShareInstanceRecord := record d (SHARE_INSTANCE_PREFIX +:+ id).
Definition share_instances (d : Document) : list (string * ShareInstanceRecord) :=
  omap (λ k, id ← str_strip SHARE_INSTANCE_PREFIX k; r ← record d k; Some (id, r)) (root_keys d).
(** [Iterator::min] *)
Definition smallest (l : list string) : option string := hd_error (sort_dedup l).
Definition instance_for_partition (d : Document) (partition : string) : option string :=
  smallest (omap (λ p, if bool_decide (n_partition p.2 = partition) then Some p.1 else None) (share_instances d)).
Definition label_for_partition (d : Document) (partition : string) : option string :=
  hd_error (omap (λ p, if bool_decide (n_partition p.2 = partition) then Some (n_label p.2) else None) (share_instances d)).
Definition share_peer_hints (d : Document) : list (bytes * string) :=
  sort_dedup (((λ r, (n_device r, n_endpoint r)) <$> records (T := ShareInstanceRecord) d SHARE_INSTANCE_PREFIX) ++
              ((λ r, (recipient_device r, endpoint r)) <$> records (T := ShareOutgoingRecord) d SHARE_OUT_PREFIX)).
Definition personal_partition (d : Document) (app : string) : option string :=
  record d (PERSONAL_INSTANCE_PREFIX +:+ hex (as_bytes app)).
Definition set_personal_partition (app partition : string) : op unit :=
  put_record (PERSONAL_INSTANCE_PREFIX +:+ hex (as_bytes app)) partition.

(** ** The route key and the installs *)
Definition digest (domain : bytes) (parts : list bytes) : bytes := sha256 (domain ++ mjoin parts).
Definition route_key (d : Document) : option bytes :=
  text ← root_string d ROUTE_KEY; b ← visor_unhex text; try_array 32 b.
Definition set_route_key (key : bytes) : op unit := tx (C := C) (λ a, put a ROOT ROUTE_KEY (Str (hex key))).
Definition route_key_or_create (device entropy : bytes) : op (bytes * bool) :=
  found ← reading route_key;
  match found with
  | Some key => mret (key, false)
  | None =>
    let key := digest (as_bytes "polyvisor:route-key") [device; entropy] in
    _ ← set_route_key key; mret (key, true)
  end.

Definition string_in (a : A) (o : Oid) (k : string) : option string := get_ok a o k ≫= λ x, to_str x.1.
Definition install_at (a : A) (key : string) : option (bytes * string) :=
  if bool_decide (key = ROUTE_KEY) then None else
  id ← (str_strip INSTALL_PREFIX key ≫= visor_unhex) ≫= try_array 16;
  entry ← get_ok a ROOT key;
  app ← string_in a entry.2 APP;
  Some (id, app).
Definition installs (d : Document) : list (bytes * string) := merge_sort key_le (omap (install_at (read d)) (root_keys d)).
Definition add_install (id : bytes) (app : string) : op unit := tx (C := C) (λ a,
  '(a, entry) ← put_object a ROOT (INSTALL_PREFIX +:+ hex id);
  put a entry APP (Str app)).
Definition install_of (l : list (bytes * string)) (app : string) : option bytes :=
  fst <$> hd_error (filter (λ p, p.2 = app) l).
Definition install_or_create (device entropy : bytes) (app : string) : op (bytes * bool) :=
  found ← reading (λ d, install_of (installs d) app);
  match found with
  | Some id => mret (id, false)
  | None =>
    let id := take 16 (digest (as_bytes "polyvisor:install") [device; entropy; as_bytes app]) in
    _ ← add_install id app; mret (id, true)
  end.

(** ** Personalization *)
Record Personalization := mkPersonalization {
  hue : option Z;
  user : gmap string string;
  apps : gmap string (gmap string string);
}.
Definition read_hue (d : Document) : option Z :=
  z ← get_ok (read d) ROOT HUE ≫= λ x, to_i64 x.1;
  if (0 <=? z) && (z <? 360) then Some z else None.
Definition split_at_colon (s : string) : option (string * string) :=
  (fix go s := match s with
    | EmptyString => None
    | String c s => if Ascii.eqb c (Ascii.ascii_of_byte Byte.x3a) then Some (EmptyString, s)
                    else '(a, b) ← go s; Some (String c a, b)
    end) s.
Definition take_field (d : Document) (p : Personalization) (key : string) : Personalization :=
  let value := root_string d key in
  match str_strip USER_PREFIX key ≫= unhex_text, value with
  | Some field, Some v => mkPersonalization (hue p) (<[field := v]> (user p)) (apps p)
  | _, _ =>
    match (str_strip APP_PREFIX key ≫= split_at_colon) ≫= λ af, a ← unhex_text af.1; f ← unhex_text af.2; Some (a, f), value with
    | Some (app, field), Some v =>
      mkPersonalization (hue p) (user p) (<[app := <[field := v]> (default ∅ (apps p !! app))]> (apps p))
    | _, _ => p
    end
  end.
Definition personalization (d : Document) : Personalization :=
  foldl (take_field d) (mkPersonalization (read_hue d) ∅ ∅) (root_keys d).
Definition field_key (app : option string) (field : string) : string :=
  match app with
  | Some app => APP_PREFIX +:+ hex (as_bytes app) +:+ ":" +:+ hex (as_bytes field)
  | None => USER_PREFIX +:+ hex (as_bytes field)
  end.
Definition set_value (key : string) (v : option scalar) (a : A) : result string A :=
  match v with Some v => put a ROOT key v | None => delete a ROOT key end.
Fixpoint set_fields (l : list (option string * string * option string)) (a : A) : result string A :=
  match l with
  | [] => Ok a
  | (app, field, v) :: l => a ← set_value (field_key app field) (Str <$> v) a; set_fields l a
  end.
Definition set_personalization (hue : option (option Z)) (fields : list (option string * string * option string)) : op unit :=
  tx (C := C) (λ a,
    a ← match hue with Some v => set_value HUE (Int <$> v) a | None => Ok a end;
    set_fields fields a).

(** Pairing: the established user's document and settings win. *)
Definition adopted_fields (before wanted : Personalization) : list (option string * string * option string) :=
  ((λ k, (None, k, user wanted !! k)) <$> btree_elems (dom (user before) ∪ dom (user wanted))) ++
  (btree_elems (dom (apps before) ∪ dom (apps wanted)) ≫= λ app,
     match apps wanted !! app with
     | None => []
     | Some new =>
       (λ k, (Some app, k, new !! k)) <$> btree_elems (dom (default ∅ (apps before !! app)) ∪ dom new)
     end).
Definition personal_keys (d : Document) : list string := filter (λ k, starts_with k PERSONAL_INSTANCE_PREFIX = true) (root_keys d).
Fixpoint rebind (from : Document) (l : list string) (a : A) : result string A :=
  match l with
  | [] => Ok a
  | key :: l =>
    v ← ok_or "the established personal binding is malformed"%string (root_string from key);
    a ← put a ROOT key (Str v);
    rebind from l a
  end.
Definition incomplete : string := "that device sent incomplete personalization".
Definition visor_adopt (from : Document) : op unit :=
  let wanted := personalization from in
  if bool_decide (hue wanted = None) || bool_decide (default EmptyString (user wanted !! "petname"%string) = EmptyString)
  then fail incomplete else
  before ← reading personalization;
  _ ← merge_snapshot (C := C) (save (C := C) (doc from));
  before_personal ← reading personal_keys;
  let wanted_personal := sort_dedup (personal_keys from) in
  _ ← tx (C := C) (λ a,
        a ← deletes (filter (λ k, k ∉ wanted_personal) before_personal) a;
        rebind from wanted_personal a);
  set_personalization (Some (hue wanted)) (adopted_fields before wanted).
End Visor.
