(* ===== verification/VisorFacts.v ===== *)
(** * What the visor's document promises

    The share records on every branch, halfway failures included; and that the
    names bookmarks are written against, once given, stay. *)
From S2P Require Import Prelude BTree Text Crypto Automerge History Registers VisorModel.

Section Facts.
Context {ShaI : Sha256} {A Oid C : Type} {AM : Automerge A Oid} {CG : ChangeGraph A C} {ML : MapLaws A Oid} {CV : CommitView A Oid C}.
Implicit Types d : Document A.

(** ** Records *)
Lemma put_record_spec {T} {JsonT : SerdeJson T} key (x : T) d d' r : put_record (C := C) key x d = (d', r) →
  match r with
  | Ok _ => record d' key = Some x ∧ ∀ k, k ≠ key → same_register d d' k
  | Err _ => d' = d
  end.
Proof.
  unfold put_record. rewrite bind_lift. destruct (to_string x) as [s|] eqn:Hs; [|by intros [= <- <-]].
  destruct (tx_puts [(key, Str s)] d ltac:(by apply NoDup_singleton)) as (d1 & Hd & Hin & Hout).
  assert (tx (C := C) (λ a, put a ROOT key (Str s)) d = tx (C := C) (puts [(key, Str s)]) d) as ->.
  { unfold tx, transact. cbn [puts]. by destruct (put _ _ _ _). }
  rewrite Hd. intros [= <- <-]. split.
  - unfold record. rewrite (values_string d1 key s) by (apply Hin; by apply list_elem_of_singleton). by apply from_to.
  - intros k Hk. apply Hout. by intros ?%list_elem_of_singleton.
Qed.
Lemma remove_record_spec key d : ∃ d', remove_record (C := C) key d = (d', Ok ()) ∧ values d' key = [] ∧
  ∀ k, k ≠ key → same_register d d' k.
Proof.
  destruct (tx_deletes [key] d) as (d' & Hd & Hin & Hout). exists d'. split_and!.
  - rewrite <- Hd. unfold remove_record, tx, transact. cbn [deletes]. by destruct (delete _ _ _).
  - apply Hin. by apply list_elem_of_singleton.
  - intros k Hk. apply Hout. by intros ?%list_elem_of_singleton.
Qed.
Lemma record_same {T} {JsonT : SerdeJson T} d d' key : same_register d d' key → record (T := T) d' key = record d key.
Proof. intros Hs. unfold record. by rewrite (same_string _ _ _ Hs). Qed.
Lemma record_gone {T} {JsonT : SerdeJson T} d key : values d key = [] → record (T := T) d key = None.
Proof. intros Hv. unfold record. by rewrite (values_none _ _ Hv). Qed.

Section Sharing.
Context {JP : SerdeJson SharePromptRecord} {JO : SerdeJson ShareOutgoingRecord} {JI : SerdeJson ShareInboxRecord}
  {JN : SerdeJson ShareInstanceRecord}.

(** Finishing a prompt turns it into an outgoing invitation under the prompt's
    id and label and removes the prompt, touching nothing else; where there is
    no such prompt, or the record cannot be written, nothing changes. *)
Theorem finished_prompt_moves id v d d' r : finish_share_prompt (C := C) id v d = (d', r) →
  match r with
  | Ok _ => ∃ p, share_prompt d id = Some p ∧ share_prompt d' id = None ∧
      share_outgoing_record d' id = Some (mkOutgoing id (p_label p) (recipient v) (o_edit v) (o_state v) (detail v) (endpoint v)
        (o_envelope v) (rebuild_body v) (recipient_device v)) ∧
      ∀ k, k ≠ SHARE_OUT_PREFIX +:+ id → k ≠ SHARE_PROMPT_PREFIX +:+ id → same_register d d' k
  | Err _ => d' = d
  end.
Proof.
  unfold finish_share_prompt. rewrite bind_reading, bind_lift.
  destruct (share_prompt d id) as [p|] eqn:Hp; [|by intros [= <- <-]]. cbn [ok_or]. unfold mbind, op_bind.
  destruct (put_record _ _ d) as [d1 r1] eqn:Hput. apply put_record_spec in Hput. destruct r1 as [u|]; [|by intros [= <- <-]].
  destruct Hput as [Hrec Hs1]. destruct (remove_record_spec (SHARE_PROMPT_PREFIX +:+ id) d1) as (d2 & Hd2 & Hv2 & Hs2).
  unfold remove_share_prompt. rewrite Hd2. intros [= <- <-]. exists p. split_and!; [done|by apply record_gone| |].
  - unfold share_outgoing_record. rewrite (record_same d1 d2); [done|]. by apply Hs2.
  - intros k H1 H2. eapply same_trans; [by apply Hs1|by apply Hs2].
Qed.

(** Adopting an invitation marks it with its instance and binds the instance to
    the partition, with the sender's terms.  The two are written one after the
    other: when the second cannot be written the mark stays. *)
Theorem adopted_invitation_binds id inst partition app d d' r : adopt_share_invitation (C := C) id inst partition app d = (d', r) →
  match share_inbox_record d id with
  | None => d' = d ∧ is_ok r = false
  | Some v =>
    let marked := mkInbox (i_id v) (i_label v) (sender v) (i_app v) (i_edit v) (i_envelope v) (Some inst) (i_endpoint v) (i_device v) in
    match r with
    | Ok _ => share_inbox_record d' id = Some marked ∧
        share_instance d' inst = Some (mkInstance partition app (i_label v) (i_edit v) (i_endpoint v) (i_device v)) ∧
        ∀ k, k ≠ SHARE_INBOX_PREFIX +:+ id → k ≠ SHARE_INSTANCE_PREFIX +:+ inst → same_register d d' k
    | Err _ => d' = d ∨ (share_inbox_record d' id = Some marked ∧ ∀ k, k ≠ SHARE_INBOX_PREFIX +:+ id → same_register d d' k)
    end
  end.
Proof.
  unfold adopt_share_invitation. rewrite bind_reading, bind_lift.
  destruct (share_inbox_record d id) as [v|] eqn:Hv; [|by intros [= <- <-]]. cbn [ok_or]. unfold mbind, op_bind.
  destruct (put_record _ _ d) as [d1 r1] eqn:Hput1. apply put_record_spec in Hput1. destruct r1 as [u|]; [|intros [= <- <-]; by left].
  destruct Hput1 as [Hrec1 Hs1]. destruct (put_record _ _ d1) as [d2 r2] eqn:Hput2. apply put_record_spec in Hput2.
  intros [= <- <-]. destruct r2 as [u'|]; [|right; by subst d2]. destruct Hput2 as [Hrec2 Hs2].
  assert (SHARE_INBOX_PREFIX +:+ id ≠ SHARE_INSTANCE_PREFIX +:+ inst) as Hne by done.
  split_and!; [|done|].
  - unfold share_inbox_record. rewrite (record_same d1 d2); [done|]. by apply Hs2.
  - intros k H1 H2. eapply same_trans; [by apply Hs1|by apply Hs2].
Qed.
End Sharing.

(** ** The route key *)
(** A document has a route key after the first time it is asked for one, and
    from then on answers that one, whatever device asks and whatever entropy it
    brings; nothing else in the document changes. *)
Theorem route_key_stays device e d : ∃ d' key fresh, route_key_or_create (C := C) device e d = (d', Ok (key, fresh)) ∧
  route_key d' = Some key ∧ (if (fresh : bool) then route_key d = None else d' = d) ∧
  (∀ device' e', route_key_or_create (C := C) device' e' d' = (d', Ok (key, false))) ∧
  ∀ k, k ≠ ROUTE_KEY → same_register d d' k.
Proof.
  assert (∀ d key device e, route_key d = Some key → route_key_or_create (C := C) device e d = (d, Ok (key, false))) as Hhave.
  { intros d0 key device0 e0 Hk. unfold route_key_or_create. by rewrite bind_reading, Hk. }
  destruct (route_key d) as [key|] eqn:Hk.
  { exists d, key, false. split_and!; [by apply Hhave|done|done| |done]. intros device' e'. by apply Hhave. }
  unfold route_key_or_create. rewrite bind_reading, Hk. set (key := digest _ _).
  destruct (tx_puts [(ROUTE_KEY, Str (hex key))] d ltac:(by apply NoDup_singleton)) as (d' & Hd & Hin & Hout).
  assert (set_route_key (C := C) key d = (d', Ok ())) as Hset.
  { rewrite <- Hd. unfold set_route_key, tx, transact. cbn [puts]. by destruct (put _ _ _ _). }
  assert (route_key d' = Some key) as Hk'.
  { unfold route_key. rewrite (values_string d' ROUTE_KEY (hex key)) by (apply Hin; by apply list_elem_of_singleton).
    cbn [mbind option_bind]. rewrite visor_unhex_hex. cbn [mbind option_bind]. unfold try_array.
    by rewrite decide_True by apply length_sha256. }
  exists d', key, true. split_and!.
  - unfold mbind, op_bind. by rewrite Hset.
  - done.
  - done.
  - intros device' e'. by rewrite bind_reading, Hk'.
  - intros k Hne. apply Hout. by intros ?%list_elem_of_singleton.
Qed.

(** ** Installs *)
(** Every install entry is a map, which is what [add_install] writes. *)
Definition install_maps (a : A) : Prop := ∀ rest x, get_ok a ROOT (INSTALL_PREFIX +:+ rest) = Some x → is_map a x.2 = true.
(** The install key of an id. *)
Definition install_key (id : bytes) : string := INSTALL_PREFIX +:+ hex id.

Lemma elem_of_installs d p : p ∈ installs d ↔ ∃ k, install_at (read d) k = Some p.
Proof.
  unfold installs. rewrite merge_sort_Permutation, list_elem_of_omap. split; [by intros (k & _ & Hk); exists k|].
  intros (k & Hk). exists k. split; [|done]. unfold install_at in Hk. case_bool_decide; [done|].
  apply bind_Some in Hk as (id & _ & Hk). apply bind_Some in Hk as (x & Hx & _).
  apply (elem_of_keys _ _ _ (root_map _)). intros Hn. by rewrite (get_ok_none _ _ _ (root_map _) Hn) in Hx.
Qed.
Lemma install_of_first l app : match install_of l app with
  | Some id => (id, app) ∈ l
  | None => ∀ id, (id, app) ∉ l
  end.
Proof.
  unfold install_of. destruct (filter _ l) as [|[id a] l'] eqn:E; cbn.
  - intros id Hin. assert ((id, app) ∈ filter (λ p, p.2 = app) l) as Hf by by apply list_elem_of_filter.
    rewrite E in Hf. by apply elem_of_nil in Hf.
  - assert ((id, a) ∈ filter (λ p, p.2 = app) l) as Hf by (rewrite E; set_solver). by apply list_elem_of_filter in Hf as [<- ?].
Qed.
Lemma install_of_only l app id : (id, app) ∈ l → (∀ id', (id', app) ∈ l → id' = id) → install_of l app = Some id.
Proof.
  intros Hin Hu. pose proof (install_of_first l app) as Hf. destruct (install_of l app) as [id'|]; [|by destruct (Hf id)].
  by rewrite (Hu id').
Qed.
Lemma read_install a id app x : length id = 16%nat → get_ok a ROOT (install_key id) = Some x →
  string_in a x.2 APP = Some app → install_at a (install_key id) = Some (id, app).
Proof.
  intros Hl Hx Ha. unfold install_at. rewrite bool_decide_eq_false_2 by done. 
  assert (str_strip INSTALL_PREFIX (install_key id) = Some (hex id)) as -> by apply str_strip_app.
  cbn [mbind option_bind]. rewrite visor_unhex_hex. cbn [mbind option_bind]. unfold try_array. rewrite decide_True by done.
  cbn [mbind option_bind]. rewrite Hx. cbn [mbind option_bind]. by rewrite Ha.
Qed.
(** Adding an install: its key reads as the id and the app, and every other key as before. *)
Lemma add_install_spec id app d : length id = 16%nat → install_maps (read d) → ∃ d', add_install (C := C) id app d = (d', Ok ()) ∧
  install_maps (read d') ∧ install_at (read d') (install_key id) = Some (id, app) ∧
  ∀ k, k ≠ install_key id → install_at (read d') k = install_at (read d) k.
Proof.
  intros Hl Hmaps. set (a := read d) in *. set (key := install_key id).
  destruct (put_object_spec a ROOT key (root_map a)) as (b & x & Hp & Ho & Hx & Hn & Hb & He).
  destruct (put_spec b x APP (Str app) Hb) as (c & y & Hc & Hoc & Hy).
  assert (∀ o k, is_map a o = true → (o ≠ ROOT ∨ k ≠ key) → get_ok c o k = get_ok a o k) as Hframe.
  { intros o k Hm Hne. rewrite (get_ok_only b c x APP o k Hoc); [by apply (get_ok_only a b ROOT key)|by apply Ho|].
    left. intros ->. by rewrite Hn in Hm. }
  assert (is_map c ROOT = true) as Hroot by apply root_map.
  assert (get_ok c ROOT key = Some (Object, x)) as Hkey.
  { rewrite (get_ok_only b c x APP ROOT key Hoc); [|apply root_map|].
    - apply get_ok_one; [apply root_map|done].
    - left. intros E. rewrite <- E in Hn. by rewrite (root_map a) in Hn. }
  assert (get_ok c x APP = Some (Scalar (Str app), y)) as Happ by (apply get_ok_one; [by apply Hoc|done]).
  assert (string_in c x APP = Some app) as Hstr by (unfold string_in; by rewrite Happ).
  assert (install_maps c) as Hmc.
  { intros rest z Hz. destruct (decide (INSTALL_PREFIX +:+ rest = key)) as [E|Hne].
    - rewrite E, Hkey in Hz. injection Hz as <-. cbn [snd]. by apply Hoc.
    - rewrite Hframe in Hz by (apply root_map || by right). apply Hoc, Ho. by eapply Hmaps. }
  assert (∀ k, k ≠ key → install_at c k = install_at a k) as Hother.
  { intros k Hk. unfold install_at. case_bool_decide; [done|].
    destruct (str_strip INSTALL_PREFIX k) as [rest|] eqn:Es; [|done]. apply str_strip_Some in Es as ->.
    rewrite (Hframe ROOT (INSTALL_PREFIX +:+ rest)) by (apply root_map || by right).
    destruct (_ ≫= try_array 16) as [i|]; [|done]. cbn [mbind option_bind].
    destruct (get_ok a ROOT _) as [z|] eqn:Ez; [|done]. cbn [mbind option_bind]. unfold string_in.
    rewrite Hframe; [done|by eapply Hmaps|right; done]. }
  destruct (tx_view (λ a, '(a, entry) ← put_object a ROOT key; put a entry APP (Str app)) d c) as (d' & Hd & Hm' & Hg').
  { fold (read d). fold a. rewrite Hp. cbn [mbind result_bind]. exact Hc. }
  exists d'. split; [exact Hd|].
  assert (∀ k, install_at (read d') k = install_at c k) as Hsame.
  { intros k. unfold install_at, string_in. rewrite Hg'. case_bool_decide; [done|]. destruct (_ ≫= try_array 16); [|done].
    cbn [mbind option_bind]. destruct (get_ok c ROOT k) as [z|]; [|done]. cbn [mbind option_bind]. by rewrite Hg'. }
  split_and!.
  - intros rest z Hz. rewrite Hg' in Hz. rewrite Hm'. by eapply Hmc.
  - rewrite Hsame. by eapply read_install.
  - intros k Hk. by rewrite Hsame, Hother.
Qed.

(** An app has one install id once it has been asked for: the first request
    gives one it can be found by, every later request, from any device and with
    any entropy, gives the same, and the ids given to other apps keep reading. *)
Theorem install_id_stays device e app d : install_maps (read d) →
  ∃ d' id fresh, install_or_create (C := C) device e app d = (d', Ok (id, fresh)) ∧ install_maps (read d') ∧
  (id, app) ∈ installs d' ∧ (if (fresh : bool) then ∀ id', (id', app) ∉ installs d else d' = d) ∧
  (∀ device' e', install_or_create (C := C) device' e' app d' = (d', Ok (id, false))) ∧
  ∀ k, k ≠ install_key id → install_at (read d') k = install_at (read d) k.
Proof.
  intros Hmaps. assert (∀ d id device e, install_of (installs d) app = Some id → install_or_create (C := C) device e app d = (d, Ok (id, false))) as Hhave.
  { intros d0 id device0 e0 Hk. unfold install_or_create. by rewrite bind_reading, Hk. }
  pose proof (install_of_first (installs d) app) as Hfirst. destruct (install_of (installs d) app) as [id|] eqn:Hid.
  { exists d, id, false. split_and!; [by apply Hhave|done|done|done| |done]. intros device' e'. by apply Hhave. }
  unfold install_or_create at 1. rewrite bind_reading, Hid. set (id := take 16 (digest _ _)).
  assert (length id = 16%nat) as Hl by (unfold id, digest; rewrite length_take, length_sha256; done).
  destruct (add_install_spec id app d Hl Hmaps) as (d' & Hd & Hm' & Hself & Hother).
  assert ((id, app) ∈ installs d') as Hin by (apply elem_of_installs; by exists (install_key id)).
  exists d', id, true. split_and!; [|done|done|done| |done].
  - unfold mbind, op_bind. by rewrite Hd.
  - intros device' e'. apply Hhave. apply install_of_only; [done|]. intros id' (k & Hk)%elem_of_installs.
    destruct (decide (k = install_key id)) as [->|Hne]; [congruence|]. rewrite Hother in Hk by done.
    destruct (Hfirst id'). apply elem_of_installs. by exists k.
Qed.
End Facts.

(** ** Concrete documents *)
Module Concrete.
Import Crypto.Toy.
#[local] Existing Instances History.Toy.automerge History.Toy.laws History.Toy.graph toy_commit.
#[local] Instance prompt_dec : EqDecision SharePromptRecord.
Proof. solve_decision. Defined.
#[local] Instance outgoing_dec : EqDecision ShareOutgoingRecord.
Proof. solve_decision. Defined.
#[local] Instance inbox_dec : EqDecision ShareInboxRecord.
Proof. solve_decision. Defined.
#[local] Instance instance_dec : EqDecision ShareInstanceRecord.
Proof. solve_decision. Defined.
#[local] Program Instance prompt_countable : Countable SharePromptRecord :=
  inj_countable' (λ r, (p_id r, p_partition r, p_app r, p_label r)) (λ t, mkPrompt t.1.1.1 t.1.1.2 t.1.2 t.2) _.
Next Obligation. by intros []. Qed.
#[local] Program Instance outgoing_countable : Countable ShareOutgoingRecord :=
  inj_countable' (λ r, ((o_id r, o_label r, recipient r, o_edit r), (o_state r, detail r, endpoint r), (o_envelope r, rebuild_body r, recipient_device r)))
    (λ t, mkOutgoing t.1.1.1.1.1 t.1.1.1.1.2 t.1.1.1.2 t.1.1.2 t.1.2.1.1 t.1.2.1.2 t.1.2.2 t.2.1.1 t.2.1.2 t.2.2) _.
Next Obligation. by intros []. Qed.
#[local] Program Instance inbox_countable : Countable ShareInboxRecord :=
  inj_countable' (λ r, ((i_id r, i_label r, sender r, i_app r), (i_edit r, i_envelope r, adopted_instance r), (i_endpoint r, i_device r)))
    (λ t, mkInbox t.1.1.1.1.1 t.1.1.1.1.2 t.1.1.1.2 t.1.1.2 t.1.2.1.1 t.1.2.1.2 t.1.2.2 t.2.1 t.2.2) _.
Next Obligation. by intros []. Qed.
#[local] Program Instance instance_countable : Countable ShareInstanceRecord :=
  inj_countable' (λ r, ((n_partition r, n_app r, n_label r), (n_edit r, n_endpoint r, n_device r)))
    (λ t, mkInstance t.1.1.1 t.1.1.2 t.1.2 t.2.1.1 t.2.1.2 t.2.2) _.
Next Obligation. by intros []. Qed.
#[local] Program Instance toy_json `{Countable T} : SerdeJson T := {|
  to_string x := Ok (str_of (write_pos (countable.encode x)));
  from_str s := countable.decode (read_pos (as_bytes s));
|}.
Next Obligation. intros T ? ? x s [= <-]. by rewrite as_bytes_str_of, read_write, decode_encode. Qed.
Abbreviation doc := (Document History.Toy.adoc).
Definition visor0 : doc := History.empty (C := nat * nat) [byte_of 1] [].
Lemma visor0_maps : install_maps (read visor0).
Proof.
  intros rest x Hx. apply (get_ok_in _ _ _ _ (root_map _)) in Hx.
  assert (INSTALL_PREFIX +:+ rest ∈ keys (read visor0) ROOT) as Hk.
  { apply (elem_of_keys _ _ _ (root_map _)). intros E. rewrite E in Hx. by apply elem_of_nil in Hx. }
  vm_compute in Hk. by apply elem_of_nil in Hk.
Qed.
Lemma install_id_stays_witness : install_maps (read visor0) ∧
  ∃ d id, install_or_create (C := nat * nat) [byte_of 1] [byte_of 2] "tasks" visor0 = (d, Ok (id, true)) ∧ (id, "tasks"%string) ∈ installs d.
Proof.
  split; [exact visor0_maps|].
  destruct (install_id_stays (C := nat * nat) [byte_of 1] [byte_of 2] "tasks" visor0 visor0_maps) as (d & id & fresh & Hd & _ & Hin & Hf & _).
  exists d, id. split; [|exact Hin]. destruct fresh; [exact Hd|]. exfalso. subst d.
  assert (installs visor0 = []) as E by (vm_compute; reflexivity). rewrite E in Hin. by apply elem_of_nil in Hin.
Defined.

Definition prompt0 : SharePromptRecord := mkPrompt "p1" "document:x" "tasks" "Groceries".
Definition prompted : doc := (queue_share_prompt (C := nat * nat) prompt0 visor0).1.
Definition blank : ShareOutgoingRecord := mkOutgoing "" "" "bob" true "queued" "" "" [] [] [].
Definition moving := finish_share_prompt (A := History.Toy.adoc) (C := nat * nat) "p1" blank prompted.
Lemma moving_ok : moving.2 = Ok ().
Proof. vm_compute. reflexivity. Qed.
Lemma finished_prompt_moves_witness : share_prompt moving.1 "p1" = None ∧
  is_Some (share_outgoing_record moving.1 "p1").
Proof.
  pose proof (finished_prompt_moves "p1" blank prompted moving.1 moving.2 (surjective_pairing moving)) as Hm. rewrite moving_ok in Hm.
  destruct Hm as (p & _ & Hn & Ho & _). split; [exact Hn|]. by eexists.
Defined.
Definition invited : doc :=
  (receive_share_invitation (C := nat * nat) (mkInbox "i1" "Groceries" "ann" "tasks" true [] None "ep" []) visor0).1.
Definition adopting := adopt_share_invitation (A := History.Toy.adoc) (C := nat * nat) "i1" "inst" "document:x" "tasks" invited.
Lemma adopted_invitation_binds_witness : adopting.2 = Ok () ∧
  share_instance adopting.1 "inst" = Some (mkInstance "document:x" "tasks" "Groceries" true "ep" []).
Proof.
  pose proof (adopted_invitation_binds "i1" "inst" "document:x" "tasks" invited adopting.1 adopting.2 (surjective_pairing adopting)) as Hb.
  assert (adopting.2 = Ok ()) as Hok by (vm_compute; reflexivity).
  assert (share_inbox_record invited "i1" = Some (mkInbox "i1" "Groceries" "ann" "tasks" true [] None "ep" [])) as Hi by (vm_compute; reflexivity).
  rewrite Hi, Hok in Hb. split; [exact Hok|]. exact (proj1 (proj2 Hb)).
Defined.
End Concrete.
