(* ===== verification/Sharing.v ===== *)
(** * Document sharing ([runtime/crates/kernel/src/sharing.rs])

    Typed, device-authenticated invitations: the confirmation that grants and
    leaves an outgoing record, the delivery and its retries, the receipt that is
    acknowledged only once it is on disk, and the later adoption. *)
From S2P Require Import Prelude Text Crypto Error Storage Persist ContactsWire Registers Contacts VisorModel Automerge History Async Identity Calls Book.

Definition INVITATION_BUDGET : Z := 512 * 1024.
Definition SHARING_DOMAIN : bytes := as_bytes "polyvisor:document-invitation:v0" ++ [byte_of 0].
Definition sharing_wire_budget : Z := INVITATION_BUDGET - 4.

Inductive ShareAccess := ShareRead | ShareEdit.
#[export] Instance ShareAccess_eq_dec : EqDecision ShareAccess.
Proof. solve_decision. Defined.
Definition document_access (a : ShareAccess) : DocumentAccess := match a with ShareRead => AccessRead | ShareEdit => AccessEdit end.
Definition is_edit (a : ShareAccess) : bool := bool_decide (a = ShareEdit).
Definition access_of (edit : bool) : ShareAccess := if edit then ShareEdit else ShareRead.
Inductive DeliveryState := Queued | Delivering | Delivered | DeliveryFailed.
Record SharePrompt := mkSharePrompt { sp_id : string; sp_label : string; sp_app : string }.
Record ShareOutgoing := mkShareOutgoing {
  so_id : string; so_label : string; so_recipient : string; so_access : ShareAccess; so_state : DeliveryState; so_detail : string;
}.
Record ShareInvitation := mkShareInvitation {
  si_id : string; si_label : string; si_sender : string; si_app : string; si_access : ShareAccess; si_adopted : option string;
}.
Record DocumentInstance := mkDocumentInstance { di_id : string; di_label : string; di_personal : bool; di_access : ShareAccess }.

Record InvitationBody := mkBody {
  b_version : Z;
  b_id : bytes;
  b_sender_root : bytes;
  b_sender_group : bytes;
  b_sender_device : bytes;
  b_sender_identity : bytes;
  b_recipient_root : bytes;
  b_recipient_group : bytes;
  b_document_type : string;
  b_service : string;
  b_label : string;
  b_access : ShareAccess;
  b_history_and_resharing : bool;
  b_grant : DocumentGrant;
  b_inline : list StoreItem;
}.
Definition with_inline (items : list StoreItem) (b : InvitationBody) : InvitationBody :=
  mkBody (b_version b) (b_id b) (b_sender_root b) (b_sender_group b) (b_sender_device b) (b_sender_identity b)
    (b_recipient_root b) (b_recipient_group b) (b_document_type b) (b_service b) (b_label b) (b_access b)
    (b_history_and_resharing b) (b_grant b) items.
Record SignedInvitation := mkSignedInvitation { sv_body : bytes; sv_signature : bytes }.
Inductive Frame := Invitation (s : SignedInvitation) | FrameReceived | Refusal (why : string) | FrameDone.
#[export] Instance SignedInvitation_eq_dec : EqDecision SignedInvitation.
Proof. solve_decision. Defined.
#[export] Instance Frame_eq_dec : EqDecision Frame.
Proof. solve_decision. Defined.

(** [VerifyingKey::verify], which [Verifier] gives: it accepts what the key signed. *)
Class Verifies `{Signatures} := {
  verify : bytes → bytes → bytes → bool;
  verify_own s m : verify (verifying_key s) m (sign s m) = true;
}.

Section Sharing.
Context {EdI : Ed25519} {SigI : Signatures} {VerI : Verifies} {ShaI : Sha256} {B64I : Base64Url}.
Context {MsgS : Message Proto.Signed} {MsgB : Message Proto.RootBinding} {MsgP : Message Proto.Profile}
  {MsgA : Message Proto.AuthenticatedIdentity} {MsgI : Message Proto.Introduction}.
Context {A Oid C : Type} {AM : Automerge A Oid} {CG : ChangeGraph A C}.
Context {JP : SerdeJson SharePromptRecord} {JO : SerdeJson ShareOutgoingRecord} {JI : SerdeJson ShareInboxRecord} {JN : SerdeJson ShareInstanceRecord} {JS : SerdeJson string}.
(** [bincode] on the body, on its signed form and on a frame. *)
Context {BodyI : Codec InvitationBody} {SignedI : Codec SignedInvitation} {FrameI : Codec Frame}.
Context {VaultState DriveSealed : Type}.
(** [Net::endpoint_id] *)
Context (endpoint_id : bytes → string).
Abbreviation ans := (Calls.ans (A := A) (VaultState := VaultState) (DriveSealed := DriveSealed)).
Abbreviation prog := (Async.prog ans).
Abbreviation Document := (Document A).
Abbreviation op := (Registers.op (A := A)).
Abbreviation call c := (Async.call (ans := ans) c).

(** ** Invitations *)
Definition failed_bincode : Error := Error_new Failed "bincode".
Definition serialize {T} `{Codec T} (x : T) : result Error bytes := ok_or failed_bincode (to_vec x).
Definition sign_invitation (key : bytes) (body : InvitationBody) : result Error SignedInvitation :=
  b ← serialize body;
  Ok (mkSignedInvitation b (sign key (SHARING_DOMAIN ++ b))).
Definition verify_invitation (s : SignedInvitation) : result Error InvitationBody :=
  if INVITATION_BUDGET <? Z.of_nat (length (sv_body s) + length (sv_signature s))
  then Err (refused "invitation exceeds 512 KiB") else
  body ← ok_or (refused "invalid invitation body") (from_slice (sv_body s));
  if negb (on_curve (b_sender_device body)) then Err (refused "invalid sender device") else
  if negb (length (sv_signature s) =? 64)%nat then Err (refused "invalid invitation signature") else
  if negb (verify (b_sender_device body) (SHARING_DOMAIN ++ sv_body s) (sv_signature s))
  then Err (refused "invitation signature did not verify") else
  if negb (b_version body =? 0) || negb (b_history_and_resharing body)
  then Err (refused "unsupported invitation semantics") else
  Ok body.
Definition digest_id (a b : bytes) : bytes := sha256 (SHARING_DOMAIN ++ a ++ b).
(** A frame of at most the budget, its four bytes of length included. *)
Definition fits (wire : bytes) : bool := Z.of_nat (length wire) + 4 <=? INVITATION_BUDGET.

Definition contact_display_name (c : Contact) : string :=
  if nonempty (petname c) then petname c else
  match hd_error (filter (λ p, p.1 = "name"%string) (preferred c)) with
  | Some p => p.2
  | None =>
    let profiles := match retained_identity c with Some r => omap (λ b, ok (verify_profile b)) (retained_profiles r) | None => [] end in
    match hd_error (filter (λ l, ContactsWire.name l = "name"%string ∧ nonempty (ContactsWire.value l) = true) (profiles ≫= claims)) with
    | Some l => ContactsWire.value l
    | None =>
      match hd_error (filter (λ o, o_name o = "name"%string ∧ nonempty (o_value o) = true) (contact_observations c)) with
      | Some o => o_value o
      | None =>
        match contact_key32 c with
        | Some key => "contact " +:+ hex (take 4 key) +:+ "…"
        | None => "an unnamed contact"
        end
      end
    end
  end.

(** ** The visor's document *)
Definition visor_read {X} (read : Document → X) : prog (result Error X) :=
  _ ←! engine; engine_call (document_read VISOR_APP read).
Definition visor_mutate {X} (change : Document → prog (Document * result string X)) : prog (result Error X) :=
  _ ←! engine; engine_call (document_mutate VISOR_APP change).
Definition pure (change : op unit) (d : Document) : prog (Document * result string unit) := Done (change d).
(** What every change of a share record ends in. *)
Definition record_landed : prog (result Error unit) :=
  _ ←! call PersistEngine; _ ← call PushSharingChanged; Done (Ok ()).
Definition write_locked {X} (p : prog X) : prog X :=
  _ ← call LockSharing; r ← p; _ ← call UnlockSharing; Done r.

Definition open : prog (result Error unit) := s ← call (Base ReadState); Done (Persist.open s).
Definition sharing_prompts : prog (result Error (list SharePrompt)) :=
  _ ←! open;
  rows ←! visor_read share_prompts;
  Done (Ok ((λ p, mkSharePrompt (p_id p) (p_label p) (p_app p)) <$> rows)).
Definition delivery_of (state : string) : DeliveryState :=
  if bool_decide (state = "delivering"%string) then Delivering
  else if bool_decide (state = "delivered"%string) then Delivered
  else if bool_decide (state = "failed"%string) then DeliveryFailed else Queued.
Definition sharing_inbox : prog (result Error (list ShareInvitation)) :=
  _ ←! open;
  rows ←! visor_read share_inbox;
  Done (Ok ((λ i, mkShareInvitation (i_id i) (i_label i) (sender i) (i_app i) (access_of (i_edit i)) (adopted_instance i)) <$> rows)).
Definition sharing_outgoing : prog (result Error (list ShareOutgoing)) :=
  _ ←! open;
  rows ←! visor_read share_outgoing;
  Done (Ok ((λ o, mkShareOutgoing (o_id o) (o_label o) (recipient o) (access_of (o_edit o)) (delivery_of (o_state o)) (detail o)) <$> rows)).
(** The petname of an app, or ["Personal"]. *)
Definition app_label (app : string) : prog string :=
  m ← call (AppMeta app);
  Done (default "Personal"%string (m ← ok m; p ← (m : gmap string string) !! "petname"%string; if nonempty p then Some p else None)).
Definition not_installed : Error := Error_new UnknownApp "that app is not installed".
Definition instances_of (app personal_label : string) (d : Document) : list DocumentInstance :=
  (if bool_decide (is_Some (personal_partition d app)) then [mkDocumentInstance EmptyString personal_label true ShareEdit] else []) ++
  ((λ p, mkDocumentInstance p.1 (n_label p.2) false (access_of (n_edit p.2))) <$>
     filter (λ p, n_app p.2 = app) (share_instances d)).
Definition sharing_instances (app : string) : prog (result Error (list DocumentInstance)) :=
  _ ←! open;
  installed ← call (RegistryContains app);
  if negb installed then Done (Err not_installed) else
  label ← app_label app;
  visor_read (instances_of app label).

(** ** The prompt an app may raise *)
Definition no_document : string := "this personal list predates shareable document instances".
Definition message_of {X} (r : result Error X) : result string X := map_err message r.
Definition tasks_share (session : Z) : prog (result string unit) :=
  found ← call (SessionApp session);
  app ←! Done (map_err (λ _, "unknown session"%string) found);
  if negb (bool_decide (app = "todomvc"%string)) then Done (Err "only TodoMVC lists are shareable"%string) else
  document ← call (SessionDocument session);
  partition ←! Done (ok_or no_document document);
  id ← call (FillBytes 32);
  personal ← app_label app;
  selected ← call (SessionDocument session);
  label ←! match selected with
           | Some p =>
             e ← engine;
             _ ←! Done (message_of e);
             found ←! document_read VISOR_APP (λ d, label_for_partition d p);
             Done (Ok (default personal found))
           | None => Done (Ok personal)
           end;
  e ← engine;
  _ ←! Done (message_of e);
  _ ←! document_mutate VISOR_APP (pure (queue_share_prompt (mkPrompt (hex id) partition app label)));
  saved ← call PersistEngine;
  _ ←! Done (message_of saved);
  _ ← call PushSharingChanged;
  Done (Ok ()).
Definition sharing_cancel (prompt : string) : prog (result Error unit) :=
  write_locked (_ ←! visor_mutate (pure (remove_share_prompt prompt)); record_landed).
Definition sharing_dismiss (invitation : string) : prog (result Error unit) :=
  write_locked (_ ←! visor_mutate (pure (remove_share_invitation invitation)); record_landed).

(** ** Delivery *)
Definition over_budget : Error := refused "the encoded invitation exceeds 512 KiB".
Definition signed_frame (key : bytes) (body : InvitationBody) : result Error bytes :=
  s ← sign_invitation key body; serialize (Invitation s).
Definition build_invitation_wire (partition : string) (body : InvitationBody) : prog (result Error bytes) :=
  s ← call (Base ReadState);
  let key := seed s in
  bare ←! Done (signed_frame key body);
  let remaining := Z.max 0 (INVITATION_BUDGET - (4 + Z.of_nat (length bare))) in
  _ ←! engine;
  found ←! engine_call (call (InlineItems partition remaining));
  let body := match found with Some items => with_inline items body | None => body end in
  wire ←! Done (signed_frame key body);
  wire ←! Done (if fits wire then Ok wire else signed_frame key (with_inline [] body));
  Done (if fits wire then Ok wire else Err over_budget).
Definition record_delivery_failure (id why : string) : prog (result Error unit) :=
  _ ←! visor_mutate (pure (set_share_delivery_detail id false why));
  record_landed.
Definition with_envelope (envelope : bytes) (o : ShareOutgoingRecord) : ShareOutgoingRecord :=
  mkOutgoing (o_id o) (o_label o) (recipient o) (o_edit o) (o_state o) (detail o) (endpoint o) envelope (rebuild_body o) (recipient_device o).
Definition malformed_input : Error := Error_new Failed "stored invitation input is malformed".
(** An invitation that could not be prepared is prepared again. *)
Definition prepared (id : string) (row : ShareOutgoingRecord) : prog (result Error ShareOutgoingRecord) :=
  if negb (bool_decide (o_envelope row = [])) || bool_decide (rebuild_body row = []) then Done (Ok row) else
  body ←! Done (ok_or malformed_input (from_slice (rebuild_body row)));
  built ← build_invitation_wire (g_partition (b_grant body)) body;
  match built with
  | Ok envelope =>
    _ ←! visor_mutate (pure (set_share_envelope id envelope));
    _ ←! call PersistEngine;
    Done (Ok (with_envelope envelope row))
  | Err e => _ ←! record_delivery_failure id (message e); Done (Err e)
  end.
Definition timed_out : string := "document delivery timed out".
Definition timed {X} (r : option (result string X)) : result string X := default (Err timed_out) r.
(** What the recipient's answer says. *)
Definition receipt (b : option bytes) : result string unit :=
  match b with
  | Some b =>
    if fits b && bool_decide (from_slice b = Some FrameReceived) then Ok () else
    match from_slice b with
    | Some (Refusal why) => Err ("the recipient refused the invitation: " +:+ why)
    | _ => Err not_checkpointed
    end
  | None => Err not_checkpointed
  end.
Definition handed (wire : bytes) : prog (result string unit) :=
  sent ← call (SendFrame wire);
  _ ←! Done (timed sent);
  got ← call RecvFrame;
  Done (match got with Some b => receipt b | None => Err timed_out end).
Definition changed_identity (during : string) : Error := Error_new Unavailable ("the user identity changed " +:+ during).
Definition retry_row (id : string) (context : IdentityContext) (row : ShareOutgoingRecord) : prog (result Error unit) :=
  if negb (fits (o_envelope row)) then Done (Err (refused "stored invitation exceeds 512 KiB")) else
  if bool_decide (o_envelope row = [])
  then Done (Err (Error_new Failed "access was granted, but this invitation has no deliverable payload")) else
  same ← identity_context_is context;
  if negb same then Done (Err (changed_identity "before invitation delivery")) else
  _ ←! call PersistEngine;
  ready ← call HasEndpoint;
  if negb (ready : bool) then
    let why := "this device has no network endpoint"%string in
    _ ←! record_delivery_failure id why; Done (Err (Error_new Unavailable why))
  else
  dialed ← call (Dial (endpoint row));
  match timed dialed with
  | Err why => _ ←! record_delivery_failure id why; Done (Err (Error_new Unavailable why))
  | Ok key =>
    delivery ← (if negb (bool_decide (key = recipient_device row))
                then Done (Err "the recipient endpoint authenticated as another device"%string)
                else handed (o_envelope row));
    _ ← match delivery, to_vec FrameDone with
        | Ok _, Some done => _ ← call (SendFrame done); Done ()
        | _, _ => Done ()
        end;
    _ ← call CloseConnection;
    same ← identity_context_is context;
    if negb same then Done (Err (changed_identity "during invitation delivery")) else
    _ ←! visor_mutate (pure (set_share_delivery id (is_ok delivery)));
    _ ←! record_landed;
    Done (map_err (Error_new Failed) delivery)
  end.
Definition no_outgoing : Error := Error_new NotFound "no such outgoing invitation".
Definition sharing_retry (id : string) : prog (result Error unit) :=
  write_locked (
    context ← identity_context;
    found ←! visor_read (λ d, share_outgoing_record d id);
    row ←! Done (ok_or no_outgoing found);
    row ←! prepared id row;
    retry_row id context row).

(** ** Confirming: the grant and its outgoing record *)
Definition no_group : Error := refused "that contact has no authenticated group authority".
Definition no_authority : Error := refused "that contact has no retained authority device".
Definition no_prompt : Error := Error_new NotFound "that share prompt no longer exists".
Definition not_prepared : string := "access was granted, but its invitation could not be prepared".
Definition todo_type : string := "polyvisor.todo/v0".
(** What follows a grant: the record that tells of it, with the invitation or
    with the reason there is none.  [true]: there is something to deliver. *)
Definition outgoing (contact : Contact) (access : ShareAccess) (device rebuild : bytes) (built : result Error bytes) : ShareOutgoingRecord :=
  let '(wire, state, detail) := match built with
    | Ok wire => (wire, "queued"%string, EmptyString)
    | Err e => ([], "failed"%string, not_prepared +:+ ": " +:+ message e)
    end in
  mkOutgoing EmptyString EmptyString (contact_display_name contact) (is_edit access) state detail (endpoint_id device) wire rebuild device.
Definition record_grant (context : IdentityContext) (prompt : string) (contact : Contact) (access : ShareAccess) (device : bytes)
    (partition : string) (body : InvitationBody) : prog (result Error bool) :=
  rebuild ←! Done (serialize body);
  built ← build_invitation_wire partition body;
  let row := outgoing contact access device rebuild built in
  _ ←! visor_mutate (within context "the user identity changed during sharing confirmation" (pure (finish_share_prompt prompt row)));
  _ ←! record_landed;
  Done (Ok (negb (bool_decide (o_envelope row = [])))).
Definition confirm_locked (prompt contact_id : string) (access : ShareAccess) : prog (result Error bool) :=
  context ← identity_context;
  sent ←! visor_read (λ d, share_outgoing_record d prompt);
  if bool_decide (is_Some sent) then _ ←! call PersistEngine; Done (Ok true) else
  contact ←! contacts_get contact_id;
  retained ←! Done (ok_or no_group (retained_identity contact));
  binding ←! Done (map_err refused (verify_root_binding (retained_binding retained)));
  authority ←! Done (ok_or no_authority (hd_error (authorities retained)));
  found ←! visor_read (λ d, share_prompt d prompt);
  record ←! Done (ok_or no_prompt found);
  me ←! contacts_profile;
  sender_identity ←! contacts_share (self_root me) (variants me) [] [] [];
  _ ←! engine;
  sender_group ←! engine_call (call (Base AuthorityGroup));
  sender_device ←! engine;
  _ ←! engine;
  grant ←! engine_call (call (GrantDocument (p_partition record) (group binding) authority.1 authority.2 (document_access access)));
  same ← identity_context_is context;
  if negb same then Done (Err (changed_identity "during sharing confirmation")) else
  record_grant context prompt contact access authority.1 (p_partition record)
    (mkBody 0 (digest_id (as_bytes prompt) (as_bytes contact_id)) (self_root me) sender_group sender_device sender_identity
       (retained_root retained) (group binding) todo_type (p_app record) (p_label record) access true grant []).
Definition sharing_confirm (prompt contact_id : string) (access : ShareAccess) : prog (result Error unit) :=
  deliverable ←! write_locked (confirm_locked prompt contact_id access);
  if deliverable : bool then sharing_retry prompt else Done (Err (Error_new Failed not_prepared)).

(** ** Receiving *)
(** [str::to_ascii_lowercase] *)
Definition to_ascii_lowercase (s : string) : string :=
  str_of ((λ b, if (65 <=? u8 b) && (u8 b <=? 90) then byte_of (u8 b + 32) else b) <$> as_bytes s).
Definition wrong_sender : Error := refused "invitation sender identity does not match its authenticated proof".
Definition inconsistent : Error := refused "invitation grant metadata is inconsistent".
Definition sender_matches (body : InvitationBody) (intro : Introduction) (b : RootBinding) : bool :=
  bool_decide (root b = b_sender_root body) && bool_decide (group b = b_sender_group body) &&
  bool_decide (device intro = b_sender_device body) && bool_decide (authority_device (intro_issuer intro) = b_sender_device body) &&
  bool_decide (authenticated_identities intro = []) && bool_decide (parties intro = []).
Definition metadata_consistent (body : InvitationBody) : bool :=
  bool_decide (b_service body = "todomvc"%string) && bool_decide (b_document_type body = todo_type) &&
  bool_decide (g_partition (b_grant body) = to_ascii_lowercase (g_partition (b_grant body))) &&
  bool_decide (g_recipient_group (b_grant body) = b_recipient_group body) &&
  bool_decide (g_access (b_grant body) = document_access (b_access body)).
Definition verify_sender_identity (body : InvitationBody) : prog (result Error unit) :=
  intro ←! contacts_validate_introduction (b_sender_identity body);
  b ←! Done (map_err refused (verify_root_binding (binding (intro_issuer intro))));
  Done (if negb (sender_matches body intro b) then Err wrong_sender
        else if negb (metadata_consistent body) then Err inconsistent else Ok ()).
Definition another_recipient : Error := refused "invitation names another recipient".
(** The checks receipt and adoption share: this user is the recipient. *)
Definition own_recipient (body : InvitationBody) : prog (result Error unit) :=
  own ←! contacts_profile;
  _ ←! engine;
  own_group ←! engine_call (call (Base AuthorityGroup));
  Done (if bool_decide (b_recipient_root body = self_root own) && bool_decide (b_recipient_group body = own_group)
        then Ok () else Err another_recipient).
Definition validate_grant (body : InvitationBody) : prog (result Error unit) :=
  _ ←! engine;
  r ← call (ValidateGrant (b_grant body) (b_sender_group body) (b_sender_device body));
  Done (map_err refused r).
Definition inbox_record (signed : SignedInvitation) (body : InvitationBody) (envelope : bytes) : ShareInboxRecord :=
  mkInbox (hex (b_id body)) (b_label body) (hex (b_sender_root body)) (b_service body) (is_edit (b_access body)) envelope None
    (endpoint_id (b_sender_device body)) (b_sender_device body).
Definition receive_invitation (peer : bytes) (signed : SignedInvitation) : prog (result Error unit) :=
  context ← identity_context;
  body ←! Done (verify_invitation signed);
  if negb (bool_decide (b_sender_device body = peer)) then Done (Err (refused "invitation signer does not match the transport peer")) else
  _ ←! own_recipient body;
  _ ←! verify_sender_identity body;
  _ ←! validate_grant body;
  same ← identity_context_is context;
  if negb same then Done (Err (changed_identity "during invitation verification")) else
  envelope ←! Done (serialize signed);
  _ ←! visor_mutate (within context "the user identity changed during invitation receipt"
         (pure (receive_share_invitation (inbox_record signed body envelope))));
  record_landed.
Definition malformed_invitation : string := "malformed or oversized invitation".
Definition sharing_accept (peer : bytes) : prog unit :=
  got ← call RecvFrame;
  let invitation := match got with Some (Some b) => if fits b then from_slice b else None | _ => None end in
  answer ← match invitation with
           | Some (Invitation signed) =>
             r ← receive_invitation peer signed;
             Done (match r with Ok _ => FrameReceived | Err e => Refusal (message e) end)
           | _ => Done (Refusal malformed_invitation)
           end;
  _ ← match to_vec answer with
      | Some b =>
        sent ← call (SendFrame b);
        if is_ok (timed sent) && bool_decide (answer = FrameReceived) then _ ← call RecvFrame; Done () else Done ()
      | None => Done ()
      end;
  call CloseConnection.

(** ** Adopting *)
Definition sharing_adopt (id : string) : prog (result Error string) :=
  write_locked (
    context ← identity_context;
    found ←! visor_read (λ d, share_inbox_record d id);
    row ←! Done (ok_or (Error_new NotFound "no such invitation") found);
    signed ←! Done (ok_or (refused "the stored invitation is malformed") (from_slice (i_envelope row)));
    body ←! Done (verify_invitation signed);
    _ ←! verify_sender_identity body;
    _ ←! own_recipient body;
    _ ←! validate_grant body;
    same ← identity_context_is context;
    if negb same then Done (Err (changed_identity "during invitation adoption")) else
    _ ←! engine;
    _ ←! engine_call (call (AdoptDocument (b_grant body) (b_sender_group body) (b_sender_device body)));
    _ ←! (if bool_decide (b_inline body = []) then Done (Ok true)
          else _ ←! engine; engine_call (call (ImportInline (g_partition (b_grant body)) (b_inline body))));
    existing ←! visor_read (λ d, instance_for_partition d (g_partition (b_grant body)));
    instance ← match existing with
               | Some instance => Done instance
               | None => entropy ← call (FillBytes 32); Done (hex (take 16 entropy))
               end;
    _ ←! visor_mutate (within context "the user identity changed during invitation adoption"
           (pure (adopt_share_invitation id instance (g_partition (b_grant body)) (b_service body))));
    _ ←! record_landed;
    _ ← call (SpawnHint (b_sender_device body));
    Done (Ok instance)).
Definition no_instance : Error := Error_new NotFound "no compatible adopted document instance".
Definition sharing_instance_partition (instance app : string) : prog (result Error string) :=
  found ←! visor_read (λ d, share_instance d instance);
  Done (match found with
        | Some i => if bool_decide (n_app i = app) then Ok (n_partition i) else Err no_instance
        | None => Err no_instance
        end).
End Sharing.
