(* ===== verification/SharingFacts.v ===== *)
(** * What document sharing may grant, send and keep

    Over every history: an invitation is acknowledged only once its verified
    contents are on disk, adopted only when every check still holds, sent only
    from disk to the device it is for, and a grant leaves its outgoing record. *)
From S2P Require Import Prelude Text Crypto Error Storage Persist ContactsWire Registers Contacts VisorModel Automerge History Async Identity Custody Calls Book BookFacts Sharing.

Section Facts.
Context {EdI : Ed25519} {SigI : Signatures} {VerI : Verifies} {ShaI : Sha256}.
Context {MsgS : Message Proto.Signed} {MsgB : Message Proto.RootBinding} {MsgP : Message Proto.Profile}
  {MsgA : Message Proto.AuthenticatedIdentity} {MsgI : Message Proto.Introduction}.
Context {A Oid C : Type} {AM : Automerge A Oid} {CG : ChangeGraph A C}.
Context {JP : SerdeJson SharePromptRecord} {JO : SerdeJson ShareOutgoingRecord} {JI : SerdeJson ShareInboxRecord}
  {JN : SerdeJson ShareInstanceRecord} {JS : SerdeJson string}.
Context {BodyI : Codec InvitationBody} {SignedI : Codec SignedInvitation} {FrameI : Codec Frame}.
Context {VaultState DriveSealed : Type}.
Abbreviation ans := (Calls.ans (A := A) (VaultState := VaultState) (DriveSealed := DriveSealed)).
Abbreviation prog := (Async.prog ans).
Abbreviation history := (list (Async.event ans)).
Abbreviation E := (@Ev _ ans).
Abbreviation Document := (Document A).
Implicit Types (h t u : history) (body : InvitationBody) (signed : SignedInvitation).

(** ** Rules *)
Section Rules.
Context (G : history → Calls.call A → Prop) (G_quiet : ∀ h c, quiet c → G h c).
Lemma wp_visor_read {X Y} (read : Document → X) (k : X → prog (result Error Y)) h Q :
  (∀ e h', Q (Err e) h') →
  (∀ key d, wp G (k (read d)) (h ++ [E (Base EngineKey) (Some key); E (ReadDocument VISOR_APP) (Ok d)]) Q) →
  wp G (try (visor_read read) k) h Q.
Proof.
  intros HE Hk. split; [by apply G_quiet|]. intros [key|]; [|apply HE]. split; [by apply G_quiet|]. intros [d|e]; [|apply HE].
  specialize (Hk key d). rewrite <- app_assoc. exact Hk.
Qed.
(** A quiet step, with what it asked. *)
Lemma wp_noted {X Y} (p : prog (result Error X)) (k : X → prog (result Error Y)) h Q : all_calls quiet p → (∀ e h', Q (Err e) h') →
  (∀ t x, Forall (λ e, quiet (asked e)) t → runs p t (Some (Ok x)) → wp G (k x) (h ++ t) Q) → wp G (try p k) h Q.
Proof. intros Hp HE Hk. apply (wp_quietly G quiet); [done..|]. intros t x Hr. apply Hk; [exact (all_calls_runs quiet p t _ Hp Hr)|done]. Qed.
(** With what every refusal leaves behind it. *)
Lemma wp_visor_mutate_or {X Y} (change : Document → prog (Document * result string X)) (k : X → prog (result Error Y)) h Q :
  (∀ e, Q (Err e) (h ++ [E (Base EngineKey) None])) →
  (∀ key why e, Q (Err e) (h ++ [E (Base EngineKey) (Some key); E (BeginDocument VISOR_APP) (Err why)])) →
  (∀ key d, wp G (change d) (h ++ [E (Base EngineKey) (Some key); E (BeginDocument VISOR_APP) (Ok d)])
    (λ r h2, G h2 (WriteDocument VISOR_APP r.1) ∧ (∀ why e, Q (Err e) (h2 ++ [E (WriteDocument VISOR_APP r.1) (Err why)])) ∧
      match r.2 with
      | Ok x => wp G (k x) (h2 ++ [E (WriteDocument VISOR_APP r.1) (Ok tt)]) Q
      | Err why => ∀ e, Q (Err e) (h2 ++ [E (WriteDocument VISOR_APP r.1) (Ok tt)])
      end)) →
  wp G (try (visor_mutate change) k) h Q.
Proof.
  intros HN HB Hc. apply wp_try. apply (wp_ask G G_quiet (Base EngineKey)); [done|]. intros [key|]; [|apply HN].
  apply (wp_bind (ans := ans)), (wp_ask G G_quiet (BeginDocument VISOR_APP)); [done|]. intros [d|e].
  2: { specialize (HB key e). rewrite <- app_assoc. apply HB. }
  rewrite <- app_assoc. apply (wp_bind (ans := ans)). eapply wp_mono; [apply Hc|]. intros [d' r] t [Hw [HE Hk]].
  split; [exact Hw|]. intros [[]|e]; [|apply HE]. destruct r as [x|e]; [exact Hk|apply Hk].
Qed.
Lemma wp_visor_mutate {X Y} (change : Document → prog (Document * result string X)) (k : X → prog (result Error Y)) h Q :
  (∀ e h', Q (Err e) h') →
  (∀ key d, wp G (change d) (h ++ [E (Base EngineKey) (Some key); E (BeginDocument VISOR_APP) (Ok d)])
    (λ r h2, G h2 (WriteDocument VISOR_APP r.1) ∧ ∀ x, r.2 = Ok x → wp G (k x) (h2 ++ [E (WriteDocument VISOR_APP r.1) (Ok tt)]) Q)) →
  wp G (try (visor_mutate change) k) h Q.
Proof.
  intros HE Hc. apply wp_visor_mutate_or; [done..|]. intros key d. eapply wp_mono; [apply Hc|]. intros [d' r] t [Hw Hk].
  split_and!; [done..|]. cbn [fst snd] in *. destruct r as [x|e]; [by apply Hk|done].
Qed.
Lemma wp_landed_or {Y} (k : unit → prog (result Error Y)) h Q : (∀ e, Q (Err e) (h ++ [E PersistEngine (Err e)])) →
  G (h ++ [E PersistEngine (Ok tt)]) PushSharingChanged →
  wp G (k tt) (h ++ [E PersistEngine (Ok tt); E PushSharingChanged tt]) Q → wp G (try record_landed k) h Q.
Proof.
  intros HE HG Hk. split; [by apply G_quiet|]. intros [[]|e]; [|apply HE]. split; [exact HG|]. intros []. by rewrite <- app_assoc.
Qed.
Lemma wp_landed {Y} (k : unit → prog (result Error Y)) h Q : (∀ e h', Q (Err e) h') →
  G (h ++ [E PersistEngine (Ok tt)]) PushSharingChanged →
  wp G (k tt) (h ++ [E PersistEngine (Ok tt); E PushSharingChanged tt]) Q → wp G (try record_landed k) h Q.
Proof. intros HE. by apply wp_landed_or. Qed.
Lemma wp_landed_last h (Q : result Error unit → history → Prop) : (∀ e h', Q (Err e) h') →
  G (h ++ [E PersistEngine (Ok tt)]) PushSharingChanged →
  Q (Ok tt) (h ++ [E PersistEngine (Ok tt); E PushSharingChanged tt]) → wp G record_landed h Q.
Proof.
  intros HE HG HQ. split; [by apply G_quiet|]. intros [[]|e]; [|apply HE]. split; [exact HG|]. intros []. cbn [wp]. by rewrite <- app_assoc.
Qed.
Lemma wp_locked {X} (p : prog X) h Q : wp G p (h ++ [E LockSharing tt]) (λ r h', Q r (h' ++ [E UnlockSharing tt])) → wp G (write_locked p) h Q.
Proof.
  intros Hp. split; [by apply G_quiet|]. intros []. apply (wp_bind (ans := ans)). eapply wp_mono; [exact Hp|]. intros x t HQ.
  split; [by apply G_quiet|]. intros []. exact HQ.
Qed.
(** A change held to an identity, that only computes. *)
Lemma wp_within {X} ctx why (change : Document → Document * result string X) d h Q :
  (∀ c, c ≠ ctx → Q (d, Err why) (h ++ [E (Base ReadContext) c])) → Q (change d) (h ++ [E (Base ReadContext) ctx]) →
  wp G (within ctx why (λ d, Done (change d)) d) h Q.
Proof. intros Hs Hf. apply (wp_still G G_quiet); [exact Hs|exact Hf]. Qed.
End Rules.

(** ** Invitations *)
Lemma serialize_Ok {T} `{Codec T} (x : T) b : serialize x = Ok b → to_vec x = Some b ∧ from_slice b = Some x.
Proof. intros Hb%ok_or_Ok. split; [done|]. by apply codec_to_vec. Qed.
(** What verifies was signed, as it reads, by the device it names. *)
Record genuine (signed : SignedInvitation) (body : InvitationBody) : Prop := {
  ge_body : from_slice (sv_body signed) = Some body;
  ge_key : on_curve (b_sender_device body) = true;
  ge_signature : verify (b_sender_device body) (SHARING_DOMAIN ++ sv_body signed) (sv_signature signed) = true;
  ge_length : length (sv_signature signed) = 64%nat;
  ge_version : b_version body = 0 ∧ b_history_and_resharing body = true;
  ge_size : Z.of_nat (length (sv_body signed)) + 64 <= INVITATION_BUDGET;
}.
Lemma verify_invitation_iff signed body : verify_invitation signed = Ok body ↔ genuine signed body.
Proof.
  unfold verify_invitation. split.
  - destruct (Z.ltb_spec INVITATION_BUDGET (Z.of_nat (length (sv_body signed) + length (sv_signature signed)))) as [|Hs]; [done|].
    intros (body' & Hb%ok_or_Ok & Hr)%bind_Ok. destruct (on_curve (b_sender_device body')) eqn:Hk; [|done].
    destruct (Nat.eqb_spec (length (sv_signature signed)) 64) as [Hl|]; [|done]. destruct (verify _ _ _) eqn:Hv; [|done].
    cbn [negb] in Hr. destruct (Z.eqb_spec (b_version body') 0) as [H0|]; [|done]. destruct (b_history_and_resharing body') eqn:Hh; [|done].
    injection Hr as <-. split; [done..|lia].
  - intros [H1 H2 H3 H4 [H5 H6] H7]. rewrite (proj2 (Z.ltb_ge _ _)) by lia. rewrite H1. cbn [ok_or mbind result_bind].
    by rewrite H2, H3, H4, H5, H6.
Qed.
Lemma signed_genuine key body signed : sign_invitation key body = Ok signed → b_sender_device body = verifying_key key →
  b_version body = 0 → b_history_and_resharing body = true → Z.of_nat (length (sv_body signed)) + 64 <= INVITATION_BUDGET → genuine signed body.
Proof.
  unfold sign_invitation. intros (b & [_ Hb]%serialize_Ok & [= <-])%bind_Ok Hd Hv Hh Hs. split; cbn [sv_body sv_signature] in *; [done|..|done].
  - rewrite Hd. apply on_curve_signer.
  - rewrite Hd. apply verify_own.
  - apply length_sign.
  - done.
Qed.

(** ** The checks of receipt and adoption *)
(** Everything that is checked of an invitation, as [u] shows it: its sender's
    identity was authorized by the engine and is the one it names, it is for this
    user's own root and group, its grant says what the invitation says, and the
    engine found the grant valid. *)
Record vetted (body : InvitationBody) (u : history) : Prop := {
  ve_sender : ∃ intro b, authorized (b_sender_identity body) intro u ∧
    verify_root_binding (binding (intro_issuer intro)) = Ok b ∧ sender_matches body intro b = true;
  ve_consistent : metadata_consistent body = true;
  ve_recipient : ∃ own, profile_read own u ∧ self_root own = b_recipient_root body ∧
    E (Base AuthorityGroup) (Ok (b_recipient_group body)) ∈ u;
  ve_grant : E (ValidateGrant (b_grant body) (b_sender_group body) (b_sender_device body)) (Ok tt) ∈ u;
}.
Lemma quiet_own_recipient body : all_calls quiet (own_recipient (A := A) (VaultState := VaultState) (DriveSealed := DriveSealed) body).
Proof.
  apply all_calls_try; [apply quiet_profile|]. intros own. apply all_calls_try; [apply quiet_engine|]. intros k.
  apply all_calls_try; [by apply quiet_asked_engine; repeat split|done].
Qed.
Lemma runs_own_recipient body t x : runs (own_recipient body) t (Some (Ok x)) →
  ∃ own, profile_read own t ∧ self_root own = b_recipient_root body ∧ E (Base AuthorityGroup) (Ok (b_recipient_group body)) ∈ t.
Proof.
  unfold own_recipient. rewrite runs_try. intros (t1 & t2 & own & -> & Hp%runs_profile & Hr).
  rewrite runs_try in Hr. destruct Hr as (t3 & t4 & k & -> & _ & Hr).
  rewrite runs_try in Hr. destruct Hr as (t5 & t6 & g & -> & Hg%runs_asked_engine & [-> Hr]%runs_Done).
  apply (runs_call (ans := ans) (Base AuthorityGroup)) in Hg as ->.
  destruct (bool_decide (b_recipient_root body = self_root own)) eqn:H1; [|done]. case_bool_decide as H2; [|done].
  apply bool_decide_eq_true in H1. exists own. split; [by apply profile_read_app; left|]. split; [done|]. rewrite H2, !elem_of_app, list_elem_of_singleton. tauto.
Qed.
Lemma quiet_verify_sender body : all_calls quiet (verify_sender_identity (A := A) (VaultState := VaultState) (DriveSealed := DriveSealed) body).
Proof. apply all_calls_try; [apply quiet_validate_introduction|]. intros intro. by apply all_calls_try. Qed.
Lemma runs_verify_sender body t x : runs (verify_sender_identity body) t (Some (Ok x)) →
  metadata_consistent body = true ∧ ∃ intro b, authorized (b_sender_identity body) intro t ∧
    verify_root_binding (binding (intro_issuer intro)) = Ok b ∧ sender_matches body intro b = true.
Proof.
  unfold verify_sender_identity. rewrite runs_try. intros (t1 & t2 & intro & -> & Hi%runs_validate_introduction & Hr).
  rewrite runs_try in Hr. destruct Hr as (t3 & t4 & b & -> & [-> Hb%map_err_Ok]%runs_Done & [-> Hr]%runs_Done).
  destruct (sender_matches body intro b) eqn:Hs; [|done]. destruct (metadata_consistent body); [|done]. split; [done|].
  exists intro, b. by rewrite app_nil_r.
Qed.
Lemma quiet_validate_grant body : all_calls quiet (validate_grant (A := A) (VaultState := VaultState) (DriveSealed := DriveSealed) body).
Proof. apply all_calls_try; [apply quiet_engine|]. by repeat split. Qed.
Lemma runs_validate_grant body t x : runs (validate_grant body) t (Some (Ok x)) →
  E (ValidateGrant (b_grant body) (b_sender_group body) (b_sender_device body)) (Ok tt) ∈ t.
Proof.
  unfold validate_grant. rewrite runs_try. intros (t1 & t2 & k & -> & _ & Hr).
  apply runs_bind in Hr as (t3 & t4 & r & -> & ->%(runs_call (ans := ans) (ValidateGrant _ _ _)) & [-> Hr%map_err_Ok]%runs_Done).
  destruct r as [[]|]; [|done]. set_solver.
Qed.
Lemma vetted_intro body t1 t2 t3 u :
  (metadata_consistent body = true ∧ ∃ intro b, authorized (b_sender_identity body) intro t1 ∧
    verify_root_binding (binding (intro_issuer intro)) = Ok b ∧ sender_matches body intro b = true) →
  (∃ own, profile_read own t2 ∧ self_root own = b_recipient_root body ∧ E (Base AuthorityGroup) (Ok (b_recipient_group body)) ∈ t2) →
  E (ValidateGrant (b_grant body) (b_sender_group body) (b_sender_device body)) (Ok tt) ∈ t3 →
  t1 ⊆ u → t2 ⊆ u → t3 ⊆ u → vetted body u.
Proof.
  intros [Hm (intro & b & (rs & Hv & Hr) & Hb & Hs)] (own & (rb & Hp1 & Hp2 & Hp3) & Ho & Hg) Hval H1 H2 H3. split; [|done| |by apply H3].
  - exists intro, b. split; [|done]. exists rs. split; [done|]. intros r Hin. by apply H1, Hr.
  - exists own. split; [|split; [done|by apply H2]]. exists rb. split_and!; [by apply H2..|apply Hp3|apply Hp3].
Qed.

(** ** Receiving *)
Section Receiving.
Context (endpoint_id : bytes → string) (peer : bytes).
(** The frame that came is an invitation its own device signed, and everything
    was checked of it under one identity. *)
Definition accepted (h : history) signed body (ctx : IdentityContext) : Prop :=
  ∃ b u, h = E RecvFrame (Some (Some b)) :: E (Base ReadContext) ctx :: u ++ [E (Base ReadContext) ctx] ∧
    fits b = true ∧ from_slice b = Some (Invitation signed) ∧ genuine signed body ∧ b_sender_device body = peer ∧ vetted body u.
(** The visor's document [d] at the point where it is changed, under [c]. *)
Definition recording (h h1 : history) (d : Document) (c : IdentityContext) : Prop :=
  ∃ k, h = h1 ++ [E (Base EngineKey) (Some k); E (BeginDocument VISOR_APP) (Ok d); E (Base ReadContext) c].
(** The invitation is in the inbox [d'], on disk, and announced. *)
Definition received_on_disk (h : history) (d d' : Document) : Prop :=
  ∃ h1 h2 signed body ctx env, accepted h1 signed body ctx ∧ recording h2 h1 d ctx ∧ to_vec signed = Some env ∧
    receive_share_invitation (inbox_record endpoint_id signed body env) d = (d', Ok ()) ∧
    h = h2 ++ [E (WriteDocument VISOR_APP d') (Ok tt); E PersistEngine (Ok tt); E PushSharingChanged tt].
Definition announced (h : history) : Prop :=
  ∃ h0 d, h = h0 ++ [E (WriteDocument VISOR_APP d) (Ok tt); E PersistEngine (Ok tt)].
Definition recipient_may (h : history) (c : Calls.call A) : Prop :=
  match c with
  | WriteDocument app d' => app = VISOR_APP ∧ ∃ h1 signed body ctx d c, accepted h1 signed body ctx ∧ recording h h1 d c ∧
      (c ≠ ctx ∧ d' = d ∨ c = ctx ∧ ∃ env, to_vec signed = Some env ∧
        d' = (receive_share_invitation (inbox_record endpoint_id signed body env) d).1)
  | PushSharingChanged => announced h
  | SendFrame f => (∃ why, to_vec (Refusal why) = Some f) ∨ to_vec FrameReceived = Some f ∧ ∃ d d', received_on_disk h d d'
  | _ => quiet c
  end.
Lemma recipient_quiet h c : quiet c → recipient_may h c.
Proof. by destruct c. Qed.
Lemma receives b signed : fits b = true → from_slice b = Some (Invitation signed) →
  wp recipient_may (receive_invitation endpoint_id peer signed) [E RecvFrame (Some (Some b))]
    (λ r h, r = Ok tt → ∃ d d', received_on_disk h d d').
Proof.
  intros Hfit Hb. pose proof recipient_quiet as HG. unfold receive_invitation.
  apply (wp_ask recipient_may HG (Base ReadContext)); [done|]. intros ctx.
  apply wp_pure; [done|]. intros body Hg%verify_invitation_iff.
  case_bool_decide as Hpeer; [|done]. cbn [negb].
  apply wp_quiet_try; [done|apply quiet_own_recipient|done|]. intros t1 [] Ho%runs_own_recipient.
  apply wp_quiet_try; [done|apply quiet_verify_sender|done|]. intros t2 [] Hs%runs_verify_sender.
  apply wp_quiet_try; [done|apply quiet_validate_grant|done|]. intros t3 [] Hv%runs_validate_grant.
  apply wp_still; [done|done|]. cbn [negb]. apply wp_pure; [done|]. intros env [Henv _]%serialize_Ok.
  match goal with |- wp _ _ ?h _ => assert (accepted h signed body ctx) as Hacc; [|generalize dependent h] end.
  { exists b, (t1 ++ t2 ++ t3). split; [by rewrite <- !app_assoc|]. split_and!; [done..|]. eapply vetted_intro; [exact Hs|exact Ho|exact Hv|set_solver..]. }
  intros h1 Hacc. apply wp_visor_mutate; [done..|]. intros k d.
  assert (∀ c, recording ((h1 ++ [E (Base EngineKey) (Some k); E (BeginDocument VISOR_APP) (Ok d)]) ++ [E (Base ReadContext) c]) h1 d c) as Hrec
    by (intros c; exists k; by rewrite <- app_assoc).
  apply wp_within; [done| |].
  - intros c Hne. split; [|done]. split; [done|]. exists h1, signed, body, ctx, d, c. split_and!; [done|apply Hrec|by left].
  - split; [split; [done|]; exists h1, signed, body, ctx, d, ctx; split_and!; [done|apply Hrec|right; by eauto]|].
    destruct (receive_share_invitation _ _) as [d' r] eqn:Hop. cbn [fst snd]. intros [] ->.
    match goal with |- wp _ _ (?h ++ _) _ => assert (recording h h1 d ctx) as Hr by apply Hrec; generalize dependent h end.
    intros h2 Hr. apply wp_landed_last; [done|done| |].
    + exists h2, d'. by rewrite <- app_assoc.
    + intros _. exists d, d', h1, h2, signed, body, ctx, env. split_and!; [done..|]. by rewrite <- app_assoc.
Qed.

(** C11: Whatever happens meanwhile, a device answers an invitation connection with
    "received" only once the invitation is in its inbox on disk: it was signed by
    the very device that connected, is for this user's root and group, its sender
    and its grant were accepted by the engine, and the identity it was checked
    under is the one it was written under.  It writes nothing else. *)
Theorem acknowledged_once_kept t r : runs (sharing_accept endpoint_id peer) t r →
  ∀ t1 e t2, t = t1 ++ e :: t2 → recipient_may t1 (asked e).
Proof.
  intros Hr. eapply (wp_guards recipient_may _ [] (λ _ _, True)) in Hr as [Hr _]; [exact Hr|].
  clear Hr t r. pose proof recipient_quiet as HG. unfold sharing_accept.
  assert (∀ answer h, (answer = FrameReceived → ∃ d d', received_on_disk h d d') → (answer = FrameReceived ∨ ∃ why, answer = Refusal why) →
    wp recipient_may (_ ← match to_vec answer with
      | Some b => sent ← Async.call (ans := ans) (SendFrame b);
          if is_ok (timed sent) && bool_decide (answer = FrameReceived) then _ ← Async.call (ans := ans) RecvFrame; Done () else Done ()
      | None => Done ()
      end; Async.call (ans := ans) CloseConnection) h (λ _ _, True)) as Hend.
  { intros answer h Ha Hw. destruct (to_vec answer) as [f|] eqn:Hf; [|by split].
    split; [|intros sent; cbn; by case_match]. destruct Hw as [->|[why ->]]; [right; split; [done|by apply Ha]|left; by exists why]. }
  apply (wp_ask recipient_may HG RecvFrame); [done|]. intros got. cbv zeta. apply (wp_bind (ans := ans)).
  assert (∀ h, wp recipient_may (Done (Refusal malformed_invitation)) h (λ answer h, wp recipient_may (_ ← match to_vec answer with
      | Some b => sent ← Async.call (ans := ans) (SendFrame b);
          if is_ok (timed sent) && bool_decide (answer = FrameReceived) then _ ← Async.call (ans := ans) RecvFrame; Done () else Done ()
      | None => Done ()
      end; Async.call (ans := ans) CloseConnection) h (λ _ _, True))) as Hno by (intros h; apply Hend; [done|right; by eexists]).
  destruct got as [[b|]|]; [|apply Hno..]. destruct (fits b) eqn:Hfit; [|apply Hno].
  destruct (from_slice b) as [[signed| | |]|] eqn:Hb; [|apply Hno..].
  apply (wp_bind (ans := ans)). eapply wp_mono; [by apply receives|]. intros r' h Hr. cbn [wp]. apply Hend.
  - destruct r' as [[]|e]; [|done]. intros _. by apply Hr.
  - destruct r' as [[]|e]; [by left|right; by eexists].
Qed.
End Receiving.

(** ** Adopting *)
Section Adopting.
Context (id : string).
(** The stored invitation, checked again under one identity. *)
Definition adoptable (h : history) body (ctx : IdentityContext) : Prop :=
  ∃ h0 k d row signed u, h = h0 ++ [E (Base ReadContext) ctx; E (Base EngineKey) (Some k); E (ReadDocument VISOR_APP) (Ok d)] ++ u ++ [E (Base ReadContext) ctx] ∧
    share_inbox_record d id = Some row ∧ from_slice (i_envelope row) = Some signed ∧ genuine signed body ∧ vetted body u.
(** The engine adopted the document, and took in what came with it. *)
Definition adopted (h : history) body (ctx : IdentityContext) : Prop :=
  ∃ h1 u, adoptable h1 body ctx ∧ h = h1 ++ u ∧
    E (AdoptDocument (b_grant body) (b_sender_group body) (b_sender_device body)) (Ok tt) ∈ u ∧
    (b_inline body ≠ [] → ∃ landed, E (ImportInline (g_partition (b_grant body)) (b_inline body)) (Ok landed) ∈ u).
(** The instance the document is given: the one it already has, or a fresh one. *)
Definition instance_chosen (h : history) body (instance : string) : Prop :=
  ∃ h0 d, E (ReadDocument VISOR_APP) (Ok d) ∈ h0 ∧ (h = h0 ∧ instance_for_partition d (g_partition (b_grant body)) = Some instance ∨
    ∃ entropy, h = h0 ++ [E (FillBytes 32) entropy] ∧ instance_for_partition d (g_partition (b_grant body)) = None ∧ instance = hex (take 16 entropy)).
Definition adoption (body : InvitationBody) (instance : string) : Registers.op unit :=
  adopt_share_invitation id instance (g_partition (b_grant body)) (b_service body).
Definition adopter_may (h : history) (c : Calls.call A) : Prop :=
  match c with
  | AdoptDocument g sg sd => ∃ h1 k body ctx, adoptable h1 body ctx ∧ h = h1 ++ [E (Base EngineKey) (Some k)] ∧
      (g, sg, sd) = (b_grant body, b_sender_group body, b_sender_device body)
  | ImportInline p items => ∃ h1 u body ctx, adoptable h1 body ctx ∧ h = h1 ++ u ∧
      E (AdoptDocument (b_grant body) (b_sender_group body) (b_sender_device body)) (Ok tt) ∈ u ∧
      p = g_partition (b_grant body) ∧ items = b_inline body
  | WriteDocument app d' => app = VISOR_APP ∧ ∃ h1 body ctx instance d c, adopted h1 body ctx ∧ instance_chosen h1 body instance ∧
      recording h h1 d c ∧ d' = if decide (c = ctx) then (adoption body instance d).1 else d
  | PushSharingChanged => announced h
  | SpawnHint device => ∃ h1 body ctx, adopted h1 body ctx ∧ device = b_sender_device body
  | _ => quiet c
  end.
Lemma adopter_quiet h c : quiet c → adopter_may h c.
Proof. by destruct c. Qed.
Lemma finds_instance {Y} body h1 ctx (k : string → prog (result Error Y)) h Q : (∀ e h', Q (Err e) h') → adopted h1 body ctx → h = h1 →
  (∀ instance u, adopted (h ++ u) body ctx → instance_chosen (h ++ u) body instance → wp adopter_may (k instance) (h ++ u) Q) →
  wp adopter_may (existing ←! visor_read (λ d, instance_for_partition d (g_partition (b_grant body)));
    instance ← match existing with Some i => Done i | None => entropy ← Async.call (ans := ans) (FillBytes 32); Done (hex (take 16 entropy)) end;
    k instance) h Q.
Proof.
  intros HE (h2 & u & Hable & -> & Had & Hin) -> Hk. apply wp_visor_read; [exact adopter_quiet|done|]. intros key d.
  assert (∀ v, adopted ((h2 ++ u) ++ v) body ctx) as Hmono.
  { intros v. exists h2, (u ++ v). split; [done|]. split; [by rewrite app_assoc|]. split; [apply elem_of_app; by left|].
    intros Hne. destruct (Hin Hne) as [l Hl]. exists l. apply elem_of_app. by left. }
  destruct (instance_for_partition d (g_partition (b_grant body))) as [i|] eqn:Hi.
  - apply (Hk i); [apply Hmono|]. eexists _, d. split; [|by left]. apply elem_of_app. right. right. left.
  - split; [done|]. intros entropy. cbn [wp]. rewrite <- app_assoc. apply Hk; [apply Hmono|]. 
    exists ((h2 ++ u) ++ [E (Base EngineKey) (Some key); E (ReadDocument VISOR_APP) (Ok d)]), d.
    split; [|right; exists entropy; split_and!; [by rewrite <- !app_assoc|done..]]. apply elem_of_app. right. right. left.
Qed.
Lemma takes_inline body h u ctx : adoptable h body ctx → E (AdoptDocument (b_grant body) (b_sender_group body) (b_sender_device body)) (Ok tt) ∈ u →
  wp adopter_may (if bool_decide (b_inline body = []) then Done (Ok true)
    else _ ←! Calls.engine; Calls.engine_call (Async.call (ans := ans) (ImportInline (g_partition (b_grant body)) (b_inline body)))) (h ++ u)
    (λ r h, match r with Ok _ => adopted h body ctx | Err _ => True end).
Proof.
  intros Hable Hu. destruct (decide (b_inline body = [])) as [Hn|Hn].
  - rewrite bool_decide_true by done. exists h, u. by split_and!.
  - rewrite bool_decide_false by done. split; [done|]. intros [k3|]; [|done]. split.
    + exists h, (u ++ [E (Base EngineKey) (Some k3)]), body, ctx. split_and!; [done|by rewrite app_assoc|by apply elem_of_app; left|done..].
    + intros [landed|e]; [|done]. exists h, (u ++ [E (Base EngineKey) (Some k3); E (ImportInline (g_partition (b_grant body)) (b_inline body)) (Ok landed)]).
      split_and!; [done|by rewrite <- !app_assoc|by apply elem_of_app; left|]. intros _. exists landed. apply elem_of_app. right. right. left.
Qed.
(** The instance of an adopted invitation is on disk, and announced. *)
Definition adopted_on_disk (h : history) (instance : string) : Prop :=
  ∃ h1 h2 body ctx d d', adopted h1 body ctx ∧ instance_chosen h1 body instance ∧ recording h2 h1 d ctx ∧ adoption body instance d = (d', Ok ()) ∧
    h = h2 ++ [E (WriteDocument VISOR_APP d') (Ok tt); E PersistEngine (Ok tt); E PushSharingChanged tt; E (SpawnHint (b_sender_device body)) tt].
Lemma records_instance body ctx why instance h : adopted h body ctx → instance_chosen h body instance →
  wp adopter_may (_ ←! visor_mutate (within ctx why (pure (adoption body instance)));
    _ ←! record_landed; _ ← Async.call (ans := ans) (SpawnHint (b_sender_device body)); Done (Ok instance)) h
    (λ r h, match r with Ok i => adopted_on_disk h i | Err _ => True end).
Proof.
  intros Had Hi. apply wp_visor_mutate; [exact adopter_quiet|done|]. intros k d.
  assert (∀ c, recording ((h ++ [E (Base EngineKey) (Some k); E (BeginDocument VISOR_APP) (Ok d)]) ++ [E (Base ReadContext) c]) h d c) as Hrec
    by (intros c; exists k; by rewrite <- app_assoc).
  apply wp_within; [exact adopter_quiet| |].
  - intros c Hne. split; [|done]. split; [done|]. exists h, body, ctx, instance, d, c. by rewrite decide_False.
  - split; [split; [done|]; exists h, body, ctx, instance, d, ctx; by rewrite decide_True|].
    unfold pure. destruct (adoption body instance d) as [d' r'] eqn:Hop. cbn [fst snd]. intros [] ->.
    match goal with |- wp _ _ (?g ++ _) _ => assert (recording g h d ctx) as Hr by apply Hrec; generalize dependent g end.
    intros h4 Hr. apply wp_landed; [exact adopter_quiet|done| |].
    + exists h4, d'. by rewrite <- app_assoc.
    + split; [by exists h, body, ctx|]. intros []. exists h, h4, body, ctx, d, d'. split_and!; [done..|]. by rewrite <- !app_assoc.
Qed.
(** Whatever happens meanwhile, an invitation is adopted only after everything
    that was checked at its receipt is checked again, on the invitation that is
    stored, under one identity; the document gets the instance it already has or a
    fresh one, recorded under the same identity; the answer is that instance, once
    it is on disk. *)
Theorem adoption_rechecked t r : runs (sharing_adopt id) t r →
  (∀ t1 e t2, t = t1 ++ e :: t2 → adopter_may t1 (asked e)) ∧
  (∀ instance, r = Some (Ok instance) → ∃ h, adopted_on_disk h instance ∧ t = h ++ [E UnlockSharing tt]).
Proof.
  intros Hr. eapply (wp_guards adopter_may _ [] (λ r h, match r with Ok i => ∃ h', adopted_on_disk h' i ∧ h = h' ++ [E UnlockSharing tt] | Err _ => True end)) in Hr as [Hr Hq].
  { split; [exact Hr|]. by intros i ->. }
  clear Hr t r. pose proof adopter_quiet as HG. unfold sharing_adopt. apply wp_locked; [done|].
  apply (wp_mono _ _ _ (λ r h, match r with Ok i => adopted_on_disk h i | Err _ => True end)); [|intros [i|e] h Hi; [by eexists|done]].
  apply (wp_ask adopter_may HG (Base ReadContext)); [done|]. intros ctx.
  apply wp_visor_read; [done..|]. intros k d.
  apply wp_pure; [done|]. intros row Hrow%ok_or_Ok. apply wp_pure; [done|]. intros signed Hsigned%ok_or_Ok.
  apply wp_pure; [done|]. intros body Hg%verify_invitation_iff.
  apply wp_quiet_try; [done|apply quiet_verify_sender|done|]. intros t1 [] Hs%runs_verify_sender.
  apply wp_quiet_try; [done|apply quiet_own_recipient|done|]. intros t2 [] Ho%runs_own_recipient.
  apply wp_quiet_try; [done|apply quiet_validate_grant|done|]. intros t3 [] Hv%runs_validate_grant.
  apply wp_still; [done|done|]. cbn [negb].
  match goal with |- wp _ _ ?h _ => assert (adoptable h body ctx) as Hable; [|generalize dependent h] end.
  { exists ([] ++ [E LockSharing tt]), k, d, row, signed, (t1 ++ t2 ++ t3). split; [by rewrite <- !app_assoc|]. split_and!; [done..|].
    eapply vetted_intro; [exact Hs|exact Ho|exact Hv|set_solver..]. }
  intros h1 Hable. apply (wp_ask adopter_may HG (Base EngineKey)); [done|]. intros [k2|]; [|done].
  split; [by exists h1, k2, body, ctx|]. intros [[]|e]; [|done]. rewrite <- app_assoc. apply (wp_try (ans := ans)).
  eapply wp_mono; [apply takes_inline; [exact Hable|right; left]|].
  intros [landed|e] t4 Had; [|done]. eapply finds_instance; [intros; exact I|exact Had|reflexivity|].
  intros instance v. apply records_instance.
Qed.
End Adopting.

(** ** What is sent *)
Lemma with_inline_own body : with_inline (b_inline body) body = body.
Proof. by destruct body. Qed.
(** A wire that is this body signed, with some of its document's items or none. *)
Definition built (p : string) (wire : bytes) (body : InvitationBody) (h : history) : Prop :=
  fits wire = true ∧ ∃ s inline signed, E (Base ReadState) s ∈ h ∧ sign_invitation (seed s) (with_inline inline body) = Ok signed ∧
    from_slice wire = Some (Invitation signed) ∧
    (inline = [] ∨ inline = b_inline body ∨ ∃ budget, E (InlineItems p budget) (Ok (Some inline)) ∈ h).
Lemma built_mono p wire body h h' : built p wire body h → built p wire body (h ++ h').
Proof.
  intros (Hf & s & inline & signed & Hs & Hsign & Hw & Hi). split; [done|]. exists s, inline, signed. split_and!; [by apply elem_of_app; left|done..|].
  destruct Hi as [?|[?|[b ?]]]; [by left|by right; left|right; right]. exists b. by apply elem_of_app; left.
Qed.
Lemma quiet_build p body : all_calls quiet (build_invitation_wire (A := A) (VaultState := VaultState) (DriveSealed := DriveSealed) p body).
Proof.
  apply all_calls_bind; [by repeat split|]. intros s. apply all_calls_try; [done|]. intros bare. cbv zeta. apply all_calls_try; [apply quiet_engine|]. intros _.
  apply all_calls_try; [by apply quiet_asked_engine; repeat split|]. intros found. by repeat (apply all_calls_try; [done|intros ?]).
Qed.
Lemma runs_build p body t wire : runs (build_invitation_wire p body) t (Some (Ok wire)) → built p wire body t.
Proof.
  unfold build_invitation_wire. rewrite runs_bind. intros (t1 & t2 & s & -> & ->%(runs_call (ans := ans) (Base ReadState)) & Hr).
  cbv zeta in Hr. rewrite runs_try in Hr. destruct Hr as (t3 & t4 & bare & -> & [-> _]%runs_Done & Hr).
  rewrite runs_try in Hr. destruct Hr as (t5 & t6 & k & -> & _ & Hr).
  rewrite runs_try in Hr. destruct Hr as (t7 & t8 & found & -> & Hf%runs_asked_engine & Hr). apply (runs_call (ans := ans) (InlineItems _ _)) in Hf as ->.
  rewrite runs_try in Hr. destruct Hr as (t9 & t10 & w1 & -> & [-> [= H1]] & Hr).
  rewrite runs_try in Hr. destruct Hr as (t11 & t12 & w2 & -> & [-> [= H2]] & [-> [= Hr]]).
  destruct (fits w2) eqn:Hfit; [|done]. injection Hr as <-. split; [done|]. exists s.
  assert (∀ b w, signed_frame (seed s) b = Ok w → ∃ signed, sign_invitation (seed s) b = Ok signed ∧ from_slice w = Some (Invitation signed)) as Hsf.
  { unfold signed_frame. intros b w (signed & Hs & [_ Hw]%serialize_Ok)%bind_Ok. by exists signed. }
  destruct (fits w1).
  - injection H2 as <-. destruct (Hsf _ _ (eq_sym H1)) as (signed & Hs & Hw). destruct found as [items|].
    + exists items, signed. split_and!; [left|done..|]. right. right. eexists. right. do 2 (apply elem_of_app; right). left.
    + exists (b_inline body), signed. rewrite with_inline_own. split_and!; [left|done..|]. by right; left.
  - destruct (Hsf _ _ (eq_sym H2)) as (signed & Hs & Hw). exists [], signed. split_and!; [left| |done|by left]. destruct found as [items|]; [|done].
    by destruct body.
Qed.
(** C38: Every invitation that is built fits one frame with its length, whatever
    items its document has; it reads back as this body signed by this device, with
    items the engine listed or none; and what it carries verifies, unless it is so
    large that every reader refuses it. *)
Theorem invitation_fits_and_reads_back p body t wire : runs (build_invitation_wire p body) t (Some (Ok wire)) →
  Z.of_nat (length wire) <= sharing_wire_budget ∧ ∃ s inline signed, E (Base ReadState) s ∈ t ∧
    from_slice wire = Some (Invitation signed) ∧
    (inline = [] ∨ inline = b_inline body ∨ ∃ budget, E (InlineItems p budget) (Ok (Some inline)) ∈ t) ∧
    (b_sender_device body = verifying_key (seed s) → b_version body = 0 → b_history_and_resharing body = true →
     Z.of_nat (length (sv_body signed)) + 64 <= INVITATION_BUDGET → verify_invitation signed = Ok (with_inline inline body)).
Proof.
  intros (Hf & s & inline & signed & Hs & Hsign & Hw & Hi)%runs_build.
  split; [unfold fits, sharing_wire_budget in *; apply Z.leb_le in Hf; lia|]. exists s, inline, signed. split_and!; [done..|].
  intros Hd Hv Hh Hz. apply verify_invitation_iff. by eapply signed_genuine.
Qed.

(** ** Delivering *)
Section Delivering.
Context (id : string).
(** The row that is delivered: the stored one, or the stored one with the
    envelope that was just built for it and written. *)
Definition row_of (h : history) (row : ShareOutgoingRecord) : Prop :=
  ∃ d stored, E (ReadDocument VISOR_APP) (Ok d) ∈ h ∧ share_outgoing_record d id = Some stored ∧
    (row = stored ∨ ∃ body wire d1 d2, o_envelope stored = [] ∧ from_slice (rebuild_body stored) = Some body ∧ built (g_partition (b_grant body)) wire body h ∧
      set_share_envelope id wire d1 = (d2, Ok ()) ∧ E (WriteDocument VISOR_APP d2) (Ok tt) ∈ h ∧ row = with_envelope wire stored).
(** Connected to the device the row is for, everything on disk, under one identity. *)
Definition connected (h : history) (row : ShareOutgoingRecord) (ctx : IdentityContext) : Prop :=
  ∃ h0, row_of h0 row ∧ E (Base ReadContext) ctx ∈ h0 ∧ fits (o_envelope row) = true ∧ o_envelope row ≠ [] ∧
    h = h0 ++ [E (Base ReadContext) ctx; E PersistEngine (Ok tt); E HasEndpoint true; E (Dial (endpoint row)) (Some (Ok (recipient_device row)))].
(** The recipient answered that it keeps the invitation. *)
Definition acknowledged (h : history) (row : ShareOutgoingRecord) (ctx : IdentityContext) : Prop :=
  ∃ h1 b, connected h1 row ctx ∧ receipt b = Ok () ∧
    h = h1 ++ [E (SendFrame (o_envelope row)) (Some (Ok tt)); E RecvFrame (Some b)].
Definition may_write (h : history) (d d' : Document) : Prop :=
  (∃ body wire, built (g_partition (b_grant body)) wire body h ∧ d' = (set_share_envelope id wire d).1) ∨
  (∃ why, d' = (set_share_delivery_detail id false why d).1) ∨
  d' = (set_share_delivery id false d).1 ∨
  d' = (set_share_delivery id true d).1 ∧ ∃ h1 u row ctx, acknowledged h1 row ctx ∧ h = h1 ++ u ∧ E (Base ReadContext) ctx ∈ u.
Definition deliverer_may (h : history) (c : Calls.call A) : Prop :=
  match c with
  | SendFrame f => (∃ row ctx, connected h row ctx ∧ f = o_envelope row) ∨ (to_vec FrameDone = Some f ∧ ∃ row ctx, acknowledged h row ctx)
  | WriteDocument app d' => app = VISOR_APP ∧ ∃ h0 k d, h = h0 ++ [E (Base EngineKey) (Some k); E (BeginDocument VISOR_APP) (Ok d)] ∧ may_write h0 d d'
  | PushSharingChanged => announced h
  | _ => quiet c
  end.
Lemma deliverer_quiet h c : quiet c → deliverer_may h c.
Proof. by destruct c. Qed.
Lemma wp_record {Y} (change : Registers.op unit) (k : unit → prog (result Error Y)) h Q : (∀ e h', Q (Err e) h') →
  (∀ d, may_write h d (change d).1) →
  (∀ u d d', change d = (d', Ok ()) → wp deliverer_may (k tt) (h ++ u ++ [E (WriteDocument VISOR_APP d') (Ok tt)]) Q) →
  wp deliverer_may (try (visor_mutate (pure change)) k) h Q.
Proof.
  intros HE Hm Hk. apply wp_visor_mutate; [exact deliverer_quiet|done|]. intros key d. specialize (Hm d).
  unfold pure. destruct (change d) as [d' r] eqn:Hc. split; [split; [done|by exists h, key, d]|]. cbn [fst snd] in *. intros [] ->.
  rewrite <- app_assoc. by apply (Hk _ d).
Qed.
Lemma records_failure {Y} why (k : unit → prog (result Error Y)) h Q : (∀ e h', Q (Err e) h') → (∀ h', wp deliverer_may (k tt) h' Q) →
  wp deliverer_may (try (record_delivery_failure id why) k) h Q.
Proof.
  intros HE Hk. apply wp_try. apply wp_record; [done|intros d; right; left; by exists why|]. intros u d d' _.
  apply wp_landed_last; [exact deliverer_quiet|done| |apply Hk]. exists (h ++ u), d'. by rewrite <- !app_assoc.
Qed.
Lemma prepares h row : (∃ d, E (ReadDocument VISOR_APP) (Ok d) ∈ h ∧ share_outgoing_record d id = Some row) →
  wp deliverer_may (prepared id row) h (λ r h', match r with Ok row => row_of h' row ∧ ∀ e, e ∈ h → e ∈ h' | Err _ => True end).
Proof.
  intros (d & Hd & Hs). assert (row_of h row) as Hrow by (exists d, row; split_and!; auto).
  unfold prepared. case_bool_decide as He; cbn [negb orb]; [|by split].
  case_bool_decide as Hr; [by split|]. apply wp_pure; [done|]. intros body Hb%ok_or_Ok.
  apply (wp_bind (ans := ans)). apply (wp_quiet deliverer_may quiet); [exact deliverer_quiet|apply quiet_build|].
  intros t [wire|e] Hbuilt; [|by apply records_failure]. apply runs_build in Hbuilt.
  assert (built (g_partition (b_grant body)) wire body (h ++ t)) as Hw.
  { destruct Hbuilt as (Hf & s & inline & signed & H1 & H2 & H3 & H4). split; [done|]. exists s, inline, signed. split_and!; [by apply elem_of_app; right|done..|].
    destruct H4 as [?|[?|[n ?]]]; [by left|by right; left|right; right; exists n; by apply elem_of_app; right]. }
  apply wp_record; [done|intros d0; left; by exists body, wire|]. intros u d1 d2 Hop.
  split; [by apply deliverer_quiet|]. intros [[]|e]; [|done]. cbn [wp].
  split; [|intros e He'; rewrite !elem_of_app; tauto]. exists d, row. split; [rewrite !elem_of_app; tauto|]. split; [done|]. right.
  exists body, wire, d1, d2. split_and!; [done|done|by rewrite <- !app_assoc; rewrite app_assoc; apply built_mono|done| |done].
  rewrite !elem_of_app, !list_elem_of_singleton. tauto.
Qed.
(** The delivery is recorded, on disk, and announced. *)
Definition delivered_on_disk (h : history) : Prop :=
  ∃ h1 row ctx u d d', acknowledged h1 row ctx ∧ set_share_delivery id true d = (d', Ok ()) ∧
    h = h1 ++ u ++ [E (WriteDocument VISOR_APP d') (Ok tt); E PersistEngine (Ok tt); E PushSharingChanged tt].
Lemma hands h row ctx : connected h row ctx →
  wp deliverer_may (handed (o_envelope row)) h (λ r h', match r with Ok _ => acknowledged h' row ctx | Err _ => True end).
Proof.
  intros Hc. split; [left; by exists row, ctx|]. intros [[[]|e]|]; [|done..]. split; [done|]. intros [b|]; [|done].
  cbn -[receipt acknowledged]. destruct (receipt b) as [[]|e] eqn:Hb; [|done]. exists h, b. by rewrite <- app_assoc.
Qed.
Lemma retries h row ctx : row_of h row → E (Base ReadContext) ctx ∈ h →
  wp deliverer_may (retry_row id ctx row) h (λ r h', match r with Ok _ => delivered_on_disk h' | Err _ => True end).
Proof.
  intros Hrow Hctx. pose proof (deliverer_quiet) as HG. unfold retry_row.
  destruct (fits (o_envelope row)) eqn:Hfit; [|done]. cbn [negb]. case_bool_decide as Hne; [done|].
  apply (wp_still deliverer_may HG); [done|]. cbn [negb].
  split; [done|]. intros [[]|e]; [|done]. split; [done|]. intros []; [|by apply records_failure]. cbn [negb].
  split; [done|]. intros [[key|why]|]; cbn [mbind prog_bind prog_bind_ timed default]; [|by apply records_failure..].
  rewrite <- !app_assoc. cbn [app]. set (g := h ++ _). apply (wp_bind (ans := ans)).
  apply (wp_mono _ _ _ (λ r h', match r with Ok _ => acknowledged h' row ctx | Err _ => True end)).
  { case_bool_decide as Hk; [|done]. cbn [negb]. apply hands. exists h. split_and!; [done..|]. by rewrite <- Hk. }
  intros delivery t Hdel. assert (∀ h', (match delivery with Ok _ => ∃ h1 u, acknowledged h1 row ctx ∧ h' = h1 ++ u | Err _ => True end) →
    wp deliverer_may (_ ← Async.call (ans := ans) CloseConnection;
      same ← Calls.identity_context_is ctx;
      if negb same then Done (Err (changed_identity "during invitation delivery")) else
      _ ←! visor_mutate (pure (set_share_delivery id (is_ok delivery)));
      _ ←! record_landed; Done (map_err (Error_new Failed) delivery)) h' (λ r h', match r with Ok _ => delivered_on_disk h' | Err _ => True end)) as Htail.
  { intros h' Hh. split; [done|]. intros []. apply (wp_still deliverer_may HG); [done|]. cbn [negb].
    apply wp_record; [done| |].
    - intros d. destruct delivery as [[]|why]; cbn [is_ok]; [|by right; right; left]. right. right. right. split; [done|].
      destruct Hh as (h1 & u & Ha & ->). exists h1, (u ++ [E CloseConnection tt; E (Base ReadContext) ctx]), row, ctx.
      split; [done|]. split; [by rewrite <- !app_assoc|]. apply elem_of_app. right. right. left.
    - intros u d d' Hop. apply wp_landed; [done|done|exists (h' ++ [E CloseConnection tt] ++ [E (Base ReadContext) ctx] ++ u), d'; by rewrite <- !app_assoc|]. destruct delivery as [[]|why]; [|done].
      cbn [wp map_err]. destruct Hh as (h1 & u1 & Ha & ->). exists h1, row, ctx, (u1 ++ [E CloseConnection tt; E (Base ReadContext) ctx] ++ u), d, d'.
      split_and!; [done|done|by rewrite <- !app_assoc]. }
  destruct delivery as [[]|why]; [|by apply Htail]. destruct (to_vec FrameDone) as [f|] eqn:Hf.
  - split; [right; split; [done|]; by eexists _, _|]. intros sent. apply Htail. eexists _, _. by split.
  - apply Htail. exists (g ++ t), []. by rewrite app_nil_r.
Qed.
(** Whatever happens meanwhile, an invitation leaves the device only from disk,
    complete, to the device it is for, under the identity the retry began with; and
    it is recorded as delivered, and the retry succeeds, only when that device
    answered that it keeps it. *)
Theorem delivered_once_acknowledged t r : runs (sharing_retry id) t r →
  (∀ t1 e t2, t = t1 ++ e :: t2 → deliverer_may t1 (asked e)) ∧
  (r = Some (Ok tt) → ∃ h, delivered_on_disk h ∧ t = h ++ [E UnlockSharing tt]).
Proof.
  intros Hr. eapply (wp_guards deliverer_may _ [] (λ r h, match r with Ok _ => ∃ h', delivered_on_disk h' ∧ h = h' ++ [E UnlockSharing tt] | Err _ => True end)) in Hr as [Hr Hq].
  { split; [exact Hr|]. by intros ->. }
  clear Hr t r. pose proof deliverer_quiet as HG. unfold sharing_retry. apply wp_locked; [done|].
  apply (wp_mono _ _ _ (λ r h, match r with Ok _ => delivered_on_disk h | Err _ => True end)); [|intros [[]|e] h Hi; [by eexists|done]].
  apply (wp_ask deliverer_may HG (Base ReadContext)); [done|]. intros ctx.
  apply wp_visor_read; [done..|]. intros k d. apply wp_pure; [done|]. intros row Hrow%ok_or_Ok.
  apply wp_try. eapply wp_mono; [apply prepares|].
  - exists d. split; [|done]. apply elem_of_app. right. right. left.
  - intros [row'|e] t Hp; [|done]. destruct Hp as [Hp Hin]. apply retries; [done|]. apply Hin. apply elem_of_app. left. apply elem_of_app. right. left.
Qed.
End Delivering.

(** ** Granting *)
Section Granting.
Context (endpoint_id : bytes → string) (prompt : string) (access : ShareAccess).
(** What kept a grant from being recorded. *)
Inductive trouble (ctx : IdentityContext) (t : history) : Prop :=
| IdentityChanged c : c ≠ ctx → E (Base ReadContext) c ∈ t → trouble ctx t
| EngineGone : E (Base EngineKey) None ∈ t → trouble ctx t
| NotRead e : E (BeginDocument VISOR_APP) (Err e) ∈ t → trouble ctx t
| NotPublished d e : E (WriteDocument VISOR_APP d) (Err e) ∈ t → trouble ctx t
| NotSaved e : E PersistEngine (Err e) ∈ t → trouble ctx t
| NotRecordable d row why : E (BeginDocument VISOR_APP) (Ok d) ∈ t → (finish_share_prompt prompt row d).2 = Err why → trouble ctx t.
Section Recording.
Context (ctx : IdentityContext) (contact : Contact) (device : bytes) (partition : string) (body : InvitationBody).
(** The row tells of the grant: the invitation, or what to build it from. *)
Definition tells (h : history) (row : ShareOutgoingRecord) : Prop :=
  ∃ rebuild r, to_vec body = Some rebuild ∧ row = outgoing endpoint_id contact access device rebuild r ∧
    match r with Ok wire => built partition wire body h | Err _ => True end.
Definition recorded (h : history) : Prop :=
  ∃ h1 h2 row d d', tells h1 row ∧ recording h2 h1 d ctx ∧ finish_share_prompt prompt row d = (d', Ok ()) ∧
    h = h2 ++ [E (WriteDocument VISOR_APP d') (Ok tt); E PersistEngine (Ok tt); E PushSharingChanged tt].
Definition recorder_may (h : history) (c : Calls.call A) : Prop :=
  match c with
  | WriteDocument app d' => app = VISOR_APP ∧ ∃ h1 row d c, tells h1 row ∧ recording h h1 d c ∧
      d' = if decide (c = ctx) then (finish_share_prompt prompt row d).1 else d
  | PushSharingChanged => announced h
  | _ => quiet c
  end.
Lemma recorder_quiet h c : quiet c → recorder_may h c.
Proof. by destruct c. Qed.
Lemma records_grant : wp recorder_may (record_grant endpoint_id ctx prompt contact access device partition body) []
  (λ r h, match r with Ok _ => recorded h | Err _ => trouble ctx h end).
Proof.
  pose proof recorder_quiet as HG. unfold record_grant. destruct (codec_roundtrip body) as (rebuild & Hb & _).
  unfold serialize. rewrite Hb. cbn [ok_or try mbind prog_bind prog_bind_].
  apply (wp_bind (ans := ans)). apply (wp_quiet recorder_may quiet); [done|apply quiet_build|]. intros t b Hbuilt. cbv zeta.
  set (row := outgoing endpoint_id contact access device rebuild b).
  assert (tells ([] ++ t) row) as Htells.
  { exists rebuild, b. split_and!; [done..|]. destruct b as [wire|e]; [|done]. by apply runs_build in Hbuilt. }
  generalize dependent ([] ++ t). intros h1 Htells. clear Hbuilt.
  apply wp_visor_mutate_or; [done| | |].
  { intros e. apply EngineGone, elem_of_app. right. left. }
  { intros k why e. eapply NotRead. apply elem_of_app. right. right. left. }
  intros k d. assert (∀ c, recording ((h1 ++ [E (Base EngineKey) (Some k); E (BeginDocument VISOR_APP) (Ok d)]) ++ [E (Base ReadContext) c]) h1 d c) as Hrec
    by (intros c; exists k; by rewrite <- app_assoc).
  apply wp_within; [done|intros c Hne|].
  - split; [split; [done|]; exists h1, row, d, c; by rewrite decide_False|]. cbn [fst snd].
    assert (∀ u, trouble ctx (((h1 ++ [E (Base EngineKey) (Some k); E (BeginDocument VISOR_APP) (Ok d)]) ++ [E (Base ReadContext) c]) ++ u)) as Ht; [|by split].
    intros u. apply (IdentityChanged _ _ c Hne), elem_of_app. left. apply elem_of_app. right. left.
  - unfold pure. destruct (finish_share_prompt prompt row d) as [d' r] eqn:Hop.
    pose proof (Hrec ctx) as Hr. revert Hr. match goal with |- recording ?h _ _ _ → _ => assert (E (BeginDocument VISOR_APP) (Ok d) ∈ h) as Hin; [|generalize dependent h] end.
    { apply elem_of_app. left. apply elem_of_app. right. right. left. }
    intros h2 Hin Hr. cbn [fst snd].
    split; [split; [done|]; exists h1, row, d, ctx; by rewrite decide_True, Hop|]. split.
    { intros why e. eapply NotPublished. apply elem_of_app. right. left. }
    destruct r as [[]|why]; [|intros e; eapply (NotRecordable _ _ d row); [by apply elem_of_app; left|by rewrite Hop]].
    apply wp_landed_or; [done|intros e; eapply NotSaved; apply elem_of_app; right; left|by exists h2, d'; rewrite <- app_assoc|].
    exists h1, h2, row, d, d'. split_and!; [done..|]. by rewrite <- app_assoc.
Qed.
(** C13: A grant is never forgotten: once the engine has granted, whatever happens
    meanwhile, either the outgoing record of this very grant is written under the
    same identity and is on disk, invitation or not, or something outside refused:
    the identity changed, the engine is gone, or its document or the disk failed. *)
Theorem grant_recorded t r : runs (record_grant endpoint_id ctx prompt contact access device partition body) t r →
  (∀ t1 e t2, t = t1 ++ e :: t2 → recorder_may t1 (asked e)) ∧
  match r with Some (Ok _) => recorded t | Some (Err _) => trouble ctx t | None => True end.
Proof.
  intros Hr. apply (wp_guards recorder_may _ [] _ _ _ records_grant) in Hr as [Hr Hq]. split; [exact Hr|]. destruct r as [[]|]; done.
Qed.
End Recording.

(** ** Confirming *)
Section Confirming.
Context (contact_id : string).
(** No access was granted yet. *)
Definition ungranted (h : history) : Prop := ∀ p g dev pf a y, E (GrantDocument p g dev pf a) y ∉ h.
Lemma ungranted_nil : ungranted [].
Proof. intros p g dev pf a y Hin. by apply elem_of_nil in Hin. Qed.
Lemma ungranted_more h t : ungranted h → Forall (λ e, quiet (asked e)) t → ungranted (h ++ t).
Proof.
  intros Hh Ht p g dev pf a y [Hin|Hin]%elem_of_app; [by eapply Hh|]. rewrite Forall_forall in Ht. by apply Ht in Hin.
Qed.
Lemma ungranted_ask h c y : ungranted h → match c with GrantDocument _ _ _ _ _ => False | _ => True end → ungranted (h ++ [E c y]).
Proof. intros Hh Hc p g dev pf a y' [Hin|Hin%list_elem_of_singleton]%elem_of_app; [by eapply Hh|]. by injection Hin as <- _. Qed.
Ltac ungranted := repeat first [assumption|apply ungranted_nil|apply ungranted_ask; [|exact I]|apply ungranted_more; [|first [assumption|by repeat constructor]]].
Record chosen (h : history) (partition : string) (g device proof : bytes) (contact : Contact) (retained : RetainedIdentity) : Prop := {
  ch_fresh : ∃ d, E (ReadDocument VISOR_APP) (Ok d) ∈ h ∧ share_outgoing_record d prompt = None;
  ch_prompt : ∃ d record, E (ReadDocument VISOR_APP) (Ok d) ∈ h ∧ share_prompt d prompt = Some record ∧ p_partition record = partition;
  ch_contact : ∃ d, E (ReadDocument CONTACTS_APP) (Ok d) ∈ h ∧ Contacts.contact d contact_id = Some contact;
  ch_retained : retained_identity contact = Some retained;
  ch_group : ∃ b, verify_root_binding (retained_binding retained) = Ok b ∧ group b = g;
  ch_authority : hd_error (authorities retained) = Some (device, proof);
}.
(** The invitation says who grants what to whom: this user, by its own card. *)
Definition own_card (body : InvitationBody) : Prop :=
  ∃ p key pf at_ rs, self_root p = b_sender_root body ∧
    verify_introduction (b_sender_identity body) = Ok (mkPending (mkIntroduction (mkIdentity (self_binding p) (variants p) key pf) key [] [] at_) rs).
Definition granted (h : history) (ctx : IdentityContext) (partition : string) (contact : Contact) (device : bytes) (body : InvitationBody) : Prop :=
  ∃ h0 k proof retained grant, ungranted h0 ∧ chosen h0 partition (b_recipient_group body) device proof contact retained ∧
    E (Base ReadContext) ctx ∈ h0 ∧ own_card body ∧ E (Base AuthorityGroup) (Ok (b_sender_group body)) ∈ h0 ∧
    E (Base EngineKey) (Some (b_sender_device body)) ∈ h0 ∧
    b_recipient_root body = retained_root retained ∧ b_access body = access ∧ b_grant body = grant ∧ b_inline body = [] ∧
    h = h0 ++ [E (Base EngineKey) (Some k); E (GrantDocument partition (b_recipient_group body) device proof (document_access access)) (Ok grant);
               E (Base ReadContext) ctx].
Definition confirmer_may (h : history) (c : Calls.call A) : Prop :=
  match c with
  | GrantDocument p g dev pf a => ungranted h ∧ ∃ h0 k contact retained, chosen h0 p g dev pf contact retained ∧ h = h0 ++ [E (Base EngineKey) (Some k)] ∧
      a = document_access access
  | WriteDocument _ _ | PushSharingChanged => ∃ h0 u ctx partition contact device body, granted h0 ctx partition contact device body ∧ h = h0 ++ u ∧
      recorder_may ctx contact device partition body u c
  | _ => quiet c
  end.
Lemma confirmer_quiet h c : quiet c → confirmer_may h c.
Proof. by destruct c. Qed.
(** Something to deliver, or a grant whose invitation could not be built. *)
Definition confirmed (h : history) : Prop :=
  (∃ h0, h = h0 ++ [E PersistEngine (Ok tt)] ∧ ungranted h ∧ ∃ d, E (ReadDocument VISOR_APP) (Ok d) ∈ h0 ∧ is_Some (share_outgoing_record d prompt)) ∨
  (∃ h0 u ctx partition contact device body, granted h0 ctx partition contact device body ∧ h = h0 ++ u ∧ recorded ctx contact device partition body u).
(** C12: Whatever happens meanwhile, confirming a prompt grants exactly what the
    screen showed: the document of that prompt, with that access, to the group and
    the authority device retained for that contact, once, and only with this user's
    own card in hand; and it answers only once the record of the grant, or of the
    one already made, is on disk. *)
Theorem confirmation_grants_as_shown t r : runs (write_locked (confirm_locked endpoint_id prompt contact_id access)) t r →
  (∀ t1 e t2, t = t1 ++ e :: t2 → confirmer_may t1 (asked e)) ∧
  (∀ b, r = Some (Ok b) → ∃ h, confirmed h ∧ t = h ++ [E UnlockSharing tt]).
Proof.
  intros Hr. eapply (wp_guards confirmer_may _ [] (λ r h, match r with Ok _ => ∃ h', confirmed h' ∧ h = h' ++ [E UnlockSharing tt] | Err _ => True end)) in Hr as [Hr Hq].
  { split; [exact Hr|]. by intros b ->. }
  clear Hr t r. pose proof confirmer_quiet as HG. apply wp_locked; [done|].
  apply (wp_mono _ _ _ (λ r h, match r with Ok _ => confirmed h | Err _ => True end)); [|intros [b|e] h Hi; [by eexists|done]].
  unfold confirm_locked. apply (wp_ask confirmer_may HG (Base ReadContext)); [done|]. intros ctx.
  apply wp_visor_read; [done..|]. intros k d. case_bool_decide as Hsent.
  { split; [done|]. intros [[]|e]; [|done]. left. eexists. split; [reflexivity|]. split; [ungranted|].
    exists d. split; [|done]. apply elem_of_app. right. right. left. }
  apply wp_noted; [done|apply quiet_get|done|]. intros t1 contact Hq1 Hcontact%runs_get.
  apply wp_pure; [done|]. intros retained Hret%ok_or_Ok. apply wp_pure; [done|]. intros b Hb%map_err_Ok.
  apply wp_pure; [done|]. intros [device pf] Hauth%ok_or_Ok.
  apply wp_visor_read; [done..|]. intros k2 d2. apply wp_pure; [done|]. intros record Hrecord%ok_or_Ok.
  apply wp_noted; [done|apply quiet_profile|done|]. intros t2 me Hq2 _.
  apply wp_noted; [done|apply quiet_share|done|]. intros t3 card Hq3 Hcard.
  apply shares_displayed in Hcard as [_ Hcard]. destruct (Hcard card eq_refl) as (p & key & proof & now & at_ & rs & Hdisp & _ & Hcard').
  apply wp_noted; [done|apply quiet_engine|done|]. intros t4 _ Hq4 _.
  apply wp_noted; [done|by apply quiet_asked_engine; repeat split|done|]. intros t5 sender_group Hq5 Hsg%runs_asked_engine.
  apply wp_noted; [done|apply quiet_engine|done|]. intros t6 sender_device Hq6 Hsd%runs_engine.
  match goal with |- wp _ _ ?h _ => assert (chosen h (p_partition record) (group b) device pf contact retained ∧ E (Base ReadContext) ctx ∈ h ∧
    E (Base AuthorityGroup) (Ok sender_group) ∈ h ∧ E (Base EngineKey) (Some sender_device) ∈ h ∧ ungranted h) as (Hch & Hctx & Hg & Hd & Hun); [|generalize dependent h] end.
  { apply (runs_call (ans := ans) (Base AuthorityGroup)) in Hsg as ->. destruct Hcontact as (d3 & Hd3 & Hc3).
    match goal with |- ?P ∧ ?Q1 ∧ ?Q2 ∧ ?Q3 ∧ ?U => assert U by ungranted; cut (P ∧ Q1 ∧ Q2 ∧ Q3); [tauto|] end.
    rewrite !elem_of_app, !list_elem_of_singleton. split; [|tauto]. split.
    - exists d. split; [|by apply eq_None_not_Some]. rewrite !elem_of_app. do 7 left. right. right. left.
    - exists d2, record. split; [|done]. rewrite !elem_of_app. do 5 left. right. right. left.
    - exists d3. split; [|done]. rewrite !elem_of_app. tauto.
    - done.
    - by exists b.
    - done. }
  intros h Hch Hctx Hg Hd Hun. apply (wp_ask confirmer_may HG (Base EngineKey)); [done|]. intros [k3|]; [|done].
  split; [split; [by apply ungranted_ask|by exists h, k3, contact, retained]|]. intros [grant|e]; [|done]. rewrite <- app_assoc.
  apply wp_still; [done|done|]. cbn [negb fst snd]. rewrite <- app_assoc.
  match goal with |- wp _ (record_grant _ _ _ _ _ _ _ ?body) ?g _ => assert (granted g ctx (p_partition record) contact device body) as Hgr; [|generalize dependent g; generalize body] end.
  { exists h, k3, pf, retained, grant. split_and!; [done|done|done| |done..]. exists p, key, proof, at_, rs. split; [|done].
    by destruct Hdisp as (? & ? & ? & ? & ? & ? & ? & ? & ? & ? & _). }
  clear -HG. intros body g Hgr. rewrite <- (app_nil_r g). eapply wp_mono; [eapply wp_from; [|apply records_grant]|].
  - intros u c Hc. destruct c; try done; by exists g, u, ctx, (p_partition record), contact, device, body.
  - cbn beta. intros [b0|e] t (u & Hu & Hrec); [|done]. right. by exists g, u, ctx, (p_partition record), contact, device, body.
Qed.
End Confirming.
End Granting.
End Facts.

Module Concrete.
Import Crypto.Toy ToySigned ContactsFacts.Concrete BookFacts.Concrete.
#[local] Existing Instances History.Toy.automerge History.Toy.laws History.Toy.graph checksum.
#[local] Program Instance verifies : Verifies := {| verify k m g := bool_decide (g = fit 64 (k ++ m)) |}.
Next Obligation. intros s m. by apply bool_decide_eq_true. Qed.
(** ** Bytes for every record *)
#[local] Program Instance wire_bool : Wire bool := wire_by (λ b : bool, if b then 1 else 0) (λ z, z =? 1) _.
Next Obligation. by intros []. Qed.
#[local] Program Instance wire_item : Wire StoreItem :=
  wire_by (λ i, (si_tree i, si_commit i, si_signed i, si_blob i, bool_decide (si_kind i = ItemCommit)))
    (λ t, mkStoreItem t.1.1.1.1 t.1.1.1.2 t.1.1.2 t.1.2 (if t.2 : bool then ItemCommit else ItemFragment)) _.
Next Obligation. by intros [???? []]. Qed.
#[local] Program Instance wire_grant : Wire DocumentGrant :=
  wire_by (λ g, (g_partition g, g_document g, g_recipient_group g, bool_decide (g_access g = AccessEdit), g_authority g, g_frontier g))
    (λ t, mkGrant t.1.1.1.1.1 t.1.1.1.1.2 t.1.1.1.2 (if t.1.1.2 : bool then AccessEdit else AccessRead) t.1.2 t.2) _.
Next Obligation. by intros [??? [] ??]. Qed.
#[local] Program Instance wire_body : Wire InvitationBody :=
  wire_by (λ b, ((b_version b, b_id b, b_sender_root b, b_sender_group b, b_sender_device b), (b_sender_identity b, b_recipient_root b, b_recipient_group b),
      (b_document_type b, b_service b, b_label b), (is_edit (b_access b), b_history_and_resharing b, b_grant b, b_inline b)))
    (λ t, let '((v, i, sr, sg, sd), (si, rr, rg), (dt, sv, l), (a, h, g, items)) := t in mkBody v i sr sg sd si rr rg dt sv l (access_of a) h g items) _.
Next Obligation. by intros [??????????? [] ???]. Qed.
#[local] Program Instance wire_invitation : Wire SignedInvitation :=
  wire_by (λ s, (sv_body s, sv_signature s)) (λ t, mkSignedInvitation t.1 t.2) _.
Next Obligation. by intros []. Qed.
#[local] Program Instance wire_frame : Wire Frame :=
  wire_by (λ f, match f with Invitation s => (0, (sv_body s, sv_signature s), EmptyString) | FrameReceived => (1, ([], []), EmptyString)
      | Refusal why => (2, ([], []), why) | FrameDone => (3, ([], []), EmptyString) end)
    (λ t, let '(n, (b, g), why) := t in if n =? 0 then Invitation (mkSignedInvitation b g) else if n =? 1 then FrameReceived else if n =? 2 then Refusal why else FrameDone) _.
Next Obligation. by intros [[]| | |]. Qed.
#[local] Program Instance wire_codec `{Wire T} : Codec T := {| to_vec x := Some (write x); from_slice b := whole (parse b) |}.
Next Obligation. intros T ? x. exists (write x). split; [done|]. pose proof (parse_write x []) as E. rewrite app_nil_r in E. by rewrite E. Qed.
#[local] Program Instance wire_prompt : Wire SharePromptRecord :=
  wire_by (λ r, (p_id r, p_partition r, p_app r, p_label r)) (λ t, mkPrompt t.1.1.1 t.1.1.2 t.1.2 t.2) _.
Next Obligation. by intros []. Qed.
#[local] Program Instance wire_outgoing : Wire ShareOutgoingRecord :=
  wire_by (λ r, ((o_id r, o_label r, recipient r, o_edit r), (o_state r, detail r, endpoint r), (o_envelope r, rebuild_body r, recipient_device r)))
    (λ t, mkOutgoing t.1.1.1.1.1 t.1.1.1.1.2 t.1.1.1.2 t.1.1.2 t.1.2.1.1 t.1.2.1.2 t.1.2.2 t.2.1.1 t.2.1.2 t.2.2) _.
Next Obligation. by intros []. Qed.
#[local] Program Instance wire_inbox : Wire ShareInboxRecord :=
  wire_by (λ r, ((i_id r, i_label r, sender r, i_app r), (i_edit r, i_envelope r, adopted_instance r), (i_endpoint r, i_device r)))
    (λ t, mkInbox t.1.1.1.1.1 t.1.1.1.1.2 t.1.1.1.2 t.1.1.2 t.1.2.1.1 t.1.2.1.2 t.1.2.2 t.2.1 t.2.2) _.
Next Obligation. by intros []. Qed.
#[local] Program Instance wire_instance : Wire ShareInstanceRecord :=
  wire_by (λ r, ((n_partition r, n_app r, n_label r), (n_edit r, n_endpoint r, n_device r)))
    (λ t, mkInstance t.1.1.1 t.1.1.2 t.1.2 t.2.1.1 t.2.1.2 t.2.2) _.
Next Obligation. by intros []. Qed.
#[local] Program Instance wire_json `{Wire T} : SerdeJson T := {|
  to_string x := Ok (str_of (write x));
  from_str s := whole (parse (as_bytes s));
|}.
Next Obligation. intros T ? x s [= <-]. rewrite as_bytes_str_of. pose proof (parse_write x []) as E. rewrite app_nil_r in E. by rewrite E. Qed.

(** ** A kernel with two documents, and a peer whose frames are [inbox] *)
Abbreviation doc := (Document History.Toy.adoc).
Record world := mkWorld { book : doc; visor : doc; inbox : list bytes }.
Definition answers (w : world) (c : Calls.call History.Toy.adoc) : option (cans c * world) :=
  match c as c return option (cans c * world) with
  | Base c => (λ y, (y, w)) <$> base_handle c
  | ReadDocument app | BeginDocument app => Some (Ok (if bool_decide (app = VISOR_APP) then visor w else book w), w)
  | WriteDocument app d => Some (Ok tt, if bool_decide (app = VISOR_APP) then mkWorld (book w) d (inbox w) else mkWorld d (visor w) (inbox w))
  | MembershipProof => Some (Ok [byte_of 7], w)
  | VerifyMembership _ _ _ | ValidateGrant _ _ _ | AdoptDocument _ _ _ => Some (Ok tt, w)
  | GrantDocument p g _ _ a => Some (Ok (mkGrant p [] g a [] []), w)
  | InlineItems _ _ => Some (Ok (Some [mkStoreItem [byte_of 1] [byte_of 2] [byte_of 3] [byte_of 4] ItemCommit]), w)
  | ImportInline _ _ => Some (Ok true, w)
  | PersistEngine => Some (Ok tt, w)
  | MeetingGeneration => Some (3, w)
  | Now => Some (20, w)
  | FillBytes _ => Some (replicate 32 (byte_of 6), w)
  | LockSharing | UnlockSharing | PushSharingChanged | CloseConnection | SpawnHint _ => Some (tt, w)
  | HasEndpoint => Some (true, w)
  | Dial _ => Some (Some (Ok (verifying_key ada_device)), w)
  | SendFrame _ => Some (Some (Ok tt), w)
  | RecvFrame => match inbox w with b :: l => Some (Some (Some b), mkWorld (book w) (visor w) l) | [] => Some (Some None, w) end
  | _ => None
  end.
Definition endpoint_of (key : bytes) : string := hex key.
Fixpoint written (app : string) (t : list (Async.event cans)) : option doc :=
  match t with
  | [] => None
  | Ev c _ :: t => match written app t with
                  | Some d => Some d
                  | None => match c with WriteDocument a d => if bool_decide (a = app) then Some d else None | _ => None end
                  end
  end.
(** Ada meets herself, raises a prompt, and shares with herself. *)
Definition acquainted : doc := default start (written CONTACTS_APP meeting.1).
Definition prompted : doc := (queue_share_prompt (C := nat * nat) (mkPrompt "p1" "document:x" "todomvc" "Groceries") start).1.
Definition w0 : world := mkWorld acquainted prompted [].
Definition confirming := run_with answers w0 (write_locked (confirm_locked (C := nat * nat) endpoint_of "p1" met_as ShareEdit)).
Lemma confirms : confirming.2 = Some (Ok true).
Proof. vm_compute. reflexivity. Qed.
Definition ctx0 : IdentityContext := mkContext 0 false.
Definition granted_doc : doc := default start (written VISOR_APP confirming.1).
Definition retrying := run_with answers (mkWorld acquainted granted_doc [write FrameReceived]) (sharing_retry (C := nat * nat) "p1").
Lemma delivers : retrying.2 = Some (Ok tt).
Proof. vm_compute. reflexivity. Qed.
(** What was sent. *)
Fixpoint sent (t : list (Async.event cans)) : list bytes :=
  match t with [] => [] | Ev c _ :: t => match c with SendFrame f => f :: sent t | _ => sent t end end.
Definition wire0 : bytes := Eval vm_compute in default [] (hd_error (sent retrying.1)).
Definition peer0 : bytes := verifying_key [].
Definition accepting := run_with answers (mkWorld acquainted start [wire0]) (sharing_accept (C := nat * nat) endpoint_of peer0).
Lemma accepts : sent accepting.1 = [write FrameReceived].
Proof. vm_compute. reflexivity. Qed.
Definition invited : doc := default start (written VISOR_APP accepting.1).
Definition inbox0 : list string := Eval vm_compute in i_id <$> share_inbox invited.
Lemma inbox0_one : length inbox0 = 1%nat.
Proof. reflexivity. Qed.
Definition invitation0 : string := Eval vm_compute in default EmptyString (hd_error inbox0).
Definition adopting := run_with answers (mkWorld acquainted invited []) (sharing_adopt (C := nat * nat) invitation0).
Definition instance0 : string := Eval vm_compute in match adopting.2 with Some (Ok i) => i | _ => EmptyString end.
Lemma adopts : adopting.2 = Some (Ok instance0).
Proof. vm_compute. reflexivity. Qed.
Definition body0 : InvitationBody :=
  match from_slice (T := Frame) wire0 ≫= λ f, match f with Invitation s => ok (verify_invitation s) | _ => None end with
  | Some b => with_inline [] b
  | None => mkBody 0 [] [] [] [] [] [] [] EmptyString EmptyString EmptyString ShareRead true (mkGrant EmptyString [] [] AccessRead [] []) []
  end.
Definition contact0 : Contact := mkContact met_as None "me" EmptyString None [] [].
Definition recording0 := run_with answers w0 (record_grant (C := nat * nat) endpoint_of ctx0 "p1" contact0 ShareEdit (verifying_key ada_device) "document:x" body0).
Lemma records : recording0.2 = Some (Ok true).
Proof. vm_compute. reflexivity. Qed.
Definition building := run_with answers w0 (build_invitation_wire "document:x" body0).
Definition wire1 : bytes := Eval vm_compute in match building.2 with Some (Ok w) => w | _ => [] end.
Lemma builds : building.2 = Some (Ok wire1).
Proof. vm_compute. reflexivity. Qed.

Lemma acknowledged_once_kept_witness : ∃ h d d', received_on_disk (C := nat * nat) (VaultState := unit) (DriveSealed := unit) endpoint_of peer0 h d d'.
Proof.
  pose proof (acknowledged_once_kept (C := nat * nat) endpoint_of peer0 accepting.1 accepting.2 (run_with_runs answers _ _)) as Ht.
  assert (asked <$> accepting.1 !! (length accepting.1 - 3)%nat = Some (SendFrame (write FrameReceived))) as Hn by (vm_compute; reflexivity).
  revert Ht Hn. generalize accepting.1 as t. intros t Ht. generalize (length t - 3)%nat as n. intros n (e & Hl & He)%fmap_Some.
  pose proof (Ht (take n t) e (drop (S n) t) (eq_sym (take_drop_middle t n e Hl))) as Hg. rewrite <- He in Hg.
  destruct Hg as [[why Hw]|[_ (d & d' & Hd)]]; [|exact (ex_intro _ (take n t) (ex_intro _ d (ex_intro _ d' Hd)))].
  pose proof (codec_to_vec _ _ Hw) as E. pose proof (codec_to_vec FrameReceived _ eq_refl) as E'. rewrite E in E'. discriminate E'.
Defined.
Lemma adoption_rechecked_witness : ∃ h, adopted_on_disk (C := nat * nat) (VaultState := unit) (DriveSealed := unit) invitation0 h instance0.
Proof.
  destruct (proj2 (adoption_rechecked (C := nat * nat) invitation0 adopting.1 adopting.2 (run_with_runs answers _ _)) instance0 adopts) as (h & Hh & _).
  exact (ex_intro _ h Hh).
Defined.
Lemma invitation_fits_and_reads_back_witness : Z.of_nat (length wire1) <= sharing_wire_budget.
Proof.
  assert (runs (build_invitation_wire "document:x" body0) building.1 building.2) as Hr by exact (run_with_runs answers w0 _).
  revert Hr. rewrite builds. intros Hr.
  exact (proj1 (invitation_fits_and_reads_back "document:x" body0 building.1 wire1 Hr)).
Defined.
Lemma delivered_once_acknowledged_witness : ∃ h, delivered_on_disk (C := nat * nat) (VaultState := unit) (DriveSealed := unit) "p1" h.
Proof.
  destruct (proj2 (delivered_once_acknowledged (C := nat * nat) "p1" retrying.1 retrying.2 (run_with_runs answers _ _)) delivers) as (h & Hh & _).
  exact (ex_intro _ h Hh).
Defined.
Lemma grant_recorded_witness :
  recorded (C := nat * nat) (VaultState := unit) (DriveSealed := unit) endpoint_of "p1" ShareEdit ctx0 contact0 (verifying_key ada_device) "document:x" body0 recording0.1.
Proof.
  assert (runs (record_grant (C := nat * nat) endpoint_of ctx0 "p1" contact0 ShareEdit (verifying_key ada_device) "document:x" body0)
    recording0.1 recording0.2) as Hr by exact (run_with_runs answers w0 _).
  revert Hr. rewrite records. intros Hr.
  exact (proj2 (grant_recorded (C := nat * nat) endpoint_of "p1" ShareEdit ctx0 contact0 (verifying_key ada_device) "document:x" body0
    recording0.1 (Some (Ok true)) Hr)).
Defined.
Lemma confirmation_grants_as_shown_witness : ∃ h, confirmed (C := nat * nat) (VaultState := unit) (DriveSealed := unit) endpoint_of "p1" ShareEdit met_as h.
Proof.
  destruct (proj2 (confirmation_grants_as_shown (C := nat * nat) endpoint_of "p1" ShareEdit met_as confirming.1 confirming.2 (run_with_runs answers _ _)) true confirms)
    as (h & Hh & _). exact (ex_intro _ h Hh).
Defined.
End Concrete.
