(* ===== verification/Peers.v ===== *)
(** * Peers ([runtime/crates/kernel/src/sync.rs])

    Bringing the engine and the endpoint up, dialing peers, admitting those who
    dial, and the rows [sync.peers] reports. *)
From S2P Require Import Prelude Text Crypto Error Storage Codes Device Persist ContactsWire Registers VisorModel Automerge History Us Async Identity Calls Sharing.

Definition SUBDUCTION_ALPN : string := "polyvisor/subduction/0".
Definition PAIRING_ALPN : string := "polyvisor/pairing/0".
Definition MEETING_ALPN : string := "polyvisor/meeting/0".
Definition ROOT_TRANSFER_ALPN : string := "polyvisor/root-transfer/0".
Definition SHARING_ALPN : string := "polyvisor/sharing/0".

(** [sync.member] and [sync.peer]. *)
Record MemberRow := mkMemberRow { mr_endpoint_id : string; mr_petname : string; mr_enrolled : Z; mr_me : bool }.
Record Peer := mkPeer { pe_endpoint_id : string; pe_state : string }.
Inductive PeerState := Connecting | Connected | Closed (why : string).
#[export] Instance PeerState_eq_dec : EqDecision PeerState.
Proof. solve_decision. Defined.
Definition describe (s : PeerState) : string :=
  match s with Connecting => "connecting" | Connected => "connected" | Closed why => "closed: " +:+ why end.
Record PeerRecord := mkPeerRecord { pr_endpoint_id : string; pr_key : bytes; pr_state : PeerState }.

(** ** The rows *)
Fixpoint note_peer (endpoint_id : string) (key : bytes) (state : PeerState) (l : list PeerRecord) : list PeerRecord :=
  match l with
  | [] => [mkPeerRecord endpoint_id key state]
  | p :: l => if bool_decide (pr_endpoint_id p = endpoint_id) then mkPeerRecord (pr_endpoint_id p) (pr_key p) state :: l
              else p :: note_peer endpoint_id key state l
  end.
Definition went_away : string := "the peer went away".
Definition is_closed (s : PeerState) : bool := match s with Closed _ => true | _ => false end.
Definition close_record (peer : bytes) (p : PeerRecord) : PeerRecord :=
  if negb (is_closed (pr_state p)) && bool_decide (pr_key p = peer)
  then mkPeerRecord (pr_endpoint_id p) (pr_key p) (Closed went_away) else p.
Definition close_peer (peer : bytes) (l : list PeerRecord) : list PeerRecord := close_record peer <$> l.

(** [str::chars] of UTF-8, and [str::trim]. *)
Fixpoint scalars (b : bytes) : chars :=
  match b with
  | [] => []
  | x :: b =>
    if u8 x <? 0x80 then u8 x :: scalars b else
    match b with
    | [] => []
    | y :: b =>
      if u8 x <? 0xE0 then ((u8 x - 0xC0) * 64 + (u8 y - 0x80)) :: scalars b else
      match b with
      | [] => []
      | z :: b =>
        if u8 x <? 0xF0 then ((u8 x - 0xE0) * 4096 + (u8 y - 0x80) * 64 + (u8 z - 0x80)) :: scalars b else
        match b with
        | [] => []
        | w :: b => ((u8 x - 0xF0) * 262144 + (u8 y - 0x80) * 4096 + (u8 z - 0x80) * 64 + (u8 w - 0x80)) :: scalars b
        end
      end
    end
  end.
Fixpoint drop_space (s : chars) : chars := match s with c :: r => if is_whitespace c then drop_space r else s | [] => [] end.
Definition trim (s : string) : string := str_of (utf8 (reverse (drop_space (reverse (drop_space (scalars (as_bytes s))))))).

(** The tasks this file spawns. *)
Inductive task :=
| Driver | Pump | BindEndpoint (seed : bytes) | AcceptLoop | Reconnect
| Admit (endpoint_id : string) (key : bytes)
| PairingJoin (endpoint_id : string) (key : bytes)
| MeetingAccept (endpoint_id : string) (key : bytes)
| RootTransferAccept (key : bytes)
| SharingAccept (key : bytes)
| CloseTransport.
Inductive EngineEvent := EngineChanged | PeerClosed (peer : option bytes).

Section Peers.
Context {EdI : Ed25519} {SigI : Signatures} {ShaI : Sha256}.
Context {A Oid C : Type} {AM : Automerge A Oid} {CG : ChangeGraph A C} {JN : SerdeJson ShareInstanceRecord}.
Context {JP : SerdeJson SharePromptRecord} {JO : SerdeJson ShareOutgoingRecord} {JI : SerdeJson ShareInboxRecord} {JS : SerdeJson string}.
Context {VaultState DriveSealed : Type}.
(** [Net::endpoint_id] *)
Context (endpoint_id : bytes → string).

(** ** Calls *)
Inductive call :=
| Below (c : Calls.call A)
(* the kernel's cells; the rows change as [note_peer] and [close_peer] say *)
| NotePeer (e : string) (key : bytes) (state : PeerState)
| ClosePeer (peer : bytes)
| ReadPeers
| ReadEndpoint
| ReadBindError
| SetEndpoint (id : string)
| SetBindError (why : string)
| Alive
| EngineRunning
| TakeEngineState
| KeepEngine (seed entropy : bytes) (restored : option VaultState)
| PairingOffering
| SessionDocuments
| WakeDocuments (app : string)
| RefreshPersonalization
| PushPersonalizationChanged
(* the endpoint *)
| Bind (seed : bytes)
| Dial (endpoint alpn : string)
| Accept
| CloseDialed
(* the engine *)
| Members
| CanSyncPeer (key : bytes)
| Connect (audience : option bytes)
| Disconnect (peer : bytes)
| Spawn (t : task)
| Sleep (ms : Z).
Definition ans (c : call) : Type :=
  match c with
  | Below c => Calls.ans (VaultState := VaultState) (DriveSealed := DriveSealed) c
  | NotePeer _ _ _ | ClosePeer _ => unit
  | ReadPeers => list PeerRecord
  | ReadEndpoint | Alive | EngineRunning | PairingOffering => bool
  | ReadBindError => option string
  | SetEndpoint _ | SetBindError _ | KeepEngine _ _ _ => unit
  | TakeEngineState => option VaultState
  | SessionDocuments => list string
  | WakeDocuments _ | RefreshPersonalization | PushPersonalizationChanged => unit
  | Bind _ => result string string
  | Dial _ _ => result string bytes
  | Accept => result string (string * bytes * string)
  | CloseDialed => unit
  | Members => result string (list Member)
  | CanSyncPeer _ => result string bool
  | Connect _ => result string bytes
  | Disconnect _ | Spawn _ | Sleep _ => unit
  end.
Abbreviation prog := (Async.prog ans).
Abbreviation ask c := (Async.call (ans := ans) c).
Definition below_call (c : Calls.call A) : prog (Calls.ans (VaultState := VaultState) (DriveSealed := DriveSealed) c) := ask (Below c).
Definition below {X} (p : Async.prog (Calls.ans (VaultState := VaultState) (DriveSealed := DriveSealed)) X) : prog X := interp below_call p.
Definition open : prog (result Error unit) := below Sharing.open.
Definition engine : prog (result Error bytes) := below Calls.engine.
Definition unavailable (why : string) : Error := Error_new Unavailable why.
Definition failed (why : string) : Error := Error_new Failed why.

(** ** The group *)
Definition member_row (me : bytes) (mine : string) (m : Member) : MemberRow :=
  let is_me := bool_decide (m_key m = me) in
  mkMemberRow (endpoint_id (m_key m)) (if is_me then mine else m_petname m) (enrolled m) is_me.
Definition sync_members : prog (result Error (list MemberRow)) :=
  _ ←! open;
  me ←! engine;
  l ← ask Members;
  l ←! Done (map_err failed (l : result string (list Member)));
  s ← ask (Below (Base ReadState));
  Done (Ok (member_row me (default EmptyString (Device.name <$> Persist.device s)) <$> l)).
Definition is_member_id (e : string) : prog (result Error bool) :=
  l ←! sync_members; Done (Ok (existsb (λ m, bool_decide (mr_endpoint_id m = e)) l)).
Definition sync_peers : prog (result Error (list Peer)) :=
  _ ←! open;
  l ← ask ReadPeers;
  Done (Ok ((λ p, mkPeer (pr_endpoint_id p) (describe (pr_state p))) <$> (l : list PeerRecord))).

(** ** Dialing *)
Definition still_binding : string := "this device is still binding its endpoint; try again in a moment".
Definition not_member : string := "that device is not a member of this device's group".
Definition not_a_key : string := "that endpoint id is not a valid device key".
Definition no_endpoint (why : option string) : Error :=
  unavailable (match why with Some why => "this device has no endpoint: " +:+ why | None => still_binding end).
Definition sync_connect (typed : string) : prog (result Error unit) :=
  _ ←! open;
  let e := trim typed in
  ready ← ask ReadEndpoint;
  if negb (ready : bool) then why ← ask ReadBindError; Done (Err (no_endpoint why)) else
  _ ←! engine;
  member ←! is_member_id e;
  if negb member then Done (Err (Error_new Refused not_member)) else
  dialed ← ask (Dial e SUBDUCTION_ALPN);
  match dialed with
  | Err why => Done (Err (unavailable why))
  | Ok key =>
    _ ← ask (NotePeer e key Connecting);
    if negb (on_curve key) then _ ← ask (NotePeer e key (Closed not_a_key)); Done (Err (Error_new Refused not_a_key)) else
    r ← ask (Connect (Some key));
    match r with
    | Ok _ => _ ← ask (NotePeer e key Connected); Done (Ok ())
    | Err why => _ ← ask (NotePeer e key (Closed why)); Done (Err (failed why))
    end
  end.
Definition no_authority : Error := Error_new Refused "that device has no shared document authority".
Definition another_device : Error := Error_new Refused "that endpoint authenticated as another device".
Definition sync_connect_hint (key : bytes) : prog (result Error unit) :=
  let e := endpoint_id key in
  ready ← ask ReadEndpoint;
  if negb (ready : bool) then Done (Err (unavailable "this device has no endpoint")) else
  _ ←! engine;
  may ← ask (CanSyncPeer key);
  may ←! Done (map_err failed (may : result string bool));
  if negb may then Done (Err no_authority) else
  dialed ← ask (Dial e SUBDUCTION_ALPN);
  actual ←! Done (map_err unavailable dialed);
  if negb (bool_decide (actual = key)) then _ ← ask CloseDialed; Done (Err another_device) else
  _ ← ask (NotePeer e key Connecting);
  if negb (on_curve key) then Done (Err (Error_new Refused "invalid peer key")) else
  _ ←! engine;
  r ← ask (Connect (Some key));
  _ ←! Done (map_err failed r);
  _ ← ask (NotePeer e key Connected);
  Done (Ok ()).
Fixpoint connect_each (l : list MemberRow) : prog unit :=
  match l with
  | [] => Done ()
  | m :: l => if mr_me m then connect_each l else _ ← sync_connect (mr_endpoint_id m); connect_each l
  end.
(** Three attempts, a second apart. *)
Fixpoint attempts (n : nat) (key : bytes) : prog unit :=
  match n with
  | O => Done ()
  | S n =>
    r ← sync_connect_hint key;
    if is_ok r then Done () else
    _ ← (match n with O => Done () | _ => ask (Sleep 1000) end);
    attempts n key
  end.
Fixpoint hint_each (l : list (bytes * string)) : prog unit :=
  match l with [] => Done () | h :: l => _ ← attempts 3 h.1; hint_each l end.
Definition reconnect : prog unit :=
  l ← sync_members;
  match l with
  | Err _ => Done ()
  | Ok l =>
    _ ← connect_each l;
    e ← engine;
    hints ← match e with
            | Ok _ => r ← below (document_read VISOR_APP share_peer_hints); Done (match r with Ok h => h | Err _ => [] end)
            | Err _ => Done []
            end;
    hint_each hints
  end.

(** ** Admitting *)
Definition outside_group : string := "not a member of this device's group".
Definition different_device : string := "it authenticated as a different device".
(** [admit] *)
Definition admit_peer (e : string) (key : bytes) : prog unit :=
  running ← engine;
  match running with
  | Err _ => Done ()
  | Ok _ =>
    r ← ask (Connect None);
    state ← match r with
            | Ok peer =>
              if bool_decide (peer = key) then
                may ← ask (CanSyncPeer key);
                if (match may with Ok b => b | Err _ => false end) then Done Connected
                else _ ← ask (Disconnect peer); Done (Closed outside_group)
              else _ ← ask (Disconnect peer); Done (Closed different_device)
            | Err why => Done (Closed why)
            end;
    ask (NotePeer e key state)
  end.
(** One connection routed by its ALPN; [false] when the loop is over. *)
Definition route (e : string) (key : bytes) (alpn : string) : prog unit :=
  if bool_decide (alpn = SUBDUCTION_ALPN) then _ ← ask (NotePeer e key Connecting); ask (Spawn (Admit e key)) else
  if bool_decide (alpn = PAIRING_ALPN) then
    offering ← ask PairingOffering;
    ask (Spawn (if (offering : bool) then PairingJoin e key else CloseTransport)) else
  if bool_decide (alpn = MEETING_ALPN) then ask (Spawn (MeetingAccept e key)) else
  if bool_decide (alpn = ROOT_TRANSFER_ALPN) then ask (Spawn (RootTransferAccept key)) else
  if bool_decide (alpn = SHARING_ALPN) then ask (Spawn (SharingAccept key)) else
  ask (Spawn CloseTransport).
Definition accept_once : prog bool :=
  accepted ← ask Accept;
  alive ← ask Alive;
  if negb (alive : bool) then Done false else
  match accepted with
  | Err _ => Done false
  | Ok (e, key, alpn) => _ ← route e key alpn; Done true
  end.
(** The loop, for as many connections as [n]; [false]: it has ended. *)
Fixpoint accept_loop (n : nat) : prog bool :=
  match n with
  | O => Done true
  | S n => more ← accept_once; if (more : bool) then accept_loop n else Done false
  end.

(** ** Coming up *)
Definition bind_endpoint (seed : bytes) : prog unit :=
  bound ← ask (Bind seed);
  match bound with
  | Ok id => _ ← ask (SetEndpoint id); _ ← ask (Spawn AcceptLoop); ask (Spawn Reconnect)
  | Err why => ask (SetBindError why)
  end.
Definition start_sync : prog unit :=
  running ← ask EngineRunning;
  if (running : bool) then Done () else
  s ← ask (Below (Base ReadState));
  restored ← ask TakeEngineState;
  entropy ← ask (Below (FillBytes 32));
  _ ← ask (Spawn Driver);
  _ ← ask (Spawn Pump);
  _ ← ask (KeepEngine (seed s) entropy restored);
  ask (Spawn (BindEndpoint (seed s))).
Fixpoint wake_each (l : list string) : prog unit :=
  match l with [] => Done () | app :: l => _ ← ask (WakeDocuments app); wake_each l end.
Definition on_event (e : EngineEvent) : prog unit :=
  alive ← ask Alive;
  if negb (alive : bool) then Done () else
  match e with
  | EngineChanged =>
    _ ← ask (Below PersistEngine);
    documents ← ask SessionDocuments;
    _ ← wake_each documents;
    _ ← ask RefreshPersonalization;
    _ ← ask PushPersonalizationChanged;
    ask (Below (Base PushContactsChanged))
  | PeerClosed None => Done ()
  | PeerClosed (Some peer) => ask (ClosePeer peer)
  end.
End Peers.
Arguments call : clear implicits.
