(* ===== verification/PeersFacts.v ===== *)
(** * Whom a device syncs with, and what its rows say

    Over every history: only a member's endpoint, or one with document authority,
    is dialed; a row says connected only for a key that was proven and allowed;
    the rows are one per endpoint and keep the reason they closed. *)
From S2P Require Import Prelude Crypto Error Storage Device Persist ContactsWire Registers VisorModel Automerge History Us Async Identity Custody Calls Sharing SharingFacts Peers.

(** ** The rows, as a history leaves them *)
Section Rows.
Context {A VaultState DriveSealed : Type}.
Abbreviation ans := (Peers.ans (A := A) (VaultState := VaultState) (DriveSealed := DriveSealed)).
Abbreviation history := (list (Async.event ans)).
Definition row_change (c : Peers.call A VaultState) : list PeerRecord → list PeerRecord :=
  match c with NotePeer e key st => note_peer e key st | ClosePeer peer => close_peer peer | _ => λ l, l end.
Definition rows (t : history) : list PeerRecord := foldl (λ l x, row_change (asked x) l) [] t.
Lemma rows_snoc t x : rows (t ++ [x]) = row_change (asked x) (rows t).
Proof. unfold rows. by rewrite foldl_app. Qed.
Lemma note_endpoints e key st l : pr_endpoint_id <$> note_peer e key st l =
  if decide (e ∈ pr_endpoint_id <$> l) then pr_endpoint_id <$> l else (pr_endpoint_id <$> l) ++ [e].
Proof.
  induction l as [|p l IH]; [done|]. cbn [note_peer]. case_bool_decide as Hp.
  - rewrite decide_True by (rewrite <- Hp; left). done.
  - cbn. rewrite IH. destruct (decide (e ∈ pr_endpoint_id <$> l)) as [Hin|Hn].
    + by rewrite decide_True by by right.
    + rewrite decide_False; [done|]. by intros [?|?]%elem_of_cons.
Qed.
Lemma close_endpoints peer l : pr_endpoint_id <$> close_peer peer l = pr_endpoint_id <$> l.
Proof. induction l as [|p l IH]; [done|]. cbn. unfold close_peer in IH. rewrite IH. unfold close_record. by case_match. Qed.
Lemma rows_NoDup t : NoDup (pr_endpoint_id <$> rows t).
Proof.
  induction t as [|x t IH] using rev_ind; [constructor|]. rewrite rows_snoc.
  destruct (asked x); cbn [row_change]; try exact IH; [|by rewrite close_endpoints].
  rewrite note_endpoints. case_decide as Hn; [done|]. apply NoDup_app. split_and!; [done|set_solver|apply NoDup_singleton].
Qed.
Lemma elem_of_note e key st l p : NoDup (pr_endpoint_id <$> l) → p ∈ note_peer e key st l →
  (p ∈ l ∧ pr_endpoint_id p ≠ e) ∨ (pr_endpoint_id p = e ∧ pr_state p = st).
Proof.
  induction l as [|q l IH]; cbn [note_peer fmap list_fmap].
  - intros _ ->%list_elem_of_singleton. by right.
  - intros [Hq Hl]%NoDup_cons. case_bool_decide as He.
    + intros [->|Hin]%elem_of_cons; [by right|]. left. split; [by right|]. intros Hpe. apply Hq. rewrite He, <- Hpe. by apply list_elem_of_fmap_2.
    + intros [->|Hin]%elem_of_cons; [left; split; [left|done]|]. destruct (IH Hl Hin) as [[H1 H2]|?]; [left|by right]. split; [by right|done].
Qed.
(** No note of [e] in [t]. *)
Definition unnoted (e : string) (t : history) : Prop := ∀ x key st, x ∈ t → asked x ≠ NotePeer e key st.
Lemma unnoted_snoc e t x : unnoted e t → (∀ key st, asked x ≠ NotePeer e key st) → unnoted e (t ++ [x]).
Proof. intros Ht Hx y key st [?| ->%list_elem_of_singleton]%elem_of_app; [by eapply Ht|apply Hx]. Qed.
(** The row [p] says what was last noted of its endpoint, or that it closed since. *)
Definition row_kept (t : history) (p : PeerRecord) : Prop :=
  ∃ t1 x key st t2, t = t1 ++ x :: t2 ∧ asked x = NotePeer (pr_endpoint_id p) key st ∧ unnoted (pr_endpoint_id p) t2 ∧
    (pr_state p = st ∨ is_closed st = false ∧ pr_state p = Closed went_away ∧ ∃ y, y ∈ t2 ∧ asked y = ClosePeer (pr_key p)).
Inductive row_view : Peers.call A VaultState → Prop :=
| ViewNote e key st : row_view (NotePeer e key st)
| ViewClose peer : row_view (ClosePeer peer)
| ViewOther c : row_change c = (λ l, l) → (∀ e key st, c ≠ NotePeer e key st) → row_view c.
Lemma row_views c : row_view c.
Proof. destruct c; first [by apply ViewNote|by apply ViewClose|by apply ViewOther]. Qed.
(** Whatever was noted and closed, by whichever tasks and in whatever order:
    there is one row per endpoint, and a row says what was last noted of its
    endpoint, or that the peer went away after that; a reason noted for a closed
    connection is never lost to the generic one that follows. *)
Theorem rows_keep_reasons (t : history) : NoDup (pr_endpoint_id <$> rows t) ∧
  ∀ p, p ∈ rows t → row_kept t p.
Proof.
  split; [apply rows_NoDup|]. induction t as [|x t IH] using rev_ind; [by intros p ?%elem_of_nil|].
  intros p. pose proof (rows_NoDup t) as Hnd. rewrite rows_snoc.
  assert (∀ p, p ∈ rows t → (∀ key st, asked x ≠ NotePeer (pr_endpoint_id p) key st) → row_kept (t ++ [x]) p) as Hold.
  { intros q (t1 & y & key0 & st0 & t2 & -> & H1 & H2 & H3)%IH Hne. exists t1, y, key0, st0, (t2 ++ [x]).
    split; [by rewrite <- app_assoc|]. split; [done|]. split; [by apply unnoted_snoc|].
    destruct H3 as [?|(? & ? & z & Hz & ?)]; [by left|right; split_and!; [done..|]; exists z; split; [apply elem_of_app; by left|done]]. }
  remember (asked x) as c eqn:Hx. destruct (row_views c) as [e key st|peer|c Hc Hne]; cbn [row_change].
  - intros Hin. destruct (elem_of_note _ _ _ _ _ Hnd Hin) as [[H1 H2]|[H1 H2]]; [apply Hold; [done|congruence]|].
    exists t, x, key, st, []. split_and!; [done|by rewrite H1|by intros ??? ?%elem_of_nil|by left].
  - unfold close_peer. intros (q & -> & Hq)%list_elem_of_fmap. unfold close_record.
    destruct (negb (is_closed (pr_state q)) && bool_decide (pr_key q = peer)) eqn:Hc; [|by apply Hold].
    apply andb_true_iff in Hc as [Hc%negb_true_iff Hk%bool_decide_eq_true].
    destruct (IH q Hq) as (t1 & y & key0 & st0 & t2 & -> & H3 & H4 & H5). exists t1, y, key0, st0, (t2 ++ [x]).
    split; [by rewrite <- app_assoc|]. split; [done|]. split; [apply unnoted_snoc; [done|]; by rewrite <- Hx|]. right. cbn [pr_state pr_key].
    destruct H5 as [H5|(? & H5 & _)]; [|by rewrite H5 in Hc]. rewrite H5 in Hc. split_and!; [done..|]. exists x. split; [apply elem_of_app; right; left|by rewrite <- Hx, Hk].
  - rewrite Hc. intros Hin. by apply Hold.
Qed.
End Rows.

(** ** Whom a device syncs with *)
Section Facts.
Context {EdI : Ed25519} {SigI : Signatures} {ShaI : Sha256}.
Context {A Oid C : Type} {AM : Automerge A Oid} {CG : ChangeGraph A C} {JN : SerdeJson ShareInstanceRecord}.
Context {JP : SerdeJson SharePromptRecord} {JO : SerdeJson ShareOutgoingRecord} {JI : SerdeJson ShareInboxRecord} {JS : SerdeJson string}.
Context {VaultState DriveSealed : Type}.
Context (endpoint_id : bytes → string).
Abbreviation ans := (Peers.ans (A := A) (VaultState := VaultState) (DriveSealed := DriveSealed)).
Abbreviation prog := (Async.prog ans).
Abbreviation history := (list (Async.event ans)).
Abbreviation E := (@Ev _ ans).
Implicit Types (h t u : history).

(** What the calls below this file may be: reads. *)
Definition quiet (c : Peers.call A VaultState) : Prop :=
  match c with
  | Below (ReadDocument _) | Below (Base ReadState) | Below (Base EngineKey) => True
  | ReadEndpoint | ReadBindError | CanSyncPeer _ | Members | CloseDialed | Connect None | Sleep _ | NotePeer _ _ (Closed _) => True
  | _ => False
  end.
Lemma below_calls {X} (Q : Calls.call A → Prop) (p : Async.prog (Calls.ans (VaultState := VaultState) (DriveSealed := DriveSealed)) X) :
  all_calls Q p → (∀ c, Q c → quiet (Below c)) → all_calls quiet (below p).
Proof. intros Hp HQ. eapply all_calls_interp; [exact Hp|]. intros c Hc. split; [by apply HQ|done]. Qed.
Lemma quiet_open : all_calls quiet (Peers.open (A := A) (VaultState := VaultState) (DriveSealed := DriveSealed)).
Proof. by repeat split. Qed.
Lemma quiet_peers_engine : all_calls quiet (Peers.engine (A := A) (VaultState := VaultState) (DriveSealed := DriveSealed)).
Proof. by repeat split. Qed.

(** What listing the members asks. *)
Definition listing (c : Peers.call A VaultState) : Prop := match c with Below (Base ReadState) | Below (Base EngineKey) | Members => True | _ => False end.
Lemma listing_members : all_calls listing (Peers.sync_members (A := A) (VaultState := VaultState) (DriveSealed := DriveSealed) endpoint_id).
Proof.
  apply all_calls_try; [by repeat split|]. intros _. apply all_calls_try; [by repeat split|]. intros me.
  split; [done|]. intros l. apply all_calls_try; [done|]. intros l'. by split.
Qed.
Lemma quiet_members : all_calls quiet (Peers.sync_members (A := A) (VaultState := VaultState) (DriveSealed := DriveSealed) endpoint_id).
Proof. eapply all_calls_mono; [|apply listing_members]. intros []; try done; cbn; by repeat case_match. Qed.

(** The dial of [e] answered [key], and [key] proved itself on it. *)
Definition dialed (h : history) (e : string) (key : bytes) : Prop := ∃ h0, h = h0 ++ [E (Dial e SUBDUCTION_ALPN) (Ok key)].
Definition engine_read (x : Async.event ans) : Prop := asked x = Below (Base EngineKey).
Definition noted (h : history) (e : string) (key : bytes) : Prop :=
  ∃ h0 mid, dialed h0 e key ∧ h = h0 ++ E (NotePeer e key Connecting) tt :: mid ∧ Forall engine_read mid.
Definition proven_outbound (h : history) (e : string) (key : bytes) : Prop :=
  ∃ h0 peer, noted h0 e key ∧ h = h0 ++ [E (Connect (Some key)) (Ok peer)].
Definition proven_inbound (h : history) (key : bytes) : Prop :=
  ∃ h0, h = h0 ++ [E (Connect None) (Ok key); E (CanSyncPeer key) (Ok true)].
(** [e] is the endpoint of a member, in the group as it was just read; or of a
    device the engine just answered has document authority. *)
Definition listed (h : history) (e : string) : Prop :=
  ∃ h0 l m s, h = h0 ++ [E Members (Ok l); E (Below (Base ReadState)) s] ∧ m ∈ l ∧ endpoint_id (m_key m) = e.
Definition authorized_peer (h : history) (key : bytes) : Prop := ∃ h0, h = h0 ++ [E (CanSyncPeer key) (Ok true)].
(** A member other than this device, as the members were read; a stored hint. *)
Definition fellow (h : history) (e : string) : Prop :=
  ∃ me l m, E (Below (Base EngineKey)) (Some me) ∈ h ∧ E Members (Ok l) ∈ h ∧ m ∈ l ∧ m_key m ≠ me ∧ e = endpoint_id (m_key m).
Definition hinted (h : history) (key : bytes) : Prop :=
  ∃ d ep, E (Below (ReadDocument VISOR_APP)) (Ok d) ∈ h ∧ (key, ep) ∈ share_peer_hints d.
(** What this device does on its own account, and for a connection that came. *)
Inductive op := ConnectOp (typed : string) | HintOp (key : bytes) | ReconnectOp | AdmitOp (e : string) (key : bytes).
Definition run_op (o : op) : prog unit :=
  match o with
  | ConnectOp typed => _ ← Peers.sync_connect endpoint_id typed; Done ()
  | HintOp key => _ ← Peers.sync_connect_hint endpoint_id key; Done ()
  | ReconnectOp => Peers.reconnect (Oid := Oid) endpoint_id
  | AdmitOp e key => Peers.admit_peer e key
  end.
(** What each operation may dial: an id that was typed is a member's, whatever
    authority its device may have; a hint's device has authority; coming up dials
    the other members, then the hints. *)
Definition may_dial (o : op) (h : history) (e : string) : Prop :=
  match o with
  | ConnectOp typed => e = trim typed ∧ listed h e
  | HintOp key => e = endpoint_id key ∧ authorized_peer h key
  | ReconnectOp => listed h e ∧ (∃ e', fellow h e' ∧ e = trim e') ∨ ∃ key, e = endpoint_id key ∧ authorized_peer h key ∧ hinted h key
  | AdmitOp _ _ => False
  end.
Definition peer_may (o : op) (h : history) (c : Peers.call A VaultState) : Prop :=
  match c with
  | Dial e alpn => alpn = SUBDUCTION_ALPN ∧ may_dial o h e
  | NotePeer e key Connecting => dialed h e key
  | Connect (Some key) => ∃ e, on_curve key = true ∧ noted h e key
  | NotePeer e key Connected => proven_outbound h e key ∨ o = AdmitOp e key ∧ proven_inbound h key
  | Disconnect peer => ∃ e key h0, o = AdmitOp e key ∧
      (peer ≠ key ∧ h = h0 ++ [E (Connect None) (Ok peer)] ∨
       peer = key ∧ ∃ r, r ≠ Ok true ∧ h = h0 ++ [E (Connect None) (Ok peer); E (CanSyncPeer key) r])
  | _ => quiet c
  end.
Lemma peer_quiet o h c : quiet c → peer_may o h c.
Proof. destruct c; try done; cbn; by repeat case_match. Qed.
Section Rules.
Context (o : op).
Abbreviation G := (peer_may o).
Lemma wp_member {Y} e (k : bool → prog (result Error Y)) h Q : (∀ e h', Q (Err e) h') →
  (∀ u b, (b = true → listed (h ++ u) e) → wp G (k b) (h ++ u) Q) → wp G (try (Peers.is_member_id endpoint_id e) k) h Q.
Proof.
  intros HE Hk. apply wp_try. unfold is_member_id, sync_members. apply wp_try.
  apply (wp_quietly G quiet); [apply peer_quiet|apply quiet_open|intros; apply HE|]. intros t [] _.
  apply (wp_quietly G quiet); [apply peer_quiet|apply quiet_peers_engine|intros; apply HE|]. intros t2 me _.
  split; [done|]. intros l. apply (wp_result (ans := ans)); [intros; apply HE|]. intros l' Hl%map_err_Ok. cbn in Hl. subst l.
  split; [done|]. intros s. cbn [wp]. rewrite <- !app_assoc. apply Hk. intros (m & Hm%list_elem_of_In & He%bool_decide_eq_true)%existsb_exists.
  apply list_elem_of_fmap in Hm as (m0 & -> & Hm0).
  exists (h ++ t ++ t2), l', m0, s. split_and!; [by rewrite <- !app_assoc|done|exact He].
Qed.
Lemma connects typed h : (∀ u, listed (h ++ u) (trim typed) → may_dial o (h ++ u) (trim typed)) →
  wp G (Peers.sync_connect endpoint_id typed) h (λ _ _, True).
Proof.
  intros Hmay. unfold sync_connect. apply (wp_quietly G quiet); [apply peer_quiet|apply quiet_open|done|]. intros t [] _. cbv zeta.
  split; [done|]. intros []; cbn [negb]; [|by split].
  apply (wp_quietly G quiet); [apply peer_quiet|apply quiet_peers_engine|done|]. intros t2 _ _.
  apply wp_member; [done|]. intros u [] Hl; [|done]. specialize (Hl eq_refl). rewrite <- !app_assoc in Hl |- *. apply Hmay in Hl.
  generalize dependent (h ++ t ++ [E ReadEndpoint true] ++ t2 ++ u). clear -o. intros h' Hl. cbn [negb].
  split; [by split|]. intros [key|why]; [|done].
  split; [by exists h'|]. intros []. destruct (on_curve key) eqn:Hk; cbn [negb]; [|by split].
  assert (noted (h' ++ [E (Dial (trim typed) SUBDUCTION_ALPN) (Ok key)] ++ [E (NotePeer (trim typed) key Connecting) tt]) (trim typed) key) as Hn.
  { exists (h' ++ [E (Dial (trim typed) SUBDUCTION_ALPN) (Ok key)]), []. split; [by exists h'|]. by rewrite <- app_assoc. }
  rewrite <- app_assoc. split; [by exists (trim typed)|]. intros [peer|why]; [|by split].
  split; [left; by eexists _, peer|]. done.
Qed.
Lemma hints key h : (∀ u, authorized_peer (h ++ u) key → may_dial o (h ++ u) (endpoint_id key)) →
  wp G (Peers.sync_connect_hint endpoint_id key) h (λ _ _, True).
Proof.
  intros Hmay. unfold sync_connect_hint. cbv zeta. split; [done|]. intros []; cbn [negb]; [|done].
  apply (wp_quietly G quiet); [apply peer_quiet|apply quiet_peers_engine|done|]. intros t _ _.
  split; [done|]. intros may. apply (wp_result (ans := ans)); [done|]. intros b Hb%map_err_Ok. cbn in Hb. subst may. destruct b; [|done]. cbn [negb].
  match goal with |- wp _ _ ?g _ => assert (may_dial o g (endpoint_id key)) as Ha; [|generalize dependent g] end.
  { rewrite <- !app_assoc. apply Hmay. eexists. by rewrite !app_assoc. }
  clear h t Hmay. intros h Ha. split; [by split|]. intros dialed0. apply (wp_result (ans := ans)); [done|]. intros actual Hd%map_err_Ok. cbn in Hd. subst dialed0.
  case_bool_decide as Hkey; cbn [negb]; [subst actual|by split]. split; [by exists h|]. intros [].
  destruct (on_curve key) eqn:Hk; cbn [negb]; [|done]. split; [done|]. intros [k|]; [|done].
  match goal with |- wp _ _ ?g _ => assert (noted g (endpoint_id key) key) as Hn; [|generalize dependent g] end.
  { exists (h ++ [E (Dial (endpoint_id key) SUBDUCTION_ALPN) (Ok key)]), [E (Below (Base EngineKey)) (Some k)]. split; [by exists h|].
    split; [by rewrite <- !app_assoc|by repeat constructor]. }
  intros g Hn. split; [by exists (endpoint_id key)|]. intros r. apply (wp_result (ans := ans)); [done|]. intros peer Hr%map_err_Ok. cbn in Hr. subst r.
  split; [left; by eexists _, peer|]. done.
Qed.
End Rules.
Lemma fellow_more h u e : fellow h e → fellow (h ++ u) e.
Proof. intros (me & l & m & H1 & H2 & H3). exists me, l, m. split; [apply elem_of_app; by left|]. split; [apply elem_of_app; by left|exact H3]. Qed.
Lemma hinted_more h u key : hinted h key → hinted (h ++ u) key.
Proof. intros (d & ep & H1 & H2). exists d, ep. split; [apply elem_of_app; by left|done]. Qed.
Lemma connects_each l h : (∀ m, m ∈ l → mr_me m = false → fellow h (mr_endpoint_id m)) → wp (peer_may ReconnectOp) (Peers.connect_each endpoint_id l) h (λ _ _, True).
Proof.
  revert h. induction l as [|m l IH]; intros h Hl; [done|]. assert (∀ u m, m ∈ l → mr_me m = false → fellow (h ++ u) (mr_endpoint_id m)) as Hl'.
  { intros u m' Hm' Hme. apply fellow_more, Hl; [by right|done]. }
  cbn [connect_each]. destruct (mr_me m) eqn:Hme; [apply IH; intros m' Hm' Hme'; apply Hl; [by right|done]|].
  apply (wp_bind (ans := ans)). eapply wp_mono.
  - apply connects. intros u Hu. left. split; [done|]. exists (mr_endpoint_id m). split; [|done]. apply fellow_more, Hl; [left|done].
  - intros r t _. apply IH, Hl'.
Qed.
Lemma tries n key h : hinted h key → wp (peer_may ReconnectOp) (Peers.attempts endpoint_id n key) h (λ _ _, True).
Proof.
  revert h. induction n as [|n IH]; intros h Hh; [done|]. cbn [attempts]. apply (wp_bind (ans := ans)). eapply wp_mono.
  - apply hints. intros u Hu. right. exists key. split_and!; [done..|]. by apply hinted_more.
  - intros r t _. destruct (is_ok r); [done|]. destruct n as [|n]; [by apply IH, hinted_more|]. split; [done|]. intros []. by apply IH, hinted_more, hinted_more.
Qed.
Lemma hints_each l h : (∀ p, p ∈ l → hinted h p.1) → wp (peer_may ReconnectOp) (Peers.hint_each endpoint_id l) h (λ _ _, True).
Proof.
  revert h. induction l as [|p l IH]; intros h Hl; [done|]. cbn [hint_each]. apply (wp_bind (ans := ans)). eapply wp_mono; [apply tries, Hl; left|].
  intros _ t _. apply IH. intros q Hq. apply hinted_more, Hl. by right.
Qed.
Lemma runs_sync_members t l : runs (Peers.sync_members (A := A) (VaultState := VaultState) (DriveSealed := DriveSealed) endpoint_id) t (Some (Ok l)) →
  ∀ m, m ∈ l → mr_me m = false → fellow t (mr_endpoint_id m).
Proof.
  unfold sync_members. intros (t1 & t2 & [] & -> & _ & Hr)%runs_try. apply runs_try in Hr as (t3 & t4 & me & -> & Hme & Hr).
  unfold Peers.engine in Hme. cbn in Hme. destruct Hme as [[_ ?]|(k & u & -> & Hme)]; [done|]. destruct k as [k|]; [|by destruct Hme]. destruct Hme as [-> [= <-]].
  apply runs_bind in Hr as (t5 & t6 & a & -> & ->%(runs_call (ans := ans) Members) & Hr). apply runs_try in Hr as (t7 & t8 & l0 & -> & [-> Hl]%runs_Done & Hr).
  destruct a as [a|]; [|done]. cbn in Hl. injection Hl as <-. apply runs_bind in Hr as (t9 & t10 & s & -> & _ & [_ [= <-]]%runs_Done).
  intros m (m0 & -> & Hm)%list_elem_of_fmap Hme. exists me, a, m0. cbn in Hme |- *. apply bool_decide_eq_false in Hme.
  split; [apply elem_of_app; right; left|]. split; [|by split_and!].
  apply elem_of_app. right. right. left.
Qed.
Lemma reconnects h : wp (peer_may ReconnectOp) (Peers.reconnect (Oid := Oid) endpoint_id) h (λ _ _, True).
Proof.
  unfold reconnect. apply (wp_bind (ans := ans)), (wp_quiet _ quiet); [apply peer_quiet|apply quiet_members|]. intros t [l|e] Hl; [|done].
  apply (wp_bind (ans := ans)). eapply wp_mono.
  { apply connects_each. intros m Hm Hme. destruct (runs_sync_members t l Hl m Hm Hme) as (me & l' & m' & H1 & H2 & H3).
    exists me, l', m'. split; [apply elem_of_app; by right|]. split; [apply elem_of_app; by right|exact H3]. }
  intros _ t2 _. apply (wp_bind (ans := ans)), (wp_quiet _ quiet); [apply peer_quiet|apply quiet_peers_engine|]. intros t3 [k|e] _; [|apply (hints_each []); by intros p ?%elem_of_nil].
  apply (wp_bind (ans := ans)), (wp_bind (ans := ans)). split; [done|]. intros [d|e]; [|apply (hints_each []); by intros p ?%elem_of_nil].
  apply hints_each. intros [key ep] Hp. exists d, ep. split; [|done]. apply elem_of_app. right. left.
Qed.
(** How a connection that came is dealt with, from first to last. *)
Inductive admission (e : string) (key : bytes) : history → Prop :=
| no_engine : admission e key [E (Below (Base EngineKey)) None]
| no_handshake k why : admission e key [E (Below (Base EngineKey)) (Some k); E (Connect None) (Err why); E (NotePeer e key (Closed why)) tt]
| let_in k : admission e key [E (Below (Base EngineKey)) (Some k); E (Connect None) (Ok key); E (CanSyncPeer key) (Ok true); E (NotePeer e key Connected) tt]
| outside k r : r ≠ Ok true → admission e key
    [E (Below (Base EngineKey)) (Some k); E (Connect None) (Ok key); E (CanSyncPeer key) r; E (Disconnect key) tt; E (NotePeer e key (Closed outside_group)) tt]
| impostor k peer : peer ≠ key → admission e key
    [E (Below (Base EngineKey)) (Some k); E (Connect None) (Ok peer); E (Disconnect peer) tt; E (NotePeer e key (Closed different_device)) tt].
Lemma admits e key : wp (peer_may (AdmitOp e key)) (Peers.admit_peer e key) [] (λ _ h, admission e key h).
Proof.
  unfold admit_peer. split; [done|]. intros [k|]; [|constructor].
  split; [done|]. intros [peer|why]; [|split; [done|]; intros []; apply no_handshake]. cbn [app]. apply (wp_bind (ans := ans)). case_bool_decide as Hp.
  - subst peer. split; [done|]. intros r. cbn [app]. destruct (decide (r = Ok true)) as [->|Hr].
    + split; [right; split; [done|by exists [E (Below (Base EngineKey)) (Some k)]]|]. intros []. apply let_in.
    + assert (peer_may (AdmitOp e key) ([E (Below (Base EngineKey)) (Some k)] ++ [E (Connect None) (Ok key); E (CanSyncPeer key) r]) (Disconnect key)) as Hd.
      { exists e, key, [E (Below (Base EngineKey)) (Some k)]. split; [done|]. right. split; [done|]. by exists r. }
      destruct r as [[]|]; [done|..]; (split; [exact Hd|]; intros []; split; [done|]; intros []; by apply outside).
  - split; [exists e, key, [E (Below (Base EngineKey)) (Some k)]; split; [done|by left]|]. intros []. split; [done|]. intros []. by apply impostor.
Qed.
(** C27: Whatever happens meanwhile, an id that is typed is dialed only where it is
    a member's, in the group as it was just read, a hint only where the engine just
    said that its device has document authority, and coming up dials only the other
    members and the stored hints, each under its own rule; a device syncs with the
    key that answered; a row says connected only for a key that proved itself on
    that very dial, or on the connection that came under it, with authority; and a
    connection that came and proves another key, or one without authority, is
    disconnected and its row says why. *)
Theorem syncs_with_authorized o t r : runs (run_op o) t r →
  (∀ t1 x t2, t = t1 ++ x :: t2 → peer_may o t1 (asked x)) ∧
  match o, r with AdmitOp e key, Some _ => admission e key t | _, _ => True end.
Proof.
  intros Hr. eapply (wp_guards (peer_may o) _ [] (λ _ h, match o with AdmitOp e key => admission e key h | _ => True end)) in Hr as [Hr Hq].
  { split; [exact Hr|]. by destruct o, r. }
  clear Hr t r. destruct o as [typed|key| |e key]; cbn [run_op].
  - apply (wp_bind (ans := ans)). eapply wp_mono; [by apply connects|done].
  - apply (wp_bind (ans := ans)). eapply wp_mono; [by apply hints|done].
  - apply reconnects.
  - apply admits.
Qed.

(** ** What its rows settle on *)
Definition last_note (t : history) : option PeerState :=
  foldl (λ s x, match asked x with NotePeer _ _ st => Some st | _ => s end) None t.
Lemma last_note_snoc t x : last_note (t ++ [x]) = match asked x with NotePeer _ _ st => Some st | _ => last_note t end.
Proof. unfold last_note. by rewrite foldl_app. Qed.
Definition unnoting (c : Peers.call A VaultState) : Prop := match c with NotePeer _ _ _ => False | _ => True end.
Lemma last_note_app h t : Forall (λ x, unnoting (asked x)) t → last_note (h ++ t) = last_note h.
Proof.
  induction t as [|x t IH] using rev_ind; [by rewrite app_nil_r|]. rewrite Forall_app, list.Forall_singleton. intros [Ht Hx].
  rewrite app_assoc, last_note_snoc. destruct (asked x); try by apply IH. done.
Qed.
Definition settled (r : result Error unit) (h : history) : Prop :=
  match r with Ok _ => last_note h = Some Connected | Err _ => last_note h = None ∨ ∃ why, last_note h = Some (Closed why) end.
Lemma wp_unnoted {X Y} (p : prog (result Error X)) (k : X → prog (result Error Y)) h (Q : result Error Y → history → Prop) : all_calls unnoting p →
  (∀ e h', last_note h' = last_note h → Q (Err e) h') → (∀ x h', last_note h' = last_note h → wp (λ _ _, True) (k x) h' Q) → wp (λ _ _, True) (try p k) h Q.
Proof.
  intros Hp HE Hk. apply (wp_try (ans := ans)), (wp_quiet _ unnoting); [done..|]. intros t r Hr.
  assert (last_note (h ++ t) = last_note h) as Ht by (apply last_note_app, (all_calls_runs unnoting p t (Some r)); done).
  destruct r as [x|e]; [by apply Hk|by apply HE].
Qed.
Lemma unnoting_member e : all_calls unnoting (Peers.is_member_id (A := A) (VaultState := VaultState) (DriveSealed := DriveSealed) endpoint_id e).
Proof. apply all_calls_try; [|done]. eapply all_calls_mono; [|apply listing_members]. by intros []. Qed.
(** However a dial of [sync_connect] ends, its row does not stay connecting:
    success leaves it connected, and every refusal leaves no row or the reason it
    closed. *)
Theorem connect_settles typed t r : runs (Peers.sync_connect endpoint_id typed) t (Some r) → settled r t.
Proof.
  intros Hr. apply (wp_guards (λ _ _, True) _ [] settled) in Hr as [_ Hr]; [exact Hr|]. clear Hr t r. unfold sync_connect.
  assert (∀ e h', last_note h' = last_note ([] : history) → settled (Err e) h') as HE by (intros e h' Hh; left; by rewrite Hh).
  apply wp_unnoted; [by repeat split|apply HE|]. intros _ h Hh. cbv zeta. split; [done|]. intros []; cbn [negb].
  2: { split; [done|]. intros why. apply HE. by rewrite !last_note_snoc. }
  apply wp_unnoted; [by repeat split|intros e h' H'; apply HE; by rewrite H', last_note_snoc|]. intros _ h2 H2.
  rewrite last_note_snoc in H2. cbn [asked] in H2.
  apply wp_unnoted; [apply unnoting_member|intros e h' H'; apply HE; by rewrite H', H2|]. intros b h3 H3. rewrite H2, Hh in H3.
  destruct b; [|by apply HE]. cbn [negb]. split; [done|]. intros [key|why]; [|apply HE; by rewrite last_note_snoc].
  split; [done|]. intros []. destruct (on_curve key); cbn [negb].
  2: { split; [done|]. intros []. right. exists not_a_key. by rewrite last_note_snoc. }
  split; [done|]. intros [peer|why]; (split; [done|]; intros []).
  - cbn -[last_note app]. by rewrite last_note_snoc.
  - right. exists why. by rewrite last_note_snoc.
Qed.
End Facts.

Module Concrete.
Import Crypto.Toy ToySigned SharingFacts.Concrete.
#[local] Existing Instances History.Toy.automerge History.Toy.laws History.Toy.graph ContactsFacts.Concrete.checksum
  wire_bool wire_prompt wire_outgoing wire_inbox wire_instance wire_json.
Abbreviation pans := (Peers.ans (A := History.Toy.adoc) (VaultState := unit) (DriveSealed := unit)).
Definition me : bytes := verifying_key [].
Definition other : bytes := verifying_key [byte_of 1].
Definition endpoint_of (key : bytes) : string := Text.hex key.
(** A kernel whose group is this device and [other]; [shakes] is how handshakes end. *)
Definition answers (shakes : result string bytes) (s : unit) (c : Peers.call History.Toy.adoc unit) : option (pans c * unit) :=
  match c as c return option (pans c * unit) with
  | Below (Base ReadState) => Some (Custody.Concrete.device_with None, s)
  | Below (Base EngineKey) => Some (Some me, s)
  | NotePeer _ _ _ | CloseDialed | Disconnect _ | Sleep _ => Some (tt, s)
  | ReadEndpoint => Some (true, s)
  | Members => Some (Ok [mkMember me "mine" 1; mkMember other "theirs" 2], s)
  | Dial _ _ => Some (Ok other, s)
  | CanSyncPeer key => Some (Ok (bool_decide (key = other)), s)
  | Connect _ => Some (shakes, s)
  | _ => None
  end.
Definition connecting := run_with (answers (Ok other)) tt (Peers.sync_connect endpoint_of (endpoint_of other)).
Definition refusing := run_with (answers (Err "no answer"%string)) tt (Peers.sync_connect_hint endpoint_of other).
Definition dialing := run_with (answers (Ok other)) tt (run_op endpoint_of (ConnectOp (endpoint_of other))).
Definition rejoining := run_with (answers (Ok other)) tt (run_op endpoint_of (AdmitOp "ep" other)).
Lemma syncs_with_authorized_witness : rows rejoining.1 = [mkPeerRecord "ep" other Connected] ∧
  admission (VaultState := unit) (DriveSealed := unit) (A := History.Toy.adoc) "ep" other rejoining.1 ∧
  (∃ h, listed (VaultState := unit) (DriveSealed := unit) (A := History.Toy.adoc) endpoint_of h (trim (endpoint_of other))).
Proof.
  split; [vm_compute; reflexivity|]. split.
  - assert (rejoining.2 = Some tt) as He by (vm_compute; reflexivity).
    refine (match He in _ = r return match r with Some _ => _ | None => True end with eq_refl => _ end).
    exact (proj2 (syncs_with_authorized endpoint_of (AdmitOp "ep" other) rejoining.1 rejoining.2 (run_with_runs _ _ _))).
  - pose proof (proj1 (syncs_with_authorized endpoint_of (ConnectOp (endpoint_of other)) dialing.1 dialing.2 (run_with_runs _ _ _))) as Ht.
    assert (∃ e, asked <$> dialing.1 !! 7%nat = Some (Dial e SUBDUCTION_ALPN)) as (e0 & (e & Hl & He)%fmap_Some) by (eexists; vm_compute; reflexivity).
    pose proof (Ht (take 7 dialing.1) e (drop 8 dialing.1) (eq_sym (take_drop_middle _ _ _ Hl))) as Hg. rewrite <- He in Hg.
    destruct Hg as (_ & -> & Hg). exact (ex_intro _ (take 7 dialing.1) Hg).
Defined.
Lemma connect_settles_witness : last_note connecting.1 = Some Connected.
Proof.
  assert (connecting.2 = Some (Ok tt)) as He by (vm_compute; reflexivity).
  assert (runs (Peers.sync_connect endpoint_of (endpoint_of other)) connecting.1 connecting.2) as Hr by exact (run_with_runs (answers (Ok other)) tt _).
  rewrite He in Hr. exact (connect_settles endpoint_of _ connecting.1 (Ok tt) Hr).
Defined.
(** A dial made from a stored hint does not settle: when its handshake fails,
    nothing notes why, and its row says connecting from then on. *)
Theorem hint_stays_connecting : refusing.2 = Some (Err (Error_new Failed "no answer")) ∧
  rows refusing.1 = [mkPeerRecord (endpoint_of other) other Connecting].
Proof. vm_compute. by split. Qed.
End Concrete.
