(* ===== verification/Todo.v ===== *)
(** * The task list ([runtime/crates/todo-model/src/lib.rs])

    One automerge map per task under a minted id; the snapshot reads them in the
    order they were created. *)
From S2P Require Import Prelude BTree Text Crypto Automerge History Registers.

Record TodoItem := mkTodo { t_id : string; title : string; completed : bool }.
Record Snapshot := mkSnapshot { s_revision : Z; items : list TodoItem }.
Definition TITLE : string := "title".
Definition COMPLETED : string := "completed".
Definition CREATED : string := "created".
Definition I64_MAX : Z := 2 ^ 63 - 1.

Section Todo.
Context {ShaI : Sha256} {A Oid C : Type} {AM : Automerge A Oid} {CG : ChangeGraph A C}.
Abbreviation Document := (Document A).
Abbreviation op := (Registers.op (A := A)).

Definition item_at (a : A) (id : string) : option (Z * TodoItem) :=
  entry ← get_ok a ROOT id;
  let item := entry.2 in
  let title := default EmptyString (get_ok a item TITLE ≫= λ x, to_str x.1) in
  let completed := default false (get_ok a item COMPLETED ≫= λ x, to_bool x.1) in
  let created := default 0 (get_ok a item CREATED ≫= λ x, to_i64 x.1) in
  Some (created, mkTodo id title completed).
Definition created_first (a b : Z * TodoItem) : Prop := a.1 < b.1 ∨ (a.1 = b.1 ∧ key_le (t_id a.2) (t_id b.2)).
#[export] Instance created_first_dec : RelDecision created_first.
Proof. intros a b. unfold created_first. apply _. Defined.
Definition snapshot (d : Document) : Snapshot :=
  mkSnapshot (revision (C := C) d) (merge_sort created_first (omap (item_at (read d)) (root_keys d))).*2.

Definition mint_id (revision : Z) (actor : bytes) : string :=
  hex (take 16 (sha256 (as_bytes "polyvisor:task-id:" ++ actor ++ be_bytes 8 revision))).
Definition created_at (revision : Z) : Z := if revision <=? I64_MAX then revision else I64_MAX.
Definition add (title : string) : op string :=
  revision ← reading (revision (C := C));
  actor ← reading (actor_id (C := C));
  let id := mint_id revision actor in
  _ ← tx (C := C) (λ a,
        '(a, item) ← put_object a ROOT id;
        a ← put a item TITLE (Str title);
        a ← put a item COMPLETED (Boolean false);
        put a item CREATED (Int (created_at revision)));
  mret id.
Definition require (id : string) : op Oid :=
  found ← reading (λ d, get_ok (read d) ROOT id);
  lift (snd <$> ok_or ("no task with id " +:+ id) found).
Definition todo_put (id field : string) (v : scalar) : op unit :=
  item ← require id;
  tx (C := C) (λ a, put a item field v).
Definition set_completed (id : string) (v : bool) : op unit := todo_put id COMPLETED (Boolean v).
Definition set_title (id : string) (v : string) : op unit := todo_put id TITLE (Str v).
Definition remove (id : string) : op unit :=
  _ ← require id;
  tx (C := C) (λ a, delete a ROOT id).
End Todo.

(** ** Refinement of a map of tasks *)
Section Facts.
Context {ShaI : Sha256} {A Oid C : Type} {AM : Automerge A Oid} {CG : ChangeGraph A C} {ML : MapLaws A Oid} {CV : CommitView A Oid C}.
Implicit Types (a b : A) (d : Document A).

(** Every task is a map of its own. *)
Record tasks_ok a : Prop := {
  ok_task id x : get_ok a ROOT id = Some x → is_map a x.2 = true ∧ x.2 ≠ ROOT;
  ok_task_apart id id' x x' : get_ok a ROOT id = Some x → get_ok a ROOT id' = Some x' → x.2 = x'.2 → id = id';
}.
Lemma item_some a id : is_Some (item_at a id) ↔ is_Some (get_ok a ROOT id).
Proof. unfold item_at. destruct (get_ok a ROOT id); cbn; split; intros [? ?]; try done; by eexists. Qed.
Lemma item_fields a id x : get_ok a ROOT id = Some x → item_at a id = Some
  (default 0 (get_ok a x.2 CREATED ≫= λ x, to_i64 x.1),
   mkTodo id (default EmptyString (get_ok a x.2 TITLE ≫= λ x, to_str x.1)) (default false (get_ok a x.2 COMPLETED ≫= λ x, to_bool x.1))).
Proof. unfold item_at. by intros ->. Qed.

(** A write to a task's field changes that task alone. *)
Lemma put_task a id x f v : tasks_ok a → get_ok a ROOT id = Some x → ∃ b y, put a x.2 f v = Ok b ∧ tasks_ok b ∧
  get_ok b ROOT id = Some x ∧ get_ok b x.2 f = Some (Scalar v, y) ∧ (∀ g, g ≠ f → get_ok b x.2 g = get_ok a x.2 g) ∧
  ∀ j, j ≠ id → item_at b j = item_at a j.
Proof.
  intros Hok Hx. destruct (ok_task a Hok id x Hx) as [Hm Hr].
  destruct (put_spec a x.2 f v Hm) as (b & y & Hp & Ho & Hy).
  assert (∀ k, get_ok b ROOT k = get_ok a ROOT k) as Hroot.
  { intros k. apply (get_ok_only a b x.2 f ROOT k Ho); [apply root_map|]. left. by apply not_eq_sym. }
  exists b, y. split_and!; [done| |by rewrite Hroot|apply get_ok_one; [by apply Ho|done]| |].
  - split.
    + intros k z Hz. rewrite Hroot in Hz. destruct (ok_task a Hok k z Hz). split; [by apply Ho|done].
    + intros k k' z z' Hz Hz'. rewrite Hroot in Hz, Hz'. by apply (ok_task_apart a Hok).
  - intros g Hg. apply (get_ok_only a b x.2 f); [done|done|by right].
  - intros j Hj. destruct (get_ok a ROOT j) as [z|] eqn:Hz.
    + rewrite (item_fields a j z Hz), (item_fields b j z) by by rewrite Hroot.
      destruct (ok_task a Hok j z Hz) as [Hmz _]. assert (z.2 ≠ x.2) as Hne by (intros E; apply Hj; by eapply (ok_task_apart a Hok)).
      by rewrite !(get_ok_only a b x.2 f z.2) by (done || by left).
    + unfold item_at. by rewrite Hroot, Hz.
Qed.
(** A new task. *)
Lemma new_task a id : tasks_ok a → ∃ b x, put_object a ROOT id = Ok (b, x) ∧ tasks_ok b ∧
  get_ok b ROOT id = Some (Object, x) ∧ ∀ j, j ≠ id → item_at b j = item_at a j.
Proof.
  intros Hok. destruct (put_object_spec a ROOT id (root_map a)) as (b & x & Hp & Ho & Hx & Hn & Hb & He).
  assert (get_ok b ROOT id = Some (Object, x)) as Hid by (apply get_ok_one; [apply root_map|done]).
  assert (∀ j, j ≠ id → get_ok b ROOT j = get_ok a ROOT j) as Hroot.
  { intros j Hj. apply (get_ok_only a b ROOT id); [done|apply root_map|by right]. }
  assert (∀ j z, j ≠ id → get_ok b ROOT j = Some z → is_map a z.2 = true ∧ z.2 ≠ ROOT ∧ z.2 ≠ x) as Hold.
  { intros j z Hj Hz. rewrite Hroot in Hz by done. destruct (ok_task a Hok j z Hz) as [H1 H2]. split_and!; [done|done|].
    intros E. rewrite E in H1. by rewrite Hn in H1. }
  exists b, x. split_and!; [done| |done|].
  - split.
    + intros j z Hz. destruct (decide (j = id)) as [->|Hj].
      * rewrite Hid in Hz. injection Hz as <-. split; [done|]. cbn [snd]. intros ->. by rewrite (root_map a) in Hn.
      * destruct (Hold j z Hj Hz) as (H1 & H2 & _). split; [by apply Ho|done].
    + intros j j' z z' Hz Hz' E. destruct (decide (j = id)) as [->|Hj], (decide (j' = id)) as [->|Hj']; [done| | |].
      * rewrite Hid in Hz. injection Hz as <-. by destruct (Hold j' z' Hj' Hz') as (_ & _ & ?).
      * rewrite Hid in Hz'. injection Hz' as <-. by destruct (Hold j z Hj Hz) as (_ & _ & ?).
      * rewrite Hroot in Hz, Hz' by done. by eapply (ok_task_apart a Hok).
  - intros j Hj. destruct (get_ok a ROOT j) as [z|] eqn:Hz.
    + rewrite (item_fields a j z Hz), (item_fields b j z) by by rewrite Hroot.
      destruct (ok_task a Hok j z Hz) as [Hmz Hrz]. by rewrite !(get_ok_only a b ROOT id z.2) by (done || by left).
    + unfold item_at. by rewrite Hroot, Hz.
Qed.
(** A task removed. *)
Lemma delete_task a id : tasks_ok a → ∃ b, delete a ROOT id = Ok b ∧ tasks_ok b ∧ item_at b id = None ∧
  ∀ j, j ≠ id → item_at b j = item_at a j.
Proof.
  intros Hok. destruct (delete_spec a ROOT id (root_map a)) as (b & Hd & Ho & Hg).
  assert (get_ok b ROOT id = None) as Hid by (apply get_ok_none; [apply root_map|done]).
  assert (∀ j, j ≠ id → get_ok b ROOT j = get_ok a ROOT j) as Hroot.
  { intros j Hj. apply (get_ok_only a b ROOT id); [done|apply root_map|by right]. }
  assert (∀ j z, get_ok b ROOT j = Some z → get_ok a ROOT j = Some z) as Hback.
  { intros j z Hz. destruct (decide (j = id)) as [->|Hj]; [by rewrite Hid in Hz|by rewrite <- Hroot]. }
  exists b. split_and!; [done| | |].
  - split.
    + intros j z Hz%Hback. destruct (ok_task a Hok j z Hz). split; [by apply Ho|done].
    + intros j j' z z' Hz%Hback Hz'%Hback. by apply (ok_task_apart a Hok).
  - unfold item_at. by rewrite Hid.
  - intros j Hj. destruct (get_ok a ROOT j) as [z|] eqn:Hz.
    + rewrite (item_fields a j z Hz), (item_fields b j z) by by rewrite Hroot.
      destruct (ok_task a Hok j z Hz) as [Hmz Hrz]. by rewrite !(get_ok_only a b ROOT id z.2) by (done || by left).
    + unfold item_at. by rewrite Hroot, Hz.
Qed.

(** A transaction a reader sees as its operations. *)
Lemma tx_tasks f d b : f (read d) = Ok b → tasks_ok b → ∃ d', tx (C := C) f d = (d', Ok ()) ∧ tasks_ok (read d') ∧
  ∀ j, item_at (read d') j = item_at b j.
Proof.
  intros Hf Hok. destruct (tx_view f d b Hf) as (d' & Hd & Hm & Hg). exists d'. split_and!; [done| |].
  - split.
    + intros j x Hx. rewrite Hg in Hx. rewrite Hm. by apply (ok_task b Hok j).
    + intros j j' x x' Hx Hx'. rewrite Hg in Hx, Hx'. by apply (ok_task_apart b Hok).
  - intros j. unfold item_at. rewrite Hg. destruct (get_ok b ROOT j); [|done]. cbn [mbind option_bind]. by rewrite !Hg.
Qed.

(** *** The specification *)
Inductive edit := Add (title : string) | Complete (id : string) (v : bool) | Retitle (id title : string) | Remove (id : string).
Definition apply_edit (e : edit) : Registers.op (A := A) unit :=
  match e with
  | Add t => _ ← add (C := C) t; mret ()
  | Complete id v => set_completed (C := C) id v
  | Retitle id t => set_title (C := C) id t
  | Remove id => remove (C := C) id
  end.
Definition tasks := string → option (Z * TodoItem).
Definition over (id : string) (x : option (Z * TodoItem)) (v : tasks) : tasks := λ j, if decide (j = id) then x else v j.
(** What an edit does to the tasks a document shows; [None] is a refusal. *)
Definition spec_edit (rev : Z) (actor : bytes) (e : edit) (v : tasks) : option tasks :=
  match e with
  | Add t => let id := mint_id rev actor in Some (over id (Some (created_at rev, mkTodo id t false)) v)
  | Complete id b => x ← v id; Some (over id (Some (x.1, mkTodo id (title x.2) b)) v)
  | Retitle id t => x ← v id; Some (over id (Some (x.1, mkTodo id t (completed x.2))) v)
  | Remove id => _ ← v id; Some (over id None v)
  end.

Lemma todo_put_spec id f v d x : tasks_ok (read d) → get_ok (read d) ROOT id = Some x → ∃ d', todo_put (C := C) id f v d = (d', Ok ()) ∧
  tasks_ok (read d') ∧ (∀ j, j ≠ id → item_at (read d') j = item_at (read d) j) ∧
  ∃ b y, item_at (read d') id = item_at b id ∧ get_ok b ROOT id = Some x ∧ get_ok b x.2 f = Some (Scalar v, y) ∧
    ∀ g, g ≠ f → get_ok b x.2 g = get_ok (read d) x.2 g.
Proof.
  intros Hok Hx. destruct (put_task (read d) id x f v Hok Hx) as (b & y & Hp & Hokb & Hb & Hy & Hg & Hother).
  destruct (tx_tasks (λ a, put a x.2 f v) d b Hp Hokb) as (d' & Hd & Hok' & Hv).
  exists d'. split_and!.
  - unfold todo_put, require. rewrite op_bind_assoc, bind_reading, bind_lift, Hx. exact Hd.
  - done.
  - intros j Hj. by rewrite Hv, Hother.
  - by exists b, y.
Qed.
Lemma todo_put_missing id f v d : get_ok (read d) ROOT id = None → ∃ w, todo_put (C := C) id f v d = (d, Err w).
Proof.
  intros Hx. unfold todo_put, require. rewrite op_bind_assoc, bind_reading, bind_lift, Hx. by eexists.
Qed.
Lemma add_adds t d : tasks_ok (read d) → let id := mint_id (revision (C := C) d) (actor_id (C := C) d) in
  ∃ d', add (C := C) t d = (d', Ok id) ∧ tasks_ok (read d') ∧
  item_at (read d') id = Some (created_at (revision (C := C) d), mkTodo id t false) ∧
  ∀ j, j ≠ id → item_at (read d') j = item_at (read d) j.
Proof.
  intros Hok id. set (rev := revision (C := C) d) in *.
  destruct (new_task (read d) id Hok) as (a1 & x & E1 & Hok1 & Hx1 & Ho1).
  destruct (put_task a1 id (Object, x) TITLE (Str t) Hok1 Hx1) as (a2 & y2 & E2 & Hok2 & Hx2 & Hy2 & _ & Ho2).
  destruct (put_task a2 id (Object, x) COMPLETED (Boolean false) Hok2 Hx2) as (a3 & y3 & E3 & Hok3 & Hx3 & Hy3 & Hg3 & Ho3).
  destruct (put_task a3 id (Object, x) CREATED (Int (created_at rev)) Hok3 Hx3) as (a4 & y4 & E4 & Hok4 & Hx4 & Hy4 & Hg4 & Ho4).
  cbn [snd] in *.
  destruct (tx_tasks (λ a, '(a, item) ← put_object a ROOT id; a ← put a item TITLE (Str t);
    a ← put a item COMPLETED (Boolean false); put a item CREATED (Int (created_at rev))) d a4) as (d' & Hd & Hok' & Hv); [|done|].
  { rewrite E1. cbn [mbind result_bind]. rewrite E2. cbn [mbind result_bind]. rewrite E3. cbn [mbind result_bind]. exact E4. }
  exists d'. split_and!; [|done| |].
  - unfold add. rewrite !bind_reading. fold rev id. unfold mbind at 1, op_bind at 1. by rewrite Hd.
  - rewrite Hv, (item_fields a4 id _ Hx4). cbn [snd]. by rewrite Hy4, (Hg4 TITLE), (Hg4 COMPLETED), Hy3, (Hg3 TITLE), Hy2 by done.
  - intros j Hj. by rewrite Hv, Ho4, Ho3, Ho2, Ho1.
Qed.

(** C37: Every edit does to the document what the specification does to the tasks it
    shows: a minted task under its title, one field of one task, one task gone;
    an edit of a task that is not there is refused and changes nothing.  The
    shape the edits rely on is kept. *)
Theorem edits_refine e d : tasks_ok (read d) →
  match spec_edit (revision (C := C) d) (actor_id (C := C) d) e (item_at (read d)) with
  | None => ∃ w, apply_edit e d = (d, Err w)
  | Some v => ∃ d', apply_edit e d = (d', Ok ()) ∧ tasks_ok (read d') ∧ ∀ j, item_at (read d') j = v j
  end.
Proof.
  intros Hok. destruct e as [t|id b|id t|id]; cbn [spec_edit apply_edit].
  - destruct (add_adds t d Hok) as (d' & Hd & Hok' & Hid & Ho). exists d'. split_and!; [|done|].
    + unfold mbind at 1, op_bind at 1. by rewrite Hd.
    + intros j. unfold over. case_decide as Hj; [by subst j|by apply Ho].
  - destruct (get_ok (read d) ROOT id) as [x|] eqn:Hx.
    + rewrite (item_fields _ _ _ Hx). cbn [mbind option_bind fst snd].
      destruct (todo_put_spec id COMPLETED (Boolean b) d x Hok Hx) as (d' & Hd & Hok' & Ho & c & y & Hc & Hcx & Hy & Hg).
      exists d'. split_and!; [done|done|]. intros j. unfold over. case_decide as Hj; [subst j|by apply Ho].
      rewrite Hc, (item_fields c id x Hcx). by rewrite Hy, (Hg CREATED), (Hg TITLE) by done.
    + assert (item_at (read d) id = None) as -> by (unfold item_at; by rewrite Hx). by apply todo_put_missing.
  - destruct (get_ok (read d) ROOT id) as [x|] eqn:Hx.
    + rewrite (item_fields _ _ _ Hx). cbn [mbind option_bind fst snd].
      destruct (todo_put_spec id TITLE (Str t) d x Hok Hx) as (d' & Hd & Hok' & Ho & c & y & Hc & Hcx & Hy & Hg).
      exists d'. split_and!; [done|done|]. intros j. unfold over. case_decide as Hj; [subst j|by apply Ho].
      rewrite Hc, (item_fields c id x Hcx). by rewrite Hy, (Hg CREATED), (Hg COMPLETED) by done.
    + assert (item_at (read d) id = None) as -> by (unfold item_at; by rewrite Hx). by apply todo_put_missing.
  - unfold remove, require. rewrite op_bind_assoc, bind_reading, bind_lift.
    destruct (get_ok (read d) ROOT id) as [x|] eqn:Hx.
    + rewrite (item_fields _ _ _ Hx). cbn [mbind option_bind].
      destruct (delete_task (read d) id Hok) as (b & Hp & Hokb & Hb & Ho).
      destruct (tx_tasks (λ a, delete a ROOT id) d b Hp Hokb) as (d' & Hd & Hok' & Hv).
      exists d'. split_and!; [exact Hd|done|]. intros j. unfold over. rewrite Hv. case_decide as Hj; [by subst j|by apply Ho].
    + assert (item_at (read d) id = None) as -> by (unfold item_at; by rewrite Hx). by eexists.
Qed.
(** What the snapshot lists: every task shown, none twice, oldest first. *)
Lemma snapshot_lists d x : x ∈ items (snapshot (C := C) d) ↔ ∃ c id, item_at (read d) id = Some (c, x).
Proof.
  unfold snapshot. cbn [items]. rewrite list_elem_of_fmap. split.
  - intros ([c y] & -> & Hy). rewrite merge_sort_Permutation in Hy. apply list_elem_of_omap in Hy as (id & _ & Hy). by exists c, id.
  - intros (c & id & Hx). exists (c, x). split; [done|]. rewrite merge_sort_Permutation. apply list_elem_of_omap. exists id. split; [|done].
    destruct (get_ok (read d) ROOT id) as [z|] eqn:Hz; [|unfold item_at in Hx; by rewrite Hz in Hx].
    apply (elem_of_keys _ _ _ (root_map _)). intros Hn. by rewrite (get_ok_none _ _ _ (root_map _) Hn) in Hz.
Qed.
End Facts.

Module Concrete.
Import Crypto.Toy.
#[local] Existing Instances History.Toy.automerge History.Toy.laws History.Toy.graph toy_commit.
Definition todo0 : Document History.Toy.adoc := History.empty (C := nat * nat) [byte_of 1] [].
Lemma todo0_ok : tasks_ok (read todo0).
Proof.
  assert (∀ id, get_ok (read todo0) ROOT id = None) as Hnone.
  { intros id. destruct (get_ok (read todo0) ROOT id) as [x|] eqn:Hx; [|done]. apply (get_ok_in _ _ _ _ (root_map _)) in Hx.
    assert (id ∈ keys (read todo0) ROOT) as Hk.
    { apply (elem_of_keys _ _ _ (root_map _)). intros E. rewrite E in Hx. by apply elem_of_nil in Hx. }
    vm_compute in Hk. by apply elem_of_nil in Hk. }
  split; intros *; rewrite Hnone; done.
Qed.
Lemma edits_refine_witness : tasks_ok (read todo0) ∧
  ∃ d, apply_edit (C := nat * nat) (Add "milk") todo0 = (d, Ok ()) ∧
    item_at (read d) (mint_id 0 [byte_of 1]) = Some (0, mkTodo (mint_id 0 [byte_of 1]) "milk" false).
Proof.
  split; [exact todo0_ok|].
  destruct (edits_refine (C := nat * nat) (Add "milk") todo0 todo0_ok) as (d & Hd & _ & Hv).
  exists d. split; [exact Hd|]. rewrite Hv. reflexivity.
Defined.
End Concrete.
