(* ===== verification/Services.v ===== *)
(** * Sessions and what apps may ask of the kernel ([runtime/crates/kernel/src/lib.rs])

    Launching and closing sessions, the routes a window is at, the task list and
    the document history an app reads and writes through its session, the opaque
    slots, and the device's settings. *)
From S2P Require Import Prelude BTree Crypto Error Route Opaque Device Persist ContactsWire Registers VisorModel Automerge History Us Async Identity DriveText Apps Calls Sharing.
From S2P Require Todo.

Record HistorySnapshot := mkHistorySnapshot { hs_revision : Z; hs_bytes : bytes }.

Section Services.
Context {EdI : Ed25519} {SigI : Signatures} {ShaI : Sha256} {AeadI : Aead} {HmacI : Hmac} {B64I : Base64Url}.
Context {A Oid C : Type} {AM : Automerge A Oid} {CG : ChangeGraph A C}.
Context {JP : SerdeJson SharePromptRecord} {JO : SerdeJson ShareOutgoingRecord} {JI : SerdeJson ShareInboxRecord}
  {JN : SerdeJson ShareInstanceRecord} {JS : SerdeJson string}.
Context {VaultState DriveSealed : Type}.
(** The registry and the home origin, which no operation changes. *)
Context (registry : Registry) (home_origin : string).

(** ** Calls *)
Inductive call :=
| Below (c : Calls.call A)
| OfApps (c : Apps.call)
(* [sessions], [session_documents] and [next_session], one borrow at a time *)
| StartSession (app : string) (partition : option string)
| EndSession (session : Z)
| WakeDocuments (app : string)
| PushSessionEnded (session : Z) (reason : string)
| PushPersonalizationChanged
(* [with_device], and the petname generator *)
| SetDeviceName (name : string)
| SetDeviceHue (hue : Z)
| SetDeviceShared (hue : Z) (user : gmap string string) (apps : gmap string (gmap string string))
| GeneratePetnameAfter (previous : string)
(* the engine *)
| Members
| SetMemberPetname (key : bytes) (name : string)
| CreateSharedDocument
| PublishDocument (app : string) (changes : list bytes)
| Revision (app : string)
| ModelEntropy
| OpaqueReplace (slot : string) (mode : OpaqueMode)
| OpaqueDisable (slot : string)
| OpaqueCurrent (slot : string)
| OpaqueOpen (tree : bytes)
| OpaquePublish (tree : bytes) (parents : list bytes) (b : bytes)
| OpaqueRead (tree : bytes)
(* the waiters of a document: the id of the next one, a poll that is pending until
   it is woken, and the guard that drops it *)
| NextWatch
| Park (id : Z) (app : string)
| Unpark (id : Z).
Definition ans (c : call) : Type :=
  match c with
  | Below c => Calls.ans (VaultState := VaultState) (DriveSealed := DriveSealed) c
  | OfApps c => Apps.ans c
  | StartSession _ _ => Z
  | EndSession _ => option string * option string
  | WakeDocuments _ | PushSessionEnded _ _ | PushPersonalizationChanged => unit
  | SetDeviceName _ | SetDeviceHue _ | SetDeviceShared _ _ _ => unit
  | GeneratePetnameAfter _ => string
  | Members => result string (list Member)
  | SetMemberPetname _ _ => result string unit
  | CreateSharedDocument => result string string
  | PublishDocument _ _ => result string bool
  | Revision _ => option Z
  | ModelEntropy => bytes
  | OpaqueReplace _ _ => result string bytes
  | OpaqueDisable _ => result string unit
  | OpaqueCurrent _ => result string (option bytes)
  | OpaqueOpen _ => result string unit
  | OpaquePublish _ _ _ => result string bytes
  | OpaqueRead _ => result string (list OpaqueItem)
  | NextWatch => Z
  | Park _ _ | Unpark _ => unit
  end.
Abbreviation prog := (Async.prog ans).
Abbreviation ask c := (Async.call (ans := ans) c).
Abbreviation Document := (Document A).
Definition below_call (c : Calls.call A) : prog (Calls.ans (VaultState := VaultState) (DriveSealed := DriveSealed) c) := ask (Below c).
Definition below {X} (p : Async.prog (Calls.ans (VaultState := VaultState) (DriveSealed := DriveSealed)) X) : prog X := interp below_call p.
Definition of_apps {X} (p : Async.prog Apps.ans X) : prog X := interp (λ c, ask (OfApps c)) p.
Definition open : prog (result Error unit) := below Sharing.open.
Definition engine : prog (result Error bytes) := below Calls.engine.
Definition engine_call {X} (p : prog (result string X)) : prog (result Error X) := r ← p; Done (map_err engine_failed r).
Definition document_read {X} (app : string) (read : Document → X) : prog (result string X) := below (Calls.document_read app read).
Definition document_mutate {X} (app : string) (change : Registers.op (A := A) X) : prog (result string X) :=
  below (Calls.document_mutate app (λ d, Done (change d))).
Definition checkpoint : prog (result Error unit) := ask (Below (Base CheckpointDurable)).
(** [self.engine().map_err(|e| e.message)?] *)
Definition engine_message : prog (result string bytes) := e ← engine; Done (message_of e).

(** ** The shared personalization *)
Definition set_shared_personalization (hue : option (option Z)) (fields : list (option string * string * option string)) : prog (result string unit) :=
  _ ←! engine_message;
  document_mutate VISOR_APP (set_personalization (C := C) hue fields).
Definition refresh_personalization : prog (result Error unit) :=
  _ ←! engine;
  shared ←! engine_call (document_read VISOR_APP personalization);
  match VisorModel.hue shared with
  | None => Done (Ok ())
  | Some hue => _ ← ask (SetDeviceShared hue (VisorModel.user shared) (VisorModel.apps shared)); Done (Ok ())
  end.
(** What a founder writes: its own fields. *)
Definition own_fields (user : gmap string string) (apps : gmap string (gmap string string)) : list (option string * string * option string) :=
  ((λ p, (None, p.1, Some p.2)) <$> btree_items user) ++
  (btree_items apps ≫= λ a, (λ p, (Some a.1, p.1, Some p.2)) <$> btree_items a.2).
Definition is_founder (me : bytes) (l : list Member) : bool :=
  match l with [] => true | m :: _ => bool_decide (m_key m = me) end.
Definition sealed_device : Error := Error_new Unavailable "device is sealed".
Definition initialize_personalization : prog (result Error bool) :=
  s ← ask (Below (Base ReadState));
  d ←! Done (ok_or sealed_device (Persist.device s));
  _ ←! engine;
  l ←! engine_call (ask Members);
  me ←! engine;
  _ ←! engine;
  shared ←! engine_call (document_read VISOR_APP personalization);
  let wrote := bool_decide (VisorModel.hue shared = None) && is_founder me l in
  _ ←! (if wrote then engine_call (set_shared_personalization (Some (Some (Device.hue d))) (own_fields (meta_user (meta d)) (meta_app (meta d))))
        else Done (Ok ()));
  _ ←! refresh_personalization;
  Done (Ok wrote).

(** ** The device's settings *)
Definition current_name : prog string := s ← ask (Below (Base ReadState)); Done (default EmptyString (Device.name <$> Persist.device s)).
Definition set_name (name : string) : prog (result Error unit) :=
  _ ←! open;
  _ ←! initialize_personalization;
  name ← (if bool_decide (name = EmptyString) then previous ← current_name; ask (GeneratePetnameAfter previous) else Done name);
  key ←! engine;
  _ ←! engine;
  _ ←! engine_call (ask (SetMemberPetname key name));
  _ ← ask (SetDeviceName name);
  _ ←! checkpoint;
  _ ← ask PushPersonalizationChanged;
  Done (Ok ()).
Definition set_hue (hue : Z) : prog (result Error unit) :=
  _ ←! open;
  _ ←! initialize_personalization;
  if 360 <=? hue then Done (Err (Error_new Refused ("hue must be below 360 degrees; got " +:+ pretty hue))) else
  _ ←! engine_call (set_shared_personalization (Some (Some hue)) []);
  _ ← ask (SetDeviceHue hue);
  _ ←! checkpoint;
  _ ← ask PushPersonalizationChanged;
  Done (Ok ()).
Definition meta (scope : MetaScope) : prog (result Error (gmap string string)) :=
  _ ←! open;
  s ← ask (Below (Base ReadState));
  match Persist.device s with
  | None => below (base Identity.panic)
  | Some d => Done (Ok (match scope with ScopeUser => meta_user (Device.meta d) | ScopeApp app => default ∅ (meta_app (Device.meta d) !! app) end))
  end.
Definition is_blank (v : option string) : bool := match v with Some s => bool_decide (s = EmptyString) | None => true end.
Fixpoint named_fields (previous : string) (l : list (string * option string)) : prog (list (string * option string)) :=
  match l with
  | [] => Done []
  | (key, v) :: l =>
    v ← (if bool_decide (key = "petname"%string) && is_blank v then p ← ask (GeneratePetnameAfter previous); Done (Some p) else Done v);
    l ← named_fields previous l;
    Done ((key, v) :: l)
  end.
Definition scope_app (scope : MetaScope) : option string := match scope with ScopeApp app => Some app | ScopeUser => None end.
Definition patch_meta (scope : MetaScope) (fields : list (string * option string)) : prog (result Error unit) :=
  _ ←! open;
  _ ←! initialize_personalization;
  m ←! meta scope;
  let previous := default EmptyString (m !! "petname"%string) in
  fields ← named_fields previous fields;
  _ ←! engine_call (set_shared_personalization None ((λ f, (scope_app scope, f.1, f.2)) <$> fields));
  _ ←! refresh_personalization;
  _ ←! checkpoint;
  _ ← ask PushPersonalizationChanged;
  Done (Ok ()).

(** ** Sessions *)
Definition unknown_app (app : string) : Error := Error_new UnknownApp ("no app named " +:+ app +:+ " is installed").
Definition TODO_APP : string := "todomvc".
Definition find_personal : prog (result Error (option string)) :=
  engine_call (document_read VISOR_APP (λ d, personal_partition d TODO_APP)).
Definition bind_personal (partition : string) : prog (result Error unit) :=
  engine_call (document_mutate VISOR_APP (set_personal_partition (C := C) TODO_APP partition)).
Definition locked {X} (p : prog X) : prog X :=
  _ ← ask (Below LockSharing); r ← p; _ ← ask (Below UnlockSharing); Done r.
(** The partition of a launch: the personal list, made at its first launch. *)
Definition launch_partition (app : string) (partition : option string) : prog (result Error (option string)) :=
  if bool_decide (app = TODO_APP) && bool_decide (partition = None) then
    _ ←! engine;
    found ←! find_personal;
    match found with
    | Some existing => Done (Ok (Some existing))
    | None =>
      shared ←! engine_call (ask CreateSharedDocument);
      _ ←! bind_personal shared;
      _ ←! checkpoint;
      Done (Ok (Some shared))
    end
  else Done (Ok partition).
(** An app that was never named is given a petname. *)
Definition name_app (app : string) : prog (result Error unit) :=
  existing ←! meta (ScopeApp app);
  if is_blank (existing !! "petname"%string) then
    petname ← ask (GeneratePetnameAfter EmptyString);
    _ ←! engine_call (set_shared_personalization None [(Some app, "petname"%string, Some petname)]);
    _ ←! refresh_personalization;
    checkpoint
  else Done (Ok ()).
Definition launch_bound (app : string) (partition : option string) : prog (result Error Z) :=
  _ ←! open;
  installed ← ask (Below (RegistryContains app));
  if negb (installed : bool) then Done (Err (unknown_app app)) else
  locked (
    partition ←! launch_partition app partition;
    _ ←! initialize_personalization;
    _ ←! name_app app;
    session ← ask (StartSession app partition);
    Done (Ok session)).
Definition launch (app : string) : prog (result Error Z) := launch_bound app None.
Definition launch_instance (app instance : string) : prog (result Error Z) :=
  partition ←! below (sharing_instance_partition instance app);
  launch_bound app (Some partition).
Definition initialize_document_instances : prog (result Error bool) :=
  installed ← ask (Below (RegistryContains TODO_APP));
  if negb (installed : bool) then Done (Ok false) else
  locked (
    _ ←! engine;
    found ←! find_personal;
    if bool_decide (is_Some found) then Done (Ok false) else
    shared ←! engine_call (ask CreateSharedDocument);
    _ ←! bind_personal shared;
    Done (Ok true)).
Definition session_app_id (session : Z) : prog (result Error string) := ask (Below (SessionApp session)).
Definition component (session : Z) : prog (result Error ComponentArtifacts) :=
  _ ←! open;
  app ←! session_app_id session;
  of_apps (Apps.component registry home_origin app).
Definition assets (session : Z) : prog (result Error (list AssetInfo)) :=
  _ ←! open;
  app ←! session_app_id session;
  Done (Apps.assets registry app).
Definition asset (session : Z) (handle : bytes) : prog (result Error bytes) :=
  _ ←! open;
  app ←! session_app_id session;
  of_apps (Apps.asset registry home_origin app handle).
Definition close (session : Z) : prog unit :=
  r ← ask (EndSession session);
  match r.1 with Some app => ask (WakeDocuments (default app r.2)) | None => Done () end.
Definition abort (session : Z) (reason : string) : prog unit :=
  r ← ask (EndSession session);
  match r.1 with
  | Some app => _ ← ask (WakeDocuments (default app r.2)); ask (PushSessionEnded session reason)
  | None => Done ()
  end.

(** ** Routes *)
Definition visor_route_key : prog (result string (bytes * bool)) :=
  _ ←! engine_message;
  s ← ask (Below (Base ReadState));
  entropy ← ask ModelEntropy;
  document_mutate VISOR_APP (route_key_or_create (C := C) (seed s) entropy).
Definition visor_install (app : string) : prog (result string (bytes * bool)) :=
  _ ←! engine_message;
  s ← ask (Below (Base ReadState));
  entropy ← ask ModelEntropy;
  document_mutate VISOR_APP (install_or_create (C := C) (seed s) entropy app).
Definition route_error (route : string) (why : RouteError) : Error :=
  match why with
  | TooLong => Error_new Refused ("this app's location is too long to put in a link (" +:+ pretty (Z.of_nat (String.length route)) +:+
      " bytes; the limit is " +:+ pretty (Z.of_nat MAX_ROUTE) +:+ ")")
  | Unreadable => Error_new Failed "this link could not be written"
  end.
Definition checkpoint_if (wrote : bool) : prog (result Error unit) := if wrote then checkpoint else Done (Ok ()).
Definition route_encode (session : Z) (route : string) : prog (result Error string) :=
  _ ←! open;
  app ←! session_app_id session;
  install ←! engine_call (visor_install app);
  key ←! engine_call visor_route_key;
  _ ←! checkpoint_if (install.2 || key.2);
  partition ← ask (Below (SessionDocument session));
  instance ←! match partition with
              | Some partition =>
                _ ←! engine;
                engine_call (document_read VISOR_APP (λ d, instance_for_partition d partition))
              | None => Done (Ok None)
              end;
  Done (map_err (route_error route) (encode_instance key.1 install.1 instance route)).
Definition unopenable_link : Error := Error_new NotFound "this link is not one this device can open".
Definition link_uninstalled : Error := Error_new UnknownApp "that link names an app that is not installed".
Definition link_gone : Error := Error_new UnknownApp "that link names an app that is no longer installed".
Definition app_of (install : bytes) (l : list (bytes * string)) : option string := snd <$> hd_error (filter (λ p, p.1 = install) l).
Definition route_decode (fragment : string) : prog (result Error (AppInfo * string * option string)) :=
  _ ←! open;
  match launch_app fragment with
  | Some app =>
    i ←! Done (ok_or link_uninstalled (info registry app));
    installed ←! engine_call (visor_install app);
    _ ←! checkpoint_if installed.2;
    Done (Ok (i, EmptyString, None))
  | None =>
    _ ←! engine;
    key ←! engine_call visor_route_key;
    _ ←! checkpoint_if key.2;
    f ←! Done (map_err (λ _, unopenable_link) (decode_instance key.1 fragment));
    let '(install, instance, route) := f in
    l ←! engine_call (document_read VISOR_APP VisorModel.installs);
    app ←! Done (ok_or unopenable_link (app_of install l));
    i ←! Done (ok_or link_gone (info registry app));
    _ ←! match instance with
         | Some id => _ ←! below (sharing_instance_partition id app); Done (Ok ())
         | None => Done (Ok ())
         end;
    Done (Ok (i, route, instance))
  end.
Definition install_fragment (app : string) : prog (result Error string) :=
  _ ←! open;
  Done (match info registry app with Some _ => Ok (launch_fragment app) | None => Err (unknown_app app) end).

(** ** Opaque slots *)
Definition opaque_replace (slot : string) (mode : OpaqueMode) : prog (result Error bytes) :=
  _ ←! open;
  _ ←! engine;
  tree ←! engine_call (ask (OpaqueReplace slot mode));
  _ ←! checkpoint;
  Done (Ok tree).
Definition opaque_disable (slot : string) : prog (result Error unit) :=
  _ ←! open;
  _ ←! engine;
  _ ←! engine_call (ask (OpaqueDisable slot));
  checkpoint.
Definition opaque_current (slot : string) : prog (result Error (option bytes)) :=
  _ ←! open; _ ←! engine; engine_call (ask (OpaqueCurrent slot)).
Definition opaque_open (tree : bytes) : prog (result Error unit) :=
  _ ←! open; _ ←! engine; engine_call (ask (OpaqueOpen tree)).
Definition opaque_publish (tree : bytes) (parents : list bytes) (b : bytes) : prog (result Error bytes) :=
  _ ←! open;
  _ ←! engine;
  id ←! engine_call (ask (OpaquePublish tree parents b));
  _ ←! checkpoint;
  Done (Ok id).
Definition opaque_read (tree : bytes) : prog (result Error (list OpaqueItem)) :=
  _ ←! open; _ ←! engine; engine_call (ask (OpaqueRead tree)).

(** ** App services *)
Definition unknown_session : string := "unknown session".
(** The document a session reads and writes. *)
Definition app_engine (session : Z) : prog (result string string) :=
  o ← open;
  _ ←! Done (message_of o);
  found ← session_app_id session;
  app_id ←! Done (map_err (λ _, unknown_session) found);
  bound ← ask (Below (SessionDocument session));
  _ ←! engine_message;
  Done (Ok (default app_id bound)).
Definition validate_session (session : Z) (app : string) : prog (result string unit) :=
  bound ← ask (Below (SessionDocument session));
  expected ← (match bound with
              | Some p => Done (Some p)
              | None => found ← session_app_id session; Done (ok found)
              end);
  Done (if bool_decide (expected = Some app) then Ok () else Err unknown_session).
Definition checkpoint_service : prog (result string unit) := r ← ask (Below PersistEngine); Done (message_of r).
Definition tasks_items (session : Z) : prog (result string Todo.Snapshot) :=
  app ←! app_engine session;
  document_read app (Todo.snapshot (C := C)).
(** What every change of the task list does. *)
Definition tasks_change {X} (session : Z) (change : Registers.op (A := A) X) : prog (result string X) :=
  app ←! app_engine session;
  x ←! document_mutate app change;
  _ ←! checkpoint_service;
  _ ← ask (WakeDocuments app);
  Done (Ok x).
Definition tasks_add (session : Z) (title : string) : prog (result string string) := tasks_change session (Todo.add (C := C) title).
Definition tasks_set_completed (session : Z) (id : string) (completed : bool) : prog (result string unit) :=
  tasks_change session (Todo.set_completed (C := C) id completed).
Definition tasks_set_title (session : Z) (id title : string) : prog (result string unit) := tasks_change session (Todo.set_title (C := C) id title).
Definition tasks_remove (session : Z) (id : string) : prog (result string unit) := tasks_change session (Todo.remove (C := C) id).

(** Polls until the session is gone or the document is at another revision;
    [None]: still parked after [n] polls. *)
Fixpoint wait_polls (n : nat) (id session : Z) (app : string) (after : Z) : prog (option (result string unit)) :=
  match n with
  | O => Done None
  | S n =>
    v ← validate_session session app;
    match v with
    | Err _ => Done (Some (Err unknown_session))
    | Ok _ =>
      r ← ask (Revision app);
      if bool_decide (r = Some after) then _ ← ask (Park id app); wait_polls n id session app after else Done (Some (Ok ()))
    end
  end.
Definition wait_document_change (n : nat) (session : Z) (app : string) (after : Z) : prog (option (result string unit)) :=
  id ← ask NextWatch;
  r ← wait_polls n id session app after;
  _ ← (if bool_decide (is_Some r) then ask (Unpark id) else Done ());
  Done r.
(** A watch over any projection of the document. *)
Definition watch {X} (n : nat) (read : Document → X) (revision_of : X → Z) (session after : Z) : prog (option (result string X)) :=
  a ← app_engine session;
  match a with
  | Err why => Done (Some (Err why))
  | Ok app =>
    f ← document_read app read;
    match f with
    | Err why => Done (Some (Err why))
    | Ok first =>
      if negb (bool_decide (revision_of first = after)) then
        v ← validate_session session app; Done (Some (_ ← v; Ok first))
      else
        w ← wait_document_change n session app after;
        match w with
        | None => Done None
        | Some (Err why) => Done (Some (Err why))
        | Some (Ok _) =>
          s ← document_read app read;
          match s with
          | Err why => Done (Some (Err why))
          | Ok s => v ← validate_session session app; Done (Some (_ ← v; Ok s))
          end
        end
    end
  end.
Definition tasks_watch (n : nat) (session after : Z) : prog (option (result string Todo.Snapshot)) :=
  watch n (Todo.snapshot (C := C)) Todo.s_revision session after.
Definition history_snapshot (d : Document) : HistorySnapshot := mkHistorySnapshot (revision (C := C) d) (save (C := C) (History.read d)).
Definition history_read (session : Z) : prog (result string HistorySnapshot) :=
  app ←! app_engine session;
  s ←! document_read app history_snapshot;
  _ ←! validate_session session app;
  Done (Ok s).
Definition history_watch (n : nat) (session after : Z) : prog (option (result string HistorySnapshot)) :=
  watch n history_snapshot hs_revision session after.
Definition history_publish (session : Z) (changes : list bytes) : prog (result string unit) :=
  app ←! app_engine session;
  _ ←! ask (PublishDocument app changes);
  _ ←! checkpoint_service;
  _ ← ask (WakeDocuments app);
  validate_session session app.
End Services.
Arguments call : clear implicits.
