(* ===== verification/ServicesFacts.v ===== *)
(** * What an app reaches through its session, and what a launch opens

    Over every history: a session's services touch the one document the session
    is bound to, and answer a change only once it is on disk; the personal list
    is made once; a link opens only as it was written. *)
From S2P Require Import Prelude BTree Crypto Error Route Opaque Device Persist ContactsWire Registers VisorModel VisorFacts Automerge History Us Async Identity DriveText Apps Calls Sharing Services.
From S2P Require Todo SharingFacts Custody History VisorFacts.

Section Facts.
Context {EdI : Ed25519} {SigI : Signatures} {ShaI : Sha256} {AeadI : Aead} {HmacI : Hmac} {B64I : Base64Url}.
Context {A Oid C : Type} {AM : Automerge A Oid} {CG : ChangeGraph A C}.
Context {JP : SerdeJson SharePromptRecord} {JO : SerdeJson ShareOutgoingRecord} {JI : SerdeJson ShareInboxRecord}
  {JN : SerdeJson ShareInstanceRecord} {JS : SerdeJson string}.
Context {VaultState DriveSealed : Type}.
Abbreviation ans := (Services.ans (A := A) (VaultState := VaultState) (DriveSealed := DriveSealed)).
Abbreviation prog := (Async.prog ans).
Abbreviation history := (list (Async.event ans)).
Abbreviation E := (@Ev _ ans).
Abbreviation Document := (Document A).
Implicit Types (h t u : history).

Lemma below_all_calls (P : Services.call A → Prop) {X} (Q : Calls.call A → Prop) (p : Async.prog (Calls.ans (VaultState := VaultState) (DriveSealed := DriveSealed)) X) :
  all_calls Q p → (∀ c, Q c → P (Below c)) → all_calls P (below p).
Proof. intros Hp HQ. eapply all_calls_interp; [exact Hp|]. intros c Hc. split; [by apply HQ|done]. Qed.
Lemma below_runs_below {X} (p : Async.prog (Calls.ans (VaultState := VaultState) (DriveSealed := DriveSealed)) X) t x :
  runs (below p) t (Some x) → ∃ T, t = (λ e, match e with Ev c y => E (Below c) y end) <$> T ∧ runs p T (Some x).
Proof. apply (runs_embed below_call (λ e, match e with Ev c y => E (Below c) y end)). intros c b y. exact (runs_call (ans := ans) (Below c) b y). Qed.

(** ** The services of one session *)
Section Session.
Context (session : Z).
(** The gates passed: the device is open and the session bound to [app]. *)
Definition session_document (h : history) (app : string) : Prop :=
  ∃ s app_id bound, E (Below (Base ReadState)) s ∈ h ∧ Persist.open s = Ok () ∧
    E (Below (SessionApp session)) (Ok app_id) ∈ h ∧ E (Below (SessionDocument session)) bound ∈ h ∧ app = default app_id bound.
Lemma session_document_mono h h' app : session_document h app → session_document (h ++ h') app.
Proof. intros (s & i & b & H1 & H2 & H3 & H4 & H5). exists s, i, b. rewrite !elem_of_app. tauto. Qed.
Inductive service :=
| Items | WatchItems (n : nat) (after : Z) | Edit (e : Todo.edit)
| ReadHistory | WatchHistory (n : nat) (after : Z) | PublishHistory (changes : list bytes).
Definition to_unit {X} (r : result string X) : result string unit := _ ← r; Ok ().
Definition once {X} (p : prog (result string X)) : prog (option (result string unit)) :=
  p ≫= λ r : result string X, Done (ans := ans) (Some (to_unit r)).
Definition parked {X} (p : prog (option (result string X))) : prog (option (result string unit)) :=
  p ≫= λ r : option (result string X), Done (ans := ans) (to_unit <$> r).
Definition run_service (s : service) : prog (option (result string unit)) :=
  match s with
  | Items => once (tasks_items (C := C) session)
  | WatchItems n after => parked (tasks_watch (C := C) n session after)
  | Edit (Todo.Add title) => once (tasks_add (C := C) session title)
  | Edit (Todo.Complete id v) => once (tasks_set_completed (C := C) session id v)
  | Edit (Todo.Retitle id v) => once (tasks_set_title (C := C) session id v)
  | Edit (Todo.Remove id) => once (tasks_remove (C := C) session id)
  | ReadHistory => once (history_read (C := C) session)
  | WatchHistory n after => parked (history_watch (C := C) n session after)
  | PublishHistory changes => once (history_publish session changes)
  end.
(** The calls that touch no document. *)
Definition gate (c : Services.call A) : Prop :=
  match c with
  | Below (Base ReadState) | Below (Base EngineKey) | Below PersistEngine | NextWatch | Unpark _ => True
  | Below (SessionApp s) | Below (SessionDocument s) => s = session
  | _ => False
  end.
Definition service_may (h : history) (c : Services.call A) : Prop :=
  match c with
  | Below (ReadDocument app) | Below (BeginDocument app) | PublishDocument app _ | Revision app | Park _ app | WakeDocuments app => session_document h app
  | Below (WriteDocument app d') => session_document h app ∧ ∃ h0 d, h = h0 ++ [E (Below (BeginDocument app)) (Ok d)]
  | _ => gate c
  end.
Lemma service_gate h c : gate c → service_may h c.
Proof. destruct c; try done. cbn. by repeat case_match. Qed.
Abbreviation G := service_may.
Lemma gate_validate app : all_calls gate (validate_session (A := A) (VaultState := VaultState) (DriveSealed := DriveSealed) session app).
Proof. split; [done|]. intros []; [done|]. by split. Qed.
Lemma app_engines h : wp G (app_engine session) h (λ r h', match r with Ok app => session_document h' app | Err _ => True end).
Proof.
  unfold app_engine, open, Sharing.open. split; [done|]. intros s. cbn -[session_document].
  destruct (Persist.open s) as [[]|e] eqn:Ho; [|done]. split; [done|]. intros [app_id|e]; [|done]. split; [done|]. intros bound.
  split; [done|]. intros [key|]; [|done]. cbn -[session_document].
  exists s, app_id, bound. rewrite !elem_of_app, !list_elem_of_singleton. tauto.
Qed.
Lemma reads {X} app (read : Document → X) h : session_document h app → wp G (document_read app read) h (λ _ h', session_document h' app).
Proof. intros Hs. split; [done|]. intros [d|e]; by apply session_document_mono. Qed.
(** A change of the document, with what was written. *)
Lemma mutates {X} app (change : Registers.op X) h : session_document h app → wp G (document_mutate app change) h
  (λ r h', session_document h' app ∧ ∀ x, r = Ok x → ∃ h0 d d', change d = (d', Ok x) ∧ h' = h0 ++ [E (Below (BeginDocument app)) (Ok d); E (Below (WriteDocument app d')) (Ok tt)]).
Proof.
  intros Hs. split; [done|]. intros [d|e]; [|by split; [apply session_document_mono|]]. 
  assert (change d = ((change d).1, (change d).2)) as Hc by by destruct (change d).
  split; [split; [by apply session_document_mono|by exists h, d]|]. intros [[]|e]; cbn -[session_document].
  - split; [by do 2 apply session_document_mono|]. intros x Hx. exists h, d, (change d).1. split; [by rewrite <- Hx|]. by rewrite <- app_assoc.
  - split; [by do 2 apply session_document_mono|done].
Qed.
(** A change of the session's document, on disk, and its watchers woken. *)
Definition changed_on_disk (change : Registers.op unit) (h : history) : Prop :=
  ∃ h0 app d d', session_document h0 app ∧ change d = (d', Ok ()) ∧
    h = h0 ++ [E (Below (BeginDocument app)) (Ok d); E (Below (WriteDocument app d')) (Ok tt); E (Below PersistEngine) (Ok tt); E (WakeDocuments app) tt].
Definition published_on_disk (changes : list bytes) (h : history) : Prop :=
  ∃ h0 app fresh u, session_document h0 app ∧ Forall (λ x, gate (asked x)) u ∧
    h = h0 ++ [E (PublishDocument app changes) (Ok fresh); E (Below PersistEngine) (Ok tt); E (WakeDocuments app) tt] ++ u.
Definition answered_on_disk (s : service) (r : option (result string unit)) (h : history) : Prop :=
  r = Some (Ok ()) → match s with Edit e => changed_on_disk (Todo.apply_edit (C := C) e) h | PublishHistory changes => published_on_disk changes h | _ => True end.
Lemma changes_on_disk {X} (change : Registers.op X) h : wp G (tasks_change session change) h
  (λ r h', ∀ x, r = Ok x → ∃ h0 app d d', session_document h0 app ∧ change d = (d', Ok x) ∧
    h' = h0 ++ [E (Below (BeginDocument app)) (Ok d); E (Below (WriteDocument app d')) (Ok tt); E (Below PersistEngine) (Ok tt); E (WakeDocuments app) tt]).
Proof.
  unfold tasks_change. apply wp_try. eapply wp_mono; [apply app_engines|]. intros [app|e] t Hs; [|done].
  apply wp_try. eapply wp_mono; [by apply mutates|]. intros [x|e] t2 [Hs2 Hm]; [|done].
  destruct (Hm x eq_refl) as (h0 & d & d' & Hc & Hh). split; [done|]. intros [[]|e]; [|done]. split; [by apply session_document_mono|].
  intros []. cbn [wp]. intros y [= <-]. rewrite Hh in Hs2. rewrite Hh. clear Hh.
  assert (session_document h0 app) as Hs0.
  { destruct Hs2 as (s & i & b & H1 & H2 & H3 & H4 & H5). exists s, i, b.
    rewrite !elem_of_app, !elem_of_cons, elem_of_nil in H1, H3, H4. naive_solver. }
  exists h0, app, d, d'. split_and!; [done..|]. by rewrite <- !app_assoc.
Qed.
Lemma watches {X} n (read : Document → X) f after h : wp G (watch n read f session after) h (λ _ _, True).
Proof.
  unfold watch. apply (wp_bind (ans := ans)). eapply wp_mono; [apply app_engines|]. intros [app|e] t Hs; [|done].
  apply (wp_bind (ans := ans)). eapply wp_mono; [by apply reads|]. intros [first|e] t2 Hs2; [|done].
  destruct (negb _).
  { apply (wp_bind (ans := ans)), (wp_quiet G gate); [apply service_gate|apply gate_validate|done]. }
  apply (wp_bind (ans := ans)). split; [done|]. intros id. apply (wp_bind (ans := ans)).
  assert (∀ g, session_document g app → wp G (wait_polls n id session app after) g (λ _ g', session_document g' app)) as Hw.
  { induction n as [|n IH]; intros g Hg; [done|]. cbn [wait_polls]. apply (wp_bind (ans := ans)), (wp_quiet G gate); [apply service_gate|apply gate_validate|].
    intros t3 [[]|e] _; [|by apply session_document_mono]. split; [by apply session_document_mono|]. intros r. cbn -[session_document wait_polls bool_decide]. destruct (bool_decide _).
    - split; [by do 2 apply session_document_mono|]. intros []. apply IH. by do 3 apply session_document_mono.
    - by do 2 apply session_document_mono. }
  eapply wp_mono; [apply Hw; by apply session_document_mono|]. intros r t3 Hs3.
  assert (∀ g, session_document g app → wp G (match r with
      | None => Done None
      | Some (Err why) => Done (Some (Err why))
      | Some (Ok _) => s ← document_read app read;
          match s with Err why => Done (Some (Err why)) | Ok s => v ← validate_session session app; Done (Some (_ ← v; Ok s)) end
      end) g (λ _ _, True)) as Hend.
  { intros g Hg. destruct r as [[[]|e]|]; [|done..]. apply (wp_bind (ans := ans)). eapply wp_mono; [by apply reads|]. intros [s|e] t4 _; [|done].
    apply (wp_bind (ans := ans)), (wp_quiet G gate); [apply service_gate|apply gate_validate|done]. }
  destruct r as [r|]; [|by apply Hend]. split; [done|]. intros []. apply Hend. by apply session_document_mono.
Qed.
Lemma publishes_on_disk changes h : wp G (history_publish session changes) h (λ r h', r = Ok () → published_on_disk changes h').
Proof.
  unfold history_publish. apply wp_try. eapply wp_mono; [apply app_engines|]. intros [app|e] t Hs; [|done].
  split; [done|]. intros [fresh|e]; [|done]. split; [done|]. intros [[]|e]; [|done]. split; [by do 2 apply session_document_mono|]. intros [].
  apply (wp_quiet G gate); [apply service_gate|apply gate_validate|]. intros u r Hr _.
  exists (h ++ t), app, fresh, u. split_and!; [done|by eapply all_calls_runs; [apply gate_validate|]|]. by rewrite <- !app_assoc.
Qed.
Lemma once_on_disk {X} (p : prog (result string X)) h Q : wp G p h (λ r h', Q (Some (to_unit r)) h') → wp G (once p) h Q.
Proof. intros Hp. by apply (wp_bind (ans := ans)). Qed.
Lemma edits_on_disk {X} (change : Registers.op X) e h : (∀ d d' x, change d = (d', Ok x) → Todo.apply_edit (C := C) e d = (d', Ok ())) →
  wp G (once (tasks_change session change)) h (answered_on_disk (Edit e)).
Proof.
  intros Hc. apply once_on_disk. eapply wp_mono; [apply changes_on_disk|]. intros [x|w] t Hx; [|done]. intros _.
  destruct (Hx x eq_refl) as (h0 & app & d & d' & Hs & Hd & Hh). exists h0, app, d, d'. by split_and!; [|eapply Hc|].
Qed.
Lemma services_on_disk s h : wp G (run_service s) h (answered_on_disk s).
Proof.
  destruct s as [|n after|[title|id v|id v|id]| |n after|changes]; cbn [run_service].
  - apply once_on_disk, wp_try. eapply wp_mono; [apply app_engines|]. intros [app|e] t Hs; [|done]. by eapply wp_mono; [apply reads|].
  - apply (wp_bind (ans := ans)). by eapply wp_mono; [apply watches|].
  - apply edits_on_disk. intros d d' x Hd. cbn. unfold mbind, op_bind. by rewrite Hd.
  - apply edits_on_disk. by intros d d' [] Hd.
  - apply edits_on_disk. by intros d d' [] Hd.
  - apply edits_on_disk. by intros d d' [] Hd.
  - apply once_on_disk, wp_try. eapply wp_mono; [apply app_engines|]. intros [app|e] t Hs; [|done]. apply wp_try.
    eapply wp_mono; [by apply reads|]. intros [x|e] t2 _; [|done]. apply (wp_quietly G gate); [apply service_gate|apply gate_validate|done|done].
  - apply (wp_bind (ans := ans)). by eapply wp_mono; [apply watches|].
  - apply once_on_disk. eapply wp_mono; [apply publishes_on_disk|]. intros [[]|e] t Hp; [|done]. intros _. by apply Hp.
Qed.
(** C26: what an app asks through its session touches no document but the one the
    session is bound to, on a device that is open at every call's start, and only
    with a transaction begun on that document; a change answered with success was
    written, then on disk, and only then its watchers were woken. *)
Theorem services_stay_in_session s t r : runs (run_service s) t r →
  (∀ t1 e t2, t = t1 ++ e :: t2 → service_may t1 (asked e)) ∧ ∀ x, r = Some x → answered_on_disk s x t.
Proof.
  intros Hr. destruct (wp_guards G _ [] _ _ _ (services_on_disk s []) Hr) as [Hg Hq]. split; [exact Hg|]. by intros x ->.
Qed.
End Session.

(** ** Launches *)
Section Launch.
Context {ML : MapLaws A Oid} {CV : CommitView A Oid C}.
Context (registry : Registry) (home_origin : string).
(** The sharing lock is held. *)
Definition held (h : history) : Prop := ∃ h0 u, h = h0 ++ E (Below LockSharing) tt :: u ∧ E (Below UnlockSharing) tt ∉ u.
(** The personal list, as a read under the lock found it. *)
Definition personal_read (found : option string) (h : history) : Prop :=
  ∃ d, personal_partition d TODO_APP = found ∧ E (Below (ReadDocument VISOR_APP)) (Ok d) ∈ h.
(** Bound, and on disk. *)
Definition personal_bound (shared : string) (h : history) : Prop :=
  ∃ d, personal_partition d TODO_APP = Some shared ∧ E (Below (WriteDocument VISOR_APP d)) (Ok tt) ∈ h.
Definition launched_with (app : string) (asked_for : option string) (p : option string) (h : history) : Prop :=
  if bool_decide (app = TODO_APP) && bool_decide (asked_for = None)
  then ∃ list, p = Some list ∧ (personal_read (Some list) h ∨
    personal_bound list h ∧ E CreateSharedDocument (Ok list) ∈ h ∧ E (Below (Base CheckpointDurable)) (Ok tt) ∈ h)
  else p = asked_for.
Definition launch_may (app : string) (asked_for : option string) (h : history) (c : Services.call A) : Prop :=
  match c with
  | CreateSharedDocument => held h ∧ personal_read None h
  | StartSession app' p => held h ∧ app' = app ∧ E (Below (RegistryContains app)) true ∈ h ∧ launched_with app asked_for p h
  | _ => True
  end.
Definition calm (c : Services.call A) : Prop :=
  match c with CreateSharedDocument | StartSession _ _ | Below UnlockSharing => False | _ => True end.
Lemma calm_free app p h c : calm c → launch_may app p h c.
Proof. by destruct c. Qed.
Lemma held_app h t : held h → E (Below UnlockSharing) tt ∉ t → held (h ++ t).
Proof. intros (h0 & u & -> & Hu) Ht. exists h0, (u ++ t). split; [by rewrite <- app_assoc|]. by intros [?|?]%elem_of_app. Qed.
Lemma held_calm h t : held h → Forall (λ e, calm (asked e)) t → held (h ++ t).
Proof. intros Hh Ht. apply held_app; [done|]. rewrite Forall_forall in Ht. by intros Hin%Ht. Qed.
(** Programs that only ask calm questions. *)
Abbreviation cans := (Calls.ans (A := A) (VaultState := VaultState) (DriveSealed := DriveSealed)).
Definition calm_below (c : Calls.call A) : Prop := calm (Below c).
Lemma calm_of_below {X} (p : Async.prog cans X) : all_calls calm_below p → all_calls calm (below p).
Proof. intros Hp. by apply (below_all_calls calm calm_below). Qed.
Lemma calm_open : all_calls calm (open : prog _).
Proof. apply calm_of_below. split; [done|]. by intros s. Qed.
Lemma calm_engine : all_calls calm (engine : prog _).
Proof. apply calm_of_below. split; [done|]. by intros [key|]. Qed.
Lemma calm_engine_call {X} (p : prog (result string X)) : all_calls calm p → all_calls calm (engine_call p).
Proof. intros Hp. by apply all_calls_bind. Qed.
Lemma calm_read {X} app (read : Document → X) : all_calls calm (document_read app read : prog _).
Proof. apply calm_of_below, all_calls_try; [by split|done]. Qed.
Lemma calm_mutate {X} app (change : Registers.op X) : all_calls calm (document_mutate app change : prog _).
Proof. apply calm_of_below, all_calls_try; [by split|]. intros d. apply all_calls_try; [by split|done]. Qed.
Lemma calm_set_shared hue fields : all_calls calm (set_shared_personalization (C := C) hue fields : prog _).
Proof.
  apply all_calls_try; [|intros ?; apply calm_mutate]. apply all_calls_bind; [apply calm_engine|done].
Qed.
Lemma calm_refresh : all_calls calm (refresh_personalization : prog _).
Proof.
  apply all_calls_try; [apply calm_engine|]. intros _. apply all_calls_try; [apply calm_engine_call, calm_read|]. intros shared.
  by destruct (VisorModel.hue shared).
Qed.
Lemma calm_initialize : all_calls calm (initialize_personalization (C := C) : prog _).
Proof.
  apply all_calls_bind; [by split|]. intros s. apply all_calls_try; [done|]. intros d. apply all_calls_try; [apply calm_engine|]. intros _.
  apply all_calls_try; [by apply calm_engine_call; split|]. intros l. do 2 (apply all_calls_try; [apply calm_engine|]; intros ?).
  apply all_calls_try; [apply calm_engine_call, calm_read|]. intros shared. apply all_calls_try; [|intros _; by apply all_calls_try; [apply calm_refresh|]].
  destruct (_ && _); [apply calm_engine_call, calm_set_shared|done].
Qed.
Lemma calm_name app : all_calls calm (name_app (C := C) app : prog _).
Proof.
  apply all_calls_try.
  { apply all_calls_try; [apply calm_open|]. intros _. apply all_calls_bind; [by split|]. intros s. by destruct (Persist.device s). }
  intros fields. destruct (is_blank _); [|done]. apply all_calls_bind; [by split|]. intros petname.
  apply all_calls_try; [apply calm_engine_call, calm_set_shared|]. intros _. apply all_calls_try; [apply calm_refresh|]. by split.
Qed.
Lemma personal_read_mono found h t : personal_read found h → personal_read found (h ++ t).
Proof. intros (d & Hd & Hin). exists d. split; [done|]. apply elem_of_app. by left. Qed.
Lemma launched_mono app asked_for p h t : launched_with app asked_for p h → launched_with app asked_for p (h ++ t).
Proof.
  unfold launched_with. destruct (_ && _); [|done]. intros (l & -> & [Hr|((d & Hd & Hin) & Hs & Hc)]); exists l; (split; [done|]).
  - left. by apply personal_read_mono.
  - right. rewrite !elem_of_app. split_and!; [|by left|by left]. exists d. split; [done|]. apply elem_of_app. by left.
Qed.
(** A calm stretch keeps the lock, and what was seen before it. *)
Lemma wp_calm {X Y} app asked_for (p : prog (result Error X)) (k : X → prog (result Error Y)) h Q : all_calls calm p → (∀ e h', held h' → Q (Err e) h') → held h →
  (∀ t x, held (h ++ t) → runs p t (Some (Ok x)) → wp (launch_may app asked_for) (k x) (h ++ t) Q) → wp (launch_may app asked_for) (try p k) h Q.
Proof.
  intros Hp HE Hh Hk. apply wp_try, (wp_quiet _ calm); [apply calm_free|done|]. intros t r Hr.
  assert (held (h ++ t)) by (apply held_calm; [done|by eapply all_calls_runs]). destruct r as [x|e]; [by apply Hk|by apply HE].
Qed.
(** The list as it is read, and bound. *)
Lemma wp_found app asked_for {Y} (k : option string → prog (result Error Y)) h Q : held h → (∀ e h', held h' → Q (Err e) h') →
  (∀ t x, held (h ++ t) → personal_read x (h ++ t) → wp (launch_may app asked_for) (k x) (h ++ t) Q) → wp (launch_may app asked_for) (try find_personal k) h Q.
Proof.
  intros Hh HE Hk. split; [done|]. intros r. assert (held (h ++ [E (Below (ReadDocument VISOR_APP)) r])) as Hr by (apply held_calm; [done|by constructor]).
  destruct r as [d|e]; [|by apply HE]. apply Hk; [done|]. exists d. split; [done|]. rewrite elem_of_app, list_elem_of_singleton. by right.
Qed.
Lemma wp_bound app asked_for shared {Y} (k : unit → prog (result Error Y)) h Q : held h → (∀ e h', held h' → Q (Err e) h') →
  (∀ t, held (h ++ t) → personal_bound shared (h ++ t) → wp (launch_may app asked_for) (k tt) (h ++ t) Q) →
  wp (launch_may app asked_for) (try (bind_personal (C := C) shared) k) h Q.
Proof.
  intros Hh HE Hk. split; [done|]. intros r. assert (held (h ++ [E (Below (BeginDocument VISOR_APP)) r])) as Hr by (apply held_calm; [done|by constructor]).
  destruct r as [d|e]; [|by apply HE]. split; [done|]. intros r.
  match goal with |- wp _ _ (?h ++ [?e]) _ => assert (held (h ++ [e])) as Hw by (apply held_calm; [done|by constructor]) end.
  destruct r as [[]|e]; [|by apply HE]. cbn -[set_personal_partition].
  destruct (set_personal_partition (C := C) TODO_APP shared d) as [d' r] eqn:Hs. cbn [fst snd] in *.
  destruct r as [[]|e]; [|by apply HE]. rewrite <- app_assoc in Hw |- *. apply Hk; [done|]. exists d'.
  split; [by apply (put_record_spec _ _ _ _ _ Hs)|]. apply elem_of_app. right. by apply list_elem_of_further, list_elem_of_singleton.
Qed.
Lemma wp_partition app asked_for {Y} (k : option string → prog (result Error Y)) h Q : held h → (∀ e h', held h' → Q (Err e) h') →
  (∀ t p, held (h ++ t) → launched_with app asked_for p (h ++ t) → wp (launch_may app asked_for) (k p) (h ++ t) Q) →
  wp (launch_may app asked_for) (try (launch_partition (C := C) app asked_for) k) h Q.
Proof.
  intros Hh HE Hk. apply wp_try. unfold launch_partition, launched_with in *. destruct (_ && _).
  2: { specialize (Hk [] asked_for). rewrite app_nil_r in Hk. by apply Hk. }
  apply wp_calm; [apply calm_engine|done|done|]. intros t key Ht _. apply wp_found; [done|done|]. intros t2 found Ht2 Hf. rewrite <- app_assoc in *.
  destruct found as [existing|]; [apply (Hk _ (Some existing) Ht2); exists existing; auto|].
  split; [done|]. intros r. rewrite <- app_assoc.
  assert (held (h ++ (t ++ t2) ++ [E CreateSharedDocument r])) as Hr by (rewrite app_assoc; apply held_app; [done|by intros ?%list_elem_of_singleton]).
  destruct r as [shared|e]; [|by apply HE]. apply wp_bound; [done|done|]. intros t3 Ht3 Hb.
  split; [done|]. intros r. match goal with |- wp _ _ ?g _ => assert (held g) as Hc by (apply held_calm; [done|by constructor]) end.
  destruct r as [[]|e]; [|by apply HE]. rewrite <- !app_assoc in *. apply (Hk _ (Some shared) Hc). exists shared. split; [done|]. right.
  destruct Hb as (d & Hd & Hin). split_and!; [exists d; split; [done|]|..]; rewrite ?elem_of_app, ?list_elem_of_singleton in *; tauto.
Qed.
(** launching an app starts its session under the sharing lock, for an
    installed app, on the document asked for; a launch of the task list that names
    none is on the personal list, and that list is created only after a read under
    the same lock found none: it is then bound in a document that reads back as
    bound, and on disk, before the session starts. *)
Theorem personal_list_made_once app asked_for t r : runs (launch_bound (C := C) app asked_for) t r →
  (∀ t1 e t2, t = t1 ++ e :: t2 → launch_may app asked_for t1 (asked e)) ∧
  ∀ session, r = Some (Ok session) → ∃ p h, launched_with app asked_for p h ∧ t = h ++ [E (StartSession app p) session; E (Below UnlockSharing) tt].
Proof.
  intros Hr. match goal with |- _ ∧ ∀ s, _ → @?P s => assert (wp (launch_may app asked_for) (launch_bound (C := C) app asked_for) []
    (λ r h, ∀ session, r = Ok session → ∃ p h0, launched_with app asked_for p h0 ∧ h = h0 ++ [E (StartSession app p) session; E (Below UnlockSharing) tt])) as Hw end.
  2: { destruct (wp_guards _ _ [] _ _ _ Hw Hr) as [Hg Hq]. split; [exact Hg|]. intros s ->. by apply Hq. }
  apply (wp_quietly _ calm); [apply calm_free|apply calm_open|done|]. intros t0 [] _. split; [done|].
  intros [|]; [|done]. split; [done|]. intros []. apply (wp_bind (ans := ans)).
  match goal with |- wp _ _ ?g ?R => assert (held g ∧ E (Below (RegistryContains app)) true ∈ g) as [Hh Hin] end.
  { split; [exists (([] ++ t0) ++ [E (Below (RegistryContains app)) true]), []; split; [done|by intros ?%elem_of_nil]|].
    rewrite !elem_of_app, !list_elem_of_singleton. auto. }
  match type of Hh with held ?g => generalize dependent g end. intros g Hh Hin.
  apply (wp_mono _ _ _ (λ r h, ∀ session, r = Ok session → ∃ p h0, launched_with app asked_for p h0 ∧ h = h0 ++ [E (StartSession app p) session])).
  - apply wp_partition; [done|done|]. intros t1 p Ht1 Hp. apply wp_calm; [apply calm_initialize|done|done|]. intros t2 _ Ht2 _.
    apply wp_calm; [apply calm_name|done|done|]. intros t3 _ Ht3 _. split.
    { split_and!; [done|done| |by do 2 apply launched_mono]. rewrite !elem_of_app. tauto. }
    intros s. cbn [wp]. intros ? [= <-]. exists p, (((g ++ t1) ++ t2) ++ t3). split; [by do 2 apply launched_mono|done].
  - intros x t4 Hx. split; [done|]. intros [] s ->. destruct (Hx s eq_refl) as (p & h0 & Hp & Hh0). exists p, h0. split; [done|].
    by rewrite Hh0, <- app_assoc.
Qed.

(** ** Links *)
(** The install link of an app, or a location written under the route key that
    the visor document holds, for an install it lists and an instance of that app. *)
Definition opened_link (fragment : string) (i : AppInfo) (route : string) (instance : option string) (h : history) : Prop :=
  match launch_app fragment with
  | Some app => info registry app = Some i ∧ route = EmptyString ∧ instance = None
  | None => ∃ key install app dk d, E (Below (WriteDocument VISOR_APP dk)) (Ok tt) ∈ h ∧ route_key dk = Some key ∧
      encode_instance key install instance route = Ok fragment ∧
      E (Below (ReadDocument VISOR_APP)) (Ok d) ∈ h ∧ (install, app) ∈ VisorModel.installs d ∧ info registry app = Some i ∧
      ∀ id, instance = Some id → ∃ d' v, E (Below (ReadDocument VISOR_APP)) (Ok d') ∈ h ∧ share_instance d' id = Some v ∧ n_app v = app
  end.
Abbreviation any := (λ (_ : history) (_ : Services.call A), True).
Lemma wp_any {X} (p : prog X) h (Q : X → history → Prop) : (∀ t x, runs p t (Some x) → Q x (h ++ t)) → wp any p h Q.
Proof. intros HQ. apply (wp_quiet any (λ _, True)); [done| |done]. clear HQ. induction p as [x|c k IH]; [done|]. split; [done|exact IH]. Qed.
Lemma wp_anyway {E0 X Y} (p : prog (result E0 X)) (k : X → prog (result E0 Y)) h Q : (∀ e h', Q (Err e) h') →
  (∀ t x, runs p t (Some (Ok x)) → wp any (k x) (h ++ t) Q) → wp any (try p k) h Q.
Proof. intros HE Hk. apply wp_try, wp_any. intros t [x|e] Hr; [by apply Hk|apply HE]. Qed.
Lemma read_ran {X} app (read : Document → X) t x : runs (engine_call (document_read app read : prog _)) t (Some (Ok x)) →
  ∃ d, x = read d ∧ t = [E (Below (ReadDocument app)) (Ok d)].
Proof. intros [[_ Hr]|([d|e] & u & -> & Hu)]; [done|..]; destruct Hu as [-> [= Hx]]. by exists d. Qed.
Lemma app_of_in install l app : app_of install l = Some app → (install, app) ∈ l.
Proof.
  unfold app_of. destruct (filter _ l) as [|[i a] t] eqn:Hf; [done|]. cbn. intros [= ->].
  assert ((i, app) ∈ filter (λ p, p.1 = install) l) as Hin by (rewrite Hf; left). apply list_elem_of_filter in Hin as [<- ?]. done.
Qed.
Lemma instance_kept_for id app h : wp any (below (sharing_instance_partition id app)) h (λ r h', ∀ p, r = Ok p →
  ∃ d v, E (Below (ReadDocument VISOR_APP)) (Ok d) ∈ h' ∧ share_instance d id = Some v ∧ n_app v = app).
Proof.
  split; [done|]. intros [key|]; [|done]. split; [done|]. intros [d|e]; [|done]. cbn -[share_instance bool_decide].
  destruct (share_instance d id) as [v|] eqn:Hv; [|done]. case_bool_decide as Ha; [|done]. intros p _. exists d, v.
  split; [|done]. apply elem_of_app. right. by apply list_elem_of_singleton.
Qed.
Lemma key_written h : wp any (engine_call (visor_route_key (C := C))) h
  (λ r h', ∀ k, r = Ok k → ∃ dk, route_key dk = Some k.1 ∧ E (Below (WriteDocument VISOR_APP dk)) (Ok tt) ∈ h').
Proof.
  apply (wp_bind (ans := ans)), (wp_anyway (engine_message : prog _)); [done|]. intros t _ _. split; [done|]. intros s. split; [done|]. intros entropy.
  split; [done|]. intros [d|e]; [|done]. cbn -[route_key_or_create].
  destruct (route_key_stays (C := C) (seed s) entropy d) as (d' & key & fresh & Hr & Hk & _). rewrite Hr. split; [done|].
  intros [[]|e]; [|done]. intros k [= <-]. exists d'. split; [done|]. apply elem_of_app. right. by apply list_elem_of_singleton.
Qed.
(** a link opens to what it was written for: an install link names an
    installed app, and any other fragment is the one spelling of a location under
    the route key that the visor document holds, for an install the document lists
    and, where it names an instance, one kept for that app. *)
Theorem links_open_as_written fragment t i route instance : runs (route_decode (C := C) registry fragment) t (Some (Ok (i, route, instance))) →
  opened_link fragment i route instance t.
Proof.
  intros Hr. assert (wp any (route_decode (C := C) registry fragment) [] (λ r h, ∀ i route instance, r = Ok (i, route, instance) → opened_link fragment i route instance h)) as Hw.
  2: { by apply (proj2 (wp_guards _ _ [] _ _ _ Hw Hr)). }
  clear t i route instance Hr. unfold route_decode, opened_link. apply (wp_anyway (open : prog _)); [done|]. intros t0 _ _. destruct (launch_app fragment) as [app|].
  { apply wp_result; [done|]. intros i Hi%ok_or_Ok. apply wp_anyway; [done|]. intros t1 x _. apply wp_anyway; [done|]. intros t2 _ _ i' r' o' [= <- <- <-]. done. }
  apply (wp_anyway (engine : prog _)); [done|]. intros t1 _ _. apply wp_try. eapply wp_mono; [apply key_written|]. intros [key|e] t2 Hk; [|done].
  destruct (Hk key eq_refl) as (dk & Hdk & Hin). clear Hk. apply wp_anyway; [done|]. intros t3 _ _. apply wp_result; [done|]. intros [[install instance] route] Hf.
  apply wp_anyway; [done|]. intros t4 l (d & -> & ->)%read_ran. apply wp_result; [done|]. intros app Happ%ok_or_Ok%app_of_in.
  apply wp_result; [done|]. intros i Hi%ok_or_Ok.
  assert (encode_instance key.1 install instance route = Ok fragment) as He.
  { destruct (decode_instance key.1 fragment) as [x|e] eqn:Hd; [|done]. injection Hf as ->. by apply decoded_was_encoded in Hd as (_ & _ & _ & _ & ?). }
  match goal with |- wp _ _ ?g _ => assert (E (Below (WriteDocument VISOR_APP dk)) (Ok tt) ∈ g ∧ E (Below (ReadDocument VISOR_APP)) (Ok d) ∈ g) as [Hw Hd] end.
  { rewrite !elem_of_app, !list_elem_of_singleton. rewrite !elem_of_app in Hin. tauto. }
  match type of Hw with _ ∈ ?g => generalize dependent g end. intros g Hw Hd. apply wp_try.
  destruct instance as [id|].
  - apply wp_try. eapply wp_mono; [apply instance_kept_for|]. intros [p|e] t5 Hp; [|done]. destruct (Hp p eq_refl) as (d' & v & Hd' & Hv & Ha).
    intros i' r' o' [= <- <- <-]. exists key.1, install, app, dk, d. rewrite !elem_of_app. split_and!; [by left|done..|by left|done|done|].
    intros id' [= <-]. by exists d', v.
  - intros i' r' o' [= <- <- <-]. by exists key.1, install, app, dk, d.
Qed.
End Launch.
End Facts.

Module Concrete.
Import Crypto.Toy ToySigned SharingFacts.Concrete.
#[local] Existing Instances History.Toy.automerge History.Toy.laws History.Toy.graph toy_commit
  wire_prompt wire_outgoing wire_inbox wire_instance wire_json.
Abbreviation sans := (Services.ans (A := History.Toy.adoc) (VaultState := unit) (DriveSealed := unit)).
(** A kernel whose only app is the task list, with one session, [7]. *)
Record world := mkWorld { visor : doc; tasks : doc }.
Definition doc_of (w : world) (app : string) : doc := if bool_decide (app = VISOR_APP) then visor w else tasks w.
Definition answers (w : world) (c : Services.call History.Toy.adoc) : option (sans c * world) :=
  match c as c return option (sans c * world) with
  | Below c => match c as c return option (sans (Below c) * world) with
      | Base ReadState => Some (Custody.Concrete.device_with None, w)
      | Base EngineKey => Some (Some [byte_of 9], w)
      | Base CheckpointDurable | PersistEngine => Some (Ok tt, w)
      | SessionApp s => Some (if bool_decide (s = 7) then Ok TODO_APP else Err (Error_new UnknownSession "unknown session"), w)
      | SessionDocument _ => Some (Some "list"%string, w)
      | RegistryContains app => Some (bool_decide (app = TODO_APP), w)
      | LockSharing | UnlockSharing => Some (tt, w)
      | ReadDocument app | BeginDocument app => Some (Ok (doc_of w app), w)
      | WriteDocument app d => Some (Ok tt, if bool_decide (app = VISOR_APP) then mkWorld d (tasks w) else mkWorld (visor w) d)
      | _ => None
      end
  | ModelEntropy => Some ([byte_of 3], w)
  | CreateSharedDocument => Some (Ok "list"%string, w)
  | StartSession _ _ => Some (7, w)
  | GeneratePetnameAfter _ => Some ("happy-otter"%string, w)
  | Members => Some (Ok [], w)
  | SetDeviceShared _ _ _ | WakeDocuments _ => Some (tt, w)
  | _ => None
  end.
Definition blank : doc := History.empty (C := nat * nat) [byte_of 1] [].
Definition w0 : world := mkWorld blank blank.
Definition registry0 : Registry := {[ TODO_APP := mkManifest TODO_APP "Tasks" "c.wasm" "c.json" [] ]}.
Definition adding := run_with answers w0 (run_service (C := nat * nat) 7 (Edit (Todo.Add "milk"))).
Lemma adds : adding.2 = Some (Some (Ok tt)).
Proof. vm_compute. reflexivity. Qed.
Definition launching := run_with answers w0 (launch_bound (C := nat * nat) TODO_APP None).
Lemma launches : launching.2 = Some (Ok 7).
Proof. vm_compute. reflexivity. Qed.
Definition linking := run_with answers w0 (route_encode (C := nat * nat) 7 "#/active").
Definition link0 : string := Eval vm_compute in match linking.2 with Some (Ok f) => f | _ => EmptyString end.
Fixpoint visor_written (t : list (Async.event sans)) (d : doc) : doc :=
  match t with
  | [] => d
  | Ev c _ :: t => visor_written t (match c with Below (WriteDocument app d') => if bool_decide (app = VISOR_APP) then d' else d | _ => d end)
  end.
Definition opening := run_with answers (mkWorld (visor_written linking.1 blank) blank) (route_decode (C := nat * nat) registry0 link0).
Lemma opens : opening.2 = Some (Ok (mkAppInfo TODO_APP "Tasks", "#/active"%string, None)).
Proof. vm_compute. reflexivity. Qed.
Lemma services_stay_in_session_witness : ∃ h, changed_on_disk (VaultState := unit) (DriveSealed := unit) 7 (Todo.apply_edit (C := nat * nat) (Todo.Add "milk")) h.
Proof.
  assert (runs (run_service (C := nat * nat) 7 (Edit (Todo.Add "milk"))) adding.1 adding.2) as Hr by exact (run_with_runs answers w0 _).
  revert Hr. rewrite adds. intros Hr. exists adding.1.
  exact (proj2 (services_stay_in_session (C := nat * nat) 7 (Edit (Todo.Add "milk")) adding.1 _ Hr) _ eq_refl eq_refl).
Defined.
Lemma personal_list_made_once_witness : ∃ p h, launched_with (A := History.Toy.adoc) (VaultState := unit) (DriveSealed := unit) TODO_APP None p h ∧
  launching.1 = h ++ [Ev (ans := sans) (StartSession TODO_APP p) 7; Ev (ans := sans) (Below UnlockSharing) tt].
Proof.
  assert (runs (launch_bound (C := nat * nat) TODO_APP None) launching.1 launching.2) as Hr by exact (run_with_runs answers w0 _).
  revert Hr. rewrite launches. intros Hr.
  exact (proj2 (personal_list_made_once (C := nat * nat) TODO_APP None launching.1 _ Hr) 7 eq_refl).
Defined.
Lemma links_open_as_written_witness : opened_link (VaultState := unit) (DriveSealed := unit) (A := History.Toy.adoc) registry0 link0 (mkAppInfo TODO_APP "Tasks") "#/active" None opening.1.
Proof.
  assert (runs (route_decode (C := nat * nat) registry0 link0) opening.1 opening.2) as Hr by exact (run_with_runs answers _ _).
  revert Hr. rewrite opens. intros Hr.
  exact (links_open_as_written (C := nat * nat) registry0 link0 opening.1 _ _ None Hr).
Defined.
End Concrete.
