(* ===== verification/Watch.v ===== *)
(** * The waiters of a document ([runtime/crates/kernel/src/lib.rs])

    A watch parks on one document until its session ends or the document is at
    another revision. The kernel's cells, and one task per watch; every order of
    polls and endings, and of the paths by which a document comes to another
    revision, each with the wake the code ends it in, or with none. *)
From S2P Require Import Prelude.

(** A watch: the session it was asked through, the document that session was
    bound to, the revision the caller has seen, and how its task stands. *)
Inductive status := Ready | Parked | Finished (r : result string unit).
Record task := mkTask { t_session : Z; t_app : string; t_after : Z; t_status : status }.
Definition with_status (x : status) (t : task) : task := mkTask (t_session t) (t_app t) (t_after t) x.
(** What has changed a document and has not ended yet: an app's edit before its
    checkpoint, an engine event before the checkpoint it is answered with, and a
    pass over the store, with the documents it has changed so far. *)
Inductive work := Editing (app : string) | Reporting | Importing (apps : gset string).
(** [document_waiters] holds a waker beside the document; it is the waker of the
    task that polls the watch of that id. [unwoken]: the documents whose watchers
    some path left asleep, until they are next woken; it decides nothing. *)
Record sys := mkSys {
  sessions : gmap Z string;
  session_documents : gmap Z string;
  next_session : Z;
  document_waiters : gmap Z string;
  next_watch : Z;
  revisions : gmap string Z;
  tasks : gmap Z task;
  works : gmap Z work;
  unwoken : gset string;
}.
Definition init : sys := mkSys ∅ ∅ 1 ∅ 0 ∅ ∅ ∅ ∅.
Definition with_tasks (ts : gmap Z task) (s : sys) : sys :=
  mkSys (sessions s) (session_documents s) (next_session s) (document_waiters s) (next_watch s) (revisions s) ts (works s) (unwoken s).
Definition with_waiters (w : gmap Z string) (s : sys) : sys :=
  mkSys (sessions s) (session_documents s) (next_session s) w (next_watch s) (revisions s) (tasks s) (works s) (unwoken s).
Definition with_works (ws : gmap Z work) (s : sys) : sys :=
  mkSys (sessions s) (session_documents s) (next_session s) (document_waiters s) (next_watch s) (revisions s) (tasks s) ws (unwoken s).
Definition with_unwoken (u : gset string) (s : sys) : sys :=
  mkSys (sessions s) (session_documents s) (next_session s) (document_waiters s) (next_watch s) (revisions s) (tasks s) (works s) u.
Definition with_documents (m : gmap Z string) (s : sys) : sys :=
  mkSys (sessions s) m (next_session s) (document_waiters s) (next_watch s) (revisions s) (tasks s) (works s) (unwoken s).
(** A document at another revision, or dropped. *)
Definition revise (app : string) (rev : option Z) (s : sys) : sys :=
  mkSys (sessions s) (session_documents s) (next_session s) (document_waiters s) (next_watch s) (partial_alter (λ _, rev) app (revisions s))
    (tasks s) (works s) (unwoken s).

(** ** The kernel's own operations *)
Definition session_document (s : sys) (session : Z) : option string :=
  match session_documents s !! session with Some p => Some p | None => sessions s !! session end.
Definition validate_session (s : sys) (session : Z) (app : string) : bool := bool_decide (session_document s session = Some app).
Definition wake_documents (app : string) (s : sys) : sys :=
  mkSys (sessions s) (session_documents s) (next_session s) (filter (λ p, p.2 ≠ app) (document_waiters s)) (next_watch s) (revisions s)
    (map_imap (λ id t, Some (if bool_decide (document_waiters s !! id = Some app) then with_status Ready t else t)) (tasks s))
    (works s) (unwoken s ∖ {[app]}).
(** What one poll of [wait_document_change] answers; [None]: it parks. *)
Definition poll (s : sys) (t : task) : option (result string unit) :=
  if negb (validate_session s (t_session t) (t_app t)) then Some (Err "unknown session"%string) else
  if negb (bool_decide (revisions s !! t_app t = Some (t_after t))) then Some (Ok ()) else None.
Definition poll_task (id : Z) (t : task) (s : sys) : sys :=
  match poll s t with
  | Some r => with_tasks (<[id:=with_status (Finished r) t]> (tasks s)) (with_waiters (delete id (document_waiters s)) s)
  | None => with_tasks (<[id:=with_status Parked t]> (tasks s)) (with_waiters (<[id:=t_app t]> (document_waiters s)) s)
  end.
Definition launch (app : string) (partition : option string) (s : sys) : sys :=
  mkSys (<[next_session s:=app]> (sessions s))
    (match partition with Some p => <[next_session s:=p]> (session_documents s) | None => session_documents s end)
    (next_session s + 1) (document_waiters s) (next_watch s) (revisions s) (tasks s) (works s) (unwoken s).
(** The document of a service call through a session. *)
Definition app_engine (s : sys) (session : Z) : option string :=
  app_id ← sessions s !! session; Some (default app_id (session_documents s !! session)).
(** The gate of a watch, and the id it takes. *)
Definition begin (session after : Z) (s : sys) : option sys :=
  app ← app_engine s session;
  Some (mkSys (sessions s) (session_documents s) (next_session s) (document_waiters s) (wrap 64 (next_watch s + 1)) (revisions s)
    (<[next_watch s:=mkTask session app after Ready]> (tasks s)) (works s) (unwoken s)).
(** The task is dropped, and the guard with it. *)
Definition dropped (id : Z) (s : sys) : sys := with_tasks (delete id (tasks s)) (with_waiters (delete id (document_waiters s)) s).
Definition forget (session : Z) (s : sys) : sys :=
  mkSys (delete session (sessions s)) (delete session (session_documents s)) (next_session s) (document_waiters s) (next_watch s) (revisions s)
    (tasks s) (works s) (unwoken s).
Definition close (session : Z) (s : sys) : sys :=
  match sessions s !! session with
  | Some app => wake_documents (default app (session_documents s !! session)) (forget session s)
  | None => forget session s
  end.
Definition abort (session : Z) (s : sys) : sys := match sessions s !! session with Some _ => close session s | None => s end.
Fixpoint wake_each (l : list string) (s : sys) : sys := match l with [] => s | app :: l => wake_each l (wake_documents app s) end.
(** The documents of the live sessions, and their app ids. *)
Definition session_targets (s : sys) : list string := (λ p, default p.2 (session_documents s !! p.1)) <$> map_to_list (sessions s).
Definition session_apps (s : sys) : list string := (map_to_list (sessions s)).*2.

(** ** How a document comes to another revision *)
(** A service call through a session: [tasks_add] and its like, [history_publish].
    The edit is in the document; then its checkpoint, and the wake. *)
Definition authored (w session rev : Z) (s : sys) : option sys :=
  app ← app_engine s session; Some (with_works (<[w:=Editing app]> (works s)) (revise app (Some rev) s)).
Definition landed (w : Z) (app : string) (s : sys) : sys := wake_documents app (with_works (delete w (works s)) s).
(** The checkpoint failed, the edit reported an error after it had changed the
    document, or the caller went away: the question mark returns before the wake. *)
Definition not_landed (w : Z) (app : string) (s : sys) : sys := with_unwoken ({[app]} ∪ unwoken s) (with_works (delete w (works s)) s).
(** An engine event: what a peer sent is absorbed, then reported; the kernel
    checkpoints, whatever that answers, and wakes the documents of its sessions. *)
Definition absorbed (w : Z) (app : string) (rev : option Z) (s : sys) : sys := with_works (<[w:=Reporting]> (works s)) (revise app rev s).
Definition reported (w : Z) (s : sys) : sys := let s := with_works (delete w (works s)) s in wake_each (session_targets s) s.
(** A pass over the store: imports do not go through the events, and [sync_once]
    wakes the app ids of the sessions, once the whole pass went through. *)
Definition imported (w : Z) (apps : gset string) (app : string) (rev : option Z) (s : sys) : sys :=
  with_works (<[w:=Importing ({[app]} ∪ apps)]> (works s)) (revise app rev s).
Definition import_done (w : Z) (apps : gset string) (s : sys) : sys :=
  let s := with_unwoken (apps ∪ unwoken s) (with_works (delete w (works s)) s) in wake_each (session_apps s) s.
Definition import_failed (w : Z) (apps : gset string) (s : sys) : sys := with_unwoken (apps ∪ unwoken s) (with_works (delete w (works s)) s).
(** What is absorbed without a report: at the end of the exchange of a document's
    authority or of Keyhive, and in adopting a grant. *)
Definition unreported (app : string) (rev : option Z) (s : sys) : sys := with_unwoken ({[app]} ∪ unwoken s) (revise app rev s).
(** Adopting an identity binds the sessions of the task list to its own list. *)
Definition TODO : string := "todomvc".
Definition todo_sessions (s : sys) : gmap Z string := filter (λ p, p.2 = TODO) (sessions s).
Definition rebound (personal : string) (s : sys) : sys :=
  let left := filter (λ a, a ≠ personal) ((λ p, default p.2 (session_documents s !! p.1)) <$> map_to_list (todo_sessions s)) in
  with_unwoken (list_to_set left ∪ unwoken s)
    (with_documents (((λ _, personal) <$> todo_sessions s) ∪ session_documents s) s).
(** What [erase] does to sessions and watches. *)
Definition erase (s : sys) : sys :=
  wake_each (session_apps s)
    (mkSys ∅ (session_documents s) (next_session s) (document_waiters s) (next_watch s) (revisions s) (tasks s) (works s) (unwoken s)).

(** ** Every order of these *)
Definition done_with (s : sys) (id : Z) : Prop := ∀ t, tasks s !! id = Some t → ∃ r, t_status t = Finished r.
Inductive step : sys → sys → Prop :=
| Launched app partition s : next_session s + 1 < 2 ^ 32 → step s (launch app partition s)
| Begun session after s s' : done_with s (next_watch s) → begin session after s = Some s' → step s s'
| Polled id t s : tasks s !! id = Some t → t_status t = Ready → step s (poll_task id t s)
| Dropped id s : step s (dropped id s)
| Closed session s : step s (close session s)
| Aborted session s : step s (abort session s)
| Authored w session rev s s' : works s !! w = None → authored w session rev s = Some s' → step s s'
| Landed w app s : works s !! w = Some (Editing app) → step s (landed w app s)
| NotLanded w app s : works s !! w = Some (Editing app) → step s (not_landed w app s)
| Absorbed w app rev s : works s !! w = None ∨ works s !! w = Some Reporting → step s (absorbed w app rev s)
| Reported w s : works s !! w = Some Reporting → step s (reported w s)
| Imported w apps app rev s : works s !! w = None ∧ apps = ∅ ∨ works s !! w = Some (Importing apps) → step s (imported w apps app rev s)
| ImportDone w apps s : works s !! w = Some (Importing apps) → step s (import_done w apps s)
| ImportFailed w apps s : works s !! w = Some (Importing apps) → step s (import_failed w apps s)
| Unreported app rev s : step s (unreported app rev s)
| Rebound personal s : step s (rebound personal s).
Inductive reachable : sys → Prop :=
| Start : reachable init
| Next s s' : reachable s → step s s' → reachable s'.

(** ** The invariant *)
(** The session of a watch lives and is bound to the document it waits on. *)
Definition bound (s : sys) (t : task) : Prop := app_engine s (t_session t) = Some (t_app t).
(** The work whose end is to wake the watchers of [app]. *)
Definition wakes (app : string) (x : work) : Prop := match x with Editing a => a = app | Reporting => True | Importing apps => app ∈ apps end.
Definition under_way (s : sys) (app : string) : Prop := ∃ w x, works s !! w = Some x ∧ wakes app x.
Definition asleep (s : sys) (app : string) : Prop := app ∈ unwoken s.
(** Sessions, documents and watches fit together; a parked watch has its waker in
    its document's waiters; and but for the lost documents its session is live and
    bound to its document, and it has seen that document or a wake is due. *)
Record watch_ok (lost due : string → Prop) (s : sys) : Prop := {
  wo_sessions k : is_Some (sessions s !! k) → k < next_session s;
  wo_documents k : is_Some (session_documents s !! k) → is_Some (sessions s !! k);
  wo_waiters id app : document_waiters s !! id = Some app → ∃ t, tasks s !! id = Some t ∧ t_status t = Parked ∧ t_app t = app;
  wo_parked id t : tasks s !! id = Some t → t_status t = Parked → document_waiters s !! id = Some (t_app t) ∧
    (lost (t_app t) ∨ bound s t ∧ (revisions s !! t_app t = Some (t_after t) ∨ due (t_app t)));
}.
Abbreviation ok s := (watch_ok (asleep s) (under_way s) s).
Lemma app_engine_Some s k app : app_engine s k = Some app ↔ ∃ a, sessions s !! k = Some a ∧ app = default a (session_documents s !! k).
Proof. unfold app_engine. destruct (sessions s !! k); cbn; naive_solver. Qed.
Lemma bound_document s t : bound s t → session_document s (t_session t) = Some (t_app t).
Proof. unfold bound, session_document. intros (a & Ha & ->)%app_engine_Some. destruct (session_documents s !! _); [done|exact Ha]. Qed.
Lemma poll_None s t : poll s t = None ↔ session_document s (t_session t) = Some (t_app t) ∧ revisions s !! t_app t = Some (t_after t).
Proof.
  unfold poll, validate_session. destruct (bool_decide (_ = Some (t_app t))) eqn:E1; cbn [negb].
  - apply bool_decide_eq_true in E1. case_bool_decide; cbn; naive_solver.
  - apply bool_decide_eq_false in E1. split; [done|]. by intros [? _].
Qed.
Lemma woken_task s app id t : tasks (wake_documents app s) !! id = Some t ↔
  ∃ t0, tasks s !! id = Some t0 ∧ t = if bool_decide (document_waiters s !! id = Some app) then with_status Ready t0 else t0.
Proof.
  cbn. rewrite map_lookup_imap. destruct (tasks s !! id) as [t0|]; cbn.
  - split; [intros [= <-]; by exists t0|by intros (? & [= <-] & ->)].
  - split; [done|by intros (? & ? & _)].
Qed.
Lemma woken_waiter s app id a : document_waiters (wake_documents app s) !! id = Some a ↔ document_waiters s !! id = Some a ∧ a ≠ app.
Proof. cbn. by rewrite map_lookup_filter_Some. Qed.
(** After a wake nothing is lost or due on its document. *)
Lemma wake_ok (lost due : string → Prop) app s : watch_ok lost due s → watch_ok (λ a, lost a ∧ a ≠ app) (λ a, due a ∧ a ≠ app) (wake_documents app s).
Proof.
  intros [Hs Hd Hw Hp]. split; [done|done|..].
  - intros id a [Hi Hne]%woken_waiter. destruct (Hw id a Hi) as (t & Hti & Hst & Ha). exists t. split; [|done]. apply woken_task.
    exists t. split; [done|]. rewrite bool_decide_false; [done|]. rewrite Hi. naive_solver.
  - intros id t (t0 & Hi & ->)%woken_task. case_bool_decide as Hb; [done|]. intros Hst. destruct (Hp id t0 Hi Hst) as [Hwi Hor].
    assert (t_app t0 ≠ app) as Hne by (intros E; by rewrite Hwi, E in Hb). split; [by apply woken_waiter|]. cbn. destruct Hor as [?|[? [?|?]]]; auto.
Qed.
Lemma watch_mono (lost due lost' due' : string → Prop) s : (∀ a, lost a → lost' a) → (∀ a, due a → lost' a ∨ due' a) → watch_ok lost due s → watch_ok lost' due' s.
Proof.
  intros Hl Hd [H1 H2 H3 H4]. split; [done..|]. intros id t Hi Hs. destruct (H4 id t Hi Hs) as [? [?|[? [?|Hdue]]]]; (split; [done|]); auto.
  destruct (Hd _ Hdue); auto.
Qed.
Lemma wakes_ok (lost due : string → Prop) l s : watch_ok lost due s → watch_ok (λ a, lost a ∧ a ∉ l) (λ a, due a ∧ a ∉ l) (wake_each l s).
Proof.
  revert lost due s. induction l as [|app l IH]; intros lost due s Hok; cbn [wake_each].
  - eapply watch_mono; [| |exact Hok]; intros a Ha; [|right]; (split; [done|apply not_elem_of_nil]).
  - eapply watch_mono; [| |apply IH, wake_ok, Hok]; intros a [[Ha Hne] Hnot]; [|right]; (split; [done|]); by apply not_elem_of_cons.
Qed.
Lemma each_cells l s : sessions (wake_each l s) = sessions s ∧ session_documents (wake_each l s) = session_documents s ∧ works (wake_each l s) = works s.
Proof. revert s. induction l as [|app l IH]; intros s; [done|]. apply (IH (wake_documents app s)). Qed.
Lemma each_asleep l s a : asleep s a → a ∉ l → asleep (wake_each l s) a.
Proof.
  revert s. induction l as [|app l IH]; intros s Ha; [done|]. intros [Hne Hn]%not_elem_of_cons. apply IH; [|done]. unfold asleep. cbn. set_solver.
Qed.
Lemma each_under_way l s a : under_way s a → under_way (wake_each l s) a.
Proof. unfold under_way. by rewrite (proj2 (proj2 (each_cells l s))). Qed.
Lemma revise_ok (lost due : string → Prop) app rev s : watch_ok lost due s → watch_ok lost (λ a, due a ∨ a = app) (revise app rev s).
Proof.
  intros [Hs Hd Hw Hp]. split; [done..|]. intros id t Hi Hst. destruct (Hp id t Hi Hst) as [Hwi [?|[Hb Hor]]]; (split; [done|]); [by left|].
  right. split; [exact Hb|]. cbn. destruct (decide (t_app t = app)) as [|Hne]; [auto|]. rewrite lookup_partial_alter_ne by done. tauto.
Qed.
(** Work that ends leaves what it was to wake; work that begins adds to it. *)
Lemma under_way_delete w x s a : works s !! w = Some x → under_way s a → wakes a x ∨ under_way (with_works (delete w (works s)) s) a.
Proof.
  intros Hx (v & y & Hy & Ha). destruct (decide (v = w)) as [->|Hne]; [left; by simplify_eq|]. right. exists v, y. cbn. by rewrite lookup_delete_ne.
Qed.
Lemma under_way_insert w x s s' a : works s' = <[w:=x]> (works s) → (∀ y, works s !! w = Some y → wakes a y → wakes a x) → under_way s a → under_way s' a.
Proof.
  intros Hs' Hx (v & y & Hy & Ha). unfold under_way. rewrite Hs'. destruct (decide (v = w)) as [->|Hne].
  - exists w, x. rewrite lookup_insert_eq. split; [done|]. by eapply Hx.
  - exists v, y. by rewrite lookup_insert_ne.
Qed.
Lemma under_way_new w x s' ws a : works s' = <[w:=x]> ws → wakes a x → under_way s' a.
Proof. intros Hs' Ha. exists w, x. by rewrite Hs', lookup_insert_eq. Qed.

(** ** Every step keeps it *)
Lemma launch_ok app partition s : ok s → ok (launch app partition s).
Proof.
  intros [Hs Hd Hw Hp].
  assert (∀ k a, app_engine s k = Some a → app_engine (launch app partition s) k = Some a) as Hsame.
  { intros k a (b & Hb & ->)%app_engine_Some. assert (k < next_session s) by (apply Hs; by rewrite Hb). apply app_engine_Some. exists b. cbn.
    rewrite lookup_insert_ne by lia. split; [done|]. destruct partition; [by rewrite lookup_insert_ne by lia|done]. }
  split; [..|exact Hw|].
  - intros k. cbn. destruct (decide (k = next_session s)) as [->|Hne]; [lia|]. rewrite lookup_insert_ne by done. intros ?%Hs. lia.
  - intros k. cbn. destruct (decide (k = next_session s)) as [->|Hne]; [by rewrite lookup_insert_eq|]. rewrite lookup_insert_ne by done.
    destruct partition; [rewrite lookup_insert_ne by done|]; apply Hd.
  - intros id t Hi Hst. destruct (Hp id t Hi Hst) as [? [?|[Hb Hor]]]; (split; [done|]); [by left|right]. split; [by apply Hsame|exact Hor].
Qed.
Lemma begin_ok session after s s' : ok s → done_with s (next_watch s) → begin session after s = Some s' → ok s'.
Proof.
  intros [Hs Hd Hw Hp] Hdone. unfold begin. destruct (app_engine s session) as [app|] eqn:Ha; [|done]. intros [= <-].
  assert (document_waiters s !! next_watch s = None) as Hnone.
  { destruct (document_waiters s !! next_watch s) as [a|] eqn:E; [|done]. destruct (Hw _ _ E) as (t & Hi & Hst & _).
    destruct (Hdone t Hi) as [r Hr]. congruence. }
  split; [done|done|..]; cbn.
  - intros id a Hi. destruct (decide (id = next_watch s)) as [->|Hne]; [by rewrite Hnone in Hi|].
    destruct (Hw id a Hi) as (t & ? & ?). exists t. by rewrite lookup_insert_ne.
  - intros id t [[<- <-]|[Hne Hi]]%lookup_insert_Some; [done|]. by apply Hp.
Qed.
Lemma poll_ok id t s : ok s → tasks s !! id = Some t → t_status t = Ready → ok (poll_task id t s).
Proof.
  intros [Hs Hd Hw Hp] Hi Hready. assert (document_waiters s !! id = None) as Hnone.
  { destruct (document_waiters s !! id) as [app|] eqn:E; [|done]. destruct (Hw _ _ E) as (t' & Hi' & Hst & _). congruence. }
  unfold poll_task. destruct (poll s t) as [r|] eqn:Hpoll; (split; [done|done|..]; cbn).
  - intros j app [Hne Hj]%lookup_delete_Some. destruct (Hw j app Hj) as (u & ? & ?). exists u. by rewrite lookup_insert_ne.
  - intros j u [[<- <-]|[Hne Hj]]%lookup_insert_Some; [done|]. intros Hst. destruct (Hp j u Hj Hst) as [? ?]. split; [by rewrite lookup_delete_ne|done].
  - intros j app [[<- <-]|[Hne Hj]]%lookup_insert_Some; [exists (with_status Parked t); by rewrite lookup_insert_eq|].
    destruct (Hw j app Hj) as (u & ? & ?). exists u. by rewrite lookup_insert_ne.
  - intros j u [[<- <-]|[Hne Hj]]%lookup_insert_Some.
    + intros _. rewrite lookup_insert_eq. split; [done|]. right. apply poll_None in Hpoll as [Hdoc Hrev]. split; [|by left].
      unfold bound, app_engine, session_document in *. cbn. destruct (session_documents s !! t_session t) as [p|] eqn:Hsd.
      * destruct (Hd (t_session t)) as [a ->]; [by rewrite Hsd|]. exact Hdoc.
      * by rewrite Hdoc.
    + intros Hst. destruct (Hp j u Hj Hst) as [? ?]. by rewrite lookup_insert_ne.
Qed.
Lemma dropped_ok id s : ok s → ok (dropped id s).
Proof.
  intros [Hs Hd Hw Hp]. split; [done|done|..]; cbn.
  - intros j app [Hne Hj]%lookup_delete_Some. destruct (Hw j app Hj) as (u & ? & ?). exists u. by rewrite lookup_delete_ne.
  - intros j u [Hne Hj]%lookup_delete_Some Hst. rewrite lookup_delete_ne by done. by apply Hp.
Qed.
(** A session that ends leaves its own watches. *)
Lemma forget_ok session app s : ok s → app_engine s session = Some app →
  watch_ok (λ a, asleep s a ∨ a = app) (under_way s) (forget session s).
Proof.
  intros [Hs Hd Hw Hp] Ha. split; [..|exact Hw|]; cbn.
  - intros k [x [_ Hx]%lookup_delete_Some]. by apply Hs; rewrite Hx.
  - intros k [x [Hne Hx]%lookup_delete_Some]. rewrite lookup_delete_ne by done. apply Hd. by rewrite Hx.
  - intros id t Hi Hst. destruct (Hp id t Hi Hst) as [Hwi [?|[Hb Hor]]]; (split; [done|]); [by left; left|]. unfold bound in Hb.
    destruct (decide (t_session t = session)) as [<-|Hne]; [left; right; congruence|]. right. split; [|exact Hor].
    unfold bound, app_engine in *. cbn. by rewrite !lookup_delete_ne by done.
Qed.
Lemma close_ok session s : ok s → ok (close session s).
Proof.
  intros Hok. unfold close. destruct (sessions s !! session) as [app|] eqn:Ha.
  - eapply watch_mono; [| |apply wake_ok, (forget_ok _ (default app (session_documents s !! session)) _ Hok)].
    + intros a [[?|?] Hne]; [|done]. unfold asleep in *. cbn. set_solver.
    + intros a [? _]. by right.
    + apply app_engine_Some. by exists app.
  - assert (session_documents s !! session = None) as Hn.
    { destruct (session_documents s !! session) eqn:E; [|done]. destruct (wo_documents _ _ _ Hok session (mk_is_Some _ _ E)) as [? ?]. congruence. }
    unfold forget. rewrite !delete_id by done. destruct s. exact Hok.
Qed.
Lemma authored_ok w session rev s s' : ok s → works s !! w = None → authored w session rev s = Some s' → ok s'.
Proof.
  intros Hok Hw. unfold authored. destruct (app_engine s session) as [app|]; [|done]. cbn. intros [= <-].
  apply (watch_mono (asleep s) (λ a, under_way s a ∨ a = app)); [done| |by destruct (revise_ok _ _ app (Some rev) s Hok)].
  intros a [Ha| ->]; right; [|by eapply under_way_new]. eapply under_way_insert; [reflexivity| |exact Ha]. by rewrite Hw.
Qed.
Lemma landed_ok w app s : ok s → works s !! w = Some (Editing app) → ok (landed w app s).
Proof.
  intros Hok Hw. unfold landed. set (s1 := with_works _ s). assert (watch_ok (asleep s) (under_way s) s1) as H1 by (by destruct Hok).
  eapply watch_mono; [| |apply wake_ok, H1].
  - intros a [? Hne]. unfold asleep in *. cbn. set_solver.
  - intros a [Ha Hne]. right. by destruct (under_way_delete w _ s a Hw Ha).
Qed.
(** Work that gives up. *)
Lemma give_up_ok w x u s : ok s → works s !! w = Some x → (∀ a, wakes a x → a ∈ u) → ok (with_unwoken (u ∪ unwoken s) (with_works (delete w (works s)) s)).
Proof.
  intros Hok Hw Hu. apply (watch_mono (asleep s) (under_way s)); [| |by destruct Hok].
  - unfold asleep. cbn. set_solver.
  - intros a Ha. destruct (under_way_delete w x s a Hw Ha) as [Hx|Hx]; [left|by right]. unfold asleep. cbn. specialize (Hu a Hx). set_solver.
Qed.
Lemma absorbed_ok w app rev s : ok s → works s !! w = None ∨ works s !! w = Some Reporting → ok (absorbed w app rev s).
Proof.
  intros Hok Hw. apply (watch_mono (asleep s) (λ a, under_way s a ∨ a = app)); [done| |by destruct (revise_ok _ _ app rev s Hok)].
  intros a [Ha| ->]; right; [|by eapply under_way_new]. by eapply under_way_insert.
Qed.
Lemma bound_target s t : bound s t → t_app t ∈ session_targets s.
Proof.
  intros (a & Ha & Happ)%app_engine_Some. unfold session_targets. apply list_elem_of_fmap. exists (t_session t, a). split; [exact Happ|by apply elem_of_map_to_list].
Qed.
Lemma reported_ok w s : ok s → ok (reported w s).
Proof.
  intros Hok. unfold reported. set (s1 := with_works _ s). assert (watch_ok (asleep s) (under_way s) s1) as H1 by (by destruct Hok).
  apply (wakes_ok (asleep s) (under_way s) (session_targets s1)) in H1 as [Hs Hd Hw Hp]. split; [done..|]. intros id t Hi Hst. destruct (Hp id t Hi Hst) as [? Hor]. split; [done|].
  destruct Hor as [[Ha Hn]|[Hb [?|[_ Hn]]]]; [left; by apply each_asleep|by right; split; [|left]|].
  destruct Hn. apply bound_target. unfold bound, app_engine in *. destruct (each_cells (session_targets s1) s1) as (E1 & E2 & _). by rewrite E1, E2 in Hb.
Qed.
Lemma imported_ok w apps app rev s : ok s → works s !! w = None ∧ apps = ∅ ∨ works s !! w = Some (Importing apps) → ok (imported w apps app rev s).
Proof.
  intros Hok Hw. apply (watch_mono (asleep s) (λ a, under_way s a ∨ a = app)); [done| |by destruct (revise_ok _ _ app rev s Hok)].
  intros a [Ha| ->]; right.
  - eapply under_way_insert; [reflexivity| |exact Ha]. intros y Hy. destruct Hw as [[Hw _]|Hw]; simplify_eq. cbn. set_solver.
  - eapply under_way_new; [reflexivity|]. cbn. set_solver.
Qed.
Lemma import_done_ok w apps s : ok s → works s !! w = Some (Importing apps) → ok (import_done w apps s).
Proof.
  intros Hok Hw. pose proof (give_up_ok w _ apps s Hok Hw (λ a Ha, Ha)) as H1. unfold import_done. set (s1 := with_unwoken _ _) in *.
  eapply watch_mono; [| |apply (wakes_ok (asleep s1) (under_way s1) (session_apps s1)), H1].
  - intros a [Ha Hn]. by apply each_asleep.
  - intros a [Ha _]. right. by apply each_under_way.
Qed.
Lemma unreported_ok app rev s : ok s → ok (unreported app rev s).
Proof.
  intros Hok. apply (watch_mono (asleep s) (λ a, under_way s a ∨ a = app)); [| |by destruct (revise_ok _ _ app rev s Hok)].
  - unfold asleep. cbn. set_solver.
  - intros a [?| ->]; [by right|left]. unfold asleep. cbn. set_solver.
Qed.
Lemma rebound_ok personal s : ok s → ok (rebound personal s).
Proof.
  intros [Hs Hd Hw Hp]. split; [exact Hs|..|exact Hw|].
  - intros k. cbn. rewrite lookup_union, lookup_fmap. destruct (todo_sessions s !! k) as [a|] eqn:Ht.
    + apply map_lookup_filter_Some in Ht as [-> _]. done.
    + cbn. rewrite (left_id_L None _). apply Hd.
  - intros id t Hi Hst. destruct (Hp id t Hi Hst) as [Hwi Hor]. split; [done|]. unfold asleep in *. cbn [rebound with_unwoken with_documents unwoken].
    rewrite elem_of_union, elem_of_list_to_set, list_elem_of_filter. destruct Hor as [?|[Hb Hor]]; [by left; right|].
    pose proof Hb as (a & Ha & Happ)%app_engine_Some. destruct (decide (a = TODO)) as [->|Hne].
    + assert (todo_sessions s !! t_session t = Some TODO) as Ht by (by apply map_lookup_filter_Some).
      destruct (decide (t_app t = personal)) as [Hpe|Hpe].
      * right. split; [|exact Hor]. apply app_engine_Some. exists TODO. cbn. split; [done|]. rewrite lookup_union, lookup_fmap, Ht. cbn. by destruct (session_documents s !! t_session t).
      * left; left. split; [done|]. apply list_elem_of_fmap. exists (t_session t, TODO). split; [done|by apply elem_of_map_to_list].
    + right. split; [|exact Hor]. apply app_engine_Some. exists a. cbn. split; [done|].
      assert (todo_sessions s !! t_session t = None) as Ht.
      { apply map_lookup_filter_None. right. intros x Hx. cbn. congruence. }
      by rewrite lookup_union, lookup_fmap, Ht, (left_id_L None _).
Qed.
Lemma reachable_watch_ok s : reachable s → ok s.
Proof.
  induction 1 as [|s s' _ IH Hs].
  - by split; cbn; intros *; rewrite lookup_empty; try intros [? ?].
  - destruct Hs; [by apply launch_ok|by eapply begin_ok|by apply poll_ok|by apply dropped_ok|by apply close_ok| |by eapply authored_ok|by apply landed_ok| |
      by apply absorbed_ok|by apply reported_ok|by apply imported_ok|by apply import_done_ok| |by apply unreported_ok|by apply rebound_ok].
    + unfold abort. destruct (sessions s !! session); [by apply close_ok|done].
    + apply (give_up_ok _ (Editing app)); [done..|]. intros a ->. set_solver.
    + by apply (give_up_ok _ (Importing apps)).
Qed.
Lemma each_ready l s id t : document_waiters s !! id = Some (t_app t) → tasks s !! id = Some t → t_app t ∈ l → tasks (wake_each l s) !! id = Some (with_status Ready t).
Proof.
  assert (∀ l s t, document_waiters s !! id = None → tasks s !! id = Some t → tasks (wake_each l s) !! id = Some t) as Hkeep.
  { clear. intros l. induction l as [|app l IH]; intros s t Hw Hi; [done|]. apply IH; [cbn; by rewrite map_lookup_filter_None; left|].
    apply woken_task. exists t. by rewrite Hw. }
  revert s. induction l as [|app l IH]; intros s Hw Hi; [by intros ?%elem_of_nil|]. cbn [wake_each]. destruct (decide (app = t_app t)) as [->|Hne].
  - intros _. apply Hkeep; [cbn; rewrite map_lookup_filter_None; right; naive_solver|]. apply woken_task. exists t. by rewrite bool_decide_true.
  - intros [?|Hl]%elem_of_cons; [done|]. apply IH; [by apply woken_waiter|apply woken_task; exists t; rewrite bool_decide_false; naive_solver|done].
Qed.
(** C28: whatever is launched, closed, edited, received, imported, polled and dropped,
    in whatever order, a parked watch has its waker among the waiters of its
    document, and unless some path left that document's watchers asleep it would
    park again, or the edit, the event or the store pass that changed the document
    is still under way. An edit that lands makes the watch ready, and so does an
    event that is reported, the end of its session, whose next poll says that the
    session is unknown, and a store pass, where a session's app has the document's
    name. With nothing under way and nothing left asleep, every parked watch has
    seen its document. The paths that leave watchers asleep are the exceptions: an
    edit that does not land, a store pass, an unreported change and a rebinding. *)
Theorem watch_misses_nothing s id t : reachable s → tasks s !! id = Some t → t_status t = Parked →
  document_waiters s !! id = Some (t_app t) ∧
  (t_app t ∉ unwoken s →
    (poll s t = None ∨ ∃ w x, works s !! w = Some x ∧ wakes (t_app t) x) ∧
    (works s = ∅ → poll s t = None) ∧
    (∀ w, tasks (reported w s) !! id = Some (with_status Ready t)) ∧
    tasks (close (t_session t) s) !! id = Some (with_status Ready t) ∧ poll (close (t_session t) s) t = Some (Err "unknown session"%string)) ∧
  (∀ w, tasks (landed w (t_app t) s) !! id = Some (with_status Ready t)) ∧
  (∀ w apps k, sessions s !! k = Some (t_app t) → tasks (import_done w apps s) !! id = Some (with_status Ready t)).
Proof.
  intros Hok%reachable_watch_ok Hi Hst. destruct (wo_parked _ _ _ Hok id t Hi Hst) as [Hw Hor]. split_and!; [done|..].
  - intros Hn. destruct Hor as [?|[Hb Hor]]; [done|].
    assert (poll s t = None ∨ under_way s (t_app t)) as Hpoll.
    { destruct Hor as [Hr|?]; [left|by right]. apply poll_None. split; [by apply bound_document|done]. }
    split_and!; [exact Hpoll|..].
    + intros Hnone. destruct Hpoll as [?|(w & x & Hx & _)]; [done|]. by rewrite Hnone, lookup_empty in Hx.
    + intros w. apply each_ready; [done..|]. by apply (bound_target (with_works (delete w (works s)) s)).
    + unfold bound in Hb. apply app_engine_Some in Hb as (a & Ha & Happ). unfold close. rewrite Ha, <- Happ.
      apply (woken_task (forget (t_session t) s)). exists t. split; [done|]. by rewrite bool_decide_true.
    + apply app_engine_Some in Hb as (a & Ha & _). unfold close. rewrite Ha. unfold poll, validate_session, session_document. cbn. by rewrite !lookup_delete_eq, bool_decide_false.
  - intros w. apply woken_task. exists t. by rewrite bool_decide_true.
  - intros w apps k Hk. apply each_ready; [done..|]. apply list_elem_of_fmap. exists (k, t_app t). split; [done|by apply elem_of_map_to_list].
Qed.

Module Concrete.
(** A session of [app], bound to [partition] or not, with a watch parked at the
    document's revision. *)
Definition document (app : string) (partition : option string) : string := default app partition.
Definition begun (app : string) (partition : option string) : sys :=
  default init (begin 1 3 (reported 0 (absorbed 0 (document app partition) (Some 3) (launch app partition init)))).
Definition ready0 (app : string) (partition : option string) : task := mkTask 1 (document app partition) 3 Ready.
Definition watching (app : string) (partition : option string) : sys := poll_task 0 (ready0 app partition) (begun app partition).
Definition parked0 (app : string) (partition : option string) : task := with_status Parked (ready0 app partition).
Definition list_app : string := "todomvc".
Definition list_doc : option string := Some "document:x"%string.
Definition watching0 : sys := watching list_app list_doc.
Lemma watching_reachable : reachable watching0.
Proof.
  eapply Next; [|apply (Polled 0 (ready0 list_app list_doc)); reflexivity].
  eapply (Next (reported 0 (absorbed 0 "document:x" (Some 3) (launch list_app list_doc init)))).
  - eapply Next; [|apply Reported; reflexivity]. eapply Next; [|apply Absorbed; left; reflexivity]. eapply Next; [apply Start|by apply Launched].
  - apply (Begun 1 3); [|reflexivity]. intros t. vm_compute. discriminate.
Qed.
Lemma watch_misses_nothing_witness :
  tasks (landed 0 "document:x" (default init (authored 0 1 4 watching0))) !! 0 = Some (ready0 list_app list_doc).
Proof.
  assert (reachable (default init (authored 0 1 4 watching0))) as Hr.
  { apply (Next watching0); [exact watching_reachable|]. apply (Authored 0 1 4); reflexivity. }
  destruct (watch_misses_nothing (default init (authored 0 1 4 watching0)) 0 (parked0 list_app list_doc) Hr (eq_refl _) (eq_refl _)) as (_ & _ & H & _). exact (H 0).
Defined.
(** A watch that sleeps for good unless something else wakes it: it is parked, its
    poll would answer, and nothing that would wake it is under way. *)
Definition stranded (s : sys) (id : Z) : Prop :=
  works s = ∅ ∧ ∃ t, tasks s !! id = Some t ∧ t_status t = Parked ∧ is_Some (poll s t).
(** The ways to get there: an edit in the document whose checkpoint failed, a store
    pass that went through and changed a document that a session is bound to, what
    is absorbed without a report, and adopting an identity, after which the end of
    the session does not wake the watch either. *)
Theorem watches_strand :
  (let s := not_landed 0 "document:x" (default init (authored 0 1 4 watching0)) in reachable s ∧ stranded s 0) ∧
  (let s := import_done 0 {["document:x"%string]} (imported 0 ∅ "document:x" (Some 4) watching0) in reachable s ∧ stranded s 0) ∧
  (let s := unreported "document:x" (Some 4) watching0 in reachable s ∧ stranded s 0) ∧
  (let s := rebound "document:mine" watching0 in reachable s ∧ stranded s 0 ∧ reachable (close 1 s) ∧ stranded (close 1 s) 0).
Proof.
  pose proof watching_reachable as Hr.
  assert (∀ s t, works s = ∅ → tasks s !! 0 = Some t → t_status t = Parked → is_Some (poll s t) → stranded s 0) as Hs by (intros s t ? ? ? ?; split; [done|by exists t]).
  assert (reachable (rebound "document:mine" watching0)) as Hb by (eapply Next; [exact Hr|constructor]).
  cbv zeta. split_and!; [..|exact Hb| |eapply Next; [exact Hb|constructor]|].
  - eapply Next; [|apply NotLanded; reflexivity]. eapply Next; [exact Hr|]. apply (Authored 0 1 4); reflexivity.
  - eapply Hs; [vm_compute; reflexivity|vm_compute; reflexivity|reflexivity|by eexists; vm_compute].
  - eapply Next; [|apply ImportDone; reflexivity]. eapply Next; [exact Hr|]. apply Imported. left. by split.
  - eapply Hs; [vm_compute; reflexivity|vm_compute; reflexivity|reflexivity|by eexists; vm_compute].
  - eapply Next; [exact Hr|constructor].
  - eapply Hs; [vm_compute; reflexivity|vm_compute; reflexivity|reflexivity|by eexists; vm_compute].
  - eapply Hs; [vm_compute; reflexivity|vm_compute; reflexivity|reflexivity|by eexists; vm_compute].
  - eapply Hs; [vm_compute; reflexivity|vm_compute; reflexivity|reflexivity|by eexists; vm_compute].
Qed.
(** An erased device leaves such a watch parked for good: [erase] wakes the ids of
    the apps, not the documents their sessions are bound to, and leaves the bindings,
    so the poll that nobody asks for would park again. A session bound to no
    document is woken, and its watch ends. *)
Theorem erased_watch_parks :
  (let s := erase watching0 in
   sessions s = ∅ ∧ tasks s !! 0 = Some (parked0 list_app list_doc) ∧ poll s (parked0 list_app list_doc) = None) ∧
  (let s := erase (watching "notes" None) in
   tasks s !! 0 = Some (ready0 "notes" None) ∧ poll s (ready0 "notes" None) = Some (Err "unknown session"%string)).
Proof. by split_and!; vm_compute. Qed.
End Concrete.
