(* ===== verification/Frontier.v ===== *)
(** * The readable frontier ([runtime/crates/engine/src/vault.rs])

    What a device keeps to read a document's history: one content key per head, and
    inside every envelope the keys of its ancestors.  Keyhive's ciphers, its
    causal walk and bincode belong to other crates; a commit's key and envelope
    come from them. *)
From S2P Require Import Prelude BTree Crypto.

(** [Envelope<Cref, Vec<u8>>]: what is sealed, with the keys it carries. *)
Record Envelope := mkEnvelope { plaintext : bytes; ancestors : gmap bytes bytes }.
(** What the code reads of a [Ciphertext]. *)
Record Ciphertext := mkCiphertext { content_ref : bytes; pred_refs : bytes; ct_body : bytes }.
Record Sealed := mkSealed {
  sd_blob : bytes;
  sd_cref : bytes;
  sd_key : bytes;
  sd_embedded : list bytes;
  sd_shared : option bytes;
}.
(** A frontier: a key for each head, in a [HashMap]; and the vault's two. *)
Abbreviation Heads := (gmap bytes bytes).
Record Frontiers := mkFrontiers { heads : Heads; shared_heads : gmap bytes Heads }.

(** ** Moving it *)
Definition advance_heads (h : Heads) (arrived : list (bytes * bytes)) (covered : list bytes) : Heads :=
  let fresh : gset bytes := list_to_set (arrived.*1) in
  foldl (λ h c, if bool_decide (c ∈ fresh) then h else delete c h) (foldl (λ h p, <[p.1:=p.2]> h) h arrived) covered.
Definition advance (arrived : list (bytes * bytes)) (covered : list bytes) (v : Frontiers) : Frontiers :=
  mkFrontiers (advance_heads (heads v) arrived covered) (shared_heads v).
Definition advance_shared (document : bytes) (arrived : list (bytes * bytes)) (covered : list bytes) (v : Frontiers) : Frontiers :=
  mkFrontiers (heads v) (<[document:=advance_heads (default ∅ (shared_heads v !! document)) arrived covered]> (shared_heads v)).
Definition confirm (s : Sealed) (v : Frontiers) : Frontiers :=
  match sd_shared s with
  | Some document => advance_shared document [(sd_cref s, sd_key s)] (sd_embedded s) v
  | None => advance [(sd_cref s, sd_key s)] (sd_embedded s) v
  end.
Definition cover (members : list bytes) (v : Frontiers) : Frontiers := advance [] members v.
Definition forget (crefs : list bytes) (v : Frontiers) : Frontiers :=
  mkFrontiers (foldl (λ h c, delete c h) (heads v) crefs) (shared_heads v).
Definition entry_points (v : Frontiers) : nat := size (heads v).
Definition holds_entry_point (v : Frontiers) (c : bytes) : bool := bool_decide (is_Some (heads v !! c)).
(** Keys taken in, and handed over. *)
Definition extend (keys : list (bytes * bytes)) (h : Heads) : Heads := foldl (λ h p, <[p.1:=p.2]> h) h keys.

Section Seal.
Context {CE : Codec Envelope} {CC : Codec Ciphertext} {CK : Codec (list (bytes * bytes))}.
Definition export_content_keys (v : Frontiers) : result string bytes :=
  ok_or "content keys"%string (to_vec (map_to_list (heads v))).
Definition import_content_keys (b : bytes) (v : Frontiers) : result string Frontiers :=
  keys ← ok_or "bad content keys"%string (from_slice b);
  Ok (mkFrontiers (extend keys (heads v)) (shared_heads v)).
Definition export_shared_frontier (v : Frontiers) (document : bytes) : result string bytes :=
  ok_or "document frontier"%string (to_vec (map_to_list (default ∅ (shared_heads v !! document)))).
Definition import_shared_frontier (document b : bytes) (v : Frontiers) : result string Frontiers :=
  keys ← ok_or "bad document frontier"%string (from_slice b);
  Ok (mkFrontiers (heads v) (<[document:=extend keys (default ∅ (shared_heads v !! document))]> (shared_heads v))).

(** The parents whose keys are held travel with the change. *)
Definition held_ancestors (h : Heads) (preds : list bytes) : Heads :=
  list_to_map (reverse (omap (λ p, (λ k, (p, k)) <$> h !! p) preds)).
Definition seal_with (found : result string unit) (encrypt : bytes → result string (Ciphertext * bytes)) (h : Heads) (shared : option bytes)
    (cref : bytes) (preds : list bytes) (change : bytes) : result string Sealed :=
  _ ← found;
  let anc := held_ancestors h preds in
  plain ← ok_or "envelope"%string (to_vec (mkEnvelope change anc));
  c ← encrypt plain;
  blob ← ok_or "envelope"%string (to_vec c.1);
  Ok (mkSealed blob cref c.2 ((map_to_list anc).*1) shared).
(** [present]: Keyhive holds the document; [named]: its id is an identifier. *)
Definition held_document (why : string) (present : bool) : result string unit := if present then Ok () else Err why.
Definition seal (present : bool) encrypt (v : Frontiers) :=
  seal_with (held_document "this device has no keyhive document" present) encrypt (heads v) None.
Definition seal_shared (named : result string unit) (present : bool) encrypt (v : Frontiers) (document : bytes) :=
  seal_with (_ ← named; held_document "unknown keyhive document" present) encrypt (default ∅ (shared_heads v !! document)) (Some document).

Definition decode (blobs : list (bytes * bytes)) : list (bytes * Ciphertext) :=
  omap (λ p, (λ c, (p.1, c)) <$> from_slice p.2) blobs.
End Seal.
Arguments seal {CE CC} present encrypt v cref preds change.

(** ** Opening *)
Section Open.
Context {CE : Codec Envelope} {CC : Codec Ciphertext}.
(** What Keyhive answers during one call: whether it holds the document; the plaintext and key of a ciphertext
    sealed under an epoch it holds; what a key opens; its causal walk from seeds,
    with the plaintexts it reached and the keys of ciphertexts that are not here. *)
Context (present : bool).
Context (epoch : Ciphertext → option (bytes * bytes)).
Context (try_decrypt : Ciphertext → bytes → option bytes).
Context (causal_walk : list (Ciphertext * bytes) → list (bytes * bytes) * list (bytes * bytes)).
Definition chunk (what : string) (plain : bytes) : result string Envelope := ok_or what (from_slice plain).
(** Later bindings replace earlier ones. *)
Definition merged (new old : Heads) : Heads := new ∪ old.

(** One pass under the current epoch. *)
Record opening := mkOpening {
  op_opened : list (bytes * bytes);
  op_reached : list (bytes * bytes);
  op_ancestors : Heads;
  op_dark : list (bytes * Ciphertext);
}.
Fixpoint epoch_pass (wanted : list (bytes * Ciphertext)) (o : opening) : result string opening :=
  match wanted with
  | [] => Ok o
  | (cref, ct) :: wanted =>
    match epoch ct with
    | Some (plain, key) =>
      env ← chunk "chunk envelope" plain;
      epoch_pass wanted (mkOpening (op_opened o ++ [(cref, plaintext env)]) (op_reached o ++ [(cref, key)])
        (merged (ancestors env) (op_ancestors o)) (op_dark o))
    | None => epoch_pass wanted (mkOpening (op_opened o) (op_reached o) (op_ancestors o) (op_dark o ++ [(cref, ct)]))
    end
  end.
(** The walk below what is held, for what stayed dark. *)
Definition seeds_of (h : Heads) (wanted : list (bytes * Ciphertext)) (o : opening) : list (Ciphertext * bytes) :=
  let by_cref : gmap bytes Ciphertext := list_to_map (reverse wanted) in
  omap (λ p, (λ k, (p.2, k)) <$> h !! p.1) (op_dark o) ++ omap (λ p, (λ ct, (ct, p.2)) <$> by_cref !! p.1) (op_reached o).
Definition dark_walk (h : Heads) (wanted : list (bytes * Ciphertext)) (o : opening) : opening * list bytes :=
  match op_dark o with
  | [] => (o, [])
  | dark =>
    match seeds_of h wanted o with
    | [] => (o, [])
    | seeds =>
      let seeded : gset bytes := list_to_set ((content_ref ∘ fst) <$> seeds) in
      let '(complete, next) := causal_walk seeds in
      let plaintexts : Heads := list_to_map (reverse complete) in
      (mkOpening (op_opened o ++ omap (λ p, (λ plain, (p.1, plain)) <$> plaintexts !! p.1) dark) (op_reached o)
         (merged (list_to_map (reverse next)) (op_ancestors o)) dark,
       filter (λ c, c ∉ seeded) (complete.*1))
    end
  end.
(** An ancestor that can be reached is covered; one that has not arrived is kept. *)
Definition decide_ancestors (h : Heads) (opened_now known : gset bytes) (l : list (bytes * bytes))
    (reached : list (bytes * bytes)) (covered : list bytes) : list (bytes * bytes) * list bytes :=
  foldl (λ '(r, c) p,
    if bool_decide (p.1 ∈ opened_now) || bool_decide (is_Some (h !! p.1)) || bool_decide (p.1 ∈ known)
    then (r, c ++ [p.1]) else (r ++ [p], c)) (reached, covered) l.
Definition open_moves (h : Heads) (blobs : list (bytes * bytes)) (known : gset bytes)
    : result string (list (bytes * bytes) * list (bytes * bytes) * list bytes) :=
  let wanted := decode blobs in
  o ← epoch_pass wanted (mkOpening [] [] ∅ []);
  let '(o, covered) := dark_walk h wanted o in
  let '(reached, covered) := decide_ancestors h (list_to_set ((op_opened o).*1)) known (map_to_list (op_ancestors o)) (op_reached o) covered in
  Ok (op_opened o, reached, covered).
Definition open (v : Frontiers) (blobs : list (bytes * bytes)) (known : gset bytes) : Frontiers * result string (list (bytes * bytes)) :=
  if negb present then (v, Ok []) else
  match open_moves (heads v) blobs known with
  | Ok (opened, reached, covered) => (advance reached covered v, Ok opened)
  | Err e => (v, Err e)
  end.

(** *** Scoped: no envelope may name what its signed parents do not *)
Definition scoped (signed : gset bytes) (env : Envelope) : bool := forallb (λ p, bool_decide (p.1 ∈ signed)) (map_to_list (ancestors env)).
Definition shared_scope (parents : gmap bytes (gset bytes)) (cref : bytes) (env : Envelope) : result string unit :=
  if scoped (default ∅ (parents !! cref)) env then Ok () else Err "shared envelope contains an unsigned ancestor"%string.
Definition raw_scope (parents : gmap bytes (gset bytes)) (cref : bytes) (env : Envelope) : result string unit :=
  allowed ← ok_or "raw envelope has no signed parent metadata"%string (parents !! cref);
  if scoped allowed env then Ok () else Err "raw envelope contains an unsigned ancestor"%string.
Definition scoped_chunk (what : string) (scope : bytes → Envelope → result string unit) (cref plain : bytes) : result string Envelope :=
  env ← chunk what plain;
  _ ← scope cref env;
  Ok env.
(** What the two scoped walks keep: the plaintexts opened, the heads reached, every
    ancestor key read, and, of the keys that came up, those of commits opened
    already and those of commits that are not in the batch. *)
Record walking := mkWalking {
  wk_opened : Heads;
  wk_reached : list (bytes * bytes);
  wk_ancestors : Heads;
  wk_covered : list bytes;
  wk_absent : list (bytes * bytes);
}.
Definition opens_as (cref : bytes) (env : Envelope) (w : walking) : walking :=
  mkWalking (<[cref:=plaintext env]> (wk_opened w)) (wk_reached w) (merged (ancestors env) (wk_ancestors w)) (wk_covered w) (wk_absent w).
Definition reaches_as (cref key : bytes) (w : walking) : walking :=
  mkWalking (wk_opened w) (wk_reached w ++ [(cref, key)]) (wk_ancestors w) (wk_covered w) (wk_absent w).
Section Walk.
Context (what : string) (scope : bytes → Envelope → result string unit).
(** The batch under the current epoch, and the queue it leaves. *)
Fixpoint scoped_pass (check : bytes → Ciphertext → result string unit) (l : list (bytes * Ciphertext)) (w : walking) (queue : list (bytes * bytes)) : result string (walking * list (bytes * bytes)) :=
  match l with
  | [] => Ok (w, queue)
  | (cref, ct) :: l =>
    _ ← check cref ct;
    match epoch ct with
    | Some (plain, key) =>
      env ← scoped_chunk what scope cref plain;
      scoped_pass check l (opens_as cref env (reaches_as cref key w)) (queue ++ map_to_list (ancestors env))
    | None => scoped_pass check l w queue
    end
  end.
(** The queue, where a commit that opens brings its ancestors: at most as many
    open as the batch has, which is what [n] counts down. *)
Fixpoint walk_queue (encrypted : gmap bytes Ciphertext) (n : nat) : list (bytes * bytes) → walking → result string walking :=
  fix inner (queue : list (bytes * bytes)) (w : walking) : result string walking :=
    match queue with
    | [] => Ok w
    | (cref, key) :: queue =>
      if bool_decide (is_Some (wk_opened w !! cref))
      then inner queue (mkWalking (wk_opened w) (wk_reached w) (wk_ancestors w) (wk_covered w ++ [cref]) (wk_absent w)) else
      match encrypted !! cref with
      | None => inner queue (mkWalking (wk_opened w) (wk_reached w) (wk_ancestors w) (wk_covered w) (wk_absent w ++ [(cref, key)]))
      | Some ct =>
        match try_decrypt ct key with
        | None => inner queue w
        | Some plain =>
          env ← scoped_chunk what scope cref plain;
          match n with
          | O => Ok w
          | S n => walk_queue encrypted n (queue ++ map_to_list (ancestors env)) (opens_as cref env w)
          end
        end
      end
    end.
End Walk.
Definition walking0 : walking := mkWalking ∅ [] ∅ [] [].

Definition open_shared (named : result string unit) (v : Frontiers) (document : bytes) (blobs : list (bytes * bytes)) (known : gset bytes)
    (parents : gmap bytes (gset bytes)) : Frontiers * result string (list (bytes * bytes)) :=
  match named with Err e => (v, Err e) | Ok _ =>
  if negb present then (v, Ok []) else
  let h := default ∅ (shared_heads v !! document) in
  let encrypted : gmap bytes Ciphertext := list_to_map (reverse (decode blobs)) in
  let what := "shared chunk envelope"%string in
  let check cref ct := if bool_decide (content_ref ct = cref) then Ok () else
    Err "shared ciphertext content reference does not match signed item"%string in
  match
    scoped_pass what (shared_scope parents) check (map_to_list encrypted) walking0 [] ≫= λ p,
    let held := filter (λ q, is_Some (encrypted !! q.1)) (map_to_list h) in
    walk_queue what (shared_scope parents) encrypted (size encrypted) (p.2 ++ held) p.1
  with
  | Ok w =>
    (advance_shared document (wk_reached w ++ wk_absent w) (wk_covered w ++ elements known) v, Ok (map_to_list (wk_opened w)))
  | Err e => (v, Err e)
  end end.

Fixpoint raw_batch (digest_refs : list bytes → bytes) (parents : gmap bytes (gset bytes)) (l : list (bytes * Ciphertext))
    (encrypted : gmap bytes Ciphertext) : result string (gmap bytes Ciphertext) :=
  match l with
  | [] => Ok encrypted
  | (expected, ct) :: l =>
    if negb (bool_decide (content_ref ct = expected)) then Err "raw ciphertext content reference does not match signed commit"%string else
    match parents !! expected with
    | None => Err "raw ciphertext has no signed parent metadata"%string
    | Some ps =>
      if negb (bool_decide (pred_refs ct = digest_refs (btree_elems ps))) then Err "raw ciphertext parents do not match signed commit"%string
      else raw_batch digest_refs parents l (<[expected:=ct]> encrypted)
    end
  end.
Definition open_raw (digest_refs : list bytes → bytes) (v : Frontiers) (blobs : list (bytes * bytes))
    (parents : gmap bytes (gset bytes)) : Frontiers * result string (list (bytes * bytes)) :=
  if negb present then (v, Ok []) else
  let what := "raw chunk envelope"%string in
  match
    raw_batch digest_refs parents (decode blobs) ∅ ≫= λ encrypted,
    scoped_pass what (raw_scope parents) (λ _ _, Ok ()) (map_to_list encrypted) walking0 [] ≫= λ p,
    let held := omap (λ q, if bool_decide (is_Some (wk_opened p.1 !! q.1)) then None else (λ k, (q.1, k)) <$> heads v !! q.1) (map_to_list encrypted) in
    walk_queue what (raw_scope parents) encrypted (size encrypted) (p.2 ++ held) p.1
  with
  | Ok w =>
    let '(reached, covered) := decide_ancestors (heads v) (dom (wk_opened w)) ∅ (map_to_list (wk_ancestors w)) (wk_reached w) [] in
    (advance (filter (λ p, p.1 ∉ covered) reached) covered v, Ok (map_to_list (wk_opened w)))
  | Err e => (v, Err e)
  end.
End Open.
