(* ===== verification/FrontierFacts.v ===== *)
(** * What stays readable

    A frontier stands for all that can be read from it: the heads whose keys it
    holds, and whatever envelopes carry below them. Confirming what was written and
    opening what was read keep all of it; opening a shared document does not. *)
From S2P Require Import Prelude BTree Crypto ContactsWire Frontier.

Section Readable.
(** The key of a commit, the commits whose keys its envelope carries, and how far
    below the newest commits it lies: an envelope carries only ancestors. *)
Context (key_of : bytes → bytes) (carries : bytes → gset bytes) (height : bytes → nat).
Inductive readable (h : Heads) : bytes → Prop :=
| by_head c : h !! c = Some (key_of c) → readable h c
| by_descendant d c : readable h d → c ∈ carries d → readable h c.
Definition honest (h : Heads) : Prop := ∀ c k, h !! c = Some k → k = key_of c.
Definition honest_keys (l : list (bytes * bytes)) : Prop := ∀ p, p ∈ l → p.2 = key_of p.1.

(** ** Moving the frontier *)
Lemma inserted_other (l : list (bytes * bytes)) (h : Heads) c : c ∉ l.*1 → foldl (λ h p, <[p.1:=p.2]> h) h l !! c = h !! c.
Proof.
  revert h. induction l as [|p l IH]; intros h; [done|]. cbn. rewrite not_elem_of_cons. intros [Hne Hn]. rewrite IH by done. by rewrite lookup_insert_ne.
Qed.
Lemma inserted_key (l : list (bytes * bytes)) (h : Heads) c : honest_keys l → c ∈ l.*1 → foldl (λ h p, <[p.1:=p.2]> h) h l !! c = Some (key_of c).
Proof.
  revert h. induction l as [|p l IH]; intros h Hk; cbn; [by intros ?%elem_of_nil|]. intros Hc.
  assert (honest_keys l) as Hl by (intros q Hq; apply Hk; by right). destruct (decide (c ∈ l.*1)) as [Hin|Hn]; [by apply IH|].
  rewrite inserted_other by done. apply elem_of_cons in Hc as [->|?]; [|done]. rewrite lookup_insert_eq. f_equal. apply Hk. left.
Qed.
Lemma deleted_lookup (fresh : gset bytes) (l : list bytes) (h : Heads) c :
  foldl (λ h c, if bool_decide (c ∈ fresh) then h else delete c h) h l !! c = if bool_decide (c ∈ l ∧ c ∉ fresh) then None else h !! c.
Proof.
  revert h. induction l as [|x l IH]; intros h; cbn [foldl].
  - rewrite bool_decide_false; [done|]. by intros [?%elem_of_nil ?].
  - rewrite IH. destruct (decide (c ∈ fresh)) as [Hf|Hf].
    + rewrite (bool_decide_false (c ∈ l ∧ _)), (bool_decide_false (c ∈ x :: l ∧ _)) by naive_solver.
      destruct (bool_decide_reflect (x ∈ fresh)); [done|]. by rewrite lookup_delete_ne by congruence.
    + destruct (decide (c ∈ l)) as [Hl|Hl].
      { rewrite (bool_decide_true (c ∈ l ∧ _)), (bool_decide_true (c ∈ x :: l ∧ _)) by (split; [by try right|done]). done. }
      rewrite (bool_decide_false (c ∈ l ∧ _)) by naive_solver. destruct (decide (c = x)) as [->|Hne].
      * rewrite (bool_decide_false (x ∈ fresh)), bool_decide_true, lookup_delete_eq by (done || (split; [left|done])). done.
      * rewrite (bool_decide_false (c ∈ x :: l ∧ _)) by (rewrite elem_of_cons; naive_solver).
        destruct (bool_decide_reflect (x ∈ fresh)); [done|]. by rewrite lookup_delete_ne by congruence.
Qed.
Lemma advance_fresh h arrived covered c : honest_keys arrived → c ∈ arrived.*1 → advance_heads h arrived covered !! c = Some (key_of c).
Proof.
  intros Hk Hc. unfold advance_heads. rewrite deleted_lookup, bool_decide_false; [by apply inserted_key|]. intros [_ Hn]. apply Hn. by apply elem_of_list_to_set.
Qed.
Lemma advance_kept h arrived covered c : c ∉ arrived.*1 → c ∉ covered → advance_heads h arrived covered !! c = h !! c.
Proof. intros Ha Hc. unfold advance_heads. rewrite deleted_lookup, bool_decide_false by naive_solver. by apply inserted_other. Qed.
Lemma advance_honest h arrived covered : honest h → honest_keys arrived → honest (advance_heads h arrived covered).
Proof.
  intros Hh Hk c k Hc. destruct (decide (c ∈ arrived.*1)) as [Hin|Hn]; [rewrite advance_fresh in Hc by done; congruence|].
  unfold advance_heads in Hc. rewrite deleted_lookup in Hc. destruct (bool_decide _); [done|]. rewrite inserted_other in Hc by done. by eapply Hh.
Qed.
Context (acyclic : ∀ d c, c ∈ carries d → (height d < height c)%nat).
(** A move is sound when every head it drops, and every commit it opened that is
    not made a head, is carried by a commit it opened. *)
Lemma advance_readable h arrived covered (opened : bytes → Prop) : honest h → honest_keys arrived →
  (∀ c, c ∈ covered → c ∉ arrived.*1 → is_Some (h !! c) → ∃ d, opened d ∧ c ∈ carries d) →
  (∀ c, opened c → c ∈ arrived.*1 ∨ is_Some (h !! c) ∨ ∃ d, opened d ∧ c ∈ carries d) →
  ∀ c, readable h c ∨ opened c → readable (advance_heads h arrived covered) c.
Proof.
  intros Hh Hk Hcov Hop c. remember (height c) as n eqn:Hn. revert c Hn.
  induction (lt_wf n) as [n _ IH]. intros c -> Hc.
  assert (∀ d, readable h d ∨ opened d → c ∈ carries d → readable (advance_heads h arrived covered) c) as Hup.
  { intros d Hd Hcd. eapply by_descendant; [|exact Hcd]. eapply (IH (height d)); [by apply acyclic|done|done]. }
  destruct (decide (c ∈ arrived.*1)) as [Hf|Hf]; [by apply by_head, advance_fresh|].
  assert (is_Some (h !! c) → readable (advance_heads h arrived covered) c) as Hhead.
  { intros [k Hck]. destruct (decide (c ∈ covered)) as [Hcv|Hcv].
    - destruct (Hcov c Hcv Hf (mk_is_Some _ _ Hck)) as (d & Hd & Hcd). by apply (Hup d); [right|].
    - apply by_head. rewrite advance_kept by done. rewrite Hck. f_equal. by eapply Hh. }
  destruct Hc as [Hc|Hc].
  - destruct Hc as [c Hc|d c Hd Hcd]; [apply Hhead; by eexists|]. by apply (Hup d); [left|].
  - destruct (Hop c Hc) as [?|[?|(d & Hd & Hcd)]]; [done|by apply Hhead|]. by apply (Hup d); [right|].
Qed.

(** ** Keyhive's answers *)
Context {CE : Codec Envelope} {CC : Codec Ciphertext}.
Context (present : bool) (epoch : Ciphertext → option (bytes * bytes)) (try_decrypt : Ciphertext → bytes → option bytes).
(** An envelope of [c], with the keys its ancestors have. *)
Definition names (c : bytes) (env : Envelope) : Prop := ∀ a k, ancestors env !! a = Some k → a ∈ carries c ∧ k = key_of a.
Context (epoch_opens : ∀ ct plain key env, epoch ct = Some (plain, key) → from_slice plain = Some env →
  key = key_of (content_ref ct) ∧ names (content_ref ct) env).
Context (key_opens : ∀ ct plain env, try_decrypt ct (key_of (content_ref ct)) = Some plain → from_slice plain = Some env → names (content_ref ct) env).
Definition own_refs (l : list (bytes * Ciphertext)) : Prop := ∀ p, p ∈ l → content_ref p.2 = p.1.

Lemma merged_lookup (new old : Heads) a k : merged new old !! a = Some k → new !! a = Some k ∨ old !! a = Some k.
Proof. unfold merged. rewrite lookup_union_Some_raw. tauto. Qed.
Lemma collected {X} (l : list (bytes * X)) k x : (list_to_map (reverse l) : gmap bytes X) !! k = Some x → (k, x) ∈ l.
Proof. intros H%elem_of_list_to_map_2. by rewrite elem_of_reverse in H. Qed.
Lemma decide_ok h opened_now known l r0 c0 r c : decide_ancestors h opened_now known l r0 c0 = (r, c) →
  (∀ p, p ∈ r ↔ p ∈ r0 ∨ p ∈ l ∧ ¬ (p.1 ∈ opened_now ∨ is_Some (h !! p.1) ∨ p.1 ∈ known)) ∧
  ∀ x, x ∈ c ↔ x ∈ c0 ∨ ∃ k, (x, k) ∈ l ∧ (x ∈ opened_now ∨ is_Some (h !! x) ∨ x ∈ known).
Proof.
  unfold decide_ancestors. revert r0 c0. induction l as [|q l IH]; intros r0 c0; cbn [foldl].
  { intros [= <- <-]. split; [intros p|intros x]; rewrite ?elem_of_nil; [tauto|]. split; [by left|]. intros [?|(k & ?%elem_of_nil & _)]; done. }
  destruct (bool_decide (q.1 ∈ opened_now) || bool_decide (is_Some (h !! q.1)) || bool_decide (q.1 ∈ known)) eqn:Hb; intros [Hr Hc]%IH; clear IH.
  - assert (q.1 ∈ opened_now ∨ is_Some (h !! q.1) ∨ q.1 ∈ known) as Hq by (rewrite !orb_true_iff, !bool_decide_eq_true in Hb; tauto).
    split; [intros p; rewrite Hr, elem_of_cons; naive_solver|]. intros x. rewrite Hc, elem_of_app, list_elem_of_singleton. setoid_rewrite elem_of_cons.
    split; [intros [[?| ->]|(k & ? & ?)]; [by left| |]; right; [exists q.2|exists k]; rewrite <- ?surjective_pairing; auto|].
    intros [?|(k & [<-|?] & ?)]; [by left; left|by left; right|]. right. eauto.
  - assert (¬ (q.1 ∈ opened_now ∨ is_Some (h !! q.1) ∨ q.1 ∈ known)) as Hq by (rewrite !orb_false_iff, !bool_decide_eq_false in Hb; tauto).
    split; [intros p; rewrite Hr, elem_of_app, list_elem_of_singleton, elem_of_cons; naive_solver|]. intros x. rewrite Hc. setoid_rewrite elem_of_cons.
    split; [intros [?|(k & ? & ?)]; [by left|right; eauto]|]. intros [?|(k & [<-|?] & ?)]; [by left|done|right; eauto].
Qed.
(** ** A private document *)
Section Private.
Context (causal_walk : list (Ciphertext * bytes) → list (bytes * bytes) * list (bytes * bytes)).
(** The walk answers what it opened, from its seeds down, and the keys it read of
    commits that are not here. *)
Context (walk_descends : ∀ seeds complete next, (∀ s, s ∈ seeds → s.2 = key_of (content_ref s.1)) → causal_walk seeds = (complete, next) →
  (∀ c, c ∈ complete.*1 → c ∈ (content_ref ∘ fst) <$> seeds ∨ ∃ d, d ∈ complete.*1 ∧ c ∈ carries d) ∧
  (∀ p, p ∈ next → p.2 = key_of p.1 ∧ ∃ d, d ∈ complete.*1 ∧ p.1 ∈ carries d)).
Record pass_ok (wanted : list (bytes * Ciphertext)) (o : opening) : Prop := {
  pk_opened c : c ∈ (op_opened o).*1 → c ∈ (op_reached o).*1;
  pk_reached p : p ∈ op_reached o → p.2 = key_of p.1 ∧ p.1 ∈ (op_opened o).*1;
  pk_ancestors a k : op_ancestors o !! a = Some k → k = key_of a ∧ ∃ d, d ∈ (op_opened o).*1 ∧ a ∈ carries d;
  pk_dark p : p ∈ op_dark o → p ∈ wanted;
}.
Lemma epoch_pass_ok wanted l o o' : own_refs l → (∀ p, p ∈ l → p ∈ wanted) → pass_ok wanted o → epoch_pass epoch l o = Ok o' → pass_ok wanted o'.
Proof.
  revert o. induction l as [|[c ct] l IH]; intros o Hl Hw Ho; cbn [epoch_pass]; [by intros [= <-]|].
  assert (own_refs l) as Hl' by (intros p Hp; apply Hl; by right). assert (∀ p, p ∈ l → p ∈ wanted) as Hw' by (intros p Hp; apply Hw; by right).
  assert (content_ref ct = c) as Hc by (apply (Hl (c, ct)); left). destruct Ho as [Ho1 Ho2 Ho3 Ho4].
  destruct (epoch ct) as [[plain key]|] eqn:He.
  - unfold chunk. destruct (from_slice plain) as [env|] eqn:Hf; [|done]. cbn. destruct (epoch_opens ct plain key env He Hf) as [Hk Hn]. rewrite Hc in *.
    apply IH; [done|done|]. split; cbn.
    + intros x. rewrite !fmap_app, !elem_of_app. cbn. intros [?|?]; [left; by apply Ho1|by right].
    + intros p. rewrite fmap_app, !elem_of_app. cbn. rewrite !list_elem_of_singleton. intros [Hp| ->]; [destruct (Ho2 p Hp); auto|]. cbn. auto.
    + intros a k [Ha|Ha]%merged_lookup; [destruct (Hn a k Ha) as [? ->]|destruct (Ho3 a k Ha) as (-> & d & ? & ?)]; (split; [done|]).
      * exists c. rewrite fmap_app, elem_of_app. cbn. rewrite list_elem_of_singleton. auto.
      * exists d. rewrite fmap_app, elem_of_app. auto.
    + done.
  - apply IH; [done|done|]. split; cbn; [done|done|done|]. intros p [?| ->%list_elem_of_singleton]%elem_of_app; [by apply Ho4|]. apply Hw. left.
Qed.
Lemma seeds_known h wanted o s : honest h → own_refs wanted → pass_ok wanted o → s ∈ seeds_of h wanted o →
  s.2 = key_of (content_ref s.1) ∧ (is_Some (h !! content_ref s.1) ∨ content_ref s.1 ∈ (op_reached o).*1).
Proof.
  intros Hh Hw [Ho1 Ho2 Ho3 Ho4] [Hs|Hs]%elem_of_app; apply list_elem_of_omap in Hs as ([c x] & Hin & Hs); cbn in Hs.
  - destruct (h !! c) as [k|] eqn:Hk; [|done]. injection Hs as <-. pose proof (Hw (c, x) (Ho4 _ Hin)) as E. cbn in *. rewrite E. split; [by eapply Hh|]. left. by exists k.
  - destruct (_ !! c) as [ct|] eqn:Hct; [|done]. injection Hs as <-. apply collected in Hct. pose proof (Hw (c, ct) Hct) as E. cbn in *. rewrite E.
    split; [by apply (Ho2 (c, x))|]. right. by apply (list_elem_of_fmap_2 fst _ (c, x)).
Qed.
Lemma dark_walk_ok h wanted o o' cov : honest h → own_refs wanted → pass_ok wanted o → dark_walk causal_walk h wanted o = (o', cov) →
  op_reached o' = op_reached o ∧ ∃ complete : list bytes,
    (∀ c, c ∈ complete → c ∈ (op_reached o).*1 ∨ is_Some (h !! c) ∨ ∃ d, d ∈ complete ∧ c ∈ carries d) ∧
    (∀ c, c ∈ cov → ∃ d, d ∈ complete ∧ c ∈ carries d) ∧
    (∀ a k, op_ancestors o' !! a = Some k → k = key_of a ∧ ∃ d, (d ∈ (op_opened o).*1 ∨ d ∈ complete) ∧ a ∈ carries d) ∧
    ∀ c, c ∈ (op_opened o').*1 → c ∈ (op_opened o).*1 ∨ c ∈ complete.
Proof.
  intros Hh Hw Ho. assert (∀ (l : list bytes), l = [] → (o', cov) = (o, []) → op_reached o' = op_reached o ∧ ∃ complete : list bytes,
    (∀ c, c ∈ complete → c ∈ (op_reached o).*1 ∨ is_Some (h !! c) ∨ ∃ d, d ∈ complete ∧ c ∈ carries d) ∧
    (∀ c, c ∈ cov → ∃ d, d ∈ complete ∧ c ∈ carries d) ∧
    (∀ a k, op_ancestors o' !! a = Some k → k = key_of a ∧ ∃ d, (d ∈ (op_opened o).*1 ∨ d ∈ complete) ∧ a ∈ carries d) ∧
    ∀ c, c ∈ (op_opened o').*1 → c ∈ (op_opened o).*1 ∨ c ∈ complete) as Hnone.
  { intros l -> [= -> ->]. split; [done|]. exists []. split_and!; [by intros c ?%elem_of_nil|by intros c ?%elem_of_nil| |by left].
    intros a k Ha. destruct (pk_ancestors _ _ Ho a k Ha) as (-> & d & ? & ?). eauto. }
  unfold dark_walk. destruct (op_dark o) as [|p dark] eqn:Hdark; [by intros E; apply (Hnone [])|].
  destruct (seeds_of h wanted o) as [|s seeds] eqn:Hseeds; [by intros E; apply (Hnone [])|].
  destruct (causal_walk (s :: seeds)) as [complete next] eqn:Hwalk. intros [<- <-]%pair_equal_spec.
  assert (∀ x, x ∈ s :: seeds → x.2 = key_of (content_ref x.1) ∧ (is_Some (h !! content_ref x.1) ∨ content_ref x.1 ∈ (op_reached o).*1)) as Hs.
  { intros x Hx. rewrite <- Hseeds in Hx. by apply (seeds_known h wanted). }
  destruct (walk_descends (s :: seeds) complete next) as [Hc Hn]; [intros x Hx; by apply Hs|done|]. split; [done|]. exists (complete.*1). split_and!.
  - intros c Hcc. destruct (Hc c Hcc) as [(x & -> & Hx)%list_elem_of_fmap|Hd]; [|by right; right]. destruct (Hs x Hx) as [_ [?|?]]; [right; by left|by left].
  - intros c [Hns Hcc]%list_elem_of_filter. destruct (Hc c Hcc) as [Hin|?]; [|done]. exfalso. apply Hns. by apply elem_of_list_to_set.
  - intros a k [Ha|Ha]%merged_lookup.
    + apply collected in Ha. destruct (Hn (a, k) Ha) as (Hk & d & Hd & Had). cbn in *. split; [done|]. exists d. auto.
    + destruct (pk_ancestors _ _ Ho a k Ha) as (-> & d & ? & ?). eauto.
  - intros c. cbn [op_opened]. rewrite fmap_app, elem_of_app. intros [?|(q & -> & Hq)%list_elem_of_fmap]; [by left|right].
    apply list_elem_of_omap in Hq as (x & Hx & Hq). destruct (_ !! x.1) as [plain|] eqn:Hp; [|done]. injection Hq as <-. cbn. apply collected in Hp.
    by apply (list_elem_of_fmap_2 fst _ (x.1, plain)).
Qed.
(** C20: opening a batch keeps everything readable: whatever could be read from the
    frontier before, and every commit the call opened, can be read from the
    frontier after it, under the keys the commits were sealed with. *)
Theorem open_keeps_readable v blobs known v' opened : honest (heads v) → own_refs (decode blobs) →
  open present epoch causal_walk v blobs known = (v', Ok opened) →
  honest (heads v') ∧ ∀ c, readable (heads v) c ∨ c ∈ opened.*1 → readable (heads v') c.
Proof.
  intros Hh Hw. unfold open, open_moves. destruct present; [|by intros [= <- <-]; split; [done|]; intros c [?|?%elem_of_nil]]. cbn [negb]. destruct (epoch_pass epoch (decode blobs) _) as [o|] eqn:Hpass; [|done].
  assert (pass_ok (decode blobs) o) as Ho.
  { eapply epoch_pass_ok; [done| |split|exact Hpass]; cbn; [done|by intros c ?%elem_of_nil|by intros p ?%elem_of_nil|by intros a k; rewrite lookup_empty|by intros p ?%elem_of_nil]. }
  cbn [mbind result_bind]. destruct (dark_walk causal_walk (heads v) (decode blobs) o) as [o' cov] eqn:Hdark.
  destruct (dark_walk_ok _ _ _ _ _ Hh Hw Ho Hdark) as (Hr & complete & Hc & Hcov & Hanc & Hop). clear Hdark.
  destruct (decide_ancestors _ _ _ _ _ _) as [reached covered] eqn:Hdec. apply decide_ok in Hdec as [Hdr Hdc]. rewrite Hr in *.
  intros [= <- <-]. cbn [heads advance].
  assert (honest_keys reached) as Hk.
  { intros p [Hp|[Hp _]]%Hdr; [by apply (pk_reached _ _ Ho)|]. apply elem_of_map_to_list' in Hp. by apply Hanc in Hp as [-> _]. }
  split; [by apply advance_honest|]. intros c Hcc.
  apply (advance_readable (heads v) reached covered (λ d, d ∈ (op_opened o).*1 ∨ d ∈ complete)); [done|done| | |destruct Hcc; auto].
  - intros x [Hx|(k & Hx & _)]%Hdc Hf _; [destruct (Hcov x Hx) as (d & ? & ?); eauto|]. apply elem_of_map_to_list in Hx. by apply Hanc in Hx as [_ ?].
  - assert (∀ x, x ∈ (op_reached o).*1 → x ∈ reached.*1) as Hin.
    { intros x (p & -> & Hp)%list_elem_of_fmap. apply list_elem_of_fmap_2. apply Hdr. by left. }
    intros x [Hx|Hx]; [left; by apply Hin, (pk_opened _ _ Ho)|]. destruct (Hc x Hx) as [?|[?|(d & ? & ?)]]; [left; by apply Hin|by right; left|right; right; eauto].
Qed.

End Private.

(** ** A raw tree *)
Definition is_opened (w : walking) (c : bytes) : Prop := is_Some (wk_opened w !! c).
Definition carried (w : walking) (c : bytes) : Prop := ∃ d, is_opened w d ∧ c ∈ carries d.
Record walking_ok (h : Heads) (w : walking) : Prop := {
  wk_ok_opened c : is_opened w c → c ∈ (wk_reached w).*1 ∨ is_Some (h !! c) ∨ carried w c;
  wk_ok_reached p : p ∈ wk_reached w → p.2 = key_of p.1;
  wk_ok_ancestors a k : wk_ancestors w !! a = Some k → k = key_of a ∧ carried w a;
}.
Definition queue_ok (h : Heads) (w : walking) (q : list (bytes * bytes)) : Prop :=
  ∀ p, p ∈ q → p.2 = key_of p.1 ∧ (is_Some (h !! p.1) ∨ carried w p.1).
Lemma opened_insert w c env x : is_opened w x → is_opened (opens_as c env w) x.
Proof. intros Hx. unfold is_opened in *. cbn. destruct (decide (c = x)) as [->|?]; [by rewrite lookup_insert_eq|by rewrite lookup_insert_ne]. Qed.
Lemma carried_mono w w' c : (∀ x, is_opened w x → is_opened w' x) → carried w c → carried w' c.
Proof. intros H (d & ? & ?). exists d. auto. Qed.
(** An envelope that opens from a key that was reached, held or carried. *)
Lemma opens_ok h w c env q : walking_ok h w → queue_ok h w q → names c env →
  c ∈ (wk_reached w).*1 ∨ is_Some (h !! c) ∨ carried w c →
  walking_ok h (opens_as c env w) ∧ queue_ok h (opens_as c env w) (q ++ map_to_list (ancestors env)).
Proof.
  intros [Ho Hr Ha] Hq Hn Hc. assert (∀ x, carried w x → carried (opens_as c env w) x) as Hm by (intros x; apply carried_mono, opened_insert).
  assert (is_opened (opens_as c env w) c) as Hcc by (unfold is_opened; cbn; by rewrite lookup_insert_eq). split.
  - split; cbn.
    + intros x [y Hy]. cbn in Hy. apply lookup_insert_Some in Hy as [[<- <-]|[Hne Hx]]; [destruct Hc as [?|[?|?]]; auto|]. destruct (Ho x (mk_is_Some _ _ Hx)) as [?|[?|?]]; auto.
    + exact Hr.
    + intros a k [Hk|Hk]%merged_lookup; [destruct (Hn a k Hk) as [? ->]; split; [done|]; by exists c|]. destruct (Ha a k Hk); auto.
  - intros p [Hp|Hp]%elem_of_app; [destruct (Hq p Hp) as [? [?|?]]; auto|]. apply elem_of_map_to_list' in Hp. destruct (Hn _ _ Hp) as [? ?].
    split; [done|]. right. by exists c.
Qed.
Section Scoped.
Context (what : string) (scope : bytes → Envelope → result string unit) (h : Heads).
Lemma scoped_chunk_Ok c plain env : scoped_chunk what scope c plain = Ok env → from_slice plain = Some env.
Proof. unfold scoped_chunk, chunk. destruct (from_slice plain); cbn; [|done]. destruct (scope _ _); [by intros [= ->]|done]. Qed.
Lemma scoped_pass_ok check l w q w' q' : own_refs l → walking_ok h w → queue_ok h w q →
  scoped_pass epoch what scope check l w q = Ok (w', q') → walking_ok h w' ∧ queue_ok h w' q'.
Proof.
  revert w q. induction l as [|[c ct] l IH]; intros w q Hl Hw Hq; cbn [scoped_pass]; [by intros [= <- <-]|].
  assert (own_refs l) as Hl' by (intros p Hp; apply Hl; by right). assert (content_ref ct = c) as Hc by (apply (Hl (c, ct)); left).
  destruct (check c ct); [|done]. cbn [mbind result_bind]. destruct (epoch ct) as [[plain key]|] eqn:He; [|by apply IH].
  destruct (scoped_chunk _ _ _ _) as [env|] eqn:Hs; [|done]. cbn [mbind result_bind]. apply scoped_chunk_Ok in Hs.
  destruct (epoch_opens ct plain key env He Hs) as [Hk Hn]. rewrite Hc in *.
  assert (walking_ok h (reaches_as c key w)) as Hw1.
  { destruct Hw as [Ho Hr Ha]. split; cbn; [|intros p [?| ->%list_elem_of_singleton]%elem_of_app; [by apply Hr|done]|exact Ha].
    intros x Hx. rewrite fmap_app, elem_of_app. destruct (Ho x Hx) as [?|[?|?]]; auto. }
  destruct (opens_ok h (reaches_as c key w) c env q) as [H1 H2]; [done|done|done| |by apply IH].
  left. cbn. rewrite fmap_app, elem_of_app. right. by apply list_elem_of_singleton.
Qed.
Lemma walk_queue_ok encrypted n q w w' : (∀ c ct, encrypted !! c = Some ct → content_ref ct = c) → walking_ok h w → queue_ok h w q →
  walk_queue try_decrypt what scope encrypted n q w = Ok w' → walking_ok h w'.
Proof.
  intros He. revert q w. induction n as [n IH] using lt_wf_ind. intros q. induction q as [|[c k] q IHq]; intros w Hw Hq; [destruct n; by intros [= <-]|].
  assert (queue_ok h w q) as Hq' by (intros p Hp; apply Hq; by right). destruct (Hq (c, k)) as [Hk Hc]; [left|]. cbn in Hk, Hc.
  destruct n as [|n]; cbn [walk_queue].
  all: destruct (bool_decide _); [apply IHq; [by destruct Hw; split|done]|].
  all: destruct (encrypted !! c) as [ct|] eqn:Hct; [|apply IHq; [by destruct Hw; split|done]].
  all: destruct (try_decrypt ct k) as [plain|] eqn:Hd; [|by apply IHq].
  all: destruct (scoped_chunk _ _ _ _) as [env|] eqn:Hs; [|done]; cbn [mbind result_bind].
  - by intros [= <-].
  - apply scoped_chunk_Ok in Hs. assert (names c env) as Hn.
    { pose proof (He c ct Hct) as E. rewrite <- E. eapply key_opens; [|exact Hs]. rewrite E, <- Hk. exact Hd. }
    destruct (opens_ok h w c env q) as [H1 H2]; [done|done|done|tauto|]. apply IH; [lia|done|done].
Qed.
End Scoped.
Lemma raw_batch_refs digest_refs parents l e e' : (∀ c ct, e !! c = Some ct → content_ref ct = c) → raw_batch digest_refs parents l e = Ok e' →
  ∀ c ct, e' !! c = Some ct → content_ref ct = c.
Proof.
  revert e. induction l as [|[c ct] l IH]; intros e He; cbn [raw_batch]; [by intros [= <-]|].
  destruct (bool_decide_reflect (content_ref ct = c)) as [Hc|]; [|done]. cbn [negb]. destruct (parents !! c); [|done].
  destruct (negb _); [done|]. apply IH. intros x ct' [[<- <-]|[_ ?]]%lookup_insert_Some; [done|by apply He].
Qed.
Lemma queue_held h w (l : list (bytes * bytes)) : honest h → (∀ p, p ∈ l → h !! p.1 = Some p.2) → queue_ok h w l.
Proof. intros Hh Hl p Hp. pose proof (Hl p Hp) as E. split; [by eapply Hh|left; by exists p.2]. Qed.
Lemma walking0_ok h : walking_ok h walking0.
Proof. split; cbn; [intros c [x Hx]; cbn in Hx; by rewrite lookup_empty in Hx|by intros p ?%elem_of_nil|by intros a k; rewrite lookup_empty]. Qed.
(** the same of a raw tree's batch, whose envelopes are checked against its
    signed parents before anything they name is followed. *)
Theorem open_raw_keeps_readable digest_refs v blobs parents v' opened : honest (heads v) →
  open_raw present epoch try_decrypt digest_refs v blobs parents = (v', Ok opened) →
  honest (heads v') ∧ ∀ c, readable (heads v) c ∨ c ∈ opened.*1 → readable (heads v') c.
Proof.
  intros Hh. unfold open_raw. destruct present; [|by intros [= <- <-]; split; [done|]; intros c [?|?%elem_of_nil]]. cbn [negb]. destruct (raw_batch _ _ _ _) as [enc|] eqn:Hb; [|done]. cbn [mbind result_bind].
  assert (∀ c ct, enc !! c = Some ct → content_ref ct = c) as He by (eapply raw_batch_refs; [|exact Hb]; intros c ct; by rewrite lookup_empty).
  destruct (scoped_pass _ _ _ _ _ _ _) as [[w q]|] eqn:Hp; [|done]. cbn [mbind result_bind fst snd].
  apply (scoped_pass_ok _ _ (heads v)) in Hp as [Hw Hq]; [|by intros [c ct] ?%elem_of_map_to_list; apply He|apply walking0_ok|by intros p ?%elem_of_nil].
  destruct (walk_queue _ _ _ _ _ _ _) as [w'|] eqn:Hwalk; [|done].
  eapply (walk_queue_ok _ _ (heads v)) in Hwalk; [|done|done|].
  2: { intros p [?|Hin]%elem_of_app; [by apply Hq|]. revert p Hin. apply queue_held; [done|]. intros p (x & _ & Hx)%list_elem_of_omap.
    destruct (bool_decide _); [done|]. destruct (heads v !! x.1) as [k|] eqn:Hk; [|done]. by injection Hx as <-. }
  destruct Hwalk as [Ho Hr Ha]. clear w q Hw Hq. destruct (decide_ancestors _ _ _ _ _ _) as [reached covered] eqn:Hdec. apply decide_ok in Hdec as [Hdr Hdc].
  intros [= <- <-]. cbn [heads advance].
  assert (honest_keys (filter (λ p, p.1 ∉ covered) reached)) as Hk.
  { intros p [_ [Hp|[Hp _]]%Hdr]%list_elem_of_filter; [by apply Hr|]. apply elem_of_map_to_list' in Hp. by apply Ha in Hp as [-> _]. }
  split; [by apply advance_honest|]. intros c Hc.
  apply (advance_readable (heads v) _ covered (is_opened w')); [done|done| | |].
  - intros x [Hx|(k & Hx & _)]%Hdc Hf _; [by apply elem_of_nil in Hx|]. apply elem_of_map_to_list in Hx. by apply Ha in Hx as [_ ?].
  - intros x Hx. destruct (Ho x Hx) as [Hin|[?|?]]; [|by right; left|by right; right]. destruct (decide (x ∈ covered)) as [Hcv|Hcv].
    + right; right. apply Hdc in Hcv as [Hcv|(k & Hcv & _)]; [by apply elem_of_nil in Hcv|]. apply elem_of_map_to_list in Hcv. by apply Ha in Hcv as [_ ?].
    + left. apply list_elem_of_fmap in Hin as (p & -> & Hp). apply list_elem_of_fmap_2, list_elem_of_filter. split; [done|]. apply Hdr. by left.
  - destruct Hc as [?|((x & k) & -> & Hx)%list_elem_of_fmap]; [by left|right]. apply elem_of_map_to_list in Hx. by exists k.
Qed.

(** *** What a raw batch opens *)
Section Reach.
(** The envelope inside each commit, which both ways of opening it find. *)
Context (contents : bytes → option Envelope).
Context (epoch_contents : ∀ ct plain key, epoch ct = Some (plain, key) → from_slice plain = contents (content_ref ct)).
Context (key_contents : ∀ ct plain, try_decrypt ct (key_of (content_ref ct)) = Some plain → from_slice plain = contents (content_ref ct)).
Context (encrypted : gmap bytes Ciphertext) (h : Heads).
Context (own : ∀ c ct, encrypted !! c = Some ct → content_ref ct = c).
Definition opens_by_key (c : bytes) : Prop := ∃ ct plain, encrypted !! c = Some ct ∧ try_decrypt ct (key_of c) = Some plain.
(** A commit of the batch opens under the epoch, under a key that is held, or under
    one that the envelope of a commit that opens carries. *)
Inductive opens : bytes → Prop :=
| opens_now c ct x : encrypted !! c = Some ct → epoch ct = Some x → opens c
| opens_held c : is_Some (h !! c) → opens_by_key c → opens c
| opens_below d env c : opens d → contents d = Some env → is_Some (ancestors env !! c) → opens_by_key c → opens c.
Record reaching (w : walking) (q : list (bytes * bytes)) : Prop := {
  rc_opened c p : wk_opened w !! c = Some p → opens c ∧ ∃ env, contents c = Some env ∧ p = plaintext env;
  rc_queue p : p ∈ q → opens_by_key p.1 → opens p.1;
  rc_below d env c : is_opened w d → contents d = Some env → is_Some (ancestors env !! c) → opens_by_key c → is_opened w c ∨ (c, key_of c) ∈ q;
}.
Lemma reaching_opens w q c env : reaching w q → (∀ a k, ancestors env !! a = Some k → k = key_of a) →
  opens c → contents c = Some env → reaching (opens_as c env w) (q ++ map_to_list (ancestors env)).
Proof.
  intros [Ho Hq Hb] Hn Hc He. split.
  - intros x p. cbn. intros [[<- <-]|[_ Hx]]%lookup_insert_Some; [eauto|by apply Ho].
  - intros [a k] [Hp|Hp]%elem_of_app; [by apply Hq|]. apply elem_of_map_to_list in Hp. cbn. intros Hk. eapply opens_below; [exact Hc|exact He|by eexists|done].
  - intros d env' a Hd He' Ha Hk. assert (d = c ∨ is_opened w d) as [->|Hd'].
    { destruct Hd as [y Hy]. cbn in Hy. apply lookup_insert_Some in Hy as [[-> _]|[_ Hy]]; [by left|right; by exists y]. }
    + right. apply elem_of_app. right. destruct Ha as [k Ha]. assert (env' = env) as -> by congruence. rewrite (Hn a k Ha) in Ha. by apply elem_of_map_to_list.
    + destruct (Hb d env' a Hd' He' Ha Hk) as [?|?]; [left; by apply opened_insert|right; apply elem_of_app; by left].
Qed.
Lemma scoped_pass_reaches what scope check l w q w' q' : (∀ p, p ∈ l → encrypted !! p.1 = Some p.2) → reaching w q →
  scoped_pass epoch what scope check l w q = Ok (w', q') →
  reaching w' q' ∧ (∀ c, is_opened w c → is_opened w' c) ∧ ∀ p, p ∈ l → is_Some (epoch p.2) → is_opened w' p.1.
Proof.
  revert w q. induction l as [|[c ct] l IH]; intros w q Hl Hr; cbn [scoped_pass]; [intros [= <- <-]; split_and!; [done|done|by intros p ?%elem_of_nil]|].
  assert (∀ p, p ∈ l → encrypted !! p.1 = Some p.2) as Hl' by (intros p Hp; apply Hl; by right). assert (encrypted !! c = Some ct) as Hc by (apply (Hl (c, ct)); left).
  destruct (check c ct); [|done]. cbn [mbind result_bind]. destruct (epoch ct) as [[plain key]|] eqn:He.
  - destruct (scoped_chunk _ _ _ _) as [env|] eqn:Hs; [|done]. cbn [mbind result_bind]. apply scoped_chunk_Ok in Hs.
    destruct (epoch_opens ct plain key env He Hs) as [_ Hn]. pose proof (epoch_contents ct plain key He) as Hcon. rewrite Hs, (own c ct Hc) in Hcon. rewrite (own c ct Hc) in Hn.
    intros Hp. destruct (IH _ _ Hl' (reaching_opens (reaches_as c key w) q c env ltac:(destruct Hr; by split) (λ a k Ha, proj2 (Hn a k Ha)) (opens_now c ct _ Hc He) (eq_sym Hcon)) Hp) as (H1 & H2 & H3).
    split_and!; [done|intros x Hx; by apply H2, opened_insert|]. intros p [->|Hin]%elem_of_cons; [|by apply H3]. intros _. apply H2. unfold is_opened. cbn. by rewrite lookup_insert_eq.
  - intros Hp. destruct (IH _ _ Hl' Hr Hp) as (H1 & H2 & H3). split_and!; [done|done|]. intros p [->|Hin]%elem_of_cons; [|by apply H3]. cbn. rewrite He. by intros [].
Qed.
Definition unopened (w : walking) : nat := size (filter (λ p : bytes * Ciphertext, wk_opened w !! p.1 = None) encrypted).
Lemma unopened_opens w c ct env : encrypted !! c = Some ct → wk_opened w !! c = None → unopened w = S (unopened (opens_as c env w)).
Proof.
  intros Hc Hn. unfold unopened.
  assert (filter (λ p : bytes * Ciphertext, wk_opened w !! p.1 = None) encrypted = <[c:=ct]> (filter (λ p : bytes * Ciphertext, wk_opened (opens_as c env w) !! p.1 = None) encrypted)) as ->.
  { apply map_eq. intros x. cbn. destruct (decide (c = x)) as [<-|Hne].
    - rewrite lookup_insert_eq. by apply map_lookup_filter_Some_2.
    - rewrite lookup_insert_ne by done. rewrite !map_lookup_filter. destruct (encrypted !! x); cbn; [|done]. apply option_guard_iff. cbn. by rewrite lookup_insert_ne. }
  rewrite map_size_insert_None; [done|]. apply map_lookup_filter_None_2. right. intros y Hy. cbn. by rewrite lookup_insert_eq.
Qed.
Lemma walk_queue_reaches what scope n q w w' : (unopened w ≤ n)%nat → walking_ok h w → queue_ok h w q → reaching w q →
  walk_queue try_decrypt what scope encrypted n q w = Ok w' → reaching w' [] ∧ (∀ c, is_opened w c → is_opened w' c) ∧ ∀ p, p ∈ q → opens_by_key p.1 → is_opened w' p.1.
Proof.
  revert q w. induction n as [n IH] using lt_wf_ind. intros q. induction q as [|[c k] q IHq]; intros w Hf Hw Hq Hr.
  { destruct n; intros [= <-]; (split_and!; [done|done|by intros p ?%elem_of_nil]). }
  assert (queue_ok h w q) as Hq' by (intros p Hp; apply Hq; by right). destruct (Hq (c, k)) as [Hk Hcar]; [left|]. cbn in Hk, Hcar. subst k.
  assert (∀ w1, wk_opened w1 = wk_opened w → walking_ok h w1 → (is_opened w c ∨ ¬ opens_by_key c) →
    walk_queue try_decrypt what scope encrypted n q w1 = Ok w' →
    reaching w' [] ∧ (∀ x, is_opened w x → is_opened w' x) ∧ ∀ p, p ∈ (c, key_of c) :: q → opens_by_key p.1 → is_opened w' p.1) as Hskip.
  { intros w1 E Hw1 Hc Hp. destruct (IHq w1) as (H1 & H2 & H3); [unfold unopened; by rewrite E|done| | |done|].
    - intros p Hin. destruct (Hq' p Hin) as [? [?|(d & Hd & ?)]]; (split; [done|]); [by left|right; exists d; split; [|done]]. unfold is_opened. by rewrite E.
    - destruct Hr as [R1 R2 R3]. split; unfold is_opened; rewrite ?E; [exact R1|intros p Hin; apply R2; by right|].
      intros d env a Hd He Ha Hwa. destruct (R3 d env a Hd He Ha Hwa) as [?|[E1|?]%elem_of_cons]; [by left| |by right]. injection E1 as ->. destruct Hc; [by left|done].
    - split_and!; [done|unfold is_opened in *; by rewrite E in H2|]. intros p [->|Hin]%elem_of_cons Hpk; [|by apply H3]. cbn in *. destruct Hc; [|done]. apply H2. unfold is_opened. by rewrite E. }
  assert (∀ m, n = S m → ∀ ct plain env, encrypted !! c = Some ct → wk_opened w !! c = None → try_decrypt ct (key_of c) = Some plain → from_slice plain = Some env →
    walk_queue try_decrypt what scope encrypted m (q ++ map_to_list (ancestors env)) (opens_as c env w) = Ok w' →
    reaching w' [] ∧ (∀ x, is_opened w x → is_opened w' x) ∧ ∀ p, p ∈ (c, key_of c) :: q → opens_by_key p.1 → is_opened w' p.1) as Hopen.
  { intros m -> ct plain env Hct Hno Hd Hs Hp. pose proof (own c ct Hct) as E. rewrite <- E in Hd at 1.
    assert (names c env) as Hn by (rewrite <- E; by eapply key_opens). pose proof (key_contents ct plain Hd) as Hcon. rewrite Hs, E in Hcon. rewrite E in Hd.
    assert (opens c) as Hoc by (apply (rc_queue _ _ Hr (c, key_of c)); [left|by exists ct, plain]).
    destruct (opens_ok h w c env q) as [H1 H2]; [done|done|done|tauto|].
    destruct (IH m) with (q := q ++ map_to_list (ancestors env)) (w := opens_as c env w) as (G1 & G2 & G3); [lia| |done|done| |done|].
    - rewrite (unopened_opens w c ct env Hct Hno) in Hf. lia.
    - assert (reaching w ((c, key_of c) :: q)) as [R1 R2 R3] by done.
      assert (reaching (opens_as c env w) (((c, key_of c) :: q) ++ map_to_list (ancestors env))) as [S1 S2 S3].
      { apply reaching_opens; [done|by intros a k Ha; apply Hn|done|done]. }
      split; [done|intros p Hin; apply S2; by right|]. intros d env' a Hda He' Ha Hwa. destruct (S3 d env' a Hda He' Ha Hwa) as [?|[E1|?]%elem_of_cons]; [by left| |by right].
      injection E1 as ->. left. unfold is_opened. cbn. by rewrite lookup_insert_eq.
    - split_and!; [done|intros x Hx; by apply G2, opened_insert|]. intros p [->|Hin]%elem_of_cons Hpk; [apply G2; unfold is_opened; cbn; by rewrite lookup_insert_eq|]. apply G3; [apply elem_of_app; by left|done]. }
  destruct n as [|n]; cbn [walk_queue].
  all: destruct (bool_decide_reflect (is_Some (wk_opened w !! c))) as [Hin|Hno]; [apply Hskip; [done|by destruct Hw; split|by left]|].
  all: destruct (encrypted !! c) as [ct|] eqn:Hct; [|apply Hskip; [done|by destruct Hw; split|right; intros (ct & plain & ? & _); congruence]].
  all: destruct (try_decrypt ct (key_of c)) as [plain|] eqn:Hd; [|apply Hskip; [done|done|right; intros (ct' & plain & ? & ?); congruence]].
  all: destruct (scoped_chunk _ _ _ _) as [env|] eqn:Hs; [|done]; cbn [mbind result_bind].
  - exfalso. rewrite (unopened_opens w c ct env Hct) in Hf by (by apply eq_None_not_Some). cbn in Hf. lia.
  - apply scoped_chunk_Ok in Hs. eapply Hopen; [done|reflexivity| |exact Hd|exact Hs]. by apply eq_None_not_Some.
Qed.
End Reach.
Section Exact.
Context (contents : bytes → option Envelope)
  (epoch_contents : ∀ ct plain key, epoch ct = Some (plain, key) → from_slice plain = contents (content_ref ct))
  (key_contents : ∀ ct plain, try_decrypt ct (key_of (content_ref ct)) = Some plain → from_slice plain = contents (content_ref ct)).
(** C21: a raw batch opens to exactly what can be reached in it: a commit is in the
    answer when the epoch opens it, or a key that is held or that the envelope of
    another opened commit carries; and what it opens to is what was sealed in it. *)
Theorem open_raw_opens_reachable digest_refs v blobs parents v' opened encrypted : honest (heads v) →
  raw_batch digest_refs parents (decode blobs) ∅ = Ok encrypted →
  open_raw true epoch try_decrypt digest_refs v blobs parents = (v', Ok opened) →
  ∀ c p, (c, p) ∈ opened ↔ opens contents encrypted (heads v) c ∧ ∃ env, contents c = Some env ∧ p = plaintext env.
Proof.
  intros Hh Hb. unfold open_raw. rewrite Hb. cbn [negb mbind result_bind].
  assert (∀ c ct, encrypted !! c = Some ct → content_ref ct = c) as He by (eapply raw_batch_refs; [|exact Hb]; intros c ct; by rewrite lookup_empty).
  destruct (scoped_pass _ _ _ _ _ _ _) as [[w q]|] eqn:Hp; [|done]. cbn [mbind result_bind fst snd].
  pose proof Hp as Hok. apply (scoped_pass_ok _ _ (heads v)) in Hok as [Hw Hq]; [|by intros [c ct] ?%elem_of_map_to_list; apply He|apply walking0_ok|by intros p ?%elem_of_nil].
  eapply (scoped_pass_reaches contents epoch_contents encrypted (heads v) He) in Hp as (Hr & _ & Hnow); [|by intros p ?%elem_of_map_to_list'|].
  2: { split; [intros c p; cbn; by rewrite lookup_empty|by intros p ?%elem_of_nil|intros d env c [x Hx]; cbn in Hx; by rewrite lookup_empty in Hx]. }
  destruct (walk_queue _ _ _ _ _ _ _) as [w'|] eqn:Hwalk; [|done].
  set (held := omap _ _) in Hwalk.
  assert (∀ p, p ∈ held → heads v !! p.1 = Some p.2) as Hheld.
  { intros p (x & _ & Hx)%list_elem_of_omap. destruct (bool_decide _); [done|]. destruct (heads v !! x.1) as [k|] eqn:Hk; [|done]. by injection Hx as <-. }
  eapply (walk_queue_reaches contents key_contents encrypted (heads v) He) in Hwalk as (Hr' & Hm & Hall); [|by apply map_subseteq_size, map_filter_subseteq|done| |].
  2: { intros p [?|Hin]%elem_of_app; [by apply Hq|]. revert p Hin. by apply queue_held. }
  2: { destruct Hr as [R1 R2 R3]. split; [done| |intros d env a Hd Hen Ha Hk; destruct (R3 d env a Hd Hen Ha Hk); [by left|right; apply elem_of_app; by left]].
    intros p [?|Hin]%elem_of_app Hk; [by apply R2|]. apply opens_held; [by eexists; apply Hheld|done]. }
  destruct (decide_ancestors _ _ _ _ _ _) as [reached covered]. intros [= _ <-] c p. rewrite elem_of_map_to_list.
  assert (∀ c, opens contents encrypted (heads v) c → is_opened w' c) as Hin.
  { intros x Hx. induction Hx as [x ct y Hx Hy|x [k Hx] Hk|d env x Hd IH Hen Hx Hk].
    - apply Hm. by apply (Hnow (x, ct)); [apply elem_of_map_to_list|eexists].
    - destruct (decide (is_Some (wk_opened w !! x))) as [Hs|Hn]; [by apply Hm|]. apply (Hall (x, k)); [|done]. apply elem_of_app. right.
      destruct Hk as (ct & plain & Hct & _). apply list_elem_of_omap. exists (x, ct). split; [by apply elem_of_map_to_list|]. cbn. by rewrite bool_decide_false, Hx.
    - destruct (rc_below _ _ _ _ _ Hr' d env x IH Hen Hx Hk) as [?|?%elem_of_nil]; done. }
  split; [apply (rc_opened _ _ _ _ _ Hr')|]. intros [Ho (env & Hen & ->)]. destruct (Hin c Ho) as [y Hy].
  destruct (rc_opened _ _ _ _ _ Hr' c y Hy) as (_ & env' & Hen' & ->). congruence.
Qed.
End Exact.

(** ** What is written *)
Definition frontier_of (v : Frontiers) (shared : option bytes) : Heads :=
  match shared with None => heads v | Some d => default ∅ (shared_heads v !! d) end.
(** C22: sealing a change and confirming it keeps everything readable: the heads it
    replaces are the ones whose keys are read back out of the very blob that was
    written, also when other commits moved the frontier in between. *)
Theorem confirm_keeps_readable (found : result string unit) (encrypt : bytes → result string (Ciphertext * bytes)) v shared cref preds change s v' :
  honest (frontier_of v shared) → honest (frontier_of v' shared) →
  (∀ plain c, encrypt plain = Ok c → c.2 = key_of cref ∧ try_decrypt c.1 c.2 = Some plain) →
  seal_with found encrypt (frontier_of v shared) shared cref preds change = Ok s →
  (∀ ct plain env, from_slice (sd_blob s) = Some ct → try_decrypt ct (sd_key s) = Some plain → from_slice plain = Some env → dom (ancestors env) ⊆ carries cref) →
  honest (frontier_of (confirm s v') shared) ∧
  ∀ c, readable (frontier_of v' shared) c ∨ c = cref → readable (frontier_of (confirm s v') shared) c.
Proof.
  intros Hh Hh' Henc. unfold seal_with. destruct found; [|done]. cbn [mbind result_bind]. destruct (to_vec _) as [plain|] eqn:Hv; [|done]. cbn [ok_or mbind result_bind].
  destruct (encrypt plain) as [c|] eqn:He; [|done]. cbn [mbind result_bind]. destruct (to_vec c.1) as [blob|] eqn:Hblob; [|done]. cbn. intros [= <-] Hcar.
  apply codec_to_vec in Hv, Hblob. destruct (Henc plain c He) as [Hkey Hdec]. specialize (Hcar _ _ _ Hblob Hdec Hv). cbn in Hcar.
  assert (frontier_of (confirm (mkSealed blob cref c.2 ((map_to_list (held_ancestors (frontier_of v shared) preds)).*1) shared) v') shared =
    advance_heads (frontier_of v' shared) [(cref, c.2)] ((map_to_list (held_ancestors (frontier_of v shared) preds)).*1)) as ->.
  { destruct shared as [d|]; cbn; [by rewrite lookup_insert_eq|done]. }
  assert (honest_keys [(cref, c.2)]) as Hk by (by intros p ->%list_elem_of_singleton). split; [by apply advance_honest|]. intros x Hx.
  apply (advance_readable _ _ _ (λ d, d = cref)); [done|done| | |done].
  - intros y ((z & k) & -> & Hy)%list_elem_of_fmap _ _. apply elem_of_map_to_list in Hy. exists cref. split; [done|]. apply Hcar, elem_of_dom. by exists k.
  - intros y ->. left. by apply list_elem_of_singleton.
Qed.
End Readable.

Module Concrete.
Import ContactsWire.ToySigned.
#[local] Program Instance wire_envelope : Wire Envelope :=
  wire_by (U := bytes * list (bytes * bytes)) (λ e, (plaintext e, map_to_list (ancestors e))) (λ t, mkEnvelope t.1 (list_to_map t.2)) _.
Next Obligation. intros []. cbn. by rewrite list_to_map_to_list. Qed.
#[local] Program Instance wire_ciphertext : Wire Ciphertext :=
  wire_by (λ c, (content_ref c, pred_refs c, ct_body c)) (λ t, mkCiphertext t.1.1 t.1.2 t.2) _.
Next Obligation. by intros []. Qed.
#[local] Program Instance wire_codec `{Wire T} : Codec T := {| to_vec x := Some (write x); from_slice b := whole (parse b) |}.
Next Obligation. intros T ? x. exists (write x). split; [done|]. pose proof (parse_write x []) as E. rewrite app_nil_r in E. by rewrite E. Qed.
#[local] Instance envelope_eq_dec : EqDecision Envelope.
Proof. solve_decision. Defined.

(** ** A root, and two changes made on it at once *)
Definition root : bytes := [Byte.x01].
Definition here : bytes := [Byte.x02].
Definition there : bytes := [Byte.x03].
Definition key_of (c : bytes) : bytes := Byte.x09 :: c.
Definition contents (c : bytes) : option Envelope :=
  if bool_decide (c = root) then Some (mkEnvelope (as_bytes "r") ∅)
  else if bool_decide (c = here) then Some (mkEnvelope (as_bytes "h") {[root := key_of root]})
  else if bool_decide (c = there) then Some (mkEnvelope (as_bytes "g") {[root := key_of root]})
  else None.
Definition carries (c : bytes) : gset bytes := match contents c with Some env => dom (ancestors env) | None => ∅ end.
Definition height (c : bytes) : nat := if bool_decide (c = root) then 1 else 0.
(** What Keyhive opens: what was sealed, under the current epoch unless it is older. *)
Definition genuine (ct : Ciphertext) : bool := bool_decide (from_slice (ct_body ct) = contents (content_ref ct)).
Definition epoch (ct : Ciphertext) : option (bytes * bytes) :=
  if genuine ct && bool_decide (pred_refs ct ≠ [Byte.x00]) then Some (ct_body ct, key_of (content_ref ct)) else None.
Definition try_decrypt (ct : Ciphertext) (k : bytes) : option bytes :=
  if genuine ct && bool_decide (k = key_of (content_ref ct)) then Some (ct_body ct) else None.
Definition causal_walk (seeds : list (Ciphertext * bytes)) : list (bytes * bytes) * list (bytes * bytes) :=
  let cs := (content_ref ∘ fst) <$> seeds in
  (omap (λ c, (λ env, (c, plaintext env)) <$> contents c) (cs ++ (cs ≫= λ c, elements (carries c))), []).
Definition older : bytes := [Byte.x00].
Definition sealed_as (preds c : bytes) : bytes * bytes :=
  (c, write (mkCiphertext c preds (default [] (write <$> contents c)))).
Lemma contents_cases d env : contents d = Some env → ancestors env = ∅ ∨ d ≠ root ∧ ancestors env = {[root := key_of root]}.
Proof. unfold contents. repeat case_bool_decide; intros [= <-]; auto. Qed.
Lemma contents_names c env : contents c = Some env → names key_of carries c env.
Proof.
  intros Hc a k Ha. split; [unfold carries; rewrite Hc; apply elem_of_dom; by exists k|].
  destruct (contents_cases c env Hc) as [E|[_ E]]; rewrite E in Ha; [by rewrite lookup_empty in Ha|]. by apply lookup_singleton_Some in Ha as [<- <-].
Qed.
Lemma acyclic d c : c ∈ carries d → (height d < height c)%nat.
Proof.
  unfold carries. destruct (contents d) as [env|] eqn:Hd; [|by intros ?%elem_of_empty].
  destruct (contents_cases d env Hd) as [->|[Hn ->]]; [rewrite dom_empty; by intros ?%elem_of_empty|].
  rewrite dom_singleton. intros ->%elem_of_singleton. unfold height. rewrite (bool_decide_false _ Hn), bool_decide_true by done. lia.
Qed.
Lemma epoch_contents ct plain key : epoch ct = Some (plain, key) → key = key_of (content_ref ct) ∧ from_slice plain = contents (content_ref ct).
Proof. unfold epoch, genuine. case_bool_decide; [|done]. destruct (bool_decide _); [|done]. by intros [= <- <-]. Qed.
Lemma epoch_opens ct plain key env : epoch ct = Some (plain, key) → from_slice plain = Some env → key = key_of (content_ref ct) ∧ names key_of carries (content_ref ct) env.
Proof. intros [? He]%epoch_contents Hs. split; [done|]. apply contents_names. by rewrite <- He. Qed.
Lemma key_contents ct plain : try_decrypt ct (key_of (content_ref ct)) = Some plain → from_slice plain = contents (content_ref ct).
Proof. unfold try_decrypt, genuine. case_bool_decide; [|done]. destruct (bool_decide _); [|done]. by intros [= <-]. Qed.
Lemma key_opens ct plain env : try_decrypt ct (key_of (content_ref ct)) = Some plain → from_slice plain = Some env → names key_of carries (content_ref ct) env.
Proof. intros He%key_contents Hs. apply contents_names. by rewrite <- He. Qed.
Lemma walk_descends seeds complete next : (∀ s, s ∈ seeds → s.2 = key_of (content_ref s.1)) → causal_walk seeds = (complete, next) →
  (∀ c, c ∈ complete.*1 → c ∈ (content_ref ∘ fst) <$> seeds ∨ ∃ d, d ∈ complete.*1 ∧ c ∈ carries d) ∧
  (∀ p, p ∈ next → p.2 = key_of p.1 ∧ ∃ d, d ∈ complete.*1 ∧ p.1 ∈ carries d).
Proof.
  intros _. unfold causal_walk. intros [= <- <-]. split; [|by intros p ?%elem_of_nil].
  intros c (p & -> & Hp)%list_elem_of_fmap. apply list_elem_of_omap in Hp as (x & Hx & Hp).
  destruct (contents x) as [env|] eqn:He; [|done]. injection Hp as <-. cbn. apply elem_of_app in Hx as [?|Hx]; [by left|right].
  apply list_elem_of_bind in Hx as (d & Hd & Hin). apply elem_of_elements in Hd. exists d. split; [|done].
  destruct (contents d) as [env'|] eqn:Hed; [|unfold carries in Hd; rewrite Hed in Hd; by apply elem_of_empty in Hd].
  apply list_elem_of_fmap. exists (d, plaintext env'). split; [done|]. apply list_elem_of_omap. exists d. split; [apply elem_of_app; by left|by rewrite Hed].
Qed.
(** ** A device that made its change, and a peer's change arriving *)
Definition document : bytes := [Byte.x0a].
Definition at_here : Heads := {[here := key_of here]}.
Definition v0 : Frontiers := mkFrontiers at_here {[document := at_here]}.
Lemma honest_at_here : honest key_of at_here.
Proof. unfold at_here. by intros c k [<- <-]%lookup_singleton_Some. Qed.
Lemma own_refs_of (l : list (bytes * Ciphertext)) : forallb (λ p, bool_decide (content_ref p.2 = p.1)) l = true → own_refs l.
Proof. intros H p Hp. rewrite forallb_forall in H. apply list_elem_of_In in Hp. by apply H, bool_decide_eq_true in Hp. Qed.
(** The peer's change and the root it was made on: the root is of an older epoch. *)
Definition batch : list (bytes * bytes) := [sealed_as older root; sealed_as [] there].
Lemma batch_refs : own_refs (decode batch).
Proof. apply own_refs_of. vm_compute. reflexivity. Qed.
Lemma open_keeps_readable_witness : ∃ v', open true epoch causal_walk v0 batch ∅ = (v', Ok [(there, as_bytes "g"); (root, as_bytes "r")]) ∧
  readable key_of carries (heads v') here ∧ readable key_of carries (heads v') there ∧ readable key_of carries (heads v') root.
Proof.
  assert (open true epoch causal_walk v0 batch ∅ = ((open true epoch causal_walk v0 batch ∅).1, Ok [(there, as_bytes "g"); (root, as_bytes "r")])) as He by (vm_compute; reflexivity).
  eexists. split; [exact He|].
  destruct (open_keeps_readable key_of carries height acyclic true epoch epoch_opens causal_walk walk_descends v0 batch ∅ _ _ honest_at_here batch_refs He) as [_ H].
  split_and!; apply H; [left; by apply by_head|right|right]; apply list_elem_of_In; vm_compute; auto.
Defined.
Definition digest_refs (l : list bytes) : bytes := mjoin l.
Definition signed : gmap bytes (gset bytes) := {[root := ∅; here := {[root]}; there := {[root]}]}.
Definition raw : list (bytes * bytes) := [sealed_as [] root; sealed_as root there].
Lemma open_raw_keeps_readable_witness : ∃ v', open_raw true epoch try_decrypt digest_refs v0 raw signed = (v', Ok [(root, as_bytes "r"); (there, as_bytes "g")]) ∧
  readable key_of carries (heads v') here ∧ readable key_of carries (heads v') there.
Proof.
  assert (open_raw true epoch try_decrypt digest_refs v0 raw signed = ((open_raw true epoch try_decrypt digest_refs v0 raw signed).1, Ok [(root, as_bytes "r"); (there, as_bytes "g")])) as He by (vm_compute; reflexivity).
  eexists. split; [exact He|].
  destruct (open_raw_keeps_readable key_of carries height acyclic true epoch try_decrypt epoch_opens key_opens digest_refs v0 raw signed _ _ honest_at_here He) as [_ H].
  split; apply H; [left; by apply by_head|right]; apply list_elem_of_In; vm_compute; auto.
Defined.
Definition arrived : gmap bytes Ciphertext := match raw_batch digest_refs signed (decode raw) ∅ with Ok e => e | Err _ => ∅ end.
Lemma open_raw_opens_reachable_witness : raw_batch digest_refs signed (decode raw) ∅ = Ok arrived ∧ opens key_of epoch try_decrypt contents arrived at_here there.
Proof.
  assert (open_raw true epoch try_decrypt digest_refs v0 raw signed = ((open_raw true epoch try_decrypt digest_refs v0 raw signed).1, Ok [(root, as_bytes "r"); (there, as_bytes "g")])) as He by (vm_compute; reflexivity).
  assert (raw_batch digest_refs signed (decode raw) ∅ = Ok arrived) as Hb by (vm_compute; reflexivity). split; [exact Hb|].
  apply (open_raw_opens_reachable key_of carries epoch try_decrypt epoch_opens key_opens contents (λ ct p k H, proj2 (epoch_contents ct p k H)) key_contents digest_refs v0 raw signed
    _ _ arrived honest_at_here Hb He there (as_bytes "g")). rewrite !elem_of_cons. auto.
Defined.
(** ** Writing the merge of the two *)
Definition both : bytes := [Byte.x04].
Definition encrypt (plain : bytes) : result string (Ciphertext * bytes) := Ok (mkCiphertext both [] plain, key_of both).
Definition opened_with (ct : Ciphertext) (k : bytes) : option bytes := if bool_decide (k = key_of both) then Some (ct_body ct) else None.
Definition known_both : Frontiers := mkFrontiers ∅ {[document := {[here := key_of here; there := key_of there]}]}.
Definition carries' (c : bytes) : gset bytes := if bool_decide (c = both) then {[here; there]} else carries c.
Definition height' (c : bytes) : nat := if bool_decide (c = root) then 2 else if bool_decide (c = both) then 0 else 1.
Lemma acyclic' d c : c ∈ carries' d → (height' d < height' c)%nat.
Proof.
  unfold carries'. case_bool_decide as Hd; [subst|].
  - rewrite elem_of_union, !elem_of_singleton. intros [-> | ->]; vm_compute; lia.
  - intros Hc%acyclic. revert Hc. unfold height, height'. rewrite (bool_decide_false (d = both)) by done. destruct (bool_decide (d = root)), (bool_decide (c = root)), (bool_decide (c = both)); lia.
Qed.
Lemma confirm_keeps_readable_witness : ∃ s, seal_with (Ok ()) encrypt (frontier_of known_both (Some document)) (Some document) both [here; there] (as_bytes "m") = Ok s ∧
  readable key_of carries' (frontier_of (confirm s known_both) (Some document)) here.
Proof.
  set (h := frontier_of known_both (Some document)).
  assert (h = {[here := key_of here; there := key_of there]}) as Eh by (vm_compute; reflexivity).
  assert (honest key_of h) as Hh.
  { rewrite Eh. intros c k [[<- <-]|[_ [<- <-]%lookup_singleton_Some]]%lookup_insert_Some; done. }
  eexists. split; [vm_compute; reflexivity|].
  apply (confirm_keeps_readable key_of carries' height' acyclic' opened_with (Ok ()) encrypt known_both (Some document) both [here; there] (as_bytes "m") _ known_both Hh Hh).
  - by intros plain c [= <-].
  - vm_compute. reflexivity.
  - cbn [sd_blob sd_key]. intros ct plain env Hct. vm_compute in Hct. injection Hct as <-. intros Hp. vm_compute in Hp. injection Hp as <-. intros He. vm_compute in He. injection He as <-. by vm_compute.
  - left. apply by_head. vm_compute. reflexivity.
Defined.
(** ** What opening a shared document loses *)
Definition shared_batch : list (bytes * bytes) := [sealed_as [] there].
Definition applied : gset bytes := {[root; here]}.
Definition after : Frontiers := (open_shared true epoch try_decrypt (Ok ()) v0 document shared_batch applied signed).1.
Definition merge_encrypt (plain : bytes) : result string (Ciphertext * bytes) := Ok (mkCiphertext both [] plain, key_of both).
(** A device that made its change and takes in a concurrent one no longer reads its
    own from the frontier of the shared document, so the merge it writes carries the
    other's key alone: a private document's opening keeps both. *)
Theorem shared_open_strands :
  open_shared true epoch try_decrypt (Ok ()) v0 document shared_batch applied signed = (after, Ok [(there, as_bytes "g")]) ∧
  readable key_of carries (frontier_of v0 (Some document)) here ∧
  ¬ readable key_of carries (frontier_of after (Some document)) here ∧
  sd_embedded <$> ok (seal_shared (Ok ()) true merge_encrypt after document both [here; there] (as_bytes "m")) = Some [there] ∧
  readable key_of carries (heads (open true epoch causal_walk v0 shared_batch applied).1) here.
Proof.
  split_and!; [vm_compute; reflexivity|by apply by_head| |vm_compute; reflexivity|apply by_head; vm_compute; reflexivity].
  assert (∀ c, readable key_of carries (frontier_of after (Some document)) c → c ≠ here) as H; [|intros Hr; by apply H in Hr].
  intros c Hc. destruct Hc as [c Hc|d c _ Hc]; intros ->; [revert Hc; by vm_compute|].
  unfold carries in Hc. destruct (contents d) as [env|] eqn:Hd; [|by apply elem_of_empty in Hc].
  destruct (contents_cases d env Hd) as [E|[_ E]]; rewrite E in Hc; [rewrite dom_empty in Hc; by apply elem_of_empty in Hc|].
  rewrite dom_singleton in Hc. by apply elem_of_singleton in Hc.
Qed.
(** A parent and its child opened in one batch are both heads. *)
Theorem batch_keeps_parents :
  map_to_list (heads (open true epoch causal_walk (mkFrontiers ∅ ∅) [sealed_as [] root; sealed_as [] there] ∅).1) = [(root, key_of root); (there, key_of there)] ∧
  map_to_list (heads (open_raw true epoch try_decrypt digest_refs (mkFrontiers ∅ ∅) raw signed).1) = [(there, key_of there)].
Proof. split; vm_compute; reflexivity. Qed.
End Concrete.
