(* ===== verification/Items.v ===== *)
(** * Which items the engine takes ([runtime/crates/engine/src/lib.rs])

    An item out of a store or an invitation came through no handshake: what it
    claims is checked against its own envelope, and the envelope against whoever
    may write to its tree.  Also the names content is sealed under, the document
    authority an item may carry, and the catalogs of trees two devices exchange.
    The signature scheme, Keyhive's operations and bincode belong to other crates. *)
From S2P Require Import Prelude BTree Crypto Text Opaque Policy Trees Storage.
From S2P Require History.

(** [Signed::try_verify]: the payload of an envelope whose signature verifies. *)
Class TryVerify := {
  try_verify_commit : Signed LooseCommit → option LooseCommit;
  try_verify_fragment : Signed Fragment → option Fragment;
}.
(** What the code reads of a Keyhive operation: the documents it names. *)
Inductive StaticEvent :=
| CgkaOperation (doc_id : bytes)
| Delegated (after_content : list bytes)
| Revoked (after_content : list bytes)
| PrekeysExpanded
| PrekeyRotated.
Class Authorities := {
  (** [bincode], bounded by [MAX_MEMBERSHIP_PROOF_BYTES] and without trailing bytes *)
  decode_events : bytes → result string (list StaticEvent);
  (** [VerifyingKey::from_bytes] *)
  identifier : bytes → result string unit;
}.

(** ** Document authority ([vault.rs]) *)
Section Authority.
Context {AuI : Authorities}.
Definition foreign_event (document : bytes) (event : StaticEvent) : bool :=
  match event with
  | CgkaOperation id => negb (bool_decide (id = document))
  | Delegated ids | Revoked ids => existsb (λ id, negb (bool_decide (id = document))) ids
  | PrekeysExpanded | PrekeyRotated => false
  end.
Definition decode_document_authority (b document : bytes) : result string (list StaticEvent) :=
  events ← decode_events b;
  _ ← identifier document;
  if existsb (foreign_event document) events then Err "document authority contains another document's operations"%string else Ok events.
Definition valid_document_authority_scope (b document : bytes) : bool := match decode_document_authority b document with Ok _ => true | Err _ => false end.
End Authority.

(** ** Names *)
Section Names.
Context {ShaI : Sha256} {BlI : Blake3}.
Definition fragment_cref (tree head : bytes) : bytes := blake3 (as_bytes "polyvisor:fragment" ++ tree ++ head).
Definition raw_cref (tree id : bytes) : bytes := blake3 (as_bytes "polyvisor:opaque-cref:v1" ++ [Byte.x00] ++ tree ++ id).
Definition mix (domain seed entropy : bytes) : bytes := sha256 (domain ++ seed ++ entropy).
Definition next_opaque_nonce (model_entropy seed : bytes) (counter : Z) (slot : string) : Z * bytes :=
  let counter := if counter =? 2 ^ 64 - 1 then counter else counter + 1 in
  (counter, take 16 (sha256 (as_bytes "polyvisor:opaque-nonce:v1" ++ [Byte.x00] ++ model_entropy ++ seed ++ as_bytes slot ++ be_bytes 8 counter))).
End Names.

(** ** What the checks consult *)
Record Cells {A : Type} := mkCells {
  storage : SnapshotStorage;
  documents : gmap string (History.Document A);
  us : option (History.Document A);
  device_members : gset bytes;
  shared_authorities : gmap bytes TreeAuthority;
  name_key : option bytes;
  group_generation : Z;
}.
Arguments Cells A : clear implicits.
Arguments mkCells {A}.

Section Items.
Context {A : Type} {SedI : Sedimentree} {VerI : TryVerify} {AuI : Authorities} {ShaI : Sha256} {BlI : Blake3}.
Implicit Types (c : Cells A) (item : StoreItem).
Definition opaque_status c (tree : bytes) : option bool := status (s_lifecycle (storage c)) tree.
Definition item_publishable c item : bool := negb (is_opaque_tree (si_tree item)) || bool_decide (opaque_status c (si_tree item) = Some true).

(** A signature that verifies, by one of those who may write. *)
Definition verify {T} (decode : bytes → option (Signed T)) (try_verify : Signed T → option T) (signed : bytes) (authors : gset bytes) : option T :=
  s ← decode signed;
  payload ← try_verify s;
  if bool_decide (issuer s ∈ authors) then Some payload else None.
Definition verify_commit := verify try_decode_commit try_verify_commit.
Definition verify_fragment := verify try_decode_fragment try_verify_fragment.
Definition valid_item (authors : gset bytes) item : bool :=
  let blob := blob_meta (si_blob item) in
  match si_kind item with
  | ItemCommit =>
    match verify_commit (si_signed item) authors with
    | Some p => bool_decide (lc_tree p = si_tree item) && bool_decide (lc_head p = si_commit item) && bool_decide (lc_blob_meta p = blob)
    | None => false
    end
  | ItemFragment =>
    if is_opaque_tree (si_tree item) then false else
    match verify_fragment (si_signed item) authors with
    | Some p => bool_decide (fr_tree p = si_tree item) && bool_decide (fr_head p = si_commit item) && bool_decide (fr_blob_meta p = blob)
    | None => false
    end
  end.

(** A shared document's ciphertext names its own commit and that commit's parents. *)
Definition scoped_ciphertext (tree id : bytes) (parents : list bytes) (blob : bytes) : bool :=
  match ciphertext_refs blob with
  | None => false
  | Some (content_ref, pred_refs) => bool_decide (content_ref = shared_cref tree id) && bool_decide (pred_refs = digest_refs (shared_cref tree <$> parents))
  end.
Definition valid_shared_ciphertexts_from_parents (tree : bytes) (items : list StoreItem) (parents : gmap bytes (list bytes)) : bool :=
  forallb (λ item, match ciphertext_refs (si_blob item), parents !! si_commit item with
                   | Some _, Some ps => scoped_ciphertext tree (si_commit item) ps (si_blob item)
                   | _, _ => false
                   end) items.
Definition valid_shared_ciphertexts (tree : bytes) (blobs : list (bytes * bytes)) (s : SnapshotStorage) : bool :=
  let parents : gmap bytes (list bytes) := list_to_map (reverse ((λ p, (lc_head p, lc_parents p)) <$> (metadata s tree).1)) in
  forallb (λ b, match ciphertext_refs b.2, parents !! b.1 with
                | Some _, Some ps => scoped_ciphertext tree b.1 ps b.2
                | _, _ => false
                end) blobs.
Definition wanted_commit_for_cref (tree cref : bytes) (s : SnapshotStorage) : option bytes :=
  head (filter (λ id, shared_cref tree id = cref) (lc_head <$> (metadata s tree).1)).

(** Who may write to a tree: the editors of a shared document, nobody where it is
    not known, and otherwise the group's devices. *)
Definition item_authors c (tree : bytes) : gset bytes :=
  match shared_authorities c !! tree with
  | Some authority => editors authority
  | None => if reserved tree then ∅ else device_members c
  end.
Definition shared_document_for_tree c (tree : bytes) : option bytes :=
  head (omap (λ partition,
    if bool_decide (document_tree partition = tree) || bool_decide (shared_authority_tree partition = tree)
    then default None (ok (shared_document partition)) else None) (btree_keys (documents c))).
Definition valid_ingest_item c item : bool :=
  let tree := si_tree item in
  if bool_decide (si_kind item = ItemFragment) && reserved tree then false else
  if negb (valid_item (item_authors c tree) item) then false else
  if tree_tag tree =? SHARED_AUTHORITY_TREE_TAG then
    match shared_document_for_tree c tree with Some document => valid_document_authority_scope (si_blob item) document | None => false end
  else if tree_tag tree =? SHARED_TREE_TAG then
    match (s ← try_decode_commit (si_signed item); try_verify_commit s) with
    | Some p => valid_shared_ciphertexts_from_parents tree [item] {[lc_head p := lc_parents p]}
    | None => false
    end
  else true.

(** What has been read without being held, and whether an item is news. *)
Definition applied_in (d : History.Document A) : list (bytes * bytes) := (λ id, (History.tree d, id)) <$> btree_elems (History.applied d).
Definition read_not_held c : list (bytes * bytes) :=
  filter (λ p, holds (storage c) p.1 p.2 = false)
    ((btree_values (documents c) ≫= applied_in) ++
     match us c with Some d => (λ id, (us_tree, id)) <$> btree_elems (History.applied d) | None => [] end).
Definition read c (tree commit : bytes) : bool :=
  if bool_decide (tree = us_tree) then match us c with Some d => bool_decide (commit ∈ History.applied d) | None => false end else
  match head (filter (λ d, History.tree d = tree) (btree_values (documents c))) with
  | Some d => bool_decide (commit ∈ History.applied d)
  | None => false
  end.
(** A raw commit is named by what it holds. *)
Definition raw_name_ok c item : bool :=
  match verify_commit (si_signed item) (item_authors c (si_tree item)) with
  | Some p => bool_decide (item_id (si_tree item) (lc_parents p) (si_blob item) = si_commit item)
  | None => false
  end.
Definition is_news c item : bool :=
  match si_kind item with
  | ItemCommit => negb (holds (storage c) (si_tree item) (si_commit item)) &&
      ((tree_tag (si_tree item) =? SHARED_TREE_TAG) || negb (read c (si_tree item) (si_commit item)))
  | ItemFragment => negb (holds_fragment (storage c) (si_tree item) (si_commit item))
  end.
Definition accept c item : bool :=
  if negb (valid_ingest_item c item) || negb (item_publishable c item) then false else
  if is_opaque_tree (si_tree item) && caller_encrypted (storage c) (si_tree item) && negb (raw_name_ok c item) then false else
  is_news c item.
End Items.

(** ** What an accepted item is *)
Section Spec.
Context {A : Type} {SedI : Sedimentree} {VerI : TryVerify} {AuI : Authorities} {ShaI : Sha256} {BlI : Blake3}.
Implicit Types (c : Cells A) (item : StoreItem).
(** The envelope verifies, one of the authors signed it, and it says what the item
    is filed as. *)
Definition commit_signed (authors : gset bytes) item (p : LooseCommit) : Prop :=
  ∃ s, try_decode_commit (si_signed item) = Some s ∧ try_verify_commit s = Some p ∧ issuer s ∈ authors ∧
    lc_tree p = si_tree item ∧ lc_head p = si_commit item ∧ lc_blob_meta p = blob_meta (si_blob item).
Definition fragment_signed (authors : gset bytes) item (p : Fragment) : Prop :=
  ∃ s, try_decode_fragment (si_signed item) = Some s ∧ try_verify_fragment s = Some p ∧ issuer s ∈ authors ∧
    fr_tree p = si_tree item ∧ fr_head p = si_commit item ∧ fr_blob_meta p = blob_meta (si_blob item).
Definition authentic (authors : gset bytes) item : Prop :=
  match si_kind item with
  | ItemCommit => ∃ p, commit_signed authors item p
  | ItemFragment => is_opaque_tree (si_tree item) = false ∧ ∃ p, fragment_signed authors item p
  end.
Lemma verify_Some {T} decode (try_verify : Signed T → option T) b authors p :
  verify decode try_verify b authors = Some p ↔ ∃ s, decode b = Some s ∧ try_verify s = Some p ∧ issuer s ∈ authors.
Proof.
  unfold verify. destruct (decode b) as [s|]; cbn [mbind option_bind]; [|by split; [|intros (? & ? & _)]].
  destruct (try_verify s) as [q|] eqn:Hv; cbn [mbind option_bind]; [|split; [done|intros (? & [= <-] & ? & _); congruence]].
  case_bool_decide as Hi; split; [intros [= <-]; by exists s|intros (? & [= <-] & ? & _); congruence|done|intros (? & [= <-] & _ & ?); done].
Qed.
Lemma valid_item_iff authors item : valid_item authors item = true ↔ authentic authors item.
Proof.
  unfold valid_item, authentic, commit_signed, fragment_signed. destruct (si_kind item).
  - destruct (verify_commit _ _) as [p|] eqn:Hv.
    + apply verify_Some in Hv as (s & Hd & Hs & Hi). rewrite !andb_true_iff, !bool_decide_eq_true.
      split; [intros [[] ?]; by exists p, s|]. intros (q & s' & Hd' & Hs' & _ & ? & ? & ?). assert (q = p) as -> by congruence. done.
    + split; [done|]. intros (p & s & Hd & Hs & Hi & _). assert (verify_commit (si_signed item) authors = Some p) by (apply verify_Some; by exists s). congruence.
  - destruct (is_opaque_tree _); [by split; [|intros [? _]]|]. destruct (verify_fragment _ _) as [p|] eqn:Hv.
    + apply verify_Some in Hv as (s & Hd & Hs & Hi). rewrite !andb_true_iff, !bool_decide_eq_true.
      split; [intros [[] ?]; split; [done|]; by exists p, s|]. intros (_ & q & s' & Hd' & Hs' & _ & ? & ? & ?). assert (q = p) as -> by congruence. done.
    + split; [done|]. intros (_ & p & s & Hd & Hs & Hi & _). assert (verify_fragment (si_signed item) authors = Some p) by (apply verify_Some; by exists s). congruence.
Qed.
(** Only the document's own operations. *)
Definition event_of (document : bytes) (e : StaticEvent) : Prop :=
  match e with CgkaOperation id => id = document | Delegated ids | Revoked ids => ∀ id, id ∈ ids → id = document | _ => True end.
Lemma foreign_event_false document e : foreign_event document e = false ↔ event_of document e.
Proof.
  assert (∀ ids, existsb (λ id, negb (bool_decide (id = document))) ids = false ↔ ∀ id, id ∈ ids → id = document) as H.
  { intros ids. rewrite <- not_true_iff_false, existsb_exists. split.
    - intros Hn id Hid. destruct (decide (id = document)) as [|Hne]; [done|]. destruct Hn. exists id. split; [by apply list_elem_of_In|]. by rewrite bool_decide_false.
    - intros Ha (id & Hid%list_elem_of_In & Hb). rewrite (Ha id Hid), bool_decide_true in Hb; done. }
  destruct e; cbn [foreign_event event_of]; [|apply H|apply H|done|done]. rewrite negb_false_iff. apply bool_decide_eq_true.
Qed.
Definition document_scope (b document : bytes) : Prop := ∃ events, decode_events b = Ok events ∧ identifier document = Ok () ∧ ∀ e, e ∈ events → event_of document e.
Lemma valid_scope_iff b document : valid_document_authority_scope b document = true ↔ document_scope b document.
Proof.
  unfold valid_document_authority_scope, decode_document_authority, document_scope. destruct (decode_events b) as [l|]; cbn [mbind result_bind]; [|by split; [|intros (? & ? & _)]].
  destruct (identifier document) as [[]|]; cbn [mbind result_bind]; [|by split; [|intros (? & _ & ? & _)]].
  destruct (existsb _ _) eqn:He; split; [done| |intros _|done].
  - intros (? & [= <-] & _ & Ha). apply existsb_exists in He as (e & Hin%list_elem_of_In & Hf). apply Ha, foreign_event_false in Hin. congruence.
  - exists l. split_and!; [done..|]. intros e Hin. apply foreign_event_false. apply not_true_iff_false. intros Hf. rewrite <- not_true_iff_false, existsb_exists in He.
    apply He. exists e. split; [by apply list_elem_of_In|done].
Qed.
Definition ciphertext_scope (tree : bytes) (item : StoreItem) (p : LooseCommit) : Prop :=
  ciphertext_refs (si_blob item) = Some (shared_cref tree (si_commit item), digest_refs (shared_cref tree <$> lc_parents p)).
Definition news c item : Prop :=
  match si_kind item with
  | ItemCommit => holds (storage c) (si_tree item) (si_commit item) = false ∧
      (tree_tag (si_tree item) = SHARED_TREE_TAG ∨ read c (si_tree item) (si_commit item) = false)
  | ItemFragment => holds_fragment (storage c) (si_tree item) (si_commit item) = false
  end.
Record acceptable c item : Prop := {
  ac_authentic : authentic (item_authors c (si_tree item)) item;
  ac_loose : reserved (si_tree item) = true → si_kind item = ItemCommit;
  ac_authority : tree_tag (si_tree item) = SHARED_AUTHORITY_TREE_TAG →
    ∃ document, shared_document_for_tree c (si_tree item) = Some document ∧ document_scope (si_blob item) document;
  ac_scope p : tree_tag (si_tree item) = SHARED_TREE_TAG → commit_signed (item_authors c (si_tree item)) item p → ciphertext_scope (si_tree item) item p;
  ac_current : is_opaque_tree (si_tree item) = true → opaque_status c (si_tree item) = Some true;
  ac_named p : is_opaque_tree (si_tree item) = true → caller_encrypted (storage c) (si_tree item) = true →
    commit_signed (item_authors c (si_tree item)) item p → item_id (si_tree item) (lc_parents p) (si_blob item) = si_commit item;
  ac_news : news c item;
}.
Lemma is_news_iff c item : is_news c item = true ↔ news c item.
Proof. unfold is_news, news. destruct (si_kind item); rewrite ?andb_true_iff, ?orb_true_iff, ?negb_true_iff, ?Z.eqb_eq; tauto. Qed.
Lemma publishable_iff c item : item_publishable c item = true ↔ (is_opaque_tree (si_tree item) = true → opaque_status c (si_tree item) = Some true).
Proof. unfold item_publishable. rewrite orb_true_iff, negb_true_iff, bool_decide_eq_true. destruct (is_opaque_tree _); naive_solver. Qed.
Lemma scope_one tree item p : lc_head p = si_commit item →
  valid_shared_ciphertexts_from_parents tree [item] {[lc_head p := lc_parents p]} = true ↔ ciphertext_scope tree item p.
Proof.
  intros Hh. unfold valid_shared_ciphertexts_from_parents, ciphertext_scope, scoped_ciphertext. cbn [forallb]. rewrite Hh, lookup_singleton_eq, andb_true_r.
  destruct (ciphertext_refs _) as [[cr pr]|]; [|done]. rewrite andb_true_iff, !bool_decide_eq_true. split; [by intros [-> ->]|by intros [= -> ->]].
Qed.
Lemma shared_tags tree : tree_tag tree = SHARED_AUTHORITY_TREE_TAG → tree_tag tree ≠ SHARED_TREE_TAG.
Proof. by intros ->. Qed.
(** C19: an item out of a store is taken exactly when it is authentic (signed by one
    of its tree's writers, over this tree, this id and these bytes), within the
    scope of its tree, filed under a current tree, and news. *)
Theorem accept_iff c item : accept c item = true ↔ acceptable c item.
Proof.
  assert (valid_ingest_item c item = true ↔ authentic (item_authors c (si_tree item)) item ∧ (reserved (si_tree item) = true → si_kind item = ItemCommit) ∧
    (tree_tag (si_tree item) = SHARED_AUTHORITY_TREE_TAG → ∃ document, shared_document_for_tree c (si_tree item) = Some document ∧ document_scope (si_blob item) document) ∧
    (tree_tag (si_tree item) = SHARED_TREE_TAG → ∀ p, commit_signed (item_authors c (si_tree item)) item p → ciphertext_scope (si_tree item) item p)) as Hv.
  { unfold valid_ingest_item. rewrite <- valid_item_iff. destruct (bool_decide (si_kind item = ItemFragment) && reserved (si_tree item)) eqn:Hk.
    { apply andb_true_iff in Hk as [Hk Hr]. apply bool_decide_eq_true in Hk. split; [done|]. intros (_ & Hl & _). specialize (Hl Hr). congruence. }
    assert (reserved (si_tree item) = true → si_kind item = ItemCommit) as Hl.
    { intros Hr. rewrite Hr, andb_true_r in Hk. apply bool_decide_eq_false in Hk. by destruct (si_kind item). }
    destruct (valid_item _ item) eqn:Ha; cbn [negb]; [|split; [done|by intros [? _]]]. pose proof Ha as Hau. apply valid_item_iff in Hau.
    destruct (Z.eqb_spec (tree_tag (si_tree item)) SHARED_AUTHORITY_TREE_TAG) as [Ht|Ht].
    { destruct (shared_document_for_tree c (si_tree item)) as [d|].
      - rewrite valid_scope_iff. split; [intros Hs; split_and!; [done..|by exists d|by intros ?%(shared_tags _ Ht)]|]. intros (_ & _ & Hx & _). by destruct (Hx Ht) as (? & [= <-] & ?).
      - split; [done|]. intros (_ & _ & Hx & _). by destruct (Hx Ht) as (? & ? & _). }
    destruct (Z.eqb_spec (tree_tag (si_tree item)) SHARED_TREE_TAG) as [Hs|Hs]; [|by split_and?].
    assert (si_kind item = ItemCommit) as Hc by (apply Hl; unfold reserved; by rewrite Hs, Z.eqb_refl).
    unfold authentic in Hau. rewrite Hc in Hau. destruct Hau as (p & s & Hd & Hp & Hi & H1 & H2 & H3). rewrite Hd. cbn [mbind option_bind]. rewrite Hp.
    rewrite scope_one by done. split.
    - intros Hsc. split_and!; [done..|]. intros _ q (s' & Hd' & Hq & _). assert (q = p) as -> by congruence. done.
    - intros (_ & _ & _ & Hx). apply Hx; [done|]. by exists s. }
  unfold accept. destruct (valid_ingest_item c item) eqn:E1; cbn [negb orb].
  2: { split; [done|]. intros [H1 H2 H3 H4 _ _ _]. assert (false = true); [|done]. apply Hv. auto. }
  destruct (proj1 Hv eq_refl) as (H1 & H2 & H3 & H4). destruct (item_publishable c item) eqn:E2; cbn [negb].
  2: { split; [done|]. intros [_ _ _ _ H5 _ _]. pose proof (proj2 (publishable_iff c item) H5). congruence. }
  pose proof (proj1 (publishable_iff c item) E2) as E4. clear E2. destruct (is_opaque_tree (si_tree item) && caller_encrypted (storage c) (si_tree item)) eqn:E3; cbn [andb].
  - apply andb_true_iff in E3 as [Ho Hc]. unfold raw_name_ok. unfold authentic in H1. destruct (si_kind item) eqn:Hk; [|destruct H1 as [? _]; congruence].
    destruct H1 as (p & s & Hd & Hp & Hi & H5). assert (verify_commit (si_signed item) (item_authors c (si_tree item)) = Some p) as -> by (apply verify_Some; by exists s).
    case_bool_decide as Hn; cbn [negb].
    + rewrite is_news_iff. split; [|by intros []]. intros Hw. split; [unfold authentic; rewrite Hk; by exists p, s|done|done|by intros q Ht; apply H4|done| |done].
      intros q _ _ (s' & Hd' & Hq & _). by assert (q = p) as -> by congruence.
    + split; [done|]. intros [_ _ _ _ _ Hx _]. destruct Hn. apply Hx; [done|done|by exists s].
  - rewrite is_news_iff. split; [|by intros []]. intros Hw. split; [done|done|done|by intros q Ht; apply H4|done| |done].
    intros q Ho Hc. by rewrite Ho, Hc in E3.
Qed.
End Spec.
