(* ===== verification/Catalog.v ===== *)
(** * Catalogs of trees ([runtime/crates/engine/src/lib.rs])

    What one device of the group tells another it keeps, in batches of at most a
    thousand trees, and how the receiving end puts the batches together. *)
From S2P Require Import Prelude BTree Crypto Text Opaque Policy Trees.

Definition CATALOG_PREFIX : bytes := as_bytes "PVC1".
Definition CATALOG_BATCH_TREES : nat := 1024.
Definition encode_batch (batches : nat) (trees : list bytes) (index : nat) : bytes :=
  let start := (index * CATALOG_BATCH_TREES)%nat in
  let chunk := take CATALOG_BATCH_TREES (drop start trees) in
  CATALOG_PREFIX ++ [byte_of (if (S index =? batches)%nat then 1 else 0)] ++ mjoin chunk.
Definition batches_of (trees : list bytes) : nat := Nat.max 1 ((length trees + (CATALOG_BATCH_TREES - 1)) / CATALOG_BATCH_TREES).
Definition encode_catalog (trees : list bytes) : list bytes :=
  let batches := batches_of trees in encode_batch batches trees <$> seq 0 batches.

(** [as_chunks::<32>], of a multiple of 32 bytes. *)
Fixpoint chunks (n : nat) (b : bytes) : list bytes :=
  match n with O => [] | S n => take 32 b :: chunks n (drop 32 b) end.
Section Decode.
Context {ShaI : Sha256}.
Definition decode_catalog (b : bytes) : option (bool * list bytes) :=
  payload ← strip_prefix CATALOG_PREFIX b;
  match payload with
  | [] => None
  | final_batch :: payload =>
    if (1 <? u8 final_batch) || negb (length payload mod 32 =? 0)%nat || (CATALOG_BATCH_TREES <? length payload / 32)%nat then None else
    let trees := chunks (length payload / 32) payload in
    if existsb (λ tree, bool_decide (tree = us_tree) || bool_decide (tree = keyhive_tree)) trees then None else
    Some (u8 final_batch =? 1, trees)
  end.

(** ** Putting batches together *)
Abbreviation Catalogs := (gmap Z (list bytes)).
(** [sort_unstable] and [dedup]. *)
Definition sorted (trees : list bytes) : list bytes := btree_elems (list_to_set trees : gset bytes).
Definition retain_catalog (complete pending : Catalogs) (conn : Z) (registered member : bool) (b : bytes) : Catalogs * Catalogs * bool :=
  if negb registered || negb member || bool_decide (is_Some (complete !! conn)) then (complete, pending, false) else
  match decode_catalog b with
  | None => (complete, delete conn pending, false)
  | Some (final_batch, trees) =>
    let accumulated := default [] (pending !! conn) ++ trees in
    if negb final_batch then (complete, <[conn := accumulated]> pending, false) else
    (<[conn := sorted accumulated]> complete, delete conn pending, true)
  end.
Fixpoint retain_all (conn : Z) (batches : list bytes) (complete pending : Catalogs) : Catalogs * Catalogs * list bool :=
  match batches with
  | [] => (complete, pending, [])
  | b :: batches =>
    let '(complete, pending, done) := retain_catalog complete pending conn true true b in
    let '(complete, pending, dones) := retain_all conn batches complete pending in
    (complete, pending, done :: dones)
  end.

(** ** What is read back *)
Definition listable (tree : bytes) : Prop := length tree = 32%nat ∧ tree ≠ us_tree ∧ tree ≠ keyhive_tree.
Lemma chunks_join l : Forall (λ t, length t = 32%nat) l → chunks (length l) (mjoin l) = l.
Proof.
  induction 1 as [|t l Ht Hl IH]; [done|]. cbn [length chunks]. change (mjoin (t :: l)) with (t ++ mjoin l). by rewrite take_app_length', drop_app_length', IH.
Qed.
Lemma join_chunks n b : length b = (n * 32)%nat → mjoin (chunks n b) = b ∧ Forall (λ t, length t = 32%nat) (chunks n b) ∧ length (chunks n b) = n.
Proof.
  revert b. induction n as [|n IH]; intros b Hb; [by destruct b|]. cbn [chunks]. destruct (IH (drop 32 b)) as (H1 & H2 & H3); [rewrite length_drop; lia|].
  change (mjoin (take 32 b :: chunks n (drop 32 b))) with (take 32 b ++ mjoin (chunks n (drop 32 b))). rewrite H1, take_drop. split_and!; [done| |cbn; by rewrite H3].
  constructor; [rewrite length_take; lia|done].
Qed.
Lemma length_join l : Forall (λ t : bytes, length t = 32%nat) l → length (mjoin l) = (length l * 32)%nat.
Proof. induction 1 as [|t l Ht Hl IH]; [done|]. change (mjoin (t :: l)) with (t ++ mjoin l). rewrite length_app, IH, Ht. cbn. lia. Qed.
Definition batch (final_batch : bool) (trees : list bytes) : bytes := CATALOG_PREFIX ++ [byte_of (if final_batch then 1 else 0)] ++ mjoin trees.
(** Exactly the batches a sender may write are read. *)
Lemma decode_catalog_iff b final_batch trees : decode_catalog b = Some (final_batch, trees) ↔
  b = batch final_batch trees ∧ Forall listable trees ∧ (length trees ≤ CATALOG_BATCH_TREES)%nat.
Proof.
  unfold decode_catalog, batch. split.
  - destruct (strip_prefix CATALOG_PREFIX b) as [payload|] eqn:Hp; [|done]. apply strip_prefix_Some in Hp as ->. cbn [mbind option_bind].
    destruct payload as [|f payload]; [done|]. destruct (1 <? u8 f) eqn:Hf; [done|]. cbn [orb].
    destruct (Nat.eqb_spec (length payload mod 32) 0) as [Hm|]; [|done]. cbn [negb orb]. destruct (Nat.ltb_spec CATALOG_BATCH_TREES (length payload / 32)); [done|].
    assert (length payload = (length payload / 32 * 32)%nat) as Hl by (pose proof (Nat.div_mod_eq (length payload) 32); lia).
    destruct (join_chunks _ _ Hl) as (H1 & H2 & H3). destruct (existsb _ _) eqn:He; [done|]. intros [<- <-]%Some_inj%pair_equal_spec. rewrite H1, H3. split_and!; [| |done].
    + f_equal. cbn. f_equal. pose proof (u8_range f). apply Z.ltb_ge in Hf. destruct (Z.eqb_spec (u8 f) 1) as [E|E].
      * rewrite <- E. by rewrite byte_of_u8.
      * assert (u8 f = 0) as E0 by lia. rewrite <- E0. by rewrite byte_of_u8.
    + rewrite Forall_forall in *. intros t Ht. split; [by apply H2|]. apply not_true_iff_false in He. rewrite existsb_exists in He.
      split; intros ->; apply He; [exists us_tree|exists keyhive_tree]; (split; [by apply list_elem_of_In|]); [by rewrite bool_decide_true|by rewrite (bool_decide_true (keyhive_tree = keyhive_tree)), orb_true_r].
  - intros (-> & Ht & Hn). rewrite strip_prefix_app. cbn [mbind option_bind app].
    assert (Forall (λ t, length t = 32%nat) trees) as Hl by (eapply Forall_impl; [exact Ht|]; by intros t []).
    rewrite u8_byte_of, (length_join _ Hl), Nat.Div0.mod_mul, Nat.div_mul by lia.
    assert (existsb (λ tree, bool_decide (tree = us_tree) || bool_decide (tree = keyhive_tree)) (chunks (length trees) (mjoin trees)) = false) as ->.
    { rewrite (chunks_join _ Hl). apply not_true_iff_false. rewrite existsb_exists. intros (t & Hin%list_elem_of_In & Hb). rewrite Forall_forall in Ht. destruct (Ht t Hin) as (_ & Hu & Hk).
      by rewrite !bool_decide_false in Hb. }
    rewrite (chunks_join _ Hl). replace (CATALOG_BATCH_TREES <? length trees)%nat with false by (symmetry; by apply Nat.ltb_ge). by destruct final_batch.
Qed.
Lemma retain_step n trees conn i m complete pending : retain_all conn (encode_batch n trees <$> seq i (S m)) complete pending =
  let '(c, p, d) := retain_catalog complete pending conn true true (encode_batch n trees i) in
  let '(c, p, ds) := retain_all conn (encode_batch n trees <$> seq (S i) m) c p in (c, p, d :: ds).
Proof. done. Qed.
Lemma retain_from trees conn complete n : Forall listable trees → (length trees ≤ n * CATALOG_BATCH_TREES)%nat → complete !! conn = None →
  ∀ k i pending, (i + S k = n)%nat → default [] (pending !! conn) = take (i * CATALOG_BATCH_TREES) trees →
  retain_all conn (encode_batch n trees <$> seq i (S k)) complete pending = (<[conn := sorted trees]> complete, delete conn pending, replicate k false ++ [true]).
Proof.
  intros Ht Hn Hc. induction k as [|k IH]; intros i pending Hi Hp.
  all: rewrite retain_step; unfold retain_catalog; cbn [negb orb]; rewrite bool_decide_false by (rewrite Hc; by intros []).
  all: set (ch := take CATALOG_BATCH_TREES (drop (i * CATALOG_BATCH_TREES) trees)).
  all: assert (take (i * CATALOG_BATCH_TREES) trees ++ ch = take (S i * CATALOG_BATCH_TREES) trees) as Hacc
    by (unfold ch; rewrite take_take_drop; f_equal; lia).
  all: assert (decode_catalog (encode_batch n trees i) = Some (bool_decide (S i = n), ch)) as ->.
  1, 3: apply decode_catalog_iff; (split_and!; [|by apply Forall_take, Forall_drop|unfold ch; rewrite length_take; lia]);
    unfold encode_batch, batch; fold ch; destruct (Nat.eqb_spec (S i) n); [by rewrite bool_decide_true|by rewrite bool_decide_false].
  - rewrite bool_decide_true by lia. cbn [negb]. cbn [replicate app]. rewrite Hp, Hacc, (take_ge trees) by (replace (S i) with n by lia; done). done.
  - rewrite bool_decide_false by lia. cbn [negb]. rewrite (IH (S i)); [by rewrite delete_insert_eq|lia|]. by rewrite lookup_insert_eq, Hp, Hacc.
Qed.
Lemma batches_enough trees : (length trees ≤ batches_of trees * CATALOG_BATCH_TREES)%nat ∧ (1 ≤ batches_of trees)%nat.
Proof.
  unfold batches_of, CATALOG_BATCH_TREES. pose proof (Nat.div_mod_eq (length trees + (1024 - 1)) 1024). pose proof (Nat.mod_upper_bound (length trees + (1024 - 1)) 1024). lia.
Qed.
(** however many trees a catalog lists, the batches it is sent in put together
    give exactly that set, sorted and without repetition, and only the last of
    them completes it. *)
Theorem catalog_round_trip trees conn complete pending : Forall listable trees → complete !! conn = None → pending !! conn = None →
  ∃ k, length (encode_catalog trees) = S k ∧
  retain_all conn (encode_catalog trees) complete pending = (<[conn := sorted trees]> complete, pending, replicate k false ++ [true]).
Proof.
  intros Ht Hc Hp. destruct (batches_enough trees) as [H1 H2]. exists (batches_of trees - 1)%nat. unfold encode_catalog. rewrite length_fmap, length_seq. split; [lia|].
  replace (batches_of trees) with (S (batches_of trees - 1)) at 2 by lia. rewrite (retain_from trees conn complete (batches_of trees) Ht H1 Hc); [|lia|by rewrite Hp].
  by rewrite delete_id.
Qed.
(** a catalog is kept only for a member's registered connection, once, and never
    names the two control trees. *)
Theorem catalogs_exclude_control complete pending conn registered member b complete' pending' done :
  (∀ c l, complete !! c = Some l → us_tree ∉ l ∧ keyhive_tree ∉ l) → (∀ c l, pending !! c = Some l → us_tree ∉ l ∧ keyhive_tree ∉ l) →
  retain_catalog complete pending conn registered member b = (complete', pending', done) →
  (∀ c l, complete' !! c = Some l → us_tree ∉ l ∧ keyhive_tree ∉ l) ∧ (∀ c l, pending' !! c = Some l → us_tree ∉ l ∧ keyhive_tree ∉ l) ∧
  (∀ c l, complete !! c = Some l → complete' !! c = Some l) ∧ (done = true → registered = true ∧ member = true).
Proof.
  intros Hc Hp. unfold retain_catalog. destruct registered, member; cbn [negb orb]; try (by intros [= <- <- <-]).
  case_bool_decide as Hs; [by intros [= <- <- <-]|]. destruct (decode_catalog b) as [[f trees]|] eqn:Hd.
  - apply decode_catalog_iff in Hd as (_ & Ht & _). assert (us_tree ∉ default [] (pending !! conn) ++ trees ∧ keyhive_tree ∉ default [] (pending !! conn) ++ trees) as [Hu Hk].
    { rewrite !not_elem_of_app. rewrite Forall_forall in Ht. assert (us_tree ∉ default [] (pending !! conn) ∧ keyhive_tree ∉ default [] (pending !! conn)) as [? ?].
      { destruct (pending !! conn) as [l|] eqn:E; [by apply (Hp conn)|by split; intros ?%elem_of_nil]. }
      split_and!; [done| |done|]; intros Hin; by destruct (Ht _ Hin) as (_ & ? & ?). }
    destruct f; cbn [negb]; intros [= <- <- <-]; split_and!; try done.
    + intros c l [[<- <-]|[_ ?]]%lookup_insert_Some; [|by apply (Hc c)]. unfold sorted. by rewrite !elem_of_btree_elems, !elem_of_list_to_set.
    + intros c l [_ ?]%lookup_delete_Some. by apply (Hp c).
    + intros c l Hl. destruct (decide (c = conn)) as [->|Hne]; [by destruct Hs; exists l|by rewrite lookup_insert_ne].
    + intros c l [[<- <-]|[_ ?]]%lookup_insert_Some; [done|by apply (Hp c)].
  - intros [= <- <- <-]. split_and!; [done| |done|done]. intros c l [_ ?]%lookup_delete_Some. by apply (Hp c).
Qed.
End Decode.

Module Concrete.
Import Crypto.Toy.
Definition listed : list bytes := [replicate 32 (byte_of 8); replicate 32 (byte_of 7); replicate 32 (byte_of 8)].
Lemma listed_ok : Forall listable listed.
Proof. repeat constructor; vm_compute; done. Qed.
Lemma catalog_round_trip_witness : retain_all 3 (encode_catalog listed) ∅ ∅ = ({[3 := [replicate 32 (byte_of 7); replicate 32 (byte_of 8)]]}, ∅, [true]).
Proof.
  destruct (catalog_round_trip listed 3 ∅ ∅ listed_ok (lookup_empty 3) (lookup_empty 3)) as (k & Hk & ->). vm_compute in Hk. injection Hk as <-. vm_compute. reflexivity.
Defined.
Definition kept : gmap Z (list bytes) := (retain_catalog ∅ ∅ 3 true true (batch true listed)).1.1.
Lemma catalogs_exclude_control_witness : retain_catalog ∅ ∅ 3 true true (batch true listed) = (kept, ∅, true) ∧
  ∀ c l, kept !! c = Some l → us_tree ∉ l ∧ keyhive_tree ∉ l.
Proof.
  assert (retain_catalog ∅ ∅ 3 true true (batch true listed) = (kept, ∅, true)) as Hr by (vm_compute; reflexivity). split; [exact Hr|].
  assert (∀ (c : Z) (l : list bytes), (∅ : gmap Z (list bytes)) !! c = Some l → us_tree ∉ l ∧ keyhive_tree ∉ l) as H0 by (intros c l Hl; by rewrite lookup_empty in Hl).
  exact (proj1 (catalogs_exclude_control ∅ ∅ 3 true true (batch true listed) kept ∅ true H0 H0 Hr)).
Defined.
End Concrete.
