(* ===== verification/Links.v ===== *)
(** * The engine's connections ([runtime/crates/engine/src/lib.rs])

    Every connection runs a control phase: the group document, then Keyhive's
    events, and only then content.  [connect] registers one; the event pump moves
    it on.  Between awaits the tables are changed in one piece; a system is the
    tables and where the pump stands, and a step is one such piece. *)
From S2P Require Import Prelude BTree Crypto Text Opaque Policy Trees Catalog.

Inductive ControlPhase := AwaitUs | AwaitKeyhive | Ready.
#[export] Instance ControlPhase_eq_dec : EqDecision ControlPhase.
Proof. solve_decision. Defined.
Inductive Direction := Inbound | Outbound.
#[export] Instance Direction_eq_dec : EqDecision Direction.
Proof. solve_decision. Defined.

(** The tables of [Engine], and the lifecycle's [ready_peers]. *)
Record Links := mkLinks {
  conns : list (Z * bytes);
  control_phases : gmap Z ControlPhase;
  control_initiators : gset Z;
  connection_predecessors : gmap Z (gset Z);
  remote_catalogs : gmap Z (list bytes);
  pending_catalogs : gmap Z (list bytes);
  foreign_sync : gmap Z (gmap bytes (list bytes));
  catalog_sent : gset Z;
  ready_peers : gmap bytes nat;
}.
Definition Links_new : Links := mkLinks [] ∅ ∅ ∅ ∅ ∅ ∅ ∅ ∅.
Definition push_conn (conn : Z * bytes) (l : Links) : Links :=
  mkLinks (conns l ++ [conn]) (control_phases l) (control_initiators l) (connection_predecessors l) (remote_catalogs l) (pending_catalogs l) (foreign_sync l) (catalog_sent l) (ready_peers l).
Definition set_phase (conn : Z) (phase : ControlPhase) (l : Links) : Links :=
  mkLinks (conns l) (<[conn := phase]> (control_phases l)) (control_initiators l) (connection_predecessors l) (remote_catalogs l) (pending_catalogs l) (foreign_sync l) (catalog_sent l) (ready_peers l).
Definition set_initiator (conn : Z) (l : Links) : Links :=
  mkLinks (conns l) (control_phases l) ({[conn]} ∪ control_initiators l) (connection_predecessors l) (remote_catalogs l) (pending_catalogs l) (foreign_sync l) (catalog_sent l) (ready_peers l).
Definition set_predecessors (p : gmap Z (gset Z)) (l : Links) : Links :=
  mkLinks (conns l) (control_phases l) (control_initiators l) p (remote_catalogs l) (pending_catalogs l) (foreign_sync l) (catalog_sent l) (ready_peers l).
Definition set_catalogs (complete pending : gmap Z (list bytes)) (l : Links) : Links :=
  mkLinks (conns l) (control_phases l) (control_initiators l) (connection_predecessors l) complete pending (foreign_sync l) (catalog_sent l) (ready_peers l).
Definition set_foreign (f : gmap Z (gmap bytes (list bytes))) (l : Links) : Links :=
  mkLinks (conns l) (control_phases l) (control_initiators l) (connection_predecessors l) (remote_catalogs l) (pending_catalogs l) f (catalog_sent l) (ready_peers l).
Definition set_catalog_sent (conn : Z) (l : Links) : Links :=
  mkLinks (conns l) (control_phases l) (control_initiators l) (connection_predecessors l) (remote_catalogs l) (pending_catalogs l) (foreign_sync l) ({[conn]} ∪ catalog_sent l) (ready_peers l).

(** A peer is ready when every connection to it is. *)
Definition count_conn (phases : gmap Z ControlPhase) (live : gmap bytes (nat * nat)) (conn : Z * bytes) : gmap bytes (nat * nat) :=
  let '(all, ready) := default (0, 0)%nat (live !! conn.2) in
  <[conn.2 := (S all, if bool_decide (phases !! conn.1 = Some Ready) then S ready else ready)]> live.
Definition live_counts (l : Links) : gmap bytes (nat * nat) := foldl (count_conn (control_phases l)) ∅ (conns l).
Definition rebuild_ready_peers (l : Links) : Links :=
  mkLinks (conns l) (control_phases l) (control_initiators l) (connection_predecessors l) (remote_catalogs l) (pending_catalogs l) (foreign_sync l) (catalog_sent l)
    (omap (λ '(all, ready), if (all =? ready)%nat then Some ready else None) (live_counts l)).
Definition forget_connection (conn : Z) (l : Links) : Links :=
  mkLinks (filter (λ c, c.1 ≠ conn) (conns l)) (delete conn (control_phases l)) (control_initiators l ∖ {[conn]})
    ((λ ids, ids ∖ {[conn]}) <$> delete conn (connection_predecessors l))
    (delete conn (remote_catalogs l)) (delete conn (pending_catalogs l)) (foreign_sync l) (catalog_sent l ∖ {[conn]}) (ready_peers l).

(** ** [connect], once the peer has authenticated and may sync *)
Section Connect.
Context (members : gset bytes) (authorities : gmap bytes TreeAuthority).
Definition reads_shared (peer : bytes) : list bytes :=
  omap (λ p, if (tree_tag p.1 =? SHARED_TREE_TAG) && bool_decide (peer ∈ readers p.2) then Some p.1 else None) (btree_items authorities).
(** The first piece: a device of another group is registered for the shared
    documents it reads; one of this group starts its control phase. *)
Inductive registered := NoAuthority | ForeignTrees (trees : list bytes) | SyncControl.
Definition register (conn : Z) (peer : bytes) (direction : Direction) (before : gset Z) (l : Links) : Links * registered :=
  let l := push_conn (conn, peer) l in
  if negb (bool_decide (peer ∈ members)) then
    match reads_shared peer with
    | [] => (l, NoAuthority)
    | trees => (set_phase conn Ready l, ForeignTrees trees)
    end
  else
    let same_peer : gset Z := list_to_set (filter (λ c, c.2 = peer ∧ c.1 ∈ before) (conns l)).*1 in
    let l := set_predecessors (<[conn := same_peer]> (connection_predecessors l)) l in
    let l := set_phase conn AwaitUs l in
    let l := if bool_decide (direction = Outbound) then set_initiator conn l else l in
    (rebuild_ready_peers l, SyncControl).
End Connect.
(** The last piece for a foreign device: which content waits for which authority. *)
Definition await_authority (conn : Z) (pending : gmap bytes (list bytes)) (l : Links) : Links := set_foreign (<[conn := pending]> (foreign_sync l)) l.
Definition foreign_content (conn : Z) (tree : bytes) (l : Links) : Links * list bytes :=
  match foreign_sync l !! conn with
  | Some pending => (set_foreign (<[conn := delete tree pending]> (foreign_sync l)) l, default [] (pending !! tree))
  | None => (l, [])
  end.

(** ** The event pump *)
Definition connection_of (conn : Z) (l : Links) : option (Z * bytes) := head (filter (λ c, c.1 = conn) (conns l)).
(** Keyhive's events are in: the connection is ready, and takes over from those the
    peer had before it was dialed. *)
Definition supersede (conn : Z) (l : Links) : Links * list (Z * bytes) :=
  let l := set_phase conn Ready l in
  let ids := default ∅ (connection_predecessors l !! conn) in
  let l := set_predecessors (delete conn (connection_predecessors l)) l in
  let doomed := filter (λ c, c.1 ∈ ids) (conns l) in
  (foldl (λ l c, forget_connection c.1 l) l doomed, doomed).
(** Of several ready connections to one peer, the one both ends keep: dialed by the
    smaller device id where there is one, the newest among those. *)
Definition ready_to (peer : bytes) (l : Links) : list (Z * bytes) := filter (λ c, c.2 = peer ∧ control_phases l !! c.1 = Some Ready) (conns l).
Definition keeps (l : Links) (prefer_outbound preferred_exists : bool) (c : Z * bytes) : bool :=
  negb preferred_exists || eqb (bool_decide (c.1 ∈ control_initiators l)) prefer_outbound.
Definition newest (l : list (Z * bytes)) : option Z :=
  foldl (λ m c, match m with Some x => Some (Z.max x c.1) | None => Some c.1 end) None l.
Definition elect (device peer : bytes) (l : Links) : option (Z * list (Z * bytes)) :=
  let prefer_outbound := bytes_leb device peer && negb (bool_decide (device = peer)) in
  let ready := ready_to peer l in
  let preferred_exists := existsb (λ c, eqb (bool_decide (c.1 ∈ control_initiators l)) prefer_outbound) ready in
  winner ← newest (filter (λ c, keeps l prefer_outbound preferred_exists c = true) ready);
  Some (winner, filter (λ c, c.1 ≠ winner) ready).
(** Whether the catalog is to be sent on it, and which trees are then requested. *)
Definition send_catalog (conn : Z) (l : Links) : Links * bool := (set_catalog_sent conn l, negb (bool_decide (conn ∈ catalog_sent l))).
Definition ready_catalog (phase : option ControlPhase) (catalog : option (list bytes)) : option (list bytes) :=
  if bool_decide (phase = Some Ready) then catalog else None.
Definition catalog_requests (conn : Z) (content : list bytes) (current : bytes → bool) (l : Links) : list bytes :=
  match ready_catalog (control_phases l !! conn) (remote_catalogs l !! conn) with
  | None => []
  | Some remote =>
    match connection_of conn l with
    | None => []
    | Some _ =>
      if negb (bool_decide (conn ∈ control_initiators l)) then [] else
      filter (λ tree, is_opaque_tree tree = false ∨ current tree = true) (sorted (content ++ remote))
    end
  end.
Definition extension {ShaI : Sha256} (members : gset bytes) (conn : Z) (peer b : bytes) (l : Links) : Links * bool :=
  let registered := bool_decide (is_Some (control_phases l !! conn)) in
  let '(complete, pending, done) := retain_catalog (remote_catalogs l) (pending_catalogs l) conn registered (bool_decide (peer ∈ members)) b in
  (set_catalogs complete pending l, done).
(** Whether the peer is gone with the connection. *)
Definition closed (conn : Z) (peer : option bytes) (l : Links) : Links * bool :=
  let l := rebuild_ready_peers (forget_connection conn l) in
  (l, negb (match peer with Some p => existsb (λ c, bool_decide (c.2 = p)) (conns l) | None => false end)).

(** ** Every interleaving *)
Inductive Stage := Idle | SettlingUs (conn : Z) | SettlingKeyhive (conn : Z) | Retiring (conn : Z).
(** What was seen of each connection: how it was registered, and which control
    trees finished, in order. *)
Inductive Seen := Joined (conn : Z) (peer : bytes) | ForeignJoined (conn : Z) (peer : bytes) | UsFinished (conn : Z) | KeyhiveFinished (conn : Z).
Record System := mkSystem { links : Links; stage : Stage; device_members : gset bytes; seen : list Seen }.
(** A connection's id is new, and those that were there when it was dialed are not. *)
Definition known (conn : Z) (t : list Seen) : Prop := ∃ p, Joined conn p ∈ t ∨ ForeignJoined conn p ∈ t.
Definition joined (ms : gset bytes) (conn : Z) (peer : bytes) : Seen := if bool_decide (peer ∈ ms) then Joined conn peer else ForeignJoined conn peer.
Section Step.
Context {ShaI : Sha256}.
Inductive step : System → System → Prop :=
| step_connect authorities conn peer direction before l s ms t :
    ¬ known conn t → (∀ i, i ∈ before → known i t) →
    step (mkSystem l s ms t) (mkSystem (register ms authorities conn peer direction before l).1 s ms (t ++ [joined ms conn peer]))
| step_await conn pending l s ms t : step (mkSystem l s ms t) (mkSystem (await_authority conn pending l) s ms t)
| step_members ms' l s ms t : step (mkSystem l s ms t) (mkSystem l s ms' t)
| step_us_finished conn l ms t : control_phases l !! conn = Some AwaitUs →
    step (mkSystem l Idle ms t) (mkSystem l (SettlingUs conn) ms (t ++ [UsFinished conn]))
| step_us_settled conn l ms t : step (mkSystem l (SettlingUs conn) ms t) (mkSystem (set_phase conn AwaitKeyhive l) Idle ms t)
| step_keyhive_finished conn l ms t : control_phases l !! conn = Some AwaitKeyhive →
    step (mkSystem l Idle ms t) (mkSystem l (SettlingKeyhive conn) ms (t ++ [KeyhiveFinished conn]))
| step_keyhive_settled conn l ms t : step (mkSystem l (SettlingKeyhive conn) ms t) (mkSystem (supersede conn l).1 (Retiring conn) ms t)
| step_retired conn l ms t : step (mkSystem l (Retiring conn) ms t) (mkSystem (rebuild_ready_peers l) Idle ms t)
| step_sent conn l ms t : step (mkSystem l Idle ms t) (mkSystem (send_catalog conn l).1 Idle ms t)
| step_authority conn tree l ms t : step (mkSystem l Idle ms t) (mkSystem (foreign_content conn tree l).1 Idle ms t)
| step_extension conn peer b l ms t : step (mkSystem l Idle ms t) (mkSystem (extension ms conn peer b l).1 Idle ms t)
| step_closed conn peer l ms t : step (mkSystem l Idle ms t) (mkSystem (closed conn peer l).1 Idle ms t).
End Step.
Definition initial (ms : gset bytes) : System := mkSystem Links_new Idle ms [].
