(* ===== verification/LinksFacts.v ===== *)
(** * Which connections opaque content may flow over

    Over every interleaving of dials, of the event pump and of changes to the
    group: a peer counted ready has run the control phase on every live connection
    (or was registered as a device of another group); the pump always finds a
    connection to keep, and both ends of two opposite dials keep the same one. *)
From S2P Require Import Prelude BTree Crypto Text Opaque Policy Trees Catalog Links.

(** ** Counting *)
Definition to_peer (p : bytes) (cs : list (Z * bytes)) : list (Z * bytes) := filter (λ c, c.2 = p) cs.
Definition ready_of (ph : gmap Z ControlPhase) (cs : list (Z * bytes)) : list (Z * bytes) := filter (λ c, ph !! c.1 = Some Ready) cs.
Lemma count_lookup ph cs p : foldl (count_conn ph) ∅ cs !! p =
  if bool_decide (to_peer p cs = []) then None else Some (length (to_peer p cs), length (ready_of ph (to_peer p cs))).
Proof.
  induction cs as [|c cs IH] using rev_ind; [done|]. rewrite foldl_app. cbn [foldl]. unfold count_conn at 1.
  set (m := foldl (count_conn ph) ∅ cs) in *. unfold to_peer in *. rewrite filter_app. destruct (decide (c.2 = p)) as [<-|Hne].
  - rewrite (filter_cons_True _ c []), filter_nil by done. rewrite (bool_decide_false (_ ++ [c] = [])) by (intros [_ [=]]%app_eq_nil). rewrite IH.
    unfold ready_of. rewrite filter_app, !length_app. cbn [length]. destruct (bool_decide_reflect (filter (λ c0 : Z * bytes, c0.2 = c.2) cs = [])) as [Hn|Hn].
    + rewrite Hn. cbn [default from_option id]. rewrite lookup_insert_eq. cbn. case_bool_decide as Hr; [by rewrite decide_True|by rewrite decide_False].
    + cbn [default from_option id]. rewrite lookup_insert_eq. f_equal. case_bool_decide as Hr; [rewrite (filter_cons_True _ c []), filter_nil by done|rewrite (filter_cons_False _ c []), filter_nil by done]; cbn; f_equal; lia.
  - rewrite (filter_cons_False _ c []), filter_nil, app_nil_r by done. destruct (default _ _) as [all ready]. by rewrite lookup_insert_ne.
Qed.
Lemma all_of_filter {X} (P : X → Prop) `{!∀ x, Decision (P x)} l : length (filter P l) = length l → ∀ x, x ∈ l → P x.
Proof.
  induction l as [|y l IH]; [by intros _ x ?%elem_of_nil|]. destruct (decide (P y)) as [Hy|Hn].
  - rewrite filter_cons_True by done. cbn. intros [= Hl] x [->|Hx]%elem_of_cons; [done|by apply IH].
  - rewrite filter_cons_False by done. cbn. pose proof (length_filter P l). lia.
Qed.
Lemma elem_of_to_peer p cs c : c ∈ to_peer p cs ↔ c.2 = p ∧ c ∈ cs.
Proof. unfold to_peer. by rewrite list_elem_of_filter. Qed.
Lemma rebuilt l p n : ready_peers (rebuild_ready_peers l) !! p = Some n →
  (∃ i, (i, p) ∈ conns l) ∧ ∀ i, (i, p) ∈ conns l → control_phases l !! i = Some Ready.
Proof.
  unfold rebuild_ready_peers, live_counts. cbn [ready_peers]. rewrite lookup_omap, count_lookup. destruct (bool_decide_reflect (to_peer p (conns l) = [])) as [|Hn]; [done|].
  cbn. destruct (Nat.eqb_spec (length (to_peer p (conns l))) (length (ready_of (control_phases l) (to_peer p (conns l))))) as [Hl|]; [|done]. intros _. split.
  - destruct (to_peer p (conns l)) as [|[i q] cs] eqn:E; [done|]. exists i. assert ((i, q) ∈ to_peer p (conns l)) as [Hq Hin]%elem_of_to_peer by (rewrite E; left). cbn in Hq. by subst q.
  - intros i Hi. symmetry in Hl. apply (all_of_filter _ _ Hl (i, p)). by apply elem_of_to_peer.
Qed.

(** ** The invariant *)
Definition completed (conn : Z) (t : list Seen) : Prop := ∃ t1 t2 t3, t = t1 ++ UsFinished conn :: t2 ++ KeyhiveFinished conn :: t3.
Definition foreign (conn : Z) (t : list Seen) : Prop := ∃ p, ForeignJoined conn p ∈ t.
Lemma completed_app conn t u : completed conn t → completed conn (t ++ u).
Proof. intros (t1 & t2 & t3 & ->). exists t1, t2, (t3 ++ u). by rewrite <- !app_assoc, <- !app_comm_cons, <- app_assoc. Qed.
Lemma foreign_app conn t u : foreign conn t → foreign conn (t ++ u).
Proof. intros [p ?]. exists p. apply elem_of_app. by left. Qed.
Lemma known_app conn t u : known conn t → known conn (t ++ u).
Proof. intros [p ?]. exists p. rewrite !elem_of_app. tauto. Qed.
Definition cleared (conn : Z) (t : list Seen) : Prop := completed conn t ∨ foreign conn t.
(** Of the tables, and of what was seen. *)
Record tables_ok (t : list Seen) (l : Links) : Prop := {
  tk_ids : NoDup (conns l).*1;
  tk_known i p : (i, p) ∈ conns l → known i t;
  tk_phases i : is_Some (control_phases l !! i) → ∃ p, (i, p) ∈ conns l;
  tk_await i : control_phases l !! i = Some AwaitKeyhive → UsFinished i ∈ t;
  tk_ready i : control_phases l !! i = Some Ready → cleared i t;
  tk_before i ids : connection_predecessors l !! i = Some ids → i ∉ ids ∧ ∀ j, j ∈ ids → known j t ∧ ∀ p, (j, p) ∈ conns l → (i, p) ∈ conns l;
}.
Definition open_to (t : list Seen) (l : Links) (i : Z) : Prop := control_phases l !! i = Some Ready ∨ control_phases l !! i = None ∧ foreign i t.
Definition ready_open (t : list Seen) (l : Links) : Prop := ∀ p i, is_Some (ready_peers l !! p) → (i, p) ∈ conns l → open_to t l i.
Record peers_ok (t : list Seen) (l : Links) : Prop := {
  pk_live p : is_Some (ready_peers l !! p) → ∃ i, (i, p) ∈ conns l;
  pk_ready : ready_open t l;
}.
Definition stage_ok (t : list Seen) (l : Links) (s : Stage) : Prop :=
  match s with
  | Idle => True
  | SettlingUs c => control_phases l !! c = Some AwaitUs ∧ UsFinished c ∈ t
  | SettlingKeyhive c => control_phases l !! c = Some AwaitKeyhive ∧ completed c t
  | Retiring c => control_phases l !! c = Some Ready
  end.
Record good (y : System) : Prop := {
  gd_tables : tables_ok (seen y) (links y);
  gd_peers : peers_ok (seen y) (links y);
  gd_stage : stage_ok (seen y) (links y) (stage y);
}.
Lemma peers_rebuild t l : peers_ok t (rebuild_ready_peers l).
Proof. split; intros p; [|intros i]; intros [n Hn]; apply rebuilt in Hn as [H1 H2]; [done|]. intros Hi. left. by apply H2. Qed.
Lemma open_app t u l i : open_to t l i → open_to (t ++ u) l i.
Proof. intros [?|[? ?]]; [by left|right; split; [done|by apply foreign_app]]. Qed.
Lemma peers_seen t l e : peers_ok t l → peers_ok (t ++ [e]) l.
Proof. intros [H1 H2]. split; [done|]. intros p i Hp Hi. by apply open_app, (H2 p). Qed.
Lemma tables_rebuild t l : tables_ok t l → tables_ok t (rebuild_ready_peers l).
Proof. intros []. by split. Qed.
Lemma conns_unique t l i p q : tables_ok t l → (i, p) ∈ conns l → (i, q) ∈ conns l → p = q.
Proof.
  intros [Hn _ _ _ _ _] Hp Hq. apply list_elem_of_lookup in Hp as [n Hp], Hq as [m Hq].
  assert (n = m) as ->; [|congruence]. eapply (NoDup_lookup _ _ _ i Hn); rewrite list_lookup_fmap; [by rewrite Hp|by rewrite Hq].
Qed.
(** *** Dialing *)
Lemma tables_push t l conn peer e : tables_ok t l → ¬ known conn t → known conn (t ++ [e]) → tables_ok (t ++ [e]) (push_conn (conn, peer) l).
Proof.
  intros [H1 H2 H3 H4 H5 H6] Hn He. assert (∀ p, (conn, p) ∉ conns l) as Hnew by (intros p Hp; by apply Hn, (H2 conn p)). split; cbn.
  - rewrite fmap_app. apply NoDup_app. split_and!; [done| |apply NoDup_singleton]. intros i ((j & q) & -> & Hj)%list_elem_of_fmap Hi%list_elem_of_singleton. cbn in Hi. subst j. by apply (Hnew q).
  - intros i p [Hi|[= -> ->]%list_elem_of_singleton]%elem_of_app; [by eapply known_app, H2|done].
  - intros i [p Hp]%H3. exists p. apply elem_of_app. by left.
  - intros i Hi%H4. apply elem_of_app. by left.
  - intros i [?|?]%H5; [left; by apply completed_app|right; by apply foreign_app].
  - intros i ids Hi. destruct (H6 i ids Hi) as [Ha Hb]. split; [done|]. intros j Hj. destruct (Hb j Hj) as [Hk Hc]. split; [by apply known_app|].
    intros p [Hin|[= -> ->]%list_elem_of_singleton]%elem_of_app; [apply elem_of_app; left; by apply Hc|done].
Qed.
Lemma tables_phase t l conn phase : tables_ok t l → (∃ p, (conn, p) ∈ conns l) → (phase = AwaitKeyhive → UsFinished conn ∈ t) → (phase = Ready → cleared conn t) →
  tables_ok t (set_phase conn phase l).
Proof.
  intros [H1 H2 H3 H4 H5 H6] Hc Ha Hr. split; cbn; [done|done| | | |done].
  - intros i [<-|[_ ?]]%lookup_insert_is_Some; [done|by apply H3].
  - intros i [[<- E]|[_ ?]]%lookup_insert_Some; [by apply Ha|by apply H4].
  - intros i [[<- E]|[_ ?]]%lookup_insert_Some; [by apply Hr|by apply H5].
Qed.
Lemma peers_phase t l conn phase : peers_ok t l → phase = Ready ∨ (∃ x, control_phases l !! conn = Some x ∧ x ≠ Ready) → peers_ok t (set_phase conn phase l).
Proof.
  intros [H1 H2] Hp. split; [done|]. intros p i Hi Hin. unfold open_to. cbn. specialize (H2 p i Hi Hin). destruct (decide (conn = i)) as [->|Hne]; [|by rewrite lookup_insert_ne].
  destruct Hp as [->|(x & Hx & Hr)]; [left; by rewrite lookup_insert_eq|]. destruct H2 as [?|[? _]]; congruence.
Qed.
Lemma tables_forget t l conn : tables_ok t l → tables_ok t (forget_connection conn l).
Proof.
  intros [H1 H2 H3 H4 H5 H6]. split; cbn.
  - clear -H1. induction (conns l) as [|c cs IH]; [done|]. cbn in H1. apply NoDup_cons in H1 as [Hn Hd]. destruct (decide (c.1 ≠ conn)).
    + rewrite filter_cons_True by done. cbn. apply NoDup_cons. split; [|by apply IH]. intros (x & Hx & [_ Hin]%list_elem_of_filter)%list_elem_of_fmap. apply Hn. rewrite Hx. by apply list_elem_of_fmap_2.
    + rewrite filter_cons_False by done. by apply IH.
  - intros i p [_ Hi]%list_elem_of_filter. by apply (H2 i p).
  - intros i [Hne [p Hp]%H3]%lookup_delete_is_Some. exists p. by apply list_elem_of_filter.
  - intros i [_ Hi]%lookup_delete_Some. by apply H4.
  - intros i [_ Hi]%lookup_delete_Some. by apply H5.
  - intros i ids Hi. rewrite lookup_fmap in Hi. destruct (delete conn (connection_predecessors l) !! i) as [ids0|] eqn:E; [|done]. injection Hi as <-.
    apply lookup_delete_Some in E as [Hne Hi]. destruct (H6 i ids0 Hi) as [Ha Hb]. split; [set_solver|]. intros j [Hj Hjc]%elem_of_difference. destruct (Hb j Hj) as [Hk Hc]. split; [done|].
    intros p [_ Hin]%list_elem_of_filter. apply list_elem_of_filter. split; [done|]. by apply Hc.
Qed.
(** Forgetting connections may leave a ready peer without one; the rebuild follows. *)
Lemma peers_forget t l conn : ready_open t l → ready_open t (forget_connection conn l).
Proof. intros H p i Hp [Hne Hi]%list_elem_of_filter. unfold open_to. cbn in Hne |- *. rewrite lookup_delete_ne by done. by apply (H p). Qed.
Lemma forget_all t (doomed : list (Z * bytes)) l : tables_ok t l →
  let l' := foldl (λ l c, forget_connection c.1 l) l doomed in
  tables_ok t l' ∧ ready_peers l' = ready_peers l ∧
  (∀ c, c ∈ conns l' ↔ c ∈ conns l ∧ c.1 ∉ doomed.*1) ∧ (∀ i, i ∉ doomed.*1 → control_phases l' !! i = control_phases l !! i) ∧
  (ready_open t l → ready_open t l').
Proof.
  revert l. induction doomed as [|c doomed IH]; intros l Hl; cbn [foldl]; [split_and!; [done|done| |done|done]; intros c; rewrite elem_of_nil; tauto|].
  destruct (IH (forget_connection c.1 l) (tables_forget t l c.1 Hl)) as (H1 & H2 & H3 & H4 & H5). split_and!; [done|done| | |].
  - intros x. rewrite H3, fmap_cons, elem_of_cons. cbn [conns forget_connection]. rewrite list_elem_of_filter. tauto.
  - intros i. rewrite fmap_cons, elem_of_cons. intros Hi. rewrite H4 by tauto. cbn. apply lookup_delete_ne. intros <-. tauto.
  - intros Hr. apply H5. by apply peers_forget.
Qed.
Lemma tables_seen t l e : tables_ok t l → tables_ok (t ++ [e]) l.
Proof.
  intros [H1 H2 H3 H4 H5 H6]. split; [done| |done| | |].
  - intros i p Hi. by eapply known_app, H2.
  - intros i Hi%H4. apply elem_of_app. by left.
  - intros i [?|?]%H5; [left; by apply completed_app|right; by apply foreign_app].
  - intros i ids Hi. destruct (H6 i ids Hi) as [Ha Hb]. split; [done|]. intros j Hj. destruct (Hb j Hj). split; [by apply known_app|done].
Qed.
Lemma elem_filter_fst (P : Z * bytes → Prop) `{!∀ c, Decision (P c)} cs i : i ∈ (filter P cs).*1 ↔ ∃ p, (i, p) ∈ cs ∧ P (i, p).
Proof.
  rewrite list_elem_of_fmap. split.
  - intros ([j p] & -> & [? ?]%list_elem_of_filter). by exists p.
  - intros (p & ? & ?). exists (i, p). split; [done|]. by apply list_elem_of_filter.
Qed.
Lemma register_good ms authorities conn peer direction before t l s : ¬ known conn t → (∀ i, i ∈ before → known i t) →
  tables_ok t l → peers_ok t l → stage_ok t l s →
  let l' := (register ms authorities conn peer direction before l).1 in
  tables_ok (t ++ [joined ms conn peer]) l' ∧ peers_ok (t ++ [joined ms conn peer]) l' ∧ stage_ok (t ++ [joined ms conn peer]) l' s.
Proof.
  intros Hn Hb Ht Hp Hs.
  assert (known conn (t ++ [joined ms conn peer])) as Hk by (exists peer; unfold joined; rewrite !elem_of_app, !list_elem_of_singleton; case_bool_decide; auto).
  pose proof (tables_push t l conn peer _ Ht Hn Hk) as Ht1. assert ((conn, peer) ∈ conns (push_conn (conn, peer) l)) as Hin by (apply elem_of_app; right; left).
  assert (∀ p, (conn, p) ∉ conns l) as Hnew by (intros p Hx; by apply Hn, (tk_known _ _ Ht conn p)).
  assert (control_phases l !! conn = None) as Hph by (apply eq_None_not_Some; intros [p Hx]%(tk_phases _ _ Ht); by apply (Hnew p)).
  assert (∀ l' ph, control_phases l' = <[conn:=ph]> (control_phases l) ∨ control_phases l' = control_phases l → stage_ok (t ++ [joined ms conn peer]) l' s) as Hst.
  { intros l' ph Hl'. assert (∀ c x, control_phases l !! c = Some x → control_phases l' !! c = Some x) as Hx.
    { intros c x Hc. destruct Hl' as [->| ->]; [|done]. rewrite lookup_insert_ne; [done|]. intros <-. congruence. }
    destruct s; cbn in *; [done| | |by apply Hx].
    - destruct Hs. split; [by apply Hx|]. apply elem_of_app. by left.
    - destruct Hs. split; [by apply Hx|by apply completed_app]. }
  unfold register. destruct (bool_decide_reflect (peer ∈ ms)) as [Hm|Hm]; cbn [negb].
  - cbn [fst]. split_and!; [|by apply peers_rebuild|by destruct (bool_decide _); apply (Hst _ AwaitUs); left].
    apply tables_rebuild. set (same := list_to_set _).
    assert (tables_ok (t ++ [joined ms conn peer]) (set_predecessors (<[conn:=same]> (connection_predecessors l)) (push_conn (conn, peer) l))) as H1.
    { destruct Ht1 as [K1 K2 K3 K4 K5 K6]. split; [exact K1|exact K2|exact K3|exact K4|exact K5|]. cbn. intros i ids [[<- <-]|[Hne Hi]]%lookup_insert_Some; [|by apply K6].
      split; [intros (p & Hx & _ & Hbx)%elem_of_list_to_set%elem_filter_fst; by apply Hn, Hb|].
      intros j (q & Hjq & Hpe & Hbj)%elem_of_list_to_set%elem_filter_fst. cbn in Hpe, Hbj. subst q. split; [by apply known_app, Hb|]. intros p Hjp.
      assert (tables_ok (t ++ [joined ms conn peer]) (push_conn (conn, peer) l)) as Htk by (by split).
      assert (p = peer) as -> by (eapply (conns_unique _ _ j _ _ Htk); [exact Hjp|exact Hjq]). exact Hin. }
    assert (tables_ok (t ++ [joined ms conn peer]) (set_phase conn AwaitUs (set_predecessors (<[conn:=same]> (connection_predecessors l)) (push_conn (conn, peer) l)))) as H2
      by (apply tables_phase; [exact H1|by exists peer|done|done]).
    destruct (bool_decide _); [destruct H2; by split|exact H2].
  - assert (foreign conn (t ++ [joined ms conn peer])) as Hf by (exists peer; unfold joined; rewrite bool_decide_false by done; apply elem_of_app; right; left).
    assert (peers_ok (t ++ [joined ms conn peer]) (push_conn (conn, peer) l)) as Hpk.
    { destruct Hp as [P1 P2]. split; cbn.
      - intros p Hx. destruct (P1 p Hx) as [i Hi]. exists i. apply elem_of_app. by left.
      - intros p i Hx [Hi|[= -> ->]%list_elem_of_singleton]%elem_of_app; [by apply open_app, (P2 p)|]. right. split; [done|exact Hf]. }
    destruct (reads_shared authorities peer) as [|tr trs]; cbn [fst].
    + split_and!; [exact Ht1|exact Hpk|by apply (Hst _ Ready); right].
    + split_and!; [|apply peers_phase; [exact Hpk|by left]|by apply (Hst _ Ready); left]. apply tables_phase; [exact Ht1|by exists peer|done|]. intros _. by right.
Qed.
Lemma supersede_good t l conn : tables_ok t l → peers_ok t l → control_phases l !! conn = Some AwaitKeyhive → completed conn t →
  let l' := (supersede conn l).1 in tables_ok t l' ∧ peers_ok t l' ∧ control_phases l' !! conn = Some Ready.
Proof.
  intros Ht Hp Hc Hd. destruct (tk_phases _ _ Ht conn) as [q Hq]; [by eexists|].
  unfold supersede. set (l1 := set_phase conn Ready l).
  assert (tables_ok t l1) as H1 by (apply tables_phase; [done|by exists q|done|intros _; by left]).
  assert (peers_ok t l1) as P1 by (apply peers_phase; [done|by left]).
  set (ids := default ∅ (connection_predecessors l1 !! conn)). set (l2 := set_predecessors _ l1).
  assert (tables_ok t l2) as H2.
  { destruct H1 as [K1 K2 K3 K4 K5 K6]. split; [exact K1|exact K2|exact K3|exact K4|exact K5|]. cbn. intros i x [_ Hi]%lookup_delete_Some. by apply K6. }
  assert (conn ∉ ids ∧ ∀ j, j ∈ ids → ∀ p, (j, p) ∈ conns l → (conn, p) ∈ conns l) as [Hown Hsame].
  { unfold ids. cbn. destruct (connection_predecessors l !! conn) as [s|] eqn:E; cbn; [|set_solver]. destruct (tk_before _ _ Ht conn s E) as [? Hs]. split; [done|]. intros j Hj. by apply Hs. }
  set (doomed := filter (λ c, c.1 ∈ ids) (conns l2)). assert (∀ i, i ∈ doomed.*1 → i ∈ ids) as Hdm by (by intros i (p & _ & ?)%elem_filter_fst).
  destruct (forget_all t doomed l2 H2) as (F1 & F2 & F3 & F4 & F5). cbn [fst]. split_and!; [exact F1| |].
  - split; [|apply F5, (pk_ready _ _ P1)]. intros p Hx. rewrite F2 in Hx. destruct (pk_live _ _ P1 p Hx) as [i Hi]. destruct (decide (i ∈ doomed.*1)) as [Hin|Hn].
    + exists conn. apply F3. split; [apply (Hsame i); [by apply Hdm|exact Hi]|]. intros Hx'. by apply Hown, Hdm.
    + exists i. by apply F3.
  - rewrite F4 by (intros Hx; by apply Hown, Hdm). cbn. by rewrite lookup_insert_eq.
Qed.
Lemma tables_same t l l' : conns l' = conns l → control_phases l' = control_phases l → connection_predecessors l' = connection_predecessors l → tables_ok t l → tables_ok t l'.
Proof. intros E1 E2 E3 [H1 H2 H3 H4 H5 H6]. split; rewrite ?E1, ?E2, ?E3; done. Qed.
Lemma peers_same t l l' : conns l' = conns l → control_phases l' = control_phases l → ready_peers l' = ready_peers l → peers_ok t l → peers_ok t l'.
Proof. intros E1 E2 E3 [H1 H2]. split; [by rewrite E1, E3|]. intros p i. unfold open_to. rewrite E1, E2, E3. apply H2. Qed.
Lemma good_same l l' s ms t : conns l' = conns l → control_phases l' = control_phases l → connection_predecessors l' = connection_predecessors l → ready_peers l' = ready_peers l →
  good (mkSystem l s ms t) → good (mkSystem l' s ms t).
Proof.
  intros E1 E2 E3 E4 [Ht Hp Hs]. split; cbn in *; [by eapply tables_same|by eapply peers_same|]. destruct s; cbn in *; by rewrite ?E2.
Qed.
Section Reachable.
Context {ShaI : Sha256}.
Lemma ready_step y y' : good y → step y y' → good y'.
Proof.
  intros Hg Hs. destruct Hs as [au conn peer dir before l s ms t Hn Hb|conn pend l s ms t|ms' l s ms t|conn l ms t Hc|conn l ms t|conn l ms t Hc|conn l ms t|conn l ms t|conn l ms t|conn tree l ms t|conn peer b l ms t|conn peer l ms t].
  - destruct Hg as [Ht Hp Hst]. cbn in *. destruct (register_good ms au conn peer dir before t l s Hn Hb Ht Hp Hst) as (H1 & H2 & H3). by split.
  - by apply (good_same l).
  - destruct Hg as [Ht Hp Hst]. by split.
  - destruct Hg as [Ht Hp Hst]. split; cbn in *; [by apply tables_seen|by apply peers_seen|]. split; [done|]. apply elem_of_app. right. left.
  - destruct Hg as [Ht Hp [Hc Hu]]. cbn in *. split; cbn; [|apply peers_phase; [done|right; by exists AwaitUs]|done]. apply tables_phase; [done|by apply (tk_phases _ _ Ht); eexists|done|done].
  - destruct Hg as [Ht Hp Hst]. split; cbn in *; [by apply tables_seen|by apply peers_seen|]. split; [done|].
    apply (tk_await _ _ Ht) in Hc as (t1 & t2 & ->)%list_elem_of_split. exists t1, t2, []. by rewrite <- app_assoc.
  - destruct Hg as [Ht Hp [Hc Hd]]. cbn in *. destruct (supersede_good t l conn Ht Hp Hc Hd) as (H1 & H2 & H3). by split.
  - destruct Hg as [Ht Hp Hst]. split; cbn; [by apply tables_rebuild|apply peers_rebuild|done].
  - by apply (good_same l).
  - unfold foreign_content. destruct (foreign_sync l !! conn); by apply (good_same l).
  - unfold extension. destruct (retain_catalog _ _ _ _ _ _) as [[complete pending] done']. by apply (good_same l).
  - destruct Hg as [Ht Hp Hst]. split; cbn; [by apply tables_rebuild, tables_forget|apply peers_rebuild|done].
Qed.
Lemma ready_reachable ms y : rtc step (initial ms) y → good y.
Proof.
  intros Hr. apply (rtc_ind_r (λ y, good y) (initial ms)) in Hr; [done| |intros; by eapply ready_step].
  split; cbn; [|split; cbn; [intros p [x Hx]|intros p i [x Hx]]; discriminate Hx|done].
  split; cbn; [constructor|by intros i p ?%elem_of_nil|intros i [x Hx]|intros i Hx|intros i Hx|intros i x Hx]; discriminate Hx.
Qed.
(** What the storage policy consults. *)
Definition policy_of (y : System) (registers : gmap bytes RegisterValue) (shared : gmap bytes TreeAuthority) : GroupPolicy :=
  mkPolicy (device_members y) (mkLifecycle registers (Z.of_nat <$> Links.ready_peers (links y))) shared.
(** C23: whatever dials, closes, catalogs and changes of the group interleave: storage
    lets a peer read or write an opaque tree only while that tree is current, the
    peer is one of the group's devices and connected, and every live connection to
    it has finished the group document and then Keyhive's events, or was dialed
    when the peer was not of the group. *)
Theorem opaque_needs_control ms y registers shared peer tree action : rtc step (initial ms) y → is_opaque_tree tree = true → action ≠ Delete →
  shared !! tree = None → authorize (policy_of y registers shared) (Remote peer) tree action = Allow →
  status (mkLifecycle registers (Z.of_nat <$> Links.ready_peers (links y))) tree = Some true ∧ peer ∈ device_members y ∧
  (∃ i, (i, peer) ∈ conns (links y)) ∧ ∀ i, (i, peer) ∈ conns (links y) → cleared i (seen y).
Proof.
  intros [Ht Hp _]%ready_reachable Ho Ha Hsh Hal. unfold authorize, policy_of in Hal. cbn [lifecycle members Policy.shared] in Hal. rewrite Ho, Hsh in Hal. cbn [andb] in Hal.
  rewrite (bool_decide_false (action = Delete)) in Hal by done. cbn [negb] in Hal. rewrite andb_true_r in Hal.
  destruct (bool_decide_reflect (status (mkLifecycle registers (Z.of_nat <$> Links.ready_peers (links y))) tree = Some true)) as [Hs|]; [|done]. cbn [negb orb] in Hal.
  destruct (bool_decide_reflect (is_Some (Opaque.ready_peers (mkLifecycle registers (Z.of_nat <$> Links.ready_peers (links y))) !! peer))) as [Hr|]; [|done]. cbn [negb] in Hal.
  destruct (reserved tree); [done|]. destruct (bool_decide_reflect (peer ∈ device_members y)) as [Hm|]; [|done]. cbn in Hr. rewrite lookup_fmap, fmap_is_Some in Hr.
  split_and!; [done|done|by apply (pk_live _ _ Hp)|]. intros i Hi. destruct (pk_ready _ _ Hp peer i Hr Hi) as [Hx|[_ Hx]]; [by apply (tk_ready _ _ Ht)|by right].
Qed.
End Reachable.

(** ** The connection that is kept *)
Lemma newest_Some cs : cs ≠ [] → ∃ c, c ∈ cs ∧ newest cs = Some c.1 ∧ ∀ d, d ∈ cs → d.1 <= c.1.
Proof.
  unfold newest. induction cs as [|c cs IH] using rev_ind; [done|]. intros _. rewrite foldl_app. cbn [foldl]. destruct cs as [|x cs].
  - exists c. cbn. split_and!; [left|done|]. intros d ->%list_elem_of_singleton. lia.
  - destruct IH as (m & Hm & -> & Hall); [done|]. destruct (Z.le_gt_cases c.1 m.1).
    + exists m. rewrite Z.max_l by done. split_and!; [apply elem_of_app; by left|done|]. intros d [Hd| ->%list_elem_of_singleton]%elem_of_app; [by apply Hall|done].
    + exists c. rewrite Z.max_r by lia. split_and!; [apply elem_of_app; right; left|done|]. intros d [Hd| ->%list_elem_of_singleton]%elem_of_app; [specialize (Hall d Hd); lia|lia].
Qed.
Lemma elect_spec device peer l : ready_to peer l ≠ [] →
  ∃ c, c ∈ ready_to peer l ∧ elect device peer l = Some (c.1, filter (λ d, d.1 ≠ c.1) (ready_to peer l)) ∧
    let outbound := bytes_leb device peer && negb (bool_decide (device = peer)) in
    ((∃ d, d ∈ ready_to peer l ∧ bool_decide (d.1 ∈ control_initiators l) = outbound) → bool_decide (c.1 ∈ control_initiators l) = outbound).
Proof.
  intros Hn. unfold elect. set (out := bytes_leb device peer && negb (bool_decide (device = peer))). cbv zeta.
  set (ex := existsb _ _). set (kept := filter (λ c, keeps l out ex c = true) (ready_to peer l)).
  assert (ex = true ↔ ∃ d, d ∈ ready_to peer l ∧ bool_decide (d.1 ∈ control_initiators l) = out) as Hex.
  { unfold ex. rewrite existsb_exists. split; intros (d & Hd & He); exists d; (split; [by apply list_elem_of_In|]); by apply eqb_true_iff. }
  assert (kept ≠ []) as Hk.
  { destruct ex eqn:E.
    - destruct (proj1 Hex eq_refl) as (d & Hd & He). assert (d ∈ kept) as Hin; [|by intros Hx; rewrite Hx in Hin; apply elem_of_nil in Hin].
      apply list_elem_of_filter. split; [|done]. unfold keeps. cbn. by apply eqb_true_iff.
    - destruct (ready_to peer l) as [|d ds] eqn:Er; [done|]. assert (d ∈ kept) as Hin; [|by intros Hx; rewrite Hx in Hin; apply elem_of_nil in Hin].
      apply list_elem_of_filter. split; [done|left]. }
  destruct (newest_Some kept Hk) as (c & [Hkeep Hc]%list_elem_of_filter & -> & _). exists c. cbn [mbind option_bind]. split_and!; [done|done|].
  intros Hd%Hex. unfold keeps in Hkeep. rewrite Hd in Hkeep. cbn in Hkeep. by apply eqb_true_iff.
Qed.
(** when the pump makes a connection ready it finds one to keep among the ready
    ones of that peer, and retires the others: the unwrap of the code never fails. *)
Theorem pump_elects {ShaI : Sha256} ms y conn peer device : rtc step (initial ms) y → stage y = Retiring conn → connection_of conn (links y) = Some (conn, peer) →
  ∃ winner losers, elect device peer (rebuild_ready_peers (links y)) = Some (winner, losers) ∧
    (∃ c, c ∈ ready_to peer (links y) ∧ c.1 = winner) ∧ ∀ c, c ∈ losers ↔ c ∈ ready_to peer (links y) ∧ c.1 ≠ winner.
Proof.
  intros [_ _ Hs]%ready_reachable Hst Hc. rewrite Hst in Hs. cbn in Hs.
  assert ((conn, peer) ∈ ready_to peer (rebuild_ready_peers (links y))) as Hin.
  { apply list_elem_of_filter. split; [by split|]. unfold connection_of in Hc. apply head_Some_elem_of in Hc. by apply list_elem_of_filter in Hc as [_ ?]. }
  destruct (elect_spec device peer (rebuild_ready_peers (links y))) as (c & Hc1 & He & _); [by intros Hx; rewrite Hx in Hin; apply elem_of_nil in Hin|].
  eexists _, _. split; [exact He|]. split; [by exists c|]. intros d. rewrite list_elem_of_filter. tauto.
Qed.
(** two devices that dialed each other at once keep the same wire: the one the
    smaller of the two dialed. *)
Theorem both_ends_agree {W} (a b : bytes) (la lb : Links) (at_a at_b : W → Z) (wires : list W) (by_a : W → bool) (chosen : W) :
  a ≠ b → Inj (=) (=) at_a → Inj (=) (=) at_b →
  (∀ c, c ∈ ready_to b la ↔ ∃ w, w ∈ wires ∧ c = (at_a w, b)) → (∀ c, c ∈ ready_to a lb ↔ ∃ w, w ∈ wires ∧ c = (at_b w, a)) →
  (∀ w, w ∈ wires → bool_decide (at_a w ∈ control_initiators la) = by_a w ∧ bool_decide (at_b w ∈ control_initiators lb) = negb (by_a w)) →
  chosen ∈ wires → (∀ w, w ∈ wires → by_a w = bytes_leb a b ↔ w = chosen) →
  (∃ losers, elect a b la = Some (at_a chosen, losers)) ∧ ∃ losers, elect b a lb = Some (at_b chosen, losers).
Proof.
  intros Hne Ia Ib Ra Rb Hi Hc Hu. pose proof (proj2 (Hu chosen Hc) eq_refl) as Hch.
  assert (bytes_leb b a = negb (bytes_leb a b)) as Hba.
  { destruct (bytes_leb a b) eqn:E1, (bytes_leb b a) eqn:E2; try done; [destruct Hne; by apply bytes_leb_antisymm|]. destruct (bytes_leb_total a b); congruence. }
  split.
  - destruct (elect_spec a b la) as (c & [w [Hw ->]]%Ra & He & Hp).
    { intros Hx. assert ((at_a chosen, b) ∈ ready_to b la) as Hin by (apply Ra; by exists chosen). rewrite Hx in Hin. by apply elem_of_nil in Hin. }
    rewrite bool_decide_false, andb_true_r in Hp by done. cbn in Hp. eexists. rewrite He. f_equal. f_equal. cbn. f_equal. apply Hu; [done|]. destruct (Hi w Hw) as [<- _]. apply Hp.
    exists (at_a chosen, b). split; [apply Ra; by exists chosen|]. cbn. by rewrite (proj1 (Hi chosen Hc)).
  - destruct (elect_spec b a lb) as (c & [w [Hw ->]]%Rb & He & Hp).
    { intros Hx. assert ((at_b chosen, a) ∈ ready_to a lb) as Hin by (apply Rb; by exists chosen). rewrite Hx in Hin. by apply elem_of_nil in Hin. }
    rewrite (bool_decide_false (b = a)), andb_true_r, Hba in Hp by done. cbn in Hp. eexists. rewrite He. f_equal. f_equal. cbn. f_equal. apply Hu; [done|].
    destruct (Hi w Hw) as [_ Hw']. rewrite Hw' in Hp. assert (negb (by_a w) = negb (bytes_leb a b)) as E; [|by destruct (by_a w), (bytes_leb a b)].
    apply Hp. exists (at_b chosen, a). split; [apply Rb; by exists chosen|]. cbn. by rewrite (proj2 (Hi chosen Hc)), Hch.
Qed.

Module Concrete.
Import Crypto.Toy.
Definition laptop : bytes := replicate 32 (byte_of 3).
Definition phone : bytes := replicate 32 (byte_of 4).
Definition slot : bytes := replicate 12 (byte_of 1).
Definition live : RegisterValue := mkRegister 1 (replicate 16 (byte_of 2)) (Some GroupSealed).
Definition drive_tree : bytes := tree_id slot (replicate 16 (byte_of 2)).
(** One inbound connection of a member, from its dial to ready. *)
Definition dialed (ms : gset bytes) (au : gmap bytes TreeAuthority) : Links := (register ms au 1 phone Inbound ∅ Links_new).1.
Definition y_us : System := mkSystem (dialed {[phone]} ∅) (SettlingUs 1) {[phone]} [Joined 1 phone; UsFinished 1].
Definition l_keyhive : Links := set_phase 1 AwaitKeyhive (dialed {[phone]} ∅).
Definition seen_all : list Seen := [Joined 1 phone; UsFinished 1; KeyhiveFinished 1].
Definition y_retiring : System := mkSystem (supersede 1 l_keyhive).1 (Retiring 1) {[phone]} seen_all.
Definition y_ready : System := mkSystem (rebuild_ready_peers (supersede 1 l_keyhive).1) Idle {[phone]} seen_all.
Lemma not_known conn : ¬ known conn [].
Proof. by intros (p & [H%elem_of_nil|H%elem_of_nil]). Qed.
Lemma reaches_retiring : rtc step (initial {[phone]}) y_retiring.
Proof.
  eapply rtc_l; [apply (step_connect ∅ 1 phone Inbound ∅ Links_new Idle {[phone]} []); [apply not_known|by intros i ?%elem_of_empty]|].
  eapply rtc_l; [apply (step_us_finished 1); vm_compute; reflexivity|].
  eapply rtc_l; [apply step_us_settled|]. eapply rtc_l; [apply (step_keyhive_finished 1); vm_compute; reflexivity|].
  eapply rtc_l; [apply step_keyhive_settled|]. apply rtc_refl.
Qed.
Lemma reaches_ready : rtc step (initial {[phone]}) y_ready.
Proof. eapply rtc_r; [apply reaches_retiring|]. apply (step_retired 1). Qed.
Lemma opaque_needs_control_witness : authorize (policy_of y_ready {[slot := live]} ∅) (Remote phone) drive_tree Read = Allow ∧
  ∃ i, (i, phone) ∈ conns (links y_ready) ∧ cleared i (seen y_ready).
Proof.
  assert (authorize (policy_of y_ready {[slot := live]} ∅) (Remote phone) drive_tree Read = Allow) as Ha by (vm_compute; reflexivity). split; [exact Ha|].
  destruct (opaque_needs_control {[phone]} y_ready {[slot := live]} ∅ phone drive_tree Read reaches_ready ltac:(vm_compute; reflexivity) ltac:(done) (lookup_empty _) Ha) as (_ & _ & (i & Hi) & Hall).
  exists i. split; [exact Hi|by apply Hall].
Defined.
Lemma pump_elects_witness : ∃ winner losers, elect laptop phone (rebuild_ready_peers (links y_retiring)) = Some (winner, losers).
Proof.
  destruct (pump_elects {[phone]} y_retiring 1 phone laptop reaches_retiring eq_refl ltac:(vm_compute; reflexivity)) as (w & ls & He & _). exists w, ls. exact He.
Defined.
(** The laptop's second connection to the phone is one it dialed itself. *)
Definition end_a : Links := mkLinks [(1, phone); (2, phone)] {[1 := Ready; 2 := Ready]} {[2]} ∅ ∅ ∅ ∅ ∅ ∅.
Definition end_b : Links := mkLinks [(7, laptop); (5, laptop)] {[7 := Ready; 5 := Ready]} {[5]} ∅ ∅ ∅ ∅ ∅ ∅.
Definition at_a (w : bool) : Z := if w then 2 else 1.
Definition at_b (w : bool) : Z := if w then 7 else 5.
Lemma both_ends_agree_witness : (∃ losers, elect laptop phone end_a = Some (2, losers)) ∧ ∃ losers, elect phone laptop end_b = Some (7, losers).
Proof.
  assert (ready_to phone end_a = [(1, phone); (2, phone)]) as Ea by (vm_compute; reflexivity).
  assert (ready_to laptop end_b = [(7, laptop); (5, laptop)]) as Eb by (vm_compute; reflexivity).
  apply (both_ends_agree laptop phone end_a end_b at_a at_b [true; false] id true); [by intros [=]%(f_equal head)| | | | | | |].
  - by intros [] [].
  - by intros [] [].
  - intros c. rewrite Ea. split; [intros [->|[->|H%elem_of_nil]%elem_of_cons]%elem_of_cons; [exists false|exists true|done]; (split; [|done]); rewrite !elem_of_cons; auto|].
    intros ([] & _ & ->); rewrite !elem_of_cons; auto.
  - intros c. rewrite Eb. split; [intros [->|[->|H%elem_of_nil]%elem_of_cons]%elem_of_cons; [exists true|exists false|done]; (split; [|done]); rewrite !elem_of_cons; auto|].
    intros ([] & _ & ->); rewrite !elem_of_cons; auto.
  - intros [] _; split; vm_compute; reflexivity.
  - left.
  - intros [] _; vm_compute; split; done.
Defined.
(** A device dialed while of another group, and enrolled after: it is counted ready,
    and opaque trees are open to it, though neither control tree was synchronised. *)
Definition shared_tree : bytes := byte_of 2 :: replicate 31 (byte_of 0).
Definition authorities : gmap bytes TreeAuthority := {[shared_tree := mkAuthority {[phone]} ∅]}.
Definition y_enrolled : System := mkSystem (closed 9 None (dialed ∅ authorities)).1 Idle {[phone]} [ForeignJoined 1 phone].
Theorem foreign_link_skips_control : rtc step (initial ∅) y_enrolled ∧ seen y_enrolled = [ForeignJoined 1 phone] ∧
  authorize (policy_of y_enrolled {[slot := live]} authorities) (Remote phone) drive_tree Read = Allow.
Proof.
  split_and!; [|done|vm_compute; reflexivity].
  eapply rtc_l; [apply (step_connect authorities 1 phone Inbound ∅ Links_new Idle ∅ []); [apply not_known|by intros i ?%elem_of_empty]|].
  eapply rtc_l; [apply (step_members {[phone]})|]. eapply rtc_l; [apply (step_closed 9 None)|]. apply rtc_refl.
Qed.
End Concrete.
