(* ===== verification/Ingest.v ===== *)
(** * Installing what a store or an invitation handed back ([runtime/crates/engine/src/lib.rs])

    [ingest_items] and [document_import_inline], as the calls they make.  Between
    two awaits the engine's cells are read and written in one piece: one reading
    of them, what follows from it, and the storage it leaves. *)
From S2P Require Import Prelude BTree Crypto Text Opaque Policy Trees Storage Journal Items Async.
From S2P Require History.

Section Calls.
Context {A : Type}.
Inductive call :=
| Hydrate
| OpenUs
| OpenDocument (partition : string)
| ReadCells
| WriteStorage (s : SnapshotStorage)
| HydrateTree (tree : bytes) (commits : list LooseCommit) (fragments : list Fragment)
| Absorb (tree : bytes)
| ReconcileOpaque
| RetireTree (tree : bytes)
| SettlePersistence.
Definition ans (c : call) : Type :=
  match c with
  | Hydrate | OpenUs | OpenDocument _ | HydrateTree _ _ _ | ReconcileOpaque | RetireTree _ => result string unit
  | ReadCells => Cells A
  | WriteStorage _ | SettlePersistence => unit
  | Absorb _ => bool
  end.
Abbreviation prog := (Async.prog ans).

Section Ingest.
Context {SedI : Sedimentree} {VerI : TryVerify} {AuI : Authorities} {ShaI : Sha256} {BlI : Blake3}.
Definition read_cells : prog (Cells A) := Async.call (ans := ans) ReadCells.

(** The group document first, then Keyhive's events, then the rest. *)
Definition ingest_rank (tree : bytes) : nat :=
  if bool_decide (tree = us_tree) then 0 else if bool_decide (tree = keyhive_tree) then 1 else 2.
(** [sort_by_key], which is stable, on three ranks. *)
Definition ingest_order (keys : list bytes) : list bytes :=
  filter (λ t, ingest_rank t = 0%nat) keys ++ filter (λ t, ingest_rank t = 1%nat) keys ++ filter (λ t, ingest_rank t = 2%nat) keys.
Definition by_tree (items : list StoreItem) : gmap bytes (list StoreItem) :=
  foldl (λ m item, <[si_tree item := default [] (m !! si_tree item) ++ [item]]> m) ∅ items.
Definition landing (kind : ItemKind) (items : list StoreItem) : list Item :=
  (λ i, mkItem (si_signed i) (si_blob i)) <$> filter (λ i, si_kind i = kind) items.
Definition installed (c : Cells A) (tree : bytes) (taken : list StoreItem) : SnapshotStorage :=
  restore (storage c) tree (landing ItemCommit taken) (landing ItemFragment taken).
Definition group_changed : result string bool := Err "group changed during store import"%string.

Fixpoint ingest_trees (group : option bytes) (items : gmap bytes (list StoreItem)) (order : list bytes) (fresh : bool) : prog (result string bool) :=
  match order with
  | [] => _ ← Async.call (ans := ans) SettlePersistence; Done (Ok fresh)
  | tree :: order =>
    c ← read_cells;
    if negb (bool_decide (name_key c = group)) then Done group_changed else
    let taken := filter (λ i, accept c i = true) (default [] (items !! tree)) in
    if bool_decide (taken = []) then ingest_trees group items order fresh else
    let s := installed c tree taken in
    if is_opaque_tree tree && negb (bool_decide (opaque_status c tree = Some true))
    then _ ← Async.call (ans := ans) (WriteStorage (forget_tree s tree)); ingest_trees group items order true else
    _ ← Async.call (ans := ans) (WriteStorage s);
    let '(commits, fragments) := metadata s tree in
    _ ←! Async.call (ans := ans) (HydrateTree tree commits fragments);
    c ← read_cells;
    if negb (bool_decide (name_key c = group)) then Done group_changed else
    if bool_decide (tree = us_tree) then
      _ ← Async.call (ans := ans) (Absorb tree);
      _ ←! Async.call (ans := ans) ReconcileOpaque;
      ingest_trees group items order true
    else if negb (is_opaque_tree tree) then
      _ ← Async.call (ans := ans) (Absorb tree);
      ingest_trees group items order true
    else if negb (bool_decide (opaque_status c tree = Some true)) then
      _ ←! Async.call (ans := ans) (RetireTree tree);
      ingest_trees group items order true
    else ingest_trees group items order true
  end.
Definition ingest_items (items : list StoreItem) : prog (result string bool) :=
  c ← read_cells;
  let initial_generation := group_generation c in
  _ ←! Async.call (ans := ans) Hydrate;
  c ← read_cells;
  if negb (group_generation c =? initial_generation) then Done group_changed else
  _ ←! Async.call (ans := ans) OpenUs;
  c ← read_cells;
  if negb (group_generation c =? initial_generation) then Done group_changed else
  ingest_trees (name_key c) (by_tree items) (ingest_order (btree_keys (by_tree items))) false.

(** An invitation's items: the whole batch, or nothing of it. *)
Fixpoint inline_parents (items : list StoreItem) (parents : gmap bytes (list bytes)) : result string (gmap bytes (list bytes)) :=
  match items with
  | [] => Ok parents
  | item :: items =>
    s ← ok_or "inline commit envelope is malformed"%string (try_decode_commit (si_signed item));
    p ← ok_or "inline commit signature is invalid"%string (try_verify_commit s);
    inline_parents items (<[lc_head p := lc_parents p]> parents)
  end.
Definition inline_batch (c : Cells A) (partition : string) (items : list StoreItem) : result string unit :=
  let tree := document_tree partition in
  if existsb (λ i, negb (bool_decide (si_tree i = tree))) items then Err "inline item is for another document tree"%string else
  if existsb (λ i, bool_decide (si_kind i = ItemFragment) || negb (valid_item (item_authors c tree) i)) items
  then Err "inline batch contains an invalid or unsupported item"%string else
  parents ← inline_parents items ∅;
  document ← shared_document partition;
  if bool_decide (is_Some document) && negb (valid_shared_ciphertexts_from_parents tree items parents)
  then Err "inline batch contains a ciphertext with invalid scope"%string else Ok ().
Definition document_import_inline (partition : string) (items : list StoreItem) : prog (result string bool) :=
  _ ←! Async.call (ans := ans) (OpenDocument partition);
  c ← read_cells;
  _ ←! Done (ans := ans) (inline_batch c partition items);
  ingest_items items.
End Ingest.
End Calls.
