(* ===== verification/IngestFacts.v ===== *)
(** * Only what was accepted is installed, and all of it

    Over every history of [ingest_items] and [document_import_inline]: what a write
    of the storage adds is what the checks took against the cells of that moment,
    in the group the import began in; an inline batch lands only as a whole. *)
From S2P Require Import Prelude BTree Crypto Text Opaque Policy Trees Storage Journal Items Async Ingest.
From S2P Require ContactsWire.
From S2P Require History.

(** ** Restoring into the storage *)
Section Restore.
Context {SedI : Sedimentree} {ShaI : Sha256} {BlI : Blake3}.
Section Insert.
Context {T : Type} (ins : SnapshotStorage → T → SnapshotStorage) (key : T → item_key) (val : T → StoreItem).
Context (ins_contents : ∀ s p k, contents (ins s p) k = if decide (k = key p) then Some (val p) else contents s k).
Lemma inserted_all l s :
  (∀ k it, contents (foldl ins s l) k = Some it → contents s k = Some it ∨ ∃ p, p ∈ l ∧ key p = k ∧ val p = it) ∧
  (∀ k, is_Some (contents s k) → is_Some (contents (foldl ins s l) k)) ∧
  ∀ p, p ∈ l → is_Some (contents (foldl ins s l) (key p)).
Proof.
  revert s. induction l as [|p l IH]; intros s; [split_and!; [by left|done|by intros ? ?%elem_of_nil]|]. cbn [foldl].
  destruct (IH (ins s p)) as (H1 & H2 & H3).
  assert (∀ k, is_Some (contents s k) → is_Some (contents (ins s p) k)) as Hk by (intros k Hs; rewrite ins_contents; by case_decide).
  split_and!.
  - intros k it [Hc|(q & Hq & Hkq & Hv)]%H1; [|right; exists q; split_and!; [by right|done..]].
    rewrite ins_contents in Hc. case_decide as Hd; [|by left]. injection Hc as <-. right. exists p. split_and!; [left|done..].
  - intros k Hs. by apply H2, Hk.
  - intros q [->|Hq]%elem_of_cons; [|by apply H3]. apply H2. rewrite ins_contents, decide_True by done. done.
Qed.
End Insert.
Definition restores_commit (s : SnapshotStorage) (tree : bytes) (cs : list Item) (k : item_key) (it : StoreItem) : Prop :=
  ∃ i id st, i ∈ cs ∧ restored_commit s tree i = Some (id, st) ∧ k = (tree, id, ItemCommit) ∧ it = commit_item tree id st.
Definition restores_fragment (tree : bytes) (fs : list Item) (k : item_key) (it : StoreItem) : Prop :=
  ∃ i id st, i ∈ fs ∧ restored_fragment i = Some (id, st) ∧ k = (tree, id, ItemFragment) ∧ it = fragment_item tree id st.
Lemma restore_contents s tree cs fs :
  (∀ k it, contents (restore s tree cs fs) k = Some it → contents s k = Some it ∨ restores_commit s tree cs k it ∨ restores_fragment tree fs k it) ∧
  (∀ k, is_Some (contents s k) → is_Some (contents (restore s tree cs fs) k)) ∧
  ((is_opaque_tree tree = true → status (s_lifecycle s) tree = Some true ∧ fs = []) →
   (∀ k it, restores_commit s tree cs k it ∨ restores_fragment tree fs k it → is_Some (contents (restore s tree cs fs) k))).
Proof.
  unfold restore. destruct (is_opaque_tree tree && _) eqn:Hskip.
  { apply andb_true_iff in Hskip as [Ho Hx]. split_and!; [by left|done|]. intros Hs. destruct (Hs Ho) as [Hst ->]. by rewrite !bool_decide_true in Hx by done. }
  clear Hskip.
  destruct (inserted_all (λ s (p : bytes * (Signed LooseCommit * bytes)), insert_commit tree p.1 p.2 s) (λ p, (tree, p.1, ItemCommit)) (λ p, commit_item tree p.1 p.2)
    (λ s p k, contents_insert_commit tree p.1 p.2 s k) (omap (restored_commit s tree) cs) (set_trees (<[tree:=tree_entry s tree]> (trees s)) s)) as (C1 & C2 & C3).
  set (s1 := foldl _ _ (omap (restored_commit s tree) cs)) in *.
  destruct (inserted_all (λ s (p : bytes * (Signed Fragment * bytes)), insert_fragment tree p.1 p.2 s) (λ p, (tree, p.1, ItemFragment)) (λ p, fragment_item tree p.1 p.2)
    (λ s p k, contents_insert_fragment tree p.1 p.2 s k) (omap restored_fragment fs) s1) as (F1 & F2 & F3).
  split_and!.
  - intros k it [Hk|([id st] & (i & Hi & Hr)%list_elem_of_omap & <- & <-)]%F1; [|right; right; by exists i, id, st].
    apply C1 in Hk as [Hk|([id st] & (i & Hi & Hr)%list_elem_of_omap & <- & <-)]; [left; by rewrite contents_touch in Hk|right; left; by exists i, id, st].
  - intros k Hk. apply F2, C2. by rewrite contents_touch.
  - intros _ k it [(i & id & st & Hi & Hr & -> & _)|(i & id & st & Hi & Hr & -> & _)].
    + apply F2, (C3 (id, st)), list_elem_of_omap. by exists i.
    + apply (F3 (id, st)), list_elem_of_omap. by exists i.
Qed.
End Restore.

Section Facts.
Context {A : Type} {SedI : Sedimentree} {VerI : TryVerify} {AuI : Authorities} {ShaI : Sha256} {BlI : Blake3}.
(** The envelope: its bytes are kept, a verified payload is the one it holds, and
    parents are a sorted set. *)
Context (commit_wire : ∀ b s, try_decode_commit b = Some s → as_wire s = b).
Context (fragment_wire : ∀ b s, try_decode_fragment b = Some s → as_wire s = b).
Context (commit_payload : ∀ s p, try_verify_commit s = Some p → trusted_payload s = Some p).
Context (fragment_payload : ∀ s p, try_verify_fragment s = Some p → trusted_payload s = Some p).
Context (parents_set : ∀ s p, try_verify_commit s = Some p → lc_parents p = btree_elems (list_to_set (lc_parents p))).
Abbreviation ans := (Ingest.ans (A := A)).
Abbreviation prog := (Async.prog ans).
Abbreviation history := (list (Async.event ans)).
Abbreviation E := (@Ev _ ans).
Implicit Types (c : Cells A) (h : history) (item : StoreItem).

Lemma item_eta item k : si_kind item = k → mkStoreItem (si_tree item) (si_commit item) (si_signed item) (si_blob item) k = item.
Proof. intros <-. by destruct item. Qed.
(** What the checks took, the storage takes too, under its own name. *)
Lemma acceptable_commit c item : acceptable c item → si_kind item = ItemCommit →
  ∃ s, restored_commit (storage c) (si_tree item) (mkItem (si_signed item) (si_blob item)) = Some (si_commit item, (s, si_blob item)) ∧ as_wire s = si_signed item.
Proof.
  intros [Ha _ _ _ _ Hn _] Hk. unfold authentic in Ha. rewrite Hk in Ha. destruct Ha as (p & s & Hd & Hv & Hi & Ht & Hh & Hb).
  exists s. split; [|by apply commit_wire]. unfold restored_commit. cbn [it_signed it_blob]. rewrite Hd. cbn [mbind option_bind]. rewrite (commit_payload s p Hv). cbn [mbind option_bind].
  rewrite Hh. assert (negb (is_opaque_tree (si_tree item)) || negb (caller_encrypted (storage c) (si_tree item)) || valid_raw_commit (si_tree item) p (si_blob item) = true) as ->; [|done].
  destruct (is_opaque_tree (si_tree item)) eqn:Ho; [|done]. destruct (caller_encrypted _ _) eqn:He; [|done]. cbn [negb orb].
  unfold valid_raw_commit. rewrite <- (parents_set s p Hv), Nat.eqb_refl. cbn [andb]. rewrite Hh. apply bool_decide_eq_true.
  apply (Hn p eq_refl eq_refl). by exists s.
Qed.
Lemma acceptable_fragment c item : acceptable c item → si_kind item = ItemFragment →
  is_opaque_tree (si_tree item) = false ∧
  ∃ s, restored_fragment (mkItem (si_signed item) (si_blob item)) = Some (si_commit item, (s, si_blob item)) ∧ as_wire s = si_signed item.
Proof.
  intros [Ha _ _ _ _ _ _] Hk. unfold authentic in Ha. rewrite Hk in Ha. destruct Ha as (Ho & p & s & Hd & Hv & Hi & Ht & Hh & Hb).
  split; [done|]. exists s. split; [|by apply fragment_wire]. unfold restored_fragment. cbn [it_signed it_blob]. rewrite Hd. cbn [mbind option_bind].
  rewrite (fragment_payload s p Hv). cbn [mbind option_bind]. by rewrite Hh.
Qed.
Lemma elem_of_landing kind l i : i ∈ landing kind l ↔ ∃ item, item ∈ l ∧ si_kind item = kind ∧ i = mkItem (si_signed item) (si_blob item).
Proof.
  unfold landing. rewrite list_elem_of_fmap. split.
  - intros (item & -> & [Hk Hin]%list_elem_of_filter). by exists item.
  - intros (item & Hin & Hk & ->). exists item. split; [done|]. by apply list_elem_of_filter.
Qed.
(** One tree's items, taken against the cells [c]. *)
Record installs (items : list StoreItem) c (tree : bytes) (s : SnapshotStorage) : Prop := {
  in_new k it : contents s k = Some it → contents (storage c) k = Some it ∨ it ∈ items ∧ acceptable c it ∧ StoreItem_key it = k ∧ si_tree it = tree;
  in_kept k : is_Some (contents (storage c) k) → is_Some (contents s k);
  in_all it : it ∈ items → si_tree it = tree → acceptable c it → is_Some (contents s (StoreItem_key it));
}.
Lemma installed_installs c tree items taken : taken = filter (λ i, accept c i = true) (filter (λ i, si_tree i = tree) items) → installs items c tree (installed c tree taken).
Proof.
  intros ->. set (taken := filter _ _).
  assert (∀ it, it ∈ taken ↔ it ∈ items ∧ si_tree it = tree ∧ acceptable c it) as Htk.
  { intros it. unfold taken. rewrite !list_elem_of_filter, accept_iff. tauto. }
  destruct (restore_contents (storage c) tree (landing ItemCommit taken) (landing ItemFragment taken)) as (H1 & H2 & H3). split.
  - intros k it [Hk|[(i & id & st & Hi & Hr & -> & ->)|(i & id & st & Hi & Hr & -> & ->)]]%H1; [by left| |].
    + apply elem_of_landing in Hi as (item & (Hin & <- & Hacc)%Htk & Hkind & ->). destruct (acceptable_commit c item Hacc Hkind) as (s & Hr' & Hw).
      rewrite Hr in Hr'. injection Hr' as -> ->. right. unfold commit_item. cbn [fst snd]. rewrite Hw, (item_eta item ItemCommit Hkind).
      split_and!; [done|done| |done]. unfold StoreItem_key. by rewrite Hkind.
    + apply elem_of_landing in Hi as (item & (Hin & <- & Hacc)%Htk & Hkind & ->). destruct (acceptable_fragment c item Hacc Hkind) as (_ & s & Hr' & Hw).
      rewrite Hr in Hr'. injection Hr' as -> ->. right. unfold fragment_item. cbn [fst snd]. rewrite Hw, (item_eta item ItemFragment Hkind).
      split_and!; [done|done| |done]. unfold StoreItem_key. by rewrite Hkind.
  - exact H2.
  - intros it Hin Ht Hacc. assert (it ∈ taken) as Hit by (by apply Htk).
    assert (is_opaque_tree tree = true → status (s_lifecycle (storage c)) tree = Some true ∧ landing ItemFragment taken = []) as Hop.
    { intros Ho. split; [rewrite <- Ht in Ho |- *; by apply (ac_current _ _ Hacc)|].
      destruct (landing ItemFragment taken) as [|i l] eqn:Hl; [done|]. assert (i ∈ landing ItemFragment taken) as Hi by (rewrite Hl; left).
      apply elem_of_landing in Hi as (item & (_ & Hti & Hai)%Htk & Hki & _). destruct (acceptable_fragment c item Hai Hki) as [Hn _]. congruence. }
    specialize (H3 Hop). unfold StoreItem_key. rewrite Ht. destruct (si_kind it) eqn:Hkind.
    + destruct (acceptable_commit c it Hacc Hkind) as (s & Hr & _). eapply H3. left. do 3 eexists. split_and!; [apply elem_of_landing; by exists it|rewrite <- Ht; exact Hr|done|done].
    + destruct (acceptable_fragment c it Hacc Hkind) as (_ & s & Hr & _). eapply H3. right. do 3 eexists. split_and!; [apply elem_of_landing; by exists it|exact Hr|done|done].
Qed.

(** ** The order of the trees *)
Lemma by_tree_lookup items tree : default [] (by_tree items !! tree) = filter (λ i, si_tree i = tree) items.
Proof.
  unfold by_tree. induction items as [|item items IH] using rev_ind; [done|]. rewrite foldl_app, filter_app. cbn [foldl].
  destruct (decide (si_tree item = tree)) as [<-|Hne].
  - rewrite lookup_insert_eq, IH. cbn [default from_option]. by rewrite (filter_cons_True _ item []), filter_nil by done.
  - rewrite lookup_insert_ne by done. by rewrite IH, (filter_cons_False _ item []), filter_nil, app_nil_r by done.
Qed.
Lemma rank_filter n keys : Forall (λ t, ingest_rank t = n) (filter (λ t, ingest_rank t = n) keys).
Proof. apply Forall_forall. by intros t [? _]%list_elem_of_filter. Qed.
Lemma ranked_app (l k : list bytes) n m : Forall (λ t, (ingest_rank t ≤ n)%nat) l → Forall (λ t, (m ≤ ingest_rank t)%nat) k → (n ≤ m)%nat →
  StronglySorted (λ a b, (ingest_rank a ≤ ingest_rank b)%nat) l → StronglySorted (λ a b, (ingest_rank a ≤ ingest_rank b)%nat) k →
  StronglySorted (λ a b, (ingest_rank a ≤ ingest_rank b)%nat) (l ++ k).
Proof.
  intros Hl Hk Hnm. induction l as [|x l IH]; [done|]. intros Hs Hsk. apply StronglySorted_inv in Hs as [Hs Hx]. inversion Hl; subst. cbn. constructor; [by apply IH|].
  apply Forall_app. split; [done|]. eapply Forall_impl; [exact Hk|]. cbn. lia.
Qed.
Lemma ranked_same (l : list bytes) n : Forall (λ t, ingest_rank t = n) l → StronglySorted (λ a b, (ingest_rank a ≤ ingest_rank b)%nat) l.
Proof. induction 1 as [|x l Hx Hl IH]; [constructor|]. constructor; [done|]. eapply Forall_impl; [exact Hl|]. cbn. lia. Qed.
Lemma ingest_order_sorted keys : StronglySorted (λ a b, (ingest_rank a ≤ ingest_rank b)%nat) (ingest_order keys).
Proof.
  unfold ingest_order. pose proof (rank_filter 0 keys). pose proof (rank_filter 1 keys). pose proof (rank_filter 2 keys).
  apply (ranked_app _ _ 0 1); [eapply Forall_impl; [done|]; cbn; lia| |lia|by eapply ranked_same|].
  - apply Forall_app. split; (eapply Forall_impl; [done|]; cbn; lia).
  - apply (ranked_app _ _ 1 2); [eapply Forall_impl; [done|]; cbn; lia|eapply Forall_impl; [done|]; cbn; lia|lia|by eapply ranked_same|by eapply ranked_same].
Qed.

(** ** The import *)
(** The import began in the group [c0] has. *)
Definition begun c0 h : Prop := ∃ a b t,
  h = [E ReadCells a; E Hydrate (Ok ()); E ReadCells b; E OpenUs (Ok ()); E ReadCells c0] ++ t ∧
  group_generation a = group_generation b ∧ group_generation a = group_generation c0.
Definition importer_may (items : list StoreItem) h (k : call) : Prop :=
  match k with
  | WriteStorage s => ∃ h' c0 c1 tree, h = h' ++ [E ReadCells c1] ∧ begun c0 h ∧ name_key c1 = name_key c0 ∧ installs items c1 tree s
  | HydrateTree tree _ _ => ∀ t cs fs r, E (HydrateTree t cs fs) r ∈ h → (ingest_rank t ≤ ingest_rank tree)%nat
  | _ => True
  end.
Definition wrote h : Prop := ∃ s, E (WriteStorage s) () ∈ h.
Lemma begun_app c0 h t : begun c0 h → begun c0 (h ++ t).
Proof. intros (a & b & u & -> & ? & ?). exists a, b, (u ++ t). by rewrite app_assoc. Qed.
Definition no_effect (e : event ans) : Prop := match e with Ev (WriteStorage _) _ | Ev (HydrateTree _ _ _) _ => False | _ => True end.
Definition hydrated_below (n : nat) h : Prop := ∀ t cs fs r, E (HydrateTree t cs fs) r ∈ h → (ingest_rank t ≤ n)%nat.
Lemma hydrated_quiet n h e : no_effect e → hydrated_below n h → hydrated_below n (h ++ [e]).
Proof. intros He H t cs fs r [Hin|Hin%list_elem_of_singleton]%elem_of_app; [by eapply H|by subst e]. Qed.
Lemma hydrated_next n h tree cs fs r : ingest_rank tree = n → hydrated_below n h → hydrated_below n (h ++ [E (HydrateTree tree cs fs) r]).
Proof. intros <- H t cs' fs' r' [Hin|Hin%list_elem_of_singleton]%elem_of_app; [by eapply H|]. by inversion Hin. Qed.
Lemma hydrated_write n h s : hydrated_below n h → hydrated_below n (h ++ [E (WriteStorage s) ()]).
Proof. intros H t cs fs r [Hin|Hin%list_elem_of_singleton]%elem_of_app; [by eapply H|by inversion Hin]. Qed.
Lemma wrote_quiet h e : no_effect e → wrote (h ++ [e]) ↔ wrote h.
Proof. intros He. split; intros (s & Hs); exists s; [|apply elem_of_app; by left]. by apply elem_of_app in Hs as [?|Hs%list_elem_of_singleton]; [|subst e]. Qed.
Lemma wrote_mono h t : wrote h → wrote (h ++ t).
Proof. intros (s & Hs). exists s. apply elem_of_app. by left. Qed.
Definition answers_fresh (r : result string bool) h : Prop := ∀ b, r = Ok b → b = true ↔ wrote h.
Lemma ingest_trees_wp items group order fresh h c0 : begun c0 h → name_key c0 = group →
  StronglySorted (λ a b, (ingest_rank a ≤ ingest_rank b)%nat) order → (∀ t, t ∈ order → hydrated_below (ingest_rank t) h) →
  fresh = true ↔ wrote h → wp (importer_may items) (ingest_trees group (by_tree items) order fresh) h answers_fresh.
Proof.
  intros Hb Hg. revert fresh h Hb. induction order as [|tree order IH]; intros fresh h Hb Hs Hlow Hf; cbn [ingest_trees].
  { split; [done|]. intros []. intros b [= <-]. by rewrite wrote_quiet. }
  apply StronglySorted_inv in Hs as [Hs Hx]. assert (hydrated_below (ingest_rank tree) h) as Ht by (apply Hlow; left).
  assert (∀ f h', begun c0 h' → hydrated_below (ingest_rank tree) h' → f = true ↔ wrote h' →
    wp (importer_may items) (ingest_trees group (by_tree items) order f) h' answers_fresh) as Hnext.
  { intros f h' Hb' Ht' Hf'. apply IH; [done|done| |done]. intros t Hin u cs fs r Hu. rewrite Forall_forall in Hx. specialize (Hx t Hin). specialize (Ht' u cs fs r Hu). lia. }
  clear IH Hx Hs Hlow. split; [done|]. intros c. cbn [mbind prog_bind prog_bind_].
  destruct (bool_decide_reflect (name_key c = group)) as [Hk|Hk]; cbn [negb]; [|by intros b].
  rewrite by_tree_lookup. set (taken := filter _ _). case_bool_decide as Hn.
  { apply Hnext; [by apply begun_app|by apply hydrated_quiet|by rewrite wrote_quiet]. }
  assert (∃ it, it ∈ taken) as (it & Hit) by (destruct taken as [|it ?]; [done|exists it; left]).
  unfold taken in Hit. rewrite !list_elem_of_filter, accept_iff in Hit. destruct Hit as (Hacc & Htree & Hitems).
  assert (is_opaque_tree tree && negb (bool_decide (opaque_status c tree = Some true)) = false) as ->.
  { destruct (is_opaque_tree tree) eqn:Ho; [|done]. rewrite <- Htree in Ho |- *. by rewrite (ac_current _ _ Hacc Ho), bool_decide_true. }
  split. { exists h, c0, c, tree. split_and!; [done|by apply begun_app|congruence|by apply installed_installs]. }
  intros []. rewrite <- app_assoc. cbn [app]. destruct (metadata _ tree) as [cs fs].
  assert (hydrated_below (ingest_rank tree) (h ++ [E ReadCells c; E (WriteStorage (installed c tree taken)) ()])) as Hw.
  { change [E ReadCells c; E (WriteStorage (installed c tree taken)) ()] with ([E ReadCells c] ++ [E (WriteStorage (installed c tree taken)) ()]).
    rewrite app_assoc. by apply hydrated_write, hydrated_quiet. }
  assert (wrote (h ++ [E ReadCells c; E (WriteStorage (installed c tree taken)) ()])) as Hwr.
  { eexists. apply elem_of_app. right. right. left. }
  apply (begun_app c0 h [E ReadCells c; E (WriteStorage (installed c tree taken)) ()]) in Hb. clear Ht Hf.
  generalize dependent (h ++ [E ReadCells c; E (WriteStorage (installed c tree taken)) ()]). intros g Hbg Hw Hwr.
  split; [exact Hw|]. intros [[]|e]; [|by intros b]. cbn [mbind prog_bind prog_bind_].
  assert (∀ t', Forall no_effect t' → wp (importer_may items) (ingest_trees group (by_tree items) order true) ((g ++ [E (HydrateTree tree cs fs) (Ok ())]) ++ t') answers_fresh) as Hend.
  { intros t' Hq. apply Hnext; [by do 2 apply begun_app| |by split; [intros _; by do 2 apply wrote_mono|]].
    intros u cs' fs' r' [Hin|Hin]%elem_of_app; [by eapply hydrated_next|]. rewrite Forall_forall in Hq. by apply Hq in Hin. }
  split; [done|]. intros c'. cbn [mbind prog_bind prog_bind_]. destruct (bool_decide_reflect (name_key c' = group)) as [Hk'|Hk']; cbn [negb]; [|by intros b].
  destruct (bool_decide_reflect (tree = us_tree)) as [Hu|Hu].
  - split; [done|]. intros b. split; [done|]. intros [[]|e]; [|by intros ?]. cbn [mbind prog_bind prog_bind_]. rewrite <- !(app_assoc _ [_]), app_assoc.
    apply Hend. by repeat constructor.
  - destruct (is_opaque_tree tree); cbn [negb].
    + case_bool_decide; cbn [negb]; [apply (Hend [_]); by repeat constructor|]. split; [done|]. intros [[]|e]; [|by intros ?]. cbn [mbind prog_bind prog_bind_]. rewrite <- (app_assoc _ [_]).
      apply Hend. by repeat constructor.
    + split; [done|]. intros b. rewrite <- (app_assoc _ [_]). apply Hend. by repeat constructor.
Qed.
Lemma ingest_items_wp items : wp (importer_may items) (ingest_items items) [] answers_fresh.
Proof.
  unfold ingest_items. split; [done|]. intros a. split; [done|]. intros [[]|e]; [|by intros ?]. cbn [mbind prog_bind prog_bind_ app].
  split; [done|]. intros b. cbn [mbind prog_bind prog_bind_ app]. destruct (Z.eqb_spec (group_generation b) (group_generation a)) as [Hb|]; cbn [negb]; [|by intros ?].
  split; [done|]. intros [[]|e]; [|by intros ?]. cbn [mbind prog_bind prog_bind_ app]. split; [done|]. intros c. cbn [mbind prog_bind prog_bind_ app].
  destruct (Z.eqb_spec (group_generation c) (group_generation a)) as [Hc|]; cbn [negb]; [|by intros ?].
  apply (ingest_trees_wp _ _ _ _ _ c); [|done|apply ingest_order_sorted| |].
  - exists a, b, []. split_and!; [done|congruence|congruence].
  - intros t _ u cs fs r Hin. rewrite !elem_of_cons in Hin. by destruct Hin as [?|[?|[?|[?|[?|?%elem_of_nil]]]]].
  - split; [done|]. intros (s & Hin). rewrite !elem_of_cons in Hin. by destruct Hin as [?|[?|[?|[?|[?|?%elem_of_nil]]]]].
Qed.
(** C18: Whatever happens meanwhile, an import writes to the storage only while the
    group it began in is still this device's, and a write adds, of one tree, exactly
    those handed-in items the checks take against the cells of that very moment;
    the group document lands before Keyhive's events and those before the rest; and
    it answers that something was new exactly when something was written. *)
Theorem import_installs_accepted items t r : runs (ingest_items items) t r →
  (∀ t1 e t2, t = t1 ++ e :: t2 → importer_may items t1 (asked e)) ∧ ∀ b, r = Some (Ok b) → b = true ↔ wrote t.
Proof.
  intros Hr. destruct (wp_guards _ _ _ _ _ _ (ingest_items_wp items) Hr) as [Hg Hq]. split; [exact Hg|]. intros b ->. by apply Hq.
Qed.

(** ** An invitation's batch *)
Record batch_ok c (partition : string) (items : list StoreItem) : Prop := {
  bo_tree item : item ∈ items → si_tree item = document_tree partition;
  bo_commit item : item ∈ items → si_kind item = ItemCommit;
  bo_authentic item : item ∈ items → authentic (item_authors c (document_tree partition)) item;
  bo_scope item : is_shared_document partition = true → item ∈ items →
    ∃ item' p, item' ∈ items ∧ commit_signed (item_authors c (document_tree partition)) item' p ∧ lc_head p = si_commit item ∧ ciphertext_scope (document_tree partition) item p;
}.
Lemma inline_parents_Ok items m m' : inline_parents items m = Ok m' →
  ∀ id ps, m' !! id = Some ps → m !! id = Some ps ∨ ∃ item s p, item ∈ items ∧ try_decode_commit (si_signed item) = Some s ∧ try_verify_commit s = Some p ∧ lc_head p = id ∧ lc_parents p = ps.
Proof.
  revert m. induction items as [|item items IH]; intros m; cbn [inline_parents]; [intros [= ->]; by left|].
  destruct (try_decode_commit _) as [s|] eqn:Hd; [|done]. cbn [ok_or mbind result_bind]. destruct (try_verify_commit s) as [p|] eqn:Hv; [|done]. cbn [ok_or mbind result_bind].
  intros Hr id ps Hid. destruct (IH _ Hr id ps Hid) as [Hm|(item' & s' & p' & Hin & H)]; [|right; exists item', s', p'; split; [by right|done]].
  apply lookup_insert_Some in Hm as [[<- <-]|[_ Hm]]; [right; exists item, s, p; split_and!; [left|done..]|by left].
Qed.
Lemma existsb_false_iff {X} (f : X → bool) l : existsb f l = false ↔ ∀ x, x ∈ l → f x = false.
Proof.
  rewrite <- not_true_iff_false, existsb_exists. split.
  - intros Hn x Hx. apply not_true_iff_false. intros Hf. apply Hn. exists x. split; [by apply list_elem_of_In|done].
  - intros Ha (x & Hx%list_elem_of_In & Hf). by rewrite Ha in Hf.
Qed.
Lemma inline_batch_Ok c partition items : inline_batch c partition items = Ok () → batch_ok c partition items.
Proof.
  unfold inline_batch. destruct (existsb _ items) eqn:Ht; [done|]. rewrite existsb_false_iff in Ht.
  destruct (existsb (λ i, _ || _) items) eqn:Hv; [done|]. rewrite existsb_false_iff in Hv.
  assert (∀ item, item ∈ items → si_tree item = document_tree partition) as Htree by (intros i Hi; specialize (Ht i Hi); by rewrite negb_false_iff, bool_decide_eq_true in Ht).
  assert (∀ item, item ∈ items → si_kind item = ItemCommit ∧ authentic (item_authors c (document_tree partition)) item) as Hval.
  { intros i Hi. specialize (Hv i Hi). rewrite orb_false_iff, negb_false_iff, bool_decide_eq_false, valid_item_iff in Hv. destruct Hv. by destruct (si_kind i). }
  destruct (inline_parents items ∅) as [parents|] eqn:Hp; [|done]. cbn [mbind result_bind]. pose proof (inline_parents_Ok _ _ _ Hp) as Hpar. clear Hp Ht Hv.
  destruct (shared_document partition) as [d|] eqn:Hd; [|done]. cbn [mbind result_bind]. intros Hs.
  split; [exact Htree|apply Hval|apply Hval|]. intros item Hsh Hin. unfold is_shared_document in Hsh. rewrite Hd in Hsh. destruct d as [d|]; [|done].
  rewrite bool_decide_true in Hs by done. destruct (valid_shared_ciphertexts_from_parents _ _ _) eqn:Hsc; [|done].
  unfold valid_shared_ciphertexts_from_parents in Hsc. rewrite forallb_forall in Hsc. specialize (Hsc item). rewrite <- list_elem_of_In in Hsc. specialize (Hsc Hin).
  destruct (ciphertext_refs (si_blob item)) as [[cr pr]|] eqn:Hc; [|done]. destruct (parents !! si_commit item) as [ps|] eqn:Hps; [|done].
  destruct (Hpar _ _ Hps) as [Hx|(item' & s & p & Hin' & Hdec & Hver & Hh & <-)]; [by rewrite lookup_empty in Hx|]. exists item', p.
  destruct (Hval item' Hin') as [Hk Ha]. unfold authentic in Ha. rewrite Hk in Ha. destruct Ha as (q & s' & Hd' & Hv' & Hrest).
  assert (q = p) as -> by congruence. split_and!; [done|by exists s'|done|].
  unfold scoped_ciphertext in Hsc. rewrite Hc, andb_true_iff, !bool_decide_eq_true in Hsc. destruct Hsc as [-> ->]. exact Hc.
Qed.
Definition inline_may (partition : string) (items : list StoreItem) h (k : call) : Prop :=
  match k with
  | WriteStorage s => ∃ c u, h = [E (OpenDocument partition) (Ok ()); E ReadCells c] ++ u ∧ batch_ok c partition items ∧ importer_may items u (WriteStorage s)
  | _ => True
  end.
(** an invitation's items land only as a whole batch: before anything is written
    every one of them is a loose commit of that document's tree, signed by one of
    its editors over these bytes, and sealed for that commit and its parents; and
    what is then written was checked again, one by one, as every import is. *)
Theorem inline_lands_whole partition items t r : runs (document_import_inline partition items) t r →
  ∀ t1 e t2, t = t1 ++ e :: t2 → inline_may partition items t1 (asked e).
Proof.
  intros Hr. eapply (wp_guards (inline_may partition items) _ [] (λ _ _, True)) in Hr as [Hg _]; [exact Hg|]. clear Hr t r.
  unfold document_import_inline. split; [done|]. intros [[]|e]; [|done]. cbn [mbind prog_bind prog_bind_ app]. split; [done|]. intros c. cbn [mbind prog_bind prog_bind_ app].
  apply wp_result; [done|]. intros [] Hb%inline_batch_Ok.
  eapply wp_mono; [apply (wp_from (inline_may partition items) (importer_may items) _ [E (OpenDocument partition) (Ok ()); E ReadCells c] []); [|apply ingest_items_wp]|done].
  intros u k Hk. destruct k; try done. exists c, u. split_and!; [done|done|exact Hk].
Qed.
End Facts.

Module Concrete.
Import Crypto.Toy ContactsWire.ToySigned.
(** An envelope is its issuer and its payload; it verifies when the parents are a
    sorted set. *)
#[local] Instance sedimentree : Sedimentree := {|
  try_decode_commit b :=
    '(i, (t, h, ps, m)) ← (whole (parse b) : option (bytes * (bytes * bytes * list bytes * bytes)));
    Some (mkSigned b i (Some (mkCommit t h ps m)));
  try_decode_fragment b := None;
  minimize _ cs := cs;
  blob_meta b := b;
  ciphertext_refs b := whole (parse b);
  digest_refs l := mjoin l |}.
#[local] Instance verifies : TryVerify := {|
  try_verify_commit s := p ← trusted_payload s; if bool_decide (lc_parents p = btree_elems (list_to_set (lc_parents p))) then Some p else None;
  try_verify_fragment s := None |}.
#[local] Instance authorities : Authorities := {| decode_events _ := Ok []; identifier _ := Ok () |}.
Lemma commit_wire b s : try_decode_commit b = Some s → as_wire s = b.
Proof. unfold try_decode_commit, sedimentree. destruct (whole (parse b)) as [[i [[[t h] ps] m]]|]; [|done]. by intros [= <-]. Qed.
Lemma fragment_wire b s : try_decode_fragment b = Some s → as_wire s = b.
Proof. done. Qed.
Lemma commit_payload s p : try_verify_commit s = Some p → trusted_payload s = Some p.
Proof. cbn. destruct (trusted_payload s) as [q|]; cbn; [|done]. by case_bool_decide; intros [= <-]. Qed.
Lemma fragment_payload s p : try_verify_fragment s = Some p → trusted_payload s = Some p.
Proof. done. Qed.
Lemma parents_set s p : try_verify_commit s = Some p → lc_parents p = btree_elems (list_to_set (lc_parents p)).
Proof. cbn. destruct (trusted_payload s) as [q|]; cbn; [|done]. by case_bool_decide; intros [= <-]. Qed.

(** A device whose group has one other member, with one shared document. *)
Definition writer : bytes := replicate 4 (byte_of 7).
Definition doc_partition : string := shared_partition (replicate 32 (byte_of 5)).
Definition cells0 : Cells unit := {|
  storage := SnapshotStorage_new (mkLifecycle ∅ ∅);
  documents := ∅;
  us := None;
  device_members := {[writer]};
  shared_authorities := {[document_tree doc_partition := mkAuthority {[writer]} {[writer]}]};
  name_key := Some [];
  group_generation := 1;
|}.
Definition item_of (tree id blob : bytes) (parents : list bytes) : StoreItem :=
  mkStoreItem tree id (write (writer, (tree, id, parents, blob))) blob ItemCommit.
Definition todo_item : StoreItem := item_of (document_tree "todo") [byte_of 1] [byte_of 9] [].
Definition shared_item : StoreItem :=
  let tree := document_tree doc_partition in
  item_of tree [byte_of 1] (write (shared_cref tree [byte_of 1], mjoin (shared_cref tree <$> [[byte_of 2]]))) [[byte_of 2]].
Definition with_storage (s : SnapshotStorage) (c : Cells unit) : Cells unit :=
  mkCells s (documents c) (us c) (device_members c) (shared_authorities c) (name_key c) (group_generation c).
Definition handle (c : Cells unit) (k : call) : option (ans (A := unit) k * Cells unit) :=
  match k with
  | ReadCells => Some (c, c)
  | WriteStorage s => Some ((), with_storage s c)
  | Absorb _ => Some (true, c)
  | SettlePersistence => Some ((), c)
  | Hydrate | OpenUs | OpenDocument _ | HydrateTree _ _ _ | ReconcileOpaque | RetireTree _ => Some (Ok (), c)
  end.
Lemma import_installs_accepted_witness : ∃ t, runs (ingest_items (A := unit) [todo_item]) t (Some (Ok true)) ∧ wrote (A := unit) t.
Proof.
  set (x := run_with handle cells0 (ingest_items [todo_item])).
  assert (x.2 = Some (Ok true)) as He by (vm_compute; reflexivity).
  assert (runs (ingest_items (A := unit) [todo_item]) x.1 x.2) as Hr by exact (run_with_runs handle cells0 _). rewrite He in Hr.
  exists x.1. split; [exact Hr|].
  apply (proj2 (import_installs_accepted commit_wire fragment_wire commit_payload fragment_payload parents_set [todo_item] x.1 _ Hr) true eq_refl). reflexivity.
Defined.
Definition writes (e : event (ans (A := unit))) : bool := match asked e with WriteStorage _ => true | _ => false end.
Lemma inline_lands_whole_witness : ∃ t1 s u, runs (document_import_inline (A := unit) doc_partition [shared_item]) (t1 ++ Ev (WriteStorage s) () :: u) (Some (Ok true)) ∧
  inline_may (A := unit) doc_partition [shared_item] t1 (WriteStorage s).
Proof.
  set (x := run_with handle cells0 (document_import_inline doc_partition [shared_item])).
  assert (x.2 = Some (Ok true)) as He by (vm_compute; reflexivity).
  assert (runs (document_import_inline (A := unit) doc_partition [shared_item]) x.1 x.2) as Hr by exact (run_with_runs handle cells0 _). rewrite He in Hr.
  assert (∃ n s, x.1 !! n = Some (Ev (WriteStorage s) ())) as (n & s & Hn) by (exists 8%nat; vm_compute; eexists; reflexivity).
  exists (take n x.1), s, (drop (S n) x.1). rewrite take_drop_middle by exact Hn. split; [exact Hr|].
  apply (inline_lands_whole commit_wire fragment_wire commit_payload fragment_payload parents_set doc_partition [shared_item] x.1 _ Hr (take n x.1) (Ev (WriteStorage s) ()) (drop (S n) x.1)).
  by rewrite take_drop_middle.
Defined.
(** The comment of [ingest_items] has Keyhive's events first; the code sorts the
    group document before them. *)
Theorem ingest_group_first : us_tree ≠ keyhive_tree ∧ ingest_order [keyhive_tree; us_tree] = [us_tree; keyhive_tree].
Proof. split; vm_compute; [done|reflexivity]. Qed.
End Concrete.
