(* ===== verification/Engine.v ===== *)
(** * The engine's cells and the calls of its operations ([runtime/crates/engine/src/lib.rs])

    [Engine] keeps its state in cells that hold no borrow across an await.  An
    operation is the calls it makes: one reading or writing of all its cells, the
    driver's handle, a connection, the vault, a lock.  What the driver, the peers
    and Keyhive answer is theirs to decide, and between two calls any other task
    may run. *)
From S2P Require Import Prelude BTree Crypto Text Links Opaque Policy Trees Storage Items Async.
From S2P Require History Frontier.

(** [automerge::Fragment]; what of Keyhive's [Access] the code asks for; the
    fragments of a document and their bundles. *)
Record AFragment := mkAFragment {
  af_head : bytes;
  af_level : nat;
  af_boundary : list bytes;
  af_checkpoints : list bytes;
  af_members : list bytes;
}.
Record Access := mkAccess { may_read : bool; may_edit : bool }.
Class Fragmented (A : Type) := {
  fragments : A → list AFragment;
  bundle : A → list AFragment → list bytes;
}.
(** [NewFragment]: the boundary is a set. *)
Record NewFragment := mkNewFragment {
  nf_head : bytes;
  nf_boundary : list bytes;
  nf_checkpoints : list bytes;
  nf_blob : bytes;
}.

(** What a checkpoint carries of the vault. *)
Record VaultState := mkVaultState {
  vs_archive : bytes;
  vs_group : bytes;
  vs_doc : bytes;
  vs_heads : list (bytes * bytes);
  vs_shared_heads : list (bytes * list (bytes * bytes));
}.

(** Three mutexes: one per partition, one for the group document, and the
    persistence boundary. *)
Inductive lock := DocumentWrites (partition : string) | ControlWrite | Boundary.
#[export] Instance lock_eq_dec : EqDecision lock.
Proof. solve_decision. Defined.

Record Engine {A : Type} := mkEngine {
  cells : Cells A;
  net : Links;
  vault : bool;
  pending_vault : option VaultState;
  pending_hydration : option (list bytes);
  pending_opaque_retire : gset bytes;
  pending_opaque_subscribe : gset bytes;
  opaque_nonce : Z;
  control_revision : Z;
  persistence_revision : Z;
  persisted_revision : Z;
}.
Arguments Engine A : clear implicits.
Arguments mkEngine {A}.

(** ** Writing one cell *)
Section Cells.
Context {A : Type}.
Implicit Types (c : Cells A) (e : Engine A).
Definition on_cells (f : Cells A → Cells A) e : Engine A :=
  mkEngine (f (cells e)) (net e) (vault e) (pending_vault e) (pending_hydration e) (pending_opaque_retire e) (pending_opaque_subscribe e)
    (opaque_nonce e) (control_revision e) (persistence_revision e) (persisted_revision e).
Definition on_storage (f : SnapshotStorage → SnapshotStorage) : Engine A → Engine A := on_cells (λ c,
  mkCells (f (storage c)) (documents c) (us c) (device_members c) (shared_authorities c) (name_key c) (group_generation c)).
Definition on_documents (f : gmap string (History.Document A) → gmap string (History.Document A)) : Engine A → Engine A := on_cells (λ c,
  mkCells (storage c) (f (documents c)) (us c) (device_members c) (shared_authorities c) (name_key c) (group_generation c)).
Definition set_us (d : History.Document A) : Engine A → Engine A := on_cells (λ c,
  mkCells (storage c) (documents c) (Some d) (device_members c) (shared_authorities c) (name_key c) (group_generation c)).
Definition set_members (ms : gset bytes) : Engine A → Engine A := on_cells (λ c,
  mkCells (storage c) (documents c) (us c) ms (shared_authorities c) (name_key c) (group_generation c)).
(** The storage shares this cell. *)
Definition on_authorities (f : gmap bytes TreeAuthority → gmap bytes TreeAuthority) : Engine A → Engine A := on_cells (λ c,
  mkCells (set_shared_authorities (f (shared_authorities c)) (storage c)) (documents c) (us c) (device_members c) (f (shared_authorities c)) (name_key c) (group_generation c)).
Definition set_name_key (k : bytes) : Engine A → Engine A := on_cells (λ c,
  mkCells (storage c) (documents c) (us c) (device_members c) (shared_authorities c) (Some k) (group_generation c)).
(** [saturating_add(1)] on a [u64]. *)
Definition saturating_succ (n : Z) : Z := if n =? 2 ^ 64 - 1 then n else n + 1.
Definition next_generation : Engine A → Engine A := on_cells (λ c,
  mkCells (storage c) (documents c) (us c) (device_members c) (shared_authorities c) (name_key c) (saturating_succ (group_generation c))).
Definition set_vault (present : bool) (waiting : option VaultState) e : Engine A :=
  mkEngine (cells e) (net e) present waiting (pending_hydration e) (pending_opaque_retire e) (pending_opaque_subscribe e)
    (opaque_nonce e) (control_revision e) (persistence_revision e) (persisted_revision e).
Definition hydration_taken e : Engine A :=
  mkEngine (cells e) (net e) (vault e) (pending_vault e) None (pending_opaque_retire e) (pending_opaque_subscribe e)
    (opaque_nonce e) (control_revision e) (persistence_revision e) (persisted_revision e).
Definition set_opaque_pending (retire subscribe : gset bytes) e : Engine A :=
  mkEngine (cells e) (net e) (vault e) (pending_vault e) (pending_hydration e) retire subscribe
    (opaque_nonce e) (control_revision e) (persistence_revision e) (persisted_revision e).
Definition set_nonce (n : Z) e : Engine A :=
  mkEngine (cells e) (net e) (vault e) (pending_vault e) (pending_hydration e) (pending_opaque_retire e) (pending_opaque_subscribe e)
    n (control_revision e) (persistence_revision e) (persisted_revision e).
Definition next_control_revision e : Engine A :=
  mkEngine (cells e) (net e) (vault e) (pending_vault e) (pending_hydration e) (pending_opaque_retire e) (pending_opaque_subscribe e)
    (opaque_nonce e) (saturating_succ (control_revision e)) (persistence_revision e) (persisted_revision e).
(** [wrapping_add(1)] *)
Definition next_persistence_revision e : Engine A :=
  mkEngine (cells e) (net e) (vault e) (pending_vault e) (pending_hydration e) (pending_opaque_retire e) (pending_opaque_subscribe e)
    (opaque_nonce e) (control_revision e) ((persistence_revision e + 1) mod 2 ^ 64) (persisted_revision e).
(** The connections; the peers that are ready are the lifecycle's. *)
Definition on_net (f : Links → Links) e : Engine A :=
  let l := f (net e) in
  on_storage (λ s, mkStorage (trees s) (pending s) (settled s) (mkLifecycle (registers (s_lifecycle s)) (Z.of_nat <$> Links.ready_peers l)) (s_shared s))
    (mkEngine (cells e) l (vault e) (pending_vault e) (pending_hydration e) (pending_opaque_retire e) (pending_opaque_subscribe e)
      (opaque_nonce e) (control_revision e) (persistence_revision e) (persisted_revision e)).
Definition set_persisted (n : Z) e : Engine A :=
  mkEngine (cells e) (net e) (vault e) (pending_vault e) (pending_hydration e) (pending_opaque_retire e) (pending_opaque_subscribe e)
    (opaque_nonce e) (control_revision e) (persistence_revision e) n.
Definition set_registers (r : gmap bytes RegisterValue) : Engine A → Engine A :=
  on_storage (λ s, mkStorage (trees s) (pending s) (settled s) (mkLifecycle r (ready_peers (s_lifecycle s))) (s_shared s)).
End Cells.

(** ** The calls *)
Inductive EngineEvent := Changed | PeerClosed (peer : option bytes).
Section Calls.
Context {A : Type}.
Inductive call :=
| Lock (l : lock)
| Unlock (l : lock)
| ReadEngine
| WriteEngine (e : Engine A)
| NowMs
(** the driver's handle *)
| AddCommits (tree : bytes) (commits : list History.NewCommit)
| AddFragment (tree : bytes) (fragment : NewFragment)
| TreeHeads (tree : bytes)
| HydrateTree (tree : bytes) (commits : list LooseCommit) (fragments : list Fragment)
| RemoveTree (tree : bytes)
(** a connection *)
| SyncTree (conn : Z) (tree : bytes)
| Unsubscribe (conn : Z) (tree : bytes)
| Connect (direction : Direction) (expected : option bytes)
| Disconnect (conn : Z)
| SendExtension (conn : Z) (b : bytes)
| Notify (e : EngineEvent)
(** the vault *)
| VaultCreate
| VaultRestore (s : VaultState)
| ReadVault
| GroupDoc
| Seal (cref : bytes) (preds : list bytes) (change : bytes)
| SealShared (document cref : bytes) (preds : list bytes) (change : bytes)
| Confirm (sealed : Frontier.Sealed)
| Cover (members : list bytes)
| Forget (crefs : list bytes)
| OpenBlobs (blobs : list (bytes * bytes)) (known : gset bytes)
| OpenShared (document : bytes) (blobs : list (bytes * bytes)) (known : gset bytes) (parents : gmap bytes (gset bytes))
| OpenRaw (blobs : list (bytes * bytes)) (parents : gmap bytes (gset bytes))
| Unpublished
| Unseen (commit : bytes)
| IngestEvents (b : bytes)
| IngestScoped (b document : bytes)
| IngestAuthority (b : bytes)
| AdoptAuthority (b document : bytes)
| ValidateAuthority (b document group sender_group sender_device : bytes) (edit : bool)
| DocumentMembers (document : bytes)
| DocumentAccess (document device : bytes)
| DocumentAuthority (document : bytes)
| CreateDocument
| ImportGroupProof (proof group device : bytes)
| GrantDocument (document group : bytes) (edit : bool)
| ExportSharedFrontier (document : bytes)
| ImportSharedFrontier (document b : bytes)
| Enroll (card device : bytes)
| ExportContentKeys
| AdoptVault (events content_keys group doc : bytes).
Definition ans (c : call) : Type :=
  match c with
  | Lock _ | Unlock _ | WriteEngine _ | Confirm _ | Cover _ | Forget _ | Unsubscribe _ _ | Disconnect _ | SendExtension _ _ | Notify _ => unit
  | ReadEngine => Engine A
  | NowMs => Z
  | Connect _ _ => result string (Z * bytes)
  | AddCommits _ _ | AddFragment _ _ | TreeHeads _ | HydrateTree _ _ _ | RemoveTree _ | SyncTree _ _ => result string unit
  | VaultCreate | VaultRestore _ | IngestEvents _ | IngestScoped _ _ | IngestAuthority _ | AdoptAuthority _ _ | ValidateAuthority _ _ _ _ _ _
  | ImportGroupProof _ _ _ | GrantDocument _ _ _ | ImportSharedFrontier _ _ | AdoptVault _ _ _ _ => result string unit
  | GroupDoc => bytes * bytes
  | Seal _ _ _ | SealShared _ _ _ _ => result string Frontier.Sealed
  | OpenBlobs _ _ | OpenShared _ _ _ _ | OpenRaw _ _ | Unpublished => result string (list (bytes * bytes))
  | Unseen _ => bool
  | ReadVault => result string VaultState
  | DocumentMembers _ => result string (list (bytes * Access))
  | DocumentAccess _ _ => result string (option Access)
  | DocumentAuthority _ | CreateDocument | ExportSharedFrontier _ | Enroll _ _ | ExportContentKeys => result string bytes
  end.
End Calls.
Arguments call A : clear implicits.
Arguments ans {A} c.
Abbreviation prog A := (Async.prog (ans (A := A))).
Abbreviation history A := (list (Async.event (ans (A := A)))).

(** ** Loops, locks, and a piece between two awaits *)
Section Programs.
Context {A : Type}.
Definition ask (c : call A) : prog A (ans c) := Async.call (ans := ans) c.
Definition modify (f : Engine A → Engine A) : prog A unit := e ← ask ReadEngine; ask (WriteEngine (f e)).
(** A guard is dropped at the end of its scope, and by an early return. *)
Definition locked {X} (l : lock) (p : prog A X) : prog A X :=
  _ ← ask (Lock l);
  r ← p;
  _ ← ask (Unlock l);
  mret r.
(** [for x in l { f(x)?; }] and [for x in l { f(x); }] *)
Fixpoint each {T} (l : list T) (f : T → prog A (result string unit)) : prog A (result string unit) :=
  match l with [] => Done (Ok ()) | x :: l => _ ←! f x; each l f end.
Fixpoint every {T} (l : list T) (f : T → prog A unit) : prog A unit :=
  match l with [] => Done () | x :: l => _ ← f x; every l f end.
(** [for x in l { found |= f(x); }] *)
Fixpoint any {T} (l : list T) (f : T → prog A bool) (found : bool) : prog A bool :=
  match l with [] => Done found | x :: l => b ← f x; any l f (found || b) end.
End Programs.

(** ** What every call of a program respects

    A guard on the calls, a condition under which a program is started, and what
    it leaves of the history it was started on. *)
Section Fits.
Context {A : Type} (guard : history A → call A → Prop) (start : history A → Prop) (keeps : history A → history A → Prop).
Definition fits {X} (p : prog A X) : Prop := ∀ h, start h → wp guard p h (λ _ h', keeps h h').
Class Keeps := {
  keeps_refl h : keeps h h;
  keeps_trans h h1 h2 : keeps h h1 → keeps h1 h2 → keeps h h2;
  keeps_start h h' : keeps h h' → start h → start h';
}.
Context {K : Keeps}.
Lemma fits_Done {X} (x : X) : fits (Done x).
Proof. intros h Hs. apply keeps_refl. Qed.
Lemma fits_ret {X} (x : X) : fits (mret x).
Proof. apply fits_Done. Qed.
Lemma fits_bind {X Y} (p : prog A X) (f : X → prog A Y) : fits p → (∀ x, fits (f x)) → fits (p ≫= f).
Proof.
  intros Hp Hf h Hs. apply wp_bind. eapply wp_mono; [by apply Hp|]. cbn. intros x h' Hk.
  eapply wp_mono; [apply Hf; by eapply keeps_start|]. cbn. intros y h'' Hk'. by eapply keeps_trans.
Qed.
Lemma fits_try {E X Y} (p : prog A (result E X)) (f : X → prog A (result E Y)) : fits p → (∀ x, fits (f x)) → fits (try p f).
Proof. intros Hp Hf. apply fits_bind; [done|]. intros [x|e]; [apply Hf|apply fits_Done]. Qed.
Lemma fits_ask c : (∀ h, start h → guard h c ∧ ∀ y, keeps h (h ++ [Ev c y])) → fits (ask c).
Proof. intros Hc h Hs. exact (Hc h Hs). Qed.
Lemma fits_each {T} (l : list T) f : (∀ x, fits (f x)) → fits (each l f).
Proof. intros Hf. induction l as [|x l IH]; [apply fits_Done|]. apply fits_try; [apply Hf|done]. Qed.
Lemma fits_every {T} (l : list T) f : (∀ x, fits (f x)) → fits (every l f).
Proof. intros Hf. induction l as [|x l IH]; [apply fits_Done|]. apply fits_bind; [apply Hf|done]. Qed.
Lemma fits_any {T} (l : list T) f b : (∀ x, fits (f x)) → fits (any l f b).
Proof. intros Hf. revert b. induction l as [|x l IH]; intros b; [apply fits_Done|]. apply fits_bind; [apply Hf|]. intros b'. apply IH. Qed.
Lemma fits_interp {C} {up : C → Type} {X} (impl : ∀ c : C, prog A (up c)) (p : Async.prog up X) : (∀ c, fits (impl c)) → fits (interp impl p).
Proof. intros Hi. induction p as [x|c k IH]; [apply fits_Done|]. apply fits_bind; [apply Hi|done]. Qed.
End Fits.
Create HintDb fits discriminated.
#[export] Hint Constants Opaque : fits.
(** A program's structure, down to the calls and the programs the database knows. *)
Ltac fits_step :=
  match goal with
  | |- fits _ _ _ (Done _) => apply fits_Done; typeclasses eauto
  | |- fits _ _ _ (@mret _ _ _ _) => apply fits_ret; typeclasses eauto
  | |- fits _ _ _ (try _ _) => apply fits_try; [typeclasses eauto| |intros ?]
  | |- fits _ _ _ (@mbind _ _ _ _ _ _) => apply fits_bind; [typeclasses eauto| |intros ?]
  | |- fits _ _ _ (each _ _) => apply fits_each; [typeclasses eauto|intros ?]
  | |- fits _ _ _ (every _ _) => apply fits_every; [typeclasses eauto|intros ?]
  | |- fits _ _ _ (any _ _ _) => apply fits_any; [typeclasses eauto|intros ?]
  | |- fits _ _ _ (match ?x with _ => _ end) => destruct x
  end.
Ltac fits := cbn zeta; repeat (first [solve [eauto 3 with fits nocore]|fits_step; cbn zeta]).
