(* ===== verification/Publish.v ===== *)
(** * Publishing, absorbing and compacting ([runtime/crates/engine/src/lib.rs])

    The engine's own paths: a change is sealed, handed to the driver and confirmed;
    what arrives is opened and applied; a closed range becomes a fragment.  Each
    function is the calls of [Engine] the code makes, in its order. *)
From S2P Require Import Prelude BTree Crypto Text Links Opaque Policy Trees Storage Items Async Engine.
From S2P Require History Frontier Us Automerge.

Section Publish.
Context {A Oid C : Type} {AM : Automerge.Automerge A Oid} {CG : History.ChangeGraph A C} {FR : Fragmented A}.
Context {SedI : Sedimentree} {ShaI : Sha256} {BlI : Blake3}.
(** The device's seed and key, and what a founder's name key is. *)
Context (seed me name_key_seed : bytes).
Abbreviation prog := (Engine.prog A).
Abbreviation Document := (History.Document A).
Implicit Types (e : Engine A).

(** ** Small ones *)
Definition settle_persistence : prog unit := modify (λ e,
  let control_only := negb (has_unsettled (storage (cells e))) in
  let e := on_storage settle e in
  if control_only then next_persistence_revision e else e).
Definition require_vault : prog (result string unit) :=
  e ← ask ReadEngine;
  Done (if vault e then Ok () else Err "this device has no keyhive yet"%string).
Definition members_of (d : option Document) : gset bytes :=
  match d with Some d => list_to_set (Us.m_key <$> Us.members (Oid := Oid) d) | None => ∅ end.
Definition refresh_members e : Engine A := set_members (members_of (us (cells e))) e.
Definition registers_of (d : option Document) : gmap bytes RegisterValue :=
  match d with Some d => Us.opaque_registers (Oid := Oid) d | None => ∅ end.
Definition refresh_opaque_admission e : Engine A :=
  let next := registers_of (us (cells e)) in
  let old := registers (s_lifecycle (storage (cells e))) in
  let e := set_registers next e in
  let dropped := filter (λ tree, status (s_lifecycle (storage (cells e))) tree ≠ Some true)
    ((λ p, tree_id p.1 (nonce p.2)) <$> filter (λ p, is_Some (mode_ p.2)) (btree_items old)) in
  let changed := (filter (λ p, old !! p.1 ≠ Some p.2) (btree_items next)).*1 in
  set_opaque_pending (list_to_set dropped ∪ pending_opaque_retire e) (list_to_set changed ∪ pending_opaque_subscribe e) e.
Definition set_of (l : list bytes) : gset bytes := list_to_set l.

Definition push_commits (tree : bytes) (commits : list History.NewCommit) : prog (result string unit) :=
  _ ←! ask (AddCommits tree commits);
  ask (TreeHeads tree).
Definition push_us_commits (commits : list History.NewCommit) : prog (result string unit) :=
  match commits with [] => Done (Ok ()) | _ => push_commits us_tree commits end.
Definition publish_keyhive : prog (result string unit) :=
  e ← ask ReadEngine;
  if negb (vault e) then Done (Ok ()) else
  events ←! ask Unpublished;
  match events with
  | [] => Done (Ok ())
  | _ => push_commits keyhive_tree ((λ ev, History.mkCommit ev.1 [] ev.2) <$> events)
  end.
Definition publish_shared_authority (partition : string) : prog (result string unit) :=
  shared ←! Done (shared_document partition);
  document ←! Done (ok_or "private partition has no scoped authority"%string shared);
  _ ←! require_vault;
  b ←! ask (DocumentAuthority document);
  push_commits (shared_authority_tree partition) [History.mkCommit (sha256 b) [] b].
Definition refresh_shared_authority (partition : string) : prog (result string unit) :=
  shared ←! Done (shared_document partition);
  match shared with
  | None => Done (Ok ())
  | Some document =>
    _ ←! require_vault;
    members ←! ask (DocumentMembers document);
    let reads := filter (λ m : bytes * Access, may_read m.2 = true) members in
    let edits := filter (λ m : bytes * Access, may_edit m.2 = true) members in
    let authority := mkAuthority (set_of reads.*1) (set_of edits.*1) in
    _ ← modify (on_authorities (λ m, <[shared_authority_tree partition := authority]> (<[document_tree partition := authority]> m)));
    Done (Ok ())
  end.
Definition shared_partitions e : list string := filter (λ p, is_shared_document p = true) (btree_keys (documents (cells e))).
Definition refresh_all_shared_authorities : prog (result string unit) :=
  e ← ask ReadEngine;
  each (shared_partitions e) refresh_shared_authority.
(** A foreign connection's content waits for its authority. *)
Definition sync_shared_partition (partition : string) : prog (result string unit) :=
  let tree := document_tree partition in
  let authority := shared_authority_tree partition in
  e ← ask ReadEngine;
  each (conns (net e)).*1 (λ conn,
    e ← ask ReadEngine;
    match foreign_sync (net e) !! conn with
    | Some pending =>
      if bool_decide (is_Some (pending !! authority)) then Done (Ok ()) else ask (SyncTree conn tree)
    | None => _ ←! ask (SyncTree conn authority); ask (SyncTree conn tree)
    end).
Definition broadcast_shared_partition (partition : string) : prog (result string unit) :=
  shared ←! Done (shared_document partition);
  match shared with None => Done (Ok ()) | Some _ => sync_shared_partition partition end.

(** ** Opaque trees that come and go *)
Definition retired_crefs (s : SnapshotStorage) (tree : bytes) : list bytes :=
  btree_elems (set_of ((metadata s tree).1 ≫= λ c, raw_cref tree <$> lc_head c :: lc_parents c)).
Definition retire_tree (tree : bytes) : prog (result string unit) :=
  e ← ask ReadEngine;
  let crefs := retired_crefs (storage (cells e)) tree in
  _ ← every (conns (net e)).*1 (λ conn, ask (Unsubscribe conn tree));
  _ ←! ask (RemoveTree tree);
  _ ←! ask (TreeHeads tree);
  _ ← modify (on_storage (λ s, forget_tree s tree));
  e ← ask ReadEngine;
  _ ← (if vault e then ask (Forget crefs) else Done ());
  Done (Ok ()).
Definition ready_conns e : list Z := (filter (λ c, control_phases (net e) !! c.1 = Some Ready) (conns (net e))).*1.
Definition reconcile_opaque : prog (result string unit) :=
  e ← ask ReadEngine;
  let retired := btree_elems (pending_opaque_retire e) in
  _ ← ask (WriteEngine (set_opaque_pending ∅ (pending_opaque_subscribe e) e));
  _ ←! each retired retire_tree;
  e ← ask ReadEngine;
  let changed := pending_opaque_subscribe e in
  _ ← ask (WriteEngine (set_opaque_pending (pending_opaque_retire e) ∅ e));
  let next := filter (λ p, is_Some (mode_ p.2) ∧ p.1 ∈ changed) (btree_items (registers (s_lifecycle (storage (cells e))))) in
  each next (λ p,
    let tree := tree_id p.1 (nonce p.2) in
    each (ready_conns e) (λ conn,
      now ← ask ReadEngine;
      if bool_decide (opaque_status (cells now) tree = Some true) then ask (SyncTree conn tree) else Done (Ok ()))).

(** ** Sealing *)
Definition parents_of (c : History.NewCommit) : list bytes := btree_elems (set_of (History.parents c)).
Definition with_blob (c : History.NewCommit) (b : bytes) : History.NewCommit := History.mkCommit (History.head c) (History.parents c) b.
Definition seal (commit : History.NewCommit) : prog (result string (History.NewCommit * Frontier.Sealed)) :=
  _ ←! require_vault;
  sealed ←! ask (Seal (History.head commit) (parents_of commit) (History.blob commit));
  Done (Ok (with_blob commit (Frontier.sd_blob sealed), sealed)).
Definition seal_shared (document : bytes) (commit : History.NewCommit) : prog (result string (History.NewCommit * Frontier.Sealed)) :=
  _ ←! require_vault;
  let tree := document_tree (shared_partition document) in
  sealed ←! ask (SealShared document (shared_cref tree (History.head commit)) (shared_cref tree <$> parents_of commit) (History.blob commit));
  Done (Ok (with_blob commit (Frontier.sd_blob sealed), sealed)).
Definition seal_for (shared : option bytes) (commit : History.NewCommit) : prog (result string (History.NewCommit * Frontier.Sealed)) :=
  match shared with Some document => seal_shared document commit | None => seal commit end.

(** ** Fragments *)
Definition carrier (s : SnapshotStorage) (tree id : bytes) : bytes := if holds_fragment s tree id then fragment_cref tree id else id.
Definition prune_tree (tree : bytes) : prog unit := modify (on_storage (λ s, (prune s tree).1)).
Definition add_fragment (tree : bytes) (f : AFragment) (blob : bytes) : prog (result string unit) :=
  _ ←! ask (AddFragment tree (mkNewFragment (af_head f) (btree_elems (set_of (af_boundary f))) (af_checkpoints f) blob));
  ask (TreeHeads tree).
Definition install_fragment (tree : bytes) (f : AFragment) (bundled : bytes) (enveloped : bool) : prog (result string unit) :=
  if enveloped then
    _ ←! require_vault;
    e ← ask ReadEngine;
    let preds := carrier (storage (cells e)) tree <$> btree_elems (set_of (af_boundary f)) in
    sealed ←! ask (Seal (fragment_cref tree (af_head f)) preds bundled);
    _ ←! add_fragment tree f (Frontier.sd_blob sealed);
    _ ←! require_vault;
    _ ← ask (Confirm sealed);
    _ ← ask (Cover (af_members f));
    _ ←! publish_keyhive;
    _ ← prune_tree tree;
    Done (Ok ())
  else
    _ ←! add_fragment tree f bundled;
    _ ← prune_tree tree;
    Done (Ok ()).
Definition document_of (tree : bytes) e : option Document := head (filter (λ d, History.tree d = tree) (btree_values (documents (cells e)))).
(** The fragments automerge closed that are not held yet, with their bundles. *)
Definition candidates (d : option Document) (s : SnapshotStorage) (tree : bytes) : list (AFragment * bytes) :=
  match d with
  | None => []
  | Some d =>
    match filter (λ f, holds_fragment s tree (af_head f) = false) (fragments (History.read d)) with
    | [] => []
    | fresh => zip fresh (bundle (History.read d) fresh)
    end
  end.
Definition is_shared_tree (tree : bytes) e : bool :=
  existsb (λ d, bool_decide (History.tree d = tree)) (btree_values (documents (cells e))) &&
  existsb (λ p, bool_decide (document_tree p = tree) && is_shared_document p) (btree_keys (documents (cells e))).
Definition compact (tree : bytes) : prog (result string unit) :=
  e ← ask ReadEngine;
  if is_shared_tree tree e then Done (Ok ()) else
  if bool_decide (tree = keyhive_tree) then Done (Ok ()) else
  _ ← prune_tree tree;
  let enveloped := negb (bool_decide (tree = us_tree)) in
  e ← ask ReadEngine;
  let d := if enveloped then document_of tree e else us (cells e) in
  each (candidates d (storage (cells e)) tree) (λ p, install_fragment tree p.1 p.2 enveloped).

(** ** Absorbing *)
Definition unheld (d : Document) (l : list (bytes * bytes)) : list (bytes * bytes) := filter (λ p, History.contains d p.1 = false) l.
Definition shared_parents (s : SnapshotStorage) (tree : bytes) : gmap bytes (gset bytes) :=
  list_to_map (reverse ((λ c, (shared_cref tree (lc_head c), set_of (shared_cref tree <$> lc_parents c))) <$> (metadata s tree).1)).
Definition open_request (shared : option bytes) (tree : bytes) (d : Document) (s : SnapshotStorage) (request : list (bytes * bytes))
    : prog (result string (list (bytes * bytes))) :=
  match shared with
  | Some document => ask (OpenShared document request (set_of (shared_cref tree <$> btree_elems (History.applied d))) (shared_parents s tree))
  | None => ask (OpenBlobs request (History.applied d))
  end.
Definition fragment_heads (tree : bytes) (bundles : list (bytes * bytes)) : gmap bytes bytes :=
  list_to_map (reverse ((λ p, (fragment_cref tree p.1, p.1)) <$> bundles)).
Definition opened_bundles (tree : bytes) (bundles : list (bytes * bytes)) (opened : result string (list (bytes * bytes))) : list (bytes * bytes) :=
  match opened with
  | Ok opened => omap (λ p, (λ head, (head, p.2)) <$> fragment_heads tree bundles !! p.1) opened
  | Err _ => []
  end.
Definition open_bundles (shared : option bytes) (tree : bytes) (d : Document) (s : SnapshotStorage) (bundles : list (bytes * bytes)) : prog (list (bytes * bytes)) :=
  match bundles with
  | [] => Done []
  | _ =>
    opened ← open_request shared tree d s ((λ p, (fragment_cref tree p.1, p.2)) <$> bundles);
    Done (opened_bundles tree bundles opened)
  end.
(** What was opened goes back under the name of its commit. *)
Definition named_change (shared : option bytes) (tree : bytes) (s : SnapshotStorage) (p : bytes * bytes) : option (bytes * bytes) :=
  match shared with
  | Some _ => (λ id, (id, p.2)) <$> wanted_commit_for_cref tree p.1 s
  | None => Some p
  end.
Definition can_anchor (shared : option bytes) e : bool :=
  match shared with
  | Some document =>
    match shared_authorities (cells e) !! document_tree (shared_partition document) with
    | Some authority => bool_decide (me ∈ editors authority)
    | None => false
    end
  | None => true
  end.
(** The document with what was opened, whether anything landed, and the anchor of
    a divergence. *)
Definition apply_opened (shared : option bytes) (app : string) (tree : bytes) (bundles opened : list (bytes * bytes)) (d : Document) e
    : Document * bool * option History.NewCommit :=
  let '(d, from_fragments) := History.apply_bundles (C := C) bundles d in
  let '(d, absorbed) := History.apply (C := C) (omap (named_change shared tree (storage (cells e))) opened) d in
  let landed := History.landed absorbed || History.landed from_fragments in
  let content := History.content absorbed || History.content from_fragments in
  if content && History.diverged (C := C) d && can_anchor shared e
  then let '(d, anchor) := History.merge_anchor (C := C) d in (d, landed, anchor)
  else (d, landed, None).
Definition publish_anchor (app : string) (shared : option bytes) (tree : bytes) (anchor : History.NewCommit) : prog unit :=
  sealed ← seal_for shared anchor;
  match sealed with
  | Err _ => Done ()
  | Ok (anchor, sealed) =>
    pushed ← ask (AddCommits tree [anchor]);
    match pushed with
    | Err _ => Done ()
    | Ok _ =>
      _ ← ask (TreeHeads tree);
      _ ← ask (Confirm sealed);
      _ ← (match shared with Some _ => publish_shared_authority app | None => publish_keyhive end);
      Done ()
    end
  end.
Definition content_cref (shared : option bytes) (tree id : bytes) : bytes :=
  match shared with Some _ => shared_cref tree id | None => id end.
Definition absorb_app (app : string) : prog bool :=
  e ← ask ReadEngine;
  match documents (cells e) !! app with
  | None => Done false
  | Some d =>
    if negb (vault e) then Done false else
    let tree := History.tree d in
    let s := storage (cells e) in
    let wanted := unheld d (commit_blobs s tree) in
    let bundles := unheld d (fragment_blobs s tree) in
    let shared := default None (ok (shared_document app)) in
    if bool_decide (is_Some shared) && negb (bool_decide (bundles = [])) then Done false else
    if bool_decide (is_Some shared) && negb (valid_shared_ciphertexts tree wanted s) then Done false else
    if bool_decide (wanted = []) && bool_decide (bundles = []) then Done false else
    opened_bundles ← open_bundles shared tree d s bundles;
    opened ← open_request shared tree d s ((λ p, (content_cref shared tree p.1, p.2)) <$> wanted);
    match opened with
    | Err _ => Done false
    | Ok opened =>
      e ← ask ReadEngine;
      match documents (cells e) !! app with
      | None => Done false
      | Some d =>
        let '(d, landed, anchor) := apply_opened shared app tree opened_bundles opened d e in
        _ ← ask (WriteEngine (on_documents (<[app := d]>) e));
        _ ← (match anchor with Some anchor => publish_anchor app shared (History.tree d) anchor | None => Done () end);
        Done landed
      end
    end
  end.
Definition ingest_commit (p : bytes * bytes) : prog bool :=
  unseen ← ask (Unseen p.1);
  if (unseen : bool) then r ← ask (IngestEvents p.2); Done (is_ok r) else Done false.
Definition absorb_keyhive : prog bool :=
  e ← ask ReadEngine;
  if negb (vault e) then Done false else
  ingested ← any (commit_blobs (storage (cells e)) keyhive_tree) ingest_commit false;
  if negb ingested then Done false else
  _ ← refresh_all_shared_authorities;
  e ← ask ReadEngine;
  any (btree_keys (documents (cells e))) absorb_app false.
Definition absorb_us e : Engine A * bool :=
  match us (cells e) with
  | None => (e, false)
  | Some d =>
    let '(d, landed) := Us.us_absorb (C := C) (storage (cells e)) d in
    let e := set_us d e in
    if landed then (refresh_opaque_admission (next_control_revision (refresh_members e)), true) else (e, false)
  end.
Definition absorb_authority (tree : bytes) : prog bool :=
  e ← ask ReadEngine;
  match head (filter (λ p, shared_authority_tree p = tree) (btree_keys (documents (cells e)))) with
  | None => Done false
  | Some partition =>
    match shared_document partition with
    | Ok (Some document) =>
      if negb (vault e) then Done false else
      changed ← any (commit_blobs (storage (cells e)) tree) (λ p, r ← ask (IngestScoped p.2 document); Done (is_ok r)) false;
      if (changed : bool) then _ ← refresh_shared_authority partition; absorb_app partition else Done false
    | _ => Done false
    end
  end.
Definition absorb_items (tree : bytes) : prog bool :=
  if bool_decide (tree = us_tree) then
    e ← ask ReadEngine;
    let '(e, landed) := absorb_us e in
    _ ← ask (WriteEngine e);
    Done landed
  else if bool_decide (tree = keyhive_tree) then absorb_keyhive
  else if tree_tag tree =? SHARED_AUTHORITY_TREE_TAG then absorb_authority tree
  else
    e ← ask ReadEngine;
    match head (filter (λ p, History.tree p.2 = tree) (btree_items (documents (cells e)))) with
    | None => Done false
    | Some (app, _) => absorb_app app
    end.
Definition absorb_inner (tree : bytes) : prog bool :=
  landed ← absorb_items tree;
  _ ← (if landed : bool then _ ← compact tree; Done () else Done ());
  e ← ask ReadEngine;
  _ ← (if landed || has_unsettled (storage (cells e)) then settle_persistence else Done ());
  Done landed.
Definition absorb (tree : bytes) : prog bool := locked Boundary (absorb_inner tree).

(** ** Opening *)
Definition open_vault : prog (result string unit) :=
  e ← ask ReadEngine;
  if vault e then Done (Ok ()) else
  _ ← ask (WriteEngine (set_vault false None e));
  _ ←! (match pending_vault e with Some s => ask (VaultRestore s) | None => ask VaultCreate end);
  _ ← modify (λ e, set_vault true (pending_vault e) e);
  Done (Ok ()).
Definition hydrate : prog (result string unit) :=
  e ← ask ReadEngine;
  match pending_hydration e with
  | None => Done (Ok ())
  | Some trees =>
    _ ← ask (WriteEngine (hydration_taken e));
    _ ←! each trees (λ tree,
      e ← ask ReadEngine;
      let '(commits, fragments) := metadata (storage (cells e)) tree in
      ask (HydrateTree tree commits fragments));
    e ← ask ReadEngine;
    _ ←! (if bool_decide (is_Some (pending_vault e)) || vault e then open_vault else Done (Ok ()));
    _ ← (if bool_decide (keyhive_tree ∈ trees) then _ ← absorb_keyhive; Done () else Done ());
    _ ← every (filter (λ t, t ≠ keyhive_tree ∧ t ≠ us_tree) trees) (λ tree, _ ← absorb tree; Done ());
    Done (Ok ())
  end.
Definition no_group : string := "this device has no group document".
(** A change of the group document in one piece, with the commits it leaves. *)
Definition us_edit (f : Document → result string Document) : prog (result string (list History.NewCommit)) :=
  e ← ask ReadEngine;
  match us (cells e) with
  | None => Done (Err no_group)
  | Some d =>
    match f d with
    | Err why => Done (Err why)
    | Ok d =>
      let '(commits, d) := History.drain_local_commits d in
      _ ← ask (WriteEngine (set_us d e));
      Done (Ok commits)
    end
  end.
Definition sync_everywhere (tree : bytes) : prog (result string unit) :=
  e ← ask ReadEngine;
  each (conns (net e)).*1 (λ conn, ask (SyncTree conn tree)).
(** [with_us] answers the default for a device without the document. *)
Definition nobody (d : option Document) : bool := match d with Some d => bool_decide (Us.members (Oid := Oid) d = []) | None => false end.
Definition open_us : prog (result string unit) :=
  _ ←! hydrate;
  _ ←! open_vault;
  e ← ask ReadEngine;
  if bool_decide (is_Some (us (cells e))) then Done (Ok ()) else
  let d := (Us.us_absorb (C := C) (storage (cells e)) (Us.us_empty (C := C) seed)).1 in
  _ ← ask (WriteEngine (refresh_members (set_us d (set_name_key name_key_seed e))));
  _ ←! sync_everywhere us_tree;
  e ← ask ReadEngine;
  _ ←! (if nobody (us (cells e)) then
      enrolled ← ask NowMs;
      commits ←! us_edit (Us.add_member (Oid := Oid) (C := C) me "" enrolled);
      _ ← modify refresh_members;
      push_us_commits commits
    else Done (Ok ()));
  e ← ask ReadEngine;
  _ ←! (if bool_decide ((us (cells e) ≫= Us.keyhive (Oid := Oid)) = None) then
      _ ←! require_vault;
      ids ← ask GroupDoc;
      commits ←! us_edit (Us.set_keyhive (Oid := Oid) (C := C) ids.1 ids.2);
      push_us_commits commits
    else Done (Ok ()));
  publish_keyhive.
Definition open_document_inner (app : string) : prog (result string unit) :=
  shared ←! Done (shared_document app);
  _ ←! (match shared with
    | Some document =>
      if negb (bool_decide (shared_partition document = app)) then Done (Err "shared document partition is not canonical"%string) else
      _ ←! require_vault;
      access ←! ask (DocumentAccess document me);
      Done (match access with None => Err "this device has no access to the shared document"%string | Some _ => Ok () end)
    | None => Done (Ok ())
    end);
  e ← ask ReadEngine;
  if bool_decide (is_Some (documents (cells e) !! app)) then
    match shared with Some _ => refresh_shared_authority app | None => Done (Ok ()) end
  else
    let tree := document_tree app in
    let d := History.empty (C := C) (History.actor (as_bytes "polyvisor:actor:") seed (as_bytes app)) tree in
    _ ← ask (WriteEngine (on_documents (<[app := d]>) e));
    _ ← absorb_inner tree;
    e ← ask ReadEngine;
    each (conns (net e)).*1 (λ conn,
      _ ←! (match shared with Some _ => ask (SyncTree conn (shared_authority_tree app)) | None => Done (Ok ()) end);
      ask (SyncTree conn tree)).
Definition open_document (app : string) : prog (result string unit) :=
  _ ←! hydrate;
  _ ←! open_us;
  locked Boundary (open_document_inner app).

(** ** Mutating *)
Definition with_document {X} (app : string) (f : Document → Document * result string X) : prog (result string X) :=
  e ← ask ReadEngine;
  match documents (cells e) !! app with
  | None => Done (Err ("no document is open for " +:+ app))
  | Some d =>
    let '(d, r) := f d in
    _ ← ask (WriteEngine (on_documents (<[app := d]>) e));
    Done r
  end.
Definition read_only : string := "this device has read-only access to the shared document".
Definition writable (app : string) : prog (result string unit) :=
  shared ←! Done (shared_document app);
  match shared with
  | None => Done (Ok ())
  | Some document =>
    _ ←! require_vault;
    access ←! ask (DocumentAccess document me);
    Done (match access with Some a => if may_edit a then Ok () else Err read_only | None => Err read_only end)
  end.
Definition publish_commit (app : string) (tree : bytes) (commit : History.NewCommit) : prog (result string unit) :=
  shared ←! Done (shared_document app);
  p ←! seal_for shared commit;
  _ ←! push_commits tree [p.1];
  _ ←! require_vault;
  _ ← ask (Confirm p.2);
  Done (Ok ()).
Definition mutate {X} (app : string) (change : Document → Document * result string X) : prog (result string X) :=
  locked (DocumentWrites app) (
    _ ←! open_document app;
    _ ←! writable app;
    locked Boundary (
      p ←! with_document app (λ d,
        let '(d, answer) := change d in
        let '(commits, d) := History.drain_local_commits d in
        (d, Ok (answer, History.tree d, commits)));
      let '(answer, tree, commits) := p in
      match commits with
      | [] => Done answer
      | _ =>
        _ ←! each commits (publish_commit app tree);
        shared ←! Done (shared_document app);
        _ ←! (match shared with
          | Some _ => _ ←! publish_shared_authority app; broadcast_shared_partition app
          | None => publish_keyhive
          end);
        _ ← compact tree;
        _ ← settle_persistence;
        Done answer
      end)).
Definition us_mutate {X} (change : Document → Document * result string X) : prog (result string X) :=
  _ ←! open_us;
  locked ControlWrite (locked Boundary (
    e ← ask ReadEngine;
    match us (cells e) with
    | None => Done (Err no_group)
    | Some d =>
      let '(d, answer) := change d in
      let '(commits, d) := History.drain_local_commits d in
      _ ← ask (WriteEngine (refresh_opaque_admission (next_control_revision (refresh_members (set_us d e)))));
      _ ←! push_us_commits commits;
      _ ←! reconcile_opaque;
      _ ← compact us_tree;
      _ ← settle_persistence;
      Done answer
    end)).
End Publish.
