(* ===== verification/Requests.v ===== *)
(** * The engine's public operations ([runtime/crates/engine/src/lib.rs])

    What the kernel asks of an engine, over the paths of [Publish]: documents and
    grants, opaque histories, the group and its adoption, connections and the event
    pump. *)
From S2P Require Import Prelude BTree Crypto Text Links Opaque Policy Trees Storage Items Async Engine Publish.
From S2P Require History Frontier Us Automerge Catalog Calls Ingest Journal Snapshot.

Section Requests.
Context {A Oid C : Type} {AM : Automerge.Automerge A Oid} {CG : History.ChangeGraph A C} {FR : Fragmented A}.
Context {SedI : Sedimentree} {ShaI : Sha256} {BlI : Blake3} {VerI : TryVerify} {AuI : Authorities}.
Context (seed me name_key_seed model_entropy : bytes).
Abbreviation prog := (Engine.prog A).
Abbreviation Document := (History.Document A).
Abbreviation open_us := (Publish.open_us (Oid := Oid) (C := C) seed me name_key_seed).
Abbreviation open_document := (Publish.open_document (Oid := Oid) (C := C) seed me name_key_seed).
Abbreviation open_document_inner := (Publish.open_document_inner (Oid := Oid) (C := C) seed me).
Abbreviation mutate := (Publish.mutate (Oid := Oid) (C := C) seed me name_key_seed).
Abbreviation us_mutate := (Publish.us_mutate (Oid := Oid) (C := C) seed me name_key_seed).
Abbreviation absorb := (Publish.absorb (Oid := Oid) (C := C) me).
Abbreviation absorb_app := (Publish.absorb_app (C := C) me).
Abbreviation hydrate := (Publish.hydrate (Oid := Oid) (C := C) me).
Implicit Types (e : Engine A).

(** A fallible edit of a document, as the closure [mutate] takes. *)
Definition edit (f : Document → result string Document) (d : Document) : Document * result string unit :=
  match f d with Ok d => (d, Ok ()) | Err e => (d, Err e) end.

(** ** Documents *)
Definition document_read {X} (app : string) (read : Document → X) : prog (result string X) :=
  _ ←! open_document app;
  with_document app (λ d, (d, Ok (read d))).
Definition document_publish (app : string) (changes : list bytes) : prog (result string bool) :=
  mutate app (λ d, match History.publish (C := C) changes d with Ok (b, d) => (d, Ok b) | Err e => (d, Err e) end).
(** A whole document as one fragment. *)
Fixpoint leading_zeros (b : bytes) : nat := match b with Byte.x00 :: b => S (leading_zeros b) | _ => O end.
Definition whole_fragment (head : bytes) (members : list bytes) : AFragment :=
  mkAFragment head (leading_zeros head) [] (filter (λ h, h ≠ head) members) members.
Definition change_hashes (d : Document) : list bytes := History.hash (C := C) <$> History.get_changes (History.read d).
Definition heads_of (d : Document) : list bytes := History.get_heads (C := C) (History.read d).
Definition adopt_anchor (tree : bytes) (anchor : History.NewCommit) : prog (result string unit) :=
  p ←! seal anchor;
  _ ←! push_commits tree [p.1];
  _ ←! require_vault;
  _ ← ask (Confirm p.2);
  Done (Ok ()).
Definition adopt_app_fragment (app : string) : prog (result string unit) :=
  let tree := document_tree app in
  heads ←! with_document app (λ d, (d, Ok (heads_of d)));
  _ ←! (if (1 <? length heads)%nat then
      anchor ←! with_document app (λ d, let '(d, anchor) := History.merge_anchor (C := C) d in (d, Ok anchor));
      match anchor with None => Done (Ok ()) | Some anchor => adopt_anchor tree anchor end
    else Done (Ok ()));
  p ←! with_document app (λ d, (d, Ok (heads_of d, change_hashes d)));
  match p.1 with
  | [head] =>
    let fragment := whole_fragment head p.2 in
    bundled ←! with_document app (λ d, (d, Ok (list.head (bundle (History.read d) [fragment]))));
    bundled ←! Done (ok_or "the adopted document could not be bundled"%string bundled);
    install_fragment tree fragment bundled true
  | _ => Done (Ok ())
  end.
Definition document_adopt (app : string) (b : bytes) (adopt : Document → Document → Document * result string unit) : prog (result string unit) :=
  _ ←! hydrate;
  source ←! Done (History.try_load (C := C) b (History.actor (as_bytes "polyvisor:actor:") seed (as_bytes app)) (document_tree app));
  _ ←! open_document app;
  shared ←! Done (shared_document app);
  match shared with
  | Some _ => with_document app (λ d,
      let '(d, r) := adopt d source in
      match r with Ok _ => ((History.drain_local_commits d).2, Ok ()) | Err e => (d, Err e) end)
  | None =>
    _ ←! mutate app (λ d, adopt d source);
    adopt_app_fragment app
  end.

(** ** Shared documents *)
Definition create_shared_document : prog (result string (string * bytes)) :=
  _ ←! open_us;
  locked Boundary (
    _ ←! require_vault;
    document ←! ask CreateDocument;
    let partition := shared_partition document in
    _ ←! open_document_inner partition;
    _ ←! refresh_shared_authority partition;
    _ ←! publish_shared_authority partition;
    _ ←! sync_shared_partition partition;
    _ ← settle_persistence;
    Done (Ok (partition, document))).
Definition is_edit (a : Calls.DocumentAccess) : bool := match a with Calls.AccessEdit => true | Calls.AccessRead => false end.
Definition grant_document (app : string) (group device proof : bytes) (access : Calls.DocumentAccess) : prog (result string Calls.DocumentGrant) :=
  _ ←! open_document app;
  locked Boundary (
    shared ←! Done (shared_document app);
    document ←! Done (ok_or "private partitions cannot be granted"%string shared);
    _ ←! require_vault;
    _ ←! ask (ImportGroupProof proof group device);
    _ ←! ask (GrantDocument document group (is_edit access));
    _ ←! refresh_shared_authority app;
    _ ←! publish_shared_authority app;
    _ ←! sync_shared_partition app;
    _ ← settle_persistence;
    authority ←! ask (DocumentAuthority document);
    frontier ←! ask (ExportSharedFrontier document);
    Done (Ok (Calls.mkGrant app document group access authority frontier))).
Definition authority_group : prog (result string bytes) :=
  _ ←! open_us;
  _ ←! require_vault;
  ids ← ask GroupDoc;
  Done (Ok ids.1).
Definition granted_document (g : Calls.DocumentGrant) : result string bytes :=
  shared ← shared_document (Calls.g_partition g);
  document ← ok_or "a document grant names a private partition"%string shared;
  if bool_decide (document = Calls.g_document g) then Ok document
  else Err "document grant partition does not match its keyhive document"%string.
Definition validate_document_grant (g : Calls.DocumentGrant) (sender_group sender_device : bytes) : prog (result string unit) :=
  document ←! Done (granted_document g);
  _ ←! open_us;
  group ←! authority_group;
  if negb (bool_decide (Calls.g_recipient_group g = group)) then Done (Err "document grant is for another recipient group"%string) else
  ask (ValidateAuthority (Calls.g_authority g) document (Calls.g_recipient_group g) sender_group sender_device (is_edit (Calls.g_access g))).
Definition adopt_document (g : Calls.DocumentGrant) (sender_group sender_device : bytes) : prog (result string unit) :=
  _ ←! validate_document_grant g sender_group sender_device;
  document ←! Done (granted_document g);
  _ ←! open_us;
  locked Boundary (
    _ ←! require_vault;
    _ ←! ask (AdoptAuthority (Calls.g_authority g) document);
    _ ←! ask (ImportSharedFrontier document (Calls.g_frontier g));
    _ ←! open_document_inner (Calls.g_partition g);
    _ ←! refresh_shared_authority (Calls.g_partition g);
    _ ←! sync_shared_partition (Calls.g_partition g);
    _ ← settle_persistence;
    Done (Ok ())).
Definition adopt_shared_documents (grants : list Calls.DocumentGrant) : prog (result string unit) :=
  _ ←! open_us;
  local_group ←! authority_group;
  locked Boundary (
    _ ←! require_vault;
    _ ←! each grants (λ g,
      shared ←! Done (shared_document (Calls.g_partition g));
      document ←! Done (ok_or "shared descriptor names a private partition"%string shared);
      if negb (bool_decide (document = Calls.g_document g)) || negb (bool_decide (Calls.g_recipient_group g = local_group))
      then Done (Err "shared descriptor does not bind this group and document"%string) else
      _ ←! ask (IngestAuthority (Calls.g_authority g));
      _ ←! ask (ImportSharedFrontier document (Calls.g_frontier g));
      access ← ask (DocumentAccess document me);
      match access with
      | Ok (Some _) =>
        _ ←! open_document_inner (Calls.g_partition g);
        sync_shared_partition (Calls.g_partition g)
      | _ => Done (Ok ())
      end);
    _ ← settle_persistence;
    Done (Ok ())).
Fixpoint grants_of (group : bytes) (l : list (string * bytes)) : prog (result string (list Calls.DocumentGrant)) :=
  match l with
  | [] => Done (Ok [])
  | (partition, document) :: l =>
    authority ←! ask (DocumentAuthority document);
    frontier ←! ask (ExportSharedFrontier document);
    grants ←! grants_of group l;
    Done (Ok (Calls.mkGrant partition document group Calls.AccessEdit authority frontier :: grants))
  end.
Definition shared_documents : prog (result string (list Calls.DocumentGrant)) :=
  _ ←! open_us;
  group ←! authority_group;
  _ ←! require_vault;
  e ← ask ReadEngine;
  grants_of group (omap (λ p, (λ d, (p, d)) <$> default None (ok (shared_document p))) (btree_keys (documents (cells e)))).
Definition can_sync_peer (key : bytes) : prog (result string bool) :=
  _ ←! open_us;
  _ ←! refresh_all_shared_authorities;
  e ← ask ReadEngine;
  Done (Ok (bool_decide (key ∈ device_members (cells e)) ||
    existsb (λ p, bool_decide (key ∈ readers p.2)) (btree_items (shared_authorities (cells e))))).

(** ** Opaque histories *)
Definition control_barrier : prog (result string unit) := locked ControlWrite (ask (TreeHeads us_tree)).
Definition opaque_current (slot : string) : prog (result string (option bytes)) :=
  _ ←! open_us;
  e ← ask ReadEngine;
  Done (Ok (d ← us (cells e); v ← Us.opaque_register (Oid := Oid) d slot; _ ← mode_ v; Some (tree_id (slot_hash slot) (nonce v)))).
Definition next_register (slot : string) (nonce : bytes) (mode : option OpaqueMode) (d : Document) : result string Document :=
  sequence ← match Us.opaque_register (Oid := Oid) d slot with
             | None => Ok 1
             | Some v => ok_or "opaque sequence exhausted"%string (checked_add 64 (sequence v) 1)
             end;
  Us.set_opaque_register (Oid := Oid) (C := C) slot (mkRegister sequence nonce mode) d.
Definition draw_nonce (slot : string) : prog bytes :=
  e ← ask ReadEngine;
  let '(counter, nonce) := next_opaque_nonce model_entropy seed (opaque_nonce e) slot in
  _ ← ask (WriteEngine (set_nonce counter e));
  Done nonce.
Definition opaque_replace (slot : string) (mode : OpaqueMode) : prog (result string bytes) :=
  _ ←! open_us;
  nonce ← draw_nonce slot;
  _ ←! us_mutate (edit (next_register slot nonce (Some mode)));
  let tree := tree_id (slot_hash slot) nonce in
  e ← ask ReadEngine;
  Done (if bool_decide (opaque_status (cells e) tree = Some true) then Ok tree else Err "a concurrent opaque replacement won"%string).
Definition opaque_disable (slot : string) : prog (result string unit) :=
  _ ←! open_us;
  nonce ← draw_nonce slot;
  _ ←! us_mutate (edit (next_register slot nonce None));
  Done (Ok ()).
Definition retired : string := "opaque tree is unknown or retired".
Definition require_current_opaque (tree : bytes) : prog (result string OpaqueMode) :=
  e ← ask ReadEngine;
  Done (ok_or retired (mode (s_lifecycle (storage (cells e))) tree)).
Definition opaque_open (tree : bytes) : prog (result string unit) :=
  _ ←! open_us;
  _ ←! require_current_opaque tree;
  e ← ask ReadEngine;
  each (ready_conns e) (λ conn, _ ←! require_current_opaque tree; ask (SyncTree conn tree)).
Definition sorted_crefs (tree : bytes) (parents : list bytes) : list bytes := merge_sort key_le (raw_cref tree <$> parents).
Definition opaque_seal (tree id : bytes) (parents : list bytes) (b : bytes) : prog (result string Frontier.Sealed) :=
  let cref := raw_cref tree id in
  _ ←! require_vault;
  sealed ← ask (Seal cref (sorted_crefs tree parents) b);
  match sealed with
  | Err e => _ ← ask (Forget [cref]); Done (Err e)
  | Ok sealed =>
    current ← require_current_opaque tree;
    match current with
    | Err _ => _ ← ask (Forget [cref]); Done (Err "opaque tree was retired while sealing"%string)
    | Ok _ => Done (Ok sealed)
    end
  end.
Definition opaque_land (tree id : bytes) (parents : list bytes) (blob : bytes) (sealed : option Frontier.Sealed) : prog (result string bytes) :=
  _ ←! require_current_opaque tree;
  _ ←! ask (AddCommits tree [History.mkCommit id parents blob]);
  _ ←! require_current_opaque tree;
  _ ←! ask (TreeHeads tree);
  _ ←! require_current_opaque tree;
  e ← ask ReadEngine;
  if negb (holds (storage (cells e)) tree id) then Done (Err "opaque publication did not persist"%string) else
  match sealed with
  | None => Done (Ok id)
  | Some sealed =>
    _ ←! publish_keyhive;
    _ ←! require_current_opaque tree;
    _ ← ask (Confirm sealed);
    Done (Ok id)
  end.
Definition opaque_abandon (tree : bytes) (crefs : list bytes) : prog unit :=
  _ ← ask (Forget crefs);
  e ← ask ReadEngine;
  if bool_decide (opaque_status (cells e) tree = Some true) then Done () else _ ← retire_tree tree; Done ().
Definition opaque_finish (tree id : bytes) (parents : list bytes) (blob : bytes) (sealed : option Frontier.Sealed) : prog (result string bytes) :=
  r ← opaque_land tree id parents blob sealed;
  _ ← (match r, sealed with
    | Err _, Some _ => opaque_abandon tree [raw_cref tree id]
    | Err _, None => Done ()
    | Ok _, _ => settle_persistence
    end);
  Done r.
Definition opaque_publish_inner (tree : bytes) (parents : list bytes) (b : bytes) : prog (result string bytes) :=
  mode ←! require_current_opaque tree;
  let parents := Catalog.sorted parents in
  e ← ask ReadEngine;
  if existsb (λ p, negb (holds (storage (cells e)) tree p)) parents
  then Done (Err "opaque parents must be commits in the same tree"%string) else
  let id := item_id tree parents b in
  match mode with
  | CallerEncrypted => opaque_finish tree id parents b None
  | GroupSealed =>
    sealed ←! opaque_seal tree id parents b;
    opaque_finish tree id parents (Frontier.sd_blob sealed) (Some sealed)
  end.
Definition opaque_publish (tree : bytes) (parents : list bytes) (b : bytes) : prog (result string bytes) :=
  _ ←! open_us;
  locked Boundary (opaque_publish_inner tree parents b).
Definition opaque_metadata (s : SnapshotStorage) (tree : bytes) : gmap bytes (list bytes) :=
  list_to_map (reverse ((λ c, (lc_head c, btree_elems (set_of (lc_parents c)))) <$> (metadata s tree).1)).
Definition scoped_parents (tree : bytes) (m : gmap bytes (list bytes)) : gmap bytes (gset bytes) :=
  list_to_map (reverse ((λ p, (raw_cref tree p.1, set_of (raw_cref tree <$> p.2))) <$> btree_items m)).
Definition owned_refs (tree : bytes) (m : gmap bytes (list bytes)) : list bytes :=
  btree_elems (set_of (btree_items m ≫= λ p, raw_cref tree <$> p.1 :: p.2)).
Definition raw_named (tree : bytes) (m : gmap bytes (list bytes)) (p : bytes * bytes) : option (bytes * bytes) :=
  (λ id, (id, p.2)) <$> head (filter (λ id, raw_cref tree id = p.1) (btree_keys m)).
Definition opaque_item (tree : bytes) (m : gmap bytes (list bytes)) (p : bytes * bytes) : option OpaqueItem :=
  parents ← m !! p.1;
  if bool_decide (item_id tree parents p.2 = p.1) then Some (mkOpaqueItem p.1 parents p.2) else None.
Definition by_id (a b : OpaqueItem) : Prop := key_le (oi_id a) (oi_id b).
#[export] Instance by_id_dec : RelDecision by_id.
Proof. intros a b. unfold by_id. apply _. Defined.
Definition opaque_read (tree : bytes) : prog (result string (list OpaqueItem)) :=
  _ ←! open_us;
  locked Boundary (
    mode ←! require_current_opaque tree;
    e ← ask ReadEngine;
    let m := opaque_metadata (storage (cells e)) tree in
    let blobs := commit_blobs (storage (cells e)) tree in
    opened ←! (match mode with
      | CallerEncrypted => Done (Ok blobs)
      | GroupSealed =>
        _ ←! require_vault;
        opened ←! ask (OpenRaw ((λ p, (raw_cref tree p.1, p.2)) <$> blobs) (scoped_parents tree m));
        Done (Ok (omap (raw_named tree m) opened))
      end);
    current ← require_current_opaque tree;
    match current with
    | Err _ =>
      e ← ask ReadEngine;
      _ ← (if vault e then ask (Forget (owned_refs tree m)) else Done ());
      Done (Err "opaque tree was retired while reading"%string)
    | Ok _ =>
      _ ← settle_persistence;
      Done (Ok (merge_sort by_id (omap (opaque_item tree m) opened)))
    end).

(** ** The group *)
Definition members : prog (result string (list Us.Member)) :=
  _ ←! open_us;
  e ← ask ReadEngine;
  Done (Ok (match us (cells e) with Some d => Us.members (Oid := Oid) d | None => [] end)).
Definition add_member (key : bytes) (petname : string) (enrolled : Z) : prog (result string unit) :=
  us_mutate (edit (Us.add_member (Oid := Oid) (C := C) key petname enrolled)).
Definition set_member_petname (key : bytes) (petname : string) : prog (result string unit) :=
  us_mutate (edit (Us.set_member_petname (Oid := Oid) (C := C) key petname)).
Definition enroll_keyhive (card device : bytes) : prog (result string (bytes * bytes)) :=
  _ ←! open_us;
  _ ←! require_vault;
  events ←! ask (Enroll card device);
  _ ←! refresh_all_shared_authorities;
  keys ←! ask ExportContentKeys;
  _ ←! publish_keyhive;
  _ ← settle_persistence;
  Done (Ok (events, keys)).
Definition no_keyhive : string := "that device sent a group with no keyhive state".
Definition adopt_keyhive (events content_keys : bytes) : prog (result string unit) :=
  _ ←! open_us;
  e ← ask ReadEngine;
  ids ←! Done (ok_or no_keyhive (us (cells e) ≫= Us.keyhive (Oid := Oid)));
  _ ←! require_vault;
  _ ←! ask (AdoptVault events content_keys ids.1 ids.2);
  _ ←! refresh_all_shared_authorities;
  _ ←! publish_keyhive;
  e ← ask ReadEngine;
  _ ←! each (btree_keys (documents (cells e))) (λ app,
    shared ←! Done (shared_document app);
    match shared with None => _ ← absorb_app app; Done (Ok ()) | Some _ => Done (Ok ()) end);
  _ ← settle_persistence;
  Done (Ok ()).
Definition adoption_group (b adder : bytes) : result string bytes :=
  d ← Us.us_adopt (Oid := Oid) (C := C) b seed me adder;
  ok_or no_keyhive (fst <$> Us.keyhive (Oid := Oid) d).
Definition adopt_fragment : prog (result string unit) :=
  e ← ask ReadEngine;
  _ ←! (if (1 <? length (match us (cells e) with Some d => heads_of d | None => [] end))%nat then
      match us (cells e) with
      | None => Done (Err no_group)
      | Some d =>
        let '(d, anchor) := History.merge_anchor (C := C) d in
        _ ← ask (WriteEngine (set_us d e));
        push_us_commits (option_list anchor)
      end
    else Done (Ok ()));
  e ← ask ReadEngine;
  match us (cells e) with
  | None => Done (Ok ())
  | Some d =>
    match heads_of d with
    | [head] =>
      if holds_fragment (storage (cells e)) us_tree head then Done (Ok ()) else
      let fragment := whole_fragment head (change_hashes d) in
      match bundle (History.read d) [fragment] with
      | [] => Done (Ok ())
      | bundled :: _ => install_fragment us_tree fragment bundled false
      end
    | _ => Done (Ok ())
    end
  end.
Definition drop_tree (tree : bytes) : prog (result string unit) :=
  _ ←! ask (RemoveTree tree);
  _ ←! ask (TreeHeads tree);
  _ ← modify (on_storage (λ s, forget_tree s tree));
  Done (Ok ()).
Definition abandon (partition : string) : prog (result string unit) :=
  _ ←! each [document_tree partition; shared_authority_tree partition] (λ tree,
    _ ←! drop_tree tree;
    _ ← modify (on_authorities (delete tree));
    Done (Ok ()));
  _ ← modify (on_documents (delete partition));
  Done (Ok ()).
Definition adopt_us (b adder key : bytes) : prog (result string unit) :=
  _ ←! hydrate;
  adopted ←! Done (Us.us_adopt (Oid := Oid) (C := C) b seed me adder);
  _ ←! drop_tree us_tree;
  e ← ask ReadEngine;
  _ ←! each (shared_partitions e) abandon;
  _ ← modify (λ e, refresh_opaque_admission (Oid := Oid) (refresh_members (Oid := Oid) (next_generation (set_name_key key (set_us adopted e)))));
  _ ←! reconcile_opaque;
  _ ←! sync_everywhere us_tree;
  adopt_fragment.

(** ** Items out of a store or an invitation *)
Definition carry (c : Ingest.call) : prog (Ingest.ans (A := A) c) :=
  match c with
  | Ingest.Hydrate => hydrate
  | Ingest.OpenUs => open_us
  | Ingest.OpenDocument p => open_document p
  | Ingest.ReadCells => e ← ask ReadEngine; Done (cells e)
  | Ingest.WriteStorage s => modify (on_storage (λ _, s))
  | Ingest.HydrateTree tree commits fragments => ask (HydrateTree tree commits fragments)
  | Ingest.Absorb tree => absorb tree
  | Ingest.ReconcileOpaque => reconcile_opaque
  | Ingest.RetireTree tree => retire_tree tree
  | Ingest.SettlePersistence => settle_persistence
  end.
Definition ingest_items (items : list StoreItem) : prog (result string bool) := interp carry (Ingest.ingest_items items).
Definition document_import_inline (app : string) (items : list StoreItem) : prog (result string bool) := interp carry (Ingest.document_import_inline app items).

(** ** Persistence *)
Record PreparedDelta := mkPrepared { pd_delta : Journal.EngineDelta VaultState; pd_pending : nat; pd_revision : Z }.
Definition by_cref {T} (a b : bytes * T) : Prop := key_le a.1 b.1.
#[export] Instance by_cref_dec {T} : RelDecision (by_cref (T := T)).
Proof. intros a b. unfold by_cref. apply _. Defined.
Definition sorted_vault (s : VaultState) : VaultState :=
  mkVaultState (vs_archive s) (vs_group s) (vs_doc s) (merge_sort by_cref (vs_heads s))
    (merge_sort by_cref ((λ p, (p.1, merge_sort by_cref p.2)) <$> vs_shared_heads s)).
Definition vault_state : prog (result string (option VaultState)) :=
  e ← ask ReadEngine;
  if vault e then s ←! ask ReadVault; Done (Ok (Some s)) else Done (Ok (pending_vault e)).
Definition prepare_persistence : prog (result string (option PreparedDelta)) :=
  _ ←! control_barrier;
  locked Boundary (
    e ← ask ReadEngine;
    let pending := settled_len (storage (cells e)) in
    let revision := persistence_revision e in
    if (pending =? 0)%nat && (revision =? persisted_revision e) then Done (Ok None) else
    vault ←! vault_state;
    e ← ask ReadEngine;
    let control := Journal.mkControl (btree_keys (documents (cells e))) (sorted_vault <$> vault) (name_key (cells e)) in
    Done (Ok (Some (mkPrepared (Journal.mkDelta control (pending_prefix (storage (cells e)) pending)) pending revision)))).
Definition acknowledge_persistence (p : PreparedDelta) : prog unit :=
  modify (λ e, set_persisted (pd_revision p) (on_storage (λ s, acknowledge s (pd_pending p)) e)).
Definition snapshot : prog (result string (Snapshot.Snapshot (VaultState := VaultState))) :=
  _ ←! control_barrier;
  vault ←! vault_state;
  e ← ask ReadEngine;
  Done (Ok (Snapshot.SnapshotStorage_snapshot (storage (cells e))
    ((λ p, (p.1, History.tree p.2, History.save (C := C) (History.read p.2))) <$> btree_items (documents (cells e)))
    ((λ d, (History.tree d, History.save (C := C) (History.read d))) <$> us (cells e))
    (match vault with Some _ => Some keyhive_tree | None => None end) vault (name_key (cells e)))).

(** ** Connections *)
Definition content_trees e : list bytes :=
  (History.tree <$> btree_values (documents (cells e))) ++
  ((λ p, tree_id p.1 (nonce p.2)) <$> filter (λ p, is_Some (mode_ p.2)) (btree_items (registers (s_lifecycle (storage (cells e)))))).
Fixpoint await_trees (conn : Z) (trees : list bytes) (pending : gmap bytes (list bytes)) : prog (result string (gmap bytes (list bytes))) :=
  match trees with
  | [] => Done (Ok pending)
  | tree :: trees =>
    e ← ask ReadEngine;
    partition ←! Done (ok_or "shared authority has no local document"%string
      (fst <$> head (filter (λ p, History.tree p.2 = tree) (btree_items (documents (cells e))))));
    let authority := shared_authority_tree partition in
    _ ←! ask (SyncTree conn authority);
    await_trees conn trees (<[authority := default [] (pending !! authority) ++ [tree]]> pending)
  end.
Definition connect (direction : Direction) (expected : option bytes) : prog (result string bytes) :=
  e ← ask ReadEngine;
  let predecessors : gset Z := list_to_set (conns (net e)).*1 in
  _ ←! hydrate;
  _ ←! open_us;
  conn ←! ask (Connect direction expected);
  e ← ask ReadEngine;
  _ ←! each (shared_partitions e) refresh_shared_authority;
  allowed ←! can_sync_peer conn.2;
  if negb allowed then Done (Err "peer has no document authority"%string) else
  e ← ask ReadEngine;
  let '(_, what) := register (device_members (cells e)) (shared_authorities (cells e)) conn.1 conn.2 direction predecessors (net e) in
  _ ← ask (WriteEngine (on_net (λ l, (register (device_members (cells e)) (shared_authorities (cells e)) conn.1 conn.2 direction predecessors l).1) e));
  match what with
  | NoAuthority => Done (Err "peer has no shared document authority"%string)
  | ForeignTrees trees =>
    pending ←! await_trees conn.1 trees ∅;
    _ ← modify (on_net (await_authority conn.1 pending));
    Done (Ok conn.2)
  | SyncControl =>
    _ ←! ask (SyncTree conn.1 us_tree);
    Done (Ok conn.2)
  end.
Definition disconnect (peer : bytes) : prog unit :=
  e ← ask ReadEngine;
  every (filter (λ c, c.2 = peer) (conns (net e))).*1 (λ conn, ask (Disconnect conn)).
(** *** One event of the pump each *)
Definition sync_ignored (conn : Z) (tree : bytes) : prog unit := _ ← ask (SyncTree conn tree); Done ().
Definition maybe_sync_catalog (conn : Z) : prog unit :=
  e ← ask ReadEngine;
  every (catalog_requests conn (content_trees e) (λ _, true) (net e)) (λ tree,
    now ← ask ReadEngine;
    if negb (is_opaque_tree tree) || bool_decide (opaque_status (cells now) tree = Some true) then sync_ignored conn tree else Done ()).
Definition tree_updated (tree : bytes) : prog unit :=
  _ ← (if is_opaque_tree tree then locked Boundary (
        e ← ask ReadEngine;
        if bool_decide (opaque_status (cells e) tree = Some true) then settle_persistence else Done ())
      else _ ← absorb tree; Done ());
  _ ← (if bool_decide (tree = us_tree) then _ ← reconcile_opaque; Done () else Done ());
  ask (Notify Changed).
Definition authority_finished (conn : Z) (tree : bytes) : prog unit :=
  _ ← ask (TreeHeads tree);
  _ ← absorb tree;
  e ← ask ReadEngine;
  let '(_, content) := foreign_content conn tree (net e) in
  _ ← ask (WriteEngine (on_net (λ l, (foreign_content conn tree l).1) e));
  match connection_of conn (net e) with
  | None => Done ()
  | Some _ => every content (sync_ignored conn)
  end.
Definition us_finished (conn : Z) : prog unit :=
  e ← ask ReadEngine;
  if negb (bool_decide (control_phases (net e) !! conn = Some AwaitUs)) then Done () else
  _ ← ask (TreeHeads us_tree);
  changed ← absorb us_tree;
  _ ← reconcile_opaque;
  _ ← (if changed : bool then ask (Notify Changed) else Done ());
  e ← ask ReadEngine;
  _ ← ask (WriteEngine (on_net (set_phase conn AwaitKeyhive) e));
  match connection_of conn (net e) with
  | None => Done ()
  | Some _ => sync_ignored conn keyhive_tree
  end.
Definition keyhive_finished (conn : Z) : prog unit :=
  e ← ask ReadEngine;
  if negb (bool_decide (control_phases (net e) !! conn = Some AwaitKeyhive)) then Done () else
  _ ← ask (TreeHeads keyhive_tree);
  _ ← absorb keyhive_tree;
  e ← ask ReadEngine;
  let '(_, doomed) := supersede conn (net e) in
  _ ← ask (WriteEngine (on_net (λ l, (supersede conn l).1) e));
  _ ← every doomed.*1 (λ c, ask (Disconnect c));
  _ ← modify (on_net rebuild_ready_peers);
  e ← ask ReadEngine;
  elected ← (match connection_of conn (net e) with
    | None => Done false
    | Some current =>
      match elect me current.2 (net e) with
      | None => Done false
      | Some (winner, losers) =>
        _ ← every losers.*1 (λ c, ask (Disconnect c));
        Done (bool_decide (winner = conn))
      end
    end);
  e ← ask ReadEngine;
  let '(_, should_send) := send_catalog conn (net e) in
  _ ← ask (WriteEngine (on_net (λ l, (send_catalog conn l).1) e));
  _ ← (if elected && should_send then every (Catalog.encode_catalog (content_trees e)) (λ b, ask (SendExtension conn b)) else Done ());
  maybe_sync_catalog conn.
Definition extension_message (conn : Z) (peer b : bytes) : prog unit :=
  e ← ask ReadEngine;
  let '(_, complete) := extension (device_members (cells e)) conn peer b (net e) in
  _ ← ask (WriteEngine (on_net (λ l, (extension (device_members (cells e)) conn peer b l).1) e));
  if (complete : bool) then maybe_sync_catalog conn else Done ().
Definition connection_closed (conn : Z) (peer : option bytes) : prog unit :=
  e ← ask ReadEngine;
  let '(_, gone) := closed conn peer (net e) in
  _ ← ask (WriteEngine (on_net (λ l, (closed conn peer l).1) e));
  if (gone : bool) then ask (Notify (PeerClosed peer)) else Done ().

(** ** A new engine, from what it was checkpointed as *)
Definition restore_tree (tree : bytes) (cs fs : list Item) (r : SnapshotStorage * list bytes) : SnapshotStorage * list bytes :=
  (restore r.1 tree cs fs, r.2 ++ [tree]).
Definition restore_app (r : SnapshotStorage * list bytes) (app : Snapshot.AppState) : SnapshotStorage * list bytes :=
  let state := Snapshot.as_state app in
  let r := restore_tree (document_tree (Snapshot.as_app app)) (Snapshot.ts_commits state) (Snapshot.ts_fragments state) r in
  match Snapshot.as_authority app with
  | [] => r
  | authority => restore_tree (shared_authority_tree (Snapshot.as_app app)) authority [] r
  end.
Definition load_app (app : Snapshot.AppState) : string * Document :=
  let tree := document_tree (Snapshot.as_app app) in
  (Snapshot.as_app app, History.load_document (C := C) (Snapshot.ts_doc (Snapshot.as_state app))
    (History.actor (as_bytes "polyvisor:actor:") seed (as_bytes (Snapshot.as_app app))) tree).
Definition restore_opaque (r : SnapshotStorage * list bytes) (o : Snapshot.OpaqueState) : SnapshotStorage * list bytes :=
  if bool_decide (status (s_lifecycle r.1) (Snapshot.os_tree o) = Some true) then restore_tree (Snapshot.os_tree o) (Snapshot.os_commits o) [] r else r.
Definition with_registers (next : gmap bytes RegisterValue) (r : SnapshotStorage * list bytes) : SnapshotStorage * list bytes :=
  (mkStorage (trees r.1) (pending r.1) (settled r.1) (mkLifecycle next (ready_peers (s_lifecycle r.1))) (s_shared r.1), r.2).
Definition restored_tree (tree : bytes) (state : option Snapshot.TreeState) (r : SnapshotStorage * list bytes) : SnapshotStorage * list bytes :=
  match state with Some state => restore_tree tree (Snapshot.ts_commits state) (Snapshot.ts_fragments state) r | None => r end.
Definition restored_us (state : option Snapshot.TreeState) (r : SnapshotStorage * list bytes) : option Document :=
  state ← state; Some (Us.us_absorb (C := C) r.1 (Us.us_load (C := C) (Snapshot.ts_doc state) seed)).1.
Definition fresh_storage : SnapshotStorage := SnapshotStorage_new (mkLifecycle ∅ ∅).
Definition restored (s : Snapshot.Snapshot (VaultState := VaultState)) : SnapshotStorage * list bytes * option Document :=
  let r := foldl restore_app (fresh_storage, []) (Snapshot.sn_apps s) in
  let r := restored_tree us_tree (Snapshot.sn_us s) r in
  let d := restored_us (Snapshot.sn_us s) r in
  let r := with_registers (registers_of (Oid := Oid) d) r in
  let r := foldl restore_opaque r (Snapshot.sn_opaque s) in
  let r := foldl (λ r u, restore_tree (Snapshot.us_tree_ u) (Snapshot.us_commits u) (Snapshot.us_fragments u) r) r (Snapshot.sn_unbound s) in
  (restored_tree keyhive_tree (Snapshot.sn_keyhive s) r, d).
Definition new_engine (state : option (Snapshot.Snapshot (VaultState := VaultState))) : Engine A :=
  let '(s, hydrate, d) := match state with Some state => restored state | None => (fresh_storage, [], None) end in
  let apps := match state with Some state => list_to_map (reverse (load_app <$> Snapshot.sn_apps state)) | None => ∅ end in
  let s := mark_restored (mkStorage (trees s) (pending s) (settled s) (s_lifecycle s) (Some ∅)) in
  mkEngine (mkCells s apps d (members_of (Oid := Oid) d) ∅ (state ≫= Snapshot.sn_name_key) 0) Links_new
    false (state ≫= Snapshot.sn_vault) (match hydrate with [] => None | _ => Some hydrate end) ∅ ∅ 0 0 0 0.

(** ** Everything an engine is asked, and every event it hears *)
Inductive request :=
| DocumentRead (app : string)
| DocumentMutate (app : string) (change : Document → Document * result string unit)
| DocumentPublish (app : string) (changes : list bytes)
| DocumentAdopt (app : string) (b : bytes) (adopt : Document → Document → Document * result string unit)
| CreateShared
| Grant (app : string) (group device proof : bytes) (access : Calls.DocumentAccess)
| ValidateGrant (g : Calls.DocumentGrant) (sender_group sender_device : bytes)
| AdoptDocument (g : Calls.DocumentGrant) (sender_group sender_device : bytes)
| AdoptSharedDocuments (grants : list Calls.DocumentGrant)
| SharedDocuments
| CanSyncPeer (key : bytes)
| ControlBarrier
| OpaqueCurrent (slot : string)
| OpaqueReplace (slot : string) (mode : OpaqueMode)
| OpaqueDisable (slot : string)
| OpaqueOpen (tree : bytes)
| OpaquePublish (tree : bytes) (parents : list bytes) (b : bytes)
| OpaqueRead (tree : bytes)
| ListMembers
| AddMember (key : bytes) (petname : string) (enrolled : Z)
| SetPetname (key : bytes) (petname : string)
| AuthorityGroup
| EnrollKeyhive (card device : bytes)
| AdoptKeyhive (events content_keys : bytes)
| AdoptUs (b adder key : bytes)
| IngestItems (items : list StoreItem)
| ImportInline (app : string) (items : list StoreItem)
| PreparePersistence
| AcknowledgePersistence (p : PreparedDelta)
| TakeSnapshot
| Dial (direction : Direction) (expected : option bytes)
| HangUp (peer : bytes)
| TreeUpdated (tree : bytes)
| AuthorityFinished (conn : Z) (tree : bytes)
| UsFinished (conn : Z)
| KeyhiveFinished (conn : Z)
| ExtensionMessage (conn : Z) (peer b : bytes)
| ConnectionClosed (conn : Z) (peer : option bytes).
Definition ignored {X} (p : prog X) : prog unit := _ ← p; Done ().
Definition serve (r : request) : prog unit :=
  match r with
  | DocumentRead app => ignored (document_read app History.read)
  | DocumentMutate app change => ignored (mutate app change)
  | DocumentPublish app changes => ignored (document_publish app changes)
  | DocumentAdopt app b adopt => ignored (document_adopt app b adopt)
  | CreateShared => ignored create_shared_document
  | Grant app group device proof access => ignored (grant_document app group device proof access)
  | ValidateGrant g group device => ignored (validate_document_grant g group device)
  | AdoptDocument g group device => ignored (adopt_document g group device)
  | AdoptSharedDocuments grants => ignored (adopt_shared_documents grants)
  | SharedDocuments => ignored shared_documents
  | CanSyncPeer key => ignored (can_sync_peer key)
  | ControlBarrier => ignored control_barrier
  | OpaqueCurrent slot => ignored (opaque_current slot)
  | OpaqueReplace slot mode => ignored (opaque_replace slot mode)
  | OpaqueDisable slot => ignored (opaque_disable slot)
  | OpaqueOpen tree => ignored (opaque_open tree)
  | OpaquePublish tree parents b => ignored (opaque_publish tree parents b)
  | OpaqueRead tree => ignored (opaque_read tree)
  | ListMembers => ignored members
  | AddMember key petname enrolled => ignored (add_member key petname enrolled)
  | SetPetname key petname => ignored (set_member_petname key petname)
  | AuthorityGroup => ignored authority_group
  | EnrollKeyhive card device => ignored (enroll_keyhive card device)
  | AdoptKeyhive events content_keys => ignored (adopt_keyhive events content_keys)
  | AdoptUs b adder key => ignored (adopt_us b adder key)
  | IngestItems items => ignored (ingest_items items)
  | ImportInline app items => ignored (document_import_inline app items)
  | PreparePersistence => ignored prepare_persistence
  | AcknowledgePersistence p => acknowledge_persistence p
  | TakeSnapshot => ignored snapshot
  | Dial direction expected => ignored (connect direction expected)
  | HangUp peer => disconnect peer
  | TreeUpdated tree => tree_updated tree
  | AuthorityFinished conn tree => authority_finished conn tree
  | UsFinished conn => us_finished conn
  | KeyhiveFinished conn => keyhive_finished conn
  | ExtensionMessage conn peer b => extension_message conn peer b
  | ConnectionClosed conn peer => connection_closed conn peer
  end.
End Requests.
