(* ===== verification/EngineToy.v ===== *)
(** * A device to try the engine's operations on

    The classes of [Publish] and [Requests] on small data, and a world that answers
    their calls: cells, a driver that stores what it is handed until it is told to
    refuse, and a vault that seals in the clear. *)
From S2P Require Import Prelude BTree Crypto Text Links Opaque Policy Trees Storage Items Async Engine Publish Requests.
From S2P Require History Frontier Us Automerge ContactsWire.

Module Toy.
Import Crypto.Toy ContactsWire.ToySigned.
#[export] Existing Instances History.Toy.automerge History.Toy.graph.
#[export] Instance fragmented : Fragmented History.Toy.adoc := {| fragments _ := []; bundle _ l := (λ _, []) <$> l |}.
#[export] Instance sedimentree : Sedimentree := {|
  try_decode_commit b := None;
  try_decode_fragment b := None;
  minimize _ cs := cs;
  blob_meta b := b;
  ciphertext_refs b := p ← (whole (parse b) : option (bytes * bytes * bytes)); Some p.1;
  digest_refs l := mjoin l |}.
#[export] Instance verifies : TryVerify := {| try_verify_commit s := None; try_verify_fragment s := None |}.
#[export] Instance authorities : Authorities := {| decode_events _ := Ok []; identifier _ := Ok () |}.
Abbreviation adoc := History.Toy.adoc.

Definition me : bytes := replicate 32 (byte_of 3).
Record world := mkWorld { engine : Engine adoc; refusing : bool }.
Definition stored (tree : bytes) (c : History.NewCommit) (s : SnapshotStorage) : SnapshotStorage :=
  insert_commit tree (History.head c)
    (mkSigned (History.blob c) me (Some (mkCommit tree (History.head c) (parents_of c) (blob_meta (History.blob c)))), History.blob c) s.
Definition sealed (cref : bytes) (preds : list bytes) (change : bytes) (shared : option bytes) : Frontier.Sealed :=
  Frontier.mkSealed (write (cref, mjoin preds, change)) cref [] [] shared.
Definition opened (p : bytes * bytes) : option (bytes * bytes) := c ← (whole (parse p.2) : option (bytes * bytes * bytes)); Some (p.1, c.2).
Definition all_access : Access := mkAccess true true.
Definition vault0 : VaultState := mkVaultState [] [] [] [] [].
Definition handle (w : world) (c : call adoc) : option (ans c * world) :=
  match c with
  | Lock _ | Unlock _ | Confirm _ | Cover _ | Forget _ | Unsubscribe _ _ | Disconnect _ | SendExtension _ _ | Notify _ => Some ((), w)
  | ReadEngine => Some (engine w, w)
  | WriteEngine e => Some ((), mkWorld e (refusing w))
  | NowMs => Some (7, w)
  | Connect _ _ => Some (Err "nobody"%string, w)
  | AddCommits tree cs =>
    if refusing w then Some (Err "stopped"%string, w)
    else Some (Ok (), mkWorld (on_storage (λ s, foldl (λ s c, stored tree c s) s cs) (engine w)) false)
  | AddFragment _ _ | TreeHeads _ | HydrateTree _ _ _ | RemoveTree _ | SyncTree _ _ => Some (Ok (), w)
  | VaultCreate | VaultRestore _ | IngestEvents _ | IngestScoped _ _ | IngestAuthority _ | AdoptAuthority _ _ | ValidateAuthority _ _ _ _ _ _
  | ImportGroupProof _ _ _ | GrantDocument _ _ _ | ImportSharedFrontier _ _ | AdoptVault _ _ _ _ => Some (Ok (), w)
  | GroupDoc => Some (([byte_of 1], [byte_of 2]), w)
  | Seal cref preds change => Some (Ok (sealed cref preds change None), w)
  | SealShared d cref preds change => Some (Ok (sealed cref preds change (Some d)), w)
  | OpenBlobs blobs _ | OpenShared _ blobs _ _ | OpenRaw blobs _ => Some (Ok (omap opened blobs), w)
  | Unpublished => Some (Ok [], w)
  | Unseen _ => Some (true, w)
  | ReadVault => Some (Ok vault0, w)
  | DocumentMembers _ => Some (Ok [(me, all_access)], w)
  | DocumentAccess _ _ => Some (Ok (Some all_access), w)
  | DocumentAuthority _ | CreateDocument | ExportSharedFrontier _ | Enroll _ _ | ExportContentKeys => Some (Ok (replicate 32 (byte_of 5)), w)
  end.
(** A device that just started. *)
Definition fresh : world := mkWorld (new_engine (Oid := nat) (C := nat * nat) me None) false.
Definition refuse (b : bool) (w : world) : world := mkWorld (engine w) b.
(** The world a run leaves. *)
Fixpoint after {X} (w : world) (p : prog adoc X) : world :=
  match p with
  | Done _ => w
  | Call c k => match handle w c with Some (y, w) => after w (k y) | None => w end
  end.
End Toy.
