(* ===== verification/Discipline.v ===== *)
(** * What every operation does with a call

    A discipline is a property of programs that respects their structure, with
    three levels: what holds wherever a program is started, before the persistence
    boundary is taken, and with no lock held.  Given a discipline of the calls that
    take no lock and hand nothing to the driver, and of the few programs that seal
    and confirm, every operation of the engine keeps it. *)
From S2P Require Import Prelude BTree Crypto Text Links Opaque Policy Trees Storage Items Async Engine Publish Requests.
From S2P Require History Frontier Us Automerge Ingest.

Inductive level := Anywhere | BeforeBoundary | AtTop.
(** The calls that lock or unlock, hand something to the driver, or move the
    frontier. *)
Definition guarded {A} (c : call A) : bool :=
  match c with Lock _ | Unlock _ | AddCommits _ _ | AddFragment _ _ | Confirm _ => true | _ => false end.
Class Discipline (A : Type) := {
  obeys : level → ∀ {X}, prog A X → Prop;
  obeys_Done l {X} (x : X) : obeys l (Done x);
  obeys_bind l {X Y} (p : prog A X) (f : X → prog A Y) : obeys l p → (∀ x, obeys l (f x)) → obeys l (p ≫= f);
  obeys_before {X} (p : prog A X) : obeys Anywhere p → obeys BeforeBoundary p;
  obeys_top {X} (p : prog A X) : obeys BeforeBoundary p → obeys AtTop p;
  obeys_boundary {X} (p : prog A X) : obeys Anywhere p → obeys BeforeBoundary (locked Boundary p);
  obeys_first {X} k (p : prog A X) : k ≠ Boundary → obeys BeforeBoundary p → obeys AtTop (locked k p);
  obeys_ask c : guarded c = false → obeys Anywhere (ask c);
}.

(** ** Structure *)
Section Structure.
Context {A : Type} {D : Discipline A}.
Lemma obeys_level l {X} (p : prog A X) : obeys Anywhere p → obeys l p.
Proof. intros Hp. destruct l; [done|by apply obeys_before|by apply obeys_top, obeys_before]. Qed.
Lemma obeys_ret l {X} (x : X) : obeys (A := A) l (mret x).
Proof. apply obeys_Done. Qed.
Lemma obeys_free l (c : call A) : guarded c = false → obeys l (ask c).
Proof. intros Hc. by apply obeys_level, obeys_ask. Qed.
Lemma obeys_try l {E X Y} (p : prog A (result E X)) (f : X → prog A (result E Y)) : obeys l p → (∀ x, obeys l (f x)) → obeys l (try p f).
Proof. intros Hp Hf. apply obeys_bind; [done|]. intros [x|e]; [apply Hf|apply obeys_Done]. Qed.
Lemma obeys_each l {T} (xs : list T) (f : T → prog A (result string unit)) : (∀ x, obeys l (f x)) → obeys l (each xs f).
Proof. intros Hf. induction xs as [|x xs IH]; [apply obeys_Done|]. apply obeys_try; [apply Hf|done]. Qed.
Lemma obeys_every l {T} (xs : list T) (f : T → prog A unit) : (∀ x, obeys l (f x)) → obeys l (every xs f).
Proof. intros Hf. induction xs as [|x xs IH]; [apply obeys_Done|]. apply obeys_bind; [apply Hf|done]. Qed.
Lemma obeys_any l {T} (xs : list T) (f : T → prog A bool) b : (∀ x, obeys l (f x)) → obeys l (any xs f b).
Proof. intros Hf. revert b. induction xs as [|x xs IH]; intros b; [apply obeys_Done|]. apply obeys_bind; [apply Hf|]. intros b'. apply IH. Qed.
Lemma obeys_interp l {C} {up : C → Type} {X} (impl : ∀ c : C, prog A (up c)) (p : Async.prog up X) : (∀ c, obeys l (impl c)) → obeys l (interp impl p).
Proof. intros Hi. induction p as [x|c k IH]; [apply obeys_Done|]. apply obeys_bind; [apply Hi|done]. Qed.
Lemma modify_obeys f : obeys (A := A) Anywhere (modify f).
Proof. apply obeys_bind; [exact (obeys_ask ReadEngine eq_refl)|]. intros e. exact (obeys_ask (WriteEngine (f e)) eq_refl). Qed.
End Structure.
Create HintDb walk discriminated.
#[export] Hint Constants Opaque : walk.
#[export] Hint Extern 1 (obeys _ (ask ?c)) => (exact (obeys_free _ c eq_refl)) : walk.
#[export] Hint Extern 5 (obeys AtTop _) => (apply obeys_top) : walk.
#[export] Hint Extern 5 (obeys BeforeBoundary _) => (apply obeys_before) : walk.
#[export] Hint Resolve modify_obeys : walk.
(** A program's structure, down to the calls and the programs the database knows. *)
Ltac walk_step :=
  lazymatch goal with
  | |- obeys _ (Done _) => apply obeys_Done
  | |- obeys _ (@mret _ _ _ _) => apply obeys_ret
  | |- obeys _ (try _ _) => apply obeys_try; [|intros ?]
  | |- obeys _ (@mbind _ _ _ _ _ _) => apply obeys_bind; [|intros ?]
  | |- obeys _ (each _ _) => apply obeys_each; intros ?
  | |- obeys _ (every _ _) => apply obeys_every; intros ?
  | |- obeys _ (any _ _ _) => apply obeys_any; intros ?
  | |- obeys BeforeBoundary (locked Boundary _) => apply obeys_boundary
  | |- obeys AtTop (locked Boundary _) => apply obeys_top
  | |- obeys AtTop (locked _ _) => apply obeys_first; [discriminate|]
  | |- obeys _ (match ?x with _ => _ end) => destruct x
  | _ => solve [eauto 4 with walk nocore]
  end.
Ltac walk := cbn zeta; repeat (walk_step; cbn zeta).

(** ** Every operation *)
Section Operations.
Context {A Oid C : Type} {AM : Automerge.Automerge A Oid} {CG : History.ChangeGraph A C} {FR : Fragmented A}.
Context {SedI : Sedimentree} {ShaI : Sha256} {BlI : Blake3} {VerI : TryVerify} {AuI : Authorities}.
Context (seed me name_key_seed model_entropy : bytes).
(** The programs that hand something over. *)
Class Handover (D : Discipline A) := {
  push_us_obeys cs : obeys Anywhere (push_us_commits cs);
  publish_keyhive_obeys : obeys Anywhere publish_keyhive;
  publish_authority_obeys p : obeys Anywhere (publish_shared_authority p);
  publish_commit_obeys p tree c : obeys Anywhere (publish_commit p tree c);
  publish_anchor_obeys p shared tree c : obeys Anywhere (publish_anchor p shared tree c);
  install_obeys tree f b enveloped : (enveloped = false → tree = us_tree) → obeys Anywhere (install_fragment tree f b enveloped);
  adopt_anchor_obeys tree c : obeys Anywhere (adopt_anchor tree c);
  opaque_publish_inner_obeys tree ps b : obeys Anywhere (opaque_publish_inner tree ps b);
}.
Context {D : Discipline A} {H : Handover D}.
#[local] Hint Resolve push_us_obeys publish_keyhive_obeys publish_authority_obeys publish_commit_obeys publish_anchor_obeys adopt_anchor_obeys
  opaque_publish_inner_obeys : walk.

#[local] Hint Extern 2 (obeys _ (install_fragment _ _ _ _)) => (apply obeys_level, install_obeys; solve [done|by intros ?%negb_false_iff%bool_decide_eq_true]) : walk.

(** ** Operations that take no lock *)
Lemma settle_obeys : obeys (A := A) Anywhere settle_persistence.
Proof. apply modify_obeys. Qed.
Lemma require_vault_obeys : obeys (A := A) Anywhere require_vault.
Proof. unfold require_vault. walk. Qed.
#[local] Hint Resolve settle_obeys require_vault_obeys : walk.
Lemma refresh_authority_obeys p : obeys Anywhere (refresh_shared_authority p).
Proof. unfold refresh_shared_authority. walk. Qed.
#[local] Hint Resolve refresh_authority_obeys : walk.
Lemma refresh_all_obeys : obeys Anywhere refresh_all_shared_authorities.
Proof. unfold refresh_all_shared_authorities. walk. Qed.
Lemma sync_shared_obeys p : obeys Anywhere (sync_shared_partition p).
Proof. unfold sync_shared_partition. walk. Qed.
#[local] Hint Resolve refresh_all_obeys sync_shared_obeys : walk.
Lemma broadcast_obeys p : obeys Anywhere (broadcast_shared_partition p).
Proof. unfold broadcast_shared_partition. walk. Qed.
Lemma retire_obeys tree : obeys Anywhere (retire_tree tree).
Proof. unfold retire_tree. walk. Qed.
#[local] Hint Resolve broadcast_obeys retire_obeys : walk.
Lemma reconcile_obeys : obeys Anywhere reconcile_opaque.
Proof. unfold reconcile_opaque. walk. Qed.
Lemma prune_obeys tree : obeys Anywhere (prune_tree tree).
Proof. apply modify_obeys. Qed.
#[local] Hint Resolve reconcile_obeys prune_obeys : walk.
Lemma compact_obeys tree : obeys Anywhere (compact tree).
Proof. unfold compact. walk. Qed.
Lemma open_request_obeys s tree d st r : obeys Anywhere (open_request s tree d st r).
Proof. unfold open_request. walk. Qed.
#[local] Hint Resolve compact_obeys open_request_obeys : walk.
Lemma open_bundles_obeys s tree d st b : obeys Anywhere (open_bundles s tree d st b).
Proof. unfold open_bundles. walk. Qed.
#[local] Hint Resolve open_bundles_obeys : walk.
Lemma absorb_app_obeys app : obeys Anywhere (absorb_app (C := C) me app).
Proof. unfold absorb_app. walk. Qed.
Lemma ingest_commit_obeys p : obeys Anywhere (ingest_commit p).
Proof. unfold ingest_commit. walk. Qed.
#[local] Hint Resolve absorb_app_obeys ingest_commit_obeys : walk.
Lemma absorb_keyhive_obeys : obeys Anywhere (absorb_keyhive (C := C) me).
Proof. unfold absorb_keyhive. walk. Qed.
Lemma absorb_authority_obeys tree : obeys Anywhere (absorb_authority (C := C) me tree).
Proof. unfold absorb_authority. walk. Qed.
#[local] Hint Resolve absorb_keyhive_obeys absorb_authority_obeys : walk.
Lemma absorb_items_obeys tree : obeys Anywhere (absorb_items (Oid := Oid) (C := C) me tree).
Proof. unfold absorb_items. walk. Qed.
#[local] Hint Resolve absorb_items_obeys : walk.
Lemma absorb_inner_obeys tree : obeys Anywhere (absorb_inner (Oid := Oid) (C := C) me tree).
Proof. unfold absorb_inner. walk. Qed.
Lemma open_vault_obeys : obeys Anywhere open_vault.
Proof. unfold open_vault. walk. Qed.
Lemma us_edit_obeys f : obeys Anywhere (us_edit f).
Proof. unfold us_edit. walk. Qed.
Lemma sync_everywhere_obeys tree : obeys Anywhere (sync_everywhere tree).
Proof. unfold sync_everywhere. walk. Qed.
#[local] Hint Resolve absorb_inner_obeys open_vault_obeys us_edit_obeys sync_everywhere_obeys : walk.
Lemma open_inner_obeys app : obeys Anywhere (open_document_inner (Oid := Oid) (C := C) seed me app).
Proof. unfold open_document_inner. walk. Qed.
Lemma with_document_obeys {X} app (f : History.Document A → History.Document A * result string X) : obeys Anywhere (with_document app f).
Proof. unfold with_document. walk. Qed.
Lemma writable_obeys app : obeys Anywhere (writable me app).
Proof. unfold writable. walk. Qed.
#[local] Hint Resolve open_inner_obeys with_document_obeys writable_obeys : walk.

(** ** Operations that take the boundary *)
Lemma absorb_obeys tree : obeys BeforeBoundary (absorb (Oid := Oid) (C := C) me tree).
Proof. unfold absorb. walk. Qed.
#[local] Hint Resolve absorb_obeys : walk.
Lemma hydrate_obeys : obeys BeforeBoundary (hydrate (Oid := Oid) (C := C) me).
Proof. unfold hydrate. walk. Qed.
#[local] Hint Resolve hydrate_obeys : walk.
Lemma open_us_obeys : obeys BeforeBoundary (open_us (Oid := Oid) (C := C) seed me name_key_seed).
Proof. unfold open_us. walk. Qed.
#[local] Hint Resolve open_us_obeys : walk.
Lemma open_document_obeys app : obeys BeforeBoundary (open_document (Oid := Oid) (C := C) seed me name_key_seed app).
Proof. unfold open_document. walk. Qed.
#[local] Hint Resolve open_document_obeys : walk.

(** ** Operations that take another one first *)
Lemma mutate_obeys {X} app (f : History.Document A → History.Document A * result string X) : obeys AtTop (mutate (Oid := Oid) (C := C) seed me name_key_seed app f).
Proof. unfold mutate. walk. Qed.
Lemma us_mutate_obeys {X} (f : History.Document A → History.Document A * result string X) : obeys AtTop (us_mutate (Oid := Oid) (C := C) seed me name_key_seed f).
Proof. unfold us_mutate. walk. Qed.
#[local] Hint Resolve mutate_obeys us_mutate_obeys : walk.

(** ** The public operations *)
Lemma document_read_obeys {X} app (f : History.Document A → X) : obeys AtTop (document_read (Oid := Oid) (C := C) seed me name_key_seed app f).
Proof. unfold document_read. walk. Qed.
Lemma adopt_app_fragment_obeys app : obeys Anywhere (adopt_app_fragment (C := C) app).
Proof. unfold adopt_app_fragment. walk. Qed.
#[local] Hint Resolve document_read_obeys adopt_app_fragment_obeys : walk.
Lemma document_adopt_obeys app b f : obeys AtTop (document_adopt (Oid := Oid) (C := C) seed me name_key_seed app b f).
Proof. unfold document_adopt. walk. Qed.
Lemma create_shared_obeys : obeys AtTop (create_shared_document (Oid := Oid) (C := C) seed me name_key_seed).
Proof. unfold create_shared_document. walk. Qed.
Lemma grant_obeys app g d p a : obeys AtTop (grant_document (Oid := Oid) (C := C) seed me name_key_seed app g d p a).
Proof. unfold grant_document. walk. Qed.
Lemma authority_group_obeys : obeys BeforeBoundary (authority_group (Oid := Oid) (C := C) seed me name_key_seed).
Proof. unfold authority_group. walk. Qed.
#[local] Hint Resolve document_adopt_obeys create_shared_obeys grant_obeys authority_group_obeys : walk.
Lemma validate_grant_obeys g sg sd : obeys BeforeBoundary (validate_document_grant (Oid := Oid) (C := C) seed me name_key_seed g sg sd).
Proof. unfold validate_document_grant. walk. Qed.
#[local] Hint Resolve validate_grant_obeys : walk.
Lemma adopt_document_obeys g sg sd : obeys AtTop (adopt_document (Oid := Oid) (C := C) seed me name_key_seed g sg sd).
Proof. unfold adopt_document. walk. Qed.
Lemma adopt_shared_obeys gs : obeys AtTop (adopt_shared_documents (Oid := Oid) (C := C) seed me name_key_seed gs).
Proof. unfold adopt_shared_documents. walk. Qed.
Lemma grants_of_obeys g l : obeys Anywhere (grants_of g l).
Proof. induction l as [|[p d] l IH]; cbn [grants_of]; walk. Qed.
#[local] Hint Resolve adopt_document_obeys adopt_shared_obeys grants_of_obeys : walk.
Lemma shared_documents_obeys : obeys AtTop (shared_documents (Oid := Oid) (C := C) seed me name_key_seed).
Proof. unfold shared_documents. walk. Qed.
Lemma can_sync_obeys key : obeys BeforeBoundary (can_sync_peer (Oid := Oid) (C := C) seed me name_key_seed key).
Proof. unfold can_sync_peer. walk. Qed.
Lemma control_barrier_obeys : obeys AtTop control_barrier.
Proof. unfold control_barrier. walk. Qed.
Lemma draw_nonce_obeys slot : obeys Anywhere (draw_nonce seed model_entropy slot).
Proof. unfold draw_nonce. walk. Qed.
#[local] Hint Resolve shared_documents_obeys can_sync_obeys control_barrier_obeys draw_nonce_obeys : walk.
Lemma opaque_replace_obeys slot m : obeys AtTop (opaque_replace (Oid := Oid) (C := C) seed me name_key_seed model_entropy slot m).
Proof. unfold opaque_replace. walk. Qed.
Lemma opaque_disable_obeys slot : obeys AtTop (opaque_disable (Oid := Oid) (C := C) seed me name_key_seed model_entropy slot).
Proof. unfold opaque_disable. walk. Qed.
Lemma require_current_obeys tree : obeys Anywhere (require_current_opaque tree).
Proof. unfold require_current_opaque. walk. Qed.
Lemma opaque_current_obeys slot : obeys AtTop (opaque_current (Oid := Oid) (C := C) seed me name_key_seed slot).
Proof. unfold opaque_current. walk. Qed.
#[local] Hint Resolve opaque_replace_obeys opaque_disable_obeys require_current_obeys opaque_current_obeys : walk.
Lemma opaque_open_obeys tree : obeys AtTop (opaque_open (Oid := Oid) (C := C) seed me name_key_seed tree).
Proof. unfold opaque_open. walk. Qed.
Lemma opaque_publish_obeys tree ps b : obeys AtTop (opaque_publish (Oid := Oid) (C := C) seed me name_key_seed tree ps b).
Proof. unfold opaque_publish. walk. Qed.
Lemma opaque_read_obeys tree : obeys AtTop (opaque_read (Oid := Oid) (C := C) seed me name_key_seed tree).
Proof. unfold opaque_read. walk. Qed.
Lemma members_obeys : obeys AtTop (members (Oid := Oid) (C := C) seed me name_key_seed).
Proof. unfold members. walk. Qed.
Lemma enroll_obeys card d : obeys AtTop (enroll_keyhive (Oid := Oid) (C := C) seed me name_key_seed card d).
Proof. unfold enroll_keyhive. walk. Qed.
Lemma adopt_keyhive_obeys ev ck : obeys AtTop (adopt_keyhive (Oid := Oid) (C := C) seed me name_key_seed ev ck).
Proof. unfold adopt_keyhive. walk. Qed.
Lemma adopt_fragment_obeys : obeys Anywhere (adopt_fragment (C := C)).
Proof. unfold adopt_fragment. walk. Qed.
Lemma drop_tree_obeys tree : obeys Anywhere (drop_tree tree).
Proof. unfold drop_tree. walk. Qed.
#[local] Hint Resolve opaque_open_obeys opaque_publish_obeys opaque_read_obeys members_obeys enroll_obeys adopt_keyhive_obeys adopt_fragment_obeys drop_tree_obeys : walk.
Lemma abandon_obeys p : obeys Anywhere (abandon p).
Proof. unfold abandon. walk. Qed.
#[local] Hint Resolve abandon_obeys : walk.
Lemma adopt_us_obeys b a k : obeys AtTop (adopt_us (Oid := Oid) (C := C) seed me b a k).
Proof. unfold adopt_us. walk. Qed.
#[local] Hint Resolve adopt_us_obeys : walk.
Lemma carry_obeys c : obeys AtTop (carry (Oid := Oid) (C := C) seed me name_key_seed c).
Proof. destruct c; cbn [carry Ingest.ans]; walk. Qed.
#[local] Hint Resolve carry_obeys : walk.
Lemma ingest_obeys items : obeys AtTop (ingest_items (Oid := Oid) (C := C) seed me name_key_seed items).
Proof. apply obeys_interp. intros c. apply carry_obeys. Qed.
Lemma import_inline_obeys app items : obeys AtTop (document_import_inline (Oid := Oid) (C := C) seed me name_key_seed app items).
Proof. apply obeys_interp. intros c. apply carry_obeys. Qed.
Lemma vault_state_obeys : obeys Anywhere vault_state.
Proof. unfold vault_state. walk. Qed.
#[local] Hint Resolve ingest_obeys import_inline_obeys vault_state_obeys : walk.
Lemma prepare_obeys : obeys AtTop prepare_persistence.
Proof. unfold prepare_persistence. walk. Qed.
Lemma snapshot_obeys : obeys AtTop (snapshot (C := C)).
Proof. unfold snapshot. walk. Qed.
Lemma await_trees_obeys conn l m : obeys Anywhere (await_trees conn l m).
Proof. revert m. induction l as [|tree l IH]; intros m; cbn [await_trees]; walk. Qed.
#[local] Hint Resolve prepare_obeys snapshot_obeys await_trees_obeys : walk.
Lemma connect_obeys d x : obeys AtTop (connect (Oid := Oid) (C := C) seed me name_key_seed d x).
Proof. unfold connect. walk. Qed.
Lemma disconnect_obeys peer : obeys Anywhere (disconnect peer).
Proof. unfold disconnect. walk. Qed.
#[local] Hint Resolve connect_obeys disconnect_obeys : walk.

(** ** The event pump *)
Lemma sync_ignored_obeys conn tree : obeys Anywhere (sync_ignored conn tree).
Proof. unfold sync_ignored. walk. Qed.
#[local] Hint Resolve sync_ignored_obeys : walk.
Lemma maybe_sync_obeys conn : obeys Anywhere (maybe_sync_catalog conn).
Proof. unfold maybe_sync_catalog. walk. Qed.
Lemma tree_updated_obeys tree : obeys AtTop (tree_updated (Oid := Oid) (C := C) me tree).
Proof. unfold tree_updated. walk. Qed.
Lemma authority_finished_obeys conn tree : obeys AtTop (authority_finished (Oid := Oid) (C := C) me conn tree).
Proof. unfold authority_finished. walk. Qed.
Lemma us_finished_obeys conn : obeys AtTop (us_finished (Oid := Oid) (C := C) me conn).
Proof. unfold us_finished. walk. Qed.
#[local] Hint Resolve maybe_sync_obeys tree_updated_obeys authority_finished_obeys us_finished_obeys : walk.
Lemma keyhive_finished_obeys conn : obeys AtTop (keyhive_finished (Oid := Oid) (C := C) me conn).
Proof. unfold keyhive_finished. walk. Qed.
Lemma extension_obeys conn peer b : obeys Anywhere (extension_message conn peer b).
Proof. unfold extension_message. walk. Qed.
Lemma connection_closed_obeys conn peer : obeys Anywhere (connection_closed conn peer).
Proof. unfold connection_closed. walk. Qed.
#[local] Hint Resolve keyhive_finished_obeys extension_obeys connection_closed_obeys : walk.

Abbreviation serve := (serve (Oid := Oid) (C := C) seed me name_key_seed model_entropy).
Lemma ignored_obeys l {X} (p : prog A X) : obeys l p → obeys l (ignored p).
Proof. intros Hp. unfold ignored. apply obeys_bind; [done|]. intros _. apply obeys_Done. Qed.
Lemma serve_obeys (r : request) : obeys AtTop (serve r).
Proof.
  destruct r; cbn [Requests.serve]; lazymatch goal with |- obeys _ (ignored _) => apply ignored_obeys | _ => idtac end;
    unfold document_publish, add_member, set_member_petname, acknowledge_persistence; walk.
Qed.
End Operations.
