(* ===== verification/Locks.v ===== *)
(** * No operation waits for itself, and not all of them for each other

    The engine has three kinds of mutexes and no other wait between its tasks.
    Every operation takes them in one order, the persistence boundary last and
    never twice, and drops what it took; so, whatever the driver and the peers
    answer, of any number of running operations one can always go on. *)
From S2P Require Import Prelude BTree Crypto Text Links Opaque Policy Trees Storage Items Async Engine Publish Requests Discipline.
From S2P Require History Frontier Us Automerge Ingest.

Section Order.
Context {A : Type}.
Abbreviation history := (Engine.history A).
(** The locks a history holds, the last one taken first. *)
Definition turn (held : list lock) (ev : Async.event (ans (A := A))) : list lock :=
  match asked ev with
  | Lock l => l :: held
  | Unlock l => filter (λ k, k ≠ l) held
  | _ => held
  end.
Definition held (h : history) : list lock := foldl turn [] h.
Definition ordered (h : history) (c : call A) : Prop :=
  match c with
  | Lock l => (Boundary ∉ held h) ∧ (l ≠ Boundary → held h = [])
  | Unlock l => l ∈ held h
  | _ => True
  end.
Definition same (h h' : history) : Prop := held h' = held h.
Lemma held_snoc h c y : held (h ++ [Ev c y]) = turn (held h) (Ev c y).
Proof. unfold held. by rewrite foldl_app. Qed.
Definition keeps_locks (L : list lock → Prop) : Keeps (λ h, L (held h)) same.
Proof. unfold same. split; [done|intros h h1 h2 -> ->; congruence|intros h h' ->; done]. Defined.

Lemma kept_all (P : lock → Prop) `{!∀ k, Decision (P k)} (l : list lock) : (∀ k, k ∈ l → P k) → filter P l = l.
Proof.
  induction l as [|k l IH]; intros Hl; [done|]. rewrite filter_cons_True by (apply Hl; left). f_equal. apply IH. intros k' ?. apply Hl. by right.
Qed.
#[local] Hint Extern 0 (Keeps (λ h, ?L (held h)) same) => exact (keeps_locks L) : typeclass_instances.
(** Where a program may be started: anywhere; before the boundary; with nothing held. *)
Definition before_boundary (L : list lock → Prop) : Prop := ∀ l, L l → Boundary ∉ l.
Definition at_top (L : list lock → Prop) : Prop := ∀ l, L l → l = [].
Lemma top_before L : at_top L → before_boundary L.
Proof. intros HL l ->%HL. apply not_elem_of_nil. Qed.
Abbreviation at_level L := (fits ordered (λ h : history, L (held h)) same).
Definition is_lock (c : call A) : bool := match c with Lock _ | Unlock _ => true | _ => false end.
Lemma ask_quiet L c : is_lock c = false → at_level L (ask c).
Proof. intros Hc. apply fits_ask. intros h _. unfold same. setoid_rewrite held_snoc. by destruct c. Qed.
Lemma locked_level {X} (l : lock) (p : prog A X) (L L' : list lock → Prop) :
  before_boundary L → (l = Boundary ∨ at_top L) → (∀ k, L k → L' (l :: k)) → at_level L' p → at_level L (locked l p).
Proof.
  intros Hb Hl HL Hp h Hs. unfold locked. cbn [mbind prog_bind prog_bind_ ask Async.call wp ordered]. split.
  - split; [by apply Hb|]. intros Hne. destruct Hl as [->|Ht]; [done|by apply Ht].
  - intros []. apply wp_bind. eapply wp_mono; [apply Hp; rewrite held_snoc; by apply HL|].
    cbn. intros x h' Hk. unfold same in Hk. rewrite held_snoc in Hk. cbn in Hk. rewrite Hk. split; [left|]. intros [].
    unfold same. rewrite held_snoc, Hk. unfold turn. cbn [asked]. rewrite filter_cons_False by (intros Hne; by apply Hne).
    apply kept_all. intros k Hin ->. destruct Hl as [->|Ht]; [by apply (Hb _ Hs)|rewrite (Ht _ Hs) in Hin; by apply elem_of_nil in Hin].
Qed.
Lemma locked_boundary {X} (p : prog A X) L : before_boundary L → (∀ L', at_level L' p) → at_level L (locked Boundary p).
Proof. intros HL Hp. apply (locked_level _ _ L (λ _, True)); [done|by left|done|apply (Hp (λ _, True))]. Qed.
Lemma locked_first {X} (l : lock) (p : prog A X) L : at_top L → l ≠ Boundary → (∀ L', before_boundary L' → at_level L' p) → at_level L (locked l p).
Proof.
  intros HL Hl Hp. apply (locked_level _ _ L (λ k, k = [l])); [by apply top_before|by right|intros k ->%HL; done|].
  apply (Hp (λ k, k = [l])). intros k ->. intros ?%list_elem_of_singleton. congruence.
Qed.
Lemma modify_quiet L f : at_level L (modify f).
Proof. unfold modify. fits_step; by apply ask_quiet. Qed.
End Order.
#[export] Hint Extern 0 (Keeps (λ h, ?L (held h)) same) => exact (keeps_locks L) : typeclass_instances.
#[export] Hint Extern 1 (fits ordered _ same (ask _)) => (apply ask_quiet; reflexivity) : fits.
#[export] Hint Resolve modify_quiet top_before : fits.
Ltac locks := fits; try (first [apply locked_boundary; [solve [auto with fits nocore]|intros ?]|apply locked_first; [assumption|discriminate|intros ? ?]]; locks).

Section Quiet.
Context {A : Type} {SedI : Sedimentree} {ShaI : Sha256} {BlI : Blake3}.
Abbreviation at_level L := (fits ordered (λ h : Engine.history A, L (held h)) same).
Implicit Types (L : list lock → Prop).

(** ** The programs that hand something over take no lock *)
Lemma settle_quiet L : at_level L settle_persistence.
Proof. apply modify_quiet. Qed.
Lemma require_vault_quiet L : at_level L require_vault.
Proof. unfold require_vault. locks. Qed.
Lemma push_commits_quiet L tree cs : at_level L (push_commits tree cs).
Proof. unfold push_commits. locks. Qed.
#[local] Hint Resolve settle_quiet require_vault_quiet push_commits_quiet : fits.
Lemma push_us_quiet L cs : at_level L (push_us_commits cs).
Proof. unfold push_us_commits. locks. Qed.
Lemma publish_keyhive_quiet L : at_level L publish_keyhive.
Proof. unfold publish_keyhive. locks. Qed.
Lemma publish_authority_quiet L p : at_level L (publish_shared_authority p).
Proof. unfold publish_shared_authority. locks. Qed.
Lemma retire_quiet L tree : at_level L (retire_tree tree).
Proof. unfold retire_tree. locks. Qed.
Lemma seal_quiet L c : at_level L (seal c).
Proof. unfold seal. locks. Qed.
Lemma seal_shared_quiet L d c : at_level L (seal_shared d c).
Proof. unfold seal_shared. locks. Qed.
Lemma add_fragment_quiet L tree f b : at_level L (add_fragment tree f b).
Proof. unfold add_fragment. locks. Qed.
Lemma prune_quiet L tree : at_level L (prune_tree tree).
Proof. apply modify_quiet. Qed.
Lemma require_current_quiet L tree : at_level L (require_current_opaque tree).
Proof. unfold require_current_opaque. locks. Qed.
#[local] Hint Resolve push_us_quiet publish_keyhive_quiet publish_authority_quiet retire_quiet seal_quiet seal_shared_quiet add_fragment_quiet prune_quiet require_current_quiet : fits.
Lemma seal_for_quiet L s c : at_level L (seal_for s c).
Proof. unfold seal_for. locks. Qed.
Lemma install_quiet L tree f b env : at_level L (install_fragment tree f b env).
Proof. unfold install_fragment. locks. Qed.
Lemma opaque_seal_quiet L tree id ps b : at_level L (opaque_seal tree id ps b).
Proof. unfold opaque_seal. locks. Qed.
Lemma opaque_land_quiet L tree id ps b s : at_level L (opaque_land tree id ps b s).
Proof. unfold opaque_land. locks. Qed.
Lemma opaque_abandon_quiet L tree crefs : at_level L (opaque_abandon tree crefs).
Proof. unfold opaque_abandon. locks. Qed.
#[local] Hint Resolve seal_for_quiet install_quiet opaque_seal_quiet opaque_land_quiet opaque_abandon_quiet : fits.
Lemma publish_anchor_quiet L app s tree c : at_level L (publish_anchor app s tree c).
Proof. unfold publish_anchor. locks. Qed.
Lemma publish_commit_quiet L app tree c : at_level L (publish_commit app tree c).
Proof. unfold publish_commit. locks. Qed.
Lemma opaque_finish_quiet L tree id ps b s : at_level L (opaque_finish tree id ps b s).
Proof. unfold opaque_finish. locks. Qed.
#[local] Hint Resolve publish_anchor_quiet publish_commit_quiet opaque_finish_quiet : fits.
Lemma adopt_anchor_quiet L tree c : at_level L (adopt_anchor tree c).
Proof. unfold adopt_anchor. locks. Qed.
Lemma opaque_inner_quiet L tree ps b : at_level L (opaque_publish_inner tree ps b).
Proof. unfold opaque_publish_inner. locks. Qed.

(** ** The order as a discipline *)
Definition in_order (l : level) {X} (p : prog A X) : Prop :=
  ∀ L, match l with Anywhere => True | BeforeBoundary => before_boundary L | AtTop => at_top L end → at_level L p.
#[export] Program Instance lock_discipline : Discipline A := {| obeys := @in_order |}.
Next Obligation. intros l X x L _. fits_step. Qed.
Next Obligation. intros l X Y p f Hp Hf L HL. fits_step; [by apply Hp|by apply Hf]. Qed.
Next Obligation. intros X p Hp L _. by apply Hp. Qed.
Next Obligation. intros X p Hp L HL. by apply Hp, top_before. Qed.
Next Obligation. intros X p Hp L HL. apply locked_boundary; [done|]. intros L'. by apply Hp. Qed.
Next Obligation. intros X k p Hk Hp L HL. apply locked_first; [done..|]. intros L' HL'. by apply Hp. Qed.
Next Obligation. intros c Hc L _. apply ask_quiet. by destruct c. Qed.
#[export] Instance lock_handover : Handover lock_discipline.
Proof.
  split; intros; intros L _; [apply push_us_quiet|apply publish_keyhive_quiet|apply publish_authority_quiet|apply publish_commit_quiet|apply publish_anchor_quiet
    |apply install_quiet|apply adopt_anchor_quiet|apply opaque_inner_quiet].
Qed.
End Quiet.

(** ** The order, and what follows from it *)
Section Facts.
Context {A Oid C : Type} {AM : Automerge.Automerge A Oid} {CG : History.ChangeGraph A C} {FR : Fragmented A}.
Context {SedI : Sedimentree} {ShaI : Sha256} {BlI : Blake3} {VerI : TryVerify} {AuI : Authorities}.
Context (seed me name_key_seed model_entropy : bytes).
Abbreviation serve := (serve (Oid := Oid) (C := C) seed me name_key_seed model_entropy).
Abbreviation request := (request (A := A)).
Abbreviation history := (Engine.history A).

(** Whatever it is answered, an operation takes the persistence boundary while it
    does not hold it, any other lock only with nothing held, drops only what it
    holds, and ends with nothing held. *)
Lemma locks_in_order (r : request) t x : runs (serve r) t x →
  (∀ t1 ev t2, t = t1 ++ ev :: t2 → ordered t1 (asked ev)) ∧ (x = Some () → held t = []).
Proof.
  intros Hr. assert (in_order AtTop (serve r)) as Ho by exact (serve_obeys seed me name_key_seed model_entropy r).
  destruct (wp_guards ordered _ [] _ t x (Ho (λ l, l = []) (λ l H, H) [] eq_refl) Hr) as [Hg Hx]. split; [exact Hg|]. intros ->. exact Hx.
Qed.

(** An operation under way: what it did, and the call it is at. *)
Record task := mkTask { asks : request; done_so_far : history; next : call A }.
Definition under_way (k : task) : Prop := ∀ y, ∃ x, runs (serve (asks k)) (done_so_far k ++ [Ev (next k) y]) x.
(** C8: of any number of operations under way one can always go on: it waits for no
    lock, or for one that none of them holds. *)
Theorem some_task_goes_on (ks : list task) : ks ≠ [] → Forall under_way ks →
  ∃ k, k ∈ ks ∧ ∀ l, next k = Lock l → ∀ j, j ∈ ks → l ∉ held (done_so_far j).
Proof.
  intros Hne Hall. rewrite Forall_forall in Hall.
  assert (∀ k l, k ∈ ks → next k = Lock l → ordered (done_so_far k) (Lock l)) as Hord.
  { intros k l Hk Hl. pose proof (Hall k Hk) as Hw. unfold under_way in Hw. rewrite Hl in Hw. destruct (Hw ()) as [x Hr].
    exact (proj1 (locks_in_order _ _ _ Hr) (done_so_far k) (Ev (Lock l) ()) [] eq_refl). }
  destruct (decide (Exists (λ k, Boundary ∈ held (done_so_far k)) ks)) as [(k & Hk & Hb)%Exists_exists|Hnb].
  { exists k. split; [done|]. intros l Hl. by destruct (Hord k l Hk Hl) as [? _]. }
  assert (∀ j, j ∈ ks → Boundary ∉ held (done_so_far j)) as Hfree by (intros j Hj Hb; apply Hnb, Exists_exists; by exists j).
  destruct (decide (Exists (λ k, held (done_so_far k) ≠ []) ks)) as [(k & Hk & Hh)%Exists_exists|Hnh].
  - exists k. split; [done|]. intros l Hl j Hj. destruct (Hord k l Hk Hl) as [_ Ho].
    destruct (decide (l = Boundary)) as [->|Hn]; [by apply Hfree|]. by apply Ho in Hn.
  - destruct ks as [|k ks]; [done|]. exists k. split; [left|]. intros l _ j Hj.
    destruct (decide (held (done_so_far j) = [])) as [->|Hn]; [apply not_elem_of_nil|]. destruct Hnh. apply Exists_exists. by exists j.
Qed.
End Facts.
