(* ===== verification/Sealed.v ===== *)
(** * Only what was sealed leaves a device

    Over every history of every operation: what is handed to the driver is an
    envelope the vault sealed for that very commit or fragment, save in the trees
    that are plaintext by design and the opaque trees whose caller encrypts; and
    the readable frontier moves only over what the driver took. *)
From S2P Require Import Prelude BTree Crypto Text Links Opaque Policy Trees Storage Items Async Engine Publish Requests Discipline.
From S2P Require History Frontier Us Automerge Ingest.

Section Leaves.
Context {A : Type} {SedI : Sedimentree} {ShaI : Sha256} {BlI : Blake3}.
Abbreviation history := (Engine.history A).
Implicit Types (h : history) (c : History.NewCommit).
(** The group document, Keyhive's events, and the authority of shared documents. *)
Definition plaintext_tree (tree : bytes) : Prop := tree = us_tree ∨ tree = keyhive_tree ∨ ∃ p, tree = shared_authority_tree p.
Definition caller_encrypts h (tree : bytes) : Prop :=
  ∃ e, Ev ReadEngine e ∈ h ∧ mode (s_lifecycle (storage (cells e))) tree = Some CallerEncrypted.
(** The names a commit is sealed under: its own, its scoped one in a shared document,
    or its raw one in an opaque tree. *)
Inductive sealed_as c : call A → Prop :=
| sealed_private change : sealed_as c (Seal (History.head c) (parents_of c) change)
| sealed_shared d change : let tree := document_tree (shared_partition d) in
    sealed_as c (SealShared d (shared_cref tree (History.head c)) (shared_cref tree <$> parents_of c) change)
| sealed_raw tree change : History.head c = item_id tree (History.parents c) change →
    sealed_as c (Seal (raw_cref tree (History.head c)) (sorted_crefs tree (History.parents c)) change).
Definition envelope_of h (asked : call A → Prop) (blob : bytes) : Prop :=
  ∃ s, Frontier.sd_blob s = blob ∧
    ((∃ cref preds change, Ev (Seal cref preds change) (Ok s) ∈ h ∧ asked (Seal cref preds change)) ∨
     (∃ d cref preds change, Ev (SealShared d cref preds change) (Ok s) ∈ h ∧ asked (SealShared d cref preds change))).
Definition sealed_fragment_as (tree : bytes) (f : NewFragment) (k : call A) : Prop := ∃ preds bundled, k = Seal (fragment_cref tree (nf_head f)) preds bundled.
(** The driver took the blob, and was asked for the heads after. *)
Definition taken h (blob : bytes) : Prop := ∃ t1 t2 tree, h = t1 ++ t2 ∧ (∃ r, Ev (TreeHeads tree) r ∈ t2) ∧
  ((∃ c, Ev (AddCommits tree [c]) (Ok ()) ∈ t1 ∧ History.blob c = blob) ∨ (∃ f, Ev (AddFragment tree f) (Ok ()) ∈ t1 ∧ nf_blob f = blob)).
Definition may_leave h (k : call A) : Prop :=
  match k with
  | AddCommits tree cs => plaintext_tree tree ∨ caller_encrypts h tree ∨ ∀ c, c ∈ cs → envelope_of h (sealed_as c) (History.blob c)
  | AddFragment tree f => tree = us_tree ∨ envelope_of h (sealed_fragment_as tree f) (nf_blob f)
  | Confirm s => taken h (Frontier.sd_blob s)
  | _ => True
  end.
Definition anywhere h : Prop := True.
Definition whatever h h' : Prop := True.
#[export] Instance keeps_whatever : Keeps anywhere whatever.
Proof. done. Qed.
Abbreviation leaves := (fits (A := A) may_leave anywhere whatever).
Definition unguarded (k : call A) : bool := match k with AddCommits _ _ | AddFragment _ _ | Confirm _ => false | _ => true end.
Lemma ask_unguarded k : unguarded k = true → leaves (ask k).
Proof. intros Hk. apply fits_ask. intros h _. by destruct k. Qed.
Lemma leaves_wp {X} (p : prog A X) h Q : leaves p → (∀ x h', Q x h') → wp may_leave p h Q.
Proof. intros Hp HQ. eapply wp_mono; [by apply Hp|]. intros x h' _. apply HQ. Qed.
Lemma modify_leaves f : leaves (modify f).
Proof. unfold modify. fits_step; by apply ask_unguarded. Qed.
Lemma locked_leaves {X} l (p : prog A X) : leaves p → leaves (locked l p).
Proof. intros Hp. unfold locked. do 2 (fits_step; [first [done|by apply ask_unguarded]|]). fits_step; [by apply ask_unguarded|fits_step]. Qed.
End Leaves.
#[export] Hint Extern 1 (fits may_leave _ _ (ask _)) => (apply ask_unguarded; reflexivity) : fits.
#[export] Hint Resolve modify_leaves : fits.
Ltac leaves := fits; try (apply locked_leaves; leaves).

Section Facts.
Context {A Oid C : Type} {AM : Automerge.Automerge A Oid} {CG : History.ChangeGraph A C} {FR : Fragmented A}.
Context {SedI : Sedimentree} {ShaI : Sha256} {BlI : Blake3} {VerI : TryVerify} {AuI : Authorities}.
Context (seed me name_key_seed model_entropy : bytes).
Abbreviation leaves := (fits (A := A) may_leave anywhere whatever).
Abbreviation history := (Engine.history A).
Implicit Types (h : history) (c : History.NewCommit).

(** ** Plaintext by design *)
Lemma push_plain tree cs : plaintext_tree tree → leaves (push_commits tree cs).
Proof. intros Ht. unfold push_commits. fits_step; [|leaves]. apply fits_ask. intros h _. split; [by left|done]. Qed.
Lemma push_us_leaves cs : leaves (push_us_commits cs).
Proof. unfold push_us_commits. destruct cs; [fits_step|]. apply push_plain. by left. Qed.
#[local] Hint Resolve push_us_leaves : fits.
Lemma publish_keyhive_leaves : leaves publish_keyhive.
Proof. unfold publish_keyhive. leaves. apply push_plain. right. by left. Qed.
Lemma require_vault_leaves : leaves require_vault.
Proof. unfold require_vault. leaves. Qed.
#[local] Hint Resolve publish_keyhive_leaves require_vault_leaves : fits.
Lemma publish_authority_leaves p : leaves (publish_shared_authority p).
Proof. unfold publish_shared_authority. leaves. apply push_plain. right. right. by exists p. Qed.
#[local] Hint Resolve publish_authority_leaves : fits.

(** ** Sealed, taken, confirmed *)
Lemma envelope_mono h h' k b : envelope_of h k b → envelope_of (h ++ h') k b.
Proof.
  intros (s & Hb & Hs). exists s. split; [done|]. destruct Hs as [(cr & ps & ch & Hin & Hk)|(d & cr & ps & ch & Hin & Hk)]; [left|right].
  - exists cr, ps, ch. split; [apply elem_of_app; by left|done].
  - exists d, cr, ps, ch. split; [apply elem_of_app; by left|done].
Qed.
Definition sealing h (r : result string (History.NewCommit * Frontier.Sealed)) : Prop :=
  match r with Ok (c, s) => envelope_of h (sealed_as c) (History.blob c) ∧ History.blob c = Frontier.sd_blob s | Err _ => True end.
Lemma seal_wp h c : wp may_leave (seal c) h (λ r h', sealing h' r).
Proof.
  unfold seal, require_vault. split; [done|]. intros e. cbn [mbind prog_bind prog_bind_ app]. apply wp_result; [done|]. intros _ _.
  split; [done|]. intros [s|why]; [|done]. cbn. split; [|done]. exists s. split; [done|]. left. do 3 eexists. split; [apply elem_of_app; right; left|].
  apply (sealed_private (with_blob c (Frontier.sd_blob s))).
Qed.
Lemma seal_shared_wp h d c : wp may_leave (seal_shared d c) h (λ r h', sealing h' r).
Proof.
  unfold seal_shared, require_vault. split; [done|]. intros e. cbn [mbind prog_bind prog_bind_ app]. apply wp_result; [done|]. intros _ _.
  split; [done|]. intros [s|why]; [|done]. cbn. split; [|done]. exists s. split; [done|]. right. do 4 eexists. split; [apply elem_of_app; right; left|].
  apply (sealed_shared (with_blob c (Frontier.sd_blob s))).
Qed.
Lemma seal_for_wp h s c : wp may_leave (seal_for s c) h (λ r h', sealing h' r).
Proof. destruct s; [apply seal_shared_wp|apply seal_wp]. Qed.
Lemma taken_commit h tree c t r s : Ev (AddCommits tree [c]) (Ok ()) ∈ h → History.blob c = Frontier.sd_blob s → Ev (TreeHeads tree) r ∈ t →
  taken (A := A) (h ++ t) (Frontier.sd_blob s).
Proof. intros Ha Hb Ht. exists h, t, tree. split; [done|]. split; [by exists r|]. left. by exists c. Qed.
(** Handing over one commit that was sealed, and confirming it. *)
Lemma hand_over h tree c s {X} (k : prog A (result string X)) : sealing h (Ok (c, s)) → leaves k →
  wp may_leave (_ ←! push_commits tree [c]; _ ←! require_vault; _ ← ask (Confirm s); k) h (λ _ _, True).
Proof.
  intros [He Hb] Hk. unfold push_commits, require_vault. split; [right; right; intros c' ->%list_elem_of_singleton; done|].
  intros [[]|why]; [|done]. cbn [mbind prog_bind prog_bind_ app]. split; [done|]. intros [[]|why]; [|done]. cbn [mbind prog_bind prog_bind_ app].
  split; [done|]. intros e. cbn [mbind prog_bind prog_bind_ app]. apply wp_result; [done|]. intros _ _. split.
  - rewrite <- app_assoc. eapply taken_commit; [apply elem_of_app; right; left|done|apply elem_of_app; left; left].
  - intros []. by apply leaves_wp.
Qed.
Lemma sealed_then {X} sh c (f : History.NewCommit * Frontier.Sealed → prog A (result string X)) h :
  (∀ p h', sealing h' (Ok p) → wp may_leave (f p) h' (λ _ _, True)) → wp may_leave (p ←! seal_for sh c; f p) h (λ _ _, True).
Proof. intros Hf. apply wp_try. eapply wp_mono; [apply seal_for_wp|]. intros [p|e] h' Hs; [by apply Hf|done]. Qed.
Lemma publish_commit_leaves app tree c : leaves (publish_commit app tree c).
Proof.
  intros h _. unfold publish_commit. apply wp_result; [done|]. intros sh _. apply sealed_then. intros [c' s] h' Hs. apply (hand_over h' tree c' s); [done|fits_step].
Qed.
#[local] Hint Resolve publish_commit_leaves : fits.
Lemma publish_anchor_leaves name sh tree c : leaves (publish_anchor name sh tree c).
Proof.
  intros h _. unfold publish_anchor. apply wp_bind. eapply wp_mono; [apply seal_for_wp|]. intros [[c' s]|e] h'; [|done]. intros [He Hb].
  split; [right; right; intros x ->%list_elem_of_singleton; done|]. intros [[]|why]; [|done]. cbn [mbind prog_bind prog_bind_ app]. split; [done|]. intros r.
  cbn [mbind prog_bind prog_bind_ app]. split; [eapply taken_commit; [apply elem_of_app; right; left|done|left]|]. intros []. cbn [mbind prog_bind prog_bind_ app].
  apply leaves_wp; [|done]. fits_step; [destruct sh; leaves|leaves].
Qed.
#[local] Hint Resolve publish_anchor_leaves : fits.

(** ** Fragments *)
Lemma prune_leaves tree : leaves (prune_tree tree).
Proof. apply modify_leaves. Qed.
#[local] Hint Resolve prune_leaves : fits.
Lemma install_leaves tree f b env : (env = false → tree = us_tree) → leaves (install_fragment tree f b env).
Proof.
  intros Henv. unfold install_fragment, add_fragment. destruct env.
  - intros h _. unfold require_vault. split; [done|]. intros e. cbn [mbind prog_bind prog_bind_ app]. apply wp_result; [done|]. intros _ _.
    split; [done|]. intros e'. cbn [mbind prog_bind prog_bind_ app]. split; [done|]. intros [s|why]; [|done]. cbn [mbind prog_bind prog_bind_ app].
    split; [right; exists s; split; [done|]; left; do 3 eexists; split; [apply elem_of_app; right; left|by do 2 eexists]|].
    intros [[]|why]; [|done]. cbn [mbind prog_bind prog_bind_ app]. split; [done|]. intros [[]|why]; [|done]. cbn [mbind prog_bind prog_bind_ app].
    split; [done|]. intros e2. cbn [mbind prog_bind prog_bind_ app]. apply wp_result; [done|]. intros _ _. split.
    + rewrite <- app_assoc. eexists _, _, tree. split; [done|]. split; [eexists; apply elem_of_app; left; left|]. right. eexists. split; [apply elem_of_app; right; left|done].
    + intros []. cbn [mbind prog_bind prog_bind_ app]. split; [done|]. intros []. cbn [mbind prog_bind prog_bind_ app].
      apply leaves_wp; [leaves|done].
  - rewrite Henv by done. fits_step; [fits_step; [|leaves]|leaves]. apply fits_ask. intros h _. split; [by left|done].
Qed.

(** ** Anchors of an adopted document, and opaque histories *)
Lemma adopt_anchor_leaves tree c : leaves (adopt_anchor tree c).
Proof. intros h _. unfold adopt_anchor. apply (sealed_then None). intros [c' s] h' Hs. apply (hand_over h' tree c' s); [done|fits_step]. Qed.
Lemma taken_mono h h' b : taken (A := A) h b → taken (h ++ h') b.
Proof.
  intros (t1 & t2 & tree & -> & (r & Hr) & Hb). exists t1, (t2 ++ h'), tree. split; [by rewrite app_assoc|]. split; [exists r; apply elem_of_app; by left|done].
Qed.
Lemma caller_mono h h' tree : caller_encrypts (A := A) h tree → caller_encrypts (h ++ h') tree.
Proof. intros (e & He & Hm). exists e. split; [apply elem_of_app; by left|done]. Qed.
Definition landing h (tree id : bytes) (ps : list bytes) (blob : bytes) (sealed : option Frontier.Sealed) : Prop :=
  match sealed with
  | None => caller_encrypts h tree
  | Some s => envelope_of h (sealed_as (History.mkCommit id ps blob)) blob ∧ blob = Frontier.sd_blob s
  end.
Lemma landing_mono h h' tree id ps blob sealed : landing h tree id ps blob sealed → landing (h ++ h') tree id ps blob sealed.
Proof. destruct sealed as [s|]; [|apply caller_mono]. intros [He Hb]. split; [by apply envelope_mono|done]. Qed.
Lemma current_wp {X} tree (k : OpaqueMode → prog A (result string X)) h :
  (∀ e m, mode (s_lifecycle (storage (cells e))) tree = Some m → wp may_leave (k m) (h ++ [Ev ReadEngine e]) (λ _ _, True)) →
  wp may_leave (m ←! require_current_opaque tree; k m) h (λ _ _, True).
Proof.
  intros Hk. unfold require_current_opaque. split; [done|]. intros e. cbn [mbind prog_bind prog_bind_]. apply wp_result; [done|]. intros m Hm.
  apply Hk. destruct (mode _ tree) as [m'|]; [|done]. by injection Hm as ->.
Qed.
Lemma land_leaves h tree id ps blob sealed : landing h tree id ps blob sealed → wp may_leave (opaque_land tree id ps blob sealed) h (λ _ _, True).
Proof.
  intros Hl. unfold opaque_land. apply current_wp. intros e m Hm. apply (landing_mono _ [Ev ReadEngine e]) in Hl.
  set (h1 := h ++ _) in *. clearbody h1. split.
  { destruct sealed as [s|]; [right; right; intros c ->%list_elem_of_singleton; apply Hl|right; by left]. }
  intros [[]|why]; [|done]. cbn [mbind prog_bind prog_bind_]. apply current_wp. intros e' m' Hm'. split; [done|]. intros [[]|why]; [|done]. cbn [mbind prog_bind prog_bind_].
  apply current_wp. intros e2 m2 Hm2. split; [done|]. intros e3. cbn [mbind prog_bind prog_bind_]. destruct (negb _); [done|]. destruct sealed as [s|]; [|done].
  destruct Hl as [He Hb]. set (h2 := _ ++ [Ev ReadEngine e3]). assert (taken h2 (Frontier.sd_blob s)) as Ht.
  { unfold h2. do 2 apply taken_mono. eapply taken_commit; [apply elem_of_app; left; apply elem_of_app; right; left|done|left]. }
  clearbody h2. apply wp_try. eapply wp_mono; [by apply publish_keyhive_leaves|]. intros [[]|why] h' _; [|done]. apply current_wp. intros e4 m4 Hm4.
  split; [by do 2 apply taken_mono|done].
Qed.
Lemma settle_leaves : leaves settle_persistence.
Proof. apply modify_leaves. Qed.
Lemma retire_leaves tree : leaves (retire_tree tree).
Proof. unfold retire_tree. leaves. Qed.
#[local] Hint Resolve retire_leaves settle_leaves : fits.
Lemma finish_leaves h tree id ps blob sealed : landing h tree id ps blob sealed → wp may_leave (opaque_finish tree id ps blob sealed) h (λ _ _, True).
Proof.
  intros Hl. unfold opaque_finish. apply wp_bind. eapply wp_mono; [by apply land_leaves|]. intros r h' _. apply leaves_wp; [|done].
  destruct r, sealed; unfold opaque_abandon; leaves.
Qed.
Lemma opaque_inner_leaves tree ps b : leaves (opaque_publish_inner tree ps b).
Proof.
  intros h _. unfold opaque_publish_inner. apply current_wp. intros e m Hm. split; [done|]. intros e'. cbn [mbind prog_bind prog_bind_].
  destruct (existsb _ _); [done|]. destruct m.
  - apply wp_try. unfold opaque_seal, require_vault. split; [done|]. intros e2. cbn [mbind prog_bind prog_bind_]. apply wp_result; [done|]. intros _ _.
    split; [done|]. intros [s|why]; [|done]. cbn [mbind prog_bind prog_bind_]. split; [done|]. intros e3. cbn [mbind prog_bind prog_bind_].
    destruct (ok_or retired _); [|done]. apply finish_leaves. split; [|done]. exists s. split; [done|]. left. do 3 eexists.
    split; [apply elem_of_app; left; apply elem_of_app; right; left|by apply (sealed_raw (History.mkCommit _ _ _))].
  - apply finish_leaves. exists e. split; [apply elem_of_app; left; apply elem_of_app; right; left|done].
Qed.

(** ** As a discipline *)
Definition handed (l : level) {X} (p : prog A X) : Prop := leaves p.
#[export] Program Instance leaves_discipline : Discipline A := {| obeys := @handed |}.
Next Obligation. intros l X x. red. fits_step. Qed.
Next Obligation. intros l X Y p f Hp Hf. red. fits_step; [exact Hp|apply Hf]. Qed.
Next Obligation. done. Qed.
Next Obligation. done. Qed.
Next Obligation. intros X p Hp. by apply locked_leaves. Qed.
Next Obligation. intros X k p _ Hp. by apply locked_leaves. Qed.
Next Obligation. intros c Hc. apply ask_unguarded. by destruct c. Qed.
#[export] Instance leaves_handover : Handover leaves_discipline.
Proof.
  split; [apply push_us_leaves|apply publish_keyhive_leaves|apply publish_authority_leaves|apply publish_commit_leaves|apply publish_anchor_leaves
    |apply install_leaves|apply adopt_anchor_leaves|apply opaque_inner_leaves].
Qed.
(** C6: whatever it is answered, an operation hands the driver a commit or a fragment
    only as the envelope the vault sealed under that very name, except in the group
    document, Keyhive's events, a document's authority and the opaque trees whose
    caller encrypts; and it confirms a sealed change only once the driver took it
    and was asked for the heads. *)
Theorem only_sealed_leaves (r : request) t x : runs (serve (Oid := Oid) (C := C) seed me name_key_seed model_entropy r) t x →
  ∀ t1 ev t2, t = t1 ++ ev :: t2 → may_leave t1 (asked ev).
Proof.
  intros Hr. assert (leaves (serve (Oid := Oid) (C := C) seed me name_key_seed model_entropy r)) as Hl by exact (serve_obeys seed me name_key_seed model_entropy r).
  exact (proj1 (wp_guards may_leave _ [] _ t x (Hl [] I) Hr)).
Qed.
End Facts.
