(* ===== verification/EngineFacts.v ===== *)
(** * What a mutation and an opaque history promise

    Read off the histories of [Publish] and [Requests]: a mutation that succeeds
    has published every change it authored, in order; an opaque publication
    confirms if and only if it succeeds, and otherwise forgets its seal and retires
    a tree that is no longer current. *)
From S2P Require Import Prelude BTree Crypto Text Links Opaque Policy Trees Storage Items Async Engine Publish Requests.
From S2P Require History Frontier Us Automerge Catalog.

(** ** Histories of loops and locks *)
Section Runs.
Context {A : Type}.
Abbreviation history := (Engine.history A).
Lemma runs_locked {X} l (p : prog A X) t x : runs (locked l p) t (Some x) ↔
  ∃ t', t = Ev (Lock l) () :: t' ++ [Ev (Unlock l) ()] ∧ runs p t' (Some x).
Proof.
  unfold locked. rewrite runs_bind. setoid_rewrite runs_bind. setoid_rewrite runs_bind. unfold ask. setoid_rewrite runs_call. setoid_rewrite runs_ret. split.
  - intros (t1 & t2 & [] & -> & -> & t3 & t4 & y & -> & Hp & t5 & t6 & [] & -> & -> & -> & ->). exists t3. done.
  - intros (t' & -> & Hp). exists [Ev (Lock l) ()], (t' ++ [Ev (Unlock l) ()]), (). split_and!; [done..|].
    exists t', [Ev (Unlock l) ()], x. split_and!; [done..|]. exists [Ev (Unlock l) ()], [], (). done.
Qed.
Lemma runs_each {T} (l : list T) (f : T → prog A (result string unit)) t : runs (each l f) t (Some (Ok ())) ↔
  ∃ ts, t = mjoin ts ∧ Forall2 (λ x t, runs (f x) t (Some (Ok ()))) l ts.
Proof.
  revert t. induction l as [|x l IH]; intros t; cbn [each].
  - rewrite runs_Done. split; [intros [-> _]; exists []; split; [done|constructor]|]. intros (ts & -> & ->%Forall2_nil_inv_l). done.
  - rewrite runs_try. setoid_rewrite IH. split.
    + intros (t1 & t2 & [] & -> & H1 & ts & -> & H2). exists (t1 :: ts). split; [done|by constructor].
    + intros (ts & -> & (t1 & ts' & H1 & H2 & ->)%Forall2_cons_inv_l). exists t1, (mjoin ts'), (). split_and!; [done..|]. by exists ts'.
Qed.
Lemma runs_Ok {E X Y} (r : result E X) (k : X → prog A (result E Y)) t y : runs (try (Done r) k) t (Some (Ok y)) ↔ ∃ x, r = Ok x ∧ runs (k x) t (Some (Ok y)).
Proof.
  rewrite runs_try. setoid_rewrite runs_Done. split.
  - intros (t1 & t2 & x & -> & [-> ->] & Hk). by exists x.
  - intros (x & -> & Hk). by exists [], t, x.
Qed.
End Runs.
(** The first call of a history, and its last one. *)
Ltac answered H y := destruct H as [[_ H]|(y & ? & -> & H)]; [discriminate H|]; cbn [mbind prog_bind prog_bind_] in H.
Ltac returned H := destruct H as [-> H]; try discriminate H.

Section Mutate.
Context {A Oid C : Type} {AM : Automerge.Automerge A Oid} {CG : History.ChangeGraph A C} {FR : Fragmented A}.
Context {SedI : Sedimentree} {ShaI : Sha256} {BlI : Blake3} {VerI : TryVerify} {AuI : Authorities}.
Context (seed me name_key_seed : bytes).
Abbreviation Document := (History.Document A).
Abbreviation history := (Engine.history A).

Lemma runs_require_vault t : runs (require_vault (A := A)) t (Some (Ok ())) → ∃ e, t = [Ev ReadEngine e].
Proof. unfold require_vault. intros H. answered H e. returned H. by exists e. Qed.
Lemma runs_push tree cs t : runs (push_commits (A := A) tree cs) t (Some (Ok ())) → t = [Ev (AddCommits tree cs) (Ok ()); Ev (TreeHeads tree) (Ok ())].
Proof.
  unfold push_commits. intros H. answered H r. destruct r as [[]|]; [|by returned H]. answered H r. returned H. by injection H as ->.
Qed.
(** One commit: sealed for its partition, taken by the driver, and confirmed. *)
Definition sealing_of (shared : option bytes) (c : History.NewCommit) (s : Frontier.Sealed) (ev : Async.event (ans (A := A))) : Prop :=
  match shared with
  | None => ev = Ev (Seal (History.head c) (parents_of c) (History.blob c)) (Ok s)
  | Some d => let tree := document_tree (shared_partition d) in
      ev = Ev (SealShared d (shared_cref tree (History.head c)) (shared_cref tree <$> parents_of c) (History.blob c)) (Ok s)
  end.
Definition published (shared : option bytes) (tree : bytes) (c : History.NewCommit) (t : history) : Prop :=
  ∃ s e sealing e', sealing_of shared c s sealing ∧
    t = [Ev ReadEngine e; sealing; Ev (AddCommits tree [with_blob c (Frontier.sd_blob s)]) (Ok ()); Ev (TreeHeads tree) (Ok ()); Ev ReadEngine e'; Ev (Confirm s) ()].
Lemma runs_seal_for shared c p t : runs (seal_for shared c) t (Some (Ok p)) →
  ∃ e sealing, t = [Ev ReadEngine e; sealing] ∧ sealing_of shared c p.2 sealing ∧ p.1 = with_blob c (Frontier.sd_blob p.2).
Proof.
  destruct shared; cbn [seal_for]; unfold seal, seal_shared; rewrite runs_try; intros (t1 & t2 & [] & -> & (e & ->)%runs_require_vault & Hk);
    answered Hk s; (destruct s as [s|]; [|by returned Hk]); returned Hk; injection Hk as ->; do 2 eexists; (split; [reflexivity|done]).
Qed.
Lemma runs_publish_commit p tree c t shared : shared_document p = Ok shared → runs (publish_commit p tree c) t (Some (Ok ())) → published shared tree c t.
Proof.
  intros Hsh. unfold publish_commit. rewrite Hsh. rewrite runs_Ok. intros (sh & [= <-] & Hk). rewrite runs_try in Hk.
  destruct Hk as (t1 & t2 & q & -> & (e & sl & -> & Hsl & Hq)%runs_seal_for & Hk). rewrite runs_try in Hk.
  destruct Hk as (t3 & t4 & [] & -> & ->%runs_push & Hk). rewrite runs_try in Hk. destruct Hk as (t5 & t6 & [] & -> & (e' & ->)%runs_require_vault & Hk).
  answered Hk u. destruct u. returned Hk. rewrite Hq. by exists q.2, e, sl, e'.
Qed.
Definition may_write (p : string) (t : history) : Prop :=
  ∀ d, shared_document p = Ok (Some d) → ∃ a, Ev (DocumentAccess d me) (Ok (Some a)) ∈ t ∧ may_edit a = true.
Lemma runs_writable p t : runs (writable (A := A) me p) t (Some (Ok ())) → may_write p t.
Proof.
  unfold writable, may_write. rewrite runs_Ok. intros (sh & Hsh & Hk) d Hd. rewrite Hd in Hsh. injection Hsh as <-.
  rewrite runs_try in Hk. destruct Hk as (t1 & t2 & [] & -> & _ & Hk). answered Hk acc. destruct acc as [[a|]|]; [|by returned Hk..].
  returned Hk. exists a. split; [apply elem_of_app; right; left|]. by destruct (may_edit a).
Qed.
(** C7: a mutation that succeeds ran on the document as it was when the boundary was
    taken, by a device that may write to it, and every commit the change left was
    sealed, taken by the driver and confirmed, one after the other and in order,
    before anything else is published; its answer is the change's. *)
Theorem mutate_publishes_all {X} p (change : Document → Document * result string X) t x :
  runs (mutate (Oid := Oid) (C := C) seed me name_key_seed p change) t (Some (Ok x)) →
  ∃ t1 e d shared ts t3, let '(d', answer) := change d in
    t = Ev (Lock (DocumentWrites p)) () :: t1 ++ Ev (Lock Boundary) () :: Ev ReadEngine e ::
        Ev (WriteEngine (on_documents (<[p := (History.drain_local_commits d').2]>) e)) () :: mjoin ts ++ t3 ∧
    documents (cells e) !! p = Some d ∧ answer = Ok x ∧ shared_document p = Ok shared ∧ may_write p t1 ∧
    Forall2 (published shared (History.tree d')) (History.pending d') ts ∧
    (History.pending d' ≠ [] → ∃ e', Ev (WriteEngine e') () ∈ t3).
Proof.
  unfold mutate. rewrite runs_locked. intros (u & -> & Hu). rewrite runs_try in Hu. destruct Hu as (u1 & u2 & [] & -> & Hopen & Hu).
  rewrite runs_try in Hu. destruct Hu as (u3 & u4 & [] & -> & Hw & Hu). rewrite runs_locked in Hu. destruct Hu as (v & -> & Hv).
  assert (∃ shared, shared_document p = Ok shared) as [shared Hsh].
  { unfold writable in Hw. rewrite runs_Ok in Hw. destruct Hw as (sh & ? & _). by exists sh. }
  rewrite runs_try in Hv. destruct Hv as (v1 & v2 & [[answer tree] commits] & -> & Hd & Hv).
  unfold with_document in Hd. answered Hd e. destruct (documents (cells e) !! p) as [d|] eqn:Hdoc; [|by destruct Hd as [_ [= ?]]].
  exists (u1 ++ u3), e, d, shared. destruct (change d) as [d' answer'] eqn:Hch. cbn [History.drain_local_commits] in Hd. answered Hd u. destruct u. returned Hd. injection Hd as -> -> ->.
  assert (∀ ts w, ∃ t3, Ev (Lock (DocumentWrites p)) () :: (u1 ++ u3 ++ Ev (Lock Boundary) () :: ([Ev ReadEngine e;
      Ev (WriteEngine (on_documents (<[p:=History.mkDocument (History.doc d') (History.tree d') (History.applied d') []]>) e)) ()] ++ mjoin ts ++ w) ++ [Ev (Unlock Boundary) ()]) ++ [Ev (Unlock (DocumentWrites p)) ()] =
    Ev (Lock (DocumentWrites p)) () :: (u1 ++ u3) ++ Ev (Lock Boundary) () :: Ev ReadEngine e ::
      Ev (WriteEngine (on_documents (<[p := (History.drain_local_commits d').2]>) e)) () :: mjoin ts ++ t3 ∧ ∀ ev, ev ∈ w → ev ∈ t3) as Hshape.
  { intros ts w. exists (w ++ [Ev (Unlock Boundary) (); Ev (Unlock (DocumentWrites p)) ()]). split; [|intros ev ?; apply elem_of_app; by left].
    rewrite <- !app_assoc. cbn [List.app]. by rewrite <- !app_assoc. }
  assert (may_write p (u1 ++ u3)) as Hmay.
  { intros dd Hdd. destruct (runs_writable p _ Hw dd Hdd) as (a & Ha & He). exists a. split; [apply elem_of_app; by right|done]. }
  destruct (History.pending d') as [|c cs] eqn:Hp.
  - rewrite runs_Done in Hv. destruct Hv as [-> ->]. destruct (Hshape [] []) as (t3 & H1 & H2). exists [], t3. split_and!; [exact H1|done..|constructor|done].
  - rewrite runs_try in Hv. destruct Hv as (w1 & w2 & [] & -> & Heach & Hv). rewrite runs_each in Heach. destruct Heach as (ts & -> & Hts).
    destruct (Hshape ts w2) as (t3 & H1 & H2). exists ts, t3. split_and!; [exact H1|done| |done|done| |].
    + rewrite runs_Ok in Hv. destruct Hv as (sh & _ & Hv). rewrite runs_try in Hv. destruct Hv as (? & ? & ? & _ & _ & Hv).
      rewrite runs_bind in Hv. destruct Hv as (? & ? & ? & _ & _ & Hv). rewrite runs_bind in Hv. destruct Hv as (? & ? & ? & _ & _ & [_ ->]%runs_Done). done.
    + eapply Forall2_impl; [exact Hts|]. intros c' t0 Ht0. by eapply runs_publish_commit.
    + intros _. rewrite runs_Ok in Hv. destruct Hv as (sh & _ & Hv). rewrite runs_try in Hv. destruct Hv as (? & ? & ? & -> & _ & Hv).
      rewrite runs_bind in Hv. destruct Hv as (? & ? & ? & -> & _ & Hv). rewrite runs_bind in Hv. destruct Hv as (? & ? & ? & -> & Hs & _).
      unfold settle_persistence, modify in Hs. answered Hs e0. answered Hs u. destruct u. returned Hs.
      eexists. apply H2. apply elem_of_app; right. apply elem_of_app; right. apply elem_of_app; left. right. left.
Qed.
End Mutate.

(** ** An opaque history *)
Section Opaque.
Context {A : Type} {SedI : Sedimentree} {ShaI : Sha256} {BlI : Blake3}.
Abbreviation history := (Engine.history A).
Implicit Types (t u w h : history) (e : Engine A).



(** The seal of an item of the tree, as the vault answers it. *)
Definition sealing tree id ps b (r : result string Frontier.Sealed) : Async.event (ans (A := A)) := Ev (Seal (raw_cref tree id) (sorted_crefs tree ps) b) r.
End Opaque.
