(* ===== verification/EngineRuns.v ===== *)
(** * Runs of the engine's operations

    One device of [EngineToy]: it opens its group, writes a task, keeps an opaque
    history, and its driver stops for a while. *)
From S2P Require Import Prelude BTree Crypto Text Links Opaque Policy Trees Storage Items Async Engine Publish Requests EngineToy Discipline Locks Sealed EngineFacts.
From S2P Require History Frontier Us Automerge Catalog.

Module Concrete.
Import Toy Crypto.Toy.
Abbreviation serve := (serve (Oid := nat) (C := nat * nat) me me [] []).
Definition write (v : string) : History.Document adoc → result string (History.Document adoc) :=
  History.transact (C := nat * nat) (λ a, Automerge.put a (Automerge.ROOT (A := adoc)) "title" (Automerge.Str v)).
Definition writing (v : string) : prog adoc (result string unit) := mutate (Oid := nat) (C := nat * nat) me me [] "todo" (edit (write v)).
Definition opening : prog adoc (result string unit) := open_us (Oid := nat) (C := nat * nat) me me [].
Definition ready : world := after fresh opening.

(** ** A mutation *)
Definition wrote : history adoc := (run_with handle fresh (writing "milk")).1.
Lemma wrote_runs : runs (writing "milk") wrote (Some (Ok ())).
Proof.
  assert ((run_with handle fresh (writing "milk")).2 = Some (Ok ())) as He by (vm_compute; reflexivity). rewrite <- He. exact (run_with_runs handle fresh _).
Qed.
Lemma mutate_publishes_all_witness : ∃ t1 e d ts t3, let d' := (edit (write "milk") d).1 in
  wrote = Ev (Lock (DocumentWrites "todo")) () :: t1 ++ Ev (Lock Boundary) () :: Ev ReadEngine e ::
        Ev (WriteEngine (on_documents (<["todo" := (History.drain_local_commits d').2]>) e)) () :: mjoin ts ++ t3 ∧
  Forall2 (published None (History.tree d')) (History.pending d') ts.
Proof.
  destruct (mutate_publishes_all me me [] "todo" (edit (write "milk")) wrote () wrote_runs) as (t1 & e & d & shared & ts & t3 & H).
  exists t1, e, d, ts, t3. destruct (edit (write "milk") d) as [d' answer] eqn:E. destruct H as (Ht & _ & _ & Hsh & _ & Hts & _). injection Hsh as <-.
  split; [exact Ht|exact Hts].
Defined.
(** What it handed over is the envelope of the change it left, and nothing else. *)
Lemma only_sealed_leaves_witness : ∃ t1 c t2, runs (serve (DocumentMutate "todo" (edit (write "milk")))) (t1 ++ Ev (AddCommits (document_tree "todo") [c]) (Ok ()) :: t2) (Some ()) ∧
  may_leave t1 (AddCommits (document_tree "todo") [c]).
Proof.
  set (x := run_with handle fresh (serve (DocumentMutate "todo" (edit (write "milk"))))).
  assert (x.2 = Some ()) as He by (vm_compute; reflexivity).
  assert (runs (serve (DocumentMutate "todo" (edit (write "milk")))) x.1 x.2) as Hr by exact (run_with_runs handle fresh _). rewrite He in Hr.
  assert (∃ n c, x.1 !! n = Some (Ev (AddCommits (document_tree "todo") [c]) (Ok ()))) as (n & c & Hn) by (exists 43%nat; vm_compute; eexists; reflexivity).
  exists (take n x.1), c, (drop (S n) x.1). rewrite take_drop_middle by exact Hn. split; [exact Hr|].
  apply (only_sealed_leaves me me [] [] (DocumentMutate "todo" (edit (write "milk"))) x.1 _ Hr (take n x.1) (Ev (AddCommits (document_tree "todo") [c]) (Ok ())) (drop (S n) x.1)).
  by rewrite take_drop_middle.
Defined.


(** ** Two operations at once *)
Definition barrier (t : history adoc) (c : call adoc) : task (A := adoc) := mkTask ControlBarrier t c.
Definition crowd : list (task (A := adoc)) := [barrier [] (Lock ControlWrite); barrier [Ev (Lock ControlWrite) ()] (TreeHeads us_tree)].
Lemma crowd_under_way : Forall (under_way (Oid := nat) (C := nat * nat) me me [] []) crowd.
Proof.
  repeat constructor; intros y.
  - exists None. right. exists y, []. split; [by destruct y|by left].
  - exists None. right. exists (), [Ev (TreeHeads us_tree) y]. split; [done|]. right. exists y, []. split; [done|by left].
Qed.
Lemma some_task_goes_on_witness : ∃ k, k ∈ crowd ∧ ∀ l, next k = Lock l → ∀ j, j ∈ crowd → l ∉ held (done_so_far j).
Proof.
  apply (some_task_goes_on me me [] [] crowd); [discriminate|exact crowd_under_way].
Defined.

(** ** What a failure loses *)
(** The driver refuses the commit of a first change; a second change is published
    on top of it.  The first is in the document, drained from what is to be
    published, and the commit that was published names it as its parent though no
    tree holds it. *)
Definition stopped : world := after (refuse true ready) (writing "milk").
Definition resumed : world := after (refuse false stopped) (writing "eggs").
Theorem failed_publication_strands :
  (run_with handle (refuse true ready) (writing "milk")).2 = Some (Err "stopped") ∧
  (run_with handle (refuse false stopped) (writing "eggs")).2 = Some (Ok ()) ∧
  match documents (cells (engine resumed)) !! "todo", (metadata (storage (cells (engine resumed))) (document_tree "todo")).1 with
  | Some d, [c] => match lc_parents c with
      | [p] => bool_decide (p ∈ History.applied d) = true ∧ holds (storage (cells (engine resumed))) (document_tree "todo") p = false ∧ History.pending d = []
      | _ => False
      end
  | _, _ => False
  end.
Proof. vm_compute. done. Qed.
(** A vault that could not be restored is created anew by the next operation. *)
Theorem failed_restore_founds_anew s (e e' e'' : Engine adoc) : vault e = false → pending_vault e = Some s →
  runs (C := call adoc) open_vault [Ev ReadEngine e; Ev (WriteEngine (set_vault false None e)) (); Ev (VaultRestore s) (Err "keyhive archive"%string)] (Some (Err "keyhive archive"%string)) ∧
  (e' = set_vault false None e →
   runs (C := call adoc) open_vault [Ev ReadEngine e'; Ev (WriteEngine (set_vault false None e')) (); Ev VaultCreate (Ok ()); Ev ReadEngine e''; Ev (WriteEngine (set_vault true (pending_vault e'') e'')) ()] (Some (Ok ()))).
Proof.
  intros Hv Hp. split.
  - right. exists e, [Ev (WriteEngine (set_vault false None e)) (); Ev (VaultRestore s) (Err "keyhive archive"%string)]. split; [done|].
    cbn [mbind prog_bind prog_bind_]. rewrite Hv, Hp. right. do 2 eexists. split; [reflexivity|]. right. do 2 eexists. split; [reflexivity|]. split; reflexivity.
  - intros ->. right. do 2 eexists. split; [reflexivity|]. cbn. right. do 2 eexists. split; [reflexivity|]. right. do 2 eexists. split; [reflexivity|].
    right. do 2 eexists. split; [reflexivity|]. right. do 2 eexists. split; [reflexivity|]. split; reflexivity.
Qed.
End Concrete.
