(* ===== verification/VisorUi.v ===== *)
(** * The visor's plain state ([visor/src/state.rs], [draft.rs], [glyph.rs],
      [contacts.rs], [voice.rs])

    The parts of the trusted pixels that are decisions and not drawing: the
    drawer, the gate on reads, the form drafts, the glyph roll, and the small
    rules of the contacts screens.  Text walked by [chars] is a list of Unicode
    scalar values. *)
From S2P Require Import Prelude BTree Text Codes Registers.

(** ** [state.rs] *)
Inductive Tenant := Apps | AppInfo | Settings | Contacts | Sharing | Unseal | Devices.
#[export] Instance Tenant_eq_dec : EqDecision Tenant.
Proof. solve_decision. Defined.
Inductive DeviceState := Fresh | Sealed | Open_.
Inductive Tier := Ephemeral | Durable.
#[export] Instance Tier_eq_dec : EqDecision Tier.
Proof. solve_decision. Defined.
Inductive Rest := RestsOpen | Passphrase.
Inductive Drawer := Closed | Open (t : Tenant).
#[export] Instance Drawer_eq_dec : EqDecision Drawer.
Proof. solve_decision. Defined.
Inductive Action := Show (t : Tenant) | Close.

Definition boot_drawer (state : DeviceState) (tier : Tier) (petname : string) (others_kept : bool) : Drawer :=
  match state with
  | Sealed => Open Unseal
  | Fresh =>
    if bool_decide (tier = Ephemeral) && bool_decide (petname = EmptyString) && others_kept then Open Devices else Closed
  | Open_ => Closed
  end.
Definition reduce (self : Drawer) (action : Action) (pinned : bool) : Drawer :=
  let rest := if pinned then Open Apps else Closed in
  match action with
  | Show t => if bool_decide (self = Open t) then self else Open t
  | Close => rest
  end.
Definition tenant (self : Drawer) : option Tenant := match self with Closed => None | Open t => Some t end.

(** A [u64] counter. *)
Record Gate := mkGate { writes : Z }.
Record Token := mkToken { generation : Z }.
Definition Gate_default : Gate := mkGate 0.
Definition begin (self : Gate) : Token := mkToken (writes self).
Definition bump (self : Gate) : Gate := mkGate (wrap 64 (writes self + 1)).
Definition gate_apply (self : Gate) (token : Token) : bool := generation token =? writes self.

Inductive Phase := Idle | Offering (code : string) | Claiming | AwaitingConfirm (digits : string) | AwaitingPeer | PhaseDone | Failed (why : string).

(** [grouped]: a space before every fourth character but the first. *)
Fixpoint group_from (i : nat) (code : chars) : chars :=
  match code with
  | [] => []
  | c :: code => (if (0 <? i)%nat && (i mod 4 =? 0)%nat then [0x20; c] else [c]) ++ group_from (S i) code
  end.
Definition grouped (code : chars) : chars := group_from 0 code.
Definition claim_code (typed : chars) : option chars :=
  let code := filter (λ c, is_whitespace c = false) typed in
  if bool_decide (code = []) then None else Some code.

(** ** [draft.rs] *)
Inductive RollTarget := RDevice | RUser | RApp (id : string) | RContact (id : string) | RPicker.
#[export] Instance RollTarget_eq_dec : EqDecision RollTarget.
Proof. solve_decision. Defined.
#[export] Instance RollTarget_countable : Countable RollTarget.
Proof.
  refine (inj_countable' (λ t, match t with RDevice => inl 0%nat | RUser => inl 1%nat | RPicker => inl 2%nat
                               | RApp s => inr (true, s) | RContact s => inr (false, s) end)
    (λ t, match t with inl 0%nat => RDevice | inl 1%nat => RUser | inl _ => RPicker
          | inr (true, s) => RApp s | inr (false, s) => RContact s end) _).
  by intros [].
Defined.
Abbreviation RollState := (gmap RollTarget (gset string)).
Definition invalidate (self : RollState) (target : RollTarget) : RollState := delete target self.
Definition is_active (self : RollState) (target : RollTarget) (current : string) : bool :=
  match self !! target with Some values => bool_decide (current ∈ values) | None => false end.
Definition activate (self : RollState) (target : RollTarget) (value : string) : RollState :=
  <[target := {[value]} ∪ default ∅ (self !! target)]> self.

Abbreviation fields := (gmap string string).
Definition rebase_key (baseline current : fields) (latest : fields) (key : string) : fields :=
  if bool_decide (baseline !! key = current !! key) then latest else
  match current !! key with
  | Some value => <[key := value]> latest
  | None => delete key latest
  end.
Definition rebase_map (latest baseline current : fields) : fields :=
  foldl (rebase_key baseline current) latest (btree_elems (dom baseline ∪ dom current)).

(** ** [glyph.rs] *)
Definition ANIMAL_FIRST : Z := 0x1f400.
Definition ANIMAL_COUNT : Z := 64.
Definition roll_animal (random : Z) (previous : chars) : chars :=
  let previous := match previous with
                  | [c] => if (ANIMAL_FIRST <=? c) && (c <? ANIMAL_FIRST + ANIMAL_COUNT) then Some c else None
                  | _ => None
                  end in
  let offset := match previous with
                | Some code =>
                  let previous_offset := code - ANIMAL_FIRST in
                  let candidate := random mod (ANIMAL_COUNT - 1) in
                  candidate + (if previous_offset <=? candidate then 1 else 0)
                | None => random mod ANIMAL_COUNT
                end in
  [ANIMAL_FIRST + offset].
(** [unicode_segmentation]'s extended graphemes are a parameter. *)
Fixpoint trim_start (value : chars) : chars :=
  match value with c :: v => if is_whitespace c then trim_start v else value | [] => [] end.
Definition normalize_glyph (graphemes : chars → list chars) (value : chars) : chars :=
  default [] (hd_error (graphemes (trim_start value))).

(** ** [contacts.rs] and [voice.rs] *)
Record ClaimChoice := mkChoice { c_name : string; c_value : string; c_selected : bool }.
Definition ClaimChoice_new (name value : string) : ClaimChoice := mkChoice name value (bool_decide (name = "name"%string)).
Definition selected (claims : list ClaimChoice) : list (string * string) :=
  (λ c, (c_name c, c_value c)) <$> filter (λ c, c_selected c = true) claims.
Inductive FragmentRoute := Meet (body : string) | ContactFragment (body : string) | Other.
Definition classify_fragment (fragment : string) : FragmentRoute :=
  match str_strip "meet/" fragment with
  | Some body => Meet body
  | None => match str_strip "contact/" fragment with Some body => ContactFragment body | None => Other end
  end.
Definition key_short (key : bytes) : string := if bool_decide (key = []) then "no key" else hex (take 6 key).
Definition accept_signed (captured current : Z) : bool := captured =? current.
Definition status_response_is_current (captured current : Z) : bool := captured =? current.
Definition submission_is_current (request current : Z) : bool := request =? current.
Definition draft_is_clean (draft baseline : string) : bool := bool_decide (draft = baseline).
Definition should_rebase (draft : string) (baseline : option string) : bool :=
  match baseline with None => true | Some accepted => draft_is_clean draft accepted end.
(** [Iterator::max_by_key]: the last of the greatest. *)
Definition latest_of (l : list (string * Z)) : option (string * Z) :=
  foldl (λ m x, match m with Some y => if y.2 <=? x.2 then Some x else Some y | None => Some x end) None l.
Definition default_name (preferred : option string) (local_names : list (string * Z)) : string :=
  match preferred with Some p => p | None => default EmptyString (fst <$> latest_of local_names) end.
Definition name_claim (value : string) : option (string * string) :=
  if bool_decide (value = EmptyString) then None else Some ("name"%string, value).
Definition coarse_age (now_ms then_ms : Z) : string :=
  let secs := saturating_sub now_ms then_ms / 1000 in
  let mins := secs / 60 in
  let hours := mins / 60 in
  let days := hours / 24 in
  if mins =? 0 then "just now"
  else if hours =? 0 then pretty mins +:+ " min"
  else if days =? 0 then pretty hours +:+ " h"
  else pretty days +:+ " d".
Definition received_label (now_ms then_ms : Z) : string :=
  let age := coarse_age now_ms then_ms in if bool_decide (age = "just now"%string) then age else age +:+ " ago".
Definition issuer_display (key : bytes) (contacts : list (bytes * string)) : option string :=
  snd <$> hd_error (filter (λ c, c.1 ≠ [] ∧ c.1 = key) contacts).

(** ** Theorems *)
Lemma rebase_key_lookup baseline current latest j k : rebase_key baseline current latest j !! k =
  if decide (j = k ∧ baseline !! k ≠ current !! k) then current !! k else latest !! k.
Proof.
  unfold rebase_key. destruct (decide (baseline !! j = current !! j)) as [E|E].
  - rewrite bool_decide_eq_true_2 by done. rewrite decide_False by (by intros [-> ?]). done.
  - rewrite bool_decide_eq_false_2 by done. destruct (decide (j = k)) as [->|Hne].
    + rewrite decide_True by done. destruct (current !! k); [by rewrite lookup_insert_eq|by rewrite lookup_delete_eq].
    + rewrite decide_False by (by intros [? _]). destruct (current !! j); [by rewrite lookup_insert_ne|by rewrite lookup_delete_ne].
Qed.
Lemma rebase_fold baseline current l latest k : foldl (rebase_key baseline current) latest l !! k =
  if decide (k ∈ l ∧ baseline !! k ≠ current !! k) then current !! k else latest !! k.
Proof.
  revert latest. induction l as [|j l IH]; intros latest.
  { rewrite decide_False by (by intros [?%elem_of_nil _]). done. }
  cbn [foldl]. rewrite IH, rebase_key_lookup. clear IH.
  destruct (decide (baseline !! k = current !! k)) as [E|E].
  - rewrite !decide_False by (by intros [_ ?]). done.
  - destruct (decide (k ∈ l)) as [Hl|Hl].
    + rewrite !(decide_True (P := _ ∧ _)) by (split; [set_solver|done]). done.
    + rewrite (decide_False (P := k ∈ l ∧ _)) by (by intros [? _]). destruct (decide (j = k)) as [->|Hne].
      * rewrite !(decide_True (P := _ ∧ _)) by (split; [set_solver|done]). done.
      * rewrite !(decide_False (P := _ ∧ _)) by (intros [? _]; set_solver). done.
Qed.

(** A form that is rebased keeps exactly the user's own edits: a field the user
    left as it was loaded shows the newest value, and a field the user changed,
    added or cleared shows what the user made of it. *)
Theorem rebase_is_three_way latest baseline current k :
  rebase_map latest baseline current !! k =
  if decide (baseline !! k = current !! k) then latest !! k else current !! k.
Proof.
  unfold rebase_map. rewrite rebase_fold. destruct (decide (baseline !! k = current !! k)) as [E|E].
  - by rewrite decide_False by (by intros [_ ?]).
  - rewrite decide_True; [done|]. split; [|done]. apply elem_of_btree_elems, elem_of_union. rewrite !elem_of_dom.
    destruct (baseline !! k), (current !! k); eauto. done.
Qed.

(** Rolling always lands on one of the 64 animals, never on the one shown, and
    can land on every other one. *)
Theorem roll_animal_changes random previous : 0 <= random →
  ∃ c, roll_animal random previous = [c] ∧ ANIMAL_FIRST <= c < ANIMAL_FIRST + ANIMAL_COUNT ∧ previous ≠ [c] ∧
  ∀ t, ANIMAL_FIRST <= t < ANIMAL_FIRST + ANIMAL_COUNT → previous ≠ [t] → ∃ r, 0 <= r < ANIMAL_COUNT ∧ roll_animal r previous = [t].
Proof.
  intros Hr. unfold roll_animal. set (p := match previous with [c] => _ | _ => None end).
  assert (match p with Some q => previous = [q] ∧ ANIMAL_FIRST <= q < ANIMAL_FIRST + ANIMAL_COUNT
          | None => ∀ t, ANIMAL_FIRST <= t < ANIMAL_FIRST + ANIMAL_COUNT → previous ≠ [t] end) as Hp.
  { unfold p. destruct previous as [|q [|]]; [done| |done].
    destruct (Z.leb_spec ANIMAL_FIRST q), (Z.ltb_spec q (ANIMAL_FIRST + ANIMAL_COUNT)); cbn [andb]; [done|..]; intros t Ht [= ->]; lia. }
  unfold ANIMAL_FIRST, ANIMAL_COUNT in *. eexists. split; [done|]. destruct p as [q|].
  - destruct Hp as [-> Hq]. pose proof (Z.mod_pos_bound random 63 ltac:(lia)).
    change (64 - 1) with 63. destruct (Z.leb_spec (q - 128000) (random mod 63)); (split_and!; [lia|lia|intros [= E]; lia|]);
    (intros t Ht Hne; destruct (Z.ltb_spec t q);
     [exists (t - 128000); split; [lia|]; rewrite Z.mod_small by lia; rewrite (proj2 (Z.leb_gt _ _)) by lia; f_equal; lia
     |assert (t ≠ q) by (intros ->; done); exists (t - 128000 - 1); split; [lia|]; rewrite Z.mod_small by lia;
      rewrite (proj2 (Z.leb_le _ _)) by lia; f_equal; lia]).
  - pose proof (Z.mod_pos_bound random 64 ltac:(lia)). split_and!; [lia|lia|apply Hp; lia|].
    intros t Ht _. exists (t - 128000). split; [lia|]. rewrite Z.mod_small by lia. f_equal. lia.
Qed.
Lemma roll_animal_changes_witness : ∃ c, roll_animal 7 [0x1f407] = [c] ∧ [0x1f407] ≠ [c].
Proof.
  destruct (roll_animal_changes 7 [0x1f407] ltac:(lia)) as (c & Hc & _ & Hne & _). by exists c.
Defined.

(** A pairing code typed as it is shown, or in any other grouping, is claimed as
    the code; a box with nothing but white space claims nothing. *)
Theorem grouped_code_claims code : (∀ c, c ∈ code → is_whitespace c = false) → code ≠ [] →
  claim_code (grouped code) = Some code ∧
  ∀ typed, filter (λ c, is_whitespace c = false) typed = code → claim_code typed = Some code.
Proof.
  intros Hw Hne. assert (∀ typed, filter (λ c, is_whitespace c = false) typed = code → claim_code typed = Some code) as Hall.
  { intros typed E. unfold claim_code. rewrite E. by rewrite bool_decide_eq_false_2. }
  split; [|exact Hall]. apply Hall. unfold grouped. clear Hne Hall. generalize 0%nat.
  induction code as [|c code IH]; intros i; [done|]. cbn [group_from]. rewrite filter_app, IH by set_solver.
  assert (filter (λ c, is_whitespace c = false) [c] = [c]) as Hc by (rewrite filter_cons_True by (apply Hw; set_solver); by rewrite filter_nil).
  destruct (_ && _); [|by rewrite Hc]. change [0x20; c] with ([0x20] ++ [c]). rewrite filter_app, Hc. done.
Qed.
Lemma grouped_code_claims_witness : grouped [65; 66; 67; 68; 69] = [65; 66; 67; 68; 32; 69] ∧
  claim_code (grouped [65; 66; 67; 68; 69]) = Some [65; 66; 67; 68; 69].
Proof.
  split; [reflexivity|]. refine (proj1 (grouped_code_claims [65; 66; 67; 68; 69] _ _)); [|discriminate].
  intros c Hc. repeat (apply elem_of_cons in Hc as [->|Hc]; [reflexivity|]). by apply elem_of_nil in Hc.
Defined.

(** The drawer shows what was asked for, never leaves the user looking at
    nothing while no app runs, and gets out of the way of one that does. *)
Theorem drawer_rests self action pinned :
  match action with Show t => tenant (reduce self action pinned) = Some t
  | Close => reduce self action pinned = if pinned then Open Apps else Closed end ∧
  (pinned = true → reduce self action pinned ≠ Closed).
Proof.
  destruct action as [t|]; cbn; [|by destruct pinned]. case_bool_decide as E; [by subst|done].
Qed.

Fixpoint bumps (n : nat) (g : Gate) : Gate := match n with O => g | S n => bumps n (bump g) end.
Lemma writes_bumps n g : 0 <= writes g < 2 ^ 64 → writes (bumps n g) = (writes g + Z.of_nat n) mod 2 ^ 64.
Proof.
  revert g. induction n as [|n IH]; intros g Hg; cbn [bumps]; [rewrite Z.mod_small; lia|].
  rewrite IH by (cbn [writes bump]; unfold wrap; apply Z.mod_pos_bound; lia). cbn [writes bump]. unfold wrap.
  rewrite Zplus_mod_idemp_l. f_equal. lia.
Qed.
(** A read applies its answer when no write came after it began, and never when
    one did (short of 2^64 of them). *)
Theorem gate_drops_stale n g : 0 <= writes g < 2 ^ 64 → Z.of_nat n < 2 ^ 64 →
  gate_apply (bumps n g) (begin g) = (n =? 0)%nat.
Proof.
  intros Hg Hn. unfold gate_apply, begin. rewrite (writes_bumps n g Hg). cbn [generation].
  destruct n as [|n]; [rewrite Z.mod_small by lia; cbn; apply Z.eqb_eq; lia|]. cbn [Nat.eqb]. apply Z.eqb_neq.
  destruct (Z.lt_ge_cases (writes g + Z.of_nat (S n)) (2 ^ 64)) as [Hs|Hs].
  - rewrite Z.mod_small by lia. lia.
  - rewrite <- (Z.mod_unique _ (2 ^ 64) 1 (writes g + Z.of_nat (S n) - 2 ^ 64)) by lia. lia.
Qed.
Lemma gate_drops_stale_witness : gate_apply (bumps 1 Gate_default) (begin Gate_default) = false.
Proof. exact (gate_drops_stale 1 Gate_default ltac:(cbn; lia) ltac:(lia)). Defined.
