(* ===== verification/Backups.v ===== *)
(** * The root backup operations ([runtime/crates/kernel/src/lib.rs])

    A backup envelope ([RootBackup]) written to a file or kept in the current tree
    of one caller-encrypted opaque slot, and what brings a root seed back from
    either.  Each operation is the calls it makes: those of [Identity], the random
    source, the derivation worker, and the opaque histories of the engine.

    Over every history the seed of the device changes only to what the envelope
    opened to for the identity read before and after the derivation, and back only
    to what was there; and what is put into the synced slot is a fresh envelope of
    the seed held, for the identity that is still the device's. *)
From S2P Require Import Prelude Crypto Error Opaque Device Persist ContactsWire Contacts RootBackup Async Identity Custody.

Definition ROOT_BACKUP_SLOT : string := "polyvisor:root-backup:v0".
Record RootBackupStatus := mkBackupStatus { bs_has_root : bool; bs_synced : bool }.

Section Backups.
Context {AeadI : Aead} {EdI : Ed25519} {SigI : Signatures}.
Context {MsgS : Message Proto.Signed} {MsgB : Message Proto.RootBinding} {MsgP : Message Proto.Profile}.
Context {VaultState DriveSealed : Type}.

Inductive call :=
| Base (c : Identity.call)
| Fill (n : nat)
| Derive (passphrase : string) (salt : bytes)
| OpaqueCurrent (slot : string)
| OpaqueReplace (slot : string) (m : OpaqueMode)
| OpaqueDisable (slot : string)
| OpaqueOpen (tree : bytes)
| OpaquePublish (tree : bytes) (parents : list bytes) (b : bytes)
| OpaqueRead (tree : bytes).
Definition ans (c : call) : Type :=
  match c with
  | Base c => Identity.ans (VaultState := VaultState) (DriveSealed := DriveSealed) c
  | Fill _ => bytes
  | Derive _ _ => result () bytes
  | OpaqueCurrent _ => result string (option bytes)
  | OpaqueReplace _ _ | OpaquePublish _ _ _ => result string bytes
  | OpaqueDisable _ | OpaqueOpen _ => result string unit
  | OpaqueRead _ => result string (list OpaqueItem)
  end.
Abbreviation prog := (Async.prog ans).
Abbreviation history := (list (Async.event ans)).
Abbreviation upper := (Identity.ans (VaultState := VaultState) (DriveSealed := DriveSealed)).

(** The operations of [Identity], as they are. *)
Definition base_call (c : Identity.call) : prog (upper c) := Async.call (ans := ans) (Base c).
Definition place (e : Async.event upper) : Async.event ans := match e with Ev c y => Ev (ans := ans) (Base c) y end.
Definition base {X} (p : Async.prog upper X) : prog X := interp base_call p.
Definition identity_open : prog (result Error unit) := base Identity.identity_open.
Definition identity_context : prog IdentityContext := base Identity.identity_context.
Definition identity_context_is (c : IdentityContext) : prog bool := base (Identity.identity_context_is c).
Definition identity_status : prog (result Error IdentityStatus) := base Identity.identity_status.
Definition root_seed : prog (option bytes) := base Identity.root_seed.
Definition replace_root_seed (seed : option bytes) : prog (result Error unit) := base (Identity.replace_root_seed seed).
Definition checkpoint_durable : prog (result Error unit) := base_call CheckpointDurable.
Definition engine_call {X} (p : prog (result string X)) : prog (result Error X) := r ← p; Done (map_err engine_failed r).
Definition opaque (c : call) : prog (ans c) := Async.call (ans := ans) c.

Definition same_identity (a b : IdentityStatus) : bool :=
  bool_decide (st_root a = st_root b) && bool_decide (st_group a = st_group b).
(** [!self.identity_context_is(context) || after.root != identity.root || ...] *)
Definition unchanged (context : IdentityContext) (before after : IdentityStatus) (why : string) : prog (result Error unit) :=
  same ← identity_context_is context;
  Done (if same && same_identity before after then Ok () else Err (refused why)).
Definition in_context (context : IdentityContext) (why : string) : prog (result Error unit) :=
  same ← identity_context_is context;
  Done (if same : bool then Ok () else Err (refused why)).
Definition during_backup : string := "the user identity changed during backup".
Definition during_replacement : string := "the user identity changed during backup replacement".
Definition underived : Error := refused "the backup key could not be derived".

Definition root_backup_status : prog (result Error RootBackupStatus) :=
  _ ←! identity_open;
  s ← root_seed;
  _ ←! base Identity.engine;
  current ←! engine_call (opaque (OpaqueCurrent ROOT_BACKUP_SLOT));
  Done (Ok (mkBackupStatus (bool_decide (is_Some s)) (bool_decide (is_Some current)))).

Definition root_backup_export (passphrase : string) : prog (result Error bytes) :=
  _ ←! identity_open;
  context ← identity_context;
  identity ←! identity_status;
  seed ←! base Identity.require_root_seed;
  if negb (bool_decide (verifying_key seed = st_root identity))
  then Done (Err (Error_new Unavailable "local root custody does not match the current identity")) else
  salt ← opaque (Fill 16);
  nonce ← opaque (Fill 12);
  let prepared := prepare_encrypt seed (st_group identity) salt nonce in
  derived ← opaque (Derive passphrase (PreparedEncryption_salt prepared));
  key ←! Done (map_err (λ _, underived) derived);
  let result := map_err (λ _, Error_new Failed "the root backup could not be encrypted") (encrypt prepared seed {| key_bytes := key |}) in
  after ←! identity_status;
  _ ←! unchanged context identity after during_backup;
  Done result.

Definition root_backup_import (passphrase : string) (envelope : bytes) : prog (result Error unit) :=
  _ ←! identity_open;
  context ← identity_context;
  identity ←! identity_status;
  prepared ←! Done (map_err (λ _, refused "that backup is not for this user") (prepare_decrypt (st_root identity) (st_group identity) envelope));
  derived ← opaque (Derive passphrase (PreparedDecryption_salt prepared));
  key ←! Done (map_err (λ _, underived) derived);
  seed ←! Done (map_err (λ _, refused "that backup did not open for this user") (decrypt prepared {| key_bytes := key |}));
  after ←! identity_status;
  _ ←! unchanged context identity after during_backup;
  previous ← root_seed;
  _ ←! replace_root_seed (Some seed);
  landed ← checkpoint_durable;
  match landed with
  | Err error =>
    same ← identity_context_is context;
    if same : bool then
      _ ←! replace_root_seed previous;
      _ ← checkpoint_durable;
      Done (Err error)
    else Done (Err error)
  | Ok _ =>
    _ ←! in_context context "the user identity changed while installing the backup";
    _ ← base_call PushContactsChanged;
    Done (Ok ())
  end.

Definition root_backup_sync_replace (passphrase : string) : prog (result Error unit) :=
  context ← identity_context;
  before ←! identity_status;
  envelope ←! root_backup_export passphrase;
  _ ←! in_context context during_replacement;
  _ ←! base Identity.engine;
  tree ←! engine_call (opaque (OpaqueReplace ROOT_BACKUP_SLOT CallerEncrypted));
  after_replace ←! identity_status;
  _ ←! unchanged context after_replace before during_replacement;
  _ ←! Done (map_err (λ _, refused "the backup context changed") (prepare_decrypt (st_root after_replace) (st_group after_replace) envelope));
  _ ←! engine_call (opaque (OpaquePublish tree [] envelope));
  _ ←! in_context context during_replacement;
  checkpoint_durable.

Definition root_backup_sync_disable : prog (result Error unit) :=
  _ ←! identity_open;
  _ ←! base Identity.engine;
  _ ←! engine_call (opaque (OpaqueDisable ROOT_BACKUP_SLOT));
  checkpoint_durable.

Definition conflicting : Error := refused "the synced root backup has conflicting payloads".
Definition root_backup_sync_unlock (passphrase : string) : prog (result Error unit) :=
  _ ←! identity_open;
  _ ←! base Identity.engine;
  current ←! engine_call (opaque (OpaqueCurrent ROOT_BACKUP_SLOT));
  tree ←! Done (ok_or (Error_new NotFound "there is no synced root backup") current);
  _ ←! engine_call (opaque (OpaqueOpen tree));
  items ←! engine_call (opaque (OpaqueRead tree));
  match items with
  | [item] => root_backup_import passphrase (oi_bytes item)
  | _ => Done (Err conflicting)
  end.
End Backups.

(** ** What holds of them *)
Section Facts.
Context {AeadI : Aead} {EdI : Ed25519} {SigI : Signatures}.
Context {MsgS : Message Proto.Signed} {MsgB : Message Proto.RootBinding} {MsgP : Message Proto.Profile}.
Context {VaultState DriveSealed : Type}.
Abbreviation ans := (@Backups.ans VaultState DriveSealed).
Abbreviation upper := (@Identity.ans VaultState DriveSealed).
Abbreviation call := Backups.call.
Abbreviation prog := (Async.prog ans).
Abbreviation event := (Async.event ans).
Abbreviation history := (list event).
Abbreviation E := (@Ev _ ans).
Abbreviation DeviceState := (@Persist.DeviceState VaultState DriveSealed).
Abbreviation base := (@Backups.base VaultState DriveSealed).
Implicit Types (h t u : history) (root group seed key b : bytes) (s : DeviceState).

(** ** The parts that only read *)
Definition silent (c : call) : Prop :=
  match c with Base c => quiet c | Fill _ | Derive _ _ | OpaqueCurrent _ | OpaqueOpen _ | OpaqueRead _ => True | _ => False end.
Definition reads root group t : Prop := ∃ T, t = place <$> T ∧ identity_read root group T.
Lemma backup_base_one_call (c : Identity.call) (l : history) y : runs (base_call (VaultState := VaultState) (DriveSealed := DriveSealed) c) l (Some y) ↔ l = [place (Ev c y)].
Proof. exact (runs_call (ans := ans) (Base c) l y). Qed.
Lemma backup_runs_base {X} (p : Async.prog upper X) t x : runs (base p) t (Some x) → ∃ T, t = place <$> T ∧ runs p T (Some x).
Proof. apply (runs_embed base_call place), backup_base_one_call. Qed.
Lemma silent_base {X} (p : Async.prog upper X) : all_calls quiet p → all_calls silent (base p).
Proof. intros Hp. eapply all_calls_interp; [exact Hp|]. by split. Qed.
Lemma silent_status : all_calls silent (identity_status (VaultState := VaultState) (DriveSealed := DriveSealed)).
Proof. apply silent_base, quiet_identity_status. Qed.
Lemma runs_status t st : runs (identity_status (VaultState := VaultState) (DriveSealed := DriveSealed)) t (Some (Ok st)) → reads (st_root st) (st_group st) t.
Proof. intros (T & -> & HT%runs_identity_status)%backup_runs_base. by exists T. Qed.
Lemma silent_open : all_calls silent (identity_open (VaultState := VaultState) (DriveSealed := DriveSealed)).
Proof. by apply silent_base. Qed.
Lemma silent_engine : all_calls silent (base Identity.engine).
Proof. apply silent_base. by repeat split. Qed.
Lemma silent_seed : all_calls silent (base require_root_seed).
Proof. apply silent_base. by repeat split. Qed.
Lemma runs_seed t seed : runs (base require_root_seed) t (Some (Ok seed)) → ∃ s, t = [E (Base ReadState) s] ∧ held s = Some seed.
Proof.
  intros (T & -> & Hr)%backup_runs_base. unfold require_root_seed, Identity.root_seed in Hr.
  apply runs_bind in Hr as (t1 & t2 & o & -> & Ho & [-> He]%runs_Done). apply runs_bind in Ho as (t3 & t4 & s & -> & Hs & [-> <-]%runs_Done).
  apply (runs_call (ans := upper) ReadState) in Hs as ->. exists s. split; [done|]. unfold held. by destruct (Persist.device s ≫= _); simplify_eq/=.
Qed.

Ltac step := cbn [try mbind prog_bind prog_bind_ mret prog_ret Async.call Backups.opaque base_call Backups.base interp Backups.engine_call
  identity_context_is Identity.identity_context_is identity_context Identity.identity_context in_context unchanged
  Backups.root_seed Identity.root_seed Backups.replace_root_seed Identity.replace_root_seed checkpoint_durable map_err ok_or negb andb app].
(** Past the call in front, whatever it answers. *)
Ltac past x := split; [done|]; intros x; step.
(** The context has not moved. *)
Ltac same_context c' c := destruct (decide (c' = c)) as [->|]; [rewrite (bool_decide_true (c = c)) by done|rewrite (bool_decide_false (c' = c)) by done; exact I]; step.
Lemma same_identity_true (a b : IdentityStatus) : same_identity a b = true ↔ st_root a = st_root b ∧ st_group a = st_group b.
Proof. unfold same_identity. by rewrite andb_true_iff, !bool_decide_eq_true. Qed.

(** ** Restoring *)
(** [h] ends where the code holds everything it checks before it installs [seed]:
    the envelope is for the identity read under the context [c], before the
    derivation and after it, and opens under the derived key to that root's seed. *)
Definition restorable (passphrase : string) (envelope : bytes) (h : history) (c : IdentityContext) (s : DeviceState) (seed : bytes) : Prop :=
  ∃ u1 u2 u3 root group p key,
    h = u1 ++ E (Base ReadContext) c :: u2 ++ E (Derive passphrase (PreparedDecryption_salt p)) (Ok key) :: u3 ++ [E (Base ReadContext) c; E (Base ReadState) s] ∧
    reads root group u2 ∧ reads root group u3 ∧
    prepare_decrypt root group envelope = Ok p ∧ decrypt p {| key_bytes := key |} = Ok seed ∧ verifying_key seed = root.
Definition may_restore passphrase envelope h (o : option bytes) : Prop :=
  (∃ c s seed, restorable passphrase envelope h c s seed ∧ o = Some seed) ∨
  (∃ h0 c s seed e, restorable passphrase envelope h0 c s seed ∧ o = held s ∧
    h = h0 ++ [E (Base (ReplaceRootSeed (Some seed))) true; E (Base CheckpointDurable) (Err e); E (Base ReadContext) c]).
Definition restored passphrase envelope h : Prop :=
  ∃ h0 c s seed, restorable passphrase envelope h0 c s seed ∧
    h = h0 ++ [E (Base (ReplaceRootSeed (Some seed))) true; E (Base CheckpointDurable) (Ok tt); E (Base ReadContext) c; E (Base PushContactsChanged) tt].
Definition restorer_may passphrase envelope h (c : call) : Prop :=
  match c with
  | Base (ReplaceRootSeed o) => may_restore passphrase envelope h o
  | Base CheckpointDurable | Base PushContactsChanged | Base Panic => True
  | c => silent c
  end.
(** The envelope that is accepted is the identity's. *)
Lemma prepared_slices root group b p : prepare_decrypt root group b = Ok p → p = mkPreparedDecryption b ∧ slice 22 54 b = root ∧ slice 54 86 b = group.
Proof.
  unfold prepare_decrypt. intros (e & [-> _]%ok_or_Ok%try_array_Some & Hp)%bind_Ok.
  destruct (_ || _) eqn:Hc; [done|]. injection Hp as <-. rewrite !orb_false_iff, !negb_false_iff, !bool_decide_eq_true in Hc. tauto.
Qed.
Lemma decrypt_root root group b p (k : DerivedKey) seed : prepare_decrypt root group b = Ok p → decrypt p k = Ok seed → verifying_key seed = root.
Proof.
  intros (-> & <- & _)%prepared_slices. unfold decrypt. cbn [RootBackup.envelope].
  intros (n & _ & Hd)%bind_Ok. apply bind_Ok in Hd as (m & _ & Hd). apply bind_Ok in Hd as (s & _ & Hd). case_bool_decide; by simplify_eq/=.
Qed.
Lemma import_restores passphrase envelope : wp (restorer_may passphrase envelope) (root_backup_import passphrase envelope) []
  (λ r h, match r with Ok _ => restored passphrase envelope h | Err _ => True end).
Proof.
  unfold root_backup_import.
  assert (∀ h c, silent c → restorer_may passphrase envelope h c) as HG by (by intros h [[]| | | | | | | |]).
  apply (wp_quietly _ silent); [done|apply silent_open|done|]. intros t0 [] _. step.
  past c. apply (wp_quietly _ silent); [done|apply silent_status|done|]. intros t1 st Hs1%runs_status. step.
  destruct (prepare_decrypt _ _ envelope) as [p|] eqn:Hp; [|exact I]. step.
  past d. destruct d as [key|]; [|exact I]. step.
  destruct (decrypt p _) as [seed|] eqn:Hd; [|exact I]. step.
  apply (wp_quietly _ silent); [done|apply silent_status|done|]. intros t2 after Hs2%runs_status. step.
  past c'. same_context c' c. destruct (same_identity st after) eqn:Hsame; [|exact I]. apply same_identity_true in Hsame as [Hr Hg]. step.
  past s.
  match goal with |- wp _ _ ?h0 _ => assert (restorable passphrase envelope h0 c s seed) as Hready; [|generalize dependent h0] end.
  { exists t0, t1, t2, (st_root st), (st_group st), p, key. rewrite <- Hr, <- Hg in Hs2.
    split_and!; [by rewrite <- !app_assoc|done..|by eapply decrypt_root]. }
  intros h0 Hready. split; [left; by eauto|]. intros []; step; [|by split]. past landed. destruct landed as [[]|e]; step.
  - past c'. same_context c' c. split; [done|]. intros []. exists h0, c, s, seed. split; [done|]. by rewrite <- !app_assoc.
  - past c'. destruct (decide (c' = c)) as [->|]; [|by rewrite (bool_decide_false (c' = c))].
    rewrite (bool_decide_true (c = c)) by done. step. split.
    { right. exists h0, c, s, seed, e. split_and!; [done..|]. by rewrite <- !app_assoc. }
    intros []; step; [|by split]. by split.
Qed.

(** ** Exporting, and the synced slot *)
(** [u] is a whole export: the seed held, that is the root's, sealed under a fresh
    salt and nonce for the identity read before and after under one context. *)
Definition exported (passphrase : string) (salt nonce key group seed b : bytes) (u : history) : Prop :=
  ∃ u1 c u2 s u3, let p := prepare_encrypt seed group salt nonce in
    u = u1 ++ E (Base ReadContext) c :: u2 ++ [E (Base ReadState) s; E (Fill 16) salt; E (Fill 12) nonce; E (Derive passphrase (PreparedEncryption_salt p)) (Ok key)]
        ++ u3 ++ [E (Base ReadContext) c] ∧
    reads (verifying_key seed) group u2 ∧ reads (verifying_key seed) group u3 ∧ held s = Some seed ∧ encrypt p seed {| key_bytes := key |} = Ok b.
(** What such an envelope opens to, and the salt its key is derived from. *)
Definition opens_to root group seed salt key b : Prop :=
  ∃ p, prepare_decrypt root group b = Ok p ∧ PreparedDecryption_salt p = salt ∧ decrypt p {| key_bytes := key |} = Ok seed.
Lemma exported_opens seed group salt nonce key b : length group = GROUP_ID_LEN → length salt = SALT_LEN → length nonce = NONCE_LEN → length seed = ROOT_SEED_LEN →
  encrypt (prepare_encrypt seed group salt nonce) seed {| key_bytes := key |} = Ok b → opens_to (verifying_key seed) group seed salt key b.
Proof.
  intros Hg Hs Hn Hl (ct & Hct & ->)%encrypt_Ok; [|done..]. assert (length (verifying_key seed) = ROOT_PUBLIC_KEY_LEN) as Hr by apply length_verifying_key.
  eexists. split_and!.
  - apply prepare_decrypt_Ok; [done..|]. split_and!; [reflexivity| |by exists salt, nonce, ct].
    rewrite length_app, length_header_layout, (aead_length _ _ _ _ _ Hct), Hl by done. done.
  - by apply layout_salt.
  - by apply decrypt_Ok.
Qed.
Lemma silent_export passphrase : all_calls silent (root_backup_export (VaultState := VaultState) (DriveSealed := DriveSealed) passphrase).
Proof.
  unfold root_backup_export, unchanged.
  repeat first [apply all_calls_try; [first [exact I|exact silent_open|exact silent_status|exact silent_seed|by repeat split]|intros ?]
    |apply all_calls_bind; [by repeat split|intros ?]|case_match|done|progress cbn zeta].
Qed.
Lemma runs_export passphrase t b : runs (root_backup_export (VaultState := VaultState) (DriveSealed := DriveSealed) passphrase) t (Some (Ok b)) →
  ∃ salt nonce key group seed, exported passphrase salt nonce key group seed b t.
Proof.
  unfold root_backup_export. intros (t0 & t1 & [] & -> & _ & Hr)%runs_try.
  apply runs_bind in Hr as (t2 & t3 & c & -> & Hc & Hr). apply backup_runs_base in Hc as (T & -> & Hc%(runs_call (ans := upper) ReadContext)). subst T.
  apply runs_try in Hr as (t4 & t5 & st & -> & Hst%runs_status & Hr).
  apply runs_try in Hr as (t6 & t7 & seed & -> & (s & -> & Hs)%runs_seed & Hr).
  destruct (decide (verifying_key seed = st_root st)) as [Hk|]; [|rewrite bool_decide_false in Hr by done; by apply runs_Done in Hr as [_ ?]].
  rewrite bool_decide_true in Hr by done. cbn [negb] in Hr.
  apply runs_bind in Hr as (t8 & t9 & salt & -> & ->%(runs_call (ans := ans) (Fill 16)) & Hr).
  apply runs_bind in Hr as (t10 & t11 & nonce & -> & ->%(runs_call (ans := ans) (Fill 12)) & Hr).
  apply runs_bind in Hr as (t12 & t13 & d & -> & Hd & Hr). apply (runs_call (ans := ans) (Derive _ _)) in Hd as ->.
  apply runs_try in Hr as (t14 & t15 & key & -> & [-> Hkey]%runs_Done & Hr).
  apply runs_try in Hr as (t16 & t17 & after & -> & Hst2%runs_status & Hr).
  apply runs_try in Hr as (t18 & t19 & [] & -> & Hu & [-> He]%runs_Done).
  unfold unchanged in Hu. apply runs_bind in Hu as (t20 & t21 & same & -> & Hsame & [-> Hu]%runs_Done).
  apply backup_runs_base in Hsame as (T & -> & Hsame). apply runs_bind in Hsame as (t22 & t23 & c' & -> & ->%(runs_call (ans := upper) ReadContext) & [-> <-]%runs_Done).
  destruct (decide (c' = c)) as [->|]; [|by rewrite bool_decide_false in Hu by done]. rewrite bool_decide_true in Hu by done.
  destruct (same_identity st after) eqn:Hi; [|done]. apply same_identity_true in Hi as [Hi1 Hi2].
  exists salt, nonce, key, (st_group st), seed, t0, c, t4, s, t16. rewrite <- Hi1, <- Hi2 in Hst2. rewrite Hk.
  destruct d as [k|]; [|done]. injection Hkey as ->.
  destruct (encrypt _ _ _) as [b'|] eqn:Hb; [|done]. injection He as ->.
  split_and!; [|done..]. rewrite ?app_nil_r. cbn [fmap list_fmap place app]. by rewrite <- ?app_assoc.
Qed.

(** The arrays of the code. *)
Definition sized (salt nonce group seed : bytes) : Prop :=
  length salt = SALT_LEN ∧ length nonce = NONCE_LEN ∧ length group = GROUP_ID_LEN ∧ length seed = ROOT_SEED_LEN.
(** [h] ends where the code holds everything it checks before it puts [b] into the
    slot's new [tree]: an export in between, and the identity of before it read
    again after the slot was replaced, all under the context [c].  Such an envelope
    opens for that identity to the seed that was held. *)
Definition publishable (passphrase : string) (tree b : bytes) (c : IdentityContext) (h : history) : Prop :=
  ∃ u1 u2 k u3 salt nonce key group seed root g,
    h = E (Base ReadContext) c :: u1 ++ u2 ++ [E (Base ReadContext) c; E (Base EngineKey) (Some k); E (OpaqueReplace ROOT_BACKUP_SLOT CallerEncrypted) (Ok tree)]
        ++ u3 ++ [E (Base ReadContext) c] ∧
    exported passphrase salt nonce key group seed b u2 ∧ reads root g u1 ∧ reads root g u3 ∧
    (sized salt nonce group seed → opens_to root g seed salt key b).
Definition published passphrase h : Prop :=
  ∃ h0 tree b c id, publishable passphrase tree b c h0 ∧ h = h0 ++ [E (OpaquePublish tree [] b) (Ok id); E (Base ReadContext) c].
Definition replacer_may passphrase h (c : call) : Prop :=
  match c with
  | OpaqueReplace slot m => slot = ROOT_BACKUP_SLOT ∧ m = CallerEncrypted ∧
      ∃ u1 u2 u3 salt nonce key group seed b, h = u1 ++ u2 ++ u3 ∧ exported passphrase salt nonce key group seed b u2
  | OpaquePublish tree parents b => parents = [] ∧ ∃ c, publishable passphrase tree b c h
  | Base CheckpointDurable => published passphrase h
  | c => silent c
  end.
Lemma silent_context c : all_calls silent (identity_context_is (VaultState := VaultState) (DriveSealed := DriveSealed) c).
Proof. by repeat split. Qed.
Lemma replace_publishes passphrase : wp (replacer_may passphrase) (root_backup_sync_replace passphrase) []
  (λ r h, match r with Ok _ => ∃ h', published passphrase h' ∧ h = h' ++ [E (Base CheckpointDurable) (Ok tt)] | Err _ => True end).
Proof.
  unfold root_backup_sync_replace.
  assert (∀ h c, silent c → replacer_may passphrase h c) as HG by (by intros h [[]| | | | | | | |]).
  past c. apply (wp_quietly _ silent); [done|apply silent_status|done|]. intros t1 before Hs1%runs_status.
  apply (wp_quietly _ silent); [done|apply silent_export|done|]. intros t2 b (salt & nonce & key & group & seed & Hex)%runs_export. step.
  past c'. same_context c' c. past k. destruct k as [k|]; [|exact I]. step.
  split. { split; [done|]. split; [done|]. rewrite <- !app_assoc. by eexists ([_] ++ t1), t2, _, salt, nonce, key, group, seed, b. }
  intros [tree|e]; [|exact I]. step.
  apply (wp_quietly _ silent); [done|apply silent_status|done|]. intros t3 after Hs2%runs_status. step.
  past c'. same_context c' c. destruct (same_identity after before) eqn:Hsame; [|exact I]. apply same_identity_true in Hsame as [Hr Hg]. step.
  destruct (prepare_decrypt _ _ b) as [p|] eqn:Hp; [|exact I]. step.
  match goal with |- wp _ _ ?h0 _ => assert (publishable passphrase tree b c h0) as Hready; [|generalize dependent h0] end.
  { exists t1, t2, k, t3, salt, nonce, key, group, seed, (st_root before), (st_group before). rewrite Hr, Hg in *.
    split_and!; [by rewrite <- !app_assoc|done..|]. intros (Hs & Hn & Hgl & Hl).
    destruct Hex as (? & ? & ? & ? & ? & _ & _ & _ & _ & He). destruct (exported_opens _ _ _ _ _ _ Hgl Hs Hn Hl He) as (p' & Hp' & Ho).
    apply prepared_slices in Hp as (_ & <- & <-). destruct (prepared_slices _ _ _ _ Hp') as (_ & -> & ->). by exists p'. }
  intros h0 Hready. split; [split; [done|by exists c]|]. intros [id|e]; [|exact I]. step.
  past c'. same_context c' c. rewrite <- app_assoc. cbn [app].
  assert (published passphrase (h0 ++ [E (OpaquePublish tree [] b) (Ok id); E (Base ReadContext) c])) as Hpub by (by exists h0, tree, b, c, id).
  split; [done|]. intros [[]|e]; [|exact I]. by eexists.
Qed.

(** ** What holds over every history *)
(** C16: A backup file, and the synced backup alike, installs only a seed that this
    envelope opens to under the derived key, that is the root's of the identity read
    before the derivation and, in the same context, after it; what fails to reach
    the disk is rolled back to the seed that was there; and success means the seed
    is on disk and the screens were told.  The synced one is the only payload of the
    slot's current tree. *)
Theorem restored_seed_is_checked passphrase :
  (∀ envelope t r, runs (root_backup_import passphrase envelope) t r →
    (∀ t1 e t2, t = t1 ++ e :: t2 → restorer_may passphrase envelope t1 (asked e)) ∧
    (r = Some (Ok tt) → restored passphrase envelope t)) ∧
  (∀ t r, runs (root_backup_sync_unlock passphrase) t r →
    (∀ t1 e t2, t = t1 ++ e :: t2 → silent (asked e) ∨
      ∃ u0 tree item u, t1 = u0 ++ [E (OpaqueCurrent ROOT_BACKUP_SLOT) (Ok (Some tree)); E (OpaqueOpen tree) (Ok tt); E (OpaqueRead tree) (Ok [item])] ++ u ∧
        restorer_may passphrase (oi_bytes item) u (asked e)) ∧
    (r = Some (Ok tt) →
      ∃ u0 tree item u, t = u0 ++ [E (OpaqueCurrent ROOT_BACKUP_SLOT) (Ok (Some tree)); E (OpaqueOpen tree) (Ok tt); E (OpaqueRead tree) (Ok [item])] ++ u ∧
        restored passphrase (oi_bytes item) u)).
Proof.
  split.
  - intros envelope t r Hr. eapply (wp_guards (restorer_may passphrase envelope) _ [] _) in Hr as [Hr Hq]; [|apply import_restores].
    split; [exact Hr|]. by intros ->.
  - intros t r Hr. eapply (wp_guards (λ t1 c, silent c ∨
      ∃ u0 tree item u, t1 = u0 ++ [E (OpaqueCurrent ROOT_BACKUP_SLOT) (Ok (Some tree)); E (OpaqueOpen tree) (Ok tt); E (OpaqueRead tree) (Ok [item])] ++ u ∧
        restorer_may passphrase (oi_bytes item) u c) _ [] (λ r t, match r with
      | Ok _ => ∃ u0 tree item u, t = u0 ++ [E (OpaqueCurrent ROOT_BACKUP_SLOT) (Ok (Some tree)); E (OpaqueOpen tree) (Ok tt); E (OpaqueRead tree) (Ok [item])] ++ u ∧
          restored passphrase (oi_bytes item) u
      | Err _ => True
      end)) in Hr as [Hr Hq]; [split; [exact Hr|by intros ->]|].
    unfold root_backup_sync_unlock.
    apply (wp_quietly _ silent); [by left|apply silent_open|done|]. intros t0 [] _.
    apply (wp_quietly _ silent); [by left|apply silent_engine|done|]. intros t1 k _. step.
    split; [by left|]. intros [[tree|]|]; [|exact I..]. step. split; [by left|]. intros [[]|]; [|exact I]. step.
    split; [by left|]. intros [[|item [|? ?]]|]; [exact I| |exact I..]. step.
    match goal with |- wp _ _ ?h _ => rewrite <- (app_nil_r h) end.
    eapply wp_mono; [eapply (wp_from _ (restorer_may passphrase (oi_bytes item))); [|apply import_restores]|].
    { intros u c Hc. right. exists (t0 ++ t1), tree, item, u. split; [|exact Hc]. by rewrite <- !app_assoc. }
    cbn beta. intros [[]|why] h' (u & Hh & Hu); [|done]. exists (t0 ++ t1), tree, item, u. split; [|exact Hu].
    refine (eq_trans Hh _). by rewrite <- !app_assoc.
Qed.
(** C17: What a replacement puts into the synced slot is one envelope without
    parents, of the seed this device holds, exported before the slot was replaced
    and opened by its key for the identity that is still the device's after it; the
    slot is replaced only by a caller-encrypted tree, only for a finished export,
    and the operation succeeds only once all of this is on disk. *)
Theorem synced_backup_is_current passphrase t r : runs (root_backup_sync_replace passphrase) t r →
  (∀ t1 e t2, t = t1 ++ e :: t2 → replacer_may passphrase t1 (asked e)) ∧
  (r = Some (Ok tt) → ∃ h, published passphrase h ∧ t = h ++ [E (Base CheckpointDurable) (Ok tt)]).
Proof.
  intros Hr. eapply (wp_guards (replacer_may passphrase) _ [] _) in Hr as [Hr Hq]; [|apply replace_publishes].
  split; [exact Hr|]. by intros ->.
Qed.
End Facts.

(** ** A concrete backup *)
Module Concrete.
Import Crypto.Toy ToySigned Custody.Concrete.
Abbreviation ans := (@Backups.ans unit unit).
Abbreviation E := (@Ev _ ans).
(** The kernel of [Custody], the current tree of the slot with its items, and
    whether the engine publishes. *)
Record shelf := mkShelf { kernel : Custody.Concrete.world; slot : option bytes; items : list OpaqueItem; publishes : bool }.
Definition tree0 : bytes := replicate 32 (byte_of 7).
Definition serve (w : shelf) (c : Backups.call) : option (ans c * shelf) :=
  match c as c return option (ans c * shelf) with
  | Base c => '(y, k) ← handle (kernel w) c; Some (y, mkShelf k (slot w) (items w) (publishes w))
  | Fill n => Some (replicate n (byte_of 3), w)
  | Derive passphrase salt => Some (Ok (fit 32 (as_bytes passphrase ++ salt)), w)
  | OpaqueCurrent _ => Some (Ok (slot w), w)
  | OpaqueReplace _ _ => Some (Ok tree0, mkShelf (kernel w) (Some tree0) [] (publishes w))
  | OpaqueDisable _ => Some (Ok tt, mkShelf (kernel w) None [] (publishes w))
  | OpaqueOpen _ => Some (Ok tt, w)
  | OpaquePublish tree parents b =>
    if publishes w then Some (Ok tree, mkShelf (kernel w) (slot w) [mkOpaqueItem tree parents b] true) else Some (Err "stopped"%string, w)
  | OpaqueRead _ => Some (Ok (items w), w)
  end.
(** The world a run leaves. *)
Fixpoint after {X} (w : shelf) (p : Async.prog ans X) : shelf :=
  match p with
  | Done _ => w
  | Call c k => match serve w c with Some (y, w) => after w (k y) | None => w end
  end.
Abbreviation run := (run_with serve).
Definition device_holding (seed : option bytes) : Custody.Concrete.world := mkWorld (Some profile) true seed (Ok tt) [].
Definition empty_shelf : shelf := mkShelf (device_holding (Some ada)) None [] true.
Definition replacing := root_backup_sync_replace (VaultState := unit) (DriveSealed := unit) "correct horse".
Definition backed_up : shelf := after empty_shelf replacing.
(** Another device of the same identity, without the seed. *)
Definition bare : shelf := mkShelf (device_holding None) (slot backed_up) (items backed_up) true.
Definition unlocking := root_backup_sync_unlock (VaultState := unit) (DriveSealed := unit) "correct horse".
Definition envelope0 : bytes := default [] (hd_error (oi_bytes <$> items backed_up)).
Definition importing := root_backup_import (VaultState := unit) (DriveSealed := unit) "correct horse" envelope0.
Lemma restored_seed_is_checked_witness :
  restored "correct horse" envelope0 (run bare importing).1 ∧
  (∃ u0 tree item u, (run bare unlocking).1 = u0 ++ [E (OpaqueCurrent ROOT_BACKUP_SLOT) (Ok (Some tree)); E (OpaqueOpen tree) (Ok tt); E (OpaqueRead tree) (Ok [item])] ++ u ∧
    restored "correct horse" (oi_bytes item) u).
Proof.
  pose proof (restored_seed_is_checked (VaultState := unit) (DriveSealed := unit) "correct horse") as [Hi Hu]. split.
  - assert ((run bare importing).2 = Some (Ok tt)) as He by (vm_compute; reflexivity).
    exact (proj2 (Hi envelope0 _ _ (run_with_runs serve bare importing)) He).
  - assert ((run bare unlocking).2 = Some (Ok tt)) as He by (vm_compute; reflexivity).
    exact (proj2 (Hu _ _ (run_with_runs serve bare unlocking)) He).
Defined.
Lemma synced_backup_is_current_witness : ∃ h, published (VaultState := unit) (DriveSealed := unit) "correct horse" h ∧
  (run empty_shelf replacing).1 = h ++ [E (Base CheckpointDurable) (Ok tt)].
Proof.
  assert ((run empty_shelf replacing).2 = Some (Ok tt)) as He by (vm_compute; reflexivity).
  exact (proj2 (synced_backup_is_current "correct horse" _ _ (run_with_runs serve empty_shelf replacing)) He).
Defined.
(** A replacement whose publication fails has already retired the backup that was
    there: the slot is left with an empty tree, the status goes on saying that a
    backup is synced, and unlocking it answers that its payloads conflict. *)
Definition stuck : shelf := mkShelf (kernel backed_up) (slot backed_up) (items backed_up) false.
Definition lost : shelf := after stuck replacing.
Theorem failed_replacement_loses_backup :
  (run bare unlocking).2 = Some (Ok tt) ∧ (run stuck replacing).2 = Some (Err (Error_new Failed "stopped")) ∧
  (run lost root_backup_status).2 = Some (Ok (mkBackupStatus true true)) ∧ (run lost unlocking).2 = Some (Err conflicting).
Proof. vm_compute. done. Qed.
End Concrete.
