(* ===== verification/Adoption.v ===== *)
(** * Adopting the identity an enrollment brings ([runtime/crates/kernel/src/pairing.rs])

    What a joiner does with the frame that enrolls it: the checks that touch
    nothing, then, under the two locks of the kernel, the adoption of the other
    device's group, documents and contacts as one commit, and the receipt.  The
    engine's operations are calls here; [Requests] has what they do.

    Over every history: nothing of this device changes before the frame proved
    coherent and both locks are held; the adoption reaches the disk once, whole, and
    only then is its receipt sent; and one that fails after it began leaves the
    identity closed and the disk as it was. *)
From S2P Require Import Prelude BTree Crypto Error Text Seal Trees Storage Device Persist ContactsWire Contacts Async.
From S2P Require Automerge History Us Calls Requests Book VisorModel Services Meeting.

(** What the frame carries; the key of the adder is the one the ceremony settled. *)
Record Payload := mkPayload {
  us : bytes;
  keyhive : bytes;
  read_back : bytes;
  name_key : bytes;
  visor : bytes;
  contacts : bytes;
  shared : list (Calls.DocumentGrant * list StoreItem);
}.
Inductive mutex := SharingWrite | PersistenceWrite.
#[export] Instance mutex_eq_dec : EqDecision mutex.
Proof. solve_decision. Defined.

Section Adoption.
Context {A Oid C : Type} {AM : Automerge.Automerge A Oid} {CG : History.ChangeGraph A C}.
Context {ShaI : Sha256} {EdI : Ed25519} {SigI : Signatures} {BlI : Blake3}.
Context {MsgS : Message Proto.Signed} {MsgB : Message Proto.RootBinding} {MsgP : Message Proto.Profile}.
Context {VaultState DriveSealed : Type}.
(** The engine's seed and key. *)
Context (engine_seed me : bytes).
Abbreviation DeviceState := (@Persist.DeviceState VaultState DriveSealed).

Inductive call :=
| Lock (m : mutex)
| Unlock (m : mutex)
(* the kernel's cells *)
| ReadState
| WriteState (s : DeviceState)
| ReadContext
| WriteContext (c : IdentityContext)
| EngineKey
| ReadSessions
| BindSession (session : Z) (document : string)
| PushContactsChanged
| PushPersonalizationChanged
(* the meeting *)
| MeetingStatus
| MeetingInvalidate
(* the engine *)
| AdoptUs (us adder key : bytes)
| AdoptKeyhive (events content_keys : bytes)
| DocumentAdopt (app : string) (b : bytes)
| AdoptShared (grants : list Calls.DocumentGrant)
| ImportInline (app : string) (items : list StoreItem)
| ReadPersonal (app : string)
(* the rest of the kernel, the disk and the wire *)
| RefreshPersonalization
| Persistence (metadata : bool)
| SendEnrolled.
Definition ans (c : call) : Type :=
  match c with
  | Lock _ | Unlock _ | WriteState _ | WriteContext _ | BindSession _ _ | PushContactsChanged | PushPersonalizationChanged | MeetingInvalidate => unit
  | ReadState => DeviceState
  | ReadContext => IdentityContext
  | EngineKey => option bytes
  | ReadSessions => gmap Z string
  | MeetingStatus => result Error Meeting.Phase
  | AdoptUs _ _ _ | AdoptKeyhive _ _ | DocumentAdopt _ _ | AdoptShared _ | SendEnrolled => result string unit
  | ImportInline _ _ => result string bool
  | ReadPersonal _ => result string (option string)
  | RefreshPersonalization | Persistence _ => result Error unit
  end.
Abbreviation prog := (Async.prog ans).
Abbreviation history := (list (Async.event ans)).
Definition ask (c : call) : prog (ans c) := Async.call (ans := ans) c.
Definition said {X} (p : prog (result Error X)) : prog (result string X) := r ← p; Done (map_err message r).
Definition engine : prog (result string unit) :=
  k ← ask EngineKey; Done (match k with Some _ => Ok () | None => Err "this device's sync engine is not running"%string end).

Fixpoint import_all (l : list (Calls.DocumentGrant * list StoreItem)) : prog (result string unit) :=
  match l with
  | [] => Done (Ok ())
  | (grant, items) :: l => _ ←! ask (ImportInline (Calls.g_partition grant) items); import_all l
  end.
Fixpoint bind_sessions (l : list (Z * string)) (personal : string) : prog unit :=
  match l with
  | [] => Done ()
  | (session, app) :: l =>
    _ ← (if bool_decide (app = Services.TODO_APP) then ask (BindSession session personal) else Done ());
    bind_sessions l personal
  end.
Definition adopt_pairing_payload (adder_key : bytes) (p : Payload) : prog (result string unit) :=
  _ ←! engine;
  _ ←! ask (AdoptUs (us p) adder_key (name_key p));
  _ ←! ask (AdoptKeyhive (keyhive p) (read_back p));
  _ ←! ask (DocumentAdopt VisorModel.VISOR_APP (visor p));
  _ ←! ask (AdoptShared (fst <$> shared p));
  _ ←! import_all (shared p);
  personal ←! ask (ReadPersonal Services.TODO_APP);
  _ ← (match personal with
    | Some personal => sessions ← ask ReadSessions; bind_sessions (btree_items sessions) personal
    | None => Done ()
    end);
  _ ←! ask (DocumentAdopt Book.CONTACTS_APP (contacts p));
  _ ←! said (ask RefreshPersonalization);
  _ ← ask PushPersonalizationChanged;
  Done (Ok ()).

(** What the payload must say, before anything is touched: the group it enrolls
    into is the one its contacts are bound to. *)
Definition coherent (kernel_seed adder_key : bytes) (p : Payload) : result string unit :=
  expected ← Requests.adoption_group (Oid := Oid) (C := C) engine_seed me (us p) adder_key;
  adopted ← History.try_load (C := C) (contacts p) (History.actor (as_bytes "polyvisor:actor:") kernel_seed (as_bytes Book.CONTACTS_APP)) (document_tree Book.CONTACTS_APP);
  profile ← ok_or "that device sent no usable user identity"%string (self_profile adopted);
  bound ← verify_root_binding (self_binding profile);
  if bool_decide (group bound = expected) then Ok () else Err "the adopted identity is bound to another Keyhive group"%string.
Definition quiet_phase (p : Meeting.Phase) : bool :=
  match p with Meeting.Idle | Meeting.PhaseDone _ | Meeting.PhaseFailed _ => true | _ => false end.
(** From custody given up to the receipt. *)
Definition adopt_locked (adder_key : bytes) (p : Payload) : prog (result string unit) :=
  s ← ask ReadState;
  previous ← ask ReadContext;
  match begin_identity_adoption s previous with
  | Err e => Done (Err (message e))
  | Ok (s, context) =>
    _ ← ask (WriteState s);
    _ ← ask (WriteContext context);
    adopted ← adopt_pairing_payload adder_key p;
    outcome ← (match adopted with Ok _ => said (ask (Persistence true)) | Err e => Done (Err e) end);
    current ← ask ReadContext;
    _ ← ask (WriteContext (finish_identity_adoption current previous (is_ok outcome)));
    _ ←! Done outcome;
    _ ← ask PushContactsChanged;
    _ ← ask SendEnrolled;
    Done (Ok ())
  end.
Definition locked {X} (m : mutex) (p : prog X) : prog X :=
  _ ← ask (Lock m);
  r ← p;
  _ ← ask (Unlock m);
  Done r.
Definition adopt_enrollment (adder_key : bytes) (p : Payload) : prog (result string unit) :=
  name_key ←! Done (ok_or "that device sent a malformed store key"%string (try_array 32 (name_key p)));
  _ ←! engine;
  s ← ask ReadState;
  _ ←! Done (coherent (seed s) adder_key p);
  phase ←! said (ask MeetingStatus);
  _ ← (if quiet_phase phase then Done () else ask MeetingInvalidate);
  locked SharingWrite (locked PersistenceWrite (adopt_locked adder_key p)).
End Adoption.

(** ** What holds of it *)
Section Facts.
Context {A Oid C : Type} {AM : Automerge.Automerge A Oid} {CG : History.ChangeGraph A C}.
Context {ShaI : Sha256} {EdI : Ed25519} {SigI : Signatures} {BlI : Blake3}.
Context {MsgS : Message Proto.Signed} {MsgB : Message Proto.RootBinding} {MsgP : Message Proto.Profile}.
Context {VaultState DriveSealed : Type}.
Context (engine_seed me adder_key : bytes) (p : Payload).
Abbreviation ans := (@Adoption.ans VaultState DriveSealed).
Abbreviation call := (@Adoption.call VaultState DriveSealed).
Abbreviation event := (Async.event ans).
Abbreviation history := (list event).
Abbreviation E := (@Ev _ ans).
Abbreviation payload := (adopt_pairing_payload (VaultState := VaultState) (DriveSealed := DriveSealed) adder_key p).
Implicit Types (h t u : history) (c : IdentityContext) (s : @Persist.DeviceState VaultState DriveSealed).

(** Everything is checked and both locks are held: the frame's group is the one its
    contacts are bound to, and no meeting is under way. *)
Definition ready h : Prop :=
  ∃ k s phase u, h = E EngineKey (Some k) :: E ReadState s :: E MeetingStatus (Ok phase) :: u ++ [E (Lock SharingWrite) tt; E (Lock PersistenceWrite) tt] ∧
    length (name_key p) = 32%nat ∧ coherent (Oid := Oid) (C := C) engine_seed me (seed s) adder_key p = Ok tt ∧
    u = if quiet_phase phase then [] else [E MeetingInvalidate tt].
(** The device has given up its root seed, and its identity is closed. *)
Definition begun (previous context : IdentityContext) h : Prop :=
  ∃ h0 s s', ready h0 ∧ begin_identity_adoption s previous = Ok (s', context) ∧
    adopting context = true ∧ (Persist.device s' ≫= Device.root_seed) = None ∧
    h = h0 ++ [E ReadState s; E ReadContext previous; E (WriteState s') tt; E (WriteContext context) tt].
Definition adopted (previous context : IdentityContext) h : Prop :=
  ∃ h0 u, begun previous context h0 ∧ runs payload u (Some (Ok tt)) ∧ h = h0 ++ u.
Definition stored h : Prop :=
  ∃ h0 previous context current, adopted previous context h0 ∧
    h = h0 ++ [E (Persistence true) (Ok tt); E ReadContext current; E (WriteContext (finish_identity_adoption current previous true)) tt].
Definition saved h : Prop := ∃ h0, stored h0 ∧ h = h0 ++ [E PushContactsChanged tt].
(** The calls of the payload. *)
Definition of_payload (c : call) : Prop :=
  match c with
  | EngineKey | AdoptUs _ _ _ | AdoptKeyhive _ _ | DocumentAdopt _ _ | AdoptShared _ | ImportInline _ _ | ReadPersonal _ | ReadSessions
  | BindSession _ _ | RefreshPersonalization | PushPersonalizationChanged => True
  | _ => False
  end.
(** The calls that change nothing of an identity. *)
Definition harmless (c : call) : Prop :=
  match c with Lock _ | Unlock _ | ReadState | ReadContext | EngineKey | MeetingStatus | MeetingInvalidate => True | _ => False end.
Definition adopter_may h (c : call) : Prop :=
  match c with
  | WriteState s' => ∃ h0 s previous context, ready h0 ∧ begin_identity_adoption s previous = Ok (s', context) ∧ h = h0 ++ [E ReadState s; E ReadContext previous]
  | WriteContext c' =>
    (∃ h0 s s' previous, ready h0 ∧ begin_identity_adoption s previous = Ok (s', c') ∧ h = h0 ++ [E ReadState s; E ReadContext previous; E (WriteState s') tt]) ∨
    (∃ h0 previous context current, adopted previous context h0 ∧ h = h0 ++ [E (Persistence true) (Ok tt); E ReadContext current] ∧
      c' = finish_identity_adoption current previous true) ∨
    (∃ h0 previous context u, begun previous context h0 ∧ h = h0 ++ u ++ [E ReadContext c'])
  | Persistence metadata => metadata = true ∧ ∃ previous context, adopted previous context h
  | PushContactsChanged => stored h
  | SendEnrolled => saved h
  | MeetingInvalidate => ∃ k s phase, h = [E EngineKey (Some k); E ReadState s; E MeetingStatus (Ok phase)] ∧ quiet_phase phase = false ∧
      length (name_key p) = 32%nat ∧ coherent (Oid := Oid) (C := C) engine_seed me (seed s) adder_key p = Ok tt
  | c => harmless c ∨ of_payload c ∧ ∃ h0 previous context u, begun previous context h0 ∧ h = h0 ++ u ∧ Forall (λ e, of_payload (asked e)) u
  end.
(** How an adoption ends: on disk and acknowledged, or without having begun, or
    given up, with the identity as closed as it is and nothing on disk. *)
Definition completed h : Prop := ∃ h0 y, saved h0 ∧ h = h0 ++ [E SendEnrolled y; E (Unlock PersistenceWrite) tt; E (Unlock SharingWrite) tt].
Definition given_up h : Prop :=
  ∃ h0 previous context u current, begun previous context h0 ∧ Forall (λ e, e ≠ E (Persistence true) (Ok tt) ∧ (of_payload (asked e) ∨ asked e = Persistence true)) u ∧
    h = h0 ++ u ++ [E ReadContext current; E (WriteContext current) tt; E (Unlock PersistenceWrite) tt; E (Unlock SharingWrite) tt].
Definition ended (r : result string unit) h : Prop :=
  match r with Ok _ => completed h | Err _ => Forall (λ e, harmless (asked e)) h ∨ given_up h end.

(** ** The payload *)
Lemma all_of_payload : all_calls of_payload payload.
Proof.
  assert (∀ l, all_calls of_payload (import_all (VaultState := VaultState) (DriveSealed := DriveSealed) l)) as Hi.
  { intros l. induction l as [|[g its] l IH]; [done|]. apply all_calls_try; [by split|done]. }
  assert (∀ l b, all_calls of_payload (bind_sessions (VaultState := VaultState) (DriveSealed := DriveSealed) l b)) as Hb.
  { intros l b. induction l as [|[x a] l IH]; [done|]. apply all_calls_bind; [by case_match; repeat split|done]. }
  unfold adopt_pairing_payload.
  repeat first [apply all_calls_try; [first [exact (Hi _)|by repeat split]|intros ?]
    |apply all_calls_bind; [first [by repeat split|case_match; [apply all_calls_bind; [by repeat split|intros ?; apply Hb]|done]]|intros ?]|done].
Qed.
(** Giving up custody. *)
Lemma begin_closes s previous s' context : begin_identity_adoption s previous = Ok (s', context) →
  adopting context = true ∧ (Persist.device s' ≫= Device.root_seed) = None.
Proof.
  unfold begin_identity_adoption. intros ([] & _ & Hb)%bind_Ok. destruct (adopting previous); [done|]. injection Hb as <- <-.
  split; [done|]. cbn. by destruct (Persist.device s).
Qed.

Ltac step := cbn [try mbind prog_bind prog_bind_ mret prog_ret Async.call Adoption.ask said Adoption.engine map_err ok_or app is_ok].
Ltac past x := split; [first [by left|done]|]; intros x; step.
Lemma payload_allowed previous context h0 u (c : call) : begun previous context h0 → of_payload c → Forall (λ e, of_payload (asked e)) u → adopter_may (h0 ++ u) c.
Proof. intros Hb Hc Hu. destruct c; try done; right; (split; [done|]); by exists h0, previous, context, u. Qed.
Definition locked_end h (r : result string unit) h' : Prop :=
  match r with
  | Ok _ => ∃ h0 y, saved h0 ∧ h' = h0 ++ [E SendEnrolled y]
  | Err _ => (∃ s c, h' = h ++ [E ReadState s; E ReadContext c]) ∨
      ∃ h0 previous context u current, begun previous context h0 ∧
        Forall (λ e, e ≠ E (Persistence true) (Ok tt) ∧ (of_payload (asked e) ∨ asked e = Persistence true)) u ∧
        h' = h0 ++ u ++ [E ReadContext current; E (WriteContext current) tt]
  end.
Lemma payload_history (u : history) : Forall (λ e, of_payload (asked e)) u →
  Forall (λ e, e ≠ E (Persistence true) (Ok tt) ∧ (of_payload (asked e) ∨ asked e = Persistence true)) u.
Proof. intros Hu. eapply Forall_impl; [exact Hu|]. intros e He. split; [by intros ->|by left]. Qed.
(** A part whose calls are all of one kind, seen from where it began. *)
Lemma wp_kind {X} (P : call → Prop) (q : Async.prog ans X) u : all_calls P q → Forall (λ e, P (asked e)) u →
  wp (λ u (c : call), P c ∧ Forall (λ e, P (asked e)) u) q u (λ r v, ∃ t, v = u ++ t ∧ runs q t (Some r) ∧ Forall (λ e, P (asked e)) t).
Proof.
  revert u. induction q as [x|c k IH]; intros u; cbn [wp all_calls].
  - intros _ _. exists []. by rewrite app_nil_r.
  - intros [Hc Hk] Hu. split; [done|]. intros y. eapply wp_mono; [apply IH; [apply Hk|]|].
    + apply Forall_app. split; [done|]. by constructor.
    + cbn. intros r h' (t & E & Hr & Ht). exists (Ev c y :: t). rewrite E, <- app_assoc. split; [done|]. split; [|by constructor].
      right. by exists y, t.
Qed.
Lemma locked_adopts h : ready h → wp adopter_may (adopt_locked adder_key p) h (locked_end h).
Proof.
  intros Hready. unfold adopt_locked. step. past s. past previous.
  destruct (begin_identity_adoption s previous) as [[s' context]|e] eqn:Hbegin; step.
  2: { left. exists s, previous. by rewrite <- app_assoc. }
  split; [exists h, s, previous, context; split_and!; [done..|by rewrite <- app_assoc]|]. intros []. step.
  split; [left; exists h, s, s', previous; split_and!; [done..|by rewrite <- !app_assoc]|]. intros []. step.
  match goal with |- wp _ _ ?h0 _ => assert (begun previous context h0) as Hb; [|generalize dependent h0] end.
  { exists h, s, s'. destruct (begin_closes _ _ _ _ Hbegin). split_and!; [done..|by rewrite <- !app_assoc]. }
  intros h0 Hb. apply (wp_bind (ans := ans)). rewrite <- (app_nil_r h0).
  eapply wp_mono; [eapply (wp_from _ (λ u (c : call), of_payload c ∧ Forall (λ e, of_payload (asked e)) u)); [|apply wp_kind; [apply all_of_payload|by constructor]]|].
  { intros u c [Hc Hu]. by eapply payload_allowed. }
  cbn. intros r h' (u' & -> & u & -> & Hr & Hu). cbn [app] in *. destruct r as [[]|e]; step.
  - assert (adopted previous context (h0 ++ u)) as Ha by by exists h0, u.
    split; [split; [done|by exists previous, context]|]. intros landed. step. past current.
    destruct landed as [[]|why]; step.
    + split; [right; left; exists (h0 ++ u), previous, context, current; split_and!; [done|by rewrite <- !app_assoc|done]|]. intros []. step.
      assert (∀ z, z = (h0 ++ u) ++ [E (Persistence true) (Ok tt); E ReadContext current; E (WriteContext (finish_identity_adoption current previous true)) tt] → stored z) as Hst.
      { intros z ->. by exists (h0 ++ u), previous, context, current. }
      split; [apply Hst; by rewrite <- !app_assoc|]. intros []. step.
      split; [eexists; split; [by apply Hst|by rewrite <- !app_assoc]|]. intros y. step.
      eexists _, y. split; [eexists; split; [by apply Hst|done]|]. by rewrite <- !app_assoc.
    + split; [right; right; exists h0, previous, context, (u ++ [E (Persistence true) (Err why)]); split; [done|by rewrite <- !app_assoc]|]. intros []. step.
      right. exists h0, previous, context, (u ++ [E (Persistence true) (Err why)]), current. split; [done|]. split; [|by rewrite <- !app_assoc].
      apply Forall_app. split; [by apply payload_history|]. constructor; [|done]. split; [|by right].
      intros H. by apply (f_equal (λ e : event, match e with Ev (Persistence _) (Ok _) => true | _ => false end)) in H.
  - past current. split; [right; right; exists h0, previous, context, u; split; [done|by rewrite <- !app_assoc]|]. intros []. step.
    right. exists h0, previous, context, u, current. split; [done|]. split; [by apply payload_history|by rewrite <- !app_assoc].
Qed.
Lemma enrollment_adopts : wp adopter_may (adopt_enrollment (Oid := Oid) (C := C) engine_seed me adder_key p) [] ended.
Proof.
  unfold adopt_enrollment. destruct (try_array 32 (name_key p)) as [k|] eqn:Hk; [|by left; constructor]. step.
  apply try_array_Some in Hk as [-> Hk].
  past ek. destruct ek as [key|]; [|left; by repeat constructor]. step.
  past s. destruct (coherent engine_seed me (seed s) adder_key p) as [[]|why] eqn:Hc; [|left; by repeat constructor]. step.
  past phase. destruct phase as [phase|why]; [|left; by repeat constructor]. step.
  assert (∀ u, u = (if quiet_phase phase then [] else [E MeetingInvalidate tt]) →
    wp adopter_may (locked SharingWrite (locked PersistenceWrite (adopt_locked adder_key p))) ([E EngineKey (Some key); E ReadState s; E MeetingStatus (Ok phase)] ++ u) ended) as Hrest.
  { intros u Hu. unfold locked. step. past g. past g'. destruct g, g'.
    match goal with |- wp _ _ ?h0 _ => assert (ready h0) as Hready; [|assert (Forall (λ e, harmless (asked e)) h0) as Hh; [|generalize dependent h0]] end.
    { exists key, s, phase, u. split; [by rewrite <- ?app_assoc|done]. }
    { destruct (quiet_phase phase); subst u; by repeat constructor. }
    intros h0 Hready Hh. do 2 apply (wp_bind (ans := ans)). eapply wp_mono; [by apply locked_adopts|].
    cbn. intros r h'. generalize (h0 ++ h'). clear h'. intros h' Hend. split; [by left|]. intros []. split; [by left|]. intros []. rewrite <- !app_assoc. cbn [app].
    destruct r as [[]|why]; cbn in Hend |- *.
    - destruct Hend as (z & y & Hz & ->). exists z, y. by rewrite <- !app_assoc.
    - destruct Hend as [(s' & c & ->)|(z & previous & context & u' & current & Hb & Hu' & ->)].
      + left. rewrite !Forall_app. split_and!; [done|by repeat constructor|by repeat constructor].
      + right. exists z, previous, context, u', current. split_and!; [done..|by rewrite <- !app_assoc]. }
  destruct (quiet_phase phase) eqn:Hquiet; step.
  - specialize (Hrest [] eq_refl). by rewrite app_nil_r in Hrest.
  - split; [by exists key, s, phase|]. intros []. by apply (Hrest [_]).
Qed.

(** C4: A joiner changes nothing before the enrollment proved coherent (its store
    key is a key, and the group its user-system document names is the one its
    contacts' root binding was signed for), the meeting that was under way, if any,
    is invalidated, after the same checks, and both locks are held; it gives up its own root seed and closes its identity before the first
    engine write; it writes to disk once, after every part of the payload was
    adopted, and sends its receipt only after that; and an adoption that fails once
    it began leaves the identity closed and no checkpoint of it. *)
Theorem adoption_checked_and_whole t r : runs (adopt_enrollment (Oid := Oid) (C := C) engine_seed me adder_key p) t r →
  (∀ t1 e t2, t = t1 ++ e :: t2 → adopter_may t1 (asked e)) ∧
  match r with Some r => ended r t | None => True end.
Proof. intros Hr. exact (wp_guards adopter_may _ [] ended t r enrollment_adopts Hr). Qed.
(** Both locks are held until the receipt has gone out: while it is on its way no
    checkpoint of this device is written. *)
Theorem receipt_under_lock t : runs (adopt_enrollment (Oid := Oid) (C := C) engine_seed me adder_key p) t (Some (Ok tt)) →
  ∃ u y, t = u ++ [E SendEnrolled y; E (Unlock PersistenceWrite) tt; E (Unlock SharingWrite) tt].
Proof.
  intros Hr. pose proof (wp_guards adopter_may _ [] ended t _ enrollment_adopts Hr) as [_ (u & y & _ & Ht)]. by exists u, y.
Qed.
End Facts.

(** ** A concrete enrollment *)
Module Concrete.
Import Crypto.Toy ToySigned History.Toy.
#[local] Existing Instance History.Toy.automerge.
Definition joiner : bytes := replicate 32 (byte_of 3).
Definition adder : bytes := replicate 32 (byte_of 4).
Definition root_seed : bytes := replicate 32 (byte_of 1).
Definition group0 : bytes := replicate 32 (byte_of 9).
(** The other device's documents, and an automerge that loads them from one byte. *)
Definition start : adoc := mkADoc Automerge.Toy.empty [] [] false.
Definition us_doc : result string adoc :=
  let d := History.mkDocument start [] ∅ [] in
  d ← Us.add_member (C := nat * nat) joiner "phone" 7 d; d ← Us.add_member (C := nat * nat) adder "laptop" 5 d;
  d ← Us.set_keyhive (C := nat * nat) group0 (replicate 32 (byte_of 2)) d; Ok (History.doc d).
Definition contacts_doc : result string adoc :=
  Ok (History.doc (bind_root (C := nat * nat) (sign_root_binding root_seed group0) (History.mkDocument start [] ∅ [])).1).
#[local] Instance loading : History.ChangeGraph adoc (nat * nat) := {|
  History.hash := chash;
  History.deps := History.deps (ChangeGraph := graph);
  History.is_empty := History.is_empty (ChangeGraph := graph);
  History.raw_bytes := chash;
  History.from_bytes := History.from_bytes (ChangeGraph := graph);
  History.new := start;
  History.set_actor := History.set_actor (ChangeGraph := graph);
  History.get_actor := who;
  History.get_changes := history;
  History.get_heads := History.get_heads (ChangeGraph := graph);
  History.apply_changes := History.apply_changes (ChangeGraph := graph);
  History.load_incremental := History.load_incremental (ChangeGraph := graph);
  History.merge := History.merge (ChangeGraph := graph);
  History.load b := match b with [Byte.x01] => us_doc | [Byte.x02] => contacts_doc | _ => Err "not a document"%string end;
  History.save := History.save (ChangeGraph := graph);
  History.commit := History.commit (ChangeGraph := graph);
  History.empty_commit := author;
  History.queued := History.queued (ChangeGraph := graph);
  History.bundled := History.bundled (ChangeGraph := graph);
|}.
Definition enrollment (us contacts : bytes) : Payload := mkPayload us [] [] group0 [] contacts [].
Definition device0 : @Persist.DeviceState unit unit :=
  mkState (IndexRow_fresh "device" 0) (Some (mkDek [])) None (Some (mkDevice "device" (Some root_seed) 0 Meta_default)) [] None None 0 0 false.
Record kernel := mkKernel { state : @Persist.DeviceState unit unit; context : IdentityContext; disk : result Error unit }.
Abbreviation ans := (@Adoption.ans unit unit).
Definition answers (w : kernel) (c : Adoption.call) : option (ans c * kernel) :=
  match c as c return option (ans c * kernel) with
  | ReadState => Some (state w, w)
  | ReadContext => Some (context w, w)
  | WriteState s => Some (tt, mkKernel s (context w) (disk w))
  | WriteContext c => Some (tt, mkKernel (state w) c (disk w))
  | Lock _ | Unlock _ | BindSession _ _ | PushContactsChanged | PushPersonalizationChanged | MeetingInvalidate => Some (tt, w)
  | EngineKey => Some (Some joiner, w)
  | ReadSessions => Some (∅, w)
  | MeetingStatus => Some (Ok Meeting.Idle, w)
  | AdoptUs _ _ _ | AdoptKeyhive _ _ | DocumentAdopt _ _ | AdoptShared _ | SendEnrolled => Some (Ok tt, w)
  | ImportInline _ _ => Some (Ok true, w)
  | ReadPersonal _ => Some (Ok None, w)
  | RefreshPersonalization => Some (Ok tt, w)
  | Persistence _ => Some (disk w, w)
  end.
Definition adopting_run (d : result Error unit) :=
  run_with answers (mkKernel device0 (mkContext 0 false) d)
    (adopt_enrollment (Oid := nat) (C := nat * nat) (VaultState := unit) (DriveSealed := unit) joiner joiner adder (enrollment [Byte.x01] [Byte.x02])).
Definition full : Error := Error_new Failed "disk".
Abbreviation ending := (ended (Oid := nat) (C := nat * nat) (VaultState := unit) (DriveSealed := unit) joiner joiner adder (enrollment [Byte.x01] [Byte.x02])).
Lemma adoption_checked_and_whole_witness : ending (Ok tt) (adopting_run (Ok tt)).1 ∧ ending (Err "disk"%string) (adopting_run (Err full)).1.
Proof.
  assert ((adopting_run (Ok tt)).2 = Some (Ok tt)) as Hd by (vm_compute; reflexivity).
  assert ((adopting_run (Err full)).2 = Some (Err "disk"%string)) as Hf by (vm_compute; reflexivity).
  pose proof (adoption_checked_and_whole joiner joiner adder (enrollment [Byte.x01] [Byte.x02]) _ _ (run_with_runs answers (mkKernel device0 (mkContext 0 false) (Ok tt)) _)) as [_ H].
  pose proof (adoption_checked_and_whole joiner joiner adder (enrollment [Byte.x01] [Byte.x02]) _ _ (run_with_runs answers (mkKernel device0 (mkContext 0 false) (Err full)) _)) as [_ H'].
  unfold adopting_run in *. rewrite Hd in H. rewrite Hf in H'. by split.
Defined.
End Concrete.
