(* ===== verification/Pairing.v ===== *)
(** * The pairing ceremony ([runtime/crates/kernel/src/pairing.rs])

    The shared cell ([Pairing]: phase, offer, session) and the tasks that work on
    it.  The code is single-threaded and asynchronous, so tasks interleave
    exactly at their awaits: a [task] is a ceremony suspended at one await, with
    the locals that are live there, and [resume] runs it to its next await.  The
    other device, the transport, the engine and the clock are the environment: an
    [input] says what it answered.  A trace records what was done. *)
From S2P Require Import Prelude Crypto Error Codes.

Definition OFFER_TTL_MS : Z := 120000.

Inductive Phase :=
| Idle
| Offering (code : bytes)
| Claiming
| AwaitingConfirm (sas : string)
| AwaitingPeer
| PhaseDone
| PhaseFailed (why : string).
#[export] Instance Phase_eq_dec : EqDecision Phase.
Proof. solve_decision. Defined.

(** [Offer]; [serial] numbers the offers of a device's life, a ghost. *)
Record Offer := mkOffer { token : bytes; expires : Z; claimed : bool; serial : nat }.

(** [Session]: [owner] stands for the transport, which is the task's own;
    [confirm] says whether the sender is still there.  The [cancelled] cell is in
    [cells] below, since tasks share it. *)
Record Session := mkSession { owner : nat; confirm : bool }.

Record Pairing := mkPairing { phase : Phase; offer : option Offer; session : option Session }.
Definition Pairing_default : Pairing := mkPairing Idle None None.

Section Pairing.
(** [Vec<(DocumentGrant, Vec<StoreItem>)>], carried and not read here. *)
Context {Shared : Type}.

Record Enrollment := mkEnrollment {
  us : bytes;
  keyhive : bytes;
  read_back : bytes;
  name_key : bytes;
  visor : bytes;
  contacts : bytes;
  shared : Shared;
}.

Inductive Frame :=
| Claim (token commit : bytes)
| Accept (nonce key : bytes) (petname : string) (card : bytes)
| Reveal (nonce : bytes)
| ConfirmJoin
| Enroll (e : Enrollment)
| Enrolled
| FrameRefused
| Cancel.

(** A suspended task, by the await it is at. *)
Inductive task :=
(* the exports, inside [tear_down_session] *)
| OfferTearing (torn : nat)
| ClaimTearing (torn : nat) (key token : bytes)
| CancelTearing (torn : nat)
(* [pairing_claim]'s task and [run_adder] *)
| Dialing (key token : bytes)
| SendingClaim (key token nonce_a : bytes)
| AwaitingAccept (key token nonce_a : bytes)
| SendingReveal (key token nonce_a nonce_j : bytes) (petname : string) (card : bytes)
| AdderConfirming (key : bytes) (petname : string) (card : bytes) (here there : bool)
| Granting (key : bytes) (petname : string) (card : bytes)
| SendingEnroll
| AwaitingReceipt
| Checkpointing
(* [pairing_join], [run_joiner] and [run_claimed] *)
| AwaitingClaim (adder_key : bytes)
| Refusing
| Burning
| BurnTearing (torn : nat)
| MakingCard (adder_key token commit : bytes)
| SendingAccept (adder_key token commit nonce_j : bytes)
| AwaitingReveal (adder_key token commit nonce_j : bytes)
| JoinerConfirming (adder_key : bytes)
| SendingConfirm (adder_key : bytes)
| AwaitingEnroll (adder_key : bytes)
| Adopting (adder_key : bytes) (e : Enrollment)
| SendingEnrolled.

(** What an await answers. *)
Inductive answer :=
| Sent (r : result string unit)
| Got (f : option Frame)
| Fired
| Dialed (r : result string bytes)
| EngineCard (r : result string bytes)
| EngineGranted (r : result string Enrollment)
| EngineDone (r : result string unit).

(** What the trace records. *)
Inductive act :=
| Announced (p : Phase)
| Sending (t : nat) (f : Frame)
| Closed (t : nat)
| OfferMinted (serial : nat) (token : bytes) (expires : Z)
| OfferClaimed (serial : nat) (by_ : nat) (now : Z) (expires : Z)
| ConfirmFired (t : nat) (shown : string)
| PeerConfirmed (t : nat)
| RevealChecked (t : nat) (commit nonce_a : bytes)
| GrantStarted (t : nat) (key : bytes) (petname : string)
| AdoptionStarted (t : nat) (e : Enrollment)
| Ended (t : nat) (outcome : result string unit)
| Replied (r : result Error bytes).

Record sys := mkSys {
  pairing : Pairing;
  cells : gset nat;
  tasks : gmap nat task;
  next : nat;
  offers : nat;
  trace : list act;
}.
Definition init : sys := mkSys Pairing_default ∅ ∅ 0 0 [].

(** What one step reads of the rest of the kernel, another at every step: the clock
    as it is then, and what is drawn in it (no step draws twice). *)
Record env := mkEnv {
  now : Z;
  entropy : nat → byte;
  open : result Error unit;
  engine : result Error unit;
  endpoint : bool;
  bind_error : option string;
  petname_of : string;
}.
Definition fill (e : env) (n : nat) : bytes := entropy e <$> seq 0 n.

(** ** State updates *)
Definition with_pairing (f : Pairing → Pairing) (σ : sys) : sys :=
  mkSys (f (pairing σ)) (cells σ) (tasks σ) (next σ) (offers σ) (trace σ).
Definition log (a : act) (σ : sys) : sys :=
  mkSys (pairing σ) (cells σ) (tasks σ) (next σ) (offers σ) (trace σ ++ [a]).
Definition park (t : nat) (k : task) (σ : sys) : sys :=
  mkSys (pairing σ) (cells σ) (<[t := k]> (tasks σ)) (next σ) (offers σ) (trace σ).
Definition drop_task (t : nat) (σ : sys) : sys :=
  mkSys (pairing σ) (cells σ) (delete t (tasks σ)) (next σ) (offers σ) (trace σ).
Definition set_offer (o : option Offer) : sys → sys :=
  with_pairing (λ p, mkPairing (phase p) o (session p)).
Definition set_session (s : option Session) : sys → sys :=
  with_pairing (λ p, mkPairing (phase p) (offer p) s).
Definition cancel_cell (t : nat) (σ : sys) : sys :=
  mkSys (pairing σ) ({[t]} ∪ cells σ) (tasks σ) (next σ) (offers σ) (trace σ).
Definition count_offer (σ : sys) : sys :=
  mkSys (pairing σ) (cells σ) (tasks σ) (next σ) (S (offers σ)) (trace σ).
(** A task of its own for a spawned future or a call that suspends. *)
Definition spawn (k : task) (σ : sys) : sys :=
  mkSys (pairing σ) (cells σ) (<[next σ := k]> (tasks σ)) (S (next σ)) (offers σ) (trace σ).

(** [set_phase] *)
Definition set_phase (ph : Phase) (σ : sys) : sys :=
  log (Announced ph) (with_pairing (λ p, mkPairing ph (offer p) (session p)) σ).

(** [send_frame(..)] started by [t], which then waits at [k]. *)
Definition send (t : nat) (f : Frame) (k : task) (σ : sys) : sys := park t k (log (Sending t f) σ).

(** [tear_down_session] up to its awaits: with no session it has none and [rest]
    runs on; with one, the caller waits at [wait]. *)
Definition tear_down (wait : nat → sys → sys) (rest : sys → sys) (σ : sys) : sys :=
  match session (pairing σ) with
  | None => rest σ
  | Some s => wait (owner s) (log (Sending (owner s) Cancel) (cancel_cell (owner s) (set_session None σ)))
  end.

(** [finish] *)
Definition finish (outcome : result string unit) (σ : sys) : sys :=
  match session (pairing σ) with
  | None => σ
  | Some s =>
    let σ := set_session None σ in
    if bool_decide (owner s ∈ cells σ) then σ else
    log (Closed (owner s))
      (set_phase (match outcome with Ok _ => PhaseDone | Err why => PhaseFailed why end) σ)
  end.

(** [bind_session]: never overwritten. *)
Definition bind_session (t : nat) (σ : sys) : option sys :=
  match session (pairing σ) with
  | Some _ => None
  | None => Some (set_session (Some (mkSession t true)) σ)
  end.
Definition already_pairing : string := "this device is already pairing".

(** The end of the adder's task: [kernel.finish(outcome)]. *)
Definition end_adder (t : nat) (outcome : result string unit) (σ : sys) : sys :=
  drop_task t (log (Ended t outcome) (finish outcome σ)).
(** The end of [claimed_ceremony] and of [pairing_join]: the offer is cleared. *)
Definition end_joiner (t : nat) (outcome : result string unit) (σ : sys) : sys :=
  drop_task t (log (Ended t outcome) (finish outcome (set_offer None σ))).

Definition cancelled_why : string := "the other device cancelled".
Definition gone : string := "the other device went away".
Definition out_of_order : string := "that device did not speak pairing".
Definition nonce32 (b : bytes) : result string bytes :=
  ok_or "that device sent a malformed nonce"%string (try_array 32 b).

(** A frame that is not the one expected. *)
Definition unexpected (f : option Frame) : string :=
  match f with
  | Some Cancel => cancelled_why
  | Some _ => out_of_order
  | None => gone
  end.

Context {b32 : Base32Visual} {blake : Blake3} (self_key : bytes).

(** ** The exports *)
Definition minted (e : env) (σ : sys) : sys :=
  let token := fill e 16 in
  let code := encode_code self_key token in
  let expires := saturating_add 64 (now e) OFFER_TTL_MS in
  log (Replied (Ok code)) (set_phase (Offering code)
    (log (OfferMinted (offers σ) token expires)
       (count_offer (set_offer (Some (mkOffer token expires false (offers σ))) σ)))).

Definition pairing_offer (e : env) (σ : sys) : sys :=
  match (_ ← open e; engine e) with
  | Err why => log (Replied (Err why)) σ
  | Ok _ =>
    if negb (endpoint e) then
      log (Replied (Err (Error_new Unavailable
        match bind_error e with
        | Some why => "this device has no endpoint: " +:+ why
        | None => "this device is still binding its endpoint; try again in a moment"
        end))) σ
    else tear_down (λ torn, spawn (OfferTearing torn)) (minted e) σ
  end.

(** After the tear-down of [pairing_claim]: the offer goes and the dial starts. *)
Definition dial (key token : bytes) (σ : sys) : sys :=
  spawn (Dialing key token) (log (Replied (Ok [])) (set_phase Claiming (set_offer None σ))).

Definition pairing_claim (e : env) (code : chars) (σ : sys) : sys :=
  match (_ ← open e; engine e) with
  | Err why => log (Replied (Err why)) σ
  | Ok _ =>
    if negb (endpoint e) then
      log (Replied (Err (Error_new Unavailable
        "this device is still binding its endpoint; try again in a moment"))) σ
    else match decode_code code with
    | Err why => log (Replied (Err (Error_new Refused why))) σ
    | Ok (key, token) =>
      if bool_decide (key = self_key)
      then log (Replied (Err (Error_new Refused "that is this device's own code"))) σ
      else tear_down (λ torn, spawn (ClaimTearing torn key token)) (dial key token) σ
    end
  end.

Definition pairing_confirm (e : env) (σ : sys) : sys :=
  match open e with
  | Err why => log (Replied (Err why)) σ
  | Ok _ =>
    match phase (pairing σ), session (pairing σ) with
    | AwaitingConfirm digits, Some (mkSession t true) =>
      log (Replied (Ok [])) (log (ConfirmFired t digits) (set_session (Some (mkSession t false)) σ))
    | _, _ => log (Replied (Err (Error_new Refused "there is nothing to confirm"))) σ
    end
  end.

Definition cancelled_now (σ : sys) : sys :=
  log (Replied (Ok [])) (set_phase Idle (set_offer None σ)).
Definition pairing_cancel (e : env) (σ : sys) : sys :=
  match open e with
  | Err why => log (Replied (Err why)) σ
  | Ok _ => tear_down (λ torn, spawn (CancelTearing torn)) cancelled_now σ
  end.

(** [pairing_status]: lapses an expired offer on the way past. *)
Definition pairing_status (e : env) (σ : sys) : sys * result Error Phase :=
  match open e with
  | Err why => (σ, Err why)
  | Ok _ =>
    let expired := match offer (pairing σ) with Some o => expires o <=? now e | None => false end in
    match phase (pairing σ) with
    | Offering _ =>
      if (expired : bool) then
        let lapsed := PhaseFailed "this code expired; make a new one" in
        (set_phase lapsed σ, Ok lapsed)
      else (σ, Ok (phase (pairing σ)))
    | ph => (σ, Ok ph)
    end
  end.

(** The accept loop: a pairing connection is answered only while an offer is
    open. *)
Definition pairing_offering (σ : sys) : bool := bool_decide (is_Some (offer (pairing σ))).
Definition accept (adder_key : bytes) (σ : sys) : sys :=
  if pairing_offering σ then spawn (AwaitingClaim adder_key) σ else σ.

(** ** The adder *)
Definition run_adder (e : env) (t : nat) (key token : bytes) (σ : sys) : sys :=
  match bind_session t σ with
  | None => end_adder t (Err already_pairing) σ
  | Some σ =>
    let nonce_a := fill e 32 in
    send t (Claim token (blake3 nonce_a)) (SendingClaim key token nonce_a) σ
  end.

Definition adder_accepted (t : nat) (joiner_key token nonce_a : bytes) (f : option Frame) (σ : sys) : sys :=
  match f with
  | Some (Accept nonce key petname card) =>
    if negb (bool_decide (key = joiner_key))
    then end_adder t (Err "that device answered for a different key"%string) σ
    else match nonce32 nonce with
    | Err why => end_adder t (Err why) σ
    | Ok nonce_j => send t (Reveal nonce_a) (SendingReveal joiner_key token nonce_a nonce_j petname card) σ
    end
  | Some FrameRefused =>
    end_adder t (Err "that code is spent or expired; ask that device for a new one"%string) σ
  | f => end_adder t (Err (unexpected f)) σ
  end.

(** One turn of the confirmation loop; a side that has confirmed only waits on
    the wire. *)
Definition adder_woke (t : nat) (key : bytes) (petname : string) (card : bytes) (here there : bool)
    (a : answer) (σ : sys) : option sys :=
  let again (here there : bool) σ :=
    if here && there then park t (Granting key petname card) (log (GrantStarted t key petname) σ)
    else park t (AdderConfirming key petname card here there) σ in
  match a with
  | Fired => if here then None else Some (again true there (if there then σ else set_phase AwaitingPeer σ))
  | Got (Some ConfirmJoin) => Some (again here true (log (PeerConfirmed t) σ))
  | Got f => Some (end_adder t (Err (unexpected f)) σ)
  | _ => None
  end.

(** ** The joiner *)
Inductive Verdict := Ignore | Refuse | Burn | Claimed (o : Offer).

Definition verdict (now : Z) (token' : bytes) (o : option Offer) : Verdict :=
  match o with
  | None => Ignore
  | Some o =>
    if negb (bool_decide (token' = token o)) then Ignore
    else if claimed o then Burn
    else if expires o <=? now then Refuse
    else Claimed o
  end.

(** [run_claimed] up to the engine's contact card. *)
Definition run_claimed (t : nat) (adder_key token commit : bytes) (σ : sys) : sys :=
  match bind_session t σ with
  | None => end_joiner t (Err already_pairing) σ
  | Some σ =>
    match try_array 16 token with
    | None => end_joiner t (Err "that code's token is malformed"%string) σ
    | Some token => park t (MakingCard adder_key token commit) σ
    end
  end.

(** [run_joiner] on the frame it reads. *)
Definition run_joiner (e : env) (t : nat) (adder_key : bytes) (f : option Frame) (σ : sys) : sys :=
  match f with
  | Some (Claim token' commit) =>
    match verdict (now e) token' (offer (pairing σ)) with
    | Ignore => drop_task t (log (Closed t) σ)
    | Refuse => send t FrameRefused Refusing σ
    | Burn => send t FrameRefused Burning σ
    | Claimed o =>
      let σ := set_offer (Some (mkOffer (token o) (expires o) true (serial o))) σ in
      run_claimed t adder_key token' commit (log (OfferClaimed (serial o) t (now e) (expires o)) σ)
    end
  | _ => drop_task t (log (Closed t) σ)
  end.

Definition burned (t : nat) (σ : sys) : sys :=
  drop_task t (set_phase (PhaseFailed "someone already tried this code; make a new one") (set_offer None σ)).

Definition joiner_revealed (t : nat) (adder_key token commit nonce_j : bytes) (f : option Frame) (σ : sys) : sys :=
  match f with
  | Some (Reveal nonce) =>
    match nonce32 nonce with
    | Err why => end_joiner t (Err why) σ
    | Ok nonce_a =>
      if negb (bool_decide (blake3 nonce_a = commit))
      then end_joiner t (Err "that device's nonce did not match what it committed to"%string) σ
      else park t (JoinerConfirming adder_key)
             (set_phase (AwaitingConfirm (sas token self_key adder_key nonce_j nonce_a))
                (log (RevealChecked t commit nonce_a) σ))
    end
  | f => end_joiner t (Err (unexpected f)) σ
  end.

Definition joiner_enrolled (t : nat) (adder_key : bytes) (f : option Frame) (σ : sys) : sys :=
  match f with
  | Some (Enroll e) =>
    match try_array 32 (name_key e) with
    | None => end_joiner t (Err "that device sent a malformed store key"%string) σ
    | Some _ => park t (Adopting adder_key e) (log (AdoptionStarted t e) σ)
    end
  | f => end_joiner t (Err (unexpected f)) σ
  end.

(** Running a task to its next await; [None] when the answer is not one that
    await can have. *)
Definition resume_export (e : env) (t : nat) (k : task) (a : answer) (σ : sys) : option sys :=
  match k, a with
  | OfferTearing s, Sent _ => Some (minted e (drop_task t (log (Closed s) σ)))
  | ClaimTearing s key token, Sent _ => Some (dial key token (drop_task t (log (Closed s) σ)))
  | CancelTearing s, Sent _ => Some (cancelled_now (drop_task t (log (Closed s) σ)))
  | _, _ => None
  end.

Definition resume_adder (e : env) (t : nat) (k : task) (a : answer) (σ : sys) : option sys :=
  match k, a with
  | Dialing key token, Dialed (Ok dialed) =>
    Some (if bool_decide (dialed = key) then run_adder e t key token σ
          else end_adder t (Err "that device answered with a different key"%string) σ)
  | Dialing _ _, Dialed (Err why) => Some (end_adder t (Err why) σ)
  | SendingClaim key token nonce_a, Sent (Ok _) => Some (park t (AwaitingAccept key token nonce_a) σ)
  | AwaitingAccept key token nonce_a, Got f => Some (adder_accepted t key token nonce_a f σ)
  | SendingReveal key token nonce_a nonce_j petname card, Sent (Ok _) =>
    match engine e with
    | Err why => Some (end_adder t (Err (message why)) σ)
    | Ok _ => Some (park t (AdderConfirming key petname card false false)
                      (set_phase (AwaitingConfirm (sas token key self_key nonce_j nonce_a)) σ))
    end
  | AdderConfirming key petname card here there, a => adder_woke t key petname card here there a σ
  | Granting _ _ _, EngineGranted (Ok g) => Some (send t (Enroll g) SendingEnroll σ)
  | Granting _ _ _, EngineGranted (Err why) => Some (end_adder t (Err why) σ)
  | (SendingClaim _ _ _ | SendingReveal _ _ _ _ _ _ | SendingEnroll), Sent (Err why) =>
    Some (end_adder t (Err why) σ)
  | SendingEnroll, Sent (Ok _) => Some (park t AwaitingReceipt σ)
  | AwaitingReceipt, Got _ => Some (park t Checkpointing σ)
  | Checkpointing, EngineDone r => Some (end_adder t r σ)
  | _, _ => None
  end.

Definition resume_joiner (e : env) (t : nat) (k : task) (a : answer) (σ : sys) : option sys :=
  match k, a with
  | AwaitingClaim adder_key, Got f => Some (run_joiner e t adder_key f σ)
  | Refusing, Sent _ => Some (drop_task t (log (Closed t) σ))
  | Burning, Sent _ =>
    Some (tear_down (λ torn, park t (BurnTearing torn)) (burned t) (log (Closed t) σ))
  | BurnTearing s, Sent _ => Some (burned t (log (Closed s) σ))
  | MakingCard adder_key token commit, EngineCard (Ok card) =>
    let nonce_j := fill e 32 in
    Some (send t (Accept nonce_j self_key (petname_of e) card)
            (SendingAccept adder_key token commit nonce_j) σ)
  | MakingCard _ _ _, EngineCard (Err why) => Some (end_joiner t (Err why) σ)
  | SendingAccept adder_key token commit nonce_j, Sent (Ok _) =>
    Some (park t (AwaitingReveal adder_key token commit nonce_j) σ)
  | AwaitingReveal adder_key token commit nonce_j, Got f =>
    Some (joiner_revealed t adder_key token commit nonce_j f σ)
  | JoinerConfirming adder_key, Fired => Some (send t ConfirmJoin (SendingConfirm adder_key) σ)
  | JoinerConfirming _, Got f => Some (end_joiner t (Err (unexpected f)) σ)
  | SendingConfirm adder_key, Sent (Ok _) => Some (park t (AwaitingEnroll adder_key) (set_phase AwaitingPeer σ))
  | (SendingAccept _ _ _ _ | SendingConfirm _), Sent (Err why) => Some (end_joiner t (Err why) σ)
  | AwaitingEnroll adder_key, Got f => Some (joiner_enrolled t adder_key f σ)
  | Adopting _ _, EngineDone (Ok _) => Some (send t Enrolled SendingEnrolled σ)
  | Adopting _ _, EngineDone (Err why) => Some (end_joiner t (Err why) σ)
  | SendingEnrolled, Sent _ => Some (end_joiner t (Ok ()) σ)
  | _, _ => None
  end.

Definition resume (e : env) (t : nat) (k : task) (a : answer) (σ : sys) : option sys :=
  match k with
  | OfferTearing _ | ClaimTearing _ _ _ | CancelTearing _ => resume_export e t k a σ
  | Dialing _ _ | SendingClaim _ _ _ | AwaitingAccept _ _ _ | SendingReveal _ _ _ _ _ _
  | AdderConfirming _ _ _ _ _ | Granting _ _ _ | SendingEnroll | AwaitingReceipt | Checkpointing =>
    resume_adder e t k a σ
  | _ => resume_joiner e t k a σ
  end.

(** ** Runs *)
Inductive input :=
| CallOffer
| CallClaim (code : chars)
| CallConfirm
| CallCancel
| CallStatus
| Inbound (adder_key : bytes)
| Resume (t : nat) (a : answer).

(** A confirmation reaches a task only once its sender fired. *)
Definition was_fired (t : nat) (a : act) : bool :=
  match a with ConfirmFired t' _ => bool_decide (t' = t) | _ => false end.
Definition fired (t : nat) (σ : sys) : bool := existsb (was_fired t) (trace σ).

Definition step (e : env) (σ : sys) (i : input) : option sys :=
  match i with
  | CallOffer => Some (pairing_offer e σ)
  | CallClaim code => Some (pairing_claim e code σ)
  | CallConfirm => Some (pairing_confirm e σ)
  | CallCancel => Some (pairing_cancel e σ)
  | CallStatus => Some (pairing_status e σ).1
  | Inbound adder_key => Some (accept adder_key σ)
  | Resume t a =>
    match tasks σ !! t, a with
    | None, _ => None
    | Some k, Fired => if fired t σ then resume e t k Fired σ else None
    | Some k, a => resume e t k a σ
    end
  end.

Fixpoint steps (l : list (env * input)) (σ : sys) : option sys :=
  match l with
  | [] => Some σ
  | (e, i) :: l => σ ← step e σ i; steps l σ
  end.

Inductive reachable : sys → Prop :=
| reach_init : reachable init
| reach_step σ e i σ' : reachable σ → step e σ i = Some σ' → reachable σ'.

Lemma pairing_steps_reachable l σ σ' : reachable σ → steps l σ = Some σ' → reachable σ'.
Proof.
  revert σ. induction l as [|[e i] l IH]; intros σ Hr; simpl; [by intros [= <-]|].
  destruct (step e σ i) as [σ1|] eqn:Hs; [|done]. apply IH. by eapply reach_step.
Qed.

(** ** Case analysis of a step

    [step_cases H] leaves one goal per path through the code, its updates still
    written with the primitives above. *)
Ltac step_cases H :=
  unfold step, pairing_offer, pairing_claim, pairing_confirm, pairing_cancel, pairing_status, accept, resume, resume_export,
    resume_adder, resume_joiner in H;
  repeat (first [progress simplify_eq | case_match]);
  unfold minted, dial, cancelled_now, burned, run_joiner, run_claimed, run_adder, adder_accepted, adder_woke,
    joiner_revealed, joiner_enrolled, tear_down, bind_session, end_adder, end_joiner, finish, send in *;
  repeat (first [progress simplify_eq | case_match]); cbn [fst] in *.

(** *** Every phase is announced *)
Fixpoint last_announced (p : Phase) (l : list act) : Phase :=
  match l with
  | [] => p
  | Announced p :: l => last_announced p l
  | _ :: l => last_announced p l
  end.
Definition announced (σ : sys) : Prop := last_announced Idle (trace σ) = phase (pairing σ).

Lemma last_announced_app p l a :
  last_announced p (l ++ [a]) = match a with Announced q => q | _ => last_announced p l end.
Proof. revert p. induction l as [|b l IH]; intros p; [by destruct a|]. destruct b; simpl; apply IH. Qed.

Lemma announced_log a σ : announced σ → match a with Announced _ => False | _ => True end → announced (log a σ).
Proof. unfold announced. simpl. rewrite last_announced_app. by destruct a. Qed.
Lemma announced_phase p σ : announced (set_phase p σ).
Proof. unfold announced. simpl. by rewrite last_announced_app. Qed.
Lemma announced_quiet σ σ' : announced σ → trace σ' = trace σ → phase (pairing σ') = phase (pairing σ) → announced σ'.
Proof. unfold announced. by intros H1 -> ->. Qed.

(** Every phase change reaches the visor: whatever the interleaving, the phase the
    cell holds is the last one that was announced. *)
Theorem phase_announced σ : reachable σ → announced σ.
Proof.
  induction 1 as [|σ e i σ' Hr IH Hs]; [done|]. step_cases Hs.
  all: try done; unfold announced in *; simpl; rewrite ?last_announced_app; simpl; congruence.
Qed.

(** *** Both confirmations *)
Definition did_confirm (l : list act) (t : nat) : Prop := ∃ digits, ConfirmFired t digits ∈ l.
Definition peer_confirmed (l : list act) (t : nat) : Prop := PeerConfirmed t ∈ l.
Definition reveal_checked (l : list act) (t : nat) : Prop := ∃ c n, RevealChecked t c n ∈ l.

(** What a suspended task has behind it. *)
Definition task_ok (l : list act) (t : nat) (k : task) : Prop :=
  match k with
  | AdderConfirming _ _ _ here there =>
    (here = true → did_confirm l t) ∧ (there = true → peer_confirmed l t)
  | Granting _ _ _ | SendingEnroll | AwaitingReceipt | Checkpointing => did_confirm l t ∧ peer_confirmed l t
  | JoinerConfirming _ => reveal_checked l t
  | SendingConfirm _ | AwaitingEnroll _ | Adopting _ _ | SendingEnrolled => did_confirm l t ∧ reveal_checked l t
  | _ => True
  end.
Definition act_ok (l : list act) (a : act) : Prop :=
  match a with
  | GrantStarted t _ _ => did_confirm l t ∧ peer_confirmed l t
  | AdoptionStarted t _ => did_confirm l t ∧ reveal_checked l t
  | RevealChecked _ c n => blake3 n = c
  | _ => True
  end.
Definition confirmed_first (σ : sys) : Prop :=
  (∀ t k, tasks σ !! t = Some k → task_ok (trace σ) t k) ∧ (∀ a, a ∈ trace σ → act_ok (trace σ) a).

Lemma did_confirm_more l a t : did_confirm l t → did_confirm (l ++ [a]) t.
Proof. intros [d Hd]. exists d. apply elem_of_app. by left. Qed.
Lemma peer_confirmed_more l a t : peer_confirmed l t → peer_confirmed (l ++ [a]) t.
Proof. intros Hd. apply elem_of_app. by left. Qed.
Lemma reveal_checked_more l a t : reveal_checked l t → reveal_checked (l ++ [a]) t.
Proof. intros (c & n & Hd). exists c, n. apply elem_of_app. by left. Qed.
Lemma peer_confirmed_now l t : peer_confirmed (l ++ [PeerConfirmed t]) t.
Proof. apply elem_of_app. right. by left. Qed.
Lemma reveal_checked_now l t c n : reveal_checked (l ++ [RevealChecked t c n]) t.
Proof. exists c, n. apply elem_of_app. right. by left. Qed.
Lemma pairing_fired_confirm t σ : fired t σ = true → did_confirm (trace σ) t.
Proof.
  unfold fired. intros (a & Ha & Hf)%existsb_exists. destruct a; try done. simpl in Hf.
  apply bool_decide_eq_true in Hf as ->. exists shown. by apply list_elem_of_In.
Qed.
Create HintDb confirm.
Local Hint Resolve did_confirm_more peer_confirmed_more reveal_checked_more peer_confirmed_now
  reveal_checked_now pairing_fired_confirm : confirm.

Lemma task_ok_more l a t k : task_ok l t k → task_ok (l ++ [a]) t k.
Proof. destruct k; simpl; naive_solver eauto with confirm. Qed.
Lemma act_ok_more l a b : act_ok l b → act_ok (l ++ [a]) b.
Proof. destruct b; simpl; naive_solver eauto with confirm. Qed.

Lemma confirmed_log a σ : confirmed_first σ → act_ok (trace σ) a → confirmed_first (log a σ).
Proof.
  intros [H1 H2] Ha. split; simpl.
  - intros t k Hk. by apply task_ok_more, H1.
  - intros b [Hb|Hb]%elem_of_app; apply act_ok_more; [by apply H2|]. apply list_elem_of_singleton in Hb. by subst.
Qed.
Lemma confirmed_park t k σ : confirmed_first σ → task_ok (trace σ) t k → confirmed_first (park t k σ).
Proof.
  intros [H1 H2] Hk. split; simpl; [|done]. intros t' k' [[<- <-]|[_ Ht]]%lookup_insert_Some; auto.
Qed.
Lemma confirmed_spawn k σ : confirmed_first σ → task_ok (trace σ) (next σ) k → confirmed_first (spawn k σ).
Proof.
  intros [H1 H2] Hk. split; simpl; [|done]. intros t' k' [[<- <-]|[_ Ht]]%lookup_insert_Some; auto.
Qed.
Lemma confirmed_drop t σ : confirmed_first σ → confirmed_first (drop_task t σ).
Proof. intros [H1 H2]. split; simpl; [|done]. intros t' k' [_ Ht]%lookup_delete_Some; auto. Qed.
Lemma confirmed_same f σ : tasks (f σ) = tasks σ → trace (f σ) = trace σ → confirmed_first σ → confirmed_first (f σ).
Proof. intros E1 E2 [H1 H2]. split; rewrite ?E1, ?E2; done. Qed.
Lemma confirmed_phase p σ : confirmed_first σ → confirmed_first (set_phase p σ).
Proof. intros Hc. apply confirmed_log; [by apply (confirmed_same (with_pairing _))|done]. Qed.

(** Through the updates of a path, outermost first. *)
Ltac confirmed :=
  repeat lazymatch goal with
    | |- confirmed_first (set_phase _ _) => apply confirmed_phase
    | |- confirmed_first (drop_task _ _) => apply confirmed_drop
    | |- confirmed_first (log _ _) => apply confirmed_log
    | |- confirmed_first (park _ _ _) => apply confirmed_park
    | |- confirmed_first (spawn _ _) => apply confirmed_spawn
    | |- confirmed_first (set_offer _ _) => apply (confirmed_same (set_offer _)); [done|done|]
    | |- confirmed_first (set_session _ _) => apply (confirmed_same (set_session _)); [done|done|]
    | |- confirmed_first (cancel_cell _ _) => apply (confirmed_same (cancel_cell _)); [done|done|]
    | |- confirmed_first (count_offer _) => apply (confirmed_same count_offer); [done|done|]
    end.

(** C5: No grant and no adoption without this side's confirmation: in every
    interleaving, the adder starts writing a joiner into the group only after its
    user confirmed that ceremony and the joiner confirmed it on its wire, and the
    joiner starts adopting a group only after its user confirmed that ceremony
    and the adder's revealed nonce matched the commitment in its claim. *)
Theorem confirmations_precede σ : reachable σ → confirmed_first σ.
Proof.
  induction 1 as [|σ e i σ' Hr IH Hs]; [split; [by intros ??[=]|by intros ? ?%elem_of_nil]|].
  step_cases Hs. all: try done. all: confirmed; try done.
  all: match goal with
       | IH : confirmed_first ?s, Hk : tasks ?s !! _ = Some _ |- _ => pose proof (proj1 IH _ _ Hk)
       end; simpl in *.
  all: repeat match goal with
       | Hb : _ && _ = true |- _ => apply andb_true_iff in Hb as [? ?]
       | Hb : negb _ = false |- _ => apply negb_false_iff, bool_decide_eq_true in Hb
       end.
  all: destruct_and?; repeat split; intros; try done; subst; eauto with confirm.
Qed.

(** *** One claim per offer *)
Definition claims (l : list act) : list nat :=
  omap (λ a, match a with OfferClaimed s _ _ _ => Some s | _ => None end) l.
Lemma claims_app l a :
  claims (l ++ [a]) = claims l ++ match a with OfferClaimed s _ _ _ => [s] | _ => [] end.
Proof. unfold claims. rewrite omap_app. f_equal. by destruct a. Qed.

Record single_claim (σ : sys) : Prop := {
  sc_once : NoDup (claims (trace σ));
  sc_past : ∀ s, s ∈ claims (trace σ) → (s < offers σ)%nat;
  sc_offer : ∀ o, offer (pairing σ) = Some o →
    (serial o < offers σ)%nat ∧ (claimed o = false → serial o ∉ claims (trace σ));
  sc_in_time : ∀ s t n x, OfferClaimed s t n x ∈ trace σ → n < x;
}.

Definition not_claim (a : act) : Prop := match a with OfferClaimed _ _ _ _ => False | _ => True end.

Lemma single_log a σ : not_claim a → single_claim σ → single_claim (log a σ).
Proof.
  intros Ha [H1 H2 H3 H4]. split; simpl; rewrite ?claims_app; destruct a; try done; rewrite ?app_nil_r; auto.
  all: intros s0 t0 n0 x0 [Hin|Hin%list_elem_of_singleton]%elem_of_app; [by eapply H4|done].
Qed.
Lemma single_same f σ :
  trace (f σ) = trace σ → offers (f σ) = offers σ → offer (pairing (f σ)) = offer (pairing σ) →
  single_claim σ → single_claim (f σ).
Proof. intros E1 E2 E3 [H1 H2 H3 H4]. split; rewrite ?E1, ?E2, ?E3; done. Qed.
Lemma single_phase p σ : single_claim σ → single_claim (set_phase p σ).
Proof. intros Hc. apply single_log; [done|]. by apply (single_same (with_pairing _)). Qed.
Lemma single_no_offer σ : single_claim σ → single_claim (set_offer None σ).
Proof. intros [H1 H2 H3 H4]. by split. Qed.

(** A new offer has a serial of its own. *)
Lemma single_mint tok x σ :
  single_claim σ → single_claim (count_offer (set_offer (Some (mkOffer tok x false (offers σ))) σ)).
Proof.
  intros [H1 H2 H3 H4]. split; simpl; [done| | |done].
  - intros s Hs. specialize (H2 s Hs). lia.
  - intros o [= <-]. simpl. split; [lia|]. intros _ Hs. specialize (H2 _ Hs). lia.
Qed.

(** The claim: the offer was open, and is spent at once. *)
Lemma single_claimed o t n σ :
  single_claim σ → offer (pairing σ) = Some o → claimed o = false → n < expires o →
  single_claim (log (OfferClaimed (serial o) t n (expires o))
    (set_offer (Some (mkOffer (token o) (expires o) true (serial o))) σ)).
Proof.
  intros [H1 H2 H3 H4] Ho Hc Hn. destruct (H3 o Ho) as [Hlt Hnew]. split; simpl; rewrite ?claims_app.
  - apply NoDup_app. split_and!; [done| |apply NoDup_singleton].
    intros s Hs ->%list_elem_of_singleton. by apply Hnew.
  - intros s [Hs| ->%list_elem_of_singleton]%elem_of_app; auto.
  - intros o' [= <-]. simpl. by split.
  - intros s t' n' x [Hs|[= -> -> -> ->]%list_elem_of_singleton]%elem_of_app; [by eapply H4|done].
Qed.

Lemma pairing_verdict_claimed n tok o' o : verdict n tok o' = Claimed o → o' = Some o ∧ claimed o = false ∧ n < expires o.
Proof.
  unfold verdict. destruct o' as [q|]; [|done]. case_match; [done|]. destruct (claimed q) eqn:E; [done|].
  destruct (Z.leb_spec (expires q) n); [done|]. by intros [= <-].
Qed.

Ltac single :=
  repeat lazymatch goal with
    | |- single_claim (set_phase _ _) => apply single_phase
    | |- single_claim (count_offer (set_offer _ _)) => apply single_mint
    | |- single_claim (log (OfferClaimed _ _ _ _) (set_offer _ _)) => eapply single_claimed
    | |- single_claim (log _ _) => apply single_log; [exact I|]
    | |- single_claim (drop_task ?t _) => apply (single_same (drop_task t)); [done|done|done|]
    | |- single_claim (park ?t ?k _) => apply (single_same (park t k)); [done|done|done|]
    | |- single_claim (spawn ?k _) => apply (single_same (spawn k)); [done|done|done|]
    | |- single_claim (set_session ?s _) => apply (single_same (set_session s)); [done|done|done|]
    | |- single_claim (cancel_cell ?t _) => apply (single_same (cancel_cell t)); [done|done|done|]
    | |- single_claim (set_offer None _) => apply single_no_offer
    end.

(** C33: A code is claimed at most once, and only while it stands: across every
    interleaving of dials, exports and the clock, each offer minted is bound by at
    most one connection, before it expired. *)
Theorem offers_claimed_once σ : reachable σ → single_claim σ.
Proof.
  induction 1 as [|σ e i σ' Hr IH Hs].
  { split; [by apply NoDup_nil|by intros ? ?%elem_of_nil|done|by intros ???? ?%elem_of_nil]. }
  step_cases Hs. all: try done. all: single; try done.
  all: match goal with Hv : verdict _ _ _ = Claimed _ |- _ => by apply pairing_verdict_claimed in Hv as (? & ? & ?) end.
Qed.

(** *** The session is a running ceremony's *)

(** The awaits after [bind_session]. *)
Definition bound (k : task) : bool :=
  match k with
  | OfferTearing _ | ClaimTearing _ _ _ | CancelTearing _ | Dialing _ _
  | AwaitingClaim _ | Refusing | Burning | BurnTearing _ => false
  | _ => true
  end.
Definition live_session (σ : sys) : Prop :=
  (∀ t, is_Some (tasks σ !! t) → (t < next σ)%nat) ∧
  ∀ s, session (pairing σ) = Some s → ∃ k, tasks σ !! owner s = Some k ∧ bound k = true.

Lemma ids_insert (m : gmap nat task) n t k :
  (∀ t, is_Some (m !! t) → (t < n)%nat) → (t < n)%nat → ∀ t', is_Some (<[t := k]> m !! t') → (t' < n)%nat.
Proof. intros Hm Ht t' [->|[_ ?]]%lookup_insert_is_Some; auto. Qed.
Lemma ids_next (m : gmap nat task) n k :
  (∀ t, is_Some (m !! t) → (t < n)%nat) → ∀ t', is_Some (<[n := k]> m !! t') → (t' < S n)%nat.
Proof. intros Hm t' [->|[_ Ht]]%lookup_insert_is_Some; [lia|]. specialize (Hm _ Ht). lia. Qed.
Lemma ids_delete (m : gmap nat task) n t :
  (∀ t, is_Some (m !! t) → (t < n)%nat) → ∀ t', is_Some (delete t m !! t') → (t' < n)%nat.
Proof. intros Hm t' [_ ?]%lookup_delete_is_Some; auto. Qed.
Create HintDb ids.
Local Hint Resolve ids_insert ids_next ids_delete : ids.

Definition running (m : gmap nat task) (t : nat) : Prop := ∃ k, m !! t = Some k ∧ bound k = true.
Lemma running_insert m t t' k : running m t → bound k = true → running (<[t' := k]> m) t.
Proof.
  intros (k0 & Hk & Hb) Hb'. unfold running. destruct (decide (t' = t)) as [->|Hne].
  - rewrite lookup_insert_eq. eauto.
  - rewrite lookup_insert_ne by done. eauto.
Qed.
Lemma running_other m t t' k k' : running m t → m !! t' = Some k' → bound k' = false →
  running (<[t' := k]> m) t ∧ running (delete t' m) t.
Proof.
  intros (k0 & Hk & Hb) Hk' Hb'. assert (t' ≠ t) by congruence.
  split; exists k0; by rewrite ?lookup_insert_ne, ?lookup_delete_ne.
Qed.
Lemma running_next m t n k : running m t → (∀ t, is_Some (m !! t) → (t < n)%nat) → running (<[n := k]> m) t.
Proof.
  intros (k0 & Hk & Hb) Hm. assert (t < n)%nat by (apply Hm; eauto). exists k0.
  rewrite lookup_insert_ne by lia. done.
Qed.

(** A device is never left busy: whatever the interleaving, the session in the
    cell belongs to a ceremony that is still running past its binding, so it is
    cleared when that ceremony ends, and [bind_session] refuses only while a
    ceremony is under way. *)
Theorem session_is_live σ : reachable σ → live_session σ.
Proof.
  induction 1 as [|σ e i σ' Hr IH Hs]; [split; [by intros t [? [=]]|done]|].
  step_cases Hs. all: try done.
  all: destruct IH as [Hid Hown]; split; simpl in *.
  all: try by eauto with ids.
  all: intros s0 Hs0; try discriminate Hs0.
  all: try (injection Hs0 as <-; simpl; eexists; split; [apply lookup_insert_eq|reflexivity]).
  all: try by match goal with
       | Hs : session _ = Some _ |- _ => injection Hs0 as <-; exact (Hown _ Hs)
       end.
  all: try congruence.
  all: pose proof (Hown s0 Hs0) as Hrun; try exact Hrun; try (by apply running_insert).
  all: try match goal with
       | Hk : tasks _ !! ?t = Some _ |- _ =>
         (by apply (running_other _ _ t _ _ Hrun Hk)) || (by apply (running_other _ _ t Refusing _ Hrun Hk)) ||
         (apply (running_next (delete t _)); [by apply (running_other _ _ t Refusing _ Hrun Hk)|by apply ids_delete])
       end.
  all: try by apply running_next.
Qed.
End Pairing.
