(* ===== verification/PairingRuns.v ===== *)
(** * Whole pairing ceremonies ([runtime/crates/kernel/src/pairing.rs])

    Two devices running [Pairing] against each other, and the interleavings in
    which a ceremony that was replaced still acts on the shared cell. *)
From S2P Require Import Prelude Crypto Error Codes Pairing.

(** An act of a concrete trace. *)
Ltac in_trace := apply list_elem_of_In; repeat first [left; reflexivity | right].

(** ** An honest ceremony *)
Section Honest.
Context {Shared : Type} {b32 : Base32Visual} {blake : Blake3}.
Abbreviation sys := (@sys Shared).

Lemma length_env_fill e n : length (fill e n) = n.
Proof. unfold fill. by rewrite length_fmap, length_seq. Qed.

Lemma step_resume key e t a k l (σ σ' : sys) :
  tasks σ !! t = Some k → a ≠ Fired → resume key e t k a σ = Some σ' →
  steps key ((e, Resume t a) :: l) σ = steps key l σ'.
Proof. intros Hk Ha Hr. simpl. rewrite Hk. by destruct a; rewrite ?Hr. Qed.
Lemma step_fired key e t k l (σ σ' : sys) :
  tasks σ !! t = Some k → fired t σ = true → resume key e t k Fired σ = Some σ' →
  steps key ((e, Resume t Fired) :: l) σ = steps key l σ'.
Proof. intros Hk Hf Hr. simpl. by rewrite Hk, Hf, Hr. Qed.
Lemma step_call key e i l (σ σ' : sys) : step key e σ i = Some σ' → steps key ((e, i) :: l) σ = steps key l σ'.
Proof. simpl. by intros ->. Qed.

(** A device whose exports work, at each of its steps; the clock and the entropy
    may be others at every one of them. *)
Definition ready (e : nat → env) : Prop := ∀ i, open (e i) = Ok () ∧ engine (e i) = Ok () ∧ endpoint (e i) = true.

(** The joiner up to its digits, and from its confirmation to the end; its [i]-th
    step is taken in the environment [e i]. *)
Definition joiner_shows (e : nat → env) (kA commit nonce_a card : bytes) : list (env * @input Shared) :=
  [(e 0, CallOffer); (e 1, Inbound kA);
   (e 2, Resume 0 (Got (Some (Claim (fill (e 0) 16) commit))));
   (e 3, Resume 0 (EngineCard (Ok card)));
   (e 4, Resume 0 (Sent (Ok ())));
   (e 5, Resume 0 (Got (Some (Reveal nonce_a))))]%nat.
Definition joiner_joins (e : nat → env) (g : @Enrollment Shared) : list (env * @input Shared) :=
  [(e 6, CallConfirm); (e 7, Resume 0 Fired); (e 8, Resume 0 (Sent (Ok ())));
   (e 9, Resume 0 (Got (Some (Enroll g)))); (e 10, Resume 0 (EngineDone (Ok ()))); (e 11, Resume 0 (Sent (Ok ())))]%nat.

(** The adder's halves. *)
Definition adder_shows (e : nat → env) (kJ token nonce_j : bytes) (petname : string) (card : bytes)
  : list (env * @input Shared) :=
  [(e 0, CallClaim (ascii_chars (encode_code kJ token)));
   (e 1, Resume 0 (Dialed (Ok kJ))); (e 2, Resume 0 (Sent (Ok ())));
   (e 3, Resume 0 (Got (Some (Accept nonce_j kJ petname card))));
   (e 4, Resume 0 (Sent (Ok ())))]%nat.
Definition adder_grants (e : nat → env) (g : @Enrollment Shared) : list (env * @input Shared) :=
  [(e 5, CallConfirm); (e 6, Resume 0 Fired); (e 7, Resume 0 (Got (Some ConfirmJoin)));
   (e 8, Resume 0 (EngineGranted (Ok g))); (e 9, Resume 0 (Sent (Ok ())));
   (e 10, Resume 0 (Got (Some Enrolled))); (e 11, Resume 0 (EngineDone (Ok ())))]%nat.
(** The joiner's offer is claimed while it lives. *)
Definition in_time (e : nat → env) : Prop := now (e 2%nat) < saturating_add 64 (now (e 0%nat)) OFFER_TTL_MS.

Lemma joiner_runs kJ kA (e : nat → env) nA card g :
  ready e → in_time e → length nA = 32%nat → length (name_key g) = 32%nat →
  ∃ σ σ', steps kJ (joiner_shows e kA (blake3 nA) nA card) init = Some σ ∧
    phase (pairing σ) = AwaitingConfirm (sas (fill (e 0%nat) 16) kJ kA (fill (e 3%nat) 32) nA) ∧
    Sending 0 (Accept (fill (e 3%nat) 32) kJ (petname_of (e 3%nat)) card) ∈ trace σ ∧
    steps kJ (joiner_joins e g) σ = Some σ' ∧
    phase (pairing σ') = PhaseDone ∧ offer (pairing σ') = None ∧ session (pairing σ') = None ∧
    Sending 0 ConfirmJoin ∈ trace σ' ∧ AdoptionStarted 0 g ∈ trace σ'.
Proof.
  intros He Ht Hn Hg. destruct (He 0%nat) as (Ho & Hen & Hep). destruct (He 6%nat) as (Ho6 & _ & _).
  set (tok := fill (e 0%nat) 16). set (o := mkOffer tok (saturating_add 64 (now (e 0%nat)) OFFER_TTL_MS) false 0).
  assert (Hv : verdict (now (e 2%nat)) tok (Some o) = Claimed o).
  { unfold verdict. cbn [token claimed expires o]. rewrite bool_decide_true by done. cbn [negb].
    by rewrite (proj2 (Z.leb_gt _ _) Ht). }
  set (σ1 := minted (Shared := Shared) kJ (e 0%nat) init). set (σ2 := spawn (AwaitingClaim kA) σ1).
  set (σ3 := log (OfferClaimed 0 0 (now (e 2%nat)) (expires o)) (set_offer (Some (mkOffer (token o) (expires o) true 0)) σ2)).
  assert (Hjoin : run_joiner (e 2%nat) 0 kA (Some (Claim tok (blake3 nA))) σ2 =
    park 0 (MakingCard kA tok (blake3 nA)) (set_session (Some (mkSession 0 true)) σ3)).
  { unfold run_joiner. change (offer (pairing σ2)) with (Some o). rewrite Hv. unfold run_claimed, bind_session.
    change (session (pairing _)) with (@None Session). cbv iota. by rewrite try_array_exact by apply length_env_fill. }
  eexists _, _. split; [|split; [|split; [|split; [|split]]]].
  - unfold joiner_shows.
    erewrite step_call. 2: { cbn [step]. unfold pairing_offer. rewrite Ho, Hen, Hep. reflexivity. }
    erewrite step_call. 2: { reflexivity. }
    erewrite (step_resume _ _ _ _ (AwaitingClaim kA)). 2: { reflexivity. } 2: { done. } 2: { exact (f_equal Some Hjoin). }
    erewrite (step_resume _ _ _ _ (MakingCard kA tok (blake3 nA))). 2: { reflexivity. } 2: { done. } 2: { reflexivity. }
    erewrite step_resume. 2: { reflexivity. } 2: { done. } 2: { reflexivity. }
    erewrite step_resume. 2: { reflexivity. } 2: { done. }
    2: { cbn [resume resume_adder resume_joiner]. unfold joiner_revealed, nonce32. rewrite try_array_exact by done. cbn [ok_or].
         rewrite bool_decide_true by done. reflexivity. }
    reflexivity.
  - reflexivity.
  - in_trace.
  - unfold joiner_joins.
    erewrite step_call. 2: { cbn [step]. unfold pairing_confirm. rewrite Ho6. reflexivity. }
    erewrite step_fired. 2: { reflexivity. } 2: { reflexivity. } 2: { reflexivity. }
    erewrite step_resume. 2: { reflexivity. } 2: { done. } 2: { reflexivity. }
    erewrite step_resume. 2: { reflexivity. } 2: { done. }
    2: { cbn [resume resume_adder resume_joiner]. unfold joiner_enrolled. rewrite try_array_exact by done. reflexivity. }
    erewrite step_resume. 2: { reflexivity. } 2: { done. } 2: { reflexivity. }
    erewrite step_resume. 2: { reflexivity. } 2: { done. } 2: { reflexivity. }
    reflexivity.
  - reflexivity.
  - split_and!; try reflexivity; in_trace.
Qed.

Lemma adder_runs kA kJ (e : nat → env) token nJ petname card g :
  ready e → length kJ = 32%nat → kJ ≠ kA → length token = 16%nat → length nJ = 32%nat →
  ∃ σ σ', steps kA (adder_shows e kJ token nJ petname card) init = Some σ ∧
    phase (pairing σ) = AwaitingConfirm (sas token kJ kA nJ (fill (e 1%nat) 32)) ∧
    Sending 0 (Claim token (blake3 (fill (e 1%nat) 32))) ∈ trace σ ∧ Sending 0 (Reveal (fill (e 1%nat) 32)) ∈ trace σ ∧
    steps kA (adder_grants e g) σ = Some σ' ∧
    phase (pairing σ') = PhaseDone ∧ session (pairing σ') = None ∧
    GrantStarted 0 kJ petname ∈ trace σ' ∧ Sending 0 (Enroll g) ∈ trace σ'.
Proof.
  intros He Hk Hne Ht Hn. destruct (He 0%nat) as (Ho & Hen & Hep). destruct (He 4%nat) as (_ & Hen4 & _). destruct (He 5%nat) as (Ho5 & _ & _).
  eexists _, _. split; [|split; [|split; [|split; [|split]]]].
  - unfold adder_shows.
    erewrite step_call.
    2: { cbn [step]. unfold pairing_claim. rewrite Ho, Hen, Hep. cbn [mbind result_bind negb].
         rewrite decode_encode_code, bool_decide_false by done. reflexivity. }
    erewrite step_resume. 2: { reflexivity. } 2: { done. }
    2: { cbn [resume resume_adder resume_joiner]. rewrite bool_decide_true by done. reflexivity. }
    erewrite step_resume. 2: { reflexivity. } 2: { done. } 2: { reflexivity. }
    erewrite step_resume. 2: { reflexivity. } 2: { done. }
    2: { cbn [resume resume_adder resume_joiner]. unfold adder_accepted. rewrite bool_decide_true by done. cbn [negb].
         unfold nonce32. rewrite try_array_exact by done. reflexivity. }
    erewrite step_resume. 2: { reflexivity. } 2: { done. } 2: { cbn [resume resume_adder resume_joiner]. rewrite Hen4. reflexivity. }
    reflexivity.
  - reflexivity.
  - in_trace.
  - in_trace.
  - unfold adder_grants.
    erewrite step_call. 2: { cbn [step]. unfold pairing_confirm. rewrite Ho5. reflexivity. }
    erewrite step_fired. 2: { reflexivity. } 2: { reflexivity. } 2: { reflexivity. }
    do 5 (erewrite step_resume; [|reflexivity|done|reflexivity]).
    reflexivity.
  - split_and!; try reflexivity; in_trace.
Qed.

(** C34: Two honest devices pair.  Run the joiner and the adder against each other, each
    frame one sends being the one the other receives, with any keys and contact
    card, and with any clock and any draw at every step of either, so long as the
    claim arrives before the offer expires: both come to show the same six digits,
    those of the transcript of their two keys, the token and the two nonces that
    were drawn; and when both users confirm, the adder has granted the joiner's
    key, the joiner has adopted the enrollment it was sent, both report done and
    neither keeps a session or a live code. *)
Theorem honest_ceremony kJ kA (eJ eA : nat → env) card g :
  ready eJ → ready eA → in_time eJ → length kJ = 32%nat → kJ ≠ kA → length (name_key g) = 32%nat →
  let token := fill (eJ 0%nat) 16 in
  let nJ := fill (eJ 3%nat) 32 in
  let nA := fill (eA 1%nat) 32 in
  let petname := petname_of (eJ 3%nat) in
  let digits := sas token kJ kA nJ nA in
  ∃ σJ σA σJ' σA',
    steps kJ (joiner_shows eJ kA (blake3 nA) nA card) init = Some σJ ∧
    steps kA (adder_shows eA kJ token nJ petname card) init = Some σA ∧
    phase (pairing σJ) = AwaitingConfirm digits ∧ phase (pairing σA) = AwaitingConfirm digits ∧
    (* every frame one receives is one the other sent *)
    Sending 0 (Claim token (blake3 nA)) ∈ trace σA ∧ Sending 0 (Accept nJ kJ petname card) ∈ trace σJ ∧
    Sending 0 (Reveal nA) ∈ trace σA ∧ Sending 0 ConfirmJoin ∈ trace σJ' ∧ Sending 0 (Enroll g) ∈ trace σA' ∧
    steps kJ (joiner_joins eJ g) σJ = Some σJ' ∧ steps kA (adder_grants eA g) σA = Some σA' ∧
    phase (pairing σJ') = PhaseDone ∧ phase (pairing σA') = PhaseDone ∧
    session (pairing σJ') = None ∧ session (pairing σA') = None ∧ offer (pairing σJ') = None ∧
    GrantStarted 0 kJ petname ∈ trace σA' ∧ AdoptionStarted 0 g ∈ trace σJ'.
Proof.
  intros HJ HA Ht Hk Hne Hg token nJ nA petname digits.
  destruct (joiner_runs kJ kA eJ nA card g HJ Ht (length_env_fill _ 32) Hg) as
    (σJ & σJ' & J1 & J2 & J3 & J4 & J5 & J6 & J7 & J8 & J9).
  destruct (adder_runs kA kJ eA token nJ petname card g HA Hk Hne (length_env_fill _ 16) (length_env_fill _ 32)) as
    (σA & σA' & A1 & A2 & A3 & A4 & A5 & A6 & A7 & A8 & A9).
  by exists σJ, σA, σJ', σA'.
Qed.
End Honest.

(** ** Ceremonies that were replaced *)
Section Replaced.
Import Toy.
Definition key0 : bytes := be_bytes 32 1.
Definition keyX : bytes := be_bytes 32 2.
Definition keyY : bytes := be_bytes 32 3.
Definition env0 : env := mkEnv 1000 (λ i, byte_of (Z.of_nat i)) (Ok ()) (Ok ()) true None "able".
Definition claim_of (key : bytes) : env * @input unit :=
  (env0, CallClaim (ascii_chars (encode_code key (be_bytes 16 9)))).
Definition go (t : nat) (a : @answer unit) : env * @input unit := (env0, Resume t a).
Definition outcome (l : list (env * @input unit)) : option (@sys unit) := steps key0 l init.

(** A claim on X, cancelled while it waits, then a claim on Y that is bound; then
    X's wire ends. *)
Definition cancel_then_claim : list (env * @input unit) :=
  [claim_of keyX; go 0 (Dialed (Ok keyX)); go 0 (Sent (Ok ())); (env0, CallCancel); go 1 (Sent (Ok ()));
   claim_of keyY; go 2 (Dialed (Ok keyY)); go 2 (Sent (Ok ())); go 0 (Got None)].

(** The wire of a cancelled ceremony going quiet ends the ceremony that replaced
    it: [finish] takes whatever session is in the cell, and the [cancelled] flag
    it consults is the new session's. *)
Theorem stale_finish_ends_new_session :
  ∃ σ, outcome cancel_then_claim = Some σ ∧
    Ended 0 (Err gone) ∈ trace σ ∧ Closed 2 ∈ trace σ ∧ phase (pairing σ) = PhaseFailed gone ∧
    session (pairing σ) = None ∧ is_Some (tasks σ !! 2%nat) ∧ 2%nat ∉ cells σ.
Proof.
  eexists. split; [vm_compute; reflexivity|]. split_and!; [in_trace|in_trace|reflexivity|reflexivity|by eexists|].
  by apply (bool_decide_unpack _).
Qed.

(** The joiner's reveal is already queued when the user cancels. *)
Definition cancel_before_reveal : list (env * @input unit) :=
  [(env0, CallOffer); (env0, Inbound keyX); go 0 (Got (Some (Claim (fill env0 16) (blake3 (be_bytes 32 5)))));
   go 0 (EngineCard (Ok [])); go 0 (Sent (Ok ())); (env0, CallCancel); go 1 (Sent (Ok ()));
   go 0 (Got (Some (Reveal (be_bytes 32 5)))); (env0, CallConfirm); go 0 (Got None)].

(** A cancelled ceremony can leave its digits on the screen: the phase stays at
    awaiting-confirm, with no session, nothing to confirm and no task left to
    move it. *)
Theorem cancel_leaves_digits :
  ∃ σ, outcome cancel_before_reveal = Some σ ∧
    (∃ digits, phase (pairing σ) = AwaitingConfirm digits) ∧ session (pairing σ) = None ∧ tasks σ = ∅.
Proof. eexists. split; [vm_compute; reflexivity|]. split_and!; [by eexists|reflexivity|reflexivity]. Qed.

(** A new offer is minted while a claimed ceremony is still unwinding. *)
Definition offer_again : list (env * @input unit) :=
  [(env0, CallOffer); (env0, Inbound keyX); go 0 (Got (Some (Claim (fill env0 16) [])));
   (env0, CallOffer); go 1 (Sent (Ok ())); go 0 (EngineCard (Err "gone"%string))].

(** Every exit of a claimed ceremony clears the offer, and it may not be the offer
    it claimed: the code on the screen is then one this device no longer
    answers. *)
Theorem stale_ceremony_clears_new_offer :
  ∃ σ, outcome offer_again = Some σ ∧
    (∃ code, phase (pairing σ) = Offering code) ∧ offer (pairing σ) = None ∧ offers σ = 2%nat ∧
    (∀ adder, accept adder σ = σ).
Proof. eexists. split; [vm_compute; reflexivity|]. split_and!; [by eexists|reflexivity..]. Qed.

Definition enrollment0 : @Enrollment unit := mkEnrollment [] [] [] (be_bytes 32 4) [] [] ().

(** Devices whose clock moves and whose draws differ from step to step. *)
Definition moving (seed : Z) (i : nat) : env :=
  mkEnv (1000 + 7 * Z.of_nat i) (λ j, byte_of (seed + 40 * Z.of_nat i + Z.of_nat j)) (Ok ()) (Ok ()) true None "able".
Lemma honest_ceremony_witness :
  ∃ σJ σA : @sys unit, steps keyX (joiner_shows (moving 0) key0 (blake3 (fill (moving 3 1) 32)) (fill (moving 3 1) 32) []) init = Some σJ ∧
    steps key0 (adder_shows (moving 3) keyX (fill (moving 0 0) 16) (fill (moving 0 3) 32) "able" []) init = Some σA ∧
    phase (pairing σJ) = phase (pairing σA).
Proof.
  destruct (honest_ceremony keyX key0 (moving 0) (moving 3) [] enrollment0) as (σJ & σA & σJ' & σA' & HJ & HA & PJ & PA & _).
  - by repeat split.
  - by repeat split.
  - vm_compute. reflexivity.
  - reflexivity.
  - vm_compute. discriminate.
  - reflexivity.
  - exists σJ, σA. split; [exact HJ|]. split; [exact HA|]. by rewrite PJ, PA.
Defined.

(** A device that is past its claim, for the invariants. *)
Definition bound_run : list (env * @input unit) := [claim_of keyX; go 0 (Dialed (Ok keyX))].
Definition bound_sys : @sys unit := default init (outcome bound_run).
Lemma bound_reachable : reachable key0 bound_sys.
Proof. apply (pairing_steps_reachable key0 bound_run init); [constructor|vm_compute; reflexivity]. Defined.

Lemma session_is_live_witness : ∃ k, tasks bound_sys !! 0%nat = Some k ∧ bound k = true.
Proof. destruct (session_is_live key0 bound_sys bound_reachable) as [_ H]. by apply (H (mkSession 0 true)). Defined.

Lemma phase_announced_witness : last_announced Idle (trace bound_sys) = Claiming.
Proof. rewrite (phase_announced key0 bound_sys bound_reachable). vm_compute. reflexivity. Defined.

(** The joiner of an honest ceremony, up to the end. *)
Definition joined_sys : @sys unit :=
  default init (steps keyX (joiner_shows (λ _, env0) key0 (blake3 (fill env0 32)) (fill env0 32) [] ++ joiner_joins (λ _, env0) enrollment0) init).
Lemma joined_reachable : reachable keyX joined_sys.
Proof.
  apply (pairing_steps_reachable keyX (joiner_shows (λ _, env0) key0 (blake3 (fill env0 32)) (fill env0 32) [] ++ joiner_joins (λ _, env0) enrollment0) init);
    [constructor|vm_compute; reflexivity].
Defined.

Lemma confirmations_precede_witness : did_confirm (trace joined_sys) 0.
Proof.
  destruct (confirmations_precede keyX joined_sys joined_reachable) as [_ H].
  apply (H (AdoptionStarted 0 enrollment0)), (list_elem_of_lookup_2 _ 11). vm_compute. reflexivity.
Defined.

Lemma offers_claimed_once_witness : claims (trace joined_sys) = [0%nat] ∧ NoDup (claims (trace joined_sys)).
Proof. split; [vm_compute; reflexivity|]. exact (sc_once _ (offers_claimed_once keyX joined_sys joined_reachable)). Defined.
End Replaced.
